(* ===== verification/_CoqProject ===== *)
-Q . S2P
Prelude.v
Text.v
Storage.v
Ring.v
Heap.v
WeakMemory.v
SPSCQueue.v
SPSCArray.v
SPSCWeak.v
MPSCQueue.v
MPSCProgress.v
MPSCWeak.v
Orderbook.v
OrderText.v
LogFormat.v
SPSCLogger.v
LoggerQueues.v
Vector.v
Arena.v
Bytes.v
XorBitant.v
SpinMutex.v
LockWeak.v
ThreadSafeQueue.v
SharedPtr.v
SharedThreads.v
CountWeak.v
UniquePtr.v
ThreadPool.v
Stod.v
Toml.v
Effects.v
Socket.v
Tcp.v
Udp.v
Network.v
Cassandra.v
Logger.v
LoggerImpl.v
Any.v
Matrix.v
Numeric.v
Rounding.v
Time.v
FloatTime.v
Programs.v
Tests.v
