(* ===== verification/Prelude.v ===== *)
(** * Fiah: a verification development for the FastInAHurry C++ library

    FastInAHurry is a header-only C++23 library of building blocks for fast
    trading software: lock-free queues, an order book, a growable array, owning
    pointers, an arena, locks and a thread pool, loggers, sockets, a database
    client, a configuration parser, clocks and some numerical routines.  This
    development gives each of them a model in Rocq, written after the code
    function by function, and proves what makes it correct.  Paths are under
    src/include/fiah/ unless they begin with src/.

    ** How the code is modelled

    - Outcomes.  [outcome] (this file) separates a call that returns from one
      that throws, one that stops the process, and one whose behaviour C++ leaves
      undefined.  That no call of a correct client is [Undef] is the memory
      safety of a component.
    - Integers.  An integer is a [Z].  Unsigned operations wrap in writing
      ([u64], [u32], [u16], [+u64]...); signed ones that leave their range are
      [Undef] ([chk_i32], [Time.chk_i64]).
    - Memory.  Blocks on heaps whose names are never used again ([Heap]),
      element slots that are raw, alive or moved from ([Storage], [Vector]),
      bytes by address ([Bytes]), address ranges ([Arena]).
    - Threads.  A thread is a program counter; [exec] runs one step of one thread
      and any schedule is allowed.  A step makes one access to shared data.
      Atomics are sequentially consistent in the first model of a component;
      where the code asks for weaker orders, a second model ([SPSCWeak],
      [MPSCWeak], [LockWeak], [CountWeak]) runs the same program points over the
      release and acquire memory of [WeakMemory], in which loads may answer old
      values and a data race is [Undef].
    - The outside.  Calls of the operating system and of the Cassandra driver
      are effects ([Effects]) answered by a [Handler], a parameter constrained to
      documented behaviour; each such hypothesis has a concrete instance.
    - Standard library.  Containers are lists and maps; the algorithms used are
      definitions ([Orderbook.lower_bound], [Text.find_if], [Arena.align],
      [Time.duration_cast]).

    ** The parts

    Foundations: [Prelude] (outcomes, integers, runs, schedules, simulation,
    sums over maps), [Text] (strings and numbers in decimal), [Storage], [Ring]
    (slots of a ring addressed by counters modulo a power of two), [Heap],
    [WeakMemory] (messages, views, races), [Effects] (programs of calls and their
    logic).

    Queues and locks.
    - [SPSCQueue] (structs/SPSCQueue.hh): producer and consumer over two
      counters.  [spsc_refines_fifo]: every interleaving is one of a bounded
      FIFO queue; [spsc_safe]: no slot is read raw, built twice or raced for;
      each call ends in a bounded number of its own steps; the destructor
      destroys what is left.  [SPSCWeak]: the four release and acquire orders of
      the code make every schedule race free and FIFO ([spsc_orders_suffice]),
      and none of them can be relaxed ([spsc_orders_needed]).  [SPSCArray]: [pop] of
      a queue of arrays, which overruns its argument ([pop_array_overruns]).
    - [MPSCQueue] (structs/MPSCQueue.hh): producers take tickets by
      compare-exchange.  [mpsc_fifo]: values come out in the order of their
      tickets, once each; [mpsc_safe]; [mpsc_spurious_full] exhibits a push that
      answers full on an empty queue.  [MPSCWeak]: the same for the memory orders
      of this queue ([mpsc_orders_suffice]); one release of the five is not
      needed ([mpsc_clear_may_be_relaxed]), the other orders are.  [MPSCProgress]:
      pushes are lock-free ([mpsc_push_lock_free]).
    - [ThreadSafeQueue] (structs/ThreadSafeQueue.hh): the queue under the mutex is
      an ordinary object read and written in steps of their own, and a step in a
      data race is [Undef].  [tsq_fifo]: order, and every step defined as long as
      [empty], which takes no mutex, is not called; [tsq_no_lost_wakeup]: no
      consumer sleeps on a value that nobody is coming for.
    - [SpinMutex] (thread/SpinMutex.hpp): [lock_mutual_exclusion];
      [try_lock_inverted] shows the result of [try_lock] to be negated.
      [LockWeak]: what the threads that hold the mutex do to the data it protects
      never races ([lock_orders_suffice]), whatever the spinning tests answer.
    - [ThreadPool] (thread/ThreadPool.hpp): [pool_fifo] (tasks are taken in the
      order of the calls, and run once by the worker that took them; the queue is
      checked for races as above), [pool_runs_everything] (from every state before the destructor, the pool can run every task
      enqueued), [pool_shutdown_completes];
      [pool_destructor_races] shows members destroyed while workers use them.

    Data and memory.
    - [Orderbook], [OrderText] (structs/Orderbook.hh): [AddOrder] with its
      matching loop and binary search, [CancelOrder].
      [AddOrder_price_time_priority] and [session_refines]: the book refines
      price-time priority over unordered sets of orders, for whole sessions;
      quantity is conserved.
    - [Vector] (structs/Vector.hh): [vector_refines_list] for sessions of
      operations, with a destructor that frees no block in which an element is
      alive (doing so is [Undef] in [delete_block]); the copies and the self-insertions that go wrong are theorems
      of their own.
    - [Arena] (memory/BumpArena.hh, memory/BumpAllocator.hh): the allocator is
      proved against the class [Arena], which [BumpArena] implements; blocks are
      aligned, inside the buffer and disjoint.
    - [Bytes] (memory/Memcpy.cc, Memmove.cc, Strcpy.cc): agreement with the
      memory before the call, overlaps included.
    - [SharedPtr], [SharedThreads] (handle/SharedPtr.hh): first every operation
      run by one thread, with exact counts, then the same operations by any
      number of threads with one step per atomic access of [m_count]:
      [shared_threads_safe] (nothing is used after it was freed),
      [shared_threads_lifetime] (deleted exactly once, after the last handle),
      [shared_calls_wait_free].  The invariant is a set of counts: references by
      value, destroying threads by block, owners by object.  [CountWeak]: the count
      of one block with the memory orders of the code, the plain accesses to the
      object and the block checked for races ([count_orders_suffice]); the orders
      of [fetch_sub] are needed, the others are not.
    - [UniquePtr] (handle/UniquePtr.hh): every program is defined, each object is
      deleted once and by the deleter that owns it.
    - [Any] (handle/Any.cc): an [Any] answers its value and leaks nothing.

    Input, output, logging.
    - [Socket], [Tcp], [Udp] (io/Socket.hh, Tcp.hh, TcpClient.hh, TcpServer.hh,
      Udp.hh, error/Error.hh): operations as programs of system calls, with
      theorems on each outcome; [Network]: for any program over objects of these
      classes, on any kernel, every open descriptor has one owner
      ([net_owns_descriptors]), where an [int] handed to a [Socket] is negative or a
      descriptor the program opened and gives away.
    - [Cassandra] (io/Cassandra.hh): handles of the driver are freed on every
      path, and a row inserted is the row selected, by a driver that carries out
      what the texts of the statements say (tokens and a parser for the CQL that
      the code writes, tables with their columns).
    - [Stod], [Toml] (utils/TomlParser.hh, io/Config.hh): the parser implements
      its grammar, in which every file has a reading ([toml_load_correct]); a
      configuration written out is read back ([config_roundtrip]); a decimal number is read as the nearest
      [double] ([get_double_nearest]).  [Stod] holds [std::stoi] and [std::stod].
    - [LogFormat], [SPSCLogger] (utils/SPSCLogger.hh): the text of a line and its
      bounds; registration, consumer and destructor over the class [QueueOps] of
      queues, with theorems first of queues that are lists ([logger_fifo],
      [logger_shutdown]).
    - [LoggerQueues]: the same logger over the queues of [SPSCQueue], whose steps
      interleave with everything else.  The class [QueueLaws] is what the logger
      needs of them; [SPSCQueue] is an instance.  [queued_logger_fifo]: no step is
      undefined, and the records of a thread are written once, in order;
      [queued_logger_shutdown]: the destructor leaves none behind in the queues
      the consumer knew of.
    - [Logger] (utils/Logger.hh, utils/SimpleLogger.hh): the lines of one logger
      reach the output whole.  [LoggerImpl] (utils/LoggerImpl.hpp): an earlier
      logger without a mutex, whose calls race for the time.

    Clocks and numbers.
    - [Time], [FloatTime] (utils/Timer.hh, TimeStamp.hh, TSCTimer.hh): readings
      in ticks, and in floating point over a class of scalars.
    - [XorBitant] (utils/XorBitant.hh): the step of the generator permutes its
      states.
    - [Numeric] (math/AutoDiff.hpp, FiniteDiff.hpp, NewtonRaphson.hpp, main.cc):
      written over [Scalar], run in binary64, proved on the reals: dual numbers
      carry the derivative, Newton's method reaches the root of a quadratic.
      [Rounding]: the same differences when every operation rounds
      ([finite_diff_error] bounds their distance to the derivative).
    - [Matrix] (math/Matrix.hpp): a matrix keeps its shape.

    Programs and tests.
    - [Programs] (src/examples/spsc_queue_example.cc, the main program of
      handle/Any.cc): clients of the components.  [example_ends]: the two spinning
      threads of the example, run over the steps of [SPSCQueue], return once each is
      given its turns, and every item has then arrived in order.
    - [Tests] (src/tests): the unit tests replayed by evaluating the definitions.

    ** Bounds and fuel

    - Positions of the queues are 64-bit counters that wrap.  [SPSCQueue] needs
      no bound on the length of a run, nor does [SPSCWeak]; the theorems on
      [MPSCQueue] and [MPSCWeak] are for runs of fewer than 2^64 steps (ready flags do not tell turns apart).
    - The counts of [SharedPtr], [SharedThreads] and [CountWeak] are for schedules
      of fewer than 2^64 - 1 actions, beyond which [m_count] itself could wrap.
    - Newton's method turns at most 1000 times, as the code's counter does; the
      binary search and the matching loop get the length of what they walk over
      as fuel, and are proved never to run out.
    - A decimal of twenty digits holds every 64-bit number.

    ** Not modelled

    - Weak memory beyond [WeakMemory]: its model of release and acquire lets no
      load answer a value not yet stored; the whole programs of [SharedThreads],
      [ThreadPool] and the stop flag of [SPSCLogger] are sequentially consistent.
      Failure of [operator new].
    - Element and object types whose own functions call back into the container
      or pointer that holds them; a managed object that holds handles itself.
    - Timers and log calls inside [TcpServer]; the bytes a socket transfers (the
      kernel answers their number).  Locales other than C in [std::stod].
    - The rounding of floating-point results outside [Stod] and [Rounding], apart
      from examples run in binary64: Newton's method and the dual numbers are proved
      on the reals.  [Rounding] takes the standard model of rounded operations, in
      which nothing overflows.  Single precision in [to_micro] is the class of scalars.
    - The copy constructor of [SimpleMatrix], which does not compile.
    - The conversion to text of the numbers that math/main.cc prints.  fiah::Error,
      which nothing uses.
    - src/benchmarks, src/check and the tests that only print: they assert nothing.
    *)

From stdpp Require Import base tactics numbers list option gmap.
From Stdlib Require Import ZArith Lia.
#[local] Open Scope Z_scope.

(** ** Outcomes of C++ code

    A call either returns, stops the process (a failing [assert], a trap, an
    exception leaving a [noexcept] function), throws to its caller, or
    executes something the C++ standard leaves undefined. *)

Inductive exn : Type :=
| out_of_range
| invalid_argument
| bad_cast
| length_error.

Inductive outcome (A : Type) : Type :=
| Ret (a : A)
| Throw (e : exn)
| Abort
| Undef
| OutOfFuel.
Arguments Ret {A} _.
Arguments Throw {A} _.
Arguments Abort {A}.
Arguments Undef {A}.
Arguments OutOfFuel {A}.

Definition obind {A B : Type} (m : outcome A) (f : A → outcome B) : outcome B :=
  match m with
  | Ret a => f a
  | Throw e => Throw e
  | Abort => Abort
  | Undef => Undef
  | OutOfFuel => OutOfFuel
  end.

Declare Scope fiah_scope.
Delimit Scope fiah_scope with fiah.
Notation "'let!' x := m 'in' k" := (obind m (λ x, k))
  (at level 10, x pattern, m at level 100, k at level 200) : fiah_scope.
Notation "'assert!' b ';;' k" := (if b then k else Abort)
  (at level 10, b at level 99, k at level 200) : fiah_scope.
Notation "'require!' b ';;' k" := (if b then k else Undef)
  (at level 10, b at level 99, k at level 200) : fiah_scope.

(** [returns m P]: the call returns, with a value satisfying [P]. *)
Definition returns {A : Type} (m : outcome A) (P : A → Prop) : Prop :=
  match m with Ret a => P a | _ => False end.

Lemma returns_bind {A B} (m : outcome A) (f : A → outcome B) (P : A → Prop) (Q : B → Prop) :
  returns m P → (∀ a, P a → returns (f a) Q) → returns (obind m f) Q.
Proof. destruct m; simpl; eauto; tauto. Qed.

Lemma returns_mono {A} (m : outcome A) (P Q : A → Prop) :
  returns m P → (∀ a, P a → Q a) → returns m Q.
Proof. destruct m; simpl; eauto. Qed.

Lemma returns_inv {A} (m : outcome A) (P : A → Prop) :
  returns m P → ∃ a, m = Ret a ∧ P a.
Proof. destruct m; simpl; naive_solver. Qed.

(** ** Machine integers

    An unsigned [w]-bit integer is a [Z] in [0, 2^w); every operation that can
    leave the range wraps explicitly.  Signed arithmetic that leaves its range
    is undefined in C++ ([chk_i32]). *)

Definition wrap (w z : Z) : Z := z mod 2 ^ w.
Definition u64 (z : Z) : Z := wrap 64 z.
Definition u32 (z : Z) : Z := wrap 32 z.
Definition u16 (z : Z) : Z := wrap 16 z.

Notation "a +u64 b" := (u64 (a + b)) (at level 50, left associativity) : fiah_scope.
Notation "a -u64 b" := (u64 (a - b)) (at level 50, left associativity) : fiah_scope.
Notation "a *u64 b" := (u64 (a * b)) (at level 40, left associativity) : fiah_scope.
Notation "a <<u64 b" := (u64 (Z.shiftl a b)) (at level 45, left associativity) : fiah_scope.

Definition in_u64 (z : Z) : Prop := 0 ≤ z < 2 ^ 64.
Definition in_i32 (z : Z) : Prop := - 2 ^ 31 ≤ z < 2 ^ 31.
Definition in_i32b (z : Z) : bool := (- 2 ^ 31 <=? z) && (z <? 2 ^ 31).
Definition in_i64 (z : Z) : Prop := - 2 ^ 63 ≤ z < 2 ^ 63.

(** The result of a signed [int] operation: undefined outside the range. *)
Definition chk_i32 (z : Z) : outcome Z := if in_i32b z then Ret z else Undef.

Lemma in_i32b_spec z : in_i32b z = true ↔ in_i32 z.
Proof. unfold in_i32b, in_i32. rewrite andb_true_iff, Z.leb_le, Z.ltb_lt. lia. Qed.

Lemma chk_i32_ok z : in_i32 z → chk_i32 z = Ret z.
Proof. intros H%in_i32b_spec. unfold chk_i32. by rewrite H. Qed.

Lemma u64_range z : in_u64 (u64 z).
Proof. unfold in_u64, u64, wrap. apply Z.mod_pos_bound. lia. Qed.

Lemma u64_small z : in_u64 z → u64 z = z.
Proof. unfold in_u64, u64, wrap. intros. by apply Z.mod_small. Qed.

Lemma u64_add_l a b : u64 (u64 a + b) = u64 (a + b).
Proof. unfold u64, wrap. apply Zplus_mod_idemp_l. Qed.

Lemma u64_sub_u64 a b : u64 (u64 a - u64 b) = u64 (a - b).
Proof. unfold u64, wrap. symmetry. apply Zminus_mod. Qed.

Lemma u64_eq_window a b : 0 ≤ a - b < 2 ^ 64 → u64 a = u64 b → a = b.
Proof.
  intros Hw Heq. assert (u64 (a - b) = 0) as H.
  { rewrite <-u64_sub_u64, Heq. by rewrite Z.sub_diag. }
  rewrite u64_small in H by done. lia.
Qed.

Lemma u64_testbit z n : Z.testbit (u64 z) n = (n <? 64) && Z.testbit z n.
Proof.
  unfold u64, wrap. destruct (Z.ltb_spec n 64); simpl.
  - by rewrite Z.mod_pow2_bits_low.
  - by rewrite Z.mod_pow2_bits_high by lia.
Qed.

Lemma in_u64_testbit z n : in_u64 z → 64 ≤ n → Z.testbit z n = false.
Proof.
  intros Hz Hn. rewrite <-(u64_small z) by done. rewrite u64_testbit.
  by rewrite (proj2 (Z.ltb_ge _ _)).
Qed.

Lemma u32_range z : 0 ≤ u32 z < 2 ^ 32.
Proof. unfold u32, wrap. apply Z.mod_pos_bound. lia. Qed.

Lemma u16_range z : 0 ≤ u16 z < 2 ^ 16.
Proof. unfold u16, wrap. apply Z.mod_pos_bound. lia. Qed.

(** ** Transition systems

    Concurrent components are step relations labelled by events; a [run] is a
    finite execution with its trace, extended at the right. *)

Section Runs.
Context {St Ev : Type} (step : St → Ev → St → Prop).

Inductive run : St → list Ev → St → Prop :=
| run_nil s : run s [] s
| run_snoc s tr s' e s'' : run s tr s' → step s' e s'' → run s (tr ++ [e]) s''.

Lemma run_one s e s' : step s e s' → run s [e] s'.
Proof. intros H. apply (run_snoc _ [] s); [constructor | done]. Qed.

Lemma run_app s tr s' tr' s'' : run s tr s' → run s' tr' s'' → run s (tr ++ tr') s''.
Proof.
  intros H1 H2. revert H1. induction H2; intros H1; rewrite ?app_nil_r; [done |].
  rewrite (assoc_L (++)). eauto using run_snoc.
Qed.

(** Rule induction for an invariant that may speak of the trace so far. *)
Lemma run_invariant (I : list Ev → St → Prop) s0 :
  I [] s0 →
  (∀ tr s e s', I tr s → step s e s' → I (tr ++ [e]) s') →
  ∀ tr s, run s0 tr s → I tr s.
Proof. intros H0 HI tr s Hrun. induction Hrun; eauto. Qed.
End Runs.
Create HintDb fiah.
#[export] Hint Constructors run : fiah.

(** *** Executable machines

    Most components are given by a function [exec] that runs one scheduled
    action of a state; the events of a run are the actions with their visible
    results. *)

Section Machines.
Context {Q A E : Type} (exec : Q → A → outcome (Q * option E)).

Definition machine_step (q : Q) (e : A * option E) (q' : Q) : Prop :=
  exec q e.1 = Ret (q', e.2).

(** A whole schedule, with the visible results in order. *)
Fixpoint run_schedule (q : Q) (acts : list A) : outcome (Q * list E) :=
  match acts with
  | [] => Ret (q, [])
  | a :: acts =>
      obind (exec q a) (λ '(q, e),
      obind (run_schedule q acts) (λ '(q, es),
      Ret (q, match e with Some e => e :: es | None => es end)))
  end.

Lemma run_schedule_app (a b : list A) q :
  run_schedule q (a ++ b) =
  obind (run_schedule q a) (λ '(q1, es1), obind (run_schedule q1 b) (λ '(q2, es2), Ret (q2, es1 ++ es2))).
Proof.
  revert q. induction a as [| x a IH]; intros q; simpl.
  { by destruct (run_schedule q b) as [[] | | | |]. }
  destruct (exec q x) as [[q1 e] | | | |]; simpl; try done. rewrite IH.
  destruct (run_schedule q1 a) as [[q2 es] | | | |]; simpl; try done.
  destruct (run_schedule q2 b) as [[q3 es3] | | | |]; simpl; try done. by destruct e.
Qed.

Lemma run_schedule_run (acts : list A) q q' es :
  run_schedule q acts = Ret (q', es) →
  ∃ tr, run machine_step q tr q' ∧ omap snd tr = es ∧ tr.*1 = acts.
Proof.
  revert q es. induction acts as [| a acts IH]; intros q es; simpl.
  { intros [= <- <-]. exists []. by repeat constructor. }
  destruct (exec q a) as [[q1 e] | | | |] eqn:Ha; try done. simpl.
  destruct (run_schedule q1 acts) as [[q2 es'] | | | |] eqn:Hacts; try done. simpl.
  intros [= <- <-]. destruct (IH _ _ Hacts) as (tr & Hrun & <- & <-).
  exists ((a, e) :: tr). split; [| by destruct e].
  change ((a, e) :: tr) with ([(a, e)] ++ tr).
  eapply run_app; [by apply run_one | done].
Qed.

(** If the actions satisfying [P] are defined on the states of an invariant,
    every schedule of them runs to its end there. *)
Lemma run_schedule_total (P : A → Prop) (I : Q → Prop) acts q :
  (∀ q a, P a → I q → ∃ q' e, exec q a = Ret (q', e) ∧ I q') →
  Forall P acts → I q → ∃ q' es, run_schedule q acts = Ret (q', es) ∧ I q'.
Proof.
  intros HI Hacts. revert q. induction Hacts as [| a acts Ha _ IH]; intros q Hq; simpl; [eauto |].
  destruct (HI q a Ha Hq) as (q1 & e & -> & Hq1). simpl.
  destruct (IH q1 Hq1) as (q' & es & -> & ?). simpl. eauto.
Qed.

(** An invariant of the state and the events so far holds at the end of every
    schedule of actions satisfying [P]. *)
Lemma run_schedule_invariant (P : A → Prop) (I : list E → Q → Prop) acts es q q' es' :
  (∀ es q a q' e, P a → I es q → exec q a = Ret (q', e) → I (es ++ option_list e) q') →
  Forall P acts → I es q → run_schedule q acts = Ret (q', es') → I (es ++ es') q'.
Proof.
  intros HI Hacts. revert es q es'. induction Hacts as [| a acts Ha _ IH]; intros es q es' Hq; simpl.
  { intros [= <- <-]. by rewrite app_nil_r. }
  destruct (exec q a) as [[q1 e] | | | |] eqn:Hexec; try done. simpl.
  destruct (run_schedule q1 acts) as [[q2 es2] | | | |] eqn:Hrun; try done. simpl. intros [= <- <-].
  specialize (IH _ _ _ (HI _ _ _ _ _ Ha Hq Hexec) Hrun). rewrite <-(assoc_L (++)) in IH. by destruct e.
Qed.
End Machines.

(** The state a schedule ends in, for concrete executions. *)
Definition final {Q E : Type} (q : Q) (m : outcome (Q * list E)) : Q :=
  match m with Ret (q', _) => q' | _ => q end.

(** *** Forward simulation

    Every concrete step is matched by the abstract steps of the events it makes
    visible ([vis]); then every concrete run is matched by an abstract run with
    the visible trace. *)

Section Simulation.
Context {C A Ev Vis : Type}.
Context (cstep : C → Ev → C → Prop) (astep : A → Vis → A → Prop).
Context (vis : Ev → option Vis) (R : C → A → Prop).

Definition simulates : Prop :=
  ∀ c e c' a, R c a → cstep c e c' →
    match vis e with
    | None => R c' a
    | Some v => ∃ a', astep a v a' ∧ R c' a'
    end.

Lemma simulation_run c0 a0 tr c :
  simulates → R c0 a0 → run cstep c0 tr c →
  ∃ a, run astep a0 (omap vis tr) a ∧ R c a.
Proof.
  intros Hsim HR Hrun. induction Hrun as [s | s tr s' e s'' Hrun IH Hstep].
  - exists a0. split; [constructor | done].
  - destruct (IH HR) as (a & Ha & HRa). specialize (Hsim _ _ _ _ HRa Hstep).
    rewrite omap_app. simpl. destruct (vis e) as [v |].
    + destruct Hsim as (a' & Hstep' & HR'). exists a'. eauto with fiah.
    + rewrite app_nil_r. eauto.
Qed.
End Simulation.

(** ** Lists *)

(** Lengths as integers. *)
Abbreviation zlen l := (Z.of_nat (length l)).

Lemma lookup_snoc_Some_inv {A} (l : list A) x i y :
  (l ++ [x]) !! i = Some y → l !! i = Some y ∨ (i = length l ∧ y = x).
Proof.
  intros H. destruct (decide (i < length l)%nat) as [Hlt | Hge].
  - left. by rewrite lookup_app_l in H.
  - right. rewrite lookup_app_r in H by lia.
    apply list_lookup_singleton_Some in H as [? ?]. split; [lia | done].
Qed.

Lemma omap_length_le {A B} (f : A → option B) (l : list A) :
  (length (omap f l) ≤ length l)%nat.
Proof. induction l as [| x l IH]; csimpl; [done |]. destruct (f x); csimpl; lia. Qed.

Lemma list_snoc_destruct {A} (l : list A) : l = [] ∨ ∃ l' x, l = l' ++ [x].
Proof. induction l using rev_ind; eauto. Qed.

(** ** Sums over finite maps *)

(** The sum of [f] over the values of a map, to count them. *)
Definition msum {K A} `{Countable K} (f : A → nat) (m : gmap K A) : nat :=
  map_fold (λ _ a n, f a + n)%nat 0%nat m.
Definition at_key {K A} `{Countable K} (f : A → nat) (m : gmap K A) (k : K) : nat :=
  from_option f 0%nat (m !! k).

Section Sums.
Context {K A} `{Countable K} (f : A → nat).
Implicit Types (m : gmap K A) (k : K) (a : A).

Lemma msum_empty : msum f (∅ : gmap K A) = 0%nat.
Proof. apply map_fold_empty. Qed.

Lemma msum_insert_fresh m k a : m !! k = None → msum f (<[k := a]> m) = (f a + msum f m)%nat.
Proof. intros Hk. unfold msum. rewrite map_fold_insert_L; [done | intros; lia | done]. Qed.

Lemma msum_delete m k : (msum f (delete k m) + at_key f m k = msum f m)%nat.
Proof.
  unfold at_key. destruct (m !! k) as [a |] eqn:Hk; simpl.
  - rewrite <-(insert_delete_id m k a) at 2 by done.
    rewrite msum_insert_fresh by apply lookup_delete_eq. lia.
  - rewrite delete_id by done. lia.
Qed.

Lemma msum_insert m k a : (msum f (<[k := a]> m) + at_key f m k = f a + msum f m)%nat.
Proof.
  rewrite <-insert_delete_eq, msum_insert_fresh by apply lookup_delete_eq.
  pose proof (msum_delete m k). lia.
Qed.

Lemma msum_replace m k a b :
  m !! k = Some a → (msum f (<[k := b]> m) + f a = f b + msum f m)%nat.
Proof. intros Hk. pose proof (msum_insert m k b) as H1. unfold at_key in H1. by rewrite Hk in H1. Qed.

Lemma msum_remove m k a : m !! k = Some a → (msum f (delete k m) + f a = msum f m)%nat.
Proof. intros Hk. pose proof (msum_delete m k) as H1. unfold at_key in H1. by rewrite Hk in H1. Qed.

Lemma msum_pos m : (0 < msum f m)%nat → ∃ k a, m !! k = Some a ∧ (0 < f a)%nat.
Proof.
  induction m as [| k a m Hk IH] using map_ind; [rewrite msum_empty; lia |].
  rewrite msum_insert_fresh by done. intros Hpos. destruct (decide (0 < f a)%nat) as [Ha | Ha].
  - exists k, a. by rewrite lookup_insert_eq.
  - destruct IH as (k' & a' & Hl & Hf); [lia |]. exists k', a'. split; [| done].
    rewrite lookup_insert_ne; [done |]. congruence.
Qed.

Lemma msum_ge m k a : m !! k = Some a → (f a ≤ msum f m)%nat.
Proof. intros Hk. pose proof (msum_delete m k) as Hd. unfold at_key in Hd. rewrite Hk in Hd. simpl in Hd. lia. Qed.

Lemma msum_ge2 m k k' a a' :
  m !! k = Some a → m !! k' = Some a' → k ≠ k' → (f a + f a' ≤ msum f m)%nat.
Proof.
  intros Hk Hk' Hne. pose proof (msum_remove m k a Hk).
  pose proof (msum_ge (delete k m) k' a') as Hge. rewrite lookup_delete_ne in Hge by done.
  specialize (Hge Hk'). lia.
Qed.

Lemma msum_le_size m : (∀ a, (f a ≤ 1)%nat) → (msum f m ≤ size m)%nat.
Proof.
  intros Hf. induction m as [| k a m Hk IH] using map_ind; [rewrite msum_empty; lia |].
  rewrite msum_insert_fresh, map_size_insert_None by done. specialize (Hf a). lia.
Qed.

Lemma msum_le (g : A → nat) m : (∀ a, (f a ≤ g a)%nat) → (msum f m ≤ msum g m)%nat.
Proof.
  intros Hf. induction m as [| k a m Hk IH] using map_ind; [by rewrite !msum_empty |].
  unfold msum in *. rewrite !map_fold_insert_L by (done || (intros; lia)). specialize (Hf a). lia.
Qed.
End Sums.

(** ** Automation *)

(** Case analysis on every [match] and boolean test of a hypothesis or goal. *)
Ltac split_match :=
  repeat match goal with
  | |- context [match ?x with _ => _ end] => destruct x eqn:?; simplify_eq/=
  end.

Ltac split_match_in H :=
  repeat match type of H with
  | context [match ?x with _ => _ end] => destruct x eqn:?; simplify_eq/=
  end.

(** Decide a closed decidable goal by evaluation. *)
Ltac by_evaluation := apply (bool_decide_unpack _); vm_compute; exact I.

(** Turn boolean comparisons into arithmetic facts. *)
Ltac zify_bool :=
  repeat match goal with
  | H : (_ && _)%bool = true |- _ => apply andb_true_iff in H; destruct H
  | H : (_ || _)%bool = false |- _ => apply orb_false_iff in H; destruct H
  | H : negb _ = true |- _ => apply negb_true_iff in H
  | H : negb _ = false |- _ => apply negb_false_iff in H
  | H : (_ =? _) = true |- _ => apply Z.eqb_eq in H
  | H : (_ =? _) = false |- _ => apply Z.eqb_neq in H
  | H : (_ <=? _) = true |- _ => apply Z.leb_le in H
  | H : (_ <=? _) = false |- _ => apply Z.leb_gt in H
  | H : (_ <? _) = true |- _ => apply Z.ltb_lt in H
  | H : (_ <? _) = false |- _ => apply Z.ltb_ge in H
  | H : bool_decide _ = true |- _ => apply bool_decide_eq_true in H
  | H : bool_decide _ = false |- _ => apply bool_decide_eq_false in H
  end.
