(* ===== verification/Text.v ===== *)
(** * Text: strings, searches and numbers in decimal

    A string is the list of its characters (a C string without its terminator).
    Searches answer a position; [npos] and the null pointer are [None]. *)

From stdpp Require Import base tactics numbers list option strings.
From Stdlib Require Import ZArith Lia Ascii.
From S2P Require Import Prelude.
#[local] Open Scope char_scope.
#[local] Open Scope Z_scope.

Abbreviation str := (list ascii).

Definition chr (n : nat) : ascii := ascii_of_nat n.
Definition NEWLINE : ascii := chr 10.
Definition lit (s : string) : str := String.list_ascii_of_string s.

(** ** Searches *)

Fixpoint find_if (p : ascii → bool) (s : str) : option nat :=
  match s with
  | [] => None
  | c :: s => if p c then Some 0%nat else S <$> find_if p s
  end.

Definition find_last_if (p : ascii → bool) (s : str) : option nat :=
  (λ i, (length s - 1 - i)%nat) <$> find_if p (reverse s).

Definition find (c : ascii) (s : str) : option nat := find_if (λ x, bool_decide (x = c)) s.

(** ** Numbers *)

Definition digit_char (d : Z) : ascii := ascii_of_nat (48 + Z.to_nat d).

(** The decimal notation of a natural number. *)
Fixpoint decimal (fuel : nat) (n : Z) : str :=
  match fuel with
  | O => []
  | S fuel => if n <? 10 then [digit_char n] else decimal fuel (n / 10) ++ [digit_char (n mod 10)]
  end.

(** [%0kd] and [%0klu]: at least [k] digits; twenty digits hold any 64-bit number. *)
Definition padded (k : nat) (n : Z) : str :=
  let d := decimal 20 n in replicate (k - length d) ("0" : ascii) ++ d.

Lemma decimal_length fuel n k :
  0 ≤ n < 10 ^ Z.of_nat k → (0 < k)%nat → (length (decimal fuel n) ≤ k)%nat.
Proof.
  revert n k. induction fuel as [| fuel IH]; intros n k Hn Hk; cbn [decimal length]; [lia |].
  destruct (Z.ltb_spec n 10); cbn [length]; [lia |]. rewrite length_app. cbn [length].
  destruct k as [| [| k]]; [lia | simpl in Hn; lia |].
  enough (length (decimal fuel (n / 10)) ≤ S k)%nat by lia. apply IH; [| lia].
  split; [apply Z.div_pos; lia |]. apply Z.div_lt_upper_bound; [lia |].
  replace (10 * 10 ^ Z.of_nat (S k)) with (10 ^ Z.of_nat (S (S k))); [lia |].
  rewrite (Nat2Z.inj_succ (S k)), Z.pow_succ_r by lia. done.
Qed.

Lemma padded_length k n : 0 ≤ n < 10 ^ Z.of_nat k → (0 < k)%nat → length (padded k n) = k.
Proof.
  intros Hn Hk. unfold padded. cbv zeta. rewrite length_app, length_replicate.
  pose proof (decimal_length 20 n k Hn Hk). lia.
Qed.

(** ** C strings *)

(** [strrchr]: the position of the last [c] *)
Definition strrchr (s : str) (c : ascii) : option nat := find_last_if (λ x, bool_decide (x = c)) s.

(** [snprintf] of a text into a buffer of [size > 0] bytes: what the buffer
    holds before the terminator, and the length the whole text has. *)
Definition snprintf (size : nat) (text : str) : str * Z := (take (size - 1) text, zlen text).

Lemma snprintf_fits size text :
  (length text < size)%nat → snprintf size text = (text, zlen text).
Proof. intros. unfold snprintf. by rewrite take_ge by lia. Qed.

Lemma find_if_absent p s : Forall (λ c, p c = false) s → find_if p s = None.
Proof. induction 1 as [| c s Hc _ IH]; cbn [find_if]; [done |]. by rewrite Hc, IH. Qed.

Lemma strrchr_absent s c : c ∉ s → strrchr s c = None.
Proof.
  intros Hs. unfold strrchr, find_last_if. rewrite find_if_absent; [done |].
  apply Forall_reverse, Forall_forall. intros x Hx. apply bool_decide_eq_false. by intros ->.
Qed.

(** The last [c] is the one that no [c] follows. *)
Lemma strrchr_last a c b : c ∉ b → strrchr (a ++ c :: b) c = Some (length a).
Proof.
  intros Hb. unfold strrchr, find_last_if.
  rewrite reverse_app, reverse_cons, <-(assoc_L (++)). cbn [app].
  assert (∀ l r, c ∉ l → find_if (λ x, bool_decide (x = c)) (l ++ c :: r) = Some (length l)) as Hfind.
  { intros l r. induction l as [| x l IH]; intros Hl; cbn [app find_if length].
    - by rewrite bool_decide_eq_true_2.
    - rewrite not_elem_of_cons in Hl. destruct Hl as [Hx Hl].
      rewrite bool_decide_eq_false_2 by done. by rewrite IH. }
  rewrite Hfind by (by rewrite elem_of_reverse). simpl. f_equal.
  rewrite length_app, length_reverse. cbn [length]. lia.
Qed.

Lemma drop_after (a : str) c b : drop (S (length a)) (a ++ c :: b) = b.
Proof. rewrite <-Nat.add_1_l, <-skipn_skipn. by rewrite drop_app_length. Qed.

(** ** Lines *)

(** [std::getline] until the end of the file *)
Fixpoint split_lines (acc : str) (content : str) : list str :=
  match content with
  | [] => match acc with [] => [] | _ => [acc] end
  | c :: content =>
      if bool_decide (c = NEWLINE) then acc :: split_lines [] content
      else split_lines (acc ++ [c]) content
  end.

(** Lines, each with its newline. *)
Definition unlines (lines : list str) : str := flat_map (λ l, l ++ [NEWLINE]) lines.

Lemma split_lines_line acc l rest :
  NEWLINE ∉ l → split_lines acc (l ++ NEWLINE :: rest) = (acc ++ l) :: split_lines [] rest.
Proof.
  revert acc. induction l as [| c l IH]; intros acc Hl; cbn [app split_lines].
  { rewrite bool_decide_eq_true_2 by done. by rewrite app_nil_r. }
  rewrite not_elem_of_cons in Hl. destruct Hl as [Hc Hl]. rewrite bool_decide_eq_false_2 by done.
  rewrite IH by done. by rewrite <-(assoc_L (++)).
Qed.

Lemma split_unlines lines :
  Forall (λ l, NEWLINE ∉ l) lines → split_lines [] (unlines lines) = lines.
Proof.
  unfold unlines. induction 1 as [| l lines Hl Hlines IH]; [done |]. cbn [flat_map].
  rewrite <-(assoc_L (++)). cbn [app]. rewrite split_lines_line by done. by rewrite IH.
Qed.

(** A text without a newline is one line, if it is not empty. *)
Lemma split_lines_last acc l :
  NEWLINE ∉ l → l ≠ [] → split_lines acc l = [acc ++ l].
Proof.
  revert acc. induction l as [| c l IH]; intros acc Hl Hne; [done |]. cbn [split_lines].
  rewrite not_elem_of_cons in Hl. destruct Hl as [Hc Hl]. rewrite bool_decide_eq_false_2 by done.
  destruct l as [| d l].
  - cbn [split_lines]. by destruct acc.
  - rewrite IH by done. by rewrite <-(assoc_L (++)).
Qed.

Lemma split_unlines_open lines l :
  Forall (λ l, NEWLINE ∉ l) lines → NEWLINE ∉ l → l ≠ [] → split_lines [] (unlines lines ++ l) = lines ++ [l].
Proof.
  intros Hlines Hl Hne. unfold unlines. induction Hlines as [| m lines Hm Hlines IH]; cbn [flat_map app].
  - by apply split_lines_last.
  - rewrite <-!(assoc_L (++)). cbn [app]. rewrite split_lines_line by done. by rewrite IH.
Qed.

(** Every text is lines that end in a newline, and a rest without one. *)
Lemma unlines_total content :
  ∃ lines l, Forall (λ l, NEWLINE ∉ l) lines ∧ (NEWLINE ∉ l) ∧ content = unlines lines ++ l.
Proof.
  induction content as [| c content (lines & l & Hlines & Hl & ->)].
  { exists [], []. split_and!; [done | by apply not_elem_of_nil | done]. }
  destruct (decide (c = NEWLINE)) as [-> | Hc].
  - exists ([] :: lines), l. split_and!; [| done | done]. constructor; [by apply not_elem_of_nil | done].
  - destruct Hlines as [| m lines Hm Hlines].
    + exists [], (c :: l). split_and!; [done | by rewrite not_elem_of_cons | done].
    + exists ((c :: m) :: lines), l. split_and!; [| done | done].
      constructor; [by rewrite not_elem_of_cons | done].
Qed.
