(* ===== verification/Storage.v ===== *)
(** * Storage: raw storage and object lifetimes

    The containers of the library hold their elements in uninitialised bytes
    and run constructors and destructors by hand ([std::construct_at],
    [std::destroy_at], moves through a pointer).  A [cell] is one element-sized
    piece of such storage; an access outside an object's lifetime, or a
    construction over an object still alive, is [Undef]. *)

From stdpp Require Import base tactics numbers list option.
From S2P Require Import Prelude.
#[local] Open Scope fiah_scope.

Inductive cell (V : Type) : Type :=
| Raw                (* uninitialised bytes *)
| Live (v : V)       (* an object with value [v] *)
| Moved.             (* an object whose value has been moved out *)
Arguments Raw {V}.
Arguments Live {V} _.
Arguments Moved {V}.

#[export] Instance cell_eq_dec {V} `{EqDecision V} : EqDecision (cell V).
Proof. solve_decision. Defined.

Section Storage.
Context {V : Type}.
Implicit Types (st : list (cell V)) (i n : nat) (v : V).

Implicit Types (c : cell V).

(** [std::construct_at(p, v)] *)
Definition construct_cell v c : outcome (cell V) :=
  match c with Raw => Ret (Live v) | _ => Undef end.

(** [std::destroy_at(p)] *)
Definition destroy_cell c : outcome (cell V) :=
  match c with Live _ | Moved => Ret Raw | Raw => Undef end.

(** [std::move( *p)] as the source of an assignment or construction *)
Definition move_cell c : outcome (V * cell V) :=
  match c with Live v => Ret (v, Moved) | _ => Undef end.

(** reading [*p] *)
Definition read_cell c : outcome V :=
  match c with Live v => Ret v | _ => Undef end.

(** [*p = v]: the assigned object must be alive *)
Definition assign_cell v c : outcome (cell V) :=
  match c with Live _ | Moved => Ret (Live v) | Raw => Undef end.

(** The same on the [i]-th cell of a buffer; outside it, undefined. *)
Definition at_cell st i : outcome (cell V) :=
  match st !! i with Some c => Ret c | None => Undef end.
Definition construct_at st i v : outcome (list (cell V)) :=
  let! c := at_cell st i in
  let! c := construct_cell v c in Ret (<[i := c]> st).
Definition destroy_at st i : outcome (list (cell V)) :=
  let! c := at_cell st i in
  let! c := destroy_cell c in Ret (<[i := c]> st).
Definition move_from st i : outcome (V * list (cell V)) :=
  let! c := at_cell st i in
  let! (v, c) := move_cell c in Ret (v, <[i := c]> st).
Definition read_at st i : outcome V :=
  let! c := at_cell st i in read_cell c.
Definition assign_at st i v : outcome (list (cell V)) :=
  let! c := at_cell st i in
  let! c := assign_cell v c in Ret (<[i := c]> st).

Lemma construct_at_raw st i v :
  st !! i = Some Raw → construct_at st i v = Ret (<[i := Live v]> st).
Proof. unfold construct_at, at_cell. by intros ->. Qed.

Lemma destroy_at_live st i v :
  st !! i = Some (Live v) → destroy_at st i = Ret (<[i := Raw]> st).
Proof. unfold destroy_at, at_cell. by intros ->. Qed.

Lemma destroy_at_moved st i :
  st !! i = Some Moved → destroy_at st i = Ret (<[i := Raw]> st).
Proof. unfold destroy_at, at_cell. by intros ->. Qed.

Lemma move_from_live st i v :
  st !! i = Some (Live v) → move_from st i = Ret (v, <[i := Moved]> st).
Proof. unfold move_from, at_cell. by intros ->. Qed.

Lemma read_at_live st i v : st !! i = Some (Live v) → read_at st i = Ret v.
Proof. unfold read_at, at_cell. by intros ->. Qed.

Lemma assign_at_live st i v w :
  st !! i = Some (Live w) → assign_at st i v = Ret (<[i := Live v]> st).
Proof. unfold assign_at, at_cell. by intros ->. Qed.
End Storage.
