(* ===== verification/Ring.v ===== *)
(** * Ring: power-of-two ring buffers indexed by wrapping counters

    SPSCQueue and MPSCQueue keep 64-bit counters that only grow and wrap, and
    find the slot of counter [i] as [i & (capacity - 1)].  The proofs follow
    unbounded counters; this file relates the two views and describes the
    contents of the ring as a function of the unbounded counter. *)

From stdpp Require Import base tactics numbers list option.
From Stdlib Require Import ZArith Lia.
From S2P Require Import Prelude.
#[local] Open Scope Z_scope.

(** The slot of the unbounded counter [i] in a ring of [2 ^ k] slots. *)
Definition slot (k i : Z) : nat := Z.to_nat (i mod 2 ^ k).

(** The slot the code computes: [idx & kMask]. *)
Definition mask_slot (k idx : Z) : nat := Z.to_nat (Z.land idx (2 ^ k - 1)).

Section Ring.
Context (k : Z) (Hk : 0 ≤ k < 64).

Lemma pow_k_pos : 0 < 2 ^ k.
Proof using Hk. apply Z.pow_pos_nonneg; lia. Qed.

Lemma pow_k_divides : ∃ q, 2 ^ 64 = q * 2 ^ k ∧ 2 ≤ q.
Proof using Hk.
  exists (2 ^ (64 - k)). rewrite <-Z.pow_add_r by lia. split; [f_equal; lia |].
  change 2 with (2 ^ 1) at 1. apply Z.pow_le_mono_r; lia.
Qed.

Lemma pow_k_lt : 2 ^ k < 2 ^ 64.
Proof using Hk. apply Z.pow_lt_mono_r; lia. Qed.

(** Masking finds the slot of a counter, wrapped or not. *)
Lemma mask_slot_eq i : mask_slot k i = slot k i.
Proof using Hk.
  unfold mask_slot, slot. f_equal.
  replace (2 ^ k - 1) with (Z.ones k) by (rewrite Z.ones_equiv; lia).
  by rewrite Z.land_ones by lia.
Qed.

Lemma mask_slot_u64 i : mask_slot k (u64 i) = slot k i.
Proof using Hk.
  rewrite mask_slot_eq. unfold slot. f_equal. unfold u64, wrap.
  destruct pow_k_divides as (q & -> & Hq). pose proof pow_k_pos.
  rewrite (Z.mul_comm q), Z.rem_mul_r by lia.
  by rewrite Z.mul_comm, Z_mod_plus_full, Z.mod_mod by lia.
Qed.

Lemma slot_lt i : (slot k i < Z.to_nat (2 ^ k))%nat.
Proof using Hk.
  unfold slot. pose proof (Z.mod_pos_bound i (2 ^ k) pow_k_pos). lia.
Qed.

Lemma slot_inj i j : Z.abs (i - j) < 2 ^ k → slot k i = slot k j → i = j.
Proof using Hk.
  unfold slot. intros Hw Heq.
  pose proof (Z.mod_pos_bound i (2 ^ k) pow_k_pos).
  pose proof (Z.mod_pos_bound j (2 ^ k) pow_k_pos).
  pose proof (Z.div_mod i (2 ^ k)). pose proof (Z.div_mod j (2 ^ k)).
  assert (i mod 2 ^ k = j mod 2 ^ k) by lia. pose proof pow_k_pos.
  destruct (Z.lt_trichotomy (i / 2 ^ k) (j / 2 ^ k)) as [? | [? | ?]]; [nia | | nia].
  nia.
Qed.

Lemma slot_plus_cap i : slot k (i + 2 ^ k) = slot k i.
Proof using Hk.
  unfold slot. f_equal. rewrite <-(Z.mul_1_l (2 ^ k)) at 1.
  apply Z_mod_plus_full.
Qed.

Lemma slot_surj lo (j : nat) :
  (j < Z.to_nat (2 ^ k))%nat → ∃ i, lo ≤ i < lo + 2 ^ k ∧ slot k i = j.
Proof using Hk.
  intros Hj. pose proof pow_k_pos. exists (lo + (Z.of_nat j - lo) mod 2 ^ k).
  pose proof (Z.mod_pos_bound (Z.of_nat j - lo) (2 ^ k)). split; [lia |].
  unfold slot. rewrite Zplus_mod_idemp_r. replace (lo + (Z.of_nat j - lo)) with (Z.of_nat j) by lia.
  rewrite Z.mod_small by lia. lia.
Qed.

(** *** Contents of the ring

    [holds l lo f]: for every counter [i] of the window [lo, lo + 2 ^ k), the
    slot of [i] holds [f i]. *)
Definition holds {A} (l : list A) (lo : Z) (f : Z → A) : Prop :=
  ∀ i, lo ≤ i < lo + 2 ^ k → l !! slot k i = Some (f i).

Lemma holds_lookup {A} (l : list A) lo f i :
  holds l lo f → lo ≤ i < lo + 2 ^ k → l !! slot k i = Some (f i).
Proof using. auto. Qed.

Lemma holds_ext {A} (l : list A) lo f g :
  (∀ i, lo ≤ i < lo + 2 ^ k → f i = g i) → holds l lo f → holds l lo g.
Proof using. intros Hfg Hf i Hi. rewrite (Hf i Hi), Hfg; done. Qed.

Lemma holds_insert {A} (l : list A) lo f g j c :
  holds l lo f →
  lo ≤ j < lo + 2 ^ k →
  g j = c →
  (∀ i, lo ≤ i < lo + 2 ^ k → i ≠ j → g i = f i) →
  holds (<[slot k j := c]> l) lo g.
Proof using Hk.
  intros Hf Hj Hc Hg i Hi. destruct (decide (i = j)) as [-> | Hij].
  - rewrite Hc. apply list_lookup_insert_eq, lookup_lt_is_Some. eauto.
  - rewrite list_lookup_insert_ne.
    + rewrite Hg by done. by apply Hf.
    + intros Heq. apply Hij. symmetry. apply slot_inj; [lia | done].
Qed.

(** Advancing the window: the slot of [lo] becomes that of [lo + 2 ^ k]. *)
Lemma holds_shift {A} (l : list A) lo f g :
  holds l lo f →
  (∀ i, lo < i < lo + 2 ^ k → g i = f i) →
  g (lo + 2 ^ k) = f lo →
  holds l (lo + 1) g.
Proof using Hk.
  intros Hf Hg Hlast i Hi. pose proof pow_k_pos.
  destruct (decide (i = lo + 2 ^ k)) as [-> | ?].
  - rewrite slot_plus_cap, Hlast. apply Hf. lia.
  - rewrite Hg by lia. apply Hf. lia.
Qed.

Lemma holds_replicate {A} (c : A) lo : holds (replicate (Z.to_nat (2 ^ k)) c) lo (λ _, c).
Proof using Hk.
  intros i _. apply lookup_replicate. split; [done | apply slot_lt].
Qed.

Lemma holds_all {A} (l : list A) lo (c : A) :
  length l = Z.to_nat (2 ^ k) → holds l lo (λ _, c) → Forall (λ x, x = c) l.
Proof using Hk.
  intros Hlen Hl. apply Forall_lookup. intros j x Hx.
  destruct (slot_surj lo j) as (i & Hi & <-).
  { rewrite <-Hlen. by apply lookup_lt_Some in Hx. }
  rewrite (Hl i Hi) in Hx. congruence.
Qed.

(** The distance the code computes between two counters. *)
Lemma distance_u64 hi lo : 0 ≤ hi - lo ≤ 2 ^ k → u64 (u64 hi - u64 lo) = hi - lo.
Proof using Hk.
  intros H. rewrite u64_sub_u64. apply u64_small. pose proof pow_k_lt.
  unfold in_u64. lia.
Qed.
End Ring.
