(* ===== verification/Heap.v ===== *)
(** * Heap: allocated blocks and their owners

    The heap behind the owning types of the library ([Vector], [UniquePtr],
    [SharedPtr]).  A block is named by a number that is never used again, so
    that a dangling access, a double free and a free of a foreign block are
    [Undef] rather than silently meet a newer block.

    [owns h b x F] splits a heap into one block and the rest [F]: a routine that
    takes [owns h b x F] to [owns h' b' x' F] touched nothing else and leaked
    nothing. *)

From stdpp Require Import base tactics numbers list option gmap.
From S2P Require Import Prelude.
#[local] Open Scope fiah_scope.

Record heap (B : Type) : Type := Heap { next_ : nat; blocks : gmap nat B }.
Arguments Heap {B} _ _.
Arguments next_ {B} _.
Arguments blocks {B} _.

Definition empty_heap {B} : heap B := Heap 0 ∅.

Section Heap.
Context {B : Type}.
Implicit Types (h : heap B) (b : nat) (x : B) (F : gmap nat B).

(** A new block with contents [x]. *)
Definition alloc h x : nat * heap B :=
  (next_ h, Heap (S (next_ h)) (<[next_ h := x]> (blocks h))).

Definition load h b : outcome B :=
  match blocks h !! b with Some x => Ret x | None => Undef end.

Definition store h b x : outcome (heap B) :=
  let! _ := load h b in Ret (Heap (next_ h) (<[b := x]> (blocks h))).

Definition free h b : outcome (heap B) :=
  let! _ := load h b in Ret (Heap (next_ h) (delete b (blocks h))).

(** Every block was handed out by [alloc]. *)
Definition heap_ok h : Prop := ∀ b, is_Some (blocks h !! b) → b < next_ h.

(** The heap is exactly [F]. *)
Definition frame h F : Prop := heap_ok h ∧ blocks h = F.

(** The heap is block [b] holding [x], and [F]. *)
Definition owns h b x F : Prop := heap_ok h ∧ F !! b = None ∧ blocks h = <[b := x]> F.

Lemma frame_empty : frame empty_heap ∅.
Proof. split; [| done]. intros b [x Hx]. simpl in Hx. by rewrite lookup_empty in Hx. Qed.

Lemma frame_fresh h F : frame h F → F !! next_ h = None.
Proof.
  intros [Hok <-]. destruct (blocks h !! next_ h) eqn:Hb; [| done].
  specialize (Hok _ (mk_is_Some _ _ Hb)). lia.
Qed.

Lemma alloc_owns h x F : frame h F → owns (alloc h x).2 (alloc h x).1 x F.
Proof.
  intros Hf. pose proof (frame_fresh _ _ Hf) as Hn. destruct Hf as [Hok <-].
  split_and!; [| done | done]. intros b. simpl. destruct (decide (b = next_ h)) as [-> | Hne]; [lia |].
  rewrite lookup_insert_ne by done. intros Hb. specialize (Hok b Hb). lia.
Qed.

Lemma owns_frame h b x F : owns h b x F → frame h (<[b := x]> F).
Proof. intros (? & _ & ?). by split. Qed.

Lemma frame_owns h b x F : F !! b = None → frame h (<[b := x]> F) → owns h b x F.
Proof. intros ? []. by split. Qed.

Lemma load_owns h b x F : owns h b x F → load h b = Ret x.
Proof. intros (_ & _ & Hb). unfold load. by rewrite Hb, lookup_insert_eq. Qed.

Lemma store_owns h b x y F :
  owns h b x F → ∃ h', store h b y = Ret h' ∧ owns h' b y F.
Proof.
  intros Ho. unfold store. rewrite (load_owns _ _ _ _ Ho). simpl. eexists. split; [done |].
  destruct Ho as (Hok & Hb & Heq). split_and!; [| done |].
  - intros b'. simpl. destruct (decide (b' = b)) as [-> | Hne].
    + intros _. apply Hok. rewrite Heq, lookup_insert_eq. eauto.
    + rewrite lookup_insert_ne by done. apply Hok.
  - simpl. rewrite Heq. apply insert_insert_eq.
Qed.

Lemma free_owns h b x F : owns h b x F → ∃ h', free h b = Ret h' ∧ frame h' F.
Proof.
  intros Ho. unfold free. rewrite (load_owns _ _ _ _ Ho). simpl. eexists. split; [done |].
  destruct Ho as (Hok & Hb & Heq). split; cbn [blocks].
  - intros b' Hb'. cbn [blocks next_] in *. apply Hok. destruct (decide (b' = b)) as [-> | Hne].
    + rewrite lookup_delete_eq in Hb'. by destruct Hb'.
    + by rewrite lookup_delete_ne in Hb'.
  - rewrite Heq. by apply delete_insert_id.
Qed.

(** Handing out, overwriting and giving back a block. *)
Lemma heap_ok_alloc h x : heap_ok h → heap_ok (alloc h x).2.
Proof.
  intros Hok b [y Hy]. simpl in *. apply lookup_insert_Some in Hy as [[<- _] | [_ Hy]]; [lia |].
  specialize (Hok b (mk_is_Some _ _ Hy)). lia.
Qed.

Lemma heap_ok_insert h b x :
  heap_ok h → is_Some (blocks h !! b) → heap_ok (Heap (next_ h) (<[b := x]> (blocks h))).
Proof.
  intros Hok Hb b' [y Hy]. simpl in *. apply lookup_insert_Some in Hy as [[<- _] | [_ Hy]]; apply Hok; eauto.
Qed.

Lemma heap_ok_delete h b : heap_ok h → heap_ok (Heap (next_ h) (delete b (blocks h))).
Proof. intros Hok b' [y Hy]. simpl in *. apply lookup_delete_Some in Hy as [_ Hy]. apply Hok. eauto. Qed.

(** Two blocks at once. *)
Lemma owns_swap h b1 x1 b2 x2 F :
  b1 ≠ b2 → F !! b1 = None → owns h b2 x2 (<[b1 := x1]> F) → owns h b1 x1 (<[b2 := x2]> F).
Proof.
  intros Hne H1 (Hok & H2 & Heq). split_and!; [done | |].
  - by rewrite lookup_insert_ne.
  - rewrite Heq. by apply insert_insert_ne.
Qed.
End Heap.
