(* ===== verification/WeakMemory.v ===== *)
(** * WeakMemory: release and acquire

    The memory orders of C++ atomics, as the code of the lock-free queues uses
    them.  An atomic location keeps the messages written to it, oldest first; a
    load may read any message that is not older than what its thread has seen.
    Every thread, and every message, has a view: the newest message known of each
    location, and, for each thread, how many of its accesses to plain memory are
    known to have happened before.  A release store puts the view of its thread
    in the message, a relaxed one does not; an acquire load joins the view of the
    message it reads, a relaxed one does not.

    A plain access that is not known to come after every earlier access of
    another thread to the same object is a data race: [Undef].

    A store goes to the end of its location: so it must for a location that one
    thread writes, and for one whose other writes are read-modify-writes that
    follow the message the storing thread wrote last.  A read-modify-write reads
    the last message, and its own message keeps the view of the one it replaces
    (the release sequence goes on). *)

From stdpp Require Import base tactics numbers list option.
From Stdlib Require Import ZArith Lia.
From S2P Require Import Prelude.
#[local] Open Scope fiah_scope.

(** Threads, atomic locations and plain objects are numbered. *)
Record view : Type := View {
  seen : nat → nat;     (* per location: the position of the newest message known *)
  clk : nat → nat       (* per thread: its plain accesses known to have happened before *)
}.

Record message : Type := Message { msg_value : Z; msg_view : view }.

Record memory : Type := Memory {
  hist : nat → list message;              (* per location *)
  accesses : nat → list (nat * nat);      (* per object: thread and its access number *)
  views : nat → view                      (* per thread *)
}.

Inductive order : Type := Relaxed | Acquire | Release.

#[export] Instance order_eq_dec : EqDecision order.
Proof. solve_decision. Defined.

Definition upd {A} (f : nat → A) (i : nat) (x : A) : nat → A :=
  λ j, if (j =? i)%nat then x else f j.

Definition bottom : view := View (λ _, 0%nat) (λ _, 0%nat).
Definition join (v w : view) : view :=
  View (λ l, seen v l `max` seen w l)%nat (λ t, clk v t `max` clk w t)%nat.

Definition init_memory (x : Z) : memory :=
  Memory (λ _, [Message x bottom]) (λ _, []) (λ _, bottom).

Definition set_view (m : memory) (t : nat) (v : view) : memory :=
  Memory (hist m) (accesses m) (upd (views m) t v).

(** Thread [t] reads message [i] of location [l]; [None] when it cannot. *)
Definition load (o : order) (m : memory) (t l i : nat) : option (Z * memory) :=
  let v := views m t in
  if (i <? seen v l)%nat then None
  else
    match hist m l !! i with
    | None => None
    | Some msg =>
        let v := View (upd (seen v) l i) (clk v) in
        let v := match o with Acquire => join v (msg_view msg) | _ => v end in
        Some (msg_value msg, set_view m t v)
    end.

(** The view of a message at position [n] of [l], stored by a thread with view [v]. *)
Definition released (o : order) (v : view) (l n : nat) : view :=
  match o with Release => v | _ => View (upd (λ _, 0%nat) l n) (λ _, 0%nat) end.

Definition store (o : order) (m : memory) (t l : nat) (x : Z) : memory :=
  let v := views m t in
  let n := length (hist m l) in
  let v := View (upd (seen v) l n) (clk v) in
  Memory (upd (hist m) l (hist m l ++ [Message x (released o v l n)])) (accesses m) (upd (views m) t v).

(** Thread [t] replaces the value of location [l]: the old value; [acq] and [rel]
    tell the order. *)
Definition rmw (acq rel : bool) (m : memory) (t l : nat) (f : Z → Z) : option (Z * memory) :=
  match hist m l !! (length (hist m l) - 1)%nat with
  | None => None
  | Some msg =>
      let n := length (hist m l) in
      let v := View (upd (seen (views m t)) l n) (clk (views m t)) in
      let v := if acq then join v (msg_view msg) else v in
      let own := released (if rel then Release else Relaxed) v l n in
      Some (msg_value msg,
        Memory (upd (hist m) l (hist m l ++ [Message (f (msg_value msg)) (join own (msg_view msg))]))
          (accesses m) (upd (views m) t v))
  end.

(** [compare_exchange_weak] with relaxed orders, reading message [i]: whether it
    exchanged, and the value read.  It can only exchange the newest message, and
    it may fail although the value is the expected one. *)
Definition cas (m : memory) (t l : nat) (expected desired : Z) (i : nat) (spurious : bool)
  : option (bool * Z * memory) :=
  match hist m l !! i with
  | None => None
  | Some msg =>
      if (msg_value msg =? expected)%Z && negb spurious then
        if (S i =? length (hist m l))%nat then
          match rmw false false m t l (λ _, desired) with
          | Some (old, m) => Some (true, old, m)
          | None => None
          end
        else None
      else match load Relaxed m t l i with Some (x, m) => Some (false, x, m) | None => None end
  end.

(** The accesses logged under [s] by other threads happened before what [t] does. *)
Definition ordered (m : memory) (t s : nat) : bool :=
  forallb (λ '(t', c), (t' =? t)%nat || (c <=? clk (views m t) t')%nat) (accesses m s).

(** One more access of thread [t], logged under [s]. *)
Definition record (m : memory) (t s : nat) : memory :=
  let v := views m t in
  let c := S (clk v t) in
  Memory (hist m) (upd (accesses m) s ((t, c) :: accesses m s))
    (upd (views m) t (View (seen v) (upd (clk v) t c))).

(** Thread [t] accesses the plain object [s], to change it. *)
Definition access (m : memory) (t s : nat) : outcome memory :=
  if ordered m t s then Ret (record m t s) else Undef.

(** An object that threads also read: the logs of its writes and of its reads.
    Reads do not conflict with one another. *)
Record object : Type := Object { writes : nat; reads : nat }.

Definition read_object (m : memory) (t : nat) (o : object) : outcome memory :=
  if ordered m t (writes o) then Ret (record m t (reads o)) else Undef.
Definition write_object (m : memory) (t : nat) (o : object) : outcome memory :=
  if ordered m t (writes o) && ordered m t (reads o) then Ret (record m t (writes o)) else Undef.

(** What synchronisation outside the model tells thread [t]. *)
Definition sync (m : memory) (t : nat) (v : view) : memory := set_view m t (join (views m t) v).

Definition newest_message (m : memory) (l : nat) : option message :=
  hist m l !! (length (hist m l) - 1)%nat.

(** [w] knows of all the accesses that [v] knows of. *)
Definition clk_le (v w : view) : Prop := ∀ t, (clk v t ≤ clk w t)%nat.

(** [w] knows all that [v] knows. *)
Definition view_le (v w : view) : Prop :=
  (∀ l, seen v l ≤ seen w l)%nat ∧ (∀ t, clk v t ≤ clk w t)%nat.

(** ** Laws *)

#[export] Instance view_le_preorder : PreOrder view_le.
Proof.
  split; [by split | intros u v w [] []; split; intros i; etransitivity; eauto].
Qed.

#[export] Instance clk_le_preorder : PreOrder clk_le.
Proof. split; [by intros v t | intros u v w H1 H2 t; etransitivity; eauto]. Qed.

Lemma view_le_clk v w : view_le v w → clk_le v w.
Proof. by intros []. Qed.

Lemma clk_join_l v w : clk_le v (join v w).
Proof. intros t. simpl. lia. Qed.

Lemma clk_join_r v w : clk_le w (join v w).
Proof. intros t. simpl. lia. Qed.

Lemma join_le_l v w : view_le v (join v w).
Proof. split; intros; simpl; lia. Qed.

Lemma join_le_r v w : view_le w (join v w).
Proof. split; intros; simpl; lia. Qed.

Lemma upd_eq {A} (f : nat → A) i x : upd f i x i = x.
Proof. unfold upd. by rewrite Nat.eqb_refl. Qed.

Lemma upd_ne {A} (f : nat → A) i j x : j ≠ i → upd f i x j = f j.
Proof. intros Hne. unfold upd. by rewrite (proj2 (Nat.eqb_neq _ _)). Qed.

(** The newest message can always be read. *)
Lemma load_newest o m t l :
  hist m l ≠ [] → (seen (views m t) l < length (hist m l))%nat →
  is_Some (load o m t l (length (hist m l) - 1)).
Proof.
  intros Hne Hseen. unfold load. rewrite (proj2 (Nat.ltb_ge _ _)) by lia.
  destruct (lookup_lt_is_Some_2 (hist m l) (length (hist m l) - 1)) as [msg ->]; [lia | eauto].
Qed.

Lemma load_inv o m t l i x m' :
  load o m t l i = Some (x, m') →
  (seen (views m t) l ≤ i)%nat ∧ ∃ msg, hist m l !! i = Some msg ∧ x = msg_value msg ∧
    m' = set_view m t
      (let v := View (upd (seen (views m t)) l i) (clk (views m t)) in
       match o with Acquire => join v (msg_view msg) | _ => v end).
Proof.
  unfold load. destruct (Nat.ltb_spec i (seen (views m t) l)); [done |].
  destruct (hist m l !! i) as [msg |]; [| done]. intros [= <- <-]. eauto.
Qed.

(** A relaxed compare-exchange: it reads and replaces the newest message, or it is
    a relaxed load. *)
Lemma cas_inv m t l expected desired i spurious ok x m' :
  cas m t l expected desired i spurious = Some (ok, x, m') →
  (ok = true ∧ S i = length (hist m l) ∧ x = expected ∧ rmw false false m t l (λ _, desired) = Some (x, m')) ∨
  (ok = false ∧ load Relaxed m t l i = Some (x, m')).
Proof.
  unfold cas. destruct (hist m l !! i) as [msg |] eqn:Hmsg; [| done].
  destruct ((msg_value msg =? expected)%Z && negb spurious) eqn:Hcmp.
  - apply andb_true_iff in Hcmp as [Heq%Z.eqb_eq _].
    destruct (Nat.eqb_spec (S i) (length (hist m l))) as [Hlast |]; [| done].
    unfold rmw. replace (length (hist m l) - 1)%nat with i by lia. rewrite Hmsg. intros [= <- <- <-]. by left.
  - destruct (load Relaxed m t l i) as [[y m1] |]; [| done]. intros [= <- <- <-]. by right.
Qed.

(** An access is race free when the view covers those of the other threads. *)
Lemma ordered_spec m t s :
  (∀ t' c, (t', c) ∈ accesses m s → t' ≠ t → (c ≤ clk (views m t) t')%nat) → ordered m t s = true.
Proof.
  intros Hall. apply forallb_forall.
  intros [t' c] Hin. destruct (Nat.eqb_spec t' t) as [-> | Hne]; [done |]. apply Nat.leb_le.
  apply Hall; [| done]. by apply list_elem_of_In.
Qed.

Lemma access_ordered m t s :
  (∀ t' c, (t', c) ∈ accesses m s → t' ≠ t → (c ≤ clk (views m t) t')%nat) → access m t s = Ret (record m t s).
Proof. intros Hall. unfold access. by rewrite ordered_spec. Qed.

(** *** Ordered accesses

    [covers v m s]: a thread with the view [v] may access the object [s]. *)
Definition covers (v : view) (acc : nat → list (nat * nat)) (s : nat) : Prop :=
  ∀ t c, (t, c) ∈ acc s → (c ≤ clk v t)%nat.

Lemma covers_le v w acc s : view_le v w → covers v acc s → covers w acc s.
Proof. intros [_ Hclk] H t c Hin. etransitivity; [by apply H | done]. Qed.

Lemma covers_clk v w acc s : clk_le v w → covers v acc s → covers w acc s.
Proof. intros Hclk H t c Hin. etransitivity; [by apply H | done]. Qed.

Lemma covers_join_l v w acc s : covers v acc s → covers (join v w) acc s.
Proof. apply covers_le, join_le_l. Qed.

Lemma covers_join_r v w acc s : covers w acc s → covers (join v w) acc s.
Proof. apply covers_le, join_le_r. Qed.

Lemma newest_message_snoc (f : nat → list message) l ms msg acc vs :
  f l = ms ++ [msg] → newest_message (Memory f acc vs) l = Some msg.
Proof.
  intros Hf. unfold newest_message. cbn [hist]. rewrite Hf, length_app. cbn [length].
  rewrite lookup_app_r by lia. by replace (_ - _ - _)%nat with 0%nat by lia.
Qed.

(** An access by a thread that covers the earlier ones: it covers the new one. *)
Record accessed (m : memory) (t s : nat) (m' : memory) : Prop := Accessed {
  ac_hist : hist m' = hist m;
  ac_covers : covers (views m' t) (accesses m') s;
  ac_seen : ∀ l, seen (views m' t) l = seen (views m t) l;
  ac_le : view_le (views m t) (views m' t);
  ac_views : ∀ t', t' ≠ t → views m' t' = views m t';
  ac_accesses : ∀ s', s' ≠ s → accesses m' s' = accesses m s'
}.

Lemma access_covered m t s :
  covers (views m t) (accesses m) s → ∃ m', access m t s = Ret m' ∧ accessed m t s m'.
Proof.
  intros Hc. rewrite access_ordered by eauto. eexists. split; [done |].
  unfold record. split; cbn [hist accesses views].
  - done.
  - intros t' c. rewrite !upd_eq. cbn [clk]. intros [[= -> ->] | Hin]%elem_of_cons; [by rewrite upd_eq |].
    specialize (Hc t' c Hin). unfold upd. destruct (Nat.eqb_spec t' t); subst; lia.
  - intros l. by rewrite upd_eq.
  - rewrite upd_eq. split; [done |]. cbn [clk]. intros t'. unfold upd. destruct (Nat.eqb_spec t' t); subst; lia.
  - intros t' Hne. by rewrite upd_ne.
  - intros s' Hne. by rewrite upd_ne.
Qed.

Lemma accessed_le m t s m' t' : accessed m t s m' → view_le (views m t') (views m' t').
Proof.
  intros Ha. destruct (decide (t' = t)) as [-> | Hne]; [apply Ha |]. by rewrite (ac_views _ _ _ _ Ha).
Qed.

(** *** Objects that are read and written *)

Lemma sync_views m t v t' :
  views (sync m t v) t' = if (t' =? t)%nat then join (views m t) v else views m t'.
Proof. done. Qed.

(** A view after [record]: it grows, and covers the new access if it was there. *)
Lemma record_clk m t s t' : clk_le (views m t') (views (record m t s) t').
Proof.
  intros u. cbn [record views]. unfold upd at 1. destruct (Nat.eqb_spec t' t) as [-> |]; [| done].
  cbn [clk]. unfold upd. destruct (Nat.eqb_spec u t) as [-> |]; lia.
Qed.

Lemma record_covers m t s s' :
  covers (views m t) (accesses m) s' → covers (views (record m t s) t) (accesses (record m t s)) s'.
Proof.
  intros Hc t' c. cbn [record views accesses]. rewrite (upd_eq (views m)). cbn [clk].
  unfold upd at 1. destruct (Nat.eqb_spec s' s) as [-> |].
  - intros [[= -> ->] | Hin]%elem_of_cons; [by rewrite upd_eq |]. specialize (Hc t' c Hin).
    unfold upd. destruct (Nat.eqb_spec t' t); subst; lia.
  - intros Hin. specialize (Hc t' c Hin). unfold upd. destruct (Nat.eqb_spec t' t); subst; lia.
Qed.

Lemma record_other m t s s' : s' ≠ s → accesses (record m t s) s' = accesses m s'.
Proof. intros Hne. cbn [record accesses]. by rewrite upd_ne. Qed.

(** Every access is an old one, or the new one, which the thread knows of. *)
Lemma record_accesses m t s s' t' c :
  (t', c) ∈ accesses (record m t s) s' →
  (t', c) ∈ accesses m s' ∨ (c ≤ clk (views (record m t s) t) t')%nat.
Proof.
  cbn [record accesses views]. rewrite (upd_eq (views m)). unfold upd at 1. destruct (Nat.eqb_spec s' s) as [-> |]; [| by left].
  intros [[= -> ->] | Hin]%elem_of_cons; [right; cbn [clk]; by rewrite upd_eq | by left].
Qed.

Lemma read_covered m t o :
  covers (views m t) (accesses m) (writes o) → read_object m t o = Ret (record m t (reads o)).
Proof. intros Hc. unfold read_object. by rewrite ordered_spec by eauto. Qed.

Lemma write_covered m t o :
  covers (views m t) (accesses m) (writes o) → covers (views m t) (accesses m) (reads o) →
  write_object m t o = Ret (record m t (writes o)).
Proof. intros Hw Hr. unfold write_object. by rewrite !ordered_spec by eauto. Qed.

(** *** Read-modify-writes

    The new message keeps the view of the old one; an acquire gives it to the
    thread, and a release puts the view of the thread into the message. *)
Lemma rmw_spec acq rel m t l f msg :
  newest_message m l = Some msg →
  ∃ m' msg', rmw acq rel m t l f = Some (msg_value msg, m') ∧
    hist m' l = hist m l ++ [msg'] ∧ newest_message m' l = Some msg' ∧ msg_value msg' = f (msg_value msg) ∧
    accesses m' = accesses m ∧ clk_le (msg_view msg) (msg_view msg') ∧
    (∀ t', clk_le (views m t') (views m' t')) ∧
    (acq = true → clk_le (msg_view msg) (views m' t)) ∧
    (rel = true → clk_le (views m' t) (msg_view msg')).
Proof.
  intros Hmsg. unfold newest_message in Hmsg. unfold rmw. rewrite Hmsg. cbv zeta.
  do 2 eexists. split; [reflexivity |]. cbn [hist accesses views msg_value msg_view]. rewrite !upd_eq.
  split_and!; [done | eapply newest_message_snoc, upd_eq | done | done | apply clk_join_r | | |].
  - intros t' u. unfold upd at 1. destruct (Nat.eqb_spec t' t) as [-> |]; [| done]. destruct acq; simpl; lia.
  - intros -> u. simpl. lia.
  - intros -> u. simpl. lia.
Qed.
