(* ===== verification/SPSCQueue.v ===== *)
(** * SPSCQueue: the lock-free single-producer, single-consumer queue

    Models [src/include/fiah/structs/SPSCQueue.hh].  One producer thread runs
    [emplace]/[push], one consumer thread runs [pop]; each atomic access and
    each access to an element slot is one step of the owning thread, and the
    threads interleave in any order ([exec] runs one scheduled action).  The
    memory is sequentially consistent; [spsc_safe] shows that the two threads
    never touch one slot at once, and [SPSCWeak] that the release stores and
    acquire loads of the code order their accesses. *)

From stdpp Require Import base tactics numbers list option.
From Stdlib Require Import ZArith Lia.
From S2P Require Import Prelude Storage Ring.
#[local] Open Scope Z_scope.
#[local] Open Scope fiah_scope.

Section SPSCQueue.
Context {T : Type}.
(** [CapacityPow2 = 2 ^ k] *)
Context (k : Z).

Definition kCapacity : Z := 2 ^ k.
Definition slot_ptr (idx : Z) : nat := mask_slot k idx.

(** Program counter of the producer inside [emplace(x)], with its locals. *)
Inductive producer_pc : Type :=
| P_idle
| P_load_head (x : T)
| P_load_tail (x : T) (head : Z)
| P_construct (x : T) (head : Z)
| P_publish (x : T) (head : Z).

(** Program counter of the consumer inside [pop(out)], with its locals. *)
Inductive consumer_pc : Type :=
| C_idle
| C_load_tail
| C_load_head (tail : Z)
| C_move (tail : Z)
| C_destroy (tail : Z) (out : T)
| C_publish (tail : Z) (out : T).

Record queue : Type := Queue {
  m_head : Z;
  m_tail : Z;
  m_storage : list (cell T);
  producer : producer_pc;
  consumer : consumer_pc
}.

Definition init : queue :=
  Queue 0 0 (replicate (Z.to_nat kCapacity) Raw) P_idle C_idle.

(** What an operation answers to its caller. *)
Inductive event : Type :=
| Ev_push (x : T)          (* emplace returned true *)
| Ev_push_full (x : T)     (* emplace returned false *)
| Ev_pop (x : T)           (* pop returned true with [out = x] *)
| Ev_pop_empty.            (* pop returned false *)

Definition set_producer (q : queue) (pc : producer_pc) : queue :=
  Queue (m_head q) (m_tail q) (m_storage q) pc (consumer q).
Definition set_consumer (q : queue) (pc : consumer_pc) : queue :=
  Queue (m_head q) (m_tail q) (m_storage q) (producer q) pc.

(** One step of [emplace]. *)
Definition emplace_step (q : queue) : outcome (queue * option event) :=
  match producer q with
  | P_idle => Ret (q, None)
  | P_load_head x => Ret (set_producer q (P_load_tail x (m_head q)), None)
  | P_load_tail x head =>
      let tail := m_tail q in
      if head -u64 tail =? kCapacity
      then Ret (set_producer q P_idle, Some (Ev_push_full x))
      else Ret (set_producer q (P_construct x head), None)
  | P_construct x head =>
      let! st := construct_at (m_storage q) (slot_ptr head) x in
      Ret (Queue (m_head q) (m_tail q) st (P_publish x head) (consumer q), None)
  | P_publish x head =>
      Ret (Queue (head +u64 1) (m_tail q) (m_storage q) P_idle (consumer q),
           Some (Ev_push x))
  end.

(** One step of [pop], for an element type that is not an array. *)
Definition pop_step (q : queue) : outcome (queue * option event) :=
  match consumer q with
  | C_idle => Ret (q, None)
  | C_load_tail => Ret (set_consumer q (C_load_head (m_tail q)), None)
  | C_load_head tail =>
      let head := m_head q in
      if head =? tail
      then Ret (set_consumer q C_idle, Some Ev_pop_empty)
      else Ret (set_consumer q (C_move tail), None)
  | C_move tail =>
      let! (out, st) := move_from (m_storage q) (slot_ptr tail) in
      Ret (Queue (m_head q) (m_tail q) st (producer q) (C_destroy tail out), None)
  | C_destroy tail out =>
      let! st := destroy_at (m_storage q) (slot_ptr tail) in
      Ret (Queue (m_head q) (m_tail q) st (producer q) (C_publish tail out), None)
  | C_publish tail out =>
      Ret (Queue (m_head q) (tail +u64 1) (m_storage q) (producer q) C_idle,
           Some (Ev_pop out))
  end.

(** The scheduler: start an operation on an idle thread, or run a thread for
    one step.  An action its thread cannot take leaves the queue unchanged. *)
Inductive action : Type :=
| CallPush (x : T)
| RunProducer
| CallPop
| RunConsumer.

Definition exec (q : queue) (a : action) : outcome (queue * option event) :=
  match a with
  | CallPush x =>
      match producer q with
      | P_idle => Ret (set_producer q (P_load_head x), None)
      | _ => Ret (q, None)
      end
  | RunProducer => emplace_step q
  | CallPop =>
      match consumer q with
      | C_idle => Ret (set_consumer q C_load_tail, None)
      | _ => Ret (q, None)
      end
  | RunConsumer => pop_step q
  end.

(** The observers make two loads; [q1] is the queue at the first load and
    [q2] the queue at the second. *)
Definition empty (q1 q2 : queue) : bool :=
  let tail := m_tail q1 in let head := m_head q2 in head =? tail.
Definition full (q1 q2 : queue) : bool :=
  let head := m_head q1 in let tail := m_tail q2 in head -u64 tail =? kCapacity.
Definition size (q1 q2 : queue) : Z :=
  let head := m_head q1 in let tail := m_tail q2 in head -u64 tail.

(** [~SPSCQueue]: destroy what was constructed and not popped. *)
Fixpoint destructor_loop (fuel : nat) (st : list (cell T)) (tail head : Z)
  : outcome (list (cell T)) :=
  match fuel with
  | O => OutOfFuel
  | S fuel =>
      if tail =? head then Ret st
      else let! st := destroy_at st (slot_ptr tail) in
           destructor_loop fuel st (tail +u64 1) head
  end.
Definition destructor (fuel : nat) (q : queue) : outcome (list (cell T)) :=
  destructor_loop fuel (m_storage q) (m_tail q) (m_head q).

(** ** Specification: a bounded FIFO queue *)

Inductive fifo_step : list T → event → list T → Prop :=
| fifo_push vs x : zlen vs < kCapacity → fifo_step vs (Ev_push x) (vs ++ [x])
| fifo_push_full vs x : zlen vs = kCapacity → fifo_step vs (Ev_push_full x) vs
| fifo_pop vs x : fifo_step (x :: vs) (Ev_pop x) vs
| fifo_pop_empty : fifo_step [] Ev_pop_empty [].

(** The values pushed and popped along a trace. *)
Definition pushed (es : list event) : list T :=
  omap (λ e, match e with Ev_push x => Some x | _ => None end) es.
Definition popped (es : list event) : list T :=
  omap (λ e, match e with Ev_pop x => Some x | _ => None end) es.
End SPSCQueue.

Arguments Queue {T} _ _ _ _ _.
Arguments queue T : clear implicits.
Arguments event T : clear implicits.
Arguments action T : clear implicits.
Arguments RunProducer {T}.
Arguments CallPop {T}.
Arguments RunConsumer {T}.
Arguments P_idle {T}.
Arguments C_idle {T}.
Arguments C_load_tail {T}.
Arguments C_load_head {T} _.
Arguments C_move {T} _.
Arguments Ev_pop_empty {T}.

Abbreviation step k := (machine_step (exec k)).
Abbreviation exec_all k := (run_schedule (exec k)).

(** * Proofs *)

Section Invariant.
Context {T : Type} (k : Z) (Hk : 0 ≤ k < 64).
Implicit Types (q : queue T) (vs : list T) (lo : Z).

(** Contents of the slot of counter [i] when the queue holds [vs] from the
    unbounded tail counter [lo] on. *)
Definition contents q vs lo (i : Z) : cell T :=
  match vs !! Z.to_nat (i - lo) with
  | Some v =>
      match consumer q with
      | C_destroy _ _ => if i =? lo then Moved else Live v
      | C_publish _ _ => if i =? lo then Raw else Live v
      | _ => Live v
      end
  | None =>
      match producer q with
      | P_publish x _ => if i =? lo + zlen vs then Live x else Raw
      | _ => Raw
      end
  end.

Definition producer_ok q vs : Prop :=
  match producer q with
  | P_idle | P_load_head _ => True
  | P_load_tail _ head => head = m_head q
  | P_construct _ head | P_publish _ head =>
      head = m_head q ∧ zlen vs < 2 ^ k
  end.

Definition consumer_ok q vs : Prop :=
  match consumer q with
  | C_idle | C_load_tail => True
  | C_load_head tail => tail = m_tail q
  | C_move tail => tail = m_tail q ∧ vs ≠ []
  | C_destroy tail out | C_publish tail out =>
      tail = m_tail q ∧ head vs = Some out
  end.

Record inv_at q vs lo : Prop := InvAt {
  inv_head : m_head q = u64 (lo + zlen vs);
  inv_tail : m_tail q = u64 lo;
  inv_len : zlen vs ≤ 2 ^ k;
  inv_prod : producer_ok q vs;
  inv_cons : consumer_ok q vs;
  inv_size : length (m_storage q) = Z.to_nat (2 ^ k);
  inv_storage : holds k (m_storage q) lo (contents q vs lo)
}.

(** The simulation relation: the queue holds the values [vs], oldest first. *)
Definition represents q vs : Prop := ∃ lo, inv_at q vs lo.

Lemma represents_init : represents (init k) [].
Proof using Hk.
  exists 0. split; simpl; try done.
  - apply Z.pow_nonneg. lia.
  - apply length_replicate.
  - eapply holds_ext; [| apply holds_replicate, Hk]. done.
Qed.

(** Steps that touch neither a counter nor the storage: the contents depend
    on the program counters only at [P_publish], [C_destroy], [C_publish]. *)
Lemma contents_ext q q' vs lo :
  m_head q' = m_head q → m_tail q' = m_tail q → m_storage q' = m_storage q →
  contents q' vs lo = contents q vs lo →
  producer_ok q' vs → consumer_ok q' vs →
  inv_at q vs lo → inv_at q' vs lo.
Proof using. intros Hh Ht Hs Hc Hp Hcons []. split; try done; by rewrite ?Hh, ?Ht, ?Hs, ?Hc. Qed.

Lemma window_lt vs lo i : 
  vs !! Z.to_nat (i - lo) = None → lo ≤ i → lo + zlen vs ≤ i.
Proof using. intros ?%lookup_ge_None ?. lia. Qed.

Lemma construct_slot q vs lo x head :
  inv_at q vs lo → producer q = P_construct x head →
  m_storage q !! slot_ptr k head = Some Raw ∧
  inv_at (Queue (m_head q) (m_tail q) (<[slot_ptr k head := Live x]> (m_storage q))
            (P_publish x head) (consumer q)) vs lo.
Proof using Hk.
  intros [Hh Ht Hl Hp Hc Hz Hs] Hpc. unfold producer_ok in Hp. rewrite Hpc in Hp.
  destruct Hp as [-> Hlt]. unfold slot_ptr. rewrite Hh, mask_slot_u64 by done.
  assert (vs !! Z.to_nat (lo + zlen vs - lo) = None) as Hnone.
  { apply lookup_ge_None. lia. }
  assert (contents q vs lo (lo + zlen vs) = Raw) as Hraw.
  { unfold contents. by rewrite Hnone, Hpc. }
  split; [rewrite <-Hraw; apply Hs; lia |].
  split; simpl; try done; [by rewrite length_insert |].
  eapply holds_insert; [done | exact Hs | lia | |].
  - unfold contents. simpl. rewrite Hnone, Z.eqb_refl. done.
  - intros i Hi Hne. unfold contents. simpl.
    rewrite Hpc. case_match; [done |].
    rewrite (proj2 (Z.eqb_neq _ _)) by done. done.
Qed.

Lemma publish_head q vs lo x head :
  inv_at q vs lo → producer q = P_publish x head →
  inv_at (Queue (u64 (head + 1)) (m_tail q) (m_storage q) P_idle (consumer q)) (vs ++ [x]) lo
  ∧ zlen vs < 2 ^ k.
Proof using Hk.
  intros [Hh Ht Hl Hp Hc Hz Hs] Hpc. unfold producer_ok in Hp. rewrite Hpc in Hp.
  destruct Hp as [-> Hlt]. split; [| done]. split; simpl; try done.
  - rewrite length_app, Hh, u64_add_l. f_equal. simpl. lia.
  - rewrite length_app. simpl. lia.
  - unfold consumer_ok in *. simpl. destruct (consumer q); try done.
    + destruct Hc as [? ?]. split; [done |]. by destruct vs.
    + destruct Hc as [? ?]. split; [done |]. by destruct vs.
    + destruct Hc as [? ?]. split; [done |]. by destruct vs.
  - eapply holds_ext; [| exact Hs]. intros i Hi. unfold contents. simpl. rewrite Hpc.
    destruct (vs !! Z.to_nat (i - lo)) as [v |] eqn:Hv.
    { by rewrite (lookup_app_l_Some _ _ _ _ Hv). }
    pose proof (window_lt _ _ _ Hv ltac:(lia)).
    rewrite lookup_app_r by (apply lookup_ge_None; done).
    destruct (Z.eqb_spec i (lo + zlen vs)) as [-> | Hne].
    + replace (Z.to_nat (lo + zlen vs - lo) - length vs)%nat with 0%nat by lia. simpl.
      destruct (consumer q) eqn:Hcq; try done.
      all: destruct vs; unfold consumer_ok in Hc; rewrite Hcq in Hc; [by destruct Hc |].
      all: by rewrite (proj2 (Z.eqb_neq _ _)) by (simpl; lia).
    + by rewrite (proj2 (lookup_ge_None [x] _)) by (simpl; lia).
Qed.

Lemma move_slot q vs lo tail :
  inv_at q vs lo → consumer q = C_move tail →
  ∃ x, m_storage q !! slot_ptr k tail = Some (Live x) ∧
  inv_at (Queue (m_head q) (m_tail q) (<[slot_ptr k tail := Moved]> (m_storage q))
            (producer q) (C_destroy tail x)) vs lo.
Proof using Hk.
  intros [Hh Ht Hl Hp Hc Hz Hs] Hpc. unfold consumer_ok in Hc. rewrite Hpc in Hc.
  destruct Hc as [-> Hne]. destruct vs as [| x vs]; [done |]. exists x.
  unfold slot_ptr. rewrite Ht, mask_slot_u64 by done. pose proof (pow_k_pos k Hk).
  assert (contents q (x :: vs) lo lo = Live x) as Hlive.
  { unfold contents. by rewrite Z.sub_diag, Hpc. }
  split; [rewrite <-Hlive; apply Hs; lia |].
  split; simpl; try done; [by rewrite length_insert |].
  eapply holds_insert; [done | exact Hs | lia | |].
  - unfold contents. simpl. by rewrite Z.sub_diag, Z.eqb_refl.
  - intros i Hi Hne'. unfold contents. cbn [consumer producer].
    rewrite (proj2 (Z.eqb_neq _ _)) by done. rewrite Hpc. done.
Qed.

Lemma destroy_slot q vs lo tail x :
  inv_at q vs lo → consumer q = C_destroy tail x →
  m_storage q !! slot_ptr k tail = Some Moved ∧
  inv_at (Queue (m_head q) (m_tail q) (<[slot_ptr k tail := Raw]> (m_storage q))
            (producer q) (C_publish tail x)) vs lo.
Proof using Hk.
  intros [Hh Ht Hl Hp Hc Hz Hs] Hpc. unfold consumer_ok in Hc. rewrite Hpc in Hc.
  destruct Hc as [-> Hhd]. destruct vs as [| y vs]; [done |]. simpl in Hhd. simplify_eq.
  unfold slot_ptr. rewrite Ht, mask_slot_u64 by done. pose proof (pow_k_pos k Hk).
  assert (contents q (x :: vs) lo lo = Moved) as Hmoved.
  { unfold contents. by rewrite Z.sub_diag, Hpc, Z.eqb_refl. }
  split; [rewrite <-Hmoved; apply Hs; lia |].
  split; simpl; try done; [by rewrite length_insert |].
  eapply holds_insert; [done | exact Hs | lia | |].
  - unfold contents. simpl. by rewrite Z.sub_diag, Z.eqb_refl.
  - intros i Hi Hne'. unfold contents. cbn [consumer producer].
    rewrite Hpc, (proj2 (Z.eqb_neq _ _)) by done. done.
Qed.

Lemma publish_tail q vs lo tail x :
  inv_at q vs lo → consumer q = C_publish tail x →
  ∃ vs', vs = x :: vs' ∧
  inv_at (Queue (m_head q) (u64 (tail + 1)) (m_storage q) (producer q) C_idle) vs' (lo + 1).
Proof using Hk.
  intros [Hh Ht Hl Hp Hc Hz Hs] Hpc. unfold consumer_ok in Hc. rewrite Hpc in Hc.
  destruct Hc as [-> Hhd]. destruct vs as [| y vs]; [done |]. simpl in Hhd. simplify_eq.
  exists vs. split; [done |]. cbn [length] in *. split; simpl; try done.
  - rewrite Hh. f_equal. lia.
  - by rewrite Ht, u64_add_l.
  - lia.
  - unfold producer_ok in *. simpl. destruct (producer q); try done; simpl in *; lia.
  - eapply (holds_shift k Hk _ _ _ _ Hs).
    + intros i Hi. unfold contents. simpl. rewrite Hpc.
      replace (Z.to_nat (i - lo)) with (S (Z.to_nat (i - (lo + 1)))) by lia. simpl.
      rewrite (proj2 (Z.eqb_neq i lo)) by lia.
      replace (lo + Z.of_nat (S (length vs))) with (lo + 1 + zlen vs) by lia. done.
    + unfold contents. cbn [consumer producer]. rewrite Z.sub_diag. simpl.
      rewrite Hpc, Z.eqb_refl.
      rewrite (proj2 (lookup_ge_None vs _)) by lia.
      destruct (producer q) eqn:Hpq; try done.
      unfold producer_ok in Hp. rewrite Hpq in Hp. simpl in Hp.
      by rewrite (proj2 (Z.eqb_neq _ _)) by lia.
Qed.

(** A step that only moves program counters, from the invariant [Hinv] and
    the program counter [Hpc]: the thread's own condition is left to prove. *)
Ltac moves_pc Hinv Hpc :=
  refine (contents_ext _ _ _ _ _ _ _ _ _ _ Hinv);
  [ done | done | done | unfold contents; simpl; rewrite ?Hpc; done
  | try apply (inv_prod _ _ _ Hinv) | try apply (inv_cons _ _ _ Hinv) ];
  try done.

(** Every scheduled action is defined on a reachable queue, and answers what
    the bounded FIFO queue answers. *)
Lemma emplace_step_sound q vs lo :
  inv_at q vs lo →
  ∃ q' e, emplace_step k q = Ret (q', e) ∧
    match e with
    | None => inv_at q' vs lo
    | Some e => ∃ vs', fifo_step k vs e vs' ∧ inv_at q' vs' lo
    end.
Proof using Hk.
  intros Hinv. unfold emplace_step. destruct (producer q) as [|x|x h|x h|x h] eqn:Hpc.
  - eauto.
  - do 2 eexists. split; [done |]. simpl. moves_pc Hinv Hpc.
  - pose proof Hinv as [Hh Ht Hl Hp Hc Hz Hs]. unfold producer_ok in Hp. rewrite Hpc in Hp.
    rewrite Hp, Hh, Ht, (distance_u64 k Hk) by lia. unfold kCapacity.
    destruct (Z.eqb_spec (lo + zlen vs - lo) (2 ^ k)) as [Heq | Hne].
    + do 2 eexists. split; [done |]. exists vs. split; [constructor; unfold kCapacity; lia |].
      moves_pc Hinv Hpc.
    + do 2 eexists. split; [done |]. simpl. moves_pc Hinv Hpc.
      unfold producer_ok. simpl. split; [by rewrite Hh | lia].
  - destruct (construct_slot _ _ _ _ _ Hinv Hpc) as [Hraw Hinv'].
    rewrite construct_at_raw by done. simpl. eauto.
  - destruct (publish_head _ _ _ _ _ Hinv Hpc) as [Hinv' Hlt].
    do 2 eexists. split; [done |]. eexists. split; [by constructor | done].
Qed.

Lemma pop_step_sound q vs lo :
  inv_at q vs lo →
  ∃ q' e, pop_step k q = Ret (q', e) ∧
    match e with
    | None => inv_at q' vs lo
    | Some e => ∃ vs' lo', fifo_step k vs e vs' ∧ inv_at q' vs' lo'
    end.
Proof using Hk.
  intros Hinv. unfold pop_step. destruct (consumer q) as [| |t|t|t x|t x] eqn:Hpc.
  - eauto.
  - do 2 eexists. split; [done |]. simpl. moves_pc Hinv Hpc.
  - pose proof Hinv as [Hh Ht Hl Hp Hc Hz Hs]. unfold consumer_ok in Hc. rewrite Hpc in Hc.
    rewrite Hc, Hh, Ht. pose proof (pow_k_lt k Hk).
    destruct (Z.eqb_spec (u64 (lo + zlen vs)) (u64 lo)) as [Heq | Hne].
    + apply u64_eq_window in Heq; [| lia].
      assert (vs = []) as -> by (destruct vs; simpl in *; [done | lia]).
      do 2 eexists. split; [done |]. exists [], lo. split; [constructor |].
      moves_pc Hinv Hpc.
    + do 2 eexists. split; [done |]. simpl. moves_pc Hinv Hpc.
      unfold consumer_ok. simpl. split; [done |]. intros ->. simpl in Hne.
        by rewrite Z.add_0_r in Hne.
  - destruct (move_slot _ _ _ _ Hinv Hpc) as (x & Hlive & Hinv').
    rewrite (move_from_live _ _ _ Hlive). simpl. eauto.
  - destruct (destroy_slot _ _ _ _ _ Hinv Hpc) as [Hmoved Hinv'].
    rewrite (destroy_at_moved _ _ Hmoved). simpl. eauto.
  - destruct (publish_tail _ _ _ _ _ Hinv Hpc) as (vs' & -> & Hinv').
    do 2 eexists. split; [done |]. do 2 eexists. split; [constructor | done].
Qed.

Lemma exec_sound q vs a :
  represents q vs →
  ∃ q' e, exec k q a = Ret (q', e) ∧
    match e with
    | None => represents q' vs
    | Some e => ∃ vs', fifo_step k vs e vs' ∧ represents q' vs'
    end.
Proof using Hk.
  intros [lo Hinv]. destruct a as [x | | |]; simpl.
  - destruct (producer q) eqn:Hpc; do 2 eexists; (split; [done |]); simpl; exists lo; try done.
    moves_pc Hinv Hpc.
  - destruct (emplace_step_sound _ _ _ Hinv) as (q' & e & -> & He).
    do 2 eexists. split; [done |]. unfold represents. destruct e as [e |]; [| by eauto].
    destruct He as (vs' & Hf & Hi). eauto.
  - destruct (consumer q) eqn:Hpc; do 2 eexists; (split; [done |]); simpl; exists lo; try done.
    moves_pc Hinv Hpc.
  - destruct (pop_step_sound _ _ _ Hinv) as (q' & e & -> & He).
    do 2 eexists. split; [done |]. unfold represents. destruct e as [e |]; [| by eauto].
    destruct He as (vs' & lo' & Hf & Hi). eauto.
Qed.

Lemma simulates_fifo : simulates (step k) (fifo_step k) snd represents.
Proof using Hk.
  intros q [a e] q' vs HR Hstep. unfold machine_step in Hstep. simpl in *.
  destruct (exec_sound q vs a HR) as (q1 & e1 & Heq & He).
  rewrite Heq in Hstep. injection Hstep as <- <-. by destruct e1.
Qed.

Lemma reachable_represents tr q :
  run (step k) (init k) tr q → ∃ vs, run (fifo_step k) [] (omap snd tr) vs ∧ represents q vs.
Proof using Hk.
  intros Hrun. eapply simulation_run; [apply simulates_fifo | apply represents_init | done].
Qed.
End Invariant.

(** ** Schedules as runs *)

Section Schedules.
Context {T : Type} (k : Z).

Lemma fifo_run_order es (vs : list T) :
  0 ≤ k → run (fifo_step k) [] es vs →
  pushed es = popped es ++ vs ∧ zlen vs ≤ kCapacity k.
Proof.
  intros Hk. apply (run_invariant _ (λ es vs, pushed es = popped es ++ vs ∧ zlen vs ≤ _)).
  { split; [done |]. apply Z.pow_nonneg. lia. }
  intros tr s e s' [Heq Hlen] Hstep. unfold pushed, popped in *. rewrite !omap_app, Heq.
  destruct Hstep; simpl; rewrite ?app_nil_r.
  - rewrite length_app. simpl. by split; [rewrite (assoc_L (++)) | lia].
  - done.
  - simpl in Hlen. by split; [rewrite <-(assoc_L (++)) | lia].
  - done.
Qed.

Definition by_producer (a : action T) : bool :=
  match a with CallPush _ | RunProducer => true | _ => false end.

Lemma consumer_keeps_producer q a q' e :
  by_producer a = false → exec k q a = Ret (q', e) →
  m_head q' = m_head q ∧ producer q' = producer q.
Proof.
  destruct a; try done; intros _; simpl; unfold pop_step;
    intros H; split_match_in H; try done.
  all: unfold obind in H; split_match_in H; done.
Qed.

Lemma producer_keeps_consumer q a q' e :
  by_producer a = true → exec k q a = Ret (q', e) →
  m_tail q' = m_tail q ∧ consumer q' = consumer q.
Proof.
  destruct a; try done; intros _; simpl; unfold emplace_step;
    intros H; split_match_in H; try done.
  all: unfold obind in H; split_match_in H; done.
Qed.

Lemma run_frame q1 tr q2 (b : bool) :
  run (step k) q1 tr q2 → Forall (λ e, by_producer e.1 = b) tr →
  if b then m_tail q2 = m_tail q1 else m_head q2 = m_head q1.
Proof.
  induction 1 as [q | q1 tr q2 [a e] q3 Hrun IH Hstep]; [by destruct b |].
  intros [Htr Ha]%Forall_app. rewrite Forall_singleton in Ha. specialize (IH Htr).
  unfold machine_step in Hstep. simpl in *. destruct b.
  - destruct (producer_keeps_consumer _ _ _ _ Ha Hstep). congruence.
  - destruct (consumer_keeps_producer _ _ _ _ Ha Hstep). congruence.
Qed.

(** Own steps an operation still has to take. *)
Definition producer_left (q : queue T) : nat :=
  match producer q with
  | P_idle => 0 | P_load_head _ => 4 | P_load_tail _ _ => 3
  | P_construct _ _ => 2 | P_publish _ _ => 1
  end.
Definition consumer_left (q : queue T) : nat :=
  match consumer q with
  | C_idle => 0 | C_load_tail => 5 | C_load_head _ => 4
  | C_move _ => 3 | C_destroy _ _ => 2 | C_publish _ _ => 1
  end.

(** Steps a schedule gives to each thread. *)
Definition producer_steps (acts : list (action T)) : nat :=
  length (List.filter (λ a, match a with RunProducer => true | _ => false end) acts).
Definition consumer_steps (acts : list (action T)) : nat :=
  length (List.filter (λ a, match a with RunConsumer => true | _ => false end) acts).
Definition starts_push (a : action T) : bool :=
  match a with CallPush _ => true | _ => false end.
Definition starts_pop (a : action T) : bool :=
  match a with CallPop => true | _ => false end.

Lemma producer_left_step q a q' e :
  exec k q a = Ret (q', e) → starts_push a = false →
  (producer_left q' ≤ producer_left q - producer_steps [a])%nat.
Proof.
  intros He Ha. destruct (by_producer a) eqn:Hb.
  - destruct a; try done. revert He. simpl. unfold emplace_step, producer_left, producer_steps.
    destruct (producer q) eqn:Hpc; intros H; split_match_in H; simplify_eq/=; rewrite ?Hpc; simpl; try lia.
    all: unfold obind in H; split_match_in H; simplify_eq/=; lia.
  - destruct (consumer_keeps_producer _ _ _ _ Hb He) as [_ Hp].
    unfold producer_left, producer_steps. rewrite Hp. destruct a; try done; simpl; lia.
Qed.

Lemma consumer_left_step q a q' e :
  exec k q a = Ret (q', e) → starts_pop a = false →
  (consumer_left q' ≤ consumer_left q - consumer_steps [a])%nat.
Proof.
  intros He Ha. destruct (by_producer a) eqn:Hb.
  - destruct (producer_keeps_consumer _ _ _ _ Hb He) as [_ Hp].
    unfold consumer_left, consumer_steps. rewrite Hp. destruct a; try done; simpl; lia.
  - destruct a; try done. revert He. simpl. unfold pop_step, consumer_left, consumer_steps.
    destruct (consumer q) eqn:Hpc; intros H; split_match_in H; simplify_eq/=; rewrite ?Hpc; simpl; try lia.
    all: unfold obind in H; split_match_in H; simplify_eq/=; lia.
Qed.
End Schedules.

Section Progress.
Context {T : Type} (k : Z) (Hk : 0 ≤ k < 64).

(** From a reachable queue every schedule runs to its end. *)
Lemma exec_all_runs (q : queue T) vs acts :
  represents k q vs → ∃ q' es, exec_all k q acts = Ret (q', es).
Proof using Hk.
  intros HR. destruct (run_schedule_total (exec k) (λ _, True) (λ q, ∃ vs, represents k q vs) acts q)
    as (q' & es & ? & _); [| by apply Forall_true | eauto..].
  clear -Hk. intros q a _ [vs HR]. destruct (exec_sound k Hk q vs a HR) as (q' & e & ? & He).
  exists q', e. split; [done |]. destruct e; [destruct He as (? & _ & ?) |]; eauto.
Qed.

Lemma producer_left_all (q : queue T) acts q' es :
  exec_all k q acts = Ret (q', es) → forallb (negb ∘ starts_push) acts →
  (producer_left q' ≤ producer_left q - producer_steps acts)%nat.
Proof using.
  unfold producer_steps. revert q es. induction acts as [| a acts IH]; intros q es; simpl.
  { intros [= <- <-] _. lia. }
  destruct (exec k q a) as [[q1 e] | | | |] eqn:Ha; try done. simpl.
  destruct (exec_all k q1 acts) as [[q2 es'] | | | |] eqn:Hacts; try done. simpl.
  intros [= <- <-] [Hna Hall]%andb_True. specialize (IH _ _ Hacts Hall).
  pose proof (producer_left_step _ _ _ _ _ Ha ltac:(by destruct (starts_push a))).
  unfold producer_steps in *. destruct a; simpl in *; lia.
Qed.

Lemma consumer_left_all (q : queue T) acts q' es :
  exec_all k q acts = Ret (q', es) → forallb (negb ∘ starts_pop) acts →
  (consumer_left q' ≤ consumer_left q - consumer_steps acts)%nat.
Proof using.
  unfold consumer_steps. revert q es. induction acts as [| a acts IH]; intros q es; simpl.
  { intros [= <- <-] _. lia. }
  destruct (exec k q a) as [[q1 e] | | | |] eqn:Ha; try done. simpl.
  destruct (exec_all k q1 acts) as [[q2 es'] | | | |] eqn:Hacts; try done. simpl.
  intros [= <- <-] [Hna Hall]%andb_True. specialize (IH _ _ Hacts Hall).
  pose proof (consumer_left_step _ _ _ _ _ Ha ltac:(by destruct (starts_pop a))).
  unfold consumer_steps in *. destruct a; simpl in *; lia.
Qed.

Lemma producer_left_bound (q : queue T) : (producer_left q ≤ 4)%nat.
Proof using. unfold producer_left. destruct (producer q); lia. Qed.
Lemma consumer_left_bound (q : queue T) : (consumer_left q ≤ 5)%nat.
Proof using. unfold consumer_left. destruct (consumer q); lia. Qed.
Lemma producer_left_0 (q : queue T) : producer_left q = 0%nat → producer q = P_idle.
Proof using. unfold producer_left. by destruct (producer q). Qed.
Lemma consumer_left_0 (q : queue T) : consumer_left q = 0%nat → consumer q = C_idle.
Proof using. unfold consumer_left. by destruct (consumer q). Qed.

Lemma destructor_loop_step fuel (st : list (cell T)) tail head :
  destructor_loop k (S fuel) st tail head =
  if tail =? head then Ret st
  else let! st := destroy_at st (slot_ptr k tail) in
       destructor_loop k fuel st (tail +u64 1) head.
Proof using. done. Qed.

(** The destructor walks the values still in the queue, oldest first. *)
Lemma destructor_loop_ok vs lo st :
  zlen vs ≤ 2 ^ k →
  holds k st lo (λ i, match vs !! Z.to_nat (i - lo) with Some v => Live v | None => Raw end) →
  ∃ st', destructor_loop k (S (length vs)) st (u64 lo) (u64 (lo + zlen vs)) = Ret st' ∧
    holds k st' (lo + zlen vs) (λ _, Raw : cell T) ∧
    length st' = length st.
Proof using Hk.
  revert lo st. induction vs as [| v vs IH]; intros lo st Hlen Hst;
    rewrite destructor_loop_step; cbn [length] in *.
  { rewrite Z.add_0_r, Z.eqb_refl. eexists. split_and!; [done | | done].
    eapply holds_ext; [| exact Hst]. done. }
  pose proof (pow_k_lt k Hk).
  destruct (Z.eqb_spec (u64 lo) (u64 (lo + Z.of_nat (S (length vs))))) as [Heq | _].
  { symmetry in Heq. apply u64_eq_window in Heq; lia. }
  unfold slot_ptr. rewrite mask_slot_u64 by done.
  assert (st !! slot k lo = Some (Live v)) as Hlive.
  { rewrite (Hst lo) by lia. by rewrite Z.sub_diag. }
  rewrite (destroy_at_live _ _ _ Hlive). cbn [obind]. rewrite u64_add_l.
  replace (lo + Z.of_nat (S (length vs))) with (lo + 1 + zlen vs) by lia.
  rewrite <-(length_insert st (slot k lo) Raw).
  apply IH; [lia |].
  apply (holds_shift k Hk _ _ (λ i, if i =? lo then Raw else
    match (v :: vs) !! Z.to_nat (i - lo) with Some w => Live w | None => Raw end)).
  - eapply (holds_insert k Hk); [exact Hst | lia | by rewrite Z.eqb_refl |].
    intros i Hi Hne. by rewrite (proj2 (Z.eqb_neq _ _)) by done.
  - intros i Hi. rewrite (proj2 (Z.eqb_neq i lo)) by lia.
    by replace (Z.to_nat (i - lo)) with (S (Z.to_nat (i - (lo + 1)))) by lia.
  - rewrite Z.eqb_refl. by rewrite (proj2 (lookup_ge_None vs _)) by lia.
Qed.

Lemma destructor_loop_fuel fuel fuel' (st st' : list (cell T)) tail head :
  destructor_loop k fuel st tail head = Ret st' → (fuel ≤ fuel')%nat →
  destructor_loop k fuel' st tail head = Ret st'.
Proof using.
  revert fuel' st tail. induction fuel as [| fuel IH]; intros fuel' st tail; [done |].
  intros H Hle. destruct fuel' as [| fuel']; [lia |].
  rewrite destructor_loop_step in *. destruct (tail =? head); [done |].
  destruct (destroy_at st (slot_ptr k tail)); try done. simpl in *.
  apply IH; [done | lia].
Qed.
End Progress.

(** * The properties of the queue *)

(** C1: [emplace] and [pop] refine a bounded FIFO queue.  Whatever the
    interleaving of the two threads, the answers they give are those of a FIFO
    queue of capacity [2 ^ k]: a push fails exactly when the queue is full, a
    pop fails exactly when it is empty, and the values pushed are the values
    popped, in order and each once, followed by those still queued, which
    [size] counts — also after the 64-bit counters have wrapped. *)
Theorem spsc_refines_fifo {T} k tr (q : queue T) :
  0 ≤ k < 64 → run (step k) (init k) tr q →
  ∃ vs, run (fifo_step k) [] (omap snd tr) vs ∧
    pushed (omap snd tr) = popped (omap snd tr) ++ vs ∧
    zlen vs ≤ kCapacity k ∧ size q q = zlen vs.
Proof.
  intros Hk Hrun. destruct (reachable_represents k Hk _ _ Hrun) as (vs & Hspec & lo & Hinv).
  destruct (fifo_run_order k _ _ ltac:(lia) Hspec) as [Ho Hl].
  exists vs. split_and!; [done | done | done |]. unfold size.
  rewrite (inv_head _ _ _ _ Hinv), (inv_tail _ _ _ _ Hinv), (distance_u64 k Hk); [lia |].
  unfold kCapacity in Hl. lia.
Qed.

(** Memory safety and race freedom.  On every reachable queue every step of
    either thread is defined: no slot is constructed over a live object, moved
    from before it is constructed, or destroyed twice; and while the producer is
    about to construct into a slot the consumer never touches that slot. *)
Theorem spsc_safe {T} k tr (q : queue T) :
  0 ≤ k < 64 → run (step k) (init k) tr q →
  (∀ a, ∃ q' e, exec k q a = Ret (q', e)) ∧
  (∀ x head tail, producer q = P_construct x head →
    consumer q = C_move tail ∨ (∃ out, consumer q = C_destroy tail out) →
    slot_ptr k head ≠ slot_ptr k tail).
Proof.
  intros Hk Hrun. destruct (reachable_represents k Hk _ _ Hrun) as (vs & _ & HR). split.
  - intros a. destruct (exec_sound k Hk q vs a HR) as (q' & e & ? & _). eauto.
  - intros x head tail Hp Hc Heq. destruct HR as [lo Hinv].
    destruct (construct_slot k Hk _ _ _ _ _ Hinv Hp) as [Hraw _]. rewrite Heq in Hraw.
    destruct Hc as [Hc | [out Hc]].
    + destruct (move_slot k Hk _ _ _ _ Hinv Hc) as (? & ? & _). congruence.
    + destruct (destroy_slot k Hk _ _ _ _ _ Hinv Hc) as [? _]. congruence.
Qed.

(** Wait freedom.  From any reachable queue, a schedule that gives the
    producer four steps (the consumer five) and starts no further operation of
    that thread ends with that thread's operation complete, whatever the other
    thread does meanwhile. *)
Theorem spsc_wait_free {T} k tr (q : queue T) acts :
  0 ≤ k < 64 → run (step k) (init k) tr q →
  ∃ q' es, exec_all k q acts = Ret (q', es) ∧
    (forallb (negb ∘ starts_push) acts → (4 ≤ producer_steps acts)%nat → producer q' = P_idle) ∧
    (forallb (negb ∘ starts_pop) acts → (5 ≤ consumer_steps acts)%nat → consumer q' = C_idle).
Proof.
  intros Hk Hrun. destruct (reachable_represents k Hk _ _ Hrun) as (vs & _ & HR).
  destruct (exec_all_runs k Hk q vs acts HR) as (q' & es & Hacts).
  exists q', es. split_and!; [done | |].
  - intros Hs Hn. apply producer_left_0.
    pose proof (producer_left_all k q acts q' es Hacts Hs).
    pose proof (producer_left_bound q). lia.
  - intros Hs Hn. apply consumer_left_0.
    pose proof (consumer_left_all k q acts q' es Hacts Hs).
    pose proof (consumer_left_bound q). lia.
Qed.

(** [size()] called by one of the two threads is exact.  Between its two
    loads only the other thread runs ([b] says whether that is the producer);
    the answer is the length of the queue at the first load when the consumer
    asks, and at the second when the producer asks. *)
Theorem spsc_size_owner {T} k (b : bool) tr tr' (q1 q2 : queue T) :
  0 ≤ k < 64 → run (step k) (init k) tr q1 → run (step k) q1 tr' q2 →
  Forall (λ e, by_producer e.1 = b) tr' →
  ∃ vs, run (fifo_step k) [] (omap snd (if b then tr else tr ++ tr')) vs ∧
    size q1 q2 = zlen vs ∧ zlen vs ≤ kCapacity k.
Proof.
  intros Hk Hrun Hrun' Hown. pose proof (run_frame k _ _ _ b Hrun' Hown) as Hframe.
  assert (∃ q, run (step k) (init k) (if b then tr else tr ++ tr') q ∧ size q1 q2 = size q q)
    as (q & Hq & ->).
  { unfold size. destruct b; [exists q1 | exists q2]; rewrite Hframe; split; try done.
    by eapply run_app. }
  destruct (reachable_represents k Hk _ _ Hq) as (vs & Hspec & lo & Hinv).
  destruct (fifo_run_order k _ _ ltac:(lia) Hspec) as [_ Hl].
  exists vs. split_and!; [done | | done]. unfold size.
  rewrite (inv_head _ _ _ _ Hinv), (inv_tail _ _ _ _ Hinv), (distance_u64 k Hk); [lia |].
  unfold kCapacity in Hl. lia.
Qed.

(** The destructor, run when no operation is under way, ends and destroys
    exactly the values still queued: all the storage is raw again. *)
Theorem spsc_destructor_drains {T} k tr (q : queue T) fuel :
  0 ≤ k < 64 → run (step k) (init k) tr q →
  producer q = P_idle → consumer q = C_idle → kCapacity k < Z.of_nat fuel →
  ∃ st, destructor k fuel q = Ret st ∧ Forall (λ c, c = Raw) st.
Proof.
  intros Hk Hrun Hp Hc Hfuel.
  destruct (reachable_represents k Hk _ _ Hrun) as (vs & _ & lo & [Hh Ht Hl _ _ Hz Hs]).
  destruct (destructor_loop_ok k Hk vs lo (m_storage q) Hl) as (st & Hst & Hraw & Hlen).
  { eapply holds_ext; [| exact Hs]. intros i Hi. unfold contents. by rewrite Hc, Hp. }
  exists st. split.
  - unfold destructor. rewrite Hh, Ht. eapply destructor_loop_fuel; [done |].
    unfold kCapacity in Hfuel. lia.
  - eapply (holds_all k Hk); [congruence | exact Hraw].
Qed.

(** ** Concrete executions *)

Module Demo.
(** Capacity 2: the producer pushes 7, and both threads then overlap: the
    producer has loaded both counters for 8 while the consumer moves 7 out. *)
Definition schedule : list (action nat) :=
  [CallPush 7; RunProducer; RunProducer; RunProducer; RunProducer]%nat ++
  [CallPush 8; CallPop; RunProducer; RunConsumer; RunConsumer; RunProducer; RunConsumer]%nat.

(** The same, run to the end of both operations. *)
Definition to_end : list (action nat) :=
  [RunProducer; RunConsumer; RunConsumer; RunProducer; RunProducer; RunConsumer; RunConsumer].

Definition at_overlap : queue nat := final (init 1) (exec_all 1 (init 1) schedule).
Definition at_end : queue nat := final at_overlap (exec_all 1 at_overlap to_end).

Lemma overlap_run : ∃ tr, run (step 1) (init 1) tr at_overlap ∧ omap snd tr = [Ev_push 7%nat].
Proof.
  destruct (run_schedule_run (exec 1) schedule (init 1) at_overlap [Ev_push 7%nat]) as (tr & ? & ? & _);
    [by vm_compute | eauto].
Qed.

Lemma end_run : ∃ tr, run (step 1) (init 1) tr at_end
  ∧ omap snd tr = [Ev_push 7; Ev_pop 7; Ev_push 8]%nat.
Proof.
  destruct (run_schedule_run (exec 1) (schedule ++ to_end) (init 1) at_end
    [Ev_push 7; Ev_pop 7; Ev_push 8]%nat) as (tr & ? & ? & _); [by vm_compute | eauto].
Qed.

Lemma pop_run : ∃ tr, run (step 1) at_overlap tr
  (final at_overlap (exec_all 1 at_overlap [RunConsumer; RunConsumer]))
  ∧ Forall (λ e, by_producer e.1 = false) tr.
Proof.
  destruct (run_schedule_run (exec 1) [RunConsumer; RunConsumer] at_overlap
    (final at_overlap (exec_all 1 at_overlap [RunConsumer; RunConsumer]))
    [Ev_pop 7%nat]) as (tr & ? & ? & Hacts); [by vm_compute |].
  exists tr. split; [done |]. apply (Forall_fmap fst (λ a, by_producer a = false)).
  rewrite Hacts. by repeat constructor.
Qed.
End Demo.

Lemma spsc_refines_fifo_witness : ∃ tr,
  run (step 1) (init 1) tr Demo.at_end ∧
  ∃ vs : list nat, run (fifo_step 1) [] (omap snd tr) vs ∧
    pushed (omap snd tr) = popped (omap snd tr) ++ vs ∧
    zlen vs ≤ kCapacity 1 ∧ size Demo.at_end Demo.at_end = zlen vs.
Proof.
  destruct Demo.end_run as (tr & Hrun & _). exists tr. split; [exact Hrun |].
  apply (spsc_refines_fifo 1 tr Demo.at_end); [lia | exact Hrun].
Defined.

Lemma spsc_safe_witness :
  (∀ a, ∃ q' e, exec 1 Demo.at_overlap a = Ret (q', e)) ∧
  producer Demo.at_overlap = P_construct 8%nat 1 ∧ consumer Demo.at_overlap = C_destroy 0 7%nat ∧
  slot_ptr 1 1 ≠ slot_ptr 1 0.
Proof.
  destruct Demo.overlap_run as (tr & Hrun & _).
  destruct (spsc_safe 1 tr Demo.at_overlap ltac:(lia) Hrun) as [Hsafe Hrace].
  split_and!; [exact Hsafe | by vm_compute | by vm_compute |].
  eapply Hrace; [by vm_compute | right; eexists; by vm_compute].
Defined.

Lemma spsc_wait_free_witness : ∃ q' es,
  exec_all 1 Demo.at_overlap (Demo.to_end ++ Demo.to_end) = Ret (q', es) ∧
  producer q' = P_idle ∧ consumer q' = C_idle.
Proof.
  destruct Demo.overlap_run as (tr & Hrun & _).
  destruct (spsc_wait_free 1 tr Demo.at_overlap (Demo.to_end ++ Demo.to_end) ltac:(lia) Hrun)
    as (q' & es & He & Hp & Hc).
  exists q', es. split_and!; [exact He | apply Hp | apply Hc]; vm_compute; try done; lia.
Defined.

Lemma spsc_size_owner_witness : ∃ tr tr' q2,
  run (step 1) (init 1) tr Demo.at_overlap ∧ run (step 1) Demo.at_overlap tr' q2 ∧
  ∃ vs : list nat, run (fifo_step 1) [] (omap snd (tr ++ tr')) vs ∧
    size Demo.at_overlap q2 = zlen vs ∧ zlen vs ≤ kCapacity 1.
Proof.
  destruct Demo.overlap_run as (tr & Hrun & _).
  destruct Demo.pop_run as (tr' & Hrun' & Hown).
  exists tr, tr'. eexists. split_and!; [exact Hrun | exact Hrun' |].
  apply (spsc_size_owner 1 false tr tr'); [lia | exact Hrun | exact Hrun' | exact Hown].
Defined.

Lemma spsc_destructor_drains_witness :
  ∃ st, destructor 1 3 Demo.at_end = Ret st ∧ Forall (λ c, c = Raw) st.
Proof.
  destruct Demo.end_run as (tr & Hrun & _).
  apply (spsc_destructor_drains 1 tr Demo.at_end 3); [lia | exact Hrun | by vm_compute.. ].
Defined.

(** A third thread's [size()] is not bounded: with an element pushed and popped
    between its two loads the unsigned difference wraps. *)
Module ThirdParty.
Definition schedule : list (action nat) :=
  [CallPush 7%nat; RunProducer; RunProducer; RunProducer; RunProducer;
   CallPop; RunConsumer; RunConsumer; RunConsumer; RunConsumer; RunConsumer].
Definition second_load : queue nat := final (init 1) (exec_all 1 (init 1) schedule).
Example spsc_size_third_party :
  exec_all 1 (init 1) schedule = Ret (second_load, [Ev_push 7; Ev_pop 7]%nat)
  ∧ size (init 1) second_load = 2 ^ 64 - 1.
Proof. split; by vm_compute. Qed.
End ThirdParty.
