(* ===== verification/SPSCArray.v ===== *)
(** * SPSCArray: [pop] of the lock-free queue for array elements

    The other branch of [pop] in structs/SPSCQueue.hh, for an element type that is
    an array.  [emplace] does not compile for such a type (a pointer to an element
    of the array is no pointer to the array), so that nothing can be pushed;
    what [pop] would do of a queue that holds arrays is modelled nevertheless.  The
    consumer runs alone. *)

From stdpp Require Import base tactics numbers list option.
From Stdlib Require Import ZArith Lia.
From S2P Require Import Prelude Storage Ring.
#[local] Open Scope Z_scope.
#[local] Open Scope fiah_scope.

Section SPSCArray.
(** [T] is an array of [extent] objects of type [ElementT], of [size] bytes each; the
    capacity is [2 ^ k]. *)
Context {ElementT : Type} (size extent : nat) (k : Z).

Definition sizeof_T : nat := size * extent.

Record array_queue : Type := ArrayQueue { a_head : Z; a_tail : Z; a_storage : list (cell ElementT) }.

(** The first object of slot [idx]. *)
Definition array_ptr (idx : Z) : nat := mask_slot k idx * extent.

(** [out[i] = x]; past the end of the array, undefined. *)
Definition assign_out (out : list ElementT) (i : nat) (x : ElementT) : outcome (list ElementT) :=
  if (i <? extent)%nat then Ret (<[i := x]> out) else Undef.

(** The loop, with [n] turns to go. *)
Fixpoint copy_array (n i p : nat) (st : list (cell ElementT)) (out : list ElementT)
  : outcome (list (cell ElementT) * list ElementT) :=
  match n with
  | O => Ret (st, out)
  | S n =>
      let! (x, st) := move_from st (p + i) in
      let! out := assign_out out i x in
      copy_array n (S i) p st out
  end.

Definition pop_array (q : array_queue) (out : list ElementT) : outcome (bool * array_queue * list ElementT) :=
  if a_head q =? a_tail q then Ret (false, q, out) else
  let p := array_ptr (a_tail q) in
  let! (st, out) := copy_array sizeof_T 0 p (a_storage q) out in
  let! st := destroy_at st p in
  Ret (true, ArrayQueue (a_head q) (a_tail q +u64 1) st, out).

Lemma copy_past_end n i p st out : (extent < i + n)%nat → (i ≤ extent)%nat → copy_array n i p st out = Undef.
Proof.
  revert i st out. induction n as [| n IH]; intros i st out Hn Hi; [lia |]. cbn [copy_array].
  unfold move_from, at_cell, move_cell, assign_out. destruct (st !! (p + i)%nat) as [[| x |] |]; try done. cbn [obind].
  destruct (Nat.ltb_spec i extent) as [Hlt | Hge]; [| done]. cbn [obind]. apply IH; lia.
Qed.

Lemma copy_whole n i p st out vs :
  length vs = n → (i + n ≤ extent)%nat → length out = extent →
  (∀ j v, vs !! j = Some v → st !! (p + i + j)%nat = Some (Live v)) →
  ∃ st', copy_array n i p st out = Ret (st', take i out ++ vs ++ drop (i + n) out) ∧
    (∀ j, (j < n)%nat → st' !! (p + i + j)%nat = Some Moved) ∧
    (∀ j, (j < p + i ∨ p + i + n ≤ j)%nat → st' !! j = st !! j).
Proof.
  revert i st out vs. induction n as [| n IH]; intros i st out vs Hvs Hi Hout Hst.
  { destruct vs; [| done]. exists st. rewrite Nat.add_0_r. simpl. rewrite take_drop. split_and!; [done | lia | done]. }
  destruct vs as [| v vs]; [done |]. injection Hvs as Hvs. cbn [copy_array].
  pose proof (Hst 0%nat v eq_refl) as Hv. rewrite Nat.add_0_r in Hv. rewrite (move_from_live _ _ _ Hv). cbn [obind].
  unfold assign_out. rewrite (proj2 (Nat.ltb_lt _ _)) by lia. cbn [obind].
  destruct (IH (S i) (<[(p + i)%nat := Moved]> st) (<[i := v]> out) vs Hvs) as (st' & -> & Hmoved & Hother).
  - lia.
  - by rewrite length_insert.
  - intros j w Hw. rewrite list_lookup_insert_ne by lia. replace (p + S i + j)%nat with (p + i + S j)%nat by lia. by apply Hst.
  - exists st'. split_and!.
    + do 2 f_equal. rewrite (take_S_r _ _ v) by (apply list_lookup_insert_eq; lia).
      rewrite drop_insert_lt, take_insert_ge, <-(assoc_L (++)) by lia. by replace (S i + n)%nat with (i + S n)%nat by lia.
    + intros [| j] Hj; [| replace (p + i + S j)%nat with (p + S i + j)%nat by lia; apply Hmoved; lia].
      rewrite Nat.add_0_r, Hother by lia. apply list_lookup_insert_eq. by eapply lookup_lt_Some.
    + intros j Hj. rewrite Hother by lia. apply list_lookup_insert_ne. lia.
Qed.

(** Popping an array whose elements are larger than a byte writes past the end of
    [out]: the loop counts bytes. *)
Theorem pop_array_overruns q out :
  (1 < size)%nat → (0 < extent)%nat → a_head q ≠ a_tail q → pop_array q out = Undef.
Proof.
  intros Hs He Hne. unfold pop_array. rewrite (proj2 (Z.eqb_neq _ _)) by done.
  rewrite copy_past_end; [done | unfold sizeof_T; nia | lia].
Qed.

(** Popping an array of characters answers it whole, but ends the lifetime of its
    first element only. *)
Theorem pop_array_of_chars q out vs :
  size = 1%nat → length vs = extent → length out = extent → (0 < extent)%nat → a_head q ≠ a_tail q →
  (∀ j v, vs !! j = Some v → a_storage q !! (array_ptr (a_tail q) + j)%nat = Some (Live v)) →
  ∃ q', pop_array q out = Ret (true, q', vs) ∧ a_tail q' = a_tail q +u64 1 ∧
    a_storage q' !! array_ptr (a_tail q) = Some Raw ∧
    ∀ j, (0 < j < extent)%nat → a_storage q' !! (array_ptr (a_tail q) + j)%nat = Some Moved.
Proof.
  intros Hs Hvs Hout Hpos Hne Hst. unfold pop_array. rewrite (proj2 (Z.eqb_neq _ _)) by done.
  set (p := array_ptr (a_tail q)) in *. replace sizeof_T with extent by (unfold sizeof_T; lia).
  destruct (copy_whole extent 0 p (a_storage q) out vs Hvs) as (st & -> & Hmoved & _); [lia | done | |].
  { intros j v Hv. rewrite Nat.add_0_r. by apply Hst. }
  cbn [obind]. rewrite drop_ge, app_nil_r by lia. simpl (take 0 out ++ vs).
  pose proof (Hmoved 0%nat Hpos) as H0. rewrite !Nat.add_0_r in H0. rewrite (destroy_at_moved _ _ H0). cbn [obind].
  eexists. split; [done |]. cbn [a_tail a_storage]. split_and!; [done | |].
  - apply list_lookup_insert_eq. by eapply lookup_lt_Some.
  - intros j Hj. rewrite list_lookup_insert_ne by lia. pose proof (Hmoved j) as Hj'. rewrite Nat.add_0_r in Hj'. apply Hj'. lia.
Qed.
End SPSCArray.

(** A queue of two arrays of three elements, the first slot taken: characters come
    out, wider elements do not. *)
Definition one_array : array_queue := ArrayQueue 1 0 [Live 7; Live 8; Live 9; Raw; Raw; Raw].

Example pop_array_examples :
  pop_array 1 3 1 one_array [0; 0; 0] = Ret (true, ArrayQueue 1 1 [Raw; Moved; Moved; Raw; Raw; Raw], [7; 8; 9]) ∧
  pop_array 4 3 1 one_array [0; 0; 0] = Undef.
Proof. split; reflexivity. Qed.
