(* ===== verification/SPSCWeak.v ===== *)
(** * SPSCWeak: the memory orders of the single-producer, single-consumer queue

    Models [src/include/fiah/structs/SPSCQueue.hh] once more, over the
    release/acquire memory of [WeakMemory]: the loads of the two counters may
    answer old values, and two accesses to a slot that no acquire load has
    ordered are a data race.  The orders are a parameter, [code_orders] those of
    the code; steps and program counters are those of [SPSCQueue]. *)

From stdpp Require Import base tactics numbers list option.
From Stdlib Require Import ZArith Lia.
From S2P Require Import Prelude Storage Ring SPSCQueue WeakMemory.
#[local] Open Scope Z_scope.
#[local] Open Scope fiah_scope.

(** The two threads and the two atomic locations; slots are the plain objects. *)
Definition PRODUCER : nat := 0.
Definition CONSUMER : nat := 1.
Definition HEAD : nat := 0.
Definition TAIL : nat := 1.

(** The orders of the accesses that two threads make to one counter; the loads
    of the counter that the thread itself writes are relaxed. *)
Record orders : Type := Orders {
  push_load_tail : order;
  push_store_head : order;
  pop_load_head : order;
  pop_store_tail : order
}.
Definition code_orders : orders := Orders Acquire Release Acquire Release.

Section SPSCWeak.
Context {T : Type} (k : Z) (ords : orders).

Record weak_queue : Type := WeakQueue {
  mem : memory;
  storage : list (cell T);
  prod_pc : producer_pc (T := T);
  cons_pc : consumer_pc (T := T)
}.

Definition weak_init : weak_queue :=
  WeakQueue (init_memory 0) (replicate (Z.to_nat (kCapacity k)) Raw) P_idle C_idle.

(** One step of [emplace]; [i] is the message a load reads.  A choice the memory
    does not allow leaves the queue as it is. *)
Definition weak_emplace_step (q : weak_queue) (i : nat) : outcome (weak_queue * option (event T)) :=
  let goto m pc := WeakQueue m (storage q) pc (cons_pc q) in
  match prod_pc q with
  | P_idle => Ret (q, None)
  | P_load_head x =>
      match load Relaxed (mem q) PRODUCER HEAD i with
      | Some (head, m) => Ret (goto m (P_load_tail x head), None)
      | None => Ret (q, None)
      end
  | P_load_tail x head =>
      match load (push_load_tail ords) (mem q) PRODUCER TAIL i with
      | Some (tail, m) =>
          if head -u64 tail =? kCapacity k
          then Ret (goto m P_idle, Some (Ev_push_full x))
          else Ret (goto m (P_construct x head), None)
      | None => Ret (q, None)
      end
  | P_construct x head =>
      let! m := access (mem q) PRODUCER (slot_ptr k head) in
      let! st := construct_at (storage q) (slot_ptr k head) x in
      Ret (WeakQueue m st (P_publish x head) (cons_pc q), None)
  | P_publish x head =>
      Ret (goto (store (push_store_head ords) (mem q) PRODUCER HEAD (head +u64 1)) P_idle, Some (Ev_push x))
  end.

(** One step of [pop]. *)
Definition weak_pop_step (q : weak_queue) (i : nat) : outcome (weak_queue * option (event T)) :=
  let goto m pc := WeakQueue m (storage q) (prod_pc q) pc in
  match cons_pc q with
  | C_idle => Ret (q, None)
  | C_load_tail =>
      match load Relaxed (mem q) CONSUMER TAIL i with
      | Some (tail, m) => Ret (goto m (C_load_head tail), None)
      | None => Ret (q, None)
      end
  | C_load_head tail =>
      match load (pop_load_head ords) (mem q) CONSUMER HEAD i with
      | Some (head, m) =>
          if head =? tail
          then Ret (goto m C_idle, Some Ev_pop_empty)
          else Ret (goto m (C_move tail), None)
      | None => Ret (q, None)
      end
  | C_move tail =>
      let! m := access (mem q) CONSUMER (slot_ptr k tail) in
      let! (out, st) := move_from (storage q) (slot_ptr k tail) in
      Ret (WeakQueue m st (prod_pc q) (C_destroy tail out), None)
  | C_destroy tail out =>
      let! m := access (mem q) CONSUMER (slot_ptr k tail) in
      let! st := destroy_at (storage q) (slot_ptr k tail) in
      Ret (WeakQueue m st (prod_pc q) (C_publish tail out), None)
  | C_publish tail out =>
      Ret (goto (store (pop_store_tail ords) (mem q) CONSUMER TAIL (tail +u64 1)) C_idle, Some (Ev_pop out))
  end.

(** The scheduler also chooses the message that a load reads. *)
Inductive weak_action : Type :=
| WeakPush (x : T)
| WeakProducer (i : nat)
| WeakPop
| WeakConsumer (i : nat).

Definition weak_exec (q : weak_queue) (a : weak_action) : outcome (weak_queue * option (event T)) :=
  match a with
  | WeakPush x =>
      match prod_pc q with
      | P_idle => Ret (WeakQueue (mem q) (storage q) (P_load_head x) (cons_pc q), None)
      | _ => Ret (q, None)
      end
  | WeakProducer i => weak_emplace_step q i
  | WeakPop =>
      match cons_pc q with
      | C_idle => Ret (WeakQueue (mem q) (storage q) (prod_pc q) C_load_tail, None)
      | _ => Ret (q, None)
      end
  | WeakConsumer i => weak_pop_step q i
  end.
End SPSCWeak.
Arguments weak_queue T : clear implicits.
Arguments weak_action T : clear implicits.

(** * Proofs *)

Section Invariant.
Context {T : Type} (k : Z) (Hk : 0 ≤ k < 64).
Implicit Types (q : weak_queue T) (vs : list T) (lo hi : nat).

Abbreviation weak_exec_code := (weak_exec k code_orders).

(** How many accesses to slots each thread has made so far: one for each push,
    two for each pop. *)
Definition producer_clock hi (pc : producer_pc (T := T)) : nat :=
  match pc with P_publish _ _ => S hi | _ => hi end.
Definition consumer_clock lo (pc : consumer_pc (T := T)) : nat :=
  match pc with C_destroy _ _ => S (2 * lo) | C_publish _ _ => S (S (2 * lo)) | _ => 2 * lo end%nat.

(** After [hi] pushes and [lo] pops, [p] and [c] accesses: what every view knows,
    of a thread or of a message.  A push or pop is only known with its accesses. *)
Record view_ok lo hi (p c : nat) (v : view) : Prop := ViewOk {
  vo_head : (seen v HEAD ≤ hi)%nat;
  vo_tail : (seen v TAIL ≤ lo)%nat;
  vo_pushes : (seen v HEAD ≤ clk v PRODUCER ≤ p)%nat;
  vo_pops : (2 * seen v TAIL ≤ clk v CONSUMER ≤ c)%nat
}.

(** The [S n] messages of a location are its counters up to the last published. *)
Definition history_ok (ok : view → Prop) (l n : nat) (ms : list message) : Prop :=
  length ms = S n ∧
  ∀ i msg, ms !! i = Some msg →
    msg_value msg = u64 (Z.of_nat i) ∧ ok (msg_view msg) ∧ seen (msg_view msg) l = i.

(** The last accesses to the slot of counter [i]. *)
Definition last_push hi (pc : producer_pc (T := T)) (i : Z) : Z :=
  if i <? Z.of_nat (producer_clock hi pc) then i + 1 else i + 1 - 2 ^ k.
Definition last_pop lo (pc : consumer_pc (T := T)) (i : Z) : Z :=
  if i =? Z.of_nat lo then
    match pc with
    | C_destroy _ _ | C_publish _ _ => Z.of_nat (consumer_clock lo pc)
    | _ => 2 * (i + 1 - 2 ^ k)
    end
  else 2 * (i + 1 - 2 ^ k).
Definition accesses_ok lo hi (acc : nat → list (nat * nat)) (pp : producer_pc) (cp : consumer_pc) : Prop :=
  ∀ i t c, Z.of_nat lo ≤ i < Z.of_nat lo + 2 ^ k → (t, c) ∈ acc (slot k i) →
    (t = PRODUCER ∧ Z.of_nat c ≤ last_push hi pp i) ∨ (t = CONSUMER ∧ Z.of_nat c ≤ last_pop lo cp i).

(** The queue with the newest counters. *)
Definition newest lo hi q : queue T :=
  Queue (u64 (Z.of_nat hi)) (u64 (Z.of_nat lo)) (storage q) (prod_pc q) (cons_pc q).

(** The producer has seen enough pops for its pushes, and before it fills a slot
    the pop that emptied it; the consumer has seen the pushes it takes. *)
Definition filling (pc : producer_pc (T := T)) : Z :=
  match pc with P_construct _ _ | P_publish _ _ => 1 | _ => 0 end.
Definition taking (pc : consumer_pc (T := T)) : nat :=
  match pc with C_move _ | C_destroy _ _ | C_publish _ _ => 1 | _ => 0 end%nat.

Record weak_inv_at lo hi vs q : Prop := WeakInv {
  wi_newest : inv_at k (newest lo hi q) vs (Z.of_nat lo);
  wi_hi : hi = (lo + length vs)%nat;
  wi_ok := view_ok lo hi (producer_clock hi (prod_pc q)) (consumer_clock lo (cons_pc q));
  wi_head : history_ok wi_ok HEAD hi (hist (mem q) HEAD);
  wi_tail : history_ok wi_ok TAIL lo (hist (mem q) TAIL);
  wi_prod : wi_ok (views (mem q) PRODUCER);
  wi_cons : wi_ok (views (mem q) CONSUMER);
  wi_prod_own : seen (views (mem q) PRODUCER) HEAD = hi ∧
    clk (views (mem q) PRODUCER) PRODUCER = producer_clock hi (prod_pc q);
  wi_cons_own : seen (views (mem q) CONSUMER) TAIL = lo ∧
    clk (views (mem q) CONSUMER) CONSUMER = consumer_clock lo (cons_pc q);
  wi_room : Z.of_nat hi + filling (prod_pc q) ≤ Z.of_nat (seen (views (mem q) PRODUCER) TAIL) + 2 ^ k;
  wi_filled : (lo + taking (cons_pc q) ≤ seen (views (mem q) CONSUMER) HEAD)%nat;
  wi_accesses : accesses_ok lo hi (accesses (mem q)) (prod_pc q) (cons_pc q)
}.
Definition weak_inv vs q : Prop := ∃ lo hi, weak_inv_at lo hi vs q.

(** ** Views *)

Lemma view_ok_mono lo hi p c lo' hi' p' c' v :
  view_ok lo hi p c v → (lo ≤ lo')%nat → (hi ≤ hi')%nat → (p ≤ p')%nat → (c ≤ c')%nat → view_ok lo' hi' p' c' v.
Proof. intros [] ????. split; lia. Qed.

Lemma view_ok_join lo hi p c v w : view_ok lo hi p c v → view_ok lo hi p c w → view_ok lo hi p c (join v w).
Proof. intros [] []. split; simpl; lia. Qed.

Lemma history_ok_mono (ok ok' : view → Prop) l n ms :
  (∀ v, ok v → ok' v) → history_ok ok l n ms → history_ok ok' l n ms.
Proof. intros Hok [Hlen Hall]. split; [done |]. intros i msg Hi. destruct (Hall i msg Hi) as (? & ? & ?). eauto. Qed.

(** What a thread knows after an acquire load, or a relaxed load of the newest
    message it knows. *)
Lemma load_known o m t l i x m' n lo hi p c :
  load o m t l i = Some (x, m') → history_ok (view_ok lo hi p c) l n (hist m l) →
  view_ok lo hi p c (views m t) → l = HEAD ∨ l = TAIL →
  o = Acquire ∨ seen (views m t) l = n →
  ∃ v, m' = set_view m t v ∧ x = u64 (Z.of_nat i) ∧ (seen (views m t) l ≤ i ≤ n)%nat ∧
    view_ok lo hi p c v ∧ seen v l = i ∧
    (∀ l', (seen (views m t) l' ≤ seen v l')%nat) ∧ (∀ t', (clk (views m t) t' ≤ clk v t')%nat).
Proof.
  intros (Hseen & msg & Hmsg & -> & ->)%load_inv [Hlen Hall] Hv Hl Hknown.
  destruct (Hall i msg Hmsg) as (Hval & Hok & Hpos). apply lookup_lt_Some in Hmsg.
  eexists. split; [done |]. split; [done |]. split; [lia |].
  assert (o = Acquire ∨ seen (views m t) l = i) as Hknown' by (destruct Hknown; [by left | right; lia]).
  assert (∀ l', (seen (views m t) l' ≤ upd (seen (views m t)) l i l')%nat) as Hup.
  { intros l'. unfold upd. destruct (Nat.eqb_spec l' l); subst; lia. }
  destruct Hknown' as [-> | Heq].
  - cbn zeta. split_and!.
    + destruct Hv as [V1 V2 V3 V4], Hok as [M1 M2 M3 M4].
      split; unfold join, upd, HEAD, TAIL in *; simpl; destruct Hl as [-> | ->]; simpl; lia.
    + simpl. rewrite upd_eq. lia.
    + intros l'. simpl. specialize (Hup l'). lia.
    + intros t'. simpl. lia.
  - assert (view_ok lo hi p c (View (upd (seen (views m t)) l i) (clk (views m t)))) as Hsame.
    { destruct Hv as [V1 V2 V3 V4].
      split; unfold upd, HEAD, TAIL in *; simpl; destruct Hl as [-> | ->]; simpl; lia. }
    destruct o; cbn zeta.
    2: { split_and!.
      - apply view_ok_join; done.
      - simpl. rewrite upd_eq. lia.
      - intros l'. simpl. specialize (Hup l'). lia.
      - intros t'. simpl. lia. }
    all: split_and!; [done | simpl; by rewrite upd_eq | done | simpl; lia].
Qed.

(** ** Steps that move one thread and what it has seen *)

Lemma producer_moves lo hi vs q v pc :
  weak_inv_at lo hi vs q →
  producer_clock hi (prod_pc q) = hi → producer_clock hi pc = hi →
  view_ok lo hi hi (consumer_clock lo (cons_pc q)) v →
  (∀ l, (seen (views (mem q) PRODUCER) l ≤ seen v l)%nat) →
  (∀ t, (clk (views (mem q) PRODUCER) t ≤ clk v t)%nat) →
  producer_ok k (newest lo hi (WeakQueue (mem q) (storage q) pc (cons_pc q))) vs →
  Z.of_nat hi + filling pc ≤ Z.of_nat (seen v TAIL) + 2 ^ k →
  weak_inv_at lo hi vs (WeakQueue (set_view (mem q) PRODUCER v) (storage q) pc (cons_pc q)).
Proof using Hk.
  intros [Hsc Hhi ok Hh Ht Hp Hc [Hp1 Hp2] Hco Hroom Hfill Hacc] Hpc Hpc' Hv Hseen Hclk Hok Hr.
  subst ok. rewrite Hpc in *. destruct Hv as [V1 V2 V3 V4] eqn:Hveq.
  assert (∀ i, last_push hi pc i = last_push hi (prod_pc q) i) as Hlast
    by (intros; unfold last_push; by rewrite Hpc, Hpc').
  split; cbn [mem storage prod_pc cons_pc set_view hist accesses views]; rewrite ?Hpc'; try done.
  - refine (contents_ext k _ _ _ _ _ _ _ _ _ _ Hsc); try done.
    + unfold contents; cbn. destruct (prod_pc q), pc; cbn in Hpc, Hpc'; (done || lia).
    + apply Hsc.
  - rewrite !upd_eq. specialize (Hseen HEAD). specialize (Hclk PRODUCER). lia.
  - intros i t c Hi Hin. rewrite Hlast. by apply Hacc.
Qed.

Lemma consumer_moves lo hi vs q v pc :
  weak_inv_at lo hi vs q →
  consumer_clock lo (cons_pc q) = (2 * lo)%nat → consumer_clock lo pc = (2 * lo)%nat →
  view_ok lo hi (producer_clock hi (prod_pc q)) (2 * lo) v →
  (∀ l, (seen (views (mem q) CONSUMER) l ≤ seen v l)%nat) →
  (∀ t, (clk (views (mem q) CONSUMER) t ≤ clk v t)%nat) →
  consumer_ok (newest lo hi (WeakQueue (mem q) (storage q) (prod_pc q) pc)) vs →
  (lo + taking pc ≤ seen v HEAD)%nat →
  weak_inv_at lo hi vs (WeakQueue (set_view (mem q) CONSUMER v) (storage q) (prod_pc q) pc).
Proof using Hk.
  intros [Hsc Hhi ok Hh Ht Hp Hc Hpo [Hc1 Hc2] Hroom Hfill Hacc] Hpc Hpc' Hv Hseen Hclk Hok Hr.
  subst ok. rewrite Hpc in *. destruct Hv as [V1 V2 V3 V4] eqn:Hveq.
  assert (∀ i, last_pop lo pc i = last_pop lo (cons_pc q) i) as Hlast.
  { intros i. unfold last_pop. destruct (i =? Z.of_nat lo); [| done].
    destruct (cons_pc q), pc; cbn in Hpc, Hpc'; (done || lia). }
  split; cbn [mem storage prod_pc cons_pc set_view hist accesses views]; rewrite ?Hpc'; try done.
  - refine (contents_ext k _ _ _ _ _ _ _ _ _ _ Hsc); try done.
    + unfold contents; cbn. destruct (cons_pc q), pc; cbn in Hpc, Hpc'; (done || lia).
    + apply Hsc.
  - rewrite !upd_eq. specialize (Hseen TAIL). specialize (Hclk CONSUMER). lia.
  - intros i t c Hi Hin. rewrite Hlast. by apply Hacc.
Qed.

(** ** Accesses to slots *)

Lemma view_access_producer lo hi p c (v : view) :
  view_ok lo hi p c v → clk v PRODUCER = p →
  view_ok lo hi (S p) c (View (seen v) (upd (clk v) PRODUCER (S (clk v PRODUCER)))).
Proof using. intros [V1 V2 V3 V4] Hp. split; unfold PRODUCER, CONSUMER in *; cbn; lia. Qed.

Lemma view_access_consumer lo hi p c (v : view) :
  view_ok lo hi p c v → clk v CONSUMER = c →
  view_ok lo hi p (S c) (View (seen v) (upd (clk v) CONSUMER (S (clk v CONSUMER)))).
Proof using. intros [V1 V2 V3 V4] Hc. split; unfold PRODUCER, CONSUMER in *; cbn; lia. Qed.

Lemma construct_ordered lo hi vs q x head :
  weak_inv_at lo hi vs q → prod_pc q = P_construct x head →
  head = u64 (Z.of_nat hi) ∧ (Z.of_nat lo ≤ Z.of_nat hi < Z.of_nat lo + 2 ^ k) ∧
  ∀ t c, (t, c) ∈ accesses (mem q) (slot k (Z.of_nat hi)) → t ≠ PRODUCER →
    (c ≤ clk (views (mem q) PRODUCER) t)%nat.
Proof using Hk.
  intros [Hsc Hhi ok Hh Ht [V1 V2 V3 V4] Hc Hpo Hco Hroom Hfill Hacc] Hpc. subst ok.
  rewrite Hpc in *. cbn [filling producer_clock] in *.
  pose proof (inv_prod _ _ _ _ Hsc) as Hp. unfold producer_ok in Hp. cbn in Hp. rewrite Hpc in Hp.
  destruct Hp as [-> Hlt]. split; [done |]. split; [lia |]. intros t c Hin Hne.
  destruct (Hacc (Z.of_nat hi) t c ltac:(lia) Hin) as [[-> _] | [-> Hle]]; [done |].
  assert (last_pop lo (cons_pc q) (Z.of_nat hi) ≤ 2 * (Z.of_nat hi + 1 - 2 ^ k)) as Hlast; [| lia].
  unfold last_pop. destruct (Z.eqb_spec (Z.of_nat hi) (Z.of_nat lo)) as [Heq |]; [| lia].
  assert (vs = []) as -> by (destruct vs; simpl in *; [done | lia]).
  pose proof (inv_cons _ _ _ _ Hsc) as Hcons. unfold consumer_ok in Hcons. cbn in Hcons.
  destruct (cons_pc q); cbn in Hcons; try lia; by destruct Hcons.
Qed.

Lemma inv_construct lo hi vs q x head :
  weak_inv_at lo hi vs q → prod_pc q = P_construct x head →
  ∃ q', weak_emplace_step k code_orders q 0 = Ret (q', None) ∧ weak_inv_at lo hi vs q'.
Proof using Hk.
  intros Hinv Hpc. destruct (construct_ordered _ _ _ _ _ _ Hinv Hpc) as (Hhead & Hwin & Hord).
  unfold weak_emplace_step. rewrite Hpc. assert (slot_ptr k head = slot k (Z.of_nat hi)) as Hslot
    by (unfold slot_ptr; by rewrite Hhead, mask_slot_u64). rewrite Hslot.
  rewrite access_ordered by done. unfold record. cbn [obind].
  destruct Hinv as [Hsc Hhi ok Hh Ht Hp Hc [Hp1 Hp2] Hco Hroom Hfill Hacc]. subst ok.
  destruct (construct_slot k Hk _ _ _ x head Hsc Hpc) as [Hraw Hsc'].
  cbn in Hraw. rewrite Hslot in Hraw, Hsc'. rewrite construct_at_raw by done. cbn [obind].
  eexists. split; [done |]. rewrite Hpc in *. cbn [producer_clock filling] in *.
  assert (∀ v, view_ok lo hi hi (consumer_clock lo (cons_pc q)) v →
    view_ok lo hi (S hi) (consumer_clock lo (cons_pc q)) v) as Hmono
    by (intros v Hv; eapply view_ok_mono; [done | lia..]).
  split; cbn [mem storage prod_pc cons_pc hist accesses views producer_clock filling]; try done.
  - by eapply history_ok_mono.
  - by eapply history_ok_mono.
  - rewrite upd_eq. by apply view_access_producer.
  - apply Hmono, Hc.
  - rewrite !upd_eq. cbn [seen clk]. rewrite upd_eq. lia.
  - intros i t c Hi Hin. destruct (decide (i = Z.of_nat hi)) as [-> | Hne].
    + rewrite upd_eq in Hin. apply elem_of_cons in Hin as [[= -> ->] | Hin].
      * left. split; [done |]. unfold last_push. cbn [producer_clock].
        rewrite (proj2 (Z.ltb_lt _ _)) by lia. lia.
      * destruct (Hacc _ _ _ Hi Hin) as [[-> Hle] | ?]; [left; split; [done |] | by right].
        unfold last_push in *. cbn [producer_clock] in *. rewrite ?Hpc in *. pose proof (pow_k_pos k Hk).
        cbn [producer_clock] in Hle. rewrite (proj2 (Z.ltb_ge _ _)) in Hle by lia.
        rewrite (proj2 (Z.ltb_lt _ _)) by lia. lia.
    + rewrite upd_ne in Hin by (intros Heq; apply Hne, (slot_inj k Hk); [lia | done]).
      destruct (Hacc _ _ _ Hi Hin) as [[-> Hle] | ?]; [left; split; [done |] | by right].
      unfold last_push in *. cbn [producer_clock] in *. rewrite ?Hpc in *. cbn [producer_clock] in Hle.
      destruct (Z.ltb_spec i (Z.of_nat hi)), (Z.ltb_spec i (Z.of_nat (S hi))); lia.
Qed.

(** The consumer's two accesses to the slot it takes. *)
Definition takes (pc : consumer_pc (T := T)) (tail : Z) : Prop :=
  match pc with C_move t | C_destroy t _ => t = tail | _ => False end.

Lemma take_ordered lo hi vs q tail :
  weak_inv_at lo hi vs q → takes (cons_pc q) tail →
  slot_ptr k tail = slot k (Z.of_nat lo) ∧ (lo < hi)%nat ∧
  ∀ t c, (t, c) ∈ accesses (mem q) (slot k (Z.of_nat lo)) → t ≠ CONSUMER →
    (c ≤ clk (views (mem q) CONSUMER) t)%nat.
Proof using Hk.
  intros [Hsc Hhi ok Hh Ht Hp [V1 V2 V3 V4] Hpo Hco Hroom Hfill Hacc] Hpc. subst ok.
  pose proof (inv_cons _ _ _ _ Hsc) as Hc. unfold consumer_ok in Hc. cbn in Hc.
  assert (tail = u64 (Z.of_nat lo) ∧ taking (cons_pc q) = 1%nat) as [-> Htake]
    by (clear -Hpc Hc; destruct (cons_pc q) as [| | | t | t x | t x]; cbn in Hpc; (contradiction ||
      (destruct Hc as [<- _]; split; [exact (eq_sym Hpc) | reflexivity]))).
  rewrite Htake in Hfill. split; [unfold slot_ptr; by rewrite mask_slot_u64 |]. split; [lia |].
  intros t c Hin Hne. pose proof (pow_k_pos k Hk).
  destruct (Hacc (Z.of_nat lo) t c ltac:(lia) Hin) as [[-> Hle] | [-> _]]; [| done].
  unfold last_push in Hle. case_match; lia.
Qed.

Lemma inv_access_slot lo hi vs q tail pc st :
  weak_inv_at lo hi vs q → takes (cons_pc q) tail →
  consumer_clock lo pc = S (consumer_clock lo (cons_pc q)) → taking pc = 1%nat →
  inv_at k (Queue (u64 (Z.of_nat hi)) (u64 (Z.of_nat lo)) st (prod_pc q) pc) vs (Z.of_nat lo) →
  ∃ m, access (mem q) CONSUMER (slot_ptr k tail) = Ret m ∧
    weak_inv_at lo hi vs (WeakQueue m st (prod_pc q) pc).
Proof using Hk.
  intros Hinv Hpc Hclock Htaking Hsc'.
  destruct (take_ordered _ _ _ _ _ Hinv Hpc) as (Hslot & Hlt & Hord). rewrite Hslot.
  rewrite access_ordered by done. unfold record. eexists. split; [done |].
  destruct Hinv as [Hsc Hhi ok Hh Ht Hp Hc Hpo [Hc1 Hc2] Hroom Hfill Hacc]. subst ok.
  assert (taking (cons_pc q) = 1%nat) as Htake by (by destruct (cons_pc q)).
  assert (∀ v, view_ok lo hi (producer_clock hi (prod_pc q)) (consumer_clock lo (cons_pc q)) v →
    view_ok lo hi (producer_clock hi (prod_pc q)) (S (consumer_clock lo (cons_pc q))) v) as Hmono
    by (intros v Hv; eapply view_ok_mono; [done | lia..]).
  split; cbn [mem storage prod_pc cons_pc hist accesses views]; rewrite ?Hclock; try done.
  - by eapply history_ok_mono.
  - by eapply history_ok_mono.
  - apply Hmono, Hp.
  - rewrite upd_eq. by apply view_access_consumer.
  - rewrite !upd_eq. cbn [seen clk]. rewrite upd_eq. lia.
  - rewrite upd_eq. cbn [seen]. lia.
  - assert (last_pop lo (cons_pc q) (Z.of_nat lo) ≤ last_pop lo pc (Z.of_nat lo)
      ∧ last_pop lo pc (Z.of_nat lo) = Z.of_nat (consumer_clock lo pc)) as [Hlast Hlast'].
    { unfold last_pop. rewrite Z.eqb_refl. pose proof (pow_k_pos k Hk).
      destruct (cons_pc q), pc; cbn in Hpc, Hclock, Htaking |- *; (done || lia). }
    intros i t c Hi Hin. destruct (decide (i = Z.of_nat lo)) as [-> | Hne].
    + rewrite upd_eq in Hin. apply elem_of_cons in Hin as [[= -> ->] | Hin].
      * right. split; [done |]. rewrite Hlast', Hclock. lia.
      * destruct (Hacc _ _ _ Hi Hin) as [? | [-> Hle]]; [by left | right; split; [done | lia]].
    + rewrite upd_ne in Hin by (intros Heq; apply Hne, (slot_inj k Hk); [lia | done]).
      destruct (Hacc _ _ _ Hi Hin) as [? | [-> Hle]]; [by left | right; split; [done |]].
      unfold last_pop in *. by rewrite (proj2 (Z.eqb_neq _ _)) in * by done.
Qed.

(** ** Publishing a counter *)

Lemma history_store (ok ok' : view → Prop) l n ms x (v : view) :
  history_ok ok l n ms → (∀ v, ok v → ok' v) → ok' v → seen v l = S n → x = u64 (Z.of_nat (S n)) →
  history_ok ok' l (S n) (ms ++ [Message x v]).
Proof using.
  intros [Hlen Hall] Hmono Hv Hseen Hx. split; [rewrite length_app; simpl; lia |].
  intros i msg [Hi | [-> ->]]%lookup_snoc_Some_inv.
  - destruct (Hall i msg Hi) as (? & ? & ?). eauto.
  - rewrite Hlen. cbn. eauto.
Qed.

Lemma inv_publish_head lo hi vs q x head :
  weak_inv_at lo hi vs q → prod_pc q = P_publish x head →
  zlen vs < 2 ^ k ∧
  weak_inv_at lo (S hi) (vs ++ [x])
    (WeakQueue (store Release (mem q) PRODUCER HEAD (head +u64 1)) (storage q) P_idle (cons_pc q)).
Proof using Hk.
  intros [Hsc Hhi ok Hh Ht Hp Hc [Hp1 Hp2] Hco Hroom Hfill Hacc] Hpc. subst ok.
  pose proof (inv_prod _ _ _ _ Hsc) as Hprod. unfold producer_ok in Hprod. cbn in Hprod.
  rewrite Hpc in Hprod. destruct Hprod as [Hhead _].
  destruct (publish_head k Hk _ _ _ x head Hsc Hpc) as [Hsc' Hlt]. split; [done |].
  assert (u64 (head + 1) = u64 (Z.of_nat (S hi))) as Hnew by (rewrite Hhead, u64_add_l; f_equal; lia).
  rewrite Hpc in *. cbn [producer_clock filling] in *.
  assert (∀ v, view_ok lo hi (S hi) (consumer_clock lo (cons_pc q)) v →
    view_ok lo (S hi) (S hi) (consumer_clock lo (cons_pc q)) v) as Hmono
    by (intros v Hv; eapply view_ok_mono; [done | lia..]).
  assert (length (hist (mem q) HEAD) = S hi) as Hlen by apply Hh.
  assert (view_ok lo (S hi) (S hi) (consumer_clock lo (cons_pc q))
    (View (upd (seen (views (mem q) PRODUCER)) HEAD (S hi)) (clk (views (mem q) PRODUCER)))) as Hv.
  { destruct Hp as [V1 V2 V3 V4]. split; cbn; lia. }
  rewrite Hnew in *.
  split; cbn [mem storage prod_pc cons_pc hist accesses views store producer_clock filling]; rewrite ?Hlen, ?upd_eq; try done.
  - rewrite length_app. simpl. lia.
  - by eapply history_store.
  - rewrite upd_ne by done. by eapply history_ok_mono.
  - apply Hmono, Hc.
  - cbn. lia.
Qed.

Lemma inv_publish_tail lo hi vs q tail out :
  weak_inv_at lo hi vs q → cons_pc q = C_publish tail out →
  ∃ vs', vs = out :: vs' ∧
  weak_inv_at (S lo) hi vs'
    (WeakQueue (store Release (mem q) CONSUMER TAIL (tail +u64 1)) (storage q) (prod_pc q) C_idle).
Proof using Hk.
  intros [Hsc Hhi ok Hh Ht Hp Hc Hpo [Hc1 Hc2] Hroom Hfill Hacc] Hpc. subst ok.
  pose proof (inv_cons _ _ _ _ Hsc) as Hcons. unfold consumer_ok in Hcons. cbn in Hcons.
  rewrite Hpc in Hcons. destruct Hcons as [Htl _].
  destruct (publish_tail k Hk _ _ _ tail out Hsc Hpc) as (vs' & -> & Hsc'). exists vs'. split; [done |].
  assert (u64 (tail + 1) = u64 (Z.of_nat (S lo))) as Hnew by (rewrite Htl, u64_add_l; f_equal; lia).
  rewrite Hpc in *. cbn [consumer_clock taking] in *.
  assert (∀ v, view_ok lo hi (producer_clock hi (prod_pc q)) (S (S (2 * lo))) v →
    view_ok (S lo) hi (producer_clock hi (prod_pc q)) (2 * S lo) v) as Hmono
    by (intros v Hv; eapply view_ok_mono; [done | lia..]).
  assert (length (hist (mem q) TAIL) = S lo) as Hlen by apply Ht.
  assert (view_ok (S lo) hi (producer_clock hi (prod_pc q)) (2 * S lo)
    (View (upd (seen (views (mem q) CONSUMER)) TAIL (S lo)) (clk (views (mem q) CONSUMER)))) as Hv.
  { destruct Hc as [V1 V2 V3 V4]. split; cbn; lia. }
  replace (Z.of_nat lo + 1) with (Z.of_nat (S lo)) in Hsc' by lia. rewrite Hnew in *.
  split; cbn [mem storage prod_pc cons_pc hist accesses views store consumer_clock taking]; rewrite ?Hlen, ?upd_eq; try done.
  - cbn [length] in Hhi. lia.
  - rewrite upd_ne by done. by eapply history_ok_mono.
  - by eapply history_store.
  - apply Hmono, Hp.
  - cbn. lia.
  - cbn. cbn in Hfill. lia.
  - intros i t c Hi Hin. pose proof (pow_k_pos k Hk). destruct Hp as [V1 V2 V3 V4].
    assert (last_pop (S lo) (C_idle (T := T)) i = 2 * (i + 1 - 2 ^ k)) as Hpop
      by (unfold last_pop; by case_match).
    destruct (decide (i = Z.of_nat lo + 2 ^ k)) as [-> | Hne].
    + rewrite slot_plus_cap in Hin by done. rewrite Hpop.
      destruct (Hacc (Z.of_nat lo) t c ltac:(lia) Hin) as [[-> Hle] | [-> Hle]]; [left | right]; (split; [done |]).
      * unfold last_push in *. cbn [length] in Hhi.
        assert (Z.of_nat (producer_clock hi (prod_pc q)) ≤ Z.of_nat lo + 2 ^ k) as Hclock
          by (destruct (prod_pc q); cbn in Hroom |- *; lia).
        rewrite (proj2 (Z.ltb_ge _ _)) by lia. case_match; lia.
      * unfold last_pop in Hle. rewrite Z.eqb_refl in Hle. cbn [consumer_clock] in Hle. lia.
    + rewrite Hpop. destruct (Hacc i t c ltac:(lia) Hin) as [[-> Hle] | [-> Hle]]; [left | right]; (split; [done |]).
      * done.
      * unfold last_pop in Hle. by rewrite (proj2 (Z.eqb_neq _ _)) in Hle by lia.
Qed.

(** ** Whole steps *)

(** The answers of the queue: true answers are those of a bounded FIFO queue; a
    false answer may come of an old counter. *)
Inductive weak_fifo_step : list T → event T → list T → Prop :=
| weak_push vs x : zlen vs < 2 ^ k → weak_fifo_step vs (Ev_push x) (vs ++ [x])
| weak_push_full vs x : weak_fifo_step vs (Ev_push_full x) vs
| weak_pop vs x : weak_fifo_step (x :: vs) (Ev_pop x) vs
| weak_pop_empty vs : weak_fifo_step vs Ev_pop_empty vs.

(** The step loads the newest counter of the other thread, if it loads one. *)
Definition reads_newest q (a : weak_action T) : Prop :=
  match a with
  | WeakProducer i =>
      match prod_pc q with P_load_tail _ _ => S i = length (hist (mem q) TAIL) | _ => True end
  | WeakConsumer i =>
      match cons_pc q with C_load_head _ => S i = length (hist (mem q) HEAD) | _ => True end
  | _ => True
  end.

Definition sound vs q (a : weak_action T) (r : outcome (weak_queue T * option (event T))) : Prop :=
  ∃ q' e, r = Ret (q', e) ∧
    match e with
    | None => weak_inv vs q'
    | Some e => ∃ vs', weak_fifo_step vs e vs' ∧ (reads_newest q a → fifo_step k vs e vs') ∧ weak_inv vs' q'
    end.

Lemma sound_quiet lo hi vs q a q' : weak_inv_at lo hi vs q' → sound vs q a (Ret (q', None)).
Proof using. intros Hinv. exists q', None. split; [done |]. by exists lo, hi. Qed.

Lemma weak_emplace_sound lo hi vs q i :
  weak_inv_at lo hi vs q → sound vs q (WeakProducer i) (weak_emplace_step k code_orders q i).
Proof using Hk.
  intros Hinv. unfold weak_emplace_step. destruct (prod_pc q) as [| x | x h | x h | x h] eqn:Hpc.
  - by eapply sound_quiet.
  - destruct (load _ _ _ _ _) as [[h m] |] eqn:Hload; [| by eapply sound_quiet].
    pose proof Hinv as [Hsc Hhi ok Hh Ht Hp Hc Hpo Hco Hroom Hfill Hacc]. subst ok.
    rewrite Hpc in *. cbn [producer_clock filling] in *.
    destruct (load_known _ _ _ _ _ _ _ _ _ _ _ _ Hload Hh Hp (or_introl eq_refl) (or_intror (proj1 Hpo)))
      as (v & -> & -> & Hi & Hv & Hseen & Hup & Hclk).
    eapply sound_quiet, (producer_moves lo hi); rewrite ?Hpc; try done.
    + unfold producer_ok. cbn. f_equal. lia.
    + cbn [filling]. specialize (Hup TAIL). lia.
  - destruct (load _ _ _ _ _) as [[tail m] |] eqn:Hload; [| by eapply sound_quiet].
    pose proof Hinv as [Hsc Hhi ok Hh Ht Hp Hc Hpo Hco Hroom Hfill Hacc]. subst ok.
    pose proof (inv_prod _ _ _ _ Hsc) as Hprod. unfold producer_ok in Hprod. cbn in Hprod.
    rewrite Hpc in *. cbn [producer_clock filling] in *. subst h.
    destruct (load_known _ _ _ _ _ _ _ _ _ _ _ _ Hload Ht Hp (or_intror eq_refl) (or_introl eq_refl))
      as (v & -> & -> & Hi & Hv & Hseen & Hup & Hclk).
    rewrite (distance_u64 k Hk) by lia. unfold kCapacity.
    destruct (Z.eqb_spec (Z.of_nat hi - Z.of_nat i) (2 ^ k)) as [Hfull | Hnot].
    + do 2 eexists. split; [done |]. exists vs. split; [constructor |]. split.
      * unfold reads_newest. rewrite Hpc. intros Hnew. constructor. unfold kCapacity.
        destruct Ht as [Hlen _]. lia.
      * exists lo, hi. apply producer_moves; rewrite ?Hpc; try done. cbn [filling]. lia.
    + eapply sound_quiet, (producer_moves lo hi); rewrite ?Hpc; try done.
      * unfold producer_ok. cbn. split; [done | lia].
      * cbn [filling]. lia.
  - destruct (inv_construct lo hi vs q x h Hinv Hpc) as (q' & Heq & Hinv').
    unfold weak_emplace_step in Heq. rewrite Hpc in Heq. rewrite Heq. by eapply sound_quiet.
  - destruct (inv_publish_head lo hi vs q x h Hinv Hpc) as [Hlt Hinv'].
    do 2 eexists. split; [done |]. exists (vs ++ [x]). split; [by constructor |].
    split; [intros _; by constructor | by exists lo, (S hi)].
Qed.

Lemma weak_pop_sound lo hi vs q i :
  weak_inv_at lo hi vs q → sound vs q (WeakConsumer i) (weak_pop_step k code_orders q i).
Proof using Hk.
  intros Hinv. unfold weak_pop_step. destruct (cons_pc q) as [| | t | t | t x | t x] eqn:Hpc.
  - by eapply sound_quiet.
  - destruct (load _ _ _ _ _) as [[t m] |] eqn:Hload; [| by eapply sound_quiet].
    pose proof Hinv as [Hsc Hhi ok Hh Ht Hp Hc Hpo Hco Hroom Hfill Hacc]. subst ok.
    rewrite Hpc in *. cbn [consumer_clock taking] in *.
    destruct (load_known _ _ _ _ _ _ _ _ _ _ _ _ Hload Ht Hc (or_intror eq_refl) (or_intror (proj1 Hco)))
      as (v & -> & -> & Hi & Hv & Hseen & Hup & Hclk).
    eapply sound_quiet, (consumer_moves lo hi); rewrite ?Hpc; try done.
    + unfold consumer_ok. cbn. f_equal. lia.
    + cbn [taking]. specialize (Hup HEAD). lia.
  - destruct (load _ _ _ _ _) as [[head m] |] eqn:Hload; [| by eapply sound_quiet].
    pose proof Hinv as [Hsc Hhi ok Hh Ht Hp Hc Hpo Hco Hroom Hfill Hacc]. subst ok.
    pose proof (inv_cons _ _ _ _ Hsc) as Hcons. unfold consumer_ok in Hcons. cbn in Hcons.
    pose proof (inv_len _ _ _ _ Hsc) as Hle. pose proof (pow_k_lt k Hk).
    rewrite Hpc in *. cbn [consumer_clock taking] in *. subst t.
    destruct (load_known _ _ _ _ _ _ _ _ _ _ _ _ Hload Hh Hc (or_introl eq_refl) (or_introl eq_refl))
      as (v & -> & -> & Hi & Hv & Hseen & Hup & Hclk).
    destruct (Z.eqb_spec (u64 (Z.of_nat i)) (u64 (Z.of_nat lo))) as [Heq | Hne].
    + apply u64_eq_window in Heq; [| lia].
      do 2 eexists. split; [done |]. exists vs. split; [constructor |]. split.
      * unfold reads_newest. rewrite Hpc. intros Hnew. destruct Hh as [Hlen _].
        assert (vs = []) as -> by (destruct vs; simpl in *; [done | lia]). constructor.
      * exists lo, hi. apply consumer_moves; rewrite ?Hpc; try done. cbn [taking]. lia.
    + eapply sound_quiet, (consumer_moves lo hi); rewrite ?Hpc; try done.
      * unfold consumer_ok. cbn. split; [done |]. intros ->. apply Hne. do 2 f_equal. simpl in Hhi. lia.
      * cbn [taking]. assert (i ≠ lo) by congruence. lia.
  - pose proof (wi_newest _ _ _ _ Hinv) as Hsc.
    destruct (move_slot k Hk _ _ _ t Hsc Hpc) as (x & Hlive & Hsc').
    destruct (inv_access_slot lo hi vs q t (C_destroy t x) _ Hinv ltac:(by rewrite Hpc) ltac:(by rewrite Hpc) eq_refl Hsc')
      as (m & -> & Hinv').
    cbn in Hlive. rewrite (move_from_live _ _ _ Hlive). by eapply sound_quiet.
  - pose proof (wi_newest _ _ _ _ Hinv) as Hsc.
    destruct (destroy_slot k Hk _ _ _ t x Hsc Hpc) as [Hmoved Hsc'].
    destruct (inv_access_slot lo hi vs q t (C_publish t x) _ Hinv ltac:(by rewrite Hpc) ltac:(by rewrite Hpc) eq_refl Hsc')
      as (m & -> & Hinv').
    cbn in Hmoved. rewrite (destroy_at_moved _ _ Hmoved). by eapply sound_quiet.
  - destruct (inv_publish_tail lo hi vs q t x Hinv Hpc) as (vs' & -> & Hinv').
    do 2 eexists. split; [done |]. exists vs'. split; [constructor |].
    split; [intros _; constructor | by exists (S lo), hi].
Qed.

Lemma weak_exec_sound vs q a : weak_inv vs q → sound vs q a (weak_exec_code q a).
Proof using Hk.
  intros (lo & hi & Hinv). destruct a as [x | i | | i]; simpl.
  - destruct (prod_pc q) eqn:Hpc; try (by eapply sound_quiet). eapply sound_quiet.
    destruct Hinv as [Hsc Hhi ok Hh Ht Hp Hc Hpo Hco Hroom Hfill Hacc]. subst ok.
    rewrite Hpc in *. split; try done.
    refine (contents_ext k _ _ _ _ _ _ _ _ _ _ Hsc); try done; [| apply Hsc].
    unfold contents; cbn. by rewrite Hpc.
  - by eapply weak_emplace_sound.
  - destruct (cons_pc q) eqn:Hpc; try (by eapply sound_quiet). eapply sound_quiet.
    destruct Hinv as [Hsc Hhi ok Hh Ht Hp Hc Hpo Hco Hroom Hfill Hacc]. subst ok.
    rewrite Hpc in *. split; try done.
    refine (contents_ext k _ _ _ _ _ _ _ _ _ _ Hsc); try done; [| apply Hsc].
    unfold contents; cbn. by rewrite Hpc.
  - by eapply weak_pop_sound.
Qed.

Lemma weak_inv_init : weak_inv [] (weak_init k).
Proof using Hk.
  destruct (represents_init k Hk (T := T)) as [l Hrep]. exists 0%nat, 0%nat.
  assert (view_ok 0 0 0 0 bottom) as Hbot by (split; simpl; lia).
  assert (∀ l, history_ok (view_ok 0 0 0 0) l 0 [Message 0 bottom]) as Hhist.
  { intros l'. split; [done |]. intros i msg [-> <-]%list_lookup_singleton_Some. by split_and!. }
  pose proof (pow_k_pos k Hk).
  split; try done; simpl.
  - split; simpl; try done; [lia | apply length_replicate |].
    eapply holds_ext; [| apply holds_replicate, Hk]. done.
  - lia.
  - intros i t c _ Hin. simpl in Hin. by apply elem_of_nil in Hin.
Qed.

(** Values pushed are values popped, in order, and those still queued. *)
Lemma weak_run_sound acts vs q :
  weak_inv vs q → ∃ q' es vs', run_schedule weak_exec_code q acts = Ret (q', es) ∧
    weak_inv vs' q' ∧ vs ++ pushed es = popped es ++ vs'.
Proof using Hk.
  revert vs q. induction acts as [| a acts IH]; intros vs q Hinv; cbn [run_schedule].
  { exists q, [], vs. split_and!; [done | done |]. by rewrite app_nil_r. }
  destruct (weak_exec_sound vs q a Hinv) as (q1 & e & -> & He). cbn [obind].
  destruct e as [e |].
  - destruct He as (vs1 & Hstep & _ & Hinv1).
    destruct (IH vs1 q1 Hinv1) as (q' & es & vs' & -> & Hinv' & Heq). cbn [obind].
    do 3 eexists. split; [done |]. split; [done |].
    destruct Hstep; cbn [pushed popped omap list_omap] in *; try done.
    + by rewrite <-(assoc_L (++)) in Heq.
    + exact (f_equal (cons x) Heq).
  - destruct (IH vs q1 He) as (q' & es & vs' & -> & Hinv' & Heq). cbn [obind]. eauto 6.
Qed.

Lemma newest_readable vs q o :
  weak_inv vs q →
  is_Some (load o (mem q) PRODUCER TAIL (length (hist (mem q) TAIL) - 1)) ∧
  is_Some (load o (mem q) CONSUMER HEAD (length (hist (mem q) HEAD) - 1)).
Proof.
  intros (lo & hi & [Hsc Hhi ok [Hh _] [Ht _] [] [] Hpo Hco Hroom Hfill Hacc]).
  split; apply load_newest; try (intros Hnil; by rewrite Hnil in *); lia.
Qed.
End Invariant.

(** * Properties *)

(** C6: the release and acquire orders of the code are enough.  Whatever the
    interleaving and whichever old counters the loads answer, no step is
    undefined: no two accesses to a slot race, and none finds it in the wrong
    state; the values pushed are the values popped, in order and each once,
    followed by at most [2 ^ k] still queued.  A load can always read the newest
    counter, and a call whose load does answers exactly as a bounded FIFO queue. *)
Theorem spsc_orders_suffice {T} k (acts : list (weak_action T)) :
  0 ≤ k < 64 →
  ∃ q es vs, run_schedule (weak_exec k code_orders) (weak_init k) acts = Ret (q, es) ∧
    pushed es = popped es ++ vs ∧ zlen vs ≤ 2 ^ k ∧
    (∀ o, is_Some (load o (mem q) PRODUCER TAIL (length (hist (mem q) TAIL) - 1)) ∧
          is_Some (load o (mem q) CONSUMER HEAD (length (hist (mem q) HEAD) - 1))) ∧
    ∀ a q' e, reads_newest q a → weak_exec k code_orders q a = Ret (q', Some e) → ∃ vs', fifo_step k vs e vs'.
Proof.
  intros Hk. destruct (weak_run_sound k Hk acts [] _ (weak_inv_init k Hk)) as (q & es & vs & Hrun & Hinv & Heq).
  exists q, es, vs. split_and!; [done | done | | |].
  - destruct Hinv as (lo & hi & Hinv). apply (inv_len _ _ _ _ (wi_newest _ _ _ _ _ Hinv)).
  - intros o. by eapply newest_readable.
  - intros a q' e Hnew Ha. destruct (weak_exec_sound k Hk vs q a Hinv) as (q1 & e1 & Heq1 & He).
    rewrite Ha in Heq1. injection Heq1 as <- <-. destruct He as (vs' & _ & Hfifo & _). eauto.
Qed.

(** A push, a pop and a second push into the same slot. *)
Definition reuse : list (weak_action nat) :=
  [WeakPush 5; WeakProducer 0; WeakProducer 0; WeakProducer 0; WeakProducer 0;
   WeakPop; WeakConsumer 0; WeakConsumer 1; WeakConsumer 0; WeakConsumer 0; WeakConsumer 0;
   WeakPush 6; WeakProducer 1; WeakProducer 1; WeakProducer 0; WeakProducer 0]%nat.

(** None of the four orders can be relaxed: with any one of them relaxed, two
    accesses to a slot can race. *)
Theorem spsc_orders_needed :
  Forall (λ o, run_schedule (weak_exec 0 o) (weak_init 0) reuse = Undef)
    [Orders Relaxed Release Acquire Release; Orders Acquire Relaxed Acquire Release;
     Orders Acquire Release Relaxed Release; Orders Acquire Release Acquire Relaxed].
Proof. repeat constructor; vm_compute; reflexivity. Qed.

Example reuse_defined :
  (snd <$> match run_schedule (weak_exec 0 code_orders) (weak_init 0) reuse with Ret r => Some r | _ => None end)
  = Some [Ev_push 5; Ev_pop 5; Ev_push 6]%nat.
Proof. vm_compute. reflexivity. Qed.

(** A pop that reads the old head answers empty although a value is there. *)
Definition stale : list (weak_action nat) :=
  [WeakPush 5; WeakProducer 0; WeakProducer 0; WeakProducer 0; WeakProducer 0;
   WeakPop; WeakConsumer 0; WeakConsumer 0]%nat.
Example stale_pop :
  (snd <$> match run_schedule (weak_exec 0 code_orders) (weak_init 0) stale with Ret r => Some r | _ => None end)
  = Some [Ev_push 5; Ev_pop_empty]%nat.
Proof. vm_compute. reflexivity. Qed.

Lemma spsc_orders_suffice_witness :
  0 ≤ 0 < 64 ∧ ∃ q es vs, run_schedule (weak_exec 0 code_orders) (weak_init 0) reuse = Ret (q, es) ∧
    pushed es = popped es ++ vs.
Proof.
  split; [lia |]. destruct (spsc_orders_suffice 0 reuse) as (q & es & vs & H1 & H2 & _); [lia |].
  exists q, es, vs. split; [exact H1 | exact H2].
Defined.
