(* ===== verification/MPSCQueue.v ===== *)
(** * MPSCQueue: the multi-producer, single-consumer queue

    Models [src/include/fiah/structs/MPSCQueue.hh].  Any number of producers
    run [try_push] and one consumer runs [try_pop]; a producer claims a ticket by
    a compare-exchange on [m_tail], fills the slot of its ticket and sets the
    slot's [ready] flag; the consumer takes the slots in ticket order.  Every
    atomic access and every access to an element is one step, under sequential
    consistency; [compare_exchange_weak] may fail spuriously (the scheduler
    decides). *)

From stdpp Require Import base tactics numbers list option gmap.
From Stdlib Require Import ZArith Lia.
From S2P Require Import Prelude Storage Ring.
#[local] Open Scope Z_scope.
#[local] Open Scope fiah_scope.

Section MPSCQueue.
Context {T : Type}.
(** [SIZE = 2 ^ k] *)
Context (k : Z).

Definition SIZE : Z := 2 ^ k.
Definition index (idx : Z) : nat := mask_slot k idx.   (* m_array[idx & MASK] *)

Record Slot : Type := MkSlot { data : cell T; ready : bool }.

(** A producer inside [try_push(in)], with its locals; a thread with no entry
    in the table of producers is outside the queue. *)
Inductive producer_pc : Type :=
| P_load_tail (x : T)
| P_load_head (x : T) (tail backoff_counter : Z)
| P_cas (x : T) (tail backoff_counter : Z)
| P_backoff (x : T) (tail backoff_counter : Z)
| P_construct (x : T) (tail : Z)
| P_set_ready (x : T) (tail : Z).

(** The consumer inside [try_pop(out)]. *)
Inductive consumer_pc : Type :=
| C_idle
| C_load_head
| C_load_ready (head : Z)
| C_move (head : Z)
| C_destroy (head : Z) (out : T)
| C_clear_ready (head : Z) (out : T)
| C_store_head (head : Z) (out : T).

Record queue : Type := Queue {
  m_head : Z;
  m_tail : Z;
  m_array : list Slot;
  producers : gmap nat producer_pc;
  consumer : consumer_pc
}.

Definition init : queue :=
  Queue 0 0 (replicate (Z.to_nat SIZE) (MkSlot Raw false)) ∅ C_idle.

Inductive event : Type :=
| Ev_claim (p : nat) (x : T)       (* the compare-exchange of [p] succeeded *)
| Ev_push (p : nat) (x : T)        (* try_push returned true *)
| Ev_push_full (p : nat) (x : T)   (* try_push returned false *)
| Ev_pop (x : T)                   (* try_pop returned true *)
| Ev_pop_empty.                    (* try_pop returned false *)

Definition set_pc (q : queue) (p : nat) (pc : producer_pc) : queue :=
  Queue (m_head q) (m_tail q) (m_array q) (<[p := pc]> (producers q)) (consumer q).
Definition leave (q : queue) (p : nat) : queue :=
  Queue (m_head q) (m_tail q) (m_array q) (delete p (producers q)) (consumer q).
Definition set_consumer (q : queue) (pc : consumer_pc) : queue :=
  Queue (m_head q) (m_tail q) (m_array q) (producers q) pc.

(** Update of one slot of the array. *)
Definition on_slot {R : Type} (q : queue) (idx : Z) (f : Slot → outcome (R * Slot))
  : outcome (R * list Slot) :=
  match m_array q !! index idx with
  | Some s => let! (r, s') := f s in Ret (r, <[index idx := s']> (m_array q))
  | None => Undef
  end.

(** One step of [try_push]; [spurious] makes a compare-exchange fail. *)
Definition try_push_step (q : queue) (p : nat) (spurious : bool)
  : outcome (queue * option event) :=
  match producers q !! p with
  | None => Ret (q, None)
  | Some (P_load_tail x) => Ret (set_pc q p (P_load_head x (m_tail q) 1), None)
  | Some (P_load_head x tail backoff) =>
      let head := m_head q in
      if SIZE <=? tail -u64 head
      then Ret (leave q p, Some (Ev_push_full p x))
      else Ret (set_pc q p (P_cas x tail backoff), None)
  | Some (P_cas x tail backoff) =>
      if (m_tail q =? tail) && negb spurious
      then Ret (Queue (m_head q) (tail +u64 1) (m_array q)
                  (<[p := P_construct x tail]> (producers q)) (consumer q),
                Some (Ev_claim p x))
      else Ret (set_pc q p (P_backoff x (m_tail q) backoff), None)
  | Some (P_backoff x tail backoff) =>
      Ret (set_pc q p (P_load_head x tail (Z.min (backoff <<u64 1) 64)), None)
  | Some (P_construct x tail) =>
      let! (_, arr) := on_slot q tail (λ s,
        let! c := construct_cell x (data s) in Ret (tt, MkSlot c (ready s))) in
      Ret (Queue (m_head q) (m_tail q) arr
             (<[p := P_set_ready x tail]> (producers q)) (consumer q), None)
  | Some (P_set_ready x tail) =>
      let! (_, arr) := on_slot q tail (λ s, Ret (tt, MkSlot (data s) true)) in
      Ret (Queue (m_head q) (m_tail q) arr (delete p (producers q)) (consumer q),
           Some (Ev_push p x))
  end.

(** One step of [try_pop]. *)
Definition try_pop_step (q : queue) : outcome (queue * option event) :=
  match consumer q with
  | C_idle => Ret (q, None)
  | C_load_head => Ret (set_consumer q (C_load_ready (m_head q)), None)
  | C_load_ready head =>
      let! (rdy, arr) := on_slot q head (λ s, Ret (ready s, s)) in
      if rdy
      then Ret (set_consumer q (C_move head), None)
      else Ret (set_consumer q C_idle, Some Ev_pop_empty)
  | C_move head =>
      let! (out, arr) := on_slot q head (λ s,
        let! (v, c) := move_cell (data s) in Ret (v, MkSlot c (ready s))) in
      Ret (Queue (m_head q) (m_tail q) arr (producers q) (C_destroy head out), None)
  | C_destroy head out =>
      let! (_, arr) := on_slot q head (λ s,
        let! c := destroy_cell (data s) in Ret (tt, MkSlot c (ready s))) in
      Ret (Queue (m_head q) (m_tail q) arr (producers q) (C_clear_ready head out), None)
  | C_clear_ready head out =>
      let! (_, arr) := on_slot q head (λ s, Ret (tt, MkSlot (data s) false)) in
      Ret (Queue (m_head q) (m_tail q) arr (producers q) (C_store_head head out), None)
  | C_store_head head out =>
      Ret (Queue (head +u64 1) (m_tail q) (m_array q) (producers q) C_idle,
           Some (Ev_pop out))
  end.

Inductive action : Type :=
| CallPush (p : nat) (x : T)
| RunProducer (p : nat) (spurious : bool)
| CallPop
| RunConsumer.

Definition exec (q : queue) (a : action) : outcome (queue * option event) :=
  match a with
  | CallPush p x =>
      match producers q !! p with
      | None => Ret (set_pc q p (P_load_tail x), None)
      | Some _ => Ret (q, None)
      end
  | RunProducer p spurious => try_push_step q p spurious
  | CallPop =>
      match consumer q with
      | C_idle => Ret (set_consumer q C_load_head, None)
      | _ => Ret (q, None)
      end
  | RunConsumer => try_pop_step q
  end.

(** The values in ticket order, and the values popped, along a trace. *)
Definition claimed (es : list event) : list T :=
  omap (λ e, match e with Ev_claim _ x => Some x | _ => None end) es.
Definition popped (es : list event) : list T :=
  omap (λ e, match e with Ev_pop x => Some x | _ => None end) es.

(** The claims and the completed pushes of one producer. *)
Definition claimed_by (p : nat) (es : list event) : list T :=
  omap (λ e, match e with
             | Ev_claim p' x => if decide (p' = p) then Some x else None
             | _ => None
             end) es.
Definition pushed_by (p : nat) (es : list event) : list T :=
  omap (λ e, match e with
             | Ev_push p' x => if decide (p' = p) then Some x else None
             | _ => None
             end) es.
End MPSCQueue.

Arguments Slot T : clear implicits.
Arguments queue T : clear implicits.
Arguments event T : clear implicits.
Arguments action T : clear implicits.
Arguments producer_pc T : clear implicits.
Arguments consumer_pc T : clear implicits.
Arguments RunProducer {T} _ _.
Arguments CallPop {T}.
Arguments RunConsumer {T}.
Arguments C_idle {T}.
Arguments C_load_head {T}.
Arguments C_load_ready {T} _.
Arguments C_move {T} _.
Arguments Ev_pop_empty {T}.

Arguments index : simpl never.
Arguments on_slot : simpl never.

Abbreviation step k := (machine_step (exec k)).
Abbreviation exec_all k := (run_schedule (exec k)).

(** * Proofs *)

(** The life of a claimed ticket. *)
Inductive status : Type :=
| Claimed      (* the slot is still raw *)
| Written      (* the element is constructed, [ready] not yet set *)
| Published.   (* [ready] is set: the slot belongs to the consumer *)

Section Invariant.
Context {T : Type} (k : Z) (Hk : 0 ≤ k < 64).
Implicit Types (q : queue T) (es : list (T * status)) (lo : Z).
Implicit Types (ps : gmap nat (producer_pc T)) (pc : producer_pc T).

(** [es] lists the tickets between head [lo] and tail, oldest first. *)
Definition hi es lo : Z := lo + zlen es.

Definition ticket pc : option (Z * (T * status)) :=
  match pc with
  | P_construct x t => Some (t, (x, Claimed))
  | P_set_ready x t => Some (t, (x, Written))
  | _ => None
  end.

Definition producer_ok es lo pc : Prop :=
  match pc with
  | P_load_tail _ => True
  | P_load_head _ t _ | P_backoff _ t _ => 0 ≤ t ≤ hi es lo
  | P_cas _ t _ => 0 ≤ t ≤ hi es lo ∧ (t = hi es lo → zlen es < 2 ^ k)
  | P_construct x t => lo ≤ t ∧ es !! Z.to_nat (t - lo) = Some (x, Claimed)
  | P_set_ready x t => lo ≤ t ∧ es !! Z.to_nat (t - lo) = Some (x, Written)
  end.

Record producers_ok ps es lo : Prop := ProducersOk {
  po_each : ∀ p pc, ps !! p = Some pc → producer_ok es lo pc;
  po_unique : ∀ p p' pc pc' t xs xs', ps !! p = Some pc → ps !! p' = Some pc' →
    ticket pc = Some (t, xs) → ticket pc' = Some (t, xs') → p = p';
  po_owned : ∀ i x s, es !! i = Some (x, s) → s ≠ Published →
    ∃ p pc, ps !! p = Some pc ∧ ticket pc = Some (lo + Z.of_nat i, (x, s))
}.

(** The slot of counter [i]. *)
Definition slot_of (c : consumer_pc T) es lo (i : Z) : Slot T :=
  match es !! Z.to_nat (i - lo) with
  | None | Some (_, Claimed) => MkSlot Raw false
  | Some (x, Written) => MkSlot (Live x) false
  | Some (x, Published) =>
      if i =? lo then
        match c with
        | C_destroy _ _ => MkSlot Moved true
        | C_clear_ready _ _ => MkSlot Raw true
        | C_store_head _ _ => MkSlot Raw false
        | _ => MkSlot (Live x) true
        end
      else MkSlot (Live x) true
  end.

Definition consumer_ok (c : consumer_pc T) es lo : Prop :=
  match c with
  | C_idle | C_load_head => True
  | C_load_ready h => h = lo
  | C_move h => h = lo ∧ ∃ x, es !! 0%nat = Some (x, Published)
  | C_destroy h x | C_clear_ready h x | C_store_head h x =>
      h = lo ∧ es !! 0%nat = Some (x, Published)
  end.

Record inv q es lo : Prop := Inv {
  inv_lo : 0 ≤ lo;
  inv_bound : hi es lo < 2 ^ 64;
  inv_head : m_head q = lo;
  inv_tail : m_tail q = hi es lo;
  inv_len : zlen es ≤ 2 ^ k;
  inv_producers : producers_ok (producers q) es lo;
  inv_consumer : consumer_ok (consumer q) es lo;
  inv_slots : holds k (m_array q) lo (slot_of (consumer q) es lo)
}.

(** *** The table of producers *)

Lemma producers_insert ps es lo p pc :
  producers_ok ps es lo → producer_ok es lo pc → ticket pc = None →
  (∀ old, ps !! p = Some old → ticket old = None) →
  producers_ok (<[p := pc]> ps) es lo.
Proof using Hk.
  intros [He Hu Ho] Hpc Ht Hold. split.
  - intros p' pc' [[<- <-] | [? ?]]%lookup_insert_Some; eauto.
  - intros p1 p2 pc1 pc2 t xs xs' [[? ?] | [? ?]]%lookup_insert_Some
      [[? ?] | [? ?]]%lookup_insert_Some ? ?; simplify_eq; eauto.
  - intros i x s Hi Hs. destruct (Ho i x s Hi Hs) as (p' & pc' & Hp' & Ht').
    exists p', pc'. split; [| done]. rewrite lookup_insert_ne; [done |].
    intros ->. by rewrite (Hold _ Hp') in Ht'.
Qed.

Lemma producers_delete ps es lo p pc :
  producers_ok ps es lo → ps !! p = Some pc → ticket pc = None →
  producers_ok (delete p ps) es lo.
Proof using Hk.
  intros [He Hu Ho] Hp Ht. split.
  - intros p' pc' [? ?]%lookup_delete_Some. eauto.
  - intros p1 p2 pc1 pc2 t xs xs' [? ?]%lookup_delete_Some [? ?]%lookup_delete_Some. eauto.
  - intros i x s Hi Hs. destruct (Ho i x s Hi Hs) as (p' & pc' & Hp' & Ht').
    exists p', pc'. split; [| done]. rewrite lookup_delete_ne; [done | congruence].
Qed.

Lemma ticket_range es lo pc t xs :
  producer_ok es lo pc → ticket pc = Some (t, xs) →
  lo ≤ t < hi es lo ∧ es !! Z.to_nat (t - lo) = Some xs.
Proof using Hk.
  unfold hi. destruct pc; simpl; intros Hpc Ht; simplify_eq.
  all: destruct Hpc as [? Hl]; split; [| done]; apply lookup_lt_Some in Hl; lia.
Qed.

(** A successful compare-exchange appends a claimed ticket. *)
Lemma producers_claim ps es lo p x t b :
  producers_ok ps es lo → 0 ≤ lo → ps !! p = Some (P_cas x t b) →
  producers_ok (<[p := P_construct x (hi es lo)]> ps) (es ++ [(x, Claimed)]) lo.
Proof using Hk.
  intros [He Hu Ho] Hlo Hp. split.
  - intros p' pc' [[<- <-] | [Hne Hp']]%lookup_insert_Some.
    + simpl. unfold hi. split; [lia |]. rewrite lookup_app_r by lia.
      by replace (Z.to_nat (lo + zlen es - lo) - length es)%nat with 0%nat by lia.
    + specialize (He _ _ Hp'). destruct pc'; simpl in *; unfold hi in *; rewrite ?length_app; simpl.
      all: try (split; [by destruct He | apply lookup_app_l_Some, He]).
      all: lia.
  - intros p1 p2 pc1 pc2 t' xs xs' [[<- <-] | [? Hp1]]%lookup_insert_Some
      [[<- <-] | [? Hp2]]%lookup_insert_Some Ht1 Ht2; simplify_eq/=; eauto.
    + destruct (ticket_range _ _ _ _ _ (He _ _ Hp2) Ht2). lia.
    + destruct (ticket_range _ _ _ _ _ (He _ _ Hp1) Ht1). lia.
  - intros i y s [Hi | [-> [= -> ->]]]%lookup_snoc_Some_inv Hs.
    + destruct (Ho i y s Hi Hs) as (p' & pc' & Hp' & Ht').
      exists p', pc'. split; [| done]. rewrite lookup_insert_ne; [done | by intros ->; simplify_eq].
    + exists p, (P_construct x (hi es lo)). rewrite lookup_insert_eq. unfold hi. done.
Qed.

(** The owner of a ticket moves it on: to [Written], or to [Published] when it
    leaves. *)
Lemma producers_update ps ps' es lo p pc t xs xs' :
  producers_ok ps es lo → ps !! p = Some pc → ticket pc = Some (t, xs) →
  (∀ p', p' ≠ p → ps' !! p' = ps !! p') →
  match ps' !! p with
  | Some pc' => producer_ok (<[Z.to_nat (t - lo) := xs']> es) lo pc' ∧ ticket pc' = Some (t, xs')
  | None => xs'.2 = Published
  end →
  producers_ok ps' (<[Z.to_nat (t - lo) := xs']> es) lo.
Proof using Hk.
  intros [He Hu Ho] Hp Ht Hother Hself.
  destruct (ticket_range _ _ _ _ _ (He _ _ Hp) Ht) as [Hrange Hxs]. split.
  - intros p' pc' Hp'. destruct (decide (p' = p)) as [-> | Hne]; [by rewrite Hp' in Hself; apply Hself |].
    rewrite Hother in Hp' by done. pose proof (He _ _ Hp') as Hok.
    destruct pc' as [| | | |x' t' |x' t']; simpl in *; unfold hi in *; rewrite ?length_insert; try done.
    all: destruct Hok as [Hle Hl]; split; [done |].
    all: rewrite list_lookup_insert_ne; [done |]; intros Heq.
    all: assert (t' = t) as -> by lia; apply Hne.
    all: by eapply (Hu p' p _ _ t).
  - intros p1 p2 pc1 pc2 t' ys ys' Hp1 Hp2 Ht1 Ht2.
    destruct (decide (p1 = p)) as [-> | Hn1], (decide (p2 = p)) as [-> | Hn2]; [done | | |].
    + rewrite Hp1 in Hself. destruct Hself as [_ Hs]. rewrite Hother in Hp2 by done.
      rewrite Ht1 in Hs. injection Hs as -> ->. eauto using eq_sym.
    + rewrite Hp2 in Hself. destruct Hself as [_ Hs]. rewrite Hother in Hp1 by done.
      rewrite Ht2 in Hs. injection Hs as -> ->. eauto.
    + rewrite Hother in Hp1 by done. rewrite Hother in Hp2 by done. eauto.
  - intros i y s Hi Hs. destruct (decide (i = Z.to_nat (t - lo))) as [-> | Hne].
    + rewrite list_lookup_insert_eq in Hi by (by eapply lookup_lt_Some). injection Hi as ->.
      destruct (ps' !! p) as [pc' |] eqn:Hp'; [| done].
      exists p, pc'. split; [done |]. rewrite (proj2 Hself). repeat f_equal. lia.
    + rewrite list_lookup_insert_ne in Hi by done.
      destruct (Ho i y s Hi Hs) as (p' & pc' & Hp' & Ht'). exists p', pc'. split; [| done].
      rewrite Hother; [done |]. intros ->. simplify_eq. lia.
Qed.

(** Popping the oldest, published ticket. *)
Lemma producers_pop ps es lo x :
  producers_ok ps ((x, Published) :: es) lo → producers_ok ps es (lo + 1).
Proof using Hk.
  intros [He Hu Ho].
  assert (hi ((x, Published) :: es) lo = hi es (lo + 1)) as Hhi by (unfold hi; simpl; lia).
  split; [| exact Hu |].
  - intros p pc Hp. specialize (He p pc Hp). destruct pc; simpl in *; rewrite <-?Hhi; try done.
    + split; [tauto |]. intros. destruct He as [_ He]. specialize (He ltac:(done)). lia.
    + destruct He as [Hle Hl]. destruct (Z.to_nat (tail - lo)) as [| n] eqn:Hn; [done |].
      split; [lia |]. by replace (Z.to_nat (tail - (lo + 1))) with n by lia.
    + destruct He as [Hle Hl]. destruct (Z.to_nat (tail - lo)) as [| n] eqn:Hn; [done |].
      split; [lia |]. by replace (Z.to_nat (tail - (lo + 1))) with n by lia.
  - intros i y s Hi Hs. destruct (Ho (S i) y s Hi Hs) as (p & pc & Hp & Ht).
    exists p, pc. split; [done |]. rewrite Ht.
    by replace (lo + Z.of_nat (S i)) with (lo + 1 + Z.of_nat i) by lia.
Qed.

(** *** Slots *)

Lemma on_slot_lookup {R : Type} q idx s (f : Slot T → outcome (R * Slot T)) r s' :
  m_array q !! index k idx = Some s → f s = Ret (r, s') →
  on_slot k q idx f = Ret (r, <[index k idx := s']> (m_array q)).
Proof using Hk. unfold on_slot. intros -> Hf. by rewrite Hf. Qed.

Lemma slots_lookup q es lo i :
  inv q es lo → lo ≤ i < lo + 2 ^ k →
  m_array q !! index k i = Some (slot_of (consumer q) es lo i).
Proof using Hk.
  intros Hinv Hi. unfold index. rewrite (mask_slot_eq k Hk). by apply (inv_slots _ _ _ Hinv).
Qed.

Lemma slots_update arr c c' es es' lo i s :
  holds k arr lo (slot_of c es lo) → lo ≤ i < lo + 2 ^ k →
  slot_of c' es' lo i = s →
  (∀ j, lo ≤ j < lo + 2 ^ k → j ≠ i → slot_of c' es' lo j = slot_of c es lo j) →
  holds k (<[index k i := s]> arr) lo (slot_of c' es' lo).
Proof using Hk.
  intros Hs Hi Hnew Hold. unfold index. rewrite (mask_slot_eq k Hk).
  by eapply (holds_insert k Hk).
Qed.

(** Replacing the ticket of counter [t] changes no other slot. *)
Lemma slot_of_other c es lo t xs j :
  lo ≤ t → lo ≤ j → j ≠ t →
  slot_of c (<[Z.to_nat (t - lo) := xs]> es) lo j = slot_of c es lo j.
Proof using Hk.
  intros. unfold slot_of. by rewrite list_lookup_insert_ne by lia.
Qed.

(** The consumer relies on the oldest ticket only once it is published. *)
Lemma consumer_ok_mono c es es' lo :
  (∀ x, es !! 0%nat = Some (x, Published) → es' !! 0%nat = Some (x, Published)) →
  consumer_ok c es lo → consumer_ok c es' lo.
Proof using Hk. intros He. destruct c; simpl; try done; intros [? H]; [destruct H |..]; eauto. Qed.

(** *** Steps of a producer *)

Lemma inv_set_producers q es lo ps :
  inv q es lo → producers_ok ps es lo →
  inv (Queue (m_head q) (m_tail q) (m_array q) ps (consumer q)) es lo.
Proof using Hk. intros [] ?. by split. Qed.

Lemma inv_claim q es lo p x t b :
  inv q es lo → hi es lo + 1 < 2 ^ 64 → zlen es < 2 ^ k → producers q !! p = Some (P_cas x t b) →
  inv (Queue (m_head q) (u64 (hi es lo + 1)) (m_array q)
    (<[p := P_construct x (hi es lo)]> (producers q)) (consumer q)) (es ++ [(x, Claimed)]) lo.
Proof using Hk.
  intros [Hlo Hb Hh Ht Hl Hp Hc Hs] Hb' Hl' Hpc.
  assert (hi (es ++ [(x, Claimed)]) lo = hi es lo + 1) as Hhi.
  { unfold hi. rewrite length_app. simpl. lia. }
  split; simpl; rewrite ?Hhi; try done.
  - apply u64_small. unfold in_u64, hi in *. lia.
  - rewrite length_app. simpl. lia.
  - by eapply producers_claim.
  - eapply consumer_ok_mono; [| exact Hc]. eauto using lookup_app_l_Some.
  - eapply holds_ext; [| exact Hs]. intros i Hi. unfold slot_of.
    destruct (es !! Z.to_nat (i - lo)) as [xs |] eqn:Hes.
    { by rewrite (lookup_app_l_Some _ _ _ _ Hes). }
    destruct ((es ++ [(x, Claimed)]) !! Z.to_nat (i - lo)) as [[y s] |] eqn:Hes'; [| done].
    apply lookup_snoc_Some_inv in Hes' as [? | [_ ?]]; [congruence |]. by simplify_eq.
Qed.

(** The owner of ticket [t] writes slot [s'] and moves the ticket to [xs']. *)
Lemma inv_ticket q es lo ps' p pc t xs xs' s' :
  inv q es lo → producers q !! p = Some pc → ticket pc = Some (t, xs) → xs.2 ≠ Published →
  producers_ok ps' (<[Z.to_nat (t - lo) := xs']> es) lo →
  slot_of C_idle (<[Z.to_nat (t - lo) := xs']> es) lo t = s' →
  inv (Queue (m_head q) (m_tail q) (<[index k t := s']> (m_array q)) ps' (consumer q))
    (<[Z.to_nat (t - lo) := xs']> es) lo.
Proof using Hk.
  intros [Hlo Hb Hh Ht Hl Hp Hc Hs] Hpc Htk Hnp Hps Hs'.
  destruct (ticket_range _ _ _ _ _ (po_each _ _ _ Hp _ _ Hpc) Htk) as [Hrange Hxs].
  unfold hi in *.
  assert (consumer_ok (consumer q) (<[Z.to_nat (t - lo) := xs']> es) lo) as Hc'.
  { eapply consumer_ok_mono; [| exact Hc]. intros y Hy.
    rewrite list_lookup_insert_ne; [done |]. intros Heq. rewrite Heq in Hxs.
    rewrite Hy in Hxs. by injection Hxs as <-. }
  split; simpl; try done; [unfold hi; by rewrite length_insert.. | by rewrite length_insert |].
  eapply slots_update; [exact Hs | lia | | intros; apply slot_of_other; lia].
  rewrite <-Hs'. unfold slot_of. rewrite list_lookup_insert_eq by (by eapply lookup_lt_Some).
  destruct xs' as [y []]; try done. destruct (Z.eqb_spec t lo) as [-> |]; [| done].
  destruct (consumer q); try done; simpl in Hc; destruct Hc as [_ Hc]; exfalso.
  all: rewrite Z.sub_diag in Hxs; change (Z.to_nat 0) with 0%nat in Hxs; rewrite Hxs in Hc.
  all: clear -Hc Hnp; naive_solver.
Qed.

(** The owner of a claimed ticket constructs the element. *)
Lemma inv_constructed q es lo p x t :
  inv q es lo → producers q !! p = Some (P_construct x t) →
  (lo ≤ t < hi es lo ∧ es !! Z.to_nat (t - lo) = Some (x, Claimed)) ∧
  m_array q !! index k t = Some (MkSlot Raw false) ∧
  inv (Queue (m_head q) (m_tail q) (<[index k t := MkSlot (Live x) false]> (m_array q))
    (<[p := P_set_ready x t]> (producers q)) (consumer q)) (<[Z.to_nat (t - lo) := (x, Written)]> es) lo.
Proof using Hk.
  intros Hinv Hpc. pose proof (inv_producers _ _ _ Hinv) as Hps. pose proof (inv_len _ _ _ Hinv) as Hl.
  destruct (ticket_range _ _ _ _ _ (po_each _ _ _ Hps _ _ Hpc) eq_refl) as [Hrange Hes].
  split; [done |]. unfold hi in *. split.
  - rewrite (slots_lookup _ _ _ t Hinv) by lia. unfold slot_of. by rewrite Hes.
  - eapply inv_ticket; [done | done | done | done | |].
    + eapply producers_update; [done | exact Hpc | done | |].
      * intros. by rewrite lookup_insert_ne.
      * rewrite lookup_insert_eq. simpl. split; [| done]. split; [lia |].
        apply list_lookup_insert_eq. by eapply lookup_lt_Some.
    + unfold slot_of. by rewrite list_lookup_insert_eq by (by eapply lookup_lt_Some).
Qed.

(** The owner of a written ticket sets the flag and leaves. *)
Lemma inv_published q es lo p x t :
  inv q es lo → producers q !! p = Some (P_set_ready x t) →
  (lo ≤ t < hi es lo ∧ es !! Z.to_nat (t - lo) = Some (x, Written)) ∧
  m_array q !! index k t = Some (MkSlot (Live x) false) ∧
  inv (Queue (m_head q) (m_tail q) (<[index k t := MkSlot (Live x) true]> (m_array q))
    (delete p (producers q)) (consumer q)) (<[Z.to_nat (t - lo) := (x, Published)]> es) lo.
Proof using Hk.
  intros Hinv Hpc. pose proof (inv_producers _ _ _ Hinv) as Hps. pose proof (inv_len _ _ _ Hinv) as Hl.
  destruct (ticket_range _ _ _ _ _ (po_each _ _ _ Hps _ _ Hpc) eq_refl) as [Hrange Hes].
  split; [done |]. unfold hi in *. split.
  - rewrite (slots_lookup _ _ _ t Hinv) by lia. unfold slot_of. by rewrite Hes.
  - eapply inv_ticket; [done | done | done | done | |].
    + eapply (producers_update _ _ _ _ _ _ _ _ (x, Published)); [done | exact Hpc | done | |].
      * intros. by rewrite lookup_delete_ne.
      * by rewrite lookup_delete_eq.
    + unfold slot_of. rewrite list_lookup_insert_eq by (by eapply lookup_lt_Some).
      by destruct (t =? lo).
Qed.

(** The head check of [try_push]: an unsigned distance below [SIZE] from a
    tail that is still current means a free slot. *)
Lemma head_check es lo t :
  0 ≤ lo → hi es lo < 2 ^ 64 → 0 ≤ t ≤ hi es lo → zlen es ≤ 2 ^ k →
  (SIZE k <=? u64 (t - lo)) = false → t = hi es lo → zlen es < 2 ^ k.
Proof using Hk.
  intros Hlo Hb Ht Hl Hcheck ->. apply Z.leb_gt in Hcheck. unfold hi, SIZE in *.
  rewrite u64_small in Hcheck by (unfold in_u64; lia). lia.
Qed.

(** The visible effect of a step on the list of tickets. *)
Definition effect (e : option (event T)) es es' lo lo' : Prop :=
  es.*1 ++ claimed (option_list e) = popped (option_list e) ++ es'.*1 ∧
  hi es' lo' = hi es lo + zlen (claimed (option_list e)).

Lemma effect_none es lo : effect None es es lo lo.
Proof using Hk. unfold effect, claimed, popped. simpl. rewrite app_nil_r. split; [done | lia]. Qed.

Lemma effect_update t xs xs' es lo e :
  es !! t = Some xs → xs'.1 = xs.1 → claimed (option_list e) = [] → popped (option_list e) = [] →
  effect e es (<[t := xs']> es) lo lo.
Proof using Hk.
  intros Hes Heq Hc Hp. unfold effect, hi. rewrite Hc, Hp, length_insert, app_nil_r. split; [| simpl; lia].
  rewrite list_fmap_insert, Heq. simpl. symmetry. apply list_insert_id.
  by rewrite list_lookup_fmap, Hes.
Qed.

Lemma try_push_step_sound q es lo p sp :
  inv q es lo → hi es lo + 1 < 2 ^ 64 →
  ∃ q' e es', try_push_step k q p sp = Ret (q', e) ∧ inv q' es' lo ∧ effect e es es' lo lo.
Proof using Hk.
  intros Hinv Hb. unfold try_push_step.
  destruct (producers q !! p) as [pc |] eqn:Hpc; [| eauto 6 using effect_none].
  pose proof (inv_producers _ _ _ Hinv) as Hps. pose proof (po_each _ _ _ Hps _ _ Hpc) as Hok.
  pose proof (inv_tail _ _ _ Hinv) as Ht. pose proof (inv_head _ _ _ Hinv) as Hh.
  pose proof (inv_lo _ _ _ Hinv) as Hlo. pose proof (inv_len _ _ _ Hinv) as Hl.
  destruct pc as [x | x t b | x t b | x t b | x t | x t].
  - do 3 eexists. split; [done |]. split; [| apply effect_none].
    apply inv_set_producers; [done |]. eapply producers_insert; [done | | done | naive_solver].
    simpl. rewrite Ht. unfold hi. lia.
  - destruct (SIZE k <=? u64 (t - m_head q)) eqn:Hcheck.
    all: do 3 eexists; split; [done |]; split; [| apply effect_none].
    + apply inv_set_producers; [done |]. by eapply producers_delete.
    + apply inv_set_producers; [done |]. eapply producers_insert; [done | | done | naive_solver].
      simpl in *. split; [done |]. rewrite Hh in Hcheck. eapply head_check; eauto. lia.
  - destruct ((m_tail q =? t) && negb sp) eqn:Hcas.
    + zify_bool. subst t. simpl in Hok. destruct Hok as [_ Hroom]. rewrite Ht in *.
      do 3 eexists. split; [done |]. split; [eapply inv_claim; eauto |].
      unfold effect, claimed, popped, hi. rewrite fmap_app, length_app. simpl. split; [done | lia].
    + do 3 eexists. split; [done |]. split; [| apply effect_none].
      apply inv_set_producers; [done |]. eapply producers_insert; [done | | done | naive_solver].
      simpl. rewrite Ht. unfold hi. lia.
  - do 3 eexists. split; [done |]. split; [| apply effect_none].
    apply inv_set_producers; [done |]. eapply producers_insert; [done | done | done | naive_solver].
  - destruct (inv_constructed _ _ _ _ _ _ Hinv Hpc) as ([_ Hes] & Hslot & Hinv').
    erewrite on_slot_lookup by (exact Hslot || reflexivity). cbn [obind].
    do 3 eexists. split; [done |]. split; [exact Hinv' | by eapply (effect_update _ _ (x, Written))].
  - destruct (inv_published _ _ _ _ _ _ Hinv Hpc) as ([_ Hes] & Hslot & Hinv').
    erewrite on_slot_lookup by (exact Hslot || reflexivity). cbn [obind].
    do 3 eexists. split; [done |]. split; [exact Hinv' | by eapply (effect_update _ _ (x, Published))].
Qed.

(** *** Steps of the consumer *)

Lemma inv_set_consumer q es lo c :
  inv q es lo → consumer_ok c es lo →
  slot_of c es lo lo = slot_of (consumer q) es lo lo →
  inv (set_consumer q c) es lo.
Proof using Hk.
  intros [] Hc Hslot. split; try done. simpl. eapply holds_ext; [| eassumption].
  intros i Hi. destruct (decide (i = lo)) as [-> | Hne]; [done |].
  unfold slot_of. by rewrite (proj2 (Z.eqb_neq i lo)) by done.
Qed.

(** The consumer works on the slot of the oldest, published ticket. *)
Lemma inv_consumer_slot q x es lo c s :
  inv q ((x, Published) :: es) lo → consumer_ok c ((x, Published) :: es) lo →
  slot_of c ((x, Published) :: es) lo lo = s →
  inv (Queue (m_head q) (m_tail q) (<[index k lo := s]> (m_array q)) (producers q) c)
    ((x, Published) :: es) lo.
Proof using Hk.
  intros [] Hc Hslot. split; try done. simpl. pose proof (pow_k_pos k Hk).
  eapply slots_update; [eassumption | lia | done |].
  intros i Hi Hne. unfold slot_of. by rewrite (proj2 (Z.eqb_neq i lo)) by done.
Qed.

Lemma inv_store_head q x es lo out :
  inv q ((x, Published) :: es) lo → consumer q = C_store_head lo out →
  inv (Queue (u64 (lo + 1)) (m_tail q) (m_array q) (producers q) C_idle) es (lo + 1).
Proof using Hk.
  intros [Hlo Hb Hh Ht Hl Hp Hc Hs] Hpc.
  assert (hi ((x, Published) :: es) lo = hi es (lo + 1)) as Hhi by (unfold hi; simpl; lia).
  rewrite Hhi in *. cbn [length] in *.
  split; cbn [m_head m_tail m_array producers consumer]; try done; [lia | | lia | |].
  - apply u64_small. unfold in_u64, hi in *. lia.
  - by eapply producers_pop.
  - eapply (holds_shift k Hk); [exact Hs | |].
    + intros i Hi. unfold slot_of.
      replace (Z.to_nat (i - lo)) with (S (Z.to_nat (i - (lo + 1)))) by lia. simpl.
      rewrite (proj2 (Z.eqb_neq i lo)) by lia. by destruct (i =? lo + 1).
    + unfold slot_of. rewrite Z.sub_diag, Z.eqb_refl, Hpc. simpl.
      by rewrite (proj2 (lookup_ge_None es _)) by lia.
Qed.

(** The consumer's slot is in the window. *)
Lemma head_slot q es lo :
  inv q es lo → m_array q !! index k lo = Some (slot_of (consumer q) es lo lo).
Proof using Hk. intros Hinv. apply slots_lookup; [done |]. pose proof (pow_k_pos k Hk). lia. Qed.

Lemma try_pop_step_sound q es lo :
  inv q es lo →
  ∃ q' e es' lo', try_pop_step k q = Ret (q', e) ∧ inv q' es' lo' ∧ effect e es es' lo lo'.
Proof using Hk.
  intros Hinv. unfold try_pop_step. pose proof (head_slot _ _ _ Hinv) as Hslot.
  pose proof (inv_consumer _ _ _ Hinv) as Hc. pose proof (inv_head _ _ _ Hinv) as Hh.
  destruct (consumer q) as [| |h|h|h x|h x|h x] eqn:Hpc; simpl in Hc.
  - eauto 8 using effect_none.
  - do 4 eexists. split; [done |]. split; [| apply effect_none].
    apply inv_set_consumer; [done | done | by rewrite Hpc].
  - subst h. erewrite on_slot_lookup by (exact Hslot || reflexivity). cbn [obind].
    destruct (ready (slot_of (C_load_ready lo) es lo lo)) eqn:Hready.
    all: do 4 eexists; split; [done |]; split; [| apply effect_none].
    + apply inv_set_consumer; [done | | by rewrite Hpc]. split; [done |].
      unfold slot_of in Hready. rewrite Z.sub_diag in Hready.
      change (Z.to_nat 0) with 0%nat in Hready.
      destruct (es !! 0%nat) as [[x []] |]; try done. eauto.
    + apply inv_set_consumer; [done | done | by rewrite Hpc].
  - destruct Hc as [-> [x Hx]]. destruct es as [| xs es]; [done |]. injection Hx as ->.
    unfold slot_of in Hslot. rewrite Z.sub_diag, Z.eqb_refl in Hslot. simpl in Hslot.
    erewrite on_slot_lookup by (exact Hslot || reflexivity). cbn [obind].
    do 4 eexists. split; [done |]. split; [| apply effect_none].
    eapply inv_consumer_slot; [done | done |]. unfold slot_of. by rewrite Z.sub_diag, Z.eqb_refl.
  - destruct Hc as [-> Hx]. destruct es as [| xs es]; [done |]. injection Hx as ->.
    unfold slot_of in Hslot. rewrite Z.sub_diag, Z.eqb_refl in Hslot. simpl in Hslot.
    erewrite on_slot_lookup by (exact Hslot || reflexivity). cbn [obind].
    do 4 eexists. split; [done |]. split; [| apply effect_none].
    eapply inv_consumer_slot; [done | done |]. unfold slot_of. by rewrite Z.sub_diag, Z.eqb_refl.
  - destruct Hc as [-> Hx]. destruct es as [| xs es]; [done |]. injection Hx as ->.
    unfold slot_of in Hslot. rewrite Z.sub_diag, Z.eqb_refl in Hslot. simpl in Hslot.
    erewrite on_slot_lookup by (exact Hslot || reflexivity). cbn [obind].
    do 4 eexists. split; [done |]. split; [| apply effect_none].
    eapply inv_consumer_slot; [done | done |]. unfold slot_of. by rewrite Z.sub_diag, Z.eqb_refl.
  - destruct Hc as [-> Hx]. destruct es as [| xs es]; [done |]. injection Hx as ->.
    do 4 eexists. split; [done |]. split; [by eapply inv_store_head |].
    unfold effect, hi. simpl. rewrite app_nil_r. split; [done | lia].
Qed.

Lemma mpsc_exec_sound q es lo a :
  inv q es lo → hi es lo + 1 < 2 ^ 64 →
  ∃ q' e es' lo', exec k q a = Ret (q', e) ∧ inv q' es' lo' ∧ effect e es es' lo lo'.
Proof using Hk.
  intros Hinv Hb. destruct a as [p x | p sp | |]; simpl.
  - destruct (producers q !! p) eqn:Hpc; [eauto 8 using effect_none |].
    do 4 eexists. split; [done |]. split; [| apply effect_none].
    apply inv_set_producers; [done |].
    apply producers_insert; [apply Hinv | done | done | congruence].
  - destruct (try_push_step_sound q es lo p sp Hinv Hb) as (q' & e & es' & ? & ? & ?).
    eauto 8.
  - destruct (consumer q) eqn:Hpc; try (eauto 8 using effect_none).
    do 4 eexists. split; [done |]. split; [| apply effect_none].
    apply inv_set_consumer; [done | done | by rewrite Hpc].
  - by apply try_pop_step_sound.
Qed.

Lemma mpsc_inv_init : inv (init k) [] 0.
Proof using Hk.
  pose proof (pow_k_pos k Hk). split; simpl; try done; try lia.
  eapply holds_ext; [| apply holds_replicate, Hk]. done.
Qed.

(** The invariant along a run of fewer than [2 ^ 64] steps. *)
Definition mpsc_run_inv (tr : list (action T * option (event T))) q es lo : Prop :=
  inv q es lo ∧ claimed (omap snd tr) = popped (omap snd tr) ++ es.*1 ∧
  hi es lo = zlen (claimed (omap snd tr)).

Lemma claimed_length (tr : list (action T * option (event T))) :
  (length (claimed (omap snd tr)) ≤ length tr)%nat.
Proof using Hk.
  etransitivity; [apply omap_length_le |]. apply omap_length_le.
Qed.

Lemma reachable_inv tr q :
  run (step k) (init k) tr q → zlen tr < 2 ^ 64 → ∃ es lo, mpsc_run_inv tr q es lo.
Proof using Hk.
  intros Hrun. revert tr q Hrun.
  apply (run_invariant _ (λ tr q, zlen tr < 2 ^ 64 → ∃ es lo, mpsc_run_inv tr q es lo)).
  { intros _. exists [], 0. split; [apply mpsc_inv_init | done]. }
  intros tr q [a e] q' IH Hstep Hlen. rewrite length_app in Hlen. simpl in Hlen.
  destruct (IH ltac:(lia)) as (es & lo & Hinv & Hord & Hhi).
  pose proof (claimed_length tr) as Hcl.
  destruct (mpsc_exec_sound q es lo a Hinv ltac:(lia)) as (q1 & e1 & es' & lo' & Hex & Hinv' & He1 & He2).
  unfold machine_step in Hstep. simpl in Hstep. rewrite Hex in Hstep. injection Hstep as <- <-.
  exists es', lo'. split; [done |].
  assert (omap snd (tr ++ [(a, e1)]) = omap snd tr ++ option_list e1) as ->.
  { rewrite omap_app. by destruct e1. }
  unfold claimed, popped in *. rewrite !omap_app, length_app, Hord. split; [| rewrite <-Hord; lia].
  by rewrite <-(assoc_L (++)), He1, (assoc_L (++)).
Qed.
End Invariant.

(** ** Claims and completed pushes *)

Section Tickets.
Context {T : Type} (k : Z).

(** The push a producer has claimed a ticket for and not yet completed. *)
Definition in_flight (q : queue T) (p : nat) : list T :=
  match producers q !! p with
  | Some (P_construct x _) | Some (P_set_ready x _) => [x]
  | _ => []
  end.

Lemma in_flight_other (q q' : queue T) p :
  producers q' !! p = producers q !! p → in_flight q' p = in_flight q p.
Proof. unfold in_flight. by intros ->. Qed.

Lemma try_pop_producers (q q' : queue T) e :
  try_pop_step k q = Ret (q', e) → producers q' = producers q ∧
  (e = None ∨ e = Some Ev_pop_empty ∨ ∃ x, e = Some (Ev_pop x)).
Proof.
  unfold try_pop_step, obind. intros H. split_match_in H; naive_solver.
Qed.

(** Effect of one producer step on the accounts of every producer. *)
Lemma try_push_account (q q' : queue T) p sp e p' :
  try_push_step k q p sp = Ret (q', e) →
  in_flight q p' ++ claimed_by p' (option_list e) = pushed_by p' (option_list e) ++ in_flight q' p'.
Proof.
  unfold try_push_step. destruct (decide (p = p')) as [<- | Hne].
  - unfold in_flight. destruct (producers q !! p) as [pc |] eqn:Hpc; [| intros [= <- <-]; by rewrite Hpc].
    unfold obind. destruct pc; intros H; split_match_in H; simplify_eq/=;
      rewrite ?lookup_insert_eq, ?lookup_delete_eq; try done.
    all: by rewrite decide_True.
  - intros H. unfold obind in H. rewrite (in_flight_other q q' p').
    + split_match_in H; simplify_eq/=; rewrite ?decide_False by done; by rewrite ?app_nil_r.
    + split_match_in H; simplify_eq/=; by rewrite ?lookup_insert_ne, ?lookup_delete_ne.
Qed.

Lemma exec_account (q q' : queue T) a e p :
  exec k q a = Ret (q', e) →
  in_flight q p ++ claimed_by p (option_list e) = pushed_by p (option_list e) ++ in_flight q' p.
Proof.
  destruct a as [p' x | p' sp | |]; simpl.
  - destruct (producers q !! p') eqn:Hpc; intros [= <- <-]; simpl; rewrite app_nil_r; [done |].
    unfold in_flight. simpl. destruct (decide (p' = p)) as [-> | Hne].
    + by rewrite lookup_insert_eq, Hpc.
    + by rewrite lookup_insert_ne.
  - apply try_push_account.
  - destruct (consumer q); intros [= <- <-]; simpl; by rewrite app_nil_r.
  - intros H. destruct (try_pop_producers _ _ _ H) as [Hp He].
    rewrite (in_flight_other q q' p) by (by rewrite Hp).
    destruct He as [-> | [-> | [x ->]]]; simpl; by rewrite app_nil_r.
Qed.

Lemma run_account tr (q : queue T) p :
  run (step k) (init k) tr q →
  claimed_by p (omap snd tr) = pushed_by p (omap snd tr) ++ in_flight q p.
Proof.
  revert tr q. apply (run_invariant _ (λ tr q, claimed_by p (omap snd tr) =
    pushed_by p (omap snd tr) ++ in_flight q p)).
  { unfold in_flight. simpl. by rewrite lookup_empty. }
  intros tr q [a e] q' IH Hstep. apply (exec_account _ _ _ _ p) in Hstep.
  cbn [fst snd] in Hstep.
  assert (omap snd (tr ++ [(a, e)]) = omap snd tr ++ option_list e) as ->.
  { rewrite omap_app. by destruct e. }
  unfold claimed_by, pushed_by in *. rewrite !omap_app, IH, <-(assoc_L (++)), Hstep.
  by rewrite (assoc_L (++)).
Qed.

(** Steps a producer running alone still has to take. *)
Definition solo_left (q : queue T) (p : nat) : nat :=
  match producers q !! p with
  | None => 0
  | Some (P_set_ready _ _) => 1
  | Some (P_construct _ _) => 2
  | Some (P_cas _ t _) => if t =? m_tail q then 3 else 6
  | Some (P_load_head _ t _) => if t =? m_tail q then 4 else 7
  | Some (P_backoff _ t _) => if t =? m_tail q then 5 else 8
  | Some (P_load_tail _) => 5
  end.

Lemma solo_left_step (q q' : queue T) p e :
  try_push_step k q p false = Ret (q', e) → (solo_left q' p ≤ solo_left q p - 1)%nat.
Proof.
  unfold solo_left, try_push_step. destruct (producers q !! p) as [pc |] eqn:Hpc.
  2: { intros [= <- <-]. rewrite Hpc. done. }
  unfold obind. destruct pc; intros H; split_match_in H; simplify_eq/=;
    rewrite ?lookup_insert_eq, ?lookup_delete_eq; try lia.
  all: zify_bool; rewrite ?andb_true_r in *; rewrite ?Z.eqb_refl; simpl; repeat case_match; zify_bool; lia.
Qed.
End Tickets.

Section Quiescent.
Context {T : Type} (k : Z) (Hk : 0 ≤ k < 64).
Implicit Types (q : queue T) (es : list (T * status)).

(** A whole [try_pop], run alone. *)
Definition pop_alone : list (action T) := CallPop :: replicate 6 RunConsumer.

Lemma pop_alone_taken hd tl arr (ps : gmap nat (producer_pc T)) x :
  arr !! index k hd = Some (MkSlot (Live x) true) →
  ∃ q', exec_all k (Queue hd tl arr ps C_idle) pop_alone = Ret (q', [Ev_pop x])
    ∧ consumer q' = C_idle.
Proof using.
  intros Hs. pose proof (lookup_lt_Some _ _ _ Hs) as Hlt.
  unfold pop_alone. simpl. unfold try_pop_step. simpl.
  unfold on_slot at 1. simpl. rewrite Hs. simpl.
  unfold on_slot at 1. simpl. rewrite Hs. simpl.
  unfold on_slot at 1. simpl. rewrite list_lookup_insert_eq by done. simpl.
  unfold on_slot at 1. simpl. rewrite list_lookup_insert_eq by (by rewrite length_insert). simpl.
  eauto.
Qed.

Lemma pop_alone_empty hd tl arr (ps : gmap nat (producer_pc T)) c :
  arr !! index k hd = Some (MkSlot c false) →
  ∃ q', exec_all k (Queue hd tl arr ps C_idle) pop_alone = Ret (q', [Ev_pop_empty])
    ∧ consumer q' = C_idle.
Proof using.
  intros Hs. unfold pop_alone. simpl. unfold try_pop_step. simpl.
  unfold on_slot at 1. simpl. rewrite Hs. simpl. eauto.
Qed.

Lemma quiescent_pop q es lo :
  inv k q es lo → producers q = ∅ → consumer q = C_idle →
  ∃ q', exec_all k q pop_alone =
      Ret (q', [match es.*1 with [] => Ev_pop_empty | x :: _ => Ev_pop x end])
    ∧ consumer q' = C_idle.
Proof using Hk.
  intros Hinv Hps Hc. pose proof (head_slot k Hk _ _ _ Hinv) as Hslot.
  pose proof (inv_head _ _ _ _ Hinv) as Hh.
  pose proof (po_owned _ _ _ _ (inv_producers _ _ _ _ Hinv)) as Ho.
  destruct q as [hd tl arr ps c]. simpl in *. subst hd ps c.
  unfold slot_of in Hslot. rewrite Z.sub_diag, Z.eqb_refl in Hslot.
  destruct es as [| [x s] es]; simpl in *; [by eapply pop_alone_empty |].
  destruct s; [.. | by eapply pop_alone_taken].
  all: destruct (Ho 0%nat x _ eq_refl ltac:(done)) as (p & pc & Hp & _).
  all: by rewrite lookup_empty in Hp.
Qed.

(** A producer running alone for [n] steps. *)
Lemma solo_run q p n :
  (∀ m, (m ≤ n)%nat → ∃ q' evs, exec_all k q (replicate m (RunProducer p false)) = Ret (q', evs)) →
  ∃ q' evs, exec_all k q (replicate n (RunProducer p false)) = Ret (q', evs) ∧
    (solo_left q' p ≤ solo_left q p - n)%nat.
Proof using.
  revert q. induction n as [| n IH]; intros q Htot.
  { exists q, []. split; [done | lia]. }
  destruct (Htot 1%nat ltac:(lia)) as (q1 & es1 & H1). simpl in H1.
  destruct (try_push_step k q p false) as [[q2 e] | | | |] eqn:Hstep; try done. simpl in H1.
  injection H1 as -> _. pose proof (solo_left_step _ _ _ _ _ Hstep).
  destruct (IH q1) as (q' & es & Hrun & Hleft).
  { intros m Hm'. destruct (Htot (S m) ltac:(lia)) as (q' & es & Hm). simpl in Hm. rewrite Hstep in Hm. simpl in Hm.
    destruct (exec_all k q1 (replicate m (RunProducer p false))) as [[q3 es3] | | | |]; try done.
    eauto. }
  simpl. rewrite Hstep. simpl. rewrite Hrun. simpl. do 2 eexists. split; [done | lia].
Qed.

Lemma solo_left_bound q p : (solo_left q p ≤ 8)%nat.
Proof using. unfold solo_left. repeat case_match; lia. Qed.
Lemma solo_left_0 q p : solo_left q p = 0%nat → producers q !! p = None.
Proof using. unfold solo_left. by repeat case_match. Qed.

Lemma exec_all_defined acts q es lo :
  inv k q es lo → hi es lo + zlen acts < 2 ^ 64 →
  ∃ q' evs, exec_all k q acts = Ret (q', evs).
Proof using Hk.
  revert q es lo. induction acts as [| a acts IH]; intros q es lo Hinv Hb; [simpl; eauto |].
  cbn [length] in Hb.
  destruct (mpsc_exec_sound k Hk q es lo a Hinv ltac:(lia)) as (q1 & e & es1 & lo1 & Ha & Hinv1 & _ & Hhi).
  assert (zlen (claimed (option_list e)) ≤ 1).
  { destruct e as [[]|]; simpl; lia. }
  destruct (IH q1 es1 lo1 Hinv1 ltac:(lia)) as (q' & evs & Hall).
  simpl. rewrite Ha. simpl. rewrite Hall. simpl. eauto.
Qed.
End Quiescent.

(** * The properties of the queue *)

(** C3: FIFO order, no loss and no duplication.  In every interleaving of fewer
    than [2 ^ 64] steps, the values claimed by the producers, in the order of
    their tickets, are the values popped so far followed by at most [SIZE]
    pending ones; and every producer's claims are its completed pushes, in its
    own order, with at most one more that is still under way. *)
Theorem mpsc_fifo {T} k tr (q : queue T) :
  0 ≤ k < 64 → run (step k) (init k) tr q → zlen tr < 2 ^ 64 →
  (∃ pending, claimed (omap snd tr) = popped (omap snd tr) ++ pending ∧ zlen pending ≤ SIZE k) ∧
  (∀ p, ∃ last, claimed_by p (omap snd tr) = pushed_by p (omap snd tr) ++ last ∧
    (length last ≤ 1)%nat ∧ (producers q !! p = None → last = [])).
Proof.
  intros Hk Hrun Hlen. split.
  - destruct (reachable_inv k Hk _ _ Hrun Hlen) as (es & lo & Hinv & Hord & _).
    exists es.*1. split; [done |]. rewrite length_fmap. apply Hinv.
  - intros p. exists (in_flight q p). split; [by eapply run_account |].
    unfold in_flight. repeat case_match; simpl; split; done || lia.
Qed.

(** Memory safety and race freedom.  Every step of every thread is defined:
    no element is constructed over another or taken from a slot that holds
    none.  Two producers never construct into one slot, and the consumer never
    touches the slot a producer constructs into. *)
Theorem mpsc_safe {T} k tr (q : queue T) :
  0 ≤ k < 64 → run (step k) (init k) tr q → zlen tr + 1 < 2 ^ 64 →
  (∀ a, ∃ q' e, exec k q a = Ret (q', e)) ∧
  (∀ p p' x x' t t', p ≠ p' → producers q !! p = Some (P_construct x t) →
    producers q !! p' = Some (P_construct x' t') → index k t ≠ index k t') ∧
  (∀ p x t h, producers q !! p = Some (P_construct x t) →
    consumer q = C_move h ∨ (∃ out, consumer q = C_destroy h out) → index k t ≠ index k h).
Proof.
  intros Hk Hrun Hlen.
  destruct (reachable_inv k Hk _ _ Hrun ltac:(lia)) as (es & lo & Hinv & _ & Hhi).
  pose proof (claimed_length k Hk tr) as Hcl.
  pose proof (inv_producers _ _ _ _ Hinv) as [He Hu _]. pose proof (inv_len _ _ _ _ Hinv) as Hl.
  assert (∀ p x t, producers q !! p = Some (P_construct x t) →
    lo ≤ t < lo + 2 ^ k ∧ es !! Z.to_nat (t - lo) = Some (x, Claimed)) as Hrange.
  { intros p x t Hp. destruct (ticket_range k Hk _ _ _ _ _ (He _ _ Hp) eq_refl) as [Hr ?].
    unfold hi in Hr. split; [lia | done]. }
  split_and!.
  - intros a. destruct (mpsc_exec_sound k Hk q es lo a Hinv ltac:(lia)) as (q' & e & ? & ? & ? & _). eauto.
  - intros p p' x x' t t' Hne Hp Hp' Heq. apply Hne.
    destruct (Hrange _ _ _ Hp) as [Hr _]. destruct (Hrange _ _ _ Hp') as [Hr' _].
    unfold index in Heq. rewrite !(mask_slot_eq k Hk) in Heq. apply (slot_inj k Hk) in Heq; [| lia].
    subst t'. by eapply (Hu p p' _ _ t).
  - intros p x t h Hp Hc Heq. destruct (Hrange _ _ _ Hp) as [Hr Hes].
    pose proof (inv_consumer _ _ _ _ Hinv) as Hok.
    assert (h = lo ∧ ∃ y, es !! 0%nat = Some (y, Published)) as [-> [y Hy]].
    { destruct Hc as [Hc | [out Hc]]; rewrite Hc in Hok; simpl in Hok; destruct Hok; eauto. }
    unfold index in Heq. rewrite !(mask_slot_eq k Hk) in Heq. pose proof (pow_k_pos k Hk).
    apply (slot_inj k Hk) in Heq; [| lia]. subst t. rewrite Z.sub_diag in Hes.
    change (Z.to_nat 0) with 0%nat in Hes. congruence.
Qed.

(** When no push is under way, [try_pop] answers exactly: it takes the oldest
    pending value, and reports an empty queue only if nothing is pending. *)
Theorem mpsc_pop_quiescent {T} k tr (q : queue T) :
  0 ≤ k < 64 → run (step k) (init k) tr q → zlen tr < 2 ^ 64 →
  producers q = ∅ → consumer q = C_idle →
  ∃ pending q', claimed (omap snd tr) = popped (omap snd tr) ++ pending ∧
    exec_all k q pop_alone =
      Ret (q', [match pending with [] => Ev_pop_empty | x :: _ => Ev_pop x end]) ∧
    consumer q' = C_idle.
Proof.
  intros Hk Hrun Hlen Hps Hc.
  destruct (reachable_inv k Hk _ _ Hrun Hlen) as (es & lo & Hinv & Hord & _).
  destruct (quiescent_pop k Hk q es lo Hinv Hps Hc) as (q' & ? & ?). eauto.
Qed.

(** Obstruction freedom of [try_push].  From any reachable queue, a producer
    that runs alone for eight steps has returned. *)
Theorem mpsc_push_returns {T} k tr (q : queue T) p :
  0 ≤ k < 64 → run (step k) (init k) tr q → zlen tr + 8 < 2 ^ 64 →
  ∃ q' es, exec_all k q (replicate 8 (RunProducer p false)) = Ret (q', es) ∧
    producers q' !! p = None.
Proof.
  intros Hk Hrun Hlen.
  destruct (reachable_inv k Hk _ _ Hrun ltac:(lia)) as (es & lo & Hinv & _ & Hhi).
  pose proof (claimed_length k Hk tr) as Hcl.
  destruct (solo_run k q p 8) as (q' & evs & Hall & Hleft).
  { intros m Hm. eapply (exec_all_defined k Hk); [done |]. rewrite length_replicate. lia. }
  exists q', evs. split; [done |]. apply solo_left_0. pose proof (solo_left_bound q p). lia.
Qed.

(** [try_push] may answer "full" on an empty queue.  A producer that loaded
    [m_tail] before another element was pushed and popped computes a distance
    of [0 - 1] modulo [2 ^ 64], which is not below [SIZE]. *)
Theorem mpsc_spurious_full :
  ∃ acts (q : queue nat) es, exec_all 1 (init 1) acts = Ret (q, es) ∧
    es = [Ev_claim 2 7; Ev_push 2 7; Ev_pop 7; Ev_push_full 1 8]%nat ∧
    m_tail q = m_head q ∧ producers q = ∅ ∧ m_array q = m_array (init 1).
Proof.
  exists ([CallPush 1 8; RunProducer 1 false; CallPush 2 7] ++ replicate 5 (RunProducer 2 false)
    ++ pop_alone ++ [RunProducer 1 false])%nat.
  eexists _, _. split; [vm_compute; reflexivity |]. by vm_compute.
Qed.

(** ** Concrete executions *)

Module Demo.
(** Capacity 4.  Producer 1 pushes 7; producers 2 and 3 have claimed the next
    two tickets and are about to construct; the consumer is moving 7 out. *)
Definition overlap : list (action nat) :=
  ((CallPush 1 7 :: replicate 5 (RunProducer 1 false)) ++
  (CallPush 2 8 :: replicate 3 (RunProducer 2 false)) ++
  (CallPush 3 9 :: replicate 3 (RunProducer 3 false)) ++
  [CallPop; RunConsumer; RunConsumer])%nat.
(** From there to a queue with two pending elements and nothing under way. *)
Definition to_quiet : list (action nat) :=
  (replicate 2 (RunProducer 3 false) ++ replicate 2 (RunProducer 2 false) ++
  replicate 4 RunConsumer)%nat.

Definition q_overlap : queue nat := final (init 2) (exec_all 2 (init 2) overlap).
Definition q_quiet : queue nat := final q_overlap (exec_all 2 q_overlap to_quiet).

Lemma mpsc_overlap_run : ∃ tr, run (step 2) (init 2) tr q_overlap ∧ length tr = 17%nat.
Proof.
  destruct (run_schedule_run (exec 2) overlap (init 2) q_overlap
    [Ev_claim 1 7; Ev_push 1 7; Ev_claim 2 8; Ev_claim 3 9]%nat) as (tr & ? & _ & Ha);
    [by vm_compute |].
  exists tr. split; [done |]. by rewrite <-(length_fmap fst), Ha.
Qed.

Lemma quiet_run : ∃ tr, run (step 2) (init 2) tr q_quiet ∧ length tr = 25%nat.
Proof.
  destruct (run_schedule_run (exec 2) (overlap ++ to_quiet) (init 2) q_quiet
    [Ev_claim 1 7; Ev_push 1 7; Ev_claim 2 8; Ev_claim 3 9; Ev_push 3 9; Ev_push 2 8; Ev_pop 7]%nat)
    as (tr & ? & _ & Ha); [by vm_compute |].
  exists tr. split; [done |]. by rewrite <-(length_fmap fst), Ha.
Qed.
End Demo.

Lemma mpsc_fifo_witness : ∃ tr, run (step 2) (init 2) tr Demo.q_overlap ∧
  (∃ pending : list nat, claimed (omap snd tr) = popped (omap snd tr) ++ pending ∧ zlen pending ≤ SIZE 2) ∧
  (∀ p, ∃ last, claimed_by p (omap snd tr) = pushed_by p (omap snd tr) ++ last ∧
    (length last ≤ 1)%nat ∧ (producers Demo.q_overlap !! p = None → last = [])).
Proof.
  destruct Demo.mpsc_overlap_run as (tr & Hrun & Hlen). exists tr. split; [exact Hrun |].
  apply (mpsc_fifo 2 tr Demo.q_overlap); [lia | exact Hrun | rewrite Hlen; lia].
Defined.

Lemma mpsc_safe_witness :
  producers Demo.q_overlap !! 2%nat = Some (P_construct 8%nat 1) ∧
  producers Demo.q_overlap !! 3%nat = Some (P_construct 9%nat 2) ∧
  consumer Demo.q_overlap = C_move 0 ∧
  index 2 1 ≠ index 2 2 ∧ index 2 1 ≠ index 2 0.
Proof.
  destruct Demo.mpsc_overlap_run as (tr & Hrun & Hlen).
  destruct (mpsc_safe 2 tr Demo.q_overlap ltac:(lia) Hrun ltac:(rewrite Hlen; lia))
    as (_ & Hpp & Hpc).
  split_and!; [by vm_compute.. | |].
  - by eapply (Hpp 2%nat 3%nat); [| vm_compute; reflexivity | vm_compute; reflexivity].
  - by eapply (Hpc 2%nat); [vm_compute; reflexivity | left; vm_compute; reflexivity].
Defined.

Lemma mpsc_pop_quiescent_witness : ∃ (tr : list (action nat * option (event nat))) pending q',
  claimed (omap snd tr) = popped (omap snd tr) ++ pending ∧
  exec_all 2 Demo.q_quiet pop_alone =
    Ret (q', [match pending with [] => Ev_pop_empty | x :: _ => Ev_pop x end]) ∧
  consumer q' = C_idle.
Proof.
  destruct Demo.quiet_run as (tr & Hrun & Hlen). exists tr.
  apply (mpsc_pop_quiescent 2 tr Demo.q_quiet);
    [lia | exact Hrun | rewrite Hlen; lia | by vm_compute | by vm_compute].
Defined.

Lemma mpsc_push_returns_witness : ∃ q' es,
  exec_all 2 Demo.q_overlap (replicate 8 (RunProducer 2 false)) = Ret (q', es) ∧
  producers q' !! 2%nat = None.
Proof.
  destruct Demo.mpsc_overlap_run as (tr & Hrun & Hlen).
  apply (mpsc_push_returns 2 tr Demo.q_overlap); [lia | exact Hrun | rewrite Hlen; lia].
Defined.
