(* ===== verification/MPSCProgress.v ===== *)
(** * MPSCProgress: the pushes of the multi-producer queue are lock-free

    A producer of [MPSCQueue] may lose its compare-exchange again and again, but
    only to others that win theirs.  With the rank of a producer, [solo_left], and
    the number of producers that have no ticket yet, every step of a producer
    brings some push nearer to its end; the spurious failures of
    [compare_exchange_weak] are counted apart. *)

From stdpp Require Import base tactics numbers list option gmap.
From Stdlib Require Import ZArith Lia.
From S2P Require Import Prelude MPSCQueue.
#[local] Open Scope fiah_scope.

Section Progress.
Context {T : Type} (k : Z).
Implicit Types (q : queue T) (pc : producer_pc T) (acts : list (action T)).

(** Steps a producer has left if [m_tail] does not change any more. *)
Definition rank (tail : Z) pc : nat :=
  match pc with
  | P_set_ready _ _ => 1
  | P_construct _ _ => 2
  | P_cas _ t _ => if (t =? tail)%Z then 3 else 6
  | P_load_head _ t _ => if (t =? tail)%Z then 4 else 7
  | P_backoff _ t _ => if (t =? tail)%Z then 5 else 8
  | P_load_tail _ => 5
  end.

(** It has no ticket. *)
Definition ticketless pc : nat := match pc with P_construct _ _ | P_set_ready _ _ => 0 | _ => 1 end.

(** A claim may undo the progress of all others, once. *)
Definition potential (n : nat) q : nat :=
  msum ticketless (producers q) * (8 * n + 1) + msum (rank (m_tail q)) (producers q).

Definition returned (e : event T) : bool :=
  match e with Ev_push _ _ | Ev_push_full _ _ => true | _ => false end.

Definition starts_push (a : action T) : bool := match a with CallPush _ _ => true | _ => false end.

(** Steps of producers that are inside [try_push], and spurious failures. *)
Definition works (ps : gset nat) (a : action T) : bool :=
  match a with RunProducer p _ => bool_decide (p ∈ ps) | _ => false end.
Definition fails_spuriously (a : action T) : bool :=
  match a with RunProducer _ s => s | _ => false end.
Definition count (f : action T → bool) acts : nat := length (filter (λ a, f a = true) acts).

Lemma count_cons f a acts : count f (a :: acts) = (Nat.b2n (f a) + count f acts)%nat.
Proof. unfold count. rewrite filter_cons. by destruct (f a). Qed.

Lemma rank_bound tail pc : (1 ≤ rank tail pc ≤ 8)%nat.
Proof. destruct pc; simpl; repeat case_match; lia. Qed.

Lemma ranks_bound q : (msum (rank (m_tail q)) (producers q) ≤ 8 * size (producers q))%nat.
Proof.
  induction (producers q) as [| p pc ps Hp IH] using map_ind; [by rewrite msum_empty |].
  rewrite msum_insert_fresh, map_size_insert_None by done. pose proof (rank_bound (m_tail q) pc). lia.
Qed.

Lemma potential_bound q (n := size (producers q)) : (potential n q ≤ n * (8 * n + 1) + 8 * n)%nat.
Proof.
  unfold potential. pose proof (ranks_bound q).
  assert (msum ticketless (producers q) ≤ n)%nat by (apply msum_le_size; intros []; simpl; lia). nia.
Qed.

(** A step of a producer that does not end its push. *)
Lemma producer_progress q p s q' e pc :
  producers q !! p = Some pc → try_push_step k q p s = Ret (q', e) → from_option returned false e = false →
  ∃ pc', producers q' = <[p := pc']> (producers q) ∧
    ((m_tail q' = m_tail q ∧ ticketless pc' = ticketless pc ∧
      (S (rank (m_tail q) pc') ≤ rank (m_tail q) pc + if s then 3 else 0)%nat) ∨
     ticketless pc = 1%nat ∧ ticketless pc' = 0%nat).
Proof.
  intros Hpc Hstep Hret. unfold try_push_step in Hstep. rewrite Hpc in Hstep.
  unfold obind in Hstep. destruct pc; split_match_in Hstep; simplify_eq/=.
  all: eexists; (split; [reflexivity |]); cbn [rank ticketless set_pc m_tail].
  all: try (by right).
  all: left; (split; [done |]); (split; [done |]); repeat case_match; zify_bool; try lia.
Qed.

(** The other actions do not touch what the potential depends on. *)
Lemma other_progress q a q' e :
  exec k q a = Ret (q', e) → starts_push a = false → (∀ p s, a = RunProducer p s → producers q !! p = None) →
  producers q' = producers q ∧ m_tail q' = m_tail q.
Proof.
  intros Hex Hp Hrun. destruct a as [p x | p s | |]; simpl in *; [done | | |].
  - unfold try_push_step in Hex. rewrite (Hrun p s eq_refl) in Hex. by injection Hex as <- <-.
  - destruct (consumer q); by simplify_eq/=.
  - unfold try_pop_step, obind in Hex. by destruct (consumer q); split_match_in Hex; simplify_eq/=.
Qed.

Lemma exec_progress n q a q' e :
  size (producers q) = n → exec k q a = Ret (q', e) → starts_push a = false →
  from_option returned false e = false →
  dom (producers q') = dom (producers q) ∧
  (Nat.b2n (works (dom (producers q)) a) + potential n q' ≤
    potential n q + 3 * Nat.b2n (fails_spuriously a))%nat.
Proof.
  intros Hn Hex Hp Hret.
  destruct (match a with RunProducer p _ => producers q !! p | _ => None end) as [pc |] eqn:Hpc.
  - destruct a as [| p s | |]; try done. simpl in *.
    destruct (producer_progress q p s q' e pc Hpc Hex Hret) as (pc' & Hps & Hcase).
    assert (dom (producers q') = dom (producers q)) as Hdom.
    { rewrite Hps. apply dom_insert_lookup_L. by exists pc. }
    split; [done |]. rewrite bool_decide_eq_true_2 by by apply elem_of_dom_2 in Hpc.
    unfold potential. pose proof (msum_replace ticketless _ _ _ pc' Hpc) as Ht. rewrite <-Hps in Ht.
    destruct Hcase as [(Htl & Heq & Hr) | [H1 H0]].
    + pose proof (msum_replace (rank (m_tail q)) _ _ _ pc' Hpc) as Hs. rewrite <-Hps in Hs.
      rewrite Htl. simpl. destruct s; simpl in *; nia.
    + pose proof (ranks_bound q') as Hb. rewrite <-(size_dom (producers q')), Hdom, size_dom, Hn in Hb.
      simpl. nia.
  - destruct (other_progress q a q' e Hex Hp) as [Hps Htl].
    { intros p s ->. done. }
    unfold potential. rewrite Hps, Htl. split; [done |].
    assert (works (dom (producers q)) a = false) as ->; [| simpl; lia].
    destruct a as [| p s | |]; try done. simpl. by apply bool_decide_eq_false, not_elem_of_dom.
Qed.

Lemma window_progress n q acts q' es :
  size (producers q) = n → run_schedule (exec k) q acts = Ret (q', es) →
  Forall (λ a, starts_push a = false) acts → Forall (λ e, returned e = false) es →
  (count (works (dom (producers q))) acts ≤ potential n q + 3 * count fails_spuriously acts)%nat.
Proof.
  intros Hn Hrun Hacts. revert q es Hn Hrun. induction Hacts as [| a acts Ha _ IH]; intros q es Hn Hrun Hes.
  { unfold count. simpl. lia. }
  simpl in Hrun. destruct (exec k q a) as [[q1 e] | | | |] eqn:Hex; try done. simpl in Hrun.
  destruct (run_schedule (exec k) q1 acts) as [[q2 es1] | | | |] eqn:Hrest; try done. simpl in Hrun. simplify_eq.
  assert (from_option returned false e = false ∧ Forall (λ e, returned e = false) es1) as [He Hes1].
  { destruct e; [by apply Forall_cons in Hes | done]. }
  destruct (exec_progress _ q a q1 e eq_refl Hex Ha He) as [Hdom Hle].
  assert (size (producers q1) = size (producers q)) as Hsize by (by rewrite <-!size_dom, Hdom).
  specialize (IH q1 es1 Hsize Hrest Hes1). rewrite Hdom in IH. rewrite !count_cons. lia.
Qed.
End Progress.

(** C4: [try_push] is lock-free.  Take any reachable queue with [n] producers inside
    [try_push], and any schedule of them and of the consumer in which no new push
    starts.  Once these producers have taken more than [8 * n * n + 9 * n] steps, and
    three more for each spurious failure of a compare-exchange, one of the pushes has
    returned: the losers of the race for a ticket cannot keep one another from
    finishing. *)
Theorem mpsc_push_lock_free {T} k tr (q : queue T) acts (n := size (producers q)) :
  (0 ≤ k < 64)%Z → run (step k) (init k) tr q → (zlen tr + zlen acts < 2 ^ 64)%Z →
  Forall (λ a, starts_push a = false) acts →
  (8 * n * n + 9 * n + 3 * count fails_spuriously acts < count (works (dom (producers q))) acts)%nat →
  ∃ q' es, exec_all k q acts = Ret (q', es) ∧ Exists (λ e, returned e = true) es.
Proof.
  intros Hk Hrun Hlen Hacts Hwork.
  destruct (reachable_inv k Hk _ _ Hrun ltac:(lia)) as (es0 & lo & Hinv & _ & Hhi).
  pose proof (claimed_length k Hk tr) as Hcl.
  destruct (exec_all_defined k Hk acts q es0 lo Hinv ltac:(lia)) as (q' & es & Hall).
  exists q', es. split; [done |].
  destruct (decide (Exists (λ e, returned e = true) es)) as [Hex | Hno]; [done | exfalso].
  assert (Forall (λ e, returned e = false) es) as Hnone.
  { apply not_Exists_Forall in Hno; [| apply _]. eapply Forall_impl; [exact Hno |].
    intros e. simpl. by destruct (returned e). }
  pose proof (window_progress k n q acts q' es eq_refl Hall Hacts Hnone).
  pose proof (potential_bound q) as Hb. subst n. simpl in Hb. nia.
Qed.

(** Producers 2 and 3 of the demonstration, in turn. *)
Definition in_turn : list (action nat) :=
  mjoin (replicate 26 [RunProducer 2%nat false; RunProducer 3%nat false]).

Lemma mpsc_push_lock_free_witness :
  size (producers Demo.q_overlap) = 2%nat ∧
  ∃ q' es, exec_all 2 Demo.q_overlap in_turn = Ret (q', es) ∧ Exists (λ e, returned e = true) es.
Proof.
  assert (size (producers Demo.q_overlap) = 2%nat) as Hn by (vm_compute; reflexivity).
  split; [exact Hn |]. destruct Demo.mpsc_overlap_run as (tr & Hrun & Hlen).
  apply (mpsc_push_lock_free 2 tr Demo.q_overlap in_turn); [lia | exact Hrun | rewrite Hlen; vm_compute; reflexivity | |].
  - by_evaluation.
  - rewrite Hn. vm_compute. lia.
Defined.
