(* ===== verification/MPSCWeak.v ===== *)
(** * MPSCWeak: the memory orders of the multi-producer, single-consumer queue

    Models [src/include/fiah/structs/MPSCQueue.hh] once more, over the
    release/acquire memory of [WeakMemory]: the loads of the counters and of the
    [ready] flags may answer old values, and two accesses to an element that no
    acquire load has ordered are a data race.  The orders are a parameter,
    [code_orders] those of the code; steps, program counters and events are those
    of [MPSCQueue]. *)

From stdpp Require Import base tactics numbers list option gmap.
From Stdlib Require Import ZArith Lia.
From S2P Require Import Prelude Storage Ring WeakMemory MPSCQueue.
#[local] Open Scope Z_scope.
#[local] Open Scope fiah_scope.

(** Thread 0 is the consumer; the atomic locations are the two counters and the
    flag of every slot, the plain objects the elements of the slots. *)
Definition CONSUMER : nat := 0.
Definition PRODUCER (p : nat) : nat := S p.
Definition HEAD : nat := 0.
Definition TAIL : nat := 1.
Definition READY (s : nat) : nat := S (S s).

(** The orders of the accesses by which threads pass an element on.  The loads of
    [m_tail], the compare-exchange and the load of [m_head] by the consumer, which
    alone writes it, are relaxed. *)
Record orders : Type := Orders {
  push_load_head : order;
  push_store_ready : order;
  pop_load_ready : order;
  pop_clear_ready : order;
  pop_store_head : order
}.
Definition code_orders : orders := Orders Acquire Release Acquire Release Release.

Section MPSCWeak.
Context {T : Type} (k : Z) (ords : orders).

Record weak_queue : Type := WeakQueue {
  mem : memory;
  cells : list (cell T);                    (* Slot::data *)
  pushing : gmap nat (producer_pc T);
  popping : consumer_pc T
}.

Definition weak_init : weak_queue :=
  WeakQueue (init_memory 0) (replicate (Z.to_nat (SIZE k)) Raw) ∅ C_idle.

(** One step of [try_push]; [i] is the message a load or the compare-exchange
    reads.  A choice the memory does not allow leaves the queue as it is. *)
Definition weak_push_step (q : weak_queue) (p i : nat) (spurious : bool)
  : outcome (weak_queue * option (event T)) :=
  let goto m pc := WeakQueue m (cells q) (<[p := pc]> (pushing q)) (popping q) in
  let leave m := WeakQueue m (cells q) (delete p (pushing q)) (popping q) in
  match pushing q !! p with
  | None => Ret (q, None)
  | Some (P_load_tail x) =>
      match load Relaxed (mem q) (PRODUCER p) TAIL i with
      | Some (tail, m) => Ret (goto m (P_load_head x tail 1), None)
      | None => Ret (q, None)
      end
  | Some (P_load_head x tail backoff) =>
      match load (push_load_head ords) (mem q) (PRODUCER p) HEAD i with
      | Some (head, m) =>
          if SIZE k <=? tail -u64 head
          then Ret (leave m, Some (Ev_push_full p x))
          else Ret (goto m (P_cas x tail backoff), None)
      | None => Ret (q, None)
      end
  | Some (P_cas x tail backoff) =>
      match cas (mem q) (PRODUCER p) TAIL tail (tail +u64 1) i spurious with
      | Some (true, _, m) => Ret (goto m (P_construct x tail), Some (Ev_claim p x))
      | Some (false, tail, m) => Ret (goto m (P_backoff x tail backoff), None)
      | None => Ret (q, None)
      end
  | Some (P_backoff x tail backoff) =>
      Ret (goto (mem q) (P_load_head x tail (Z.min (backoff <<u64 1) 64)), None)
  | Some (P_construct x tail) =>
      let! m := access (mem q) (PRODUCER p) (index k tail) in
      let! st := construct_at (cells q) (index k tail) x in
      Ret (WeakQueue m st (<[p := P_set_ready x tail]> (pushing q)) (popping q), None)
  | Some (P_set_ready x tail) =>
      Ret (leave (store (push_store_ready ords) (mem q) (PRODUCER p) (READY (index k tail)) 1),
           Some (Ev_push p x))
  end.

(** One step of [try_pop]. *)
Definition weak_pop_step (q : weak_queue) (i : nat) : outcome (weak_queue * option (event T)) :=
  let goto m pc := WeakQueue m (cells q) (pushing q) pc in
  match popping q with
  | C_idle => Ret (q, None)
  | C_load_head =>
      match load Relaxed (mem q) CONSUMER HEAD i with
      | Some (head, m) => Ret (goto m (C_load_ready head), None)
      | None => Ret (q, None)
      end
  | C_load_ready head =>
      match load (pop_load_ready ords) (mem q) CONSUMER (READY (index k head)) i with
      | Some (rdy, m) =>
          if rdy =? 0
          then Ret (goto m C_idle, Some Ev_pop_empty)
          else Ret (goto m (C_move head), None)
      | None => Ret (q, None)
      end
  | C_move head =>
      let! m := access (mem q) CONSUMER (index k head) in
      let! (out, st) := move_from (cells q) (index k head) in
      Ret (WeakQueue m st (pushing q) (C_destroy head out), None)
  | C_destroy head out =>
      let! m := access (mem q) CONSUMER (index k head) in
      let! st := destroy_at (cells q) (index k head) in
      Ret (WeakQueue m st (pushing q) (C_clear_ready head out), None)
  | C_clear_ready head out =>
      Ret (goto (store (pop_clear_ready ords) (mem q) CONSUMER (READY (index k head)) 0)
             (C_store_head head out), None)
  | C_store_head head out =>
      Ret (goto (store (pop_store_head ords) (mem q) CONSUMER HEAD (head +u64 1)) C_idle,
           Some (Ev_pop out))
  end.

Inductive weak_action : Type :=
| WeakPush (p : nat) (x : T)
| WeakProducer (p i : nat) (spurious : bool)
| WeakPop
| WeakConsumer (i : nat).

Definition weak_exec (q : weak_queue) (a : weak_action) : outcome (weak_queue * option (event T)) :=
  match a with
  | WeakPush p x =>
      match pushing q !! p with
      | None => Ret (WeakQueue (mem q) (cells q) (<[p := P_load_tail x]> (pushing q)) (popping q), None)
      | Some _ => Ret (q, None)
      end
  | WeakProducer p i spurious => weak_push_step q p i spurious
  | WeakPop =>
      match popping q with
      | C_idle => Ret (WeakQueue (mem q) (cells q) (pushing q) C_load_head, None)
      | _ => Ret (q, None)
      end
  | WeakConsumer i => weak_pop_step q i
  end.
End MPSCWeak.
Arguments weak_queue T : clear implicits.
Arguments weak_action T : clear implicits.

(** * Proofs *)

(** The orders that matter. *)
Record orders_enough (o : orders) : Prop := OrdersEnough {
  oe_head : push_load_head o = Acquire ∧ pop_store_head o = Release;
  oe_ready : pop_load_ready o = Acquire ∧ push_store_ready o = Release
}.

Section Invariant.
Context {T : Type} (k : Z) (Hk : 0 ≤ k < 64) (ords : orders).
Implicit Types (q : weak_queue T) (es : list (T * status)) (lo : Z) (m : memory) (v w : view).
Implicit Types (ps : gmap nat (producer_pc T)) (c : consumer_pc T) (arr : list (Slot T)).

(** The slot of counter [i] is raw: unclaimed, or claimed and not yet written. *)
Definition free es lo (i : Z) : Prop :=
  lo ≤ i < lo + 2 ^ k ∧
  match es !! Z.to_nat (i - lo) with None | Some (_, Claimed) => True | _ => False end.

(** What every view knows, of a thread or of a message: of a raw slot whose last
    pop it has seen, all the accesses. *)
Record view_ok es lo m v : Prop := ViewOk {
  vo_seen : ∀ l, (seen v l < length (hist m l))%nat;
  vo_free : ∀ i, free es lo i → i + 1 - 2 ^ k ≤ Z.of_nat (seen v HEAD) →
    covers v (accesses m) (slot k i)
}.

Record views_ok es lo m : Prop := ViewsOk {
  vo_bottom : view_ok es lo m bottom;
  vo_threads : ∀ t, view_ok es lo m (views m t);
  vo_messages : ∀ l i msg, hist m l !! i = Some msg → view_ok es lo m (msg_view msg)
}.

(** The newest message of a slot's flag, and the only older one that the consumer
    may still read. *)
Definition ready_ok m (s : nat) (rdy : bool) : Prop :=
  ∃ ms msg, hist m (READY s) = ms ++ [msg] ∧ msg_value msg = Z.b2z rdy ∧
    if rdy then ∃ ms' old, ms = ms' ++ [old] ∧ msg_value old = 0 ∧
                  (length ms' ≤ seen (views m CONSUMER) (READY s))%nat
    else (length ms ≤ seen (views m CONSUMER) (READY s))%nat.

(** The messages of the two counters and of the flags. *)
Record histories_ok arr es lo m : Prop := HistoriesOk {
  ho_head_len : Z.of_nat (length (hist m HEAD)) = lo + 1;
  ho_head : ∀ i msg, hist m HEAD !! i = Some msg →
    msg_value msg = Z.of_nat i ∧ seen (msg_view msg) HEAD = i;
  ho_tail_len : Z.of_nat (length (hist m TAIL)) = hi es lo + 1;
  ho_tail : ∀ i msg, hist m TAIL !! i = Some msg → msg_value msg = Z.of_nat i;
  ho_ready : ∀ s sl, arr !! s = Some sl → ready_ok m s (ready sl);
  ho_consumer : Z.of_nat (seen (views m CONSUMER) HEAD) = lo
}.

(** The consumer has read the flag of the oldest slot and not yet passed it on. *)
Definition taking c : bool :=
  match c with C_move _ | C_destroy _ _ | C_clear_ready _ _ | C_store_head _ _ => true | _ => false end.

(** What the thread that works on a slot, or the flag it waits at, knows. *)
Definition producer_knows m (p : nat) (pc : producer_pc T) : Prop :=
  match pc with
  | P_cas _ t _ | P_construct _ t => t + 1 - 2 ^ k ≤ Z.of_nat (seen (views m (PRODUCER p)) HEAD)
  | P_set_ready _ t => covers (views m (PRODUCER p)) (accesses m) (slot k t)
  | _ => True
  end.
Record knowledge es lo m ps c : Prop := Knowledge {
  kn_producers : ∀ p pc, ps !! p = Some pc → producer_knows m p pc;
  kn_published : ∀ i x, es !! i = Some (x, Published) → i ≠ 0%nat ∨ taking c = false →
    ∃ msg, newest_message m (READY (slot k (lo + Z.of_nat i))) = Some msg ∧
      covers (msg_view msg) (accesses m) (slot k (lo + Z.of_nat i));
  kn_taking : taking c = true → covers (views m CONSUMER) (accesses m) (slot k lo)
}.

(** The queue of [MPSCQueue], with the newest counters and flags. *)
Definition newest arr es lo q : queue T := Queue lo (hi es lo) arr (pushing q) (popping q).

Record weak_inv_at arr es lo q : Prop := WeakInv {
  wi_newest : inv k (newest arr es lo q) es lo;
  wi_cells : cells q = data <$> arr;
  wi_views : views_ok es lo (mem q);
  wi_histories : histories_ok arr es lo (mem q);
  wi_knowledge : knowledge es lo (mem q) (pushing q) (popping q)
}.
Definition weak_inv es lo q : Prop := ∃ arr, weak_inv_at arr es lo q.

(** ** Views *)

Lemma raw_view_mono es lo es' lo' m m' v :
  view_ok es lo m v → (∀ l, (length (hist m l) ≤ length (hist m' l))%nat) →
  (∀ i, free es' lo' i → i + 1 - 2 ^ k ≤ Z.of_nat (seen v HEAD) →
     free es lo i ∧ accesses m' (slot k i) = accesses m (slot k i)) →
  view_ok es' lo' m' v.
Proof using Hk.
  intros [Hseen Hfree] Hlen Hacc. split.
  - intros l. specialize (Hseen l). specialize (Hlen l). lia.
  - intros i Hi Hle. destruct (Hacc i Hi Hle) as [Hi' Heq]. unfold covers. rewrite Heq. by apply Hfree.
Qed.

Lemma raw_view_join es lo m v w : view_ok es lo m v → view_ok es lo m w → view_ok es lo m (join v w).
Proof using Hk.
  intros [Vs Vf] [Ws Wf]. split; simpl.
  - intros l. specialize (Vs l). specialize (Ws l). lia.
  - intros i Hi Hle. destruct (decide (i + 1 - 2 ^ k ≤ Z.of_nat (seen v HEAD))).
    + apply covers_join_l. by apply Vf.
    + apply covers_join_r. apply Wf; [done | lia].
Qed.

Lemma view_ok_seen es lo m v l i :
  view_ok es lo m v → (i < length (hist m l))%nat → l ≠ HEAD ∨ seen v HEAD = i →
  view_ok es lo m (View (upd (seen v) l i) (clk v)).
Proof using Hk.
  intros [Hs Hf] Hi Hl. split.
  - intros l'. simpl. unfold upd. destruct (Nat.eqb_spec l' l) as [-> |]; done.
  - intros j Hj. cbn [seen]. assert (upd (seen v) l i HEAD = seen v HEAD) as ->; [| by apply Hf].
    unfold upd. destruct (Nat.eqb_spec HEAD l); [| done]. by destruct Hl.
Qed.

Lemma view_le_seen v l i : (seen v l ≤ i)%nat → view_le v (View (upd (seen v) l i) (clk v)).
Proof using Hk. intros Hi. split; simpl; [| done]. intros l'. unfold upd. destruct (Nat.eqb_spec l' l); subst; lia. Qed.

(** What a load does: a load of the head must be an acquire, or the consumer's. *)
Lemma loaded arr es lo m o t l i x m' :
  views_ok es lo m → histories_ok arr es lo m → load o m t l i = Some (x, m') →
  l ≠ HEAD ∨ o = Acquire ∨ t = CONSUMER →
  ∃ v msg, m' = set_view m t v ∧ hist m l !! i = Some msg ∧ x = msg_value msg ∧
    view_ok es lo m v ∧ view_le (views m t) v ∧ (seen (views m t) l ≤ i ≤ seen v l)%nat ∧
    (o = Acquire → view_le (msg_view msg) v).
Proof using Hk.
  intros [Hbot Hthr Hmsgs] Hh (Hi & msg & Hmsg & -> & ->)%load_inv Hl.
  pose proof (lookup_lt_Some _ _ _ Hmsg) as Hlt. pose proof (Hmsgs _ _ _ Hmsg) as Hok.
  eexists _, msg. split; [done |]. split; [done |]. split; [done |].
  pose proof (view_le_seen _ _ _ Hi) as Hle. cbn zeta.
  assert (l ≠ HEAD ∨ seen (views m t) HEAD = i ∨ (l = HEAD ∧ o = Acquire)) as Hl'.
  { destruct (decide (l = HEAD)) as [-> |]; [| by left]. destruct Hl as [? | [-> | ->]]; [done | auto |].
    right. left. pose proof (ho_consumer _ _ _ _ Hh). pose proof (ho_head_len _ _ _ _ Hh). lia. }
  assert (∀ v, view_le (views m t) v → (seen v l ≤ seen (join v (msg_view msg)) l)%nat) as Hj by (intros; simpl; lia).
  assert (upd (seen (views m t)) l i l = i) as Hui by apply upd_eq.
  destruct (decide (o = Acquire)) as [-> | Ho].
  - split_and!; [| by etransitivity; [| apply join_le_l] | done | cbn [join seen]; lia | intros _; apply join_le_r].
    destruct (decide (l = HEAD)) as [-> |]; [| apply raw_view_join; [apply view_ok_seen; auto | done]].
    pose proof (proj2 (ho_head _ _ _ _ Hh _ _ Hmsg)) as Hpos. split.
    + intros l'. pose proof (vo_seen _ _ _ _ (Hthr t) l'). pose proof (vo_seen _ _ _ _ Hok l'). simpl.
      unfold upd. destruct (Nat.eqb_spec l' HEAD); subst; lia.
    + intros j Hj'. cbn [join seen]. rewrite Hui, Hpos, Nat.max_id. intros Hle'. apply covers_join_r.
      apply (vo_free _ _ _ _ Hok); [done | lia].
  - assert (l ≠ HEAD ∨ seen (views m t) HEAD = i) as Hl'' by (destruct Hl' as [? | [? | [_ ?]]]; auto; done).
    destruct o; try done. all: split_and!; [by apply view_ok_seen | done | done | cbn [seen]; lia | done].
Qed.

(** *** Memory that has grown *)

Lemma producer_knows_mono m m' p pc :
  producer_knows m p pc → view_le (views m (PRODUCER p)) (views m' (PRODUCER p)) →
  (∀ x t, pc = P_set_ready x t → accesses m' (slot k t) = accesses m (slot k t)) →
  producer_knows m' p pc.
Proof using Hk.
  intros Hpc Hle Hacc. pose proof (proj1 Hle HEAD). destruct pc; simpl in *; try done; try lia.
  eapply covers_le; [exact Hle |]. unfold covers. by erewrite Hacc.
Qed.

Lemma knowledge_mono es lo m m' ps c :
  knowledge es lo m ps c → accesses m' = accesses m → (∀ t, view_le (views m t) (views m' t)) →
  (∀ s, hist m' (READY s) = hist m (READY s)) → knowledge es lo m' ps c.
Proof using Hk.
  intros [Kp Kpub Kt] Hacc Hle Hr. split.
  - intros p pc Hp. eapply producer_knows_mono; [by apply Kp | done |]. intros. by rewrite Hacc.
  - intros i x Hi Hc. unfold newest_message. rewrite Hr, Hacc. by eapply Kpub.
  - intros Hc. eapply covers_le; [apply Hle |]. unfold covers. rewrite Hacc. by apply Kt.
Qed.

Lemma knowledge_set es lo m ps c p pc :
  knowledge es lo m ps c → producer_knows m p pc → knowledge es lo m (<[p := pc]> ps) c.
Proof using Hk. intros [] Hpc. split; [| done..]. intros p' pc' [[<- <-] | [_ ?]]%lookup_insert_Some; eauto. Qed.

Lemma knowledge_delete es lo m ps c p :
  knowledge es lo m ps c → knowledge es lo m (delete p ps) c.
Proof using Hk. intros []. split; [| done..]. intros p' pc' [_ ?]%lookup_delete_Some; eauto. Qed.

(** The histories do not depend on what producers have seen; the consumer only
    sees more. *)
Lemma histories_same arr es lo m m' :
  histories_ok arr es lo m → hist m' = hist m →
  view_le (views m CONSUMER) (views m' CONSUMER) → (seen (views m' CONSUMER) HEAD < length (hist m HEAD))%nat →
  histories_ok arr es lo m'.
Proof using Hk.
  intros [Hhl Hh Htl Ht Hr Hc] Heq [Hle _] Hlt. split; rewrite ?Heq; try done.
  - intros s sl Hs. destruct (Hr s sl Hs) as (ms & msg & H1 & H2 & H3). exists ms, msg. rewrite Heq.
    specialize (Hle (READY s)). split_and!; [done | done |].
    destruct (ready sl); [| lia]. destruct H3 as (ms' & old & ? & ? & ?). exists ms', old. split_and!; (done || lia).
  - specialize (Hle HEAD). lia.
Qed.

(** A thread has seen more. *)
Lemma weak_seen_more arr es lo q t v :
  weak_inv_at arr es lo q → view_ok es lo (mem q) v → view_le (views (mem q) t) v →
  weak_inv_at arr es lo (WeakQueue (set_view (mem q) t v) (cells q) (pushing q) (popping q)).
Proof using Hk.
  intros [Hsc Hcells [Hbot Hthr Hmsgs] Hh Hk'] Hv Hle.
  assert (∀ t', view_le (views (mem q) t') (upd (views (mem q)) t v t')) as Hle'.
  { intros t'. unfold upd. by destruct (Nat.eqb_spec t' t) as [-> |]. }
  assert (∀ u, view_ok es lo (mem q) u → view_ok es lo (set_view (mem q) t v) u) as Hmono by (intros u []; by split).
  assert (∀ t', view_ok es lo (mem q) (upd (views (mem q)) t v t')) as Hthr'.
  { intros t'. unfold upd. by destruct (t' =? t)%nat. }
  split; cbn [mem cells pushing popping]; try done.
  - split; [by apply Hmono | intros t'; apply Hmono, Hthr' | intros l i msg Hi; by eapply Hmono, Hmsgs].
  - eapply histories_same; [done | done | apply Hle' | apply (vo_seen _ _ _ _ (Hthr' _))].
  - by eapply knowledge_mono.
Qed.

(** Another raw slot less. *)
Lemma views_ok_free es es' lo m :
  views_ok es lo m → (∀ i, free es' lo i → free es lo i) → views_ok es' lo m.
Proof using Hk.
  intros [Hb Ht Hm] Hf. assert (∀ v, view_ok es lo m v → view_ok es' lo m v) as Hmono.
  { intros v Hv. eapply raw_view_mono; eauto. }
  split; eauto.
Qed.

(** *** A new message

    Thread [t] has appended a message with the view [w] to location [l]. *)
Record appended m (t l : nat) (x : Z) w m' : Prop := Appended {
  ap_hist : hist m' = upd (hist m) l (hist m l ++ [Message x w]);
  ap_accesses : accesses m' = accesses m;
  ap_views : ∀ t', view_le (views m t') (views m' t');
  ap_head : l ≠ HEAD → ∀ t', seen (views m' t') HEAD = seen (views m t') HEAD;
  ap_seen : seen (views m' t) l = length (hist m l)
}.

Lemma appended_other m t l x w m' l' : appended m t l x w m' → l' ≠ l → hist m' l' = hist m l'.
Proof using Hk. intros Ha Hne. rewrite (ap_hist _ _ _ _ _ _ Ha). by apply upd_ne. Qed.

Lemma appended_at m t l x w m' : appended m t l x w m' → hist m' l = hist m l ++ [Message x w].
Proof using Hk. intros Ha. rewrite (ap_hist _ _ _ _ _ _ Ha). apply upd_eq. Qed.

Lemma appended_length m t l x w m' l' :
  appended m t l x w m' → (length (hist m l') ≤ length (hist m' l'))%nat.
Proof using Hk.
  intros Ha. destruct (decide (l' = l)) as [-> | Hne]; [| by rewrite (appended_other _ _ _ _ _ _ l' Ha Hne)].
  rewrite (appended_at _ _ _ _ _ _ Ha), length_app. lia.
Qed.

(** The view a thread has after it has appended to [l]. *)
Lemma stored_view es lo m m' t l x w v :
  view_ok es lo m v → appended m t l x w m' → l ≠ HEAD →
  view_ok es lo m' (View (upd (seen v) l (length (hist m l))) (clk v)).
Proof using Hk.
  intros Hv Ha Hl. apply view_ok_seen; [| | by left].
  - eapply raw_view_mono; [exact Hv | intros l'; by eapply appended_length |].
    intros i Hi _. by rewrite (ap_accesses _ _ _ _ _ _ Ha).
  - rewrite (appended_at _ _ _ _ _ _ Ha), length_app. simpl. lia.
Qed.

(** An append that leaves every view correct, and whose own two views are. *)
Lemma appended_views es lo es' lo' m m' t l x w v :
  views_ok es lo m → appended m t l x w m' → (∀ u, view_ok es lo m u → view_ok es' lo' m' u) →
  views m' = upd (views m) t v → view_ok es' lo' m' v → view_ok es' lo' m' w → views_ok es' lo' m'.
Proof using Hk.
  intros [Hb Ht Hm] Ha Hmono Hviews Hv Hw. split; [by apply Hmono | |].
  - intros t'. rewrite Hviews. unfold upd. destruct (t' =? t)%nat; [done | by apply Hmono].
  - intros l' i msg. destruct (decide (l' = l)) as [-> | Hne].
    + rewrite (appended_at _ _ _ _ _ _ Ha). intros [Hi | [_ ->]]%lookup_snoc_Some_inv; [by eapply Hmono, Hm | done].
    + rewrite (appended_other _ _ _ _ _ _ l' Ha Hne). intros Hi. by eapply Hmono, Hm.
Qed.

Lemma appended_mono es lo m m' t l x w v : appended m t l x w m' → view_ok es lo m v → view_ok es lo m' v.
Proof using Hk.
  intros Ha Hv. eapply raw_view_mono; [exact Hv | intros l'; by eapply appended_length |].
  intros i Hi _. by rewrite (ap_accesses _ _ _ _ _ _ Ha).
Qed.

(** A store; its message keeps what the thread knows when it is a release. *)
Lemma store_appended m o t l x :
  (seen (views m t) l ≤ length (hist m l))%nat →
  let v := View (upd (seen (views m t)) l (length (hist m l))) (clk (views m t)) in
  appended m t l x (released o v l (length (hist m l))) (store o m t l x) ∧
  views (store o m t l x) = upd (views m) t v ∧ view_le (views m t) v.
Proof using Hk.
  intros Hseen v. pose proof (view_le_seen _ _ _ Hseen : view_le _ v) as Hle. split; [| done].
  split; [done | done | | |].
  - intros t'. cbn [views store]. unfold upd at 1. by destruct (Nat.eqb_spec t' t) as [-> |].
  - intros Hl t'. cbn [views store]. unfold upd at 1. destruct (Nat.eqb_spec t' t) as [-> |]; [| done].
    cbn [seen]. apply upd_ne. congruence.
  - cbn [views store]. rewrite upd_eq. apply upd_eq.
Qed.

Lemma thread_seen es lo m t l : views_ok es lo m → (seen (views m t) l ≤ length (hist m l))%nat.
Proof using Hk. intros Hv. pose proof (vo_seen _ _ _ _ (vo_threads _ _ _ Hv t) l). lia. Qed.

(** A store to a flag or to the tail. *)
Lemma stored_views es lo m o t l x :
  views_ok es lo m → l ≠ HEAD → views_ok es lo (store o m t l x).
Proof using Hk.
  intros Hv Hl. destruct (store_appended m o t l x (thread_seen _ _ _ _ _ Hv)) as (Ha & Hviews & _).
  eapply (appended_views _ _ _ _ _ _ _ _ _ _ _ Hv Ha); [by intros; eapply appended_mono | exact Hviews | |].
  - eapply stored_view; [apply Hv | exact Ha | done].
  - destruct o; try (eapply (stored_view _ _ _ _ _ _ _ _ bottom); [apply Hv | exact Ha | done]).
    eapply stored_view; [apply Hv | exact Ha | done].
Qed.

(** A new message on the flag of slot [s]. *)
Lemma histories_ready arr es es' lo m m' t s x w sl :
  histories_ok arr es lo m → appended m t (READY s) x w m' → hi es' lo = hi es lo →
  ready_ok m' s (ready sl) → histories_ok (<[s := sl]> arr) es' lo m'.
Proof using Hk.
  intros [Hhl Hh Htl Ht Hr Hc] Ha Hhi Hready.
  pose proof (λ l' H, appended_other _ _ _ _ _ _ l' Ha H) as Ho.
  split; rewrite ?Ho by done; rewrite ?Hhi; try done.
  - intros s' sl' [(<- & <- & _) | [Hne Hs]]%list_lookup_insert_Some; [done |].
    destruct (Hr s' sl' Hs) as (ms & msg & H1 & H2 & H3). exists ms, msg.
    rewrite Ho by (unfold READY; lia). split_and!; [done | done |].
    pose proof (proj1 (ap_views _ _ _ _ _ _ Ha CONSUMER) (READY s')).
    destruct (ready sl'); [| lia]. destruct H3 as (ms' & old & ? & ? & ?). exists ms', old. split_and!; (done || lia).
  - by rewrite (ap_head _ _ _ _ _ _ Ha).
Qed.

(** ** Steps of a producer *)

Definition sound es lo (r : outcome (weak_queue T * option (event T))) : Prop :=
  ∃ q' e es' lo', r = Ret (q', e) ∧ weak_inv es' lo' q' ∧ effect e es es' lo lo'.

Lemma sound_quiet_step arr es lo q' :
  weak_inv_at arr es lo q' → sound es lo (Ret (q', None)).
Proof using Hk. intros Hq'. do 4 eexists. split; [done |]. split; [by exists arr | apply (effect_none k Hk)]. Qed.

(** A producer that owns no ticket goes on to a point where it owns none. *)
Lemma producer_goes arr es lo q p pc :
  weak_inv_at arr es lo q → (∀ old, pushing q !! p = Some old → ticket old = None) →
  ticket pc = None → producer_ok k es lo pc → producer_knows (mem q) p pc →
  weak_inv_at arr es lo (WeakQueue (mem q) (cells q) (<[p := pc]> (pushing q)) (popping q)).
Proof using Hk.
  intros [Hsc Hcells Hv Hh Hkn] Hold Hpc Hok Hknows. split; try done.
  - apply (inv_set_producers k Hk _ _ _ (<[p := pc]> (pushing q)) Hsc).
    apply (producers_insert k Hk); [apply Hsc | done | done | done].
  - by apply knowledge_set.
Qed.

Lemma producer_leaves arr es lo q p pc :
  weak_inv_at arr es lo q → pushing q !! p = Some pc → ticket pc = None →
  weak_inv_at arr es lo (WeakQueue (mem q) (cells q) (delete p (pushing q)) (popping q)).
Proof using Hk.
  intros [Hsc Hcells Hv Hh Hkn] Hp Hpc. split; try done.
  - apply (inv_set_producers k Hk _ _ _ (delete p (pushing q)) Hsc).
    eapply (producers_delete k Hk); [apply Hsc | exact Hp | done].
  - by apply knowledge_delete.
Qed.

(** A load of the tail, or a failed compare-exchange: any tail there has been. *)
Lemma tail_loaded arr es lo q p i x m (pc : Z → producer_pc T) :
  weak_inv_at arr es lo q → load Relaxed (mem q) (PRODUCER p) TAIL i = Some (x, m) →
  (∀ old, pushing q !! p = Some old → ticket old = None) →
  (∀ t, ticket (pc t) = None) → (∀ t, 0 ≤ t ≤ hi es lo → producer_ok k es lo (pc t)) →
  (∀ t m, producer_knows m p (pc t)) →
  weak_inv_at arr es lo (WeakQueue m (cells q) (<[p := pc x]> (pushing q)) (popping q)).
Proof using Hk.
  intros Hinv Hload Hold Htk Hok Hknows. pose proof (wi_histories _ _ _ _ Hinv) as Hh.
  destruct (loaded _ _ _ _ _ _ _ _ _ _ (wi_views _ _ _ _ Hinv) Hh Hload ltac:(by left))
    as (v & msg & -> & Hmsg & -> & Hv & Hle & _ & _).
  pose proof (weak_seen_more _ _ _ _ _ _ Hinv Hv Hle) as Hinv'.
  apply (producer_goes _ _ _ _ p _ Hinv'); [done | done | | done]. apply Hok.
  rewrite (ho_tail _ _ _ _ Hh _ _ Hmsg). apply lookup_lt_Some in Hmsg.
  pose proof (ho_tail_len _ _ _ _ Hh). lia.
Qed.

(** The load of the head, which must be an acquire: where there is room, the
    producer knows that the slot it may claim is raw. *)
Lemma head_loaded arr es lo q p i x t b h m :
  weak_inv_at arr es lo q → pushing q !! p = Some (P_load_head x t b) →
  load Acquire (mem q) (PRODUCER p) HEAD i = Some (h, m) →
  weak_inv_at arr es lo (WeakQueue m (cells q)
    (if SIZE k <=? t -u64 h then delete p (pushing q) else <[p := P_cas x t b]> (pushing q)) (popping q)).
Proof using Hk.
  intros Hinv Hp Hload. pose proof (wi_histories _ _ _ _ Hinv) as Hh. pose proof (wi_newest _ _ _ _ Hinv) as Hsc.
  destruct (loaded _ _ _ _ _ _ _ _ _ _ (wi_views _ _ _ _ Hinv) Hh Hload ltac:(by right; left))
    as (v & msg & -> & Hmsg & -> & Hv & Hle & Hi & _).
  pose proof (weak_seen_more _ _ _ _ _ _ Hinv Hv Hle) as Hinv'.
  rewrite (proj1 (ho_head _ _ _ _ Hh _ _ Hmsg)). apply lookup_lt_Some in Hmsg.
  pose proof (ho_head_len _ _ _ _ Hh). pose proof (pow_k_lt k Hk). pose proof (pow_k_pos k Hk).
  pose proof (po_each _ _ _ _ (inv_producers _ _ _ _ Hsc) p _ Hp) as Hok. simpl in Hok.
  pose proof (inv_bound _ _ _ _ Hsc) as Hb. unfold SIZE.
  destruct (Z.leb_spec (2 ^ k) (t -u64 Z.of_nat i)) as [| Hroom].
  - by eapply (producer_leaves _ _ _ _ p _ Hinv').
  - assert (t - Z.of_nat i < 2 ^ k) as Hroom'.
    { destruct (Z.lt_ge_cases t (Z.of_nat i)); [lia |]. rewrite u64_small in Hroom; [done |].
      unfold in_u64, hi in *. lia. }
    apply (producer_goes _ _ _ _ p _ Hinv'); [| done | | ].
    + intros old Hold. cbn [pushing] in Hold. by rewrite Hp in Hold; injection Hold as <-.
    + simpl. split; [done |]. unfold hi in *. lia.
    + simpl. rewrite upd_eq. lia.
Qed.

Lemma knowledge_es es es' lo m ps c :
  (∀ i x, es' !! i = Some (x, Published) → es !! i = Some (x, Published)) →
  knowledge es lo m ps c → knowledge es' lo m ps c.
Proof using Hk. intros Hes []. split; eauto. Qed.

(** A relaxed read-modify-write appends after the newest message. *)
Lemma rmw_appended es lo m t l f x m' :
  views_ok es lo m → l ≠ HEAD → rmw false false m t l f = Some (x, m') →
  ∃ w msg, newest_message m l = Some msg ∧ x = msg_value msg ∧
    appended m t l (f x) w m' ∧ views_ok es lo m'.
Proof using Hk.
  intros Hv Hl. unfold rmw, newest_message.
  destruct (hist m l !! (length (hist m l) - 1)%nat) as [msg |] eqn:Hmsg; [| done].
  intros [= <- <-]. set (n := length (hist m l)) in *.
  exists (join (View (upd (λ _, 0%nat) l n) (λ _, 0%nat)) (msg_view msg)), msg.
  split; [done |]. split; [done |]. match goal with |- ?P ∧ _ => assert P as Ha end.
  { split; [done | done | | |].
    - intros t'. cbn [views]. unfold upd at 1. destruct (Nat.eqb_spec t' t) as [-> |]; [| done].
      apply view_le_seen. pose proof (vo_seen _ _ _ _ (vo_threads _ _ _ Hv t) l). lia.
    - intros _ t'. cbn [views]. unfold upd at 1. destruct (Nat.eqb_spec t' t) as [-> |]; [| done].
      cbn [seen]. apply upd_ne. congruence.
    - cbn [views]. rewrite upd_eq. apply upd_eq. }
  split; [exact Ha |].
  eapply (appended_views _ _ _ _ _ _ _ _ _ _ _ Hv Ha); [by intros; eapply appended_mono | done | |].
  - eapply stored_view; [apply Hv | exact Ha | done].
  - apply raw_view_join; [eapply (stored_view _ _ _ _ _ _ _ _ bottom); [apply Hv | exact Ha | done] |].
    eapply appended_mono; [exact Ha | by eapply Hv].
Qed.

Lemma histories_tail arr es es' lo m m' t w :
  histories_ok arr es lo m → appended m t TAIL (hi es lo + 1) w m' → hi es' lo = hi es lo + 1 →
  histories_ok arr es' lo m'.
Proof using Hk.
  intros [Hhl Hh Htl Ht Hr Hc] Ha Hhi. pose proof (λ l' H, appended_other _ _ _ _ _ _ l' Ha H) as Ho.
  pose proof (appended_at _ _ _ _ _ _ Ha) as Hat.
  split; rewrite ?(Ho HEAD) by done; rewrite ?Hat; try done.
  - rewrite length_app. simpl. lia.
  - intros i msg [Hi | [-> ->]]%lookup_snoc_Some_inv; [by apply Ht | simpl; lia].
  - intros s sl Hs. destruct (Hr s sl Hs) as (ms & msg & H1 & H2 & H3). exists ms, msg.
    rewrite Ho by (unfold READY, TAIL; lia). split_and!; [done | done |].
    pose proof (proj1 (ap_views _ _ _ _ _ _ Ha CONSUMER) (READY s)).
    destruct (ready sl); [| lia]. destruct H3 as (ms' & old & ? & ? & ?). exists ms', old. split_and!; (done || lia).
  - by rewrite (ap_head _ _ _ _ _ _ Ha).
Qed.

(** The successful compare-exchange: the producer's ticket is the newest tail. *)
Lemma claimed_ticket arr es lo q p x t b m :
  weak_inv_at arr es lo q → hi es lo + 1 < 2 ^ 64 → pushing q !! p = Some (P_cas x t b) →
  rmw false false (mem q) (PRODUCER p) TAIL (λ _, t +u64 1) = Some (t, m) →
  weak_inv_at arr (es ++ [(x, Claimed)]) lo
    (WeakQueue m (cells q) (<[p := P_construct x t]> (pushing q)) (popping q)).
Proof using Hk.
  intros [Hsc Hcells Hv Hh Hkn] Hb Hp Hrmw.
  destruct (rmw_appended _ _ _ _ TAIL _ _ _ Hv ltac:(done) Hrmw) as (w & msg & Hmsg & Hval & Ha & Hv').
  pose proof (ho_tail _ _ _ _ Hh _ _ Hmsg) as Ht. pose proof (ho_tail_len _ _ _ _ Hh) as Hlen.
  pose proof (inv_lo _ _ _ _ Hsc) as Hlo.
  assert (t = hi es lo) as -> by (unfold hi in *; lia).
  assert (hi (es ++ [(x, Claimed)]) lo = hi es lo + 1) as Hhi by (unfold hi; rewrite length_app; simpl; lia).
  pose proof (po_each _ _ _ _ (inv_producers _ _ _ _ Hsc) p _ Hp) as [_ Hroom].
  pose proof (kn_producers _ _ _ _ _ Hkn _ _ Hp) as Hknows.
  rewrite u64_small in Ha by (unfold in_u64, hi in *; lia).
  split; cbn [mem cells pushing popping]; [| done | | |].
  - pose proof (inv_claim k Hk _ _ _ _ _ _ _ Hsc Hb (Hroom eq_refl) Hp) as Hclaim.
    rewrite u64_small in Hclaim by (unfold in_u64, hi in *; lia).
    unfold newest. rewrite Hhi. exact Hclaim.
  - apply (views_ok_free es); [done |]. intros i. unfold free.
    destruct (es !! Z.to_nat (i - lo)) as [xs |] eqn:Hes; [by rewrite (lookup_app_l_Some _ _ _ _ Hes) | tauto].
  - eapply histories_tail; eauto.
  - apply knowledge_set.
    + apply (knowledge_es es).
      { intros i y [? | [_ ?]]%lookup_snoc_Some_inv; [done |]. by simplify_eq. }
      eapply knowledge_mono; [exact Hkn | apply Ha | apply Ha |].
      intros s. by apply (appended_other _ _ _ _ _ _ _ Ha).
    + simpl in *. by rewrite (ap_head _ _ _ _ _ _ Ha).
Qed.

(** *** Accesses to elements *)

Lemma slot_ne lo i j : lo ≤ i < lo + 2 ^ k → lo ≤ j < lo + 2 ^ k → i ≠ j → slot k i ≠ slot k j.
Proof using Hk. intros Hi Hj Hne Heq. apply Hne, (slot_inj k Hk); [lia | done]. Qed.

(** Thread [t] has accessed the slot of counter [j], which is raw no longer. *)
Lemma accessed_views es es' lo m m' t j :
  views_ok es lo m → accessed m t (slot k j) m' → lo ≤ j < lo + 2 ^ k →
  (∀ i, free es' lo i → free es lo i ∧ i ≠ j) → views_ok es' lo m'.
Proof using Hk.
  intros [Hb Ht Hm] Ha Hj Hf.
  assert (∀ u u', view_ok es lo m u → view_le u u' → (∀ l, seen u' l = seen u l) → view_ok es' lo m' u') as Hmono.
  { intros u u' [Hs Hc] Hle Hseen. split.
    - intros l. by rewrite (ac_hist _ _ _ _ Ha), Hseen.
    - intros i Hi. rewrite Hseen. intros Hi'. destruct (Hf i Hi) as [Hi2 Hne]. eapply covers_le; [exact Hle |].
      unfold covers. rewrite (ac_accesses _ _ _ _ Ha) by (apply (slot_ne lo); [apply Hi2 | done | done]). by apply Hc. }
  split.
  - by apply (Hmono bottom).
  - intros t'. apply (Hmono _ _ (Ht t')); [by eapply accessed_le |].
    intros l. destruct (decide (t' = t)) as [-> | Hne]; [apply Ha | by rewrite (ac_views _ _ _ _ Ha)].
  - intros l i msg. rewrite (ac_hist _ _ _ _ Ha). intros Hi. by apply (Hmono (msg_view msg)); [eapply Hm | |].
Qed.

Lemma accessed_histories arr es lo m m' t s :
  histories_ok arr es lo m → accessed m t s m' → histories_ok arr es lo m'.
Proof using Hk.
  intros Hh Ha. eapply histories_same; [exact Hh | apply Ha | by eapply accessed_le |].
  assert (seen (views m' CONSUMER) HEAD = seen (views m CONSUMER) HEAD) as ->.
  { destruct (decide (CONSUMER = t)) as [<- | Hne]; [apply Ha | by rewrite (ac_views _ _ _ _ Ha)]. }
  pose proof (ho_consumer _ _ _ _ Hh). pose proof (ho_head_len _ _ _ _ Hh). lia.
Qed.

(** Written tickets are in the window. *)
Lemma written_window arr es lo q p x t :
  weak_inv_at arr es lo q → pushing q !! p = Some (P_set_ready x t) →
  lo ≤ t < lo + 2 ^ k ∧ es !! Z.to_nat (t - lo) = Some (x, Written).
Proof using Hk.
  intros [Hsc _ _ _ _] Hp. pose proof (inv_len _ _ _ _ Hsc).
  destruct (ticket_range k Hk _ _ _ _ _ (po_each _ _ _ _ (inv_producers _ _ _ _ Hsc) p _ Hp) eq_refl) as [Hr ?].
  unfold hi in Hr. split; [lia | done].
Qed.

Lemma accessed_knowledge arr es lo q m' t j :
  weak_inv_at arr es lo q → accessed (mem q) t (slot k j) m' → lo ≤ j < lo + 2 ^ k →
  (∀ x, es !! Z.to_nat (j - lo) ≠ Some (x, Written)) →
  (∀ x, es !! Z.to_nat (j - lo) = Some (x, Published) → j = lo ∧ taking (popping q) = true) →
  (taking (popping q) = true → j = lo → t = CONSUMER) →
  knowledge es lo m' (pushing q) (popping q).
Proof using Hk.
  intros Hinv Ha Hj Hnw Hpub Hcons. pose proof (wi_knowledge _ _ _ _ Hinv) as [Kp Kpub Kt].
  pose proof (inv_len _ _ _ _ (wi_newest _ _ _ _ Hinv)) as Hl. pose proof (pow_k_pos k Hk). split.
  - intros p pc Hp. eapply producer_knows_mono; [by apply Kp | by eapply accessed_le |].
    intros x u ->. destruct (written_window _ _ _ _ _ _ _ Hinv Hp) as [Hu Hes].
    apply Ha, (slot_ne lo); [done | done |]. intros ->. by apply (Hnw x).
  - intros i x Hi Hc. destruct (Kpub i x Hi Hc) as (msg & Hmsg & Hcov). exists msg.
    unfold newest_message in *. rewrite (ac_hist _ _ _ _ Ha). split; [done |].
    pose proof (lookup_lt_Some _ _ _ Hi). unfold covers. rewrite (ac_accesses _ _ _ _ Ha); [done |].
    apply (slot_ne lo); [lia | done |]. intros Heq. subst j.
    replace (Z.to_nat (lo + Z.of_nat i - lo)) with i in * by lia.
    destruct (Hpub x Hi) as [Hlo Htk]. destruct Hc as [Hc | Hc]; [lia | congruence].
  - intros Htk. specialize (Kt Htk). destruct (decide (j = lo)) as [-> | Hne].
    + rewrite (Hcons Htk eq_refl) in *. apply Ha.
    + eapply covers_le; [by eapply accessed_le |]. unfold covers.
      rewrite (ac_accesses _ _ _ _ Ha); [done |]. apply (slot_ne lo); [lia | done | done].
Qed.

(** The consumer that is taking an element has its ticket at the head. *)
Lemma taking_published arr es lo q :
  weak_inv_at arr es lo q → taking (popping q) = true → ∃ x, es !! 0%nat = Some (x, Published).
Proof using Hk.
  intros [Hsc _ _ _ _] Htk. pose proof (inv_consumer _ _ _ _ Hsc) as Hc. simpl in Hc.
  destruct (popping q); simpl in *; try done; destruct Hc as [_ Hc]; eauto.
Qed.

(** The owner of a claimed ticket may construct the element: no access races. *)
Lemma constructed arr es lo q p x t :
  weak_inv_at arr es lo q → pushing q !! p = Some (P_construct x t) →
  ∃ m st, access (mem q) (PRODUCER p) (index k t) = Ret m ∧ construct_at (cells q) (index k t) x = Ret st ∧
    es !! Z.to_nat (t - lo) = Some (x, Claimed) ∧
    weak_inv_at (<[index k t := MkSlot (Live x) false]> arr) (<[Z.to_nat (t - lo) := (x, Written)]> es) lo
      (WeakQueue m st (<[p := P_set_ready x t]> (pushing q)) (popping q)).
Proof using Hk.
  intros Hinv Hp. pose proof Hinv as [Hsc Hcells Hv Hh Hkn]. pose proof (inv_len _ _ _ _ Hsc) as Hl.
  destruct (inv_constructed k Hk _ _ _ _ _ _ Hsc Hp) as ([Hr Hes] & Hslot & Hsc'). cbn [m_array newest] in Hslot.
  unfold hi in Hr. assert (index k t = slot k t) as Hix by apply (mask_slot_eq k Hk).
  assert (free es lo t) as Hfree by (unfold free; rewrite Hes; split; [lia | done]).
  destruct (access_covered (mem q) (PRODUCER p) (slot k t)) as (m & Hm & Ha).
  { apply Hv; [done |]. apply (kn_producers _ _ _ _ _ Hkn _ _ Hp). }
  exists m, (<[slot k t := Live x]> (cells q)). rewrite Hix in *. split; [done |]. split.
  { apply construct_at_raw. by rewrite Hcells, list_lookup_fmap, Hslot. }
  split; [done |]. pose proof (lookup_lt_Some _ _ _ Hes) as Hlt.
  split; cbn [mem cells pushing popping].
  - unfold newest, hi in *. rewrite length_insert. exact Hsc'.
  - by rewrite list_fmap_insert, Hcells.
  - eapply accessed_views; [exact Hv | exact Ha | lia |]. intros i [Hi Hst].
    destruct (decide (i = t)) as [-> | Hne]; [by rewrite list_lookup_insert_eq in Hst |].
    rewrite list_lookup_insert_ne in Hst by lia. split; [by split | done].
  - pose proof (accessed_histories _ _ _ _ _ _ _ Hh Ha) as [H1 H2 H3 H4 H5 H6].
    split; try done; [by unfold hi in *; rewrite length_insert |].
    intros s sl [(<- & <- & _) | [_ ?]]%list_lookup_insert_Some; [apply (H5 _ _ Hslot) | eauto].
  - apply knowledge_set; [| apply Ha]. apply (knowledge_es es).
    { intros i y [(_ & ? & _) | [_ ?]]%list_lookup_insert_Some; [congruence | done]. }
    eapply accessed_knowledge; [exact Hinv | exact Ha | lia | congruence | congruence |].
    intros Htk ->. destruct (taking_published _ _ _ _ Hinv Htk) as [y Hy].
    rewrite Z.sub_diag in Hes. change (Z.to_nat 0) with 0%nat in Hes. congruence.
Qed.

Lemma newest_at m l ms msg : hist m l = ms ++ [msg] → newest_message m l = Some msg.
Proof using Hk. destruct m. apply newest_message_snoc. Qed.

(** The release store of the flag passes on what the producer knows. *)
Lemma published arr es lo q p x t :
  weak_inv_at arr es lo q → pushing q !! p = Some (P_set_ready x t) →
  es !! Z.to_nat (t - lo) = Some (x, Written) ∧
  weak_inv_at (<[index k t := MkSlot (Live x) true]> arr) (<[Z.to_nat (t - lo) := (x, Published)]> es) lo
    (WeakQueue (store Release (mem q) (PRODUCER p) (READY (index k t)) 1) (cells q)
       (delete p (pushing q)) (popping q)).
Proof using Hk.
  intros Hinv Hp. pose proof Hinv as [Hsc Hcells Hv Hh Hkn]. pose proof (inv_len _ _ _ _ Hsc) as Hl.
  destruct (inv_published k Hk _ _ _ _ _ _ Hsc Hp) as ([Hr Hes] & Hslot & Hsc'). cbn [m_array newest] in Hslot.
  unfold hi in Hr. assert (index k t = slot k t) as Hix by apply (mask_slot_eq k Hk). rewrite Hix in *.
  split; [done |]. pose proof (lookup_lt_Some _ _ _ Hes) as Hlt.
  destruct (store_appended (mem q) Release (PRODUCER p) (READY (slot k t)) 1 (thread_seen _ _ _ _ _ Hv))
    as (Ha & _ & Hw). cbn [released] in Ha. set (w := View _ _) in *.
  pose proof (stored_views _ _ _ Release (PRODUCER p) (READY (slot k t)) 1 Hv ltac:(done)) as Hv'.
  set (m := store _ _ _ _ _) in *. split; cbn [mem cells pushing popping].
  - unfold newest, hi in *. rewrite length_insert. exact Hsc'.
  - rewrite list_fmap_insert, Hcells. symmetry. apply list_insert_id. by rewrite list_lookup_fmap, Hslot.
  - apply (views_ok_free es); [done |]. intros i [Hi Hst]. split; [done |].
    destruct (decide (Z.to_nat (i - lo) = Z.to_nat (t - lo))) as [Heq | Hne].
    + by rewrite Heq, list_lookup_insert_eq in Hst.
    + by rewrite list_lookup_insert_ne in Hst.
  - eapply (histories_ready _ es); [exact Hh | exact Ha | by unfold hi; rewrite length_insert |].
    destruct (ho_ready _ _ _ _ Hh _ _ Hslot) as (ms & msg & H1 & H2 & H3). cbn [ready] in *.
    exists (ms ++ [msg]), (Message 1 w). rewrite (appended_at _ _ _ _ _ _ Ha), H1.
    split_and!; [done | done |]. exists ms, msg. split_and!; [done | done |].
    pose proof (proj1 (ap_views _ _ _ _ _ _ Ha CONSUMER) (READY (slot k t))). lia.
  - destruct Hkn as [Kp Kpub Kt]. split.
    + intros p' pc [_ Hp']%lookup_delete_Some. eapply producer_knows_mono; [by apply Kp | apply Ha | done].
    + intros i y Hi Hc. destruct (decide (i = Z.to_nat (t - lo))) as [-> | Hne].
      * replace (lo + Z.of_nat (Z.to_nat (t - lo))) with t by lia. exists (Message 1 w).
        split; [by eapply newest_at, appended_at |]. eapply covers_le; [exact Hw |]. by apply (Kp _ _ Hp).
      * rewrite list_lookup_insert_ne in Hi by done. destruct (Kpub i y Hi Hc) as (msg & Hmsg & Hcov).
        exists msg. pose proof (lookup_lt_Some _ _ _ Hi). unfold newest_message.
        rewrite (appended_other _ _ _ _ _ _ (READY (slot k (lo + Z.of_nat i))) Ha); [done |].
        intros Heq. injection Heq as Heq. apply (slot_inj k Hk) in Heq; lia.
    + intros Htk. eapply covers_le; [apply Ha | by apply Kt].
Qed.

(** ** Steps of the consumer *)

Lemma knowledge_taking es lo m ps c c' :
  knowledge es lo m ps c → taking c' = taking c → knowledge es lo m ps c'.
Proof using Hk. intros [] Htk. split; [done | rewrite Htk; eauto | by rewrite Htk]. Qed.

(** The consumer goes on and touches no element. *)
Lemma consumer_goes arr es lo q c :
  weak_inv_at arr es lo q → consumer_ok c es lo → slot_of c es lo lo = slot_of (popping q) es lo lo →
  knowledge es lo (mem q) (pushing q) c →
  weak_inv_at arr es lo (WeakQueue (mem q) (cells q) (pushing q) c).
Proof using Hk.
  intros [Hsc Hcells Hv Hh Hkn] Hc Hslot Hkn'. split; try done.
  by apply (inv_set_consumer k Hk _ _ _ c Hsc).
Qed.

(** The consumer alone writes the head: it reads the newest. *)
Lemma own_head arr es lo q i x m :
  weak_inv_at arr es lo q → load Relaxed (mem q) CONSUMER HEAD i = Some (x, m) →
  x = lo ∧ weak_inv_at arr es lo (WeakQueue m (cells q) (pushing q) (popping q)).
Proof using Hk.
  intros Hinv Hload. pose proof (wi_histories _ _ _ _ Hinv) as Hh.
  destruct (loaded _ _ _ _ _ _ _ _ _ _ (wi_views _ _ _ _ Hinv) Hh Hload ltac:(by right; right))
    as (v & msg & -> & Hmsg & -> & Hv & Hle & Hi & _). split; [| by apply weak_seen_more].
  rewrite (proj1 (ho_head _ _ _ _ Hh _ _ Hmsg)). apply lookup_lt_Some in Hmsg.
  pose proof (ho_consumer _ _ _ _ Hh). pose proof (ho_head_len _ _ _ _ Hh). lia.
Qed.

(** A flag read as set is the newest: the oldest ticket is published, and the
    consumer now knows its accesses. *)
Lemma flag_read arr es lo q i x m :
  weak_inv_at arr es lo q → popping q = C_load_ready lo →
  load Acquire (mem q) CONSUMER (READY (index k lo)) i = Some (x, m) →
  weak_inv_at arr es lo (WeakQueue m (cells q) (pushing q) (if x =? 0 then C_idle else C_move lo)).
Proof using Hk.
  intros Hinv Hpc Hload. pose proof (wi_histories _ _ _ _ Hinv) as Hh.
  destruct (loaded _ _ _ _ _ _ _ _ _ _ (wi_views _ _ _ _ Hinv) Hh Hload ltac:(by left))
    as (v & msg & -> & Hmsg & -> & Hv & Hle & Hi & Hacq). specialize (Hacq eq_refl).
  pose proof (weak_seen_more _ _ _ _ _ _ Hinv Hv Hle) as Hinv'.
  assert (index k lo = slot k lo) as Hix by apply (mask_slot_eq k Hk).
  destruct (Z.eqb_spec (msg_value msg) 0) as [Hzero | Hset].
  { apply (consumer_goes _ _ _ _ _ Hinv'); [done | by cbn; rewrite Hpc |].
    eapply knowledge_taking; [apply Hinv' |]. cbn [popping]. by rewrite Hpc. }
  pose proof (head_slot k Hk _ _ _ (wi_newest _ _ _ _ Hinv)) as Hslot. cbn [m_array newest consumer] in Hslot.
  destruct (ho_ready _ _ _ _ Hh _ _ Hslot) as (ms & last & Hhist & Hval & Hold). rewrite Hpc in *.
  assert (ready (slot_of (C_load_ready lo) es lo lo) = true ∧ msg = last) as [Hready ->].
  { rewrite Hhist in Hmsg. apply lookup_snoc_Some_inv in Hmsg as [Hmsg | [-> ->]].
    - pose proof (lookup_lt_Some _ _ _ Hmsg). destruct (ready _); [| lia].
      destruct Hold as (ms' & old & -> & H0 & Hlen). rewrite length_app in *. simpl in *.
      apply lookup_snoc_Some_inv in Hmsg as [Hmsg | [_ ->]]; [| done].
      pose proof (lookup_lt_Some _ _ _ Hmsg). lia.
    - split; [| done]. by destruct (ready _). }
  assert (∃ y, es !! 0%nat = Some (y, Published)) as [y Hy].
  { unfold slot_of in Hready. rewrite Z.sub_diag in Hready. change (Z.to_nat 0) with 0%nat in Hready.
    destruct (es !! 0%nat) as [[y []] |]; try done. eauto. }
  apply (consumer_goes _ _ _ _ _ Hinv'); [simpl; eauto | done |].
  destruct (wi_knowledge _ _ _ _ Hinv') as [Kp Kpub Kt]. cbn [mem pushing popping] in *.
  split; [done | intros i' z Hz [? | ?]; [by apply (Kpub i' z Hz); left | done] |]. intros _.
  destruct (Kpub 0%nat y Hy) as (msg & Hnew & Hcov); [by right |].
  change (Z.of_nat 0) with 0 in *. rewrite Z.add_0_r, <-Hix in *.
  rewrite (newest_at (set_view (mem q) CONSUMER v) _ _ _ Hhist) in Hnew. injection Hnew as <-.
  cbn [views set_view accesses] in *. rewrite upd_eq. by eapply covers_le.
Qed.

(** The consumer works on the oldest element: no access races. *)
Lemma consumer_accesses arr es lo q x c s :
  weak_inv_at arr ((x, Published) :: es) lo q → taking (popping q) = true → taking c = true →
  consumer_ok c ((x, Published) :: es) lo → slot_of c ((x, Published) :: es) lo lo = s →
  ready s = ready (slot_of (popping q) ((x, Published) :: es) lo lo) →
  ∃ m, access (mem q) CONSUMER (index k lo) = Ret m ∧
    cells q !! index k lo = Some (data (slot_of (popping q) ((x, Published) :: es) lo lo)) ∧
    weak_inv_at (<[index k lo := s]> arr) ((x, Published) :: es) lo
      (WeakQueue m (<[index k lo := data s]> (cells q)) (pushing q) c).
Proof using Hk.
  intros Hinv Htk Htk' Hok Hs Hready. pose proof Hinv as [Hsc Hcells Hv Hh Hkn].
  pose proof (head_slot k Hk _ _ _ Hsc) as Hslot. cbn [m_array newest consumer] in Hslot.
  assert (index k lo = slot k lo) as Hix by apply (mask_slot_eq k Hk). pose proof (pow_k_pos k Hk).
  destruct (access_covered (mem q) CONSUMER (slot k lo)) as (m & Hm & Ha); [by apply Hkn |].
  exists m. rewrite <-Hix in Hm, Ha. split; [done |]. split; [by rewrite Hcells, list_lookup_fmap, Hslot |].
  split; cbn [mem cells pushing popping].
  - by apply (inv_consumer_slot k Hk _ _ _ _ _ _ Hsc).
  - by rewrite list_fmap_insert, Hcells.
  - rewrite Hix in Ha. eapply accessed_views; [exact Hv | exact Ha | lia |]. intros i [Hi Hst]. split; [by split |].
    intros ->. by rewrite Z.sub_diag in Hst.
  - pose proof (accessed_histories _ _ _ _ _ _ _ Hh Ha) as [H1 H2 H3 H4 H5 H6]. split; try done.
    intros s' sl [(<- & <- & _) | [_ ?]]%list_lookup_insert_Some; [| eauto]. rewrite Hready. by apply H5.
  - apply (knowledge_taking _ _ _ _ (popping q)); [| by rewrite Htk']. rewrite Hix in Ha.
    eapply accessed_knowledge; [exact Hinv | exact Ha | lia | | done | done].
    intros y. by rewrite Z.sub_diag.
Qed.

(** Clearing the flag, with whatever order. *)
Lemma flag_cleared arr es lo q x o out :
  weak_inv_at arr ((x, Published) :: es) lo q → popping q = C_clear_ready lo out →
  weak_inv_at (<[index k lo := MkSlot Raw false]> arr) ((x, Published) :: es) lo
    (WeakQueue (store o (mem q) CONSUMER (READY (index k lo)) 0) (cells q) (pushing q) (C_store_head lo out)).
Proof using Hk.
  intros [Hsc Hcells Hv Hh Hkn] Hpc. pose proof (inv_len _ _ _ _ Hsc) as Hl.
  pose proof (head_slot k Hk _ _ _ Hsc) as Hslot. cbn [m_array newest consumer] in Hslot.
  assert (index k lo = slot k lo) as Hix by apply (mask_slot_eq k Hk). pose proof (pow_k_pos k Hk).
  pose proof (inv_consumer _ _ _ _ Hsc) as Hok. simpl in Hok. rewrite Hpc in *.
  destruct (store_appended (mem q) o CONSUMER (READY (index k lo)) 0 (thread_seen _ _ _ _ _ Hv)) as (Ha & _ & _).
  set (w := released _ _ _ _) in *.
  pose proof (stored_views _ _ _ o CONSUMER (READY (index k lo)) 0 Hv ltac:(done)) as Hv'.
  set (m := store _ _ _ _ _) in *. split; cbn [mem cells pushing popping]; [| | done | |].
  - apply (inv_consumer_slot k Hk _ _ _ _ _ _ Hsc); [done |]. unfold slot_of. by rewrite Z.sub_diag, Z.eqb_refl.
  - rewrite list_fmap_insert, Hcells. symmetry. apply list_insert_id. rewrite list_lookup_fmap, Hslot.
    unfold slot_of. by rewrite Z.sub_diag, Z.eqb_refl.
  - eapply (histories_ready _ ((x, Published) :: es)); [exact Hh | exact Ha | done |].
    exists (hist (mem q) (READY (index k lo))), (Message 0 w). split_and!; [by apply (appended_at _ _ _ _ _ _ Ha) | done |].
    cbn [ready]. rewrite (ap_seen _ _ _ _ _ _ Ha). lia.
  - eapply (knowledge_taking _ _ _ _ (C_clear_ready lo out)); [| done]. destruct Hkn as [Kp Kpub Kt]. split.
    + intros p' pc Hp'. eapply producer_knows_mono; [by apply Kp | apply Ha | done].
    + intros i y Hi Hc. destruct (Kpub i y Hi Hc) as (msg & Hmsg & Hcov). destruct Hc as [Hne | ?]; [| done].
      exists msg. pose proof (lookup_lt_Some _ _ _ Hi). unfold newest_message.
      rewrite (appended_other _ _ _ _ _ _ (READY (slot k (lo + Z.of_nat i))) Ha); [done |].
      rewrite Hix. intros Heq. injection Heq as Heq. apply (slot_inj k Hk) in Heq; [lia |].
      cbn [length] in *. lia.
    + intros Htk. eapply covers_le; [apply Ha | by apply Kt].
Qed.

(** The release store of the head gives the slot back, with all its accesses. *)
Lemma head_stored_views x es lo m :
  views_ok ((x, Published) :: es) lo m → Z.of_nat (seen (views m CONSUMER) HEAD) = lo →
  Z.of_nat (length (hist m HEAD)) = lo + 1 → covers (views m CONSUMER) (accesses m) (slot k lo) →
  views_ok es (lo + 1) (store Release m CONSUMER HEAD (lo +u64 1)).
Proof using Hk.
  intros Hv Hseen Hlen Hcov.
  destruct (store_appended m Release CONSUMER HEAD (lo +u64 1) (thread_seen _ _ _ _ _ Hv)) as (Ha & Hviews & Hle).
  cbn [released] in Ha. set (w := View _ _) in *. set (m' := store _ _ _ _ _) in *.
  assert (∀ i, free es (lo + 1) i → i ≠ lo + 2 ^ k → free ((x, Published) :: es) lo i) as Hfree.
  { unfold free. intros i [Hi Hst] Hne. split; [lia |].
    by replace (Z.to_nat (i - lo)) with (S (Z.to_nat (i - (lo + 1)))) by lia. }
  assert (∀ u, view_ok ((x, Published) :: es) lo m u → view_ok es (lo + 1) m' u) as Hmono.
  { intros u Hu. eapply raw_view_mono; [exact Hu | intros l'; by eapply appended_length |].
    intros i Hi Hle'. pose proof (vo_seen _ _ _ _ Hu HEAD). split; [apply Hfree; [done | lia] |].
    by rewrite (ap_accesses _ _ _ _ _ _ Ha). }
  assert (view_ok es (lo + 1) m' w) as Hw.
  { split.
    - intros l. pose proof (vo_seen _ _ _ _ (vo_threads _ _ _ Hv CONSUMER) l) as Hs. cbn [seen w]. unfold upd.
      destruct (Nat.eqb_spec l HEAD) as [-> | Hne].
      + rewrite (appended_at _ _ _ _ _ _ Ha), length_app. simpl. lia.
      + by rewrite (appended_other _ _ _ _ _ _ l Ha Hne).
    - intros i Hi Hle'. eapply covers_le; [exact Hle |]. rewrite (ap_accesses _ _ _ _ _ _ Ha).
      destruct (decide (i = lo + 2 ^ k)) as [-> | Hne]; [by rewrite (slot_plus_cap k Hk) |].
      apply (vo_free _ _ _ _ (vo_threads _ _ _ Hv CONSUMER)); [by apply Hfree |].
      destruct Hi as [Hi _]. lia. }
  by eapply appended_views.
Qed.

Lemma head_stored_histories arr x es lo m w :
  histories_ok arr ((x, Published) :: es) lo m → 0 ≤ lo → lo + 1 < 2 ^ 64 →
  appended m CONSUMER HEAD (lo +u64 1) w (store Release m CONSUMER HEAD (lo +u64 1)) →
  seen w HEAD = length (hist m HEAD) →
  histories_ok arr es (lo + 1) (store Release m CONSUMER HEAD (lo +u64 1)).
Proof using Hk.
  intros [Hhl Hh Htl Ht Hr Hc] Hlo Hb Ha Hw. rewrite u64_small in * by (unfold in_u64; lia).
  set (m' := store _ _ _ _ _) in *. pose proof (λ l' H, appended_other _ _ _ _ _ _ l' Ha H) as Ho.
  pose proof (appended_at _ _ _ _ _ _ Ha) as Hat. split; rewrite ?(Ho TAIL) by done; rewrite ?Hat; try done.
  - rewrite length_app. simpl. lia.
  - intros i msg [Hi | [-> ->]]%lookup_snoc_Some_inv; [by apply Hh | simpl; split; [lia | done]].
  - rewrite Htl. unfold hi. simpl. lia.
Qed.

Lemma head_stored arr es lo q x out :
  weak_inv_at arr ((x, Published) :: es) lo q → popping q = C_store_head lo out →
  weak_inv_at arr es (lo + 1)
    (WeakQueue (store Release (mem q) CONSUMER HEAD (lo +u64 1)) (cells q) (pushing q) C_idle).
Proof using Hk.
  intros [Hsc Hcells Hv Hh Hkn] Hpc. pose proof Hh as [Hhl _ _ _ _ Hc].
  pose proof (inv_lo _ _ _ _ Hsc) as Hlo. pose proof (inv_bound _ _ _ _ Hsc) as Hb. unfold hi in Hb. cbn [length] in Hb.
  destruct (store_appended (mem q) Release CONSUMER HEAD (lo +u64 1) (thread_seen _ _ _ _ _ Hv)) as (Ha & _ & _).
  cbn [released] in Ha. assert (taking (popping q) = true) as Htk by (by rewrite Hpc).
  assert (hi ((x, Published) :: es) lo = hi es (lo + 1)) as Hhi by (unfold hi; simpl; lia).
  split; cbn [mem cells pushing popping]; [| done | | |].
  - pose proof (inv_store_head k Hk _ _ _ _ _ Hsc Hpc) as Hsc'.
    rewrite u64_small in Hsc' by (unfold in_u64; lia). unfold newest in *. rewrite <-Hhi. exact Hsc'.
  - apply (head_stored_views x); [done | done | done |]. by apply Hkn.
  - eapply head_stored_histories; [exact Hh | lia | lia | exact Ha | apply upd_eq].
  - destruct Hkn as [Kp Kpub Kt]. split; [| | done].
    + intros p pc Hp. eapply producer_knows_mono; [by apply Kp | apply Ha | done].
    + intros i y Hi _. destruct (Kpub (S i) y Hi) as (msg & Hmsg & Hcov); [by left |]. exists msg.
      replace (lo + 1 + Z.of_nat i) with (lo + Z.of_nat (S i)) by lia. unfold newest_message.
      by rewrite (appended_other _ _ _ _ _ _ (READY _) Ha).
Qed.

Hypothesis Hords : orders_enough ords.

Lemma weak_try_push_sound es lo q p i sp :
  weak_inv es lo q → hi es lo + 1 < 2 ^ 64 → sound es lo (weak_push_step k ords q p i sp).
Proof using Hk Hords.
  intros [arr Hinv] Hb. unfold weak_push_step.
  destruct (pushing q !! p) as [pc |] eqn:Hp; [| by eapply sound_quiet_step].
  assert (∀ old, ticket pc = None → pushing q !! p = Some old → ticket old = None) as Hold by (intros; congruence).
  destruct pc as [x | x t b | x t b | x t b | x t | x t].
  - destruct (load _ _ _ _ _) as [[t m] |] eqn:Hload; [| by eapply sound_quiet_step].
    eapply sound_quiet_step, (tail_loaded _ _ _ _ _ _ _ _ (λ t, P_load_head x t 1) Hinv Hload); try done; eauto.
  - rewrite (proj1 (oe_head _ Hords)). destruct (load _ _ _ _ _) as [[h m] |] eqn:Hload; [| by eapply sound_quiet_step].
    pose proof (head_loaded _ _ _ _ _ _ _ _ _ _ _ Hinv Hp Hload) as Hinv'.
    destruct (SIZE k <=? t -u64 h); do 4 eexists; (split; [done |]; split; [by eexists | apply (effect_none k Hk)]).
  - destruct (cas _ _ _ _ _ _ _) as [[[ok t'] m] |] eqn:Hcas; [| by eapply sound_quiet_step].
    apply cas_inv in Hcas as [(-> & _ & -> & Hrmw) | [-> Hload]].
    + do 4 eexists. split; [done |]. split; [eexists; by eapply claimed_ticket |].
      unfold effect, claimed, popped, hi. rewrite fmap_app, length_app. simpl. split; [done | lia].
    + eapply sound_quiet_step, (tail_loaded _ _ _ _ _ _ _ _ (λ t, P_backoff x t b) Hinv Hload); try done; eauto.
  - eapply sound_quiet_step, (producer_goes _ _ _ _ p _ Hinv); try done; eauto.
    apply (po_each _ _ _ _ (inv_producers _ _ _ _ (wi_newest _ _ _ _ Hinv)) p _ Hp).
  - destruct (constructed _ _ _ _ _ _ _ Hinv Hp) as (m & st & -> & Hst & Hes & Hinv'). cbn [obind].
    rewrite Hst. cbn [obind]. do 4 eexists. split; [done |]. split; [by eexists |].
    by eapply (effect_update k Hk _ _ (x, Written)).
  - rewrite (proj2 (oe_ready _ Hords)). destruct (published _ _ _ _ _ _ _ Hinv Hp) as [Hes Hinv'].
    do 4 eexists. split; [done |]. split; [by eexists |]. by eapply (effect_update k Hk _ _ (x, Published)).
Qed.

Lemma weak_try_pop_sound es lo q i : weak_inv es lo q → sound es lo (weak_pop_step k ords q i).
Proof using Hk Hords.
  intros [arr Hinv]. unfold weak_pop_step. pose proof (inv_consumer _ _ _ _ (wi_newest _ _ _ _ Hinv)) as Hc. simpl in Hc.
  destruct (popping q) as [| |h|h|h x|h x|h x] eqn:Hpc; simpl in Hc; [by eapply sound_quiet_step | ..].
  - destruct (load _ _ _ _ _) as [[h m] |] eqn:Hload; [| by eapply sound_quiet_step].
    destruct (own_head _ _ _ _ _ _ _ Hinv Hload) as [-> Hinv']. rewrite Hpc in *.
    eapply sound_quiet_step, (consumer_goes _ _ _ _ _ Hinv'); [done | done |].
    eapply knowledge_taking; [apply Hinv' | done].
  - subst h. rewrite (proj1 (oe_ready _ Hords)).
    destruct (load _ _ _ _ _) as [[x m] |] eqn:Hload; [| by eapply sound_quiet_step].
    pose proof (flag_read _ _ _ _ _ _ _ Hinv Hpc Hload) as Hinv'.
    destruct (x =? 0); do 4 eexists; (split; [done |]; split; [by eexists | apply (effect_none k Hk)]).
  - destruct Hc as [-> [x Hx]]. destruct es as [| xs es]; [done |]. injection Hx as ->.
    destruct (consumer_accesses arr es lo q x (C_destroy lo x) (MkSlot Moved true) Hinv) as (m & -> & Hcell & Hinv');
      rewrite ?Hpc; unfold slot_of in *; rewrite ?Z.sub_diag, ?Z.eqb_refl in *; try done.
    rewrite Hpc in Hcell. cbn [obind]. rewrite (move_from_live _ _ _ Hcell). by eapply sound_quiet_step.
  - destruct Hc as [-> Hx]. destruct es as [| xs es]; [done |]. injection Hx as ->.
    destruct (consumer_accesses arr es lo q x (C_clear_ready lo x) (MkSlot Raw true) Hinv) as (m & -> & Hcell & Hinv');
      rewrite ?Hpc; unfold slot_of in *; rewrite ?Z.sub_diag, ?Z.eqb_refl in *; try done.
    rewrite Hpc in Hcell. cbn [obind]. rewrite (destroy_at_moved _ _ Hcell). by eapply sound_quiet_step.
  - destruct Hc as [-> Hx]. destruct es as [| xs es]; [done |]. injection Hx as ->.
    by eapply sound_quiet_step, flag_cleared.
  - destruct Hc as [-> Hx]. destruct es as [| xs es]; [done |]. injection Hx as ->.
    rewrite (proj2 (oe_head _ Hords)). do 4 eexists. split; [done |]. split; [eexists; by eapply head_stored |].
    unfold effect, hi. simpl. rewrite app_nil_r. split; [done | lia].
Qed.

Lemma weak_mpsc_sound es lo q a :
  weak_inv es lo q → hi es lo + 1 < 2 ^ 64 → sound es lo (weak_exec k ords q a).
Proof using Hk Hords.
  intros Hq Hb. pose proof Hq as [arr Hinv]. destruct a as [p x | p i sp | | i]; simpl.
  - destruct (pushing q !! p) as [pc |] eqn:Hp; [by eapply sound_quiet_step |].
    eapply sound_quiet_step, (producer_goes _ _ _ _ p _ Hinv); try done. intros old. by rewrite Hp.
  - by apply weak_try_push_sound.
  - destruct (popping q) eqn:Hpc; try (by eapply sound_quiet_step).
    eapply sound_quiet_step, (consumer_goes _ _ _ _ _ Hinv); [done | by rewrite Hpc |].
    eapply knowledge_taking; [apply Hinv | by rewrite Hpc].
  - by apply weak_try_pop_sound.
Qed.

Lemma weak_mpsc_init : weak_inv [] 0 (weak_init k).
Proof using Hk.
  assert (view_ok [] 0 (init_memory 0) bottom) as Hbot.
  { split; [intros; simpl; lia |]. intros i _ _ t c Hin. by apply elem_of_nil in Hin. }
  exists (replicate (Z.to_nat (SIZE k)) (MkSlot Raw false)). split; simpl.
  - exact (mpsc_inv_init k Hk).
  - by rewrite fmap_replicate.
  - split; [done | done |]. intros l i msg [-> <-]%list_lookup_singleton_Some. done.
  - split; simpl; try done.
    + intros i msg [-> <-]%list_lookup_singleton_Some. done.
    + intros i msg [-> <-]%list_lookup_singleton_Some. done.
    + intros s sl [-> _]%lookup_replicate_1. exists [], (Message 0 bottom). split_and!; [done | done | simpl; lia].
  - by split.
Qed.

(** The values claimed and popped along a schedule. *)
Lemma weak_mpsc_run acts es lo q :
  weak_inv es lo q → hi es lo + zlen acts < 2 ^ 64 →
  ∃ q' evs es' lo', run_schedule (weak_exec k ords) q acts = Ret (q', evs) ∧ weak_inv es' lo' q' ∧
    es.*1 ++ claimed evs = popped evs ++ es'.*1.
Proof using Hk Hords.
  revert es lo q. induction acts as [| a acts IH]; intros es lo q Hq Hb; cbn [run_schedule].
  { exists q, [], es, lo. split_and!; [done | done | by rewrite app_nil_r]. }
  cbn [length] in Hb.
  destruct (weak_mpsc_sound es lo q a Hq ltac:(lia)) as (q1 & e & es1 & lo1 & -> & Hq1 & He1 & He2). cbn [obind].
  assert (zlen (claimed (option_list e)) ≤ 1) by (destruct e as [[] |]; simpl; lia).
  destruct (IH es1 lo1 q1 Hq1 ltac:(lia)) as (q' & evs & es' & lo' & -> & Hq' & Heq). cbn [obind].
  exists q', (option_list e ++ evs), es', lo'. split; [by destruct e |]. split; [done |].
  unfold claimed, popped in *. rewrite !omap_app. by rewrite (assoc_L (++)), He1, <-!(assoc_L (++)), Heq.
Qed.
End Invariant.

(** ** Claims and completed pushes *)

Section Tickets.
Context {T : Type} (k : Z) (ords : orders).
Implicit Types (q : weak_queue T).

(** The push that producer [p] has claimed a ticket for and not yet completed. *)
Definition under_way q (p : nat) : list T :=
  match pushing q !! p with
  | Some (P_construct x _) | Some (P_set_ready x _) => [x]
  | _ => []
  end.

Lemma under_way_other q q' p : pushing q' !! p = pushing q !! p → under_way q' p = under_way q p.
Proof. unfold under_way. by intros ->. Qed.

Lemma weak_pop_pushing q q' i e :
  weak_pop_step k ords q i = Ret (q', e) → pushing q' = pushing q ∧
  (e = None ∨ e = Some Ev_pop_empty ∨ ∃ x, e = Some (Ev_pop x)).
Proof. unfold weak_pop_step, obind. intros H. split_match_in H; naive_solver. Qed.

Lemma weak_push_account q q' p i sp e p' :
  weak_push_step k ords q p i sp = Ret (q', e) →
  under_way q p' ++ claimed_by p' (option_list e) = pushed_by p' (option_list e) ++ under_way q' p'.
Proof.
  unfold weak_push_step. destruct (decide (p = p')) as [<- | Hne].
  - unfold under_way. destruct (pushing q !! p) as [pc |] eqn:Hpc; [| intros [= <- <-]; by rewrite Hpc].
    unfold obind. destruct pc; intros H; split_match_in H; simplify_eq/=;
      rewrite ?Hpc, ?lookup_insert_eq, ?lookup_delete_eq; try done.
    all: by rewrite decide_True.
  - intros H. unfold obind in H. rewrite (under_way_other q q' p').
    + split_match_in H; simplify_eq/=; rewrite ?decide_False by done; by rewrite ?app_nil_r.
    + split_match_in H; simplify_eq/=; by rewrite ?lookup_insert_ne, ?lookup_delete_ne.
Qed.

Lemma weak_exec_account q q' a e p :
  weak_exec k ords q a = Ret (q', e) →
  under_way q p ++ claimed_by p (option_list e) = pushed_by p (option_list e) ++ under_way q' p.
Proof.
  destruct a as [p' x | p' i sp | | i]; simpl.
  - destruct (pushing q !! p') eqn:Hpc; intros [= <- <-]; simpl; rewrite app_nil_r; [done |].
    unfold under_way. simpl. destruct (decide (p' = p)) as [-> | Hne].
    + by rewrite lookup_insert_eq, Hpc.
    + by rewrite lookup_insert_ne.
  - apply weak_push_account.
  - destruct (popping q); intros [= <- <-]; simpl; by rewrite app_nil_r.
  - intros H. destruct (weak_pop_pushing _ _ _ _ H) as [Hp He].
    rewrite (under_way_other q q' p) by (by rewrite Hp).
    destruct He as [-> | [-> | [x ->]]]; simpl; by rewrite app_nil_r.
Qed.

Lemma weak_schedule_account acts q evs p :
  run_schedule (weak_exec k ords) (weak_init k) acts = Ret (q, evs) →
  claimed_by p evs = pushed_by p evs ++ under_way q p.
Proof.
  intros Hrun. refine (run_schedule_invariant (weak_exec k ords) (λ _, True)
    (λ evs q, claimed_by p evs = pushed_by p evs ++ under_way q p) acts [] _ _ _ _ _ _ Hrun);
    [| by apply Forall_true | unfold under_way; simpl; by rewrite lookup_empty].
  intros es q0 a q1 e _ IH Ha. apply (weak_exec_account _ _ _ _ p) in Ha.
  unfold claimed_by, pushed_by in *. rewrite !omap_app, IH, <-(assoc_L (++)), Ha.
  by rewrite (assoc_L (++)).
Qed.
End Tickets.

(** * Properties *)

(** What the orders that matter guarantee. *)
Definition orders_work {T : Type} k (ords : orders) (acts : list (weak_action T)) : Prop :=
  ∃ q evs pending, run_schedule (weak_exec k ords) (weak_init k) acts = Ret (q, evs) ∧
    claimed evs = popped evs ++ pending ∧ zlen pending ≤ SIZE k ∧
    (∀ p, ∃ last, claimed_by p evs = pushed_by p evs ++ last ∧ (length last ≤ 1)%nat ∧
       (pushing q !! p = None → last = [])) ∧
    ∀ o t l, is_Some (load o (mem q) t l (length (hist (mem q) l) - 1)).

Lemma enough_work {T} k ords (acts : list (weak_action T)) :
  0 ≤ k < 64 → orders_enough ords → zlen acts < 2 ^ 64 → orders_work k ords acts.
Proof.
  intros Hk Hords Hlen.
  destruct (weak_mpsc_run k Hk ords Hords acts [] 0 _ (weak_mpsc_init k Hk)) as (q & evs & es & lo & Hrun & Hq & Heq).
  { unfold hi. simpl. lia. }
  destruct Hq as [arr Hinv]. exists q, evs, es.*1. split_and!; [done | done | | |].
  - rewrite length_fmap. apply (inv_len _ _ _ _ (wi_newest _ _ _ _ _ Hinv)).
  - intros p. exists (under_way q p). split; [by eapply weak_schedule_account |].
    unfold under_way. repeat case_match; simpl; split; done || lia.
  - intros o t l. pose proof (vo_seen _ _ _ _ _ (vo_threads _ _ _ _ (wi_views _ _ _ _ _ Hinv) t) l).
    apply load_newest; [| done]. intros Hnil. rewrite Hnil in *. simpl in *. lia.
Qed.

(** C7: the release and acquire orders of the code are enough.  Whatever the
    interleaving of any number of producers and one consumer, whichever old
    counters and flags the loads answer and whichever compare-exchanges fail, in
    every schedule of fewer than [2 ^ 64] steps no step is undefined: no two
    accesses to an element race, and none finds it in the wrong state.  The values
    claimed, in ticket order, are the values popped, each once, followed by at most
    [SIZE] pending; each producer's claims are its completed pushes, in its own
    order, and at most one under way; and no thread is ever without a message to
    read.  The relaxed load of the tail, of which a comment in [try_push] is
    unsure, is enough. *)
Theorem mpsc_orders_suffice {T} k (acts : list (weak_action T)) :
  0 ≤ k < 64 → zlen acts < 2 ^ 64 → orders_work k code_orders acts.
Proof. intros Hk. apply enough_work; [done | by repeat split]. Qed.

(** The release with which [try_pop] clears the flag is not needed: that of the
    head is the one a producer acquires. *)
Theorem mpsc_clear_may_be_relaxed {T} k (acts : list (weak_action T)) :
  0 ≤ k < 64 → zlen acts < 2 ^ 64 → orders_work k (Orders Acquire Release Acquire Relaxed Release) acts.
Proof. intros Hk. apply enough_work; [done | by repeat split]. Qed.

(** Producer 1 pushes, the consumer pops, producer 2 reuses the slot. *)
Definition reuse : list (weak_action nat) :=
  [WeakPush 1 5; WeakProducer 1 0 false; WeakProducer 1 0 false; WeakProducer 1 0 false;
   WeakProducer 1 0 false; WeakProducer 1 0 false;
   WeakPop; WeakConsumer 0; WeakConsumer 1; WeakConsumer 0; WeakConsumer 0; WeakConsumer 0; WeakConsumer 0;
   WeakPush 2 6; WeakProducer 2 1 false; WeakProducer 2 1 false; WeakProducer 2 1 false;
   WeakProducer 2 0 false; WeakProducer 2 0 false]%nat.

(** None of the other four orders can be relaxed. *)
Theorem mpsc_orders_needed :
  Forall (λ o, run_schedule (weak_exec 0 o) (weak_init 0) reuse = Undef)
    [Orders Relaxed Release Acquire Release Release; Orders Acquire Relaxed Acquire Release Release;
     Orders Acquire Release Relaxed Release Release; Orders Acquire Release Acquire Release Relaxed].
Proof. repeat constructor; vm_compute; reflexivity. Qed.

Example reuse_runs :
  (snd <$> match run_schedule (weak_exec 0 code_orders) (weak_init 0) reuse with Ret r => Some r | _ => None end)
  = Some [Ev_claim 1 5; Ev_push 1 5; Ev_pop 5; Ev_claim 2 6; Ev_push 2 6]%nat.
Proof. vm_compute. reflexivity. Qed.

(** A pop that reads the old flag answers empty although the push has returned,
    and a push that reads the old head answers full although the queue is empty. *)
Definition stale : list (weak_action nat) :=
  [WeakPush 1 5; WeakProducer 1 0 false; WeakProducer 1 0 false; WeakProducer 1 0 false;
   WeakProducer 1 0 false; WeakProducer 1 0 false;
   WeakPop; WeakConsumer 0; WeakConsumer 0;
   WeakPop; WeakConsumer 0; WeakConsumer 1; WeakConsumer 0; WeakConsumer 0; WeakConsumer 0; WeakConsumer 0;
   WeakPush 2 6; WeakProducer 2 1 false; WeakProducer 2 0 false]%nat.
Example stale_answers :
  (snd <$> match run_schedule (weak_exec 0 code_orders) (weak_init 0) stale with Ret r => Some r | _ => None end)
  = Some [Ev_claim 1 5; Ev_push 1 5; Ev_pop_empty; Ev_pop 5; Ev_push_full 2 6]%nat.
Proof. vm_compute. reflexivity. Qed.

Lemma mpsc_orders_suffice_witness : orders_work 0 code_orders reuse.
Proof. apply (mpsc_orders_suffice 0 reuse); [lia | simpl; lia]. Defined.

Lemma mpsc_clear_may_be_relaxed_witness :
  orders_work 0 (Orders Acquire Release Acquire Relaxed Release) reuse.
Proof. apply (mpsc_clear_may_be_relaxed 0 reuse); [lia | simpl; lia]. Defined.
