(* ===== verification/Orderbook.v ===== *)
(** * Orderbook: the limit order book and its matching engine

    Models [src/include/fiah/structs/Orderbook.hh].  The two sides of the book
    are [std::vector]s whose back is the best order; [AddOrder] matches an
    incoming order against the back of the opposite side and rests what remains.
    [int] arithmetic is checked ([chk_i32]); [std::ranges::lower_bound] is the
    binary search of the standard library. *)

From stdpp Require Import base tactics numbers list option sorting.
From Stdlib Require Import ZArith Lia.
From S2P Require Import Prelude.
#[local] Open Scope Z_scope.
#[local] Open Scope fiah_scope.

(** ** Data *)

Abbreviation Id := Z (only parsing).        (* size_t *)
Abbreviation Price := Z (only parsing).     (* long *)
Abbreviation Quantity := Z (only parsing).  (* int *)

Inductive Side : Type := BUY | SELL.

#[export] Instance Side_eq_dec : EqDecision Side.
Proof. solve_decision. Defined.

Record Order : Type := MkOrder {
  id_ : Id;
  level_ : Price;
  is_buy_ : bool;
  qty_ : Quantity;
  side_ : Side
}.

#[export] Instance Order_eq_dec : EqDecision Order.
Proof. solve_decision. Defined.

(** The constructor [Order(orderId, level, isBuy, quantity)]. *)
Definition new_Order (orderId : Id) (level : Price) (isBuy : bool) (quantity : Quantity) : Order :=
  MkOrder orderId level isBuy quantity (if isBuy then BUY else SELL).

Definition set_qty (o : Order) (new_qty : Quantity) : Order :=
  MkOrder (id_ o) (level_ o) (is_buy_ o) new_qty (side_ o).

Record Trade : Type := MkTrade {
  OrderIdA : Id;
  OrderIdB : Id;
  AggressorOrderId : Id;
  AggressorIsBuy : bool;
  Level : Price;
  Size : Quantity
}.

Record book : Type := Orderbook {
  bids_ : list Order;
  asks_ : list Order
}.

Definition empty_book : book := Orderbook [] [].

(** ** The standard algorithms the book calls *)

(** [std::ranges::lower_bound] on the elements [first, first + len) of [l]:
    halve the range on the outcome of [comp]. *)
Fixpoint lower_bound_loop {A} (fuel : nat) (comp : A → bool) (l : list A) (first len : nat)
  : outcome nat :=
  match fuel with
  | O => OutOfFuel
  | S fuel =>
      if (len =? 0)%nat then Ret first
      else
        let half := (len / 2)%nat in
        match l !! (first + half)%nat with
        | None => Undef
        | Some x =>
            if comp x
            then lower_bound_loop fuel comp l (first + half + 1) (len - half - 1)
            else lower_bound_loop fuel comp l first half
        end
  end.

Definition lower_bound {A} (comp : A → bool) (l : list A) : outcome nat :=
  lower_bound_loop (S (length l)) comp l 0 (length l).

(** [vector::insert(begin + pos, x)] *)
Definition insert_at {A} (pos : nat) (x : A) (l : list A) : list A :=
  take pos l ++ x :: drop pos l.

(** ** Operations *)

Definition can_match (buy sell : Order) : bool := level_ sell <=? level_ buy.

Definition is_dupe (ob : book) (order : Order) : bool :=
  let is_match := λ o, id_ o =? id_ order in
  existsb is_match (bids_ ob) || existsb is_match (asks_ ob).

Definition insert_order (ob : book) (order : Order) : outcome book :=
  if is_dupe ob order then Ret ob
  else if is_buy_ order then
    let! pos := lower_bound (λ o, level_ o <? level_ order) (bids_ ob) in
    Ret (Orderbook (insert_at pos order (bids_ ob)) (asks_ ob))
  else
    let! pos := lower_bound (λ o, level_ order <? level_ o) (asks_ ob) in
    Ret (Orderbook (bids_ ob) (insert_at pos order (asks_ ob))).

(** The trade of [trade_size] between the incoming order and the best order of
    the opposite side. *)
Definition make_trade (incoming best : Order) (trade_size : Quantity) : Trade :=
  let trade_price := if is_buy_ incoming then level_ best else level_ incoming in
  let aggressor_id := id_ incoming in
  let aggressor_is_buy := is_buy_ incoming in
  let bid_order_id := if is_buy_ incoming then id_ incoming else id_ best in
  let ask_order_id := if is_buy_ incoming then id_ best else id_ incoming in
  MkTrade bid_order_id ask_order_id aggressor_id aggressor_is_buy trade_price trade_size.

(** The [while] loop of [AddOrder] on the opposite side, the remaining quantity
    and the trades made. *)
Fixpoint match_loop (fuel : nat) (incoming : Order) (opposite_side : list Order)
  (remaining : Quantity) (trades : list Trade) : outcome (list Order * Quantity * list Trade) :=
  match fuel with
  | O => OutOfFuel
  | S fuel =>
      match last opposite_side with
      | None => Ret (opposite_side, remaining, trades)
      | Some best =>
          if negb (0 <? remaining) then Ret (opposite_side, remaining, trades) else
          let mtch := if is_buy_ incoming then can_match incoming best else can_match best incoming in
          if negb mtch then Ret (opposite_side, remaining, trades) else
          let trade_size := Z.min (qty_ best) remaining in
          let trades := trades ++ [make_trade incoming best trade_size] in
          let! best_qty := chk_i32 (qty_ best - trade_size) in
          let! remaining := chk_i32 (remaining - trade_size) in
          let best := set_qty best best_qty in
          let n := (length opposite_side - 1)%nat in
          let opposite_side := <[n := best]> opposite_side in
          let opposite_side := if qty_ best =? 0 then take n opposite_side else opposite_side in
          match_loop fuel incoming opposite_side remaining trades
      end
  end.

Definition AddOrder (ob : book) (incoming : Order) : outcome (list Trade * book) :=
  if is_dupe ob incoming then Ret ([], ob) else
  let opposite_side := if is_buy_ incoming then asks_ ob else bids_ ob in
  let! (opposite_side, remaining, trades) :=
    match_loop (S (length opposite_side)) incoming opposite_side (qty_ incoming) [] in
  let ob := if is_buy_ incoming then Orderbook (bids_ ob) opposite_side
            else Orderbook opposite_side (asks_ ob) in
  if 0 <? remaining then
    let! ob := insert_order ob (set_qty incoming remaining) in Ret (trades, ob)
  else Ret (trades, ob).

(** [std::ranges::find_if] followed by [erase]. *)
Fixpoint erase_first {A} (p : A → bool) (l : list A) : option (list A) :=
  match l with
  | [] => None
  | x :: l => if p x then Some l else cons x <$> erase_first p l
  end.

Definition CancelOrder (ob : book) (order_id : Id) : book :=
  let id_match := λ o, id_ o =? order_id in
  match erase_first id_match (bids_ ob) with
  | Some bids => Orderbook bids (asks_ ob)
  | None =>
      match erase_first id_match (asks_ ob) with
      | Some asks => Orderbook (bids_ ob) asks
      | None => ob
      end
  end.

(** ** Specification: price-time priority

    The abstract book lists each side best order first.  [rank] orders a side's
    prices: higher is better. *)

Definition rank (buy_side : bool) (o : Order) : Z :=
  if buy_side then level_ o else - level_ o.

Record abstract_book : Type := ABook { abids : list Order; aasks : list Order }.

Definition abstraction (ob : book) : abstract_book :=
  ABook (reverse (bids_ ob)) (reverse (asks_ ob)).

(** A new order queues behind every order at least as good: price, then time. *)
Fixpoint enqueue (buy_side : bool) (o : Order) (l : list Order) : list Order :=
  match l with
  | [] => [o]
  | x :: l => if rank buy_side x <? rank buy_side o then o :: x :: l
              else x :: enqueue buy_side o l
  end.

(** Match an order of the other side against the best orders first. *)
Fixpoint fill (incoming : Order) (l : list Order) (remaining : Quantity)
  : list Order * Quantity * list Trade :=
  match l with
  | [] => ([], remaining, [])
  | best :: l' =>
      let s := negb (is_buy_ incoming) in
      if (0 <? remaining) && (rank s incoming <=? rank s best) then
        if qty_ best <=? remaining then
          let '(l'', r, ts) := fill incoming l' (remaining - qty_ best) in
          (l'', r, make_trade incoming best (qty_ best) :: ts)
        else
          (set_qty best (qty_ best - remaining) :: l', 0, [make_trade incoming best remaining])
      else (l, remaining, [])
  end.

Definition spec_add (ab : abstract_book) (incoming : Order) : list Trade * abstract_book :=
  if existsb (λ o, id_ o =? id_ incoming) (abids ab ++ aasks ab) then ([], ab)
  else if is_buy_ incoming then
    let '(asks, r, ts) := fill incoming (aasks ab) (qty_ incoming) in
    (ts, ABook (if 0 <? r then enqueue true (set_qty incoming r) (abids ab) else abids ab) asks)
  else
    let '(bids, r, ts) := fill incoming (abids ab) (qty_ incoming) in
    (ts, ABook bids (if 0 <? r then enqueue false (set_qty incoming r) (aasks ab) else aasks ab)).

(** ** Well-formed books *)

Definition order_ok (buy_side : bool) (o : Order) : Prop :=
  is_buy_ o = buy_side ∧ side_ o = (if buy_side then BUY else SELL) ∧ 0 < qty_ o < 2 ^ 31.

(** One side, as stored: ranks never decrease towards the back. *)
Record side_ok (buy_side : bool) (l : list Order) : Prop := SideOk {
  so_sorted : StronglySorted (λ a b, rank buy_side a ≤ rank buy_side b) l;
  so_orders : Forall (order_ok buy_side) l
}.

(** A book the engine accepts: sorted sides of live orders, unique ids. *)
Record book_ok (ob : book) : Prop := BookOk {
  bo_bids : side_ok true (bids_ ob);
  bo_asks : side_ok false (asks_ ob);
  bo_ids : NoDup (id_ <$> bids_ ob ++ asks_ ob)
}.

(** No bid reaches an ask. *)
Definition uncrossed (ob : book) : Prop :=
  ∀ b a, b ∈ bids_ ob → a ∈ asks_ ob → level_ b < level_ a.

(** An order as its constructor builds it. *)
Definition input_ok (o : Order) : Prop :=
  side_ o = (if is_buy_ o then BUY else SELL) ∧ in_i32 (qty_ o).

Definition volume (l : list Order) : Z := foldr (λ o, Z.add (qty_ o)) 0 l.
Definition traded (ts : list Trade) : Z := foldr (λ t, Z.add (Size t)) 0 ts.

(** * Proofs *)

(** ** The binary search *)

Section LowerBound.
Context {A : Type} (comp : A → bool) (l : list A).
Hypothesis Hpart : ∀ i j x y, l !! i = Some x → l !! j = Some y → (i ≤ j)%nat →
  comp y = true → comp x = true.

Lemma lower_bound_loop_spec fuel first len :
  (len < fuel)%nat → (first + len ≤ length l)%nat →
  (∀ i x, (i < first)%nat → l !! i = Some x → comp x = true) →
  (∀ i x, (first + len ≤ i)%nat → l !! i = Some x → comp x = false) →
  ∃ pos, lower_bound_loop fuel comp l first len = Ret pos ∧ (pos ≤ length l)%nat ∧
    Forall (λ x, comp x = true) (take pos l) ∧ Forall (λ x, comp x = false) (drop pos l).
Proof using Hpart.
  revert first len. induction fuel as [| fuel IH]; intros first len Hfuel Hle Hlo Hhi; [lia |].
  cbn [lower_bound_loop]. destruct (Nat.eqb_spec len 0) as [-> | Hne].
  - exists first. split_and!; [done | lia | |]; apply Forall_lookup.
    + intros i x Hi. pose proof (lookup_lt_Some _ _ _ Hi) as Hlt. rewrite length_take in Hlt.
      rewrite lookup_take_lt in Hi by lia. eapply Hlo; [| done]. lia.
    + intros i x Hi. rewrite lookup_drop in Hi. eapply Hhi; [| done]. lia.
  - assert (len / 2 < len)%nat as Hhalf by (apply Nat.div_lt; lia).
    generalize dependent (len / 2)%nat. intros half Hhalf.
    destruct (lookup_lt_is_Some_2 l (first + half)) as [x Hx]; [lia |]. rewrite Hx.
    destruct (comp x) eqn:Hc.
    + apply IH; [lia | lia | |].
      * intros i y Hi Hy. eapply (Hpart i (first + half)); [done | done | lia | done].
      * intros i y Hi Hy. eapply Hhi; [| done]. lia.
    + apply IH; [lia | lia | done |].
      intros i y Hi Hy. destruct (comp y) eqn:Hy'; [| done].
      rewrite <-Hc. symmetry. eapply (Hpart _ i); [done | done | lia | done].
Qed.

Lemma lower_bound_partition :
  ∃ pos, lower_bound comp l = Ret pos ∧ (pos ≤ length l)%nat ∧
    Forall (λ x, comp x = true) (take pos l) ∧ Forall (λ x, comp x = false) (drop pos l).
Proof using Hpart.
  apply lower_bound_loop_spec; [lia | lia | lia |].
  intros i x Hi Hx%lookup_lt_Some. lia.
Qed.
End LowerBound.

Lemma lower_bound_ext {A} (c1 c2 : A → bool) l :
  (∀ x, c1 x = c2 x) → lower_bound c1 l = lower_bound c2 l.
Proof.
  intros Hc. enough (∀ fuel first len,
    lower_bound_loop fuel c1 l first len = lower_bound_loop fuel c2 l first len) as H by apply H.
  induction fuel as [| fuel IH]; intros first len; [done |]. cbn [lower_bound_loop].
  destruct (len =? 0)%nat; [done |]. destruct (l !! _); [| done]. rewrite Hc, !IH. done.
Qed.

(** ** One side of the book *)

Section OneSide.
Context (s : bool).
Implicit Types (o x : Order) (l : list Order).

Definition worse o x : bool := rank s x <? rank s o.

Lemma sorted_reverse l :
  StronglySorted (λ a b, rank s a ≤ rank s b) l ↔
  StronglySorted (λ a b, rank s b ≤ rank s a) (reverse l).
Proof.
  induction l as [| x l IH]; [split; constructor |].
  rewrite reverse_cons, StronglySorted_cons, StronglySorted_app, IH, Forall_forall. split.
  - intros [Hx Hl]. split_and!; [| done | by repeat constructor].
    intros a b Ha ->%list_elem_of_singleton. rewrite elem_of_reverse in Ha. by apply Hx.
  - intros (Hx & Hl & _). split; [| done].
    intros a Ha. apply Hx; [by apply elem_of_reverse | by apply list_elem_of_singleton].
Qed.

Lemma worse_partition o l :
  StronglySorted (λ a b, rank s a ≤ rank s b) l →
  ∀ i j x y, l !! i = Some x → l !! j = Some y → (i ≤ j)%nat →
    worse o y = true → worse o x = true.
Proof.
  unfold worse. intros Hl i j x y Hx Hy Hij Hc. zify_bool. apply Z.ltb_lt.
  destruct (decide (i = j)) as [-> | Hne]; [by simplify_eq |].
  assert (rank s x ≤ rank s y); [| lia].
  rewrite <-(take_drop_middle _ _ _ Hx) in Hl. apply StronglySorted_app in Hl as (_ & _ & Hl).
  apply StronglySorted_cons in Hl as [Hl _]. rewrite Forall_forall in Hl. apply Hl.
  apply list_elem_of_lookup. exists (j - S i)%nat. rewrite lookup_drop. rewrite <-Hy. f_equal. lia.
Qed.

Lemma enqueue_split o l1 l2 :
  Forall (λ x, worse o x = false) l1 → Forall (λ x, worse o x = true) l2 →
  enqueue s o (l1 ++ l2) = l1 ++ o :: l2.
Proof.
  intros H1 H2. induction H1 as [| x l1 Hx H1 IH]; simpl.
  - destruct H2 as [| x l2 Hx H2]; [done |]. simpl. unfold worse in Hx. by rewrite Hx.
  - unfold worse in Hx. by rewrite Hx, IH.
Qed.

(** Binary search and insertion implement queueing by price, then time. *)
Lemma insert_enqueue o l :
  StronglySorted (λ a b, rank s a ≤ rank s b) l →
  ∃ pos, lower_bound (worse o) l = Ret pos ∧ (pos ≤ length l)%nat ∧
    reverse (insert_at pos o l) = enqueue s o (reverse l).
Proof.
  intros Hl. destruct (lower_bound_partition (worse o) l (worse_partition o l Hl))
    as (pos & Hpos & Hle & Ht & Hd).
  exists pos. split_and!; [done | done |]. unfold insert_at.
  rewrite reverse_app, reverse_cons, <-(assoc_L (++)). simpl.
  rewrite <-(take_drop pos l) at 3. rewrite reverse_app. symmetry.
  apply enqueue_split; by apply Forall_reverse.
Qed.

Lemma enqueue_perm o l : enqueue s o l ≡ₚ o :: l.
Proof.
  induction l as [| x l IH]; simpl; [done |]. destruct (_ <? _); [done |].
  rewrite IH. apply perm_swap.
Qed.

Definition best_first l : Prop := StronglySorted (λ a b, rank s b ≤ rank s a) l.

Lemma enqueue_sorted o l : best_first l → best_first (enqueue s o l).
Proof.
  unfold best_first. induction l as [| x l IH]; simpl; [by repeat constructor |].
  intros [Hx Hl]%StronglySorted_cons. destruct (Z.ltb_spec (rank s x) (rank s o)).
  - rewrite !StronglySorted_cons, Forall_cons. split_and!; [lia | | done | done].
    eapply Forall_impl; [exact Hx |]. simpl. lia.
  - apply StronglySorted_cons. split; [| auto].
    rewrite enqueue_perm, Forall_cons. split; [lia | done].
Qed.

(** The abstract side: best first, live orders. *)
Definition aside_ok l : Prop := best_first l ∧ Forall (order_ok s) l.

Lemma side_ok_reverse l : side_ok s l ↔ aside_ok (reverse l).
Proof.
  unfold aside_ok, best_first. rewrite <-sorted_reverse, Forall_reverse.
  split; [by intros [] | by intros []].
Qed.

Lemma enqueue_ok o l : aside_ok l → order_ok s o → aside_ok (enqueue s o l).
Proof.
  intros [Hs Hl] Ho. split; [by apply enqueue_sorted |].
  rewrite enqueue_perm. by constructor.
Qed.
End OneSide.

Lemma rank_buy o x : worse true o x = (level_ x <? level_ o).
Proof. done. Qed.
Lemma rank_sell o x : worse false o x = (level_ o <? level_ x).
Proof. unfold worse, rank. destruct (Z.ltb_spec (level_ o) (level_ x)); lia. Qed.

(** ** Matching *)

Section Matching.
Context (incoming : Order).
#[local] Abbreviation s := (negb (is_buy_ incoming)).

(** The back of the vector is the head of the best-first list. *)
Lemma back_set (x y : Order) l :
  <[(length (reverse (x :: l)) - 1)%nat := y]> (reverse (x :: l)) = reverse (y :: l).
Proof.
  rewrite !reverse_cons, length_app. simpl.
  rewrite insert_app_r_alt by lia.
  by replace (length (reverse l) + 1 - 1 - length (reverse l))%nat with 0%nat by lia.
Qed.

Lemma back_pop (x y : Order) l :
  take (length (reverse (x :: l)) - 1) (reverse (y :: l)) = reverse l.
Proof.
  rewrite !reverse_cons, length_app. simpl. apply take_app_length'. lia.
Qed.

Lemma match_test best :
  (if is_buy_ incoming then can_match incoming best else can_match best incoming)
  = (rank s incoming <=? rank s best).
Proof.
  unfold can_match, rank. destruct (is_buy_ incoming); simpl; [| done].
  destruct (Z.leb_spec (level_ best) (level_ incoming)); lia.
Qed.

(** The loop of the code, from the back of the vector, is [fill] from the
    front of the best-first list; it neither overflows nor runs dry. *)
Lemma match_loop_fill fuel l r ts :
  Forall (order_ok s) l → in_i32 r → (length l < fuel)%nat →
  match_loop fuel incoming (reverse l) r ts =
  let '(l', r', ts') := fill incoming l r in Ret (reverse l', r', ts ++ ts').
Proof.
  revert fuel r ts. induction l as [| best l IH]; intros fuel r ts Hl Hr Hfuel;
    (destruct fuel as [| fuel]; [simpl in Hfuel; lia |]).
  { simpl. by rewrite app_nil_r. }
  apply Forall_cons in Hl as [(Hb & Hs & Hq) Hl]. cbn [match_loop fill length] in *.
  rewrite last_reverse. cbn [head]. rewrite match_test.
  destruct (Z.ltb_spec 0 r); cbn [negb andb]; [| by rewrite app_nil_r].
  destruct (rank s incoming <=? rank s best) eqn:Hm; cbn [negb andb]; [| by rewrite app_nil_r].
  unfold in_i32 in Hr.
  destruct (Z.leb_spec (qty_ best) r) as [Hle | Hgt].
  - rewrite Z.min_l, Z.sub_diag by done. rewrite (chk_i32_ok 0) by done. cbn [obind].
    rewrite chk_i32_ok by (unfold in_i32; lia). cbn [obind set_qty qty_].
    rewrite Z.eqb_refl, back_set, back_pop, IH by (try done; unfold in_i32; lia).
    destruct (fill incoming l (r - qty_ best)) as [[l' r'] ts'].
    by rewrite <-(assoc_L (++)).
  - rewrite Z.min_r, Z.sub_diag by lia.
    rewrite !chk_i32_ok by (unfold in_i32; lia). cbn [obind set_qty qty_].
    rewrite (proj2 (Z.eqb_neq _ 0)), back_set by lia.
    destruct fuel as [| fuel]; [lia |]. cbn [match_loop].
    by rewrite last_reverse.
Qed.

(** What matching never changes of a resting order. *)
Definition key (o : Order) : Id * Price := (id_ o, level_ o).

(** A trade the incoming order may make on a side with orders [l]: it names
    both orders, the incoming one as aggressor, trades a positive quantity at
    the price of the ask, and both limits allow that price. *)
Definition trade_ok (l : list Order) (t : Trade) : Prop :=
  ∃ x, x ∈ l ∧ rank s incoming ≤ rank s x ∧ 0 < Size t ≤ qty_ x ∧
    t = make_trade incoming x (Size t).

Lemma fill_idle l r : r ≤ 0 → fill incoming l r = (l, r, []).
Proof. intros Hr. destruct l as [| x l]; simpl; [done |]. by rewrite (proj2 (Z.ltb_ge 0 r)). Qed.

Lemma fill_correct l r l' r' ts :
  aside_ok s l → fill incoming l r = (l', r', ts) →
  aside_ok s l' ∧
  suffix (key <$> l') (key <$> l) ∧
  r = r' + traded ts ∧ volume l = volume l' + traded ts ∧
  (0 ≤ r → 0 ≤ r') ∧
  (0 < r' → Forall (λ x, rank s x < rank s incoming) l') ∧
  Forall (trade_ok l) ts.
Proof.
  unfold aside_ok, best_first. revert r l' r' ts.
  induction l as [| best l IH]; intros r l' r' ts [Hsort Hok] Hfill; cbn [fill] in Hfill.
  { injection Hfill as <- <- <-. split_and!; try done; try reflexivity; simpl; lia. }
  pose proof Hsort as [Hbest Hsort']%StronglySorted_cons.
  pose proof Hok as [(Hb & Hs & Hq) Hok']%Forall_cons.
  destruct ((0 <? r) && (rank s incoming <=? rank s best)) eqn:Hm.
  2: { injection Hfill as <- <- <-. split_and!; [done | done | reflexivity | simpl; lia.. | done | | constructor].
       intros Hr. zify_bool. rewrite (proj2 (Z.ltb_lt 0 r) Hr) in Hm. simpl in Hm. zify_bool.
       constructor; [lia |]. eapply Forall_impl; [exact Hbest |]. simpl. lia. }
  zify_bool. destruct (Z.leb_spec (qty_ best) r) as [Hle | Hgt].
  - destruct (fill incoming l (r - qty_ best)) as [[l'' r''] ts''] eqn:Hrec.
    injection Hfill as <- <- <-.
    destruct (IH _ _ _ _ (conj Hsort' Hok') Hrec) as ([? ?] & Hsuf & Hr & Hv & Hpos & Hno & Hts).
    split_and!; try done; try (simpl; lia).
    + by apply suffix_cons_r.
    + constructor.
      * exists best. simpl. split_and!; [constructor | done | lia | lia | done].
      * eapply Forall_impl; [exact Hts |]. intros t (x & Hx & ?). exists x. by split; [constructor |].
  - injection Hfill as <- <- <-. split_and!; try done; try (simpl; lia).
    + by constructor.
    + constructor; [| done]. unfold order_ok. simpl. split_and!; [done | done | lia | lia].
    + constructor; [| done]. exists best. simpl. split_and!; [constructor | done | lia | lia | done].
Qed.
End Matching.

(** ** Whole operations *)

Lemma existsb_ids id l : existsb (λ o, id_ o =? id) l = true ↔ id ∈ id_ <$> l.
Proof.
  split.
  - intros (o & Ho & He)%existsb_exists. apply list_elem_of_fmap.
    exists o. split; [lia | by apply list_elem_of_In].
  - intros (o & -> & Ho)%list_elem_of_fmap. apply existsb_exists.
    exists o. split; [by apply list_elem_of_In | apply Z.eqb_refl].
Qed.

Lemma is_dupe_ids ob o : is_dupe ob o = true ↔ id_ o ∈ id_ <$> bids_ ob ++ asks_ ob.
Proof. unfold is_dupe. rewrite <-existsb_app. apply existsb_ids. Qed.

Lemma is_dupe_spec ob o :
  existsb (λ x, id_ x =? id_ o) (abids (abstraction ob) ++ aasks (abstraction ob)) = is_dupe ob o.
Proof.
  apply Bool.eq_iff_eq_true. rewrite is_dupe_ids, existsb_ids. simpl.
  by rewrite !fmap_app, !elem_of_app, !fmap_reverse, !elem_of_reverse.
Qed.

Record abook_ok (ab : abstract_book) : Prop := ABookOk {
  ao_bids : aside_ok true (abids ab);
  ao_asks : aside_ok false (aasks ab);
  ao_ids : NoDup (id_ <$> abids ab ++ aasks ab)
}.

Lemma book_ok_abstraction ob : book_ok ob ↔ abook_ok (abstraction ob).
Proof.
  assert (id_ <$> bids_ ob ++ asks_ ob ≡ₚ id_ <$> abids (abstraction ob) ++ aasks (abstraction ob))
    as Hids by (simpl; by rewrite !reverse_Permutation).
  split; intros [H1 H2 H3]; split; try by apply side_ok_reverse.
  - by rewrite <-Hids.
  - by rewrite Hids.
Qed.

Lemma insert_order_refines ob o :
  side_ok true (bids_ ob) → side_ok false (asks_ ob) → is_dupe ob o = false →
  ∃ ob', insert_order ob o = Ret ob' ∧
    abstraction ob' =
      if is_buy_ o then ABook (enqueue true o (reverse (bids_ ob))) (reverse (asks_ ob))
      else ABook (reverse (bids_ ob)) (enqueue false o (reverse (asks_ ob))).
Proof.
  intros [Hb _] [Ha _] Hd. unfold insert_order. rewrite Hd. destruct (is_buy_ o).
  - destruct (insert_enqueue true o _ Hb) as (pos & Hpos & _ & Hins).
    change (worse true o) with (λ x, level_ x <? level_ o) in Hpos. rewrite Hpos. simpl.
    eexists. split; [done |]. unfold abstraction. simpl. by rewrite Hins.
  - destruct (insert_enqueue false o _ Ha) as (pos & Hpos & _ & Hins).
    assert (lower_bound (λ x, level_ o <? level_ x) (asks_ ob) = Ret pos) as ->.
    { rewrite <-Hpos. apply lower_bound_ext. intros x. by rewrite rank_sell. }
    simpl. eexists. split; [done |]. unfold abstraction. simpl. by rewrite Hins.
Qed.

(** *** Adding an order, one side at a time

    [own] is the incoming order's side and [l] the opposite one. *)

Section Adding.
Context (o : Order).
#[local] Abbreviation s := (negb (is_buy_ o)).

Definition rested (own : list Order) (r : Quantity) : list Order :=
  if 0 <? r then enqueue (is_buy_ o) (set_qty o r) own else own.

Lemma suffix_ids (l' l : list Order) :
  suffix (key <$> l') (key <$> l) → suffix (id_ <$> l') (id_ <$> l).
Proof.
  intros [k Hk]. exists (k.*1). apply (f_equal (fmap fst)) in Hk.
  rewrite fmap_app, <-!list_fmap_compose in Hk. exact Hk.
Qed.

Lemma suffix_level (l' l : list Order) x :
  suffix (key <$> l') (key <$> l) → x ∈ l' → (∃ y, y ∈ l ∧ id_ y = id_ x ∧ level_ y = level_ x).
Proof.
  intros [k Hk] Hx. assert (key x ∈ key <$> l) as Hin.
  { rewrite Hk. apply elem_of_app. right. by apply list_elem_of_fmap_2. }
  apply list_elem_of_fmap in Hin as (y & Heq & Hy). injection Heq as -> ->. eauto.
Qed.

Lemma rested_ok own l l' r ts :
  aside_ok (is_buy_ o) own → aside_ok s l → NoDup (id_ <$> own ++ l) →
  id_ o ∉ id_ <$> own ++ l → input_ok o → fill o l (qty_ o) = (l', r, ts) →
  aside_ok (is_buy_ o) (rested own r) ∧ aside_ok s l' ∧
  NoDup (id_ <$> rested own r ++ l') ∧ id_ o ∉ id_ <$> own ++ l'.
Proof.
  intros Hown Hl Hnd Hfresh [Hside Hq] Hfill.
  destruct (fill_correct o _ _ _ _ _ Hl Hfill) as (Hl' & Hsuf & Hr & Hv & Hpos & Hno & Hts).
  pose proof (suffix_ids _ _ Hsuf) as [k Hk].
  rewrite !fmap_app, ?Hk, ?NoDup_app, ?not_elem_of_app in *.
  assert ((id_ o ∉ id_ <$> own) ∧ (id_ o ∉ id_ <$> l')) as [Hf1 Hf2] by tauto.
  assert (NoDup ((id_ <$> own) ++ (id_ <$> l'))) as Hnd'.
  { apply NoDup_app. destruct Hnd as (? & Hd & ? & ? & ?). split_and!; [done | | done].
    intros x Hx Hx'. apply (Hd x Hx). apply elem_of_app. by right. }
  apply NoDup_app in Hnd'.
  unfold rested. destruct (Z.ltb_spec 0 r); [| tauto].
  split_and!; try tauto.
  - apply enqueue_ok; [done |]. unfold order_ok. simpl.
    split_and!; [done | done | done |]. unfold in_i32 in Hq.
    assert (0 ≤ traded ts); [| lia].
    clear -Hts. unfold traded. induction Hts as [| t ts (x & _ & _ & ? & _) Hts IH]; simpl; lia.
  - assert (id_ <$> enqueue (is_buy_ o) (set_qty o r) own ≡ₚ id_ o :: (id_ <$> own)) as ->
      by (rewrite enqueue_perm; done).
    apply NoDup_cons. tauto.
  - assert (id_ <$> enqueue (is_buy_ o) (set_qty o r) own ≡ₚ id_ o :: (id_ <$> own)) as Hp
      by (rewrite enqueue_perm; done).
    intros x. rewrite Hp, elem_of_cons. intros [-> | Hx]; [done |]. by apply Hnd'.
Qed.

(** Nothing that rests reaches an order of the other side. *)
Lemma rested_uncrossed own l l' r ts :
  aside_ok s l → fill o l (qty_ o) = (l', r, ts) →
  (∀ x y, x ∈ own → y ∈ l → rank s y < rank s x) →
  ∀ x y, x ∈ rested own r → y ∈ l' → rank s y < rank s x.
Proof.
  intros Hl Hfill Hun x y Hx Hy.
  destruct (fill_correct o _ _ _ _ _ Hl Hfill) as (_ & Hsuf & _ & _ & _ & Hno & _).
  assert (x ∈ own → rank s y < rank s x) as Hold.
  { intros Hx'. destruct (suffix_level _ _ _ Hsuf Hy) as (z & Hz & _ & Hlev).
    specialize (Hun x z Hx' Hz). unfold rank in *. by rewrite <-Hlev. }
  unfold rested in Hx. destruct (Z.ltb_spec 0 r) as [Hr |]; [| auto].
  rewrite enqueue_perm, elem_of_cons in Hx. destruct Hx as [-> | Hx]; [| auto].
  specialize (Hno Hr). rewrite Forall_forall in Hno. apply (Hno y Hy).
Qed.
End Adding.

(** The matching phase of [AddOrder], on the vector as stored. *)
Lemma match_phase o opp :
  side_ok (negb (is_buy_ o)) opp → in_i32 (qty_ o) →
  match_loop (S (length opp)) o opp (qty_ o) [] =
  let '(l', r, ts) := fill o (reverse opp) (qty_ o) in Ret (reverse l', r, ts).
Proof.
  intros [_ Hopp] Hq. rewrite <-(reverse_involutive opp) at 1 2.
  rewrite match_loop_fill; [done | by apply Forall_reverse | done |].
  rewrite !length_reverse. lia.
Qed.

(** The resting phase: [ob] is the book after matching. *)
Definition rest_phase (ob : book) (o : Order) (r : Quantity) (ts : list Trade)
  : outcome (list Trade * book) :=
  if 0 <? r then let! ob := insert_order ob (set_qty o r) in Ret (ts, ob) else Ret (ts, ob).

Lemma rest_phase_spec ob o r ts :
  side_ok true (bids_ ob) → side_ok false (asks_ ob) →
  id_ o ∉ id_ <$> reverse (bids_ ob) ++ reverse (asks_ ob) →
  ∃ ob', rest_phase ob o r ts = Ret (ts, ob') ∧
    abstraction ob' =
      if is_buy_ o then ABook (rested o (reverse (bids_ ob)) r) (reverse (asks_ ob))
      else ABook (reverse (bids_ ob)) (rested o (reverse (asks_ ob)) r).
Proof.
  intros Hb Ha Hfresh. rewrite !reverse_Permutation in Hfresh. unfold rest_phase, rested. destruct (0 <? r).
  - destruct (insert_order_refines ob (set_qty o r)) as (ob' & Hins & Habs); [done | done | |].
    { apply not_true_iff_false. by rewrite is_dupe_ids. }
    rewrite Hins. simpl in *. exists ob'. split; [done |]. rewrite Habs. by destruct (is_buy_ o).
  - exists ob. split; [done |]. by destruct (is_buy_ o).
Qed.

Lemma aside_ok_nil s : aside_ok s [].
Proof. split; constructor. Qed.

Lemma uncrossed_abstraction ob :
  uncrossed ob ↔ ∀ b a, b ∈ abids (abstraction ob) → a ∈ aasks (abstraction ob) →
    level_ b < level_ a.
Proof.
  unfold uncrossed, abstraction. simpl. split; intros H b a Hb Ha.
  - apply H; by apply elem_of_reverse.
  - by apply H; apply elem_of_reverse.
Qed.

(** [AddOrder] computes what the specification says, on every branch. *)
Lemma AddOrder_core ob o :
  book_ok ob → input_ok o →
  ∃ ob', AddOrder ob o = Ret ((spec_add (abstraction ob) o).1, ob') ∧
    abstraction ob' = (spec_add (abstraction ob) o).2 ∧ book_ok ob' ∧
    (uncrossed ob → uncrossed ob').
Proof.
  intros Hok Hin. unfold AddOrder, spec_add. rewrite is_dupe_spec.
  destruct (is_dupe ob o) eqn:Hd; [by eauto 6 |].
  assert (id_ o ∉ id_ <$> reverse (bids_ ob) ++ reverse (asks_ ob)) as Hfresh.
  { rewrite !reverse_Permutation, <-is_dupe_ids, Hd. done. }
  pose proof (proj1 (book_ok_abstraction ob) Hok) as [Hb Ha Hids].
  destruct Hok as [Hb0 Ha0 _]. cbn [abids aasks abstraction] in *.
  pose proof (rested_ok o) as Hrested. pose proof (rested_uncrossed o) as Hunc.
  pose proof (match_phase o) as Hmatch. unfold rested in *.
  pose proof (λ ob r ts, rest_phase_spec ob o r ts) as Hrest. unfold rest_phase, rested in Hrest.
  setoid_rewrite uncrossed_abstraction. setoid_rewrite book_ok_abstraction.
  change (abids (abstraction ob)) with (reverse (bids_ ob)).
  change (aasks (abstraction ob)) with (reverse (asks_ ob)).
  destruct (is_buy_ o) eqn:Hbuy; cbn [negb] in *; rewrite Hmatch by (done || apply Hin).
  - destruct (fill o (reverse (asks_ ob)) (qty_ o)) as [[l' r] ts] eqn:Hfill. cbn [obind fst snd].
    destruct (Hrested _ _ _ _ _ Hb Ha Hids Hfresh Hin Hfill) as (Hown & Hl & Hnd & Hfr).
    destruct (Hrest (Orderbook (bids_ ob) (reverse l')) r ts) as (ob' & Hret & Habs);
      cbn [bids_ asks_] in *; rewrite ?side_ok_reverse, ?reverse_involutive in *; [done.. |].
    exists ob'. rewrite Habs. cbn [abids aasks]. split_and!; [done.. |].
    intros Hun b a Hx Hy. cut (rank false a < rank false b); [unfold rank; lia |].
    apply (Hunc (reverse (bids_ ob)) _ _ _ _ Ha Hfill); [| done | done]. unfold rank.
    intros x y Hx' Hy'. specialize (Hun x y Hx' Hy'). lia.
  - rewrite fmap_app, Permutation_app_comm, <-fmap_app in Hids, Hfresh.
    destruct (fill o (reverse (bids_ ob)) (qty_ o)) as [[l' r] ts] eqn:Hfill. cbn [obind fst snd].
    destruct (Hrested _ _ _ _ _ Ha Hb Hids Hfresh Hin Hfill) as (Hown & Hl & Hnd & Hfr).
    rewrite fmap_app, Permutation_app_comm, <-fmap_app in Hnd, Hfr.
    destruct (Hrest (Orderbook (reverse l') (asks_ ob)) r ts) as (ob' & Hret & Habs);
      cbn [bids_ asks_] in *; rewrite ?side_ok_reverse, ?reverse_involutive in *; [done.. |].
    exists ob'. rewrite Habs. cbn [abids aasks]. split_and!; [done.. |].
    intros Hun b a Hx Hy. change (rank true b < rank true a).
    apply (Hunc (reverse (asks_ ob)) _ _ _ _ Hb Hfill); [| done | done]. unfold rank.
    intros x y Hx' Hy'. specialize (Hun y x Hy' Hx'). lia.
Qed.

(** *** Cancelling *)

Definition without (id : Id) (l : list Order) : list Order := filter (λ o, id_ o ≠ id) l.

Definition spec_cancel (ab : abstract_book) (id : Id) : abstract_book :=
  ABook (without id (abids ab)) (without id (aasks ab)).

Lemma without_fresh id l : id ∉ id_ <$> l → without id l = l.
Proof.
  unfold without. induction l as [| o l IH]; csimpl; [done |].
  rewrite not_elem_of_cons. intros [Hne Hl]. rewrite filter_cons_True by done. f_equal. auto.
Qed.

Lemma without_sublist id l : sublist (without id l) l.
Proof. apply sublist_filter. Qed.

Lemma without_reverse id l : without id (reverse l) = reverse (without id l).
Proof.
  unfold without. induction l as [| o l IH]; [done |].
  rewrite reverse_cons, filter_app, IH. destruct (decide (id_ o ≠ id)).
  - by rewrite !filter_cons_True, reverse_cons by done.
  - rewrite !filter_cons_False by done. by rewrite filter_nil, app_nil_r.
Qed.

Lemma without_app id l1 l2 : without id (l1 ++ l2) = without id l1 ++ without id l2.
Proof. apply filter_app. Qed.

(** [find_if] then [erase]: with unique ids, the order with that id and no
    other leaves the side, and the rest keep their order. *)
Lemma erase_first_without id l :
  NoDup (id_ <$> l) → id ∈ id_ <$> l →
  erase_first (λ o, id_ o =? id) l = Some (without id l).
Proof.
  induction l as [| o l IH]; csimpl; [by intros _ ?%elem_of_nil |].
  intros [Ho Hl]%NoDup_cons Hin. unfold without in *. destruct (Z.eqb_spec (id_ o) id) as [<- | Hne].
  - rewrite filter_cons_False by tauto. f_equal. symmetry. by apply without_fresh.
  - rewrite filter_cons_True by done. apply elem_of_cons in Hin as [-> | Hin]; [done |].
    by rewrite IH.
Qed.

Lemma erase_first_fresh id l : id ∉ id_ <$> l → erase_first (λ o, id_ o =? id) l = None.
Proof.
  induction l as [| o l IH]; csimpl; [done |]. rewrite not_elem_of_cons. intros [Hne Hl].
  by rewrite (proj2 (Z.eqb_neq _ _)), IH.
Qed.

Lemma CancelOrder_without ob id :
  NoDup (id_ <$> bids_ ob ++ asks_ ob) →
  CancelOrder ob id = Orderbook (without id (bids_ ob)) (without id (asks_ ob)).
Proof.
  destruct ob as [bids asks]. cbn [bids_ asks_]. rewrite fmap_app.
  intros (Hb & Hd & Ha)%NoDup_app. unfold CancelOrder. cbn [bids_ asks_].
  destruct (decide (id ∈ id_ <$> bids)) as [Hin | Hni].
  - rewrite erase_first_without, (without_fresh id asks) by (by try apply Hd). done.
  - rewrite erase_first_fresh, (without_fresh id bids) by done.
    destruct (decide (id ∈ id_ <$> asks)) as [Hin | Hni'].
    + by rewrite erase_first_without.
    + by rewrite erase_first_fresh, without_fresh.
Qed.

Lemma Forall_sublist {A} (P : A → Prop) l1 l2 : sublist l1 l2 → Forall P l2 → Forall P l1.
Proof. induction 1; rewrite ?Forall_cons; tauto. Qed.

Lemma StronglySorted_sublist {A} (R : relation A) l1 l2 :
  sublist l1 l2 → StronglySorted R l2 → StronglySorted R l1.
Proof.
  induction 1 as [| x l1 l2 Hsub IH | x l1 l2 Hsub IH]; [done | |].
  - rewrite !StronglySorted_cons. intros [Hx Hl]. split; [| auto].
    by eapply Forall_sublist.
  - rewrite StronglySorted_cons. intros [_ Hl]. auto.
Qed.

Lemma side_ok_without s id l : side_ok s l → side_ok s (without id l).
Proof.
  intros [Hs Ho]. split.
  - by eapply StronglySorted_sublist; [apply without_sublist |].
  - by eapply Forall_sublist; [apply without_sublist |].
Qed.

Lemma book_ok_cancel ob id : book_ok ob → book_ok (CancelOrder ob id).
Proof.
  intros [Hb Ha Hids]. rewrite CancelOrder_without by done. split; simpl.
  - by apply side_ok_without.
  - by apply side_ok_without.
  - rewrite <-without_app. eapply sublist_NoDup; [exact Hids |].
    apply fmap_sublist, without_sublist.
Qed.

Lemma uncrossed_cancel ob id : book_ok ob → uncrossed ob → uncrossed (CancelOrder ob id).
Proof.
  intros [_ _ Hids] Hun b a. rewrite CancelOrder_without by done. simpl. unfold without.
  rewrite !list_elem_of_filter. intros [_ Hb] [_ Ha]. by apply Hun.
Qed.

(** *** What one call of [AddOrder] trades and rests *)

(** The side an order rests on, and the side it matches. *)
Definition own_side (o : Order) (ob : book) : list Order :=
  if is_buy_ o then bids_ ob else asks_ ob.
Definition opposite (o : Order) (ob : book) : list Order :=
  if is_buy_ o then asks_ ob else bids_ ob.

Lemma volume_perm l1 l2 : l1 ≡ₚ l2 → volume l1 = volume l2.
Proof. unfold volume. induction 1; simpl; lia. Qed.

Lemma volume_reverse l : volume (reverse l) = volume l.
Proof. apply volume_perm, reverse_Permutation. Qed.

Lemma volume_rested o own r : 0 ≤ r → volume (rested o own r) = volume own + r.
Proof.
  intros Hr. unfold rested. destruct (Z.ltb_spec 0 r); [| lia].
  rewrite (volume_perm _ _ (enqueue_perm _ _ _)). simpl. lia.
Qed.

(** [spec_add] side by side. *)
Lemma spec_add_sides ob o :
  is_dupe ob o = false →
  spec_add (abstraction ob) o =
    let '(l', r, ts) := fill o (reverse (opposite o ob)) (qty_ o) in
    let own := rested o (reverse (own_side o ob)) r in
    (ts, if is_buy_ o then ABook own l' else ABook l' own).
Proof.
  intros Hd. unfold spec_add, opposite, own_side, rested. rewrite is_dupe_spec, Hd.
  destruct (is_buy_ o); simpl; by destruct (fill _ _ _) as [[l' r] ts].
Qed.

Lemma book_ok_opposite ob o : book_ok ob → aside_ok (negb (is_buy_ o)) (reverse (opposite o ob)).
Proof. intros [Hb Ha _]. apply side_ok_reverse. unfold opposite. by destruct (is_buy_ o). Qed.

Lemma AddOrder_sides ob o ts ob' :
  book_ok ob → input_ok o → is_dupe ob o = false → AddOrder ob o = Ret (ts, ob') →
  ∃ l' r, fill o (reverse (opposite o ob)) (qty_ o) = (l', r, ts) ∧
    reverse (opposite o ob') = l' ∧ reverse (own_side o ob') = rested o (reverse (own_side o ob)) r.
Proof.
  intros Hok Hin Hd Hadd. destruct (AddOrder_core ob o Hok Hin) as (ob1 & Hadd' & Habs & _ & _).
  rewrite Hadd in Hadd'. injection Hadd' as -> <-. rewrite (spec_add_sides ob o Hd) in *.
  destruct (fill o _ _) as [[l' r] ts]. exists l', r. unfold abstraction in Habs.
  unfold opposite, own_side in *. cbn [snd] in Habs.
  destruct (is_buy_ o); injection Habs as H1 H2; rewrite ?H1, ?H2; by split_and!.
Qed.

Lemma fill_no_trade o l r l' r' : fill o l r = (l', r', []) → l' = l.
Proof.
  destruct l as [| best l]; cbn [fill]; [congruence |].
  destruct ((0 <? r) && _); [| congruence]. destruct (qty_ best <=? r); [| discriminate].
  destruct (fill o l _) as [[??]?]. discriminate.
Qed.

Lemma without_rested o own r :
  id_ o ∉ id_ <$> own → without (id_ o) (rested o own r) = own.
Proof.
  intros Hfresh. unfold rested. destruct (0 <? r); [| by apply without_fresh].
  induction own as [| x own IH]; unfold without in *; cbn [enqueue fmap list_fmap] in *.
  - by rewrite filter_cons_False by (simpl; tauto).
  - rewrite not_elem_of_cons in Hfresh. destruct Hfresh as [Hx Hf]. destruct (_ <? _).
    + rewrite filter_cons_False, filter_cons_True by (simpl; tauto || congruence).
      f_equal. by apply without_fresh.
    + rewrite filter_cons_True by congruence. f_equal. by apply IH.
Qed.

(** *** Sessions *)

Inductive command : Type := Add (o : Order) | Cancel (id : Id).

Definition command_ok (c : command) : Prop :=
  match c with Add o => input_ok o | Cancel _ => True end.

Definition perform (ob : book) (c : command) : outcome (list Trade * book) :=
  match c with
  | Add o => AddOrder ob o
  | Cancel id => Ret ([], CancelOrder ob id)
  end.

Definition spec_perform (ab : abstract_book) (c : command) : list Trade * abstract_book :=
  match c with
  | Add o => spec_add ab o
  | Cancel id => ([], spec_cancel ab id)
  end.

Fixpoint session (ob : book) (cs : list command) : outcome (list Trade * book) :=
  match cs with
  | [] => Ret ([], ob)
  | c :: cs =>
      let! (ts, ob) := perform ob c in
      let! (ts', ob) := session ob cs in Ret (ts ++ ts', ob)
  end.

Fixpoint spec_session (ab : abstract_book) (cs : list command) : list Trade * abstract_book :=
  match cs with
  | [] => ([], ab)
  | c :: cs =>
      let '(ts, ab) := spec_perform ab c in
      let '(ts', ab) := spec_session ab cs in (ts ++ ts', ab)
  end.

Lemma perform_refines ob c :
  book_ok ob → uncrossed ob → command_ok c →
  ∃ ob', perform ob c = Ret ((spec_perform (abstraction ob) c).1, ob') ∧
    abstraction ob' = (spec_perform (abstraction ob) c).2 ∧ book_ok ob' ∧ uncrossed ob'.
Proof.
  intros Hok Hun Hc. destruct c as [o | id]; simpl in *.
  - destruct (AddOrder_core ob o Hok Hc) as (ob' & ? & ? & ? & ?). eauto 6.
  - exists (CancelOrder ob id). split_and!; [done | | by apply book_ok_cancel | by apply uncrossed_cancel].
    destruct Hok as [_ _ Hids]. rewrite CancelOrder_without by done.
    unfold abstraction, spec_cancel. simpl. by rewrite !without_reverse.
Qed.

Lemma book_ok_empty : book_ok empty_book.
Proof. repeat constructor. Qed.

Lemma uncrossed_empty : uncrossed empty_book.
Proof. intros b a []%elem_of_nil. Qed.

(** * Properties *)

(** C5: [AddOrder] matches in price-time priority.  On any well-formed book it
    returns (no overflow, no out-of-range access) exactly the trades, and leaves
    exactly the book, of the specification that fills the incoming order from
    the best opposite order on and queues what remains behind every order at
    least as good; the new book is sorted, has unique ids and only positive
    quantities, and stays uncrossed. *)
Theorem AddOrder_price_time_priority ob o :
  book_ok ob → input_ok o →
  ∃ ob', AddOrder ob o = Ret ((spec_add (abstraction ob) o).1, ob') ∧
    abstraction ob' = (spec_add (abstraction ob) o).2 ∧ book_ok ob' ∧
    (uncrossed ob → uncrossed ob').
Proof. apply AddOrder_core. Qed.

(** C2: every sequence of [AddOrder] and [CancelOrder] calls on a new book runs
    to its end, produces the specification's trades and book, and never leaves
    a bid at or above an ask. *)
Theorem session_refines cs :
  Forall command_ok cs →
  ∃ ob, session empty_book cs = Ret ((spec_session (abstraction empty_book) cs).1, ob) ∧
    abstraction ob = (spec_session (abstraction empty_book) cs).2 ∧ book_ok ob ∧ uncrossed ob.
Proof.
  intros Hcs. generalize book_ok_empty, uncrossed_empty. generalize empty_book.
  induction Hcs as [| c cs Hc Hcs IH]; intros ob Hok Hun; [by eauto 6 |]. cbn [session spec_session].
  destruct (perform_refines ob c Hok Hun Hc) as (ob1 & Hp & Habs & Hok1 & Hun1). rewrite Hp.
  destruct (spec_perform (abstraction ob) c) as [ts ab]. cbn [fst snd obind] in *. subst ab.
  destruct (IH ob1 Hok1 Hun1) as (ob2 & -> & Habs2 & Hok2 & Hun2).
  destruct (spec_session (abstraction ob1) cs) as [ts' ab]. simpl in *. eauto 6.
Qed.

(** No quantity is created or lost: what an accepted order of positive
    quantity does not trade it rests, on its own side; the opposite side loses
    exactly the traded volume. *)
Theorem AddOrder_conserves_quantity ob o ts ob' :
  book_ok ob → input_ok o → 0 < qty_ o → is_dupe ob o = false → AddOrder ob o = Ret (ts, ob') →
  volume (own_side o ob') + traded ts = volume (own_side o ob) + qty_ o ∧
  volume (opposite o ob') + traded ts = volume (opposite o ob).
Proof.
  intros Hok Hin Hq Hd Hadd.
  destruct (AddOrder_sides _ _ _ _ Hok Hin Hd Hadd) as (l' & r & Hfill & Hopp & Hown).
  destruct (fill_correct _ _ _ _ _ _ (book_ok_opposite _ _ Hok) Hfill)
    as (_ & _ & Hr & Hv & Hpos & _ & _).
  rewrite <-(volume_reverse (own_side o ob')), <-(volume_reverse (opposite o ob')), Hopp, Hown.
  rewrite volume_rested, volume_reverse by lia. rewrite volume_reverse in Hv. lia.
Qed.

(** Every trade names the incoming order as aggressor and a resting order
    of the opposite side, is of a positive quantity that order had, is made at
    the price of the ask, and that price is within both limits. *)
Theorem AddOrder_trade_terms ob o ts ob' :
  book_ok ob → input_ok o → AddOrder ob o = Ret (ts, ob') →
  Forall (λ t, ∃ x, x ∈ opposite o ob ∧
    AggressorOrderId t = id_ o ∧ AggressorIsBuy t = is_buy_ o ∧ 0 < Size t ≤ qty_ x ∧
    OrderIdA t = id_ (if is_buy_ o then o else x) ∧
    OrderIdB t = id_ (if is_buy_ o then x else o) ∧
    Level t = level_ (if is_buy_ o then x else o) ∧
    (if is_buy_ o then level_ x ≤ level_ o else level_ o ≤ level_ x)) ts.
Proof.
  intros Hok Hin Hadd. destruct (is_dupe ob o) eqn:Hd.
  { unfold AddOrder in Hadd. rewrite Hd in Hadd. injection Hadd as <- <-. constructor. }
  destruct (AddOrder_sides _ _ _ _ Hok Hin Hd Hadd) as (l' & r & Hfill & _ & _).
  destruct (fill_correct _ _ _ _ _ _ (book_ok_opposite _ _ Hok) Hfill)
    as (_ & _ & _ & _ & _ & _ & Hts).
  eapply Forall_impl; [exact Hts |]. intros t (x & Hx & Hrank & Hsize & ->).
  exists x. rewrite elem_of_reverse in Hx. unfold make_trade, rank in *. simpl.
  destruct (is_buy_ o); simpl in *; split_and!; (done || lia).
Qed.

(** [CancelOrder] removes the order with the given id, whichever side it is
    on, and nothing else; it is the identity for an unknown id. *)
Theorem CancelOrder_exact ob id :
  book_ok ob →
  bids_ (CancelOrder ob id) = filter (λ o, id_ o ≠ id) (bids_ ob) ∧
  asks_ (CancelOrder ob id) = filter (λ o, id_ o ≠ id) (asks_ ob) ∧
  book_ok (CancelOrder ob id) ∧
  (id ∉ id_ <$> bids_ ob ++ asks_ ob → CancelOrder ob id = ob).
Proof.
  intros Hok. pose proof (book_ok_cancel ob id Hok). destruct Hok as [_ _ Hids].
  rewrite CancelOrder_without in * by done. split_and!; [done.. |].
  rewrite fmap_app, not_elem_of_app. intros [Hb Ha]. rewrite !without_fresh by done. by destruct ob.
Qed.

(** Cancelling an order that was added without trading restores the book,
    the queue positions of all other orders included. *)
Theorem AddOrder_CancelOrder_roundtrip ob o ob' :
  book_ok ob → input_ok o → is_dupe ob o = false → AddOrder ob o = Ret ([], ob') →
  CancelOrder ob' (id_ o) = ob.
Proof.
  intros Hok Hin Hd Hadd.
  destruct (AddOrder_core ob o Hok Hin) as (ob1 & Hadd1 & _ & [_ _ Hids] & _).
  rewrite Hadd in Hadd1. injection Hadd1 as _ <-.
  destruct (AddOrder_sides _ _ _ _ Hok Hin Hd Hadd) as (l' & r & Hfill & <- & Hown).
  apply fill_no_trade, (inj reverse) in Hfill.
  assert (id_ o ∉ id_ <$> bids_ ob ++ asks_ ob) as Hfresh by (by rewrite <-is_dupe_ids, Hd).
  rewrite fmap_app, not_elem_of_app in Hfresh. destruct Hfresh as [Hfb Hfa].
  apply (f_equal (without (id_ o))) in Hown.
  rewrite CancelOrder_without by done. unfold own_side, opposite in *.
  destruct (is_buy_ o); rewrite Hfill, without_rested, without_reverse in *
    by (by rewrite fmap_reverse, elem_of_reverse);
    apply (inj reverse) in Hown; rewrite Hown, without_fresh by done; by destruct ob.
Qed.

(** ** Concrete books *)

Module Demo.
Definition b1 := new_Order 1 100 true 10.
Definition b2 := new_Order 2 101 true 5.
Definition a1 := new_Order 3 103 false 7.
Definition a2 := new_Order 4 105 false 4.
Definition a3 := new_Order 5 103 false 6.
Definition demo_book : book := Orderbook [b1; b2] [a2; a3; a1].

(** [a3] came after [a1] at the same price: it waits behind it. *)
Example build :
  session empty_book (Add <$> [b1; a1; b2; a2; a3]) = Ret ([], demo_book).
Proof. vm_compute. reflexivity. Qed.

Definition sweep := new_Order 6 104 true 20.

Example sweep_trades :
  AddOrder demo_book sweep =
  Ret ([MkTrade 6 3 6 true 103 7; MkTrade 6 5 6 true 103 6],
       Orderbook [b1; b2; set_qty sweep 7] [a2]).
Proof. vm_compute. reflexivity. Qed.

Definition passive := new_Order 7 102 true 3.

Example passive_rests :
  AddOrder demo_book passive = Ret ([], Orderbook [b1; b2; passive] [a2; a3; a1]).
Proof. vm_compute. reflexivity. Qed.

Lemma demo_book_ok : book_ok demo_book.
Proof.
  split; [split | split |]; [repeat constructor; simpl; lia | | repeat constructor; simpl; lia | |].
  - repeat constructor; simpl; lia.
  - repeat constructor; simpl; lia.
  - by_evaluation.
Qed.

Lemma sweep_ok : input_ok sweep.
Proof. split; [done | unfold in_i32; simpl; lia]. Qed.

Lemma passive_ok : input_ok passive.
Proof. split; [done | unfold in_i32; simpl; lia]. Qed.
End Demo.

Lemma AddOrder_price_time_priority_witness :
  ∃ ob', AddOrder Demo.demo_book Demo.sweep =
    Ret ((spec_add (abstraction Demo.demo_book) Demo.sweep).1, ob') ∧
    abstraction ob' = (spec_add (abstraction Demo.demo_book) Demo.sweep).2 ∧ book_ok ob' ∧
    (uncrossed Demo.demo_book → uncrossed ob').
Proof. exact (AddOrder_price_time_priority _ _ Demo.demo_book_ok Demo.sweep_ok). Defined.

Definition demo_session : list command :=
  [Add Demo.b1; Add Demo.a1; Add Demo.sweep; Cancel 1; Add Demo.a2].

Lemma session_refines_witness :
  Forall command_ok demo_session ∧
  ∃ ob, session empty_book demo_session =
    Ret ((spec_session (abstraction empty_book) demo_session).1, ob) ∧
    abstraction ob = (spec_session (abstraction empty_book) demo_session).2 ∧ book_ok ob ∧ uncrossed ob.
Proof.
  assert (Forall command_ok demo_session) as H.
  { repeat constructor; unfold in_i32; simpl; lia. }
  split; [exact H | exact (session_refines _ H)].
Defined.

Lemma AddOrder_conserves_quantity_witness :
  volume [Demo.b1; Demo.b2; set_qty Demo.sweep 7] + 13 = volume [Demo.b1; Demo.b2] + 20 ∧
  volume [Demo.a2] + 13 = volume [Demo.a2; Demo.a3; Demo.a1].
Proof.
  apply (AddOrder_conserves_quantity _ _ _ _ Demo.demo_book_ok Demo.sweep_ok eq_refl eq_refl
    Demo.sweep_trades).
Defined.

Lemma AddOrder_trade_terms_witness :
  Forall (λ t, ∃ x, x ∈ [Demo.a2; Demo.a3; Demo.a1] ∧
    AggressorOrderId t = 6 ∧ AggressorIsBuy t = true ∧ 0 < Size t ≤ qty_ x ∧
    OrderIdA t = 6 ∧ OrderIdB t = id_ x ∧ Level t = level_ x ∧ level_ x ≤ 104)
    [MkTrade 6 3 6 true 103 7; MkTrade 6 5 6 true 103 6].
Proof.
  exact (AddOrder_trade_terms _ _ _ _ Demo.demo_book_ok Demo.sweep_ok Demo.sweep_trades).
Defined.

Lemma CancelOrder_exact_witness :
  bids_ (CancelOrder Demo.demo_book 2) = [Demo.b1] ∧
  asks_ (CancelOrder Demo.demo_book 2) = [Demo.a2; Demo.a3; Demo.a1] ∧
  book_ok (CancelOrder Demo.demo_book 2).
Proof.
  destruct (CancelOrder_exact _ 2 Demo.demo_book_ok) as (H1 & H2 & H3 & _).
  split; [exact H1 | split; [exact H2 | exact H3]].
Defined.

Lemma AddOrder_CancelOrder_roundtrip_witness :
  CancelOrder (Orderbook [Demo.b1; Demo.b2; Demo.passive] [Demo.a2; Demo.a3; Demo.a1]) 7
  = Demo.demo_book.
Proof.
  exact (AddOrder_CancelOrder_roundtrip _ _ _ Demo.demo_book_ok Demo.passive_ok eq_refl
    Demo.passive_rests).
Defined.
