(* ===== verification/OrderText.v ===== *)
(** * OrderText: the accessors and the printed form of an order

    Models the accessors and [operator<<] of [Order] in
    [src/include/fiah/structs/Orderbook.hh].  The stream is in its default
    format: integers in decimal without grouping, [bool] as [0] or [1]. *)

From stdpp Require Import base tactics numbers list option.
From Stdlib Require Import ZArith Lia Ascii String.
From S2P Require Import Prelude Text Orderbook.
#[local] Open Scope Z_scope.

Definition is_buy (o : Order) : bool := is_buy_ o.
Definition OrderId (o : Order) : Id := id_ o.
Definition get_side (o : Order) : Side := side_ o.
Definition get_qty (o : Order) : Quantity := qty_ o.
Definition get_id (o : Order) : Id := id_ o.
Definition get_level (o : Order) : Price := level_ o.

(** [os << n]: twenty digits hold any 64-bit number. *)
Definition print_int (n : Z) : str :=
  if n <? 0 then ("-" : ascii)%char :: decimal 20 (- n) else decimal 20 n.
Definition print_bool (b : bool) : str := if b then lit "1" else lit "0".

Definition print_order (o : Order) : str :=
  lit "id: " ++ print_int (get_id o) ++ lit ", " ++
  lit "level: " ++ print_int (get_level o) ++ lit ", " ++
  lit "isbuy: " ++ print_bool (is_buy o) ++ lit ", " ++
  lit "qty: " ++ print_int (get_qty o).

(** ** Reading a number back *)

Definition digit_value (c : ascii) : Z := Z.of_nat (nat_of_ascii c) - 48.
Definition value (s : str) : Z := fold_left (λ v c, 10 * v + digit_value c) s 0.

Lemma digit_value_char n : 0 ≤ n < 10 → digit_value (digit_char n) = n.
Proof. intros Hn. unfold digit_value, digit_char. rewrite nat_ascii_embedding; lia. Qed.

Lemma value_decimal fuel n : 0 ≤ n < 10 ^ Z.of_nat fuel → value (decimal fuel n) = n.
Proof.
  revert n. induction fuel as [| fuel IH]; intros n Hn; cbn [decimal].
  { simpl in Hn. unfold value. simpl. lia. }
  destruct (Z.ltb_spec n 10) as [Hlt | Hge].
  { unfold value. cbn [fold_left]. rewrite digit_value_char; lia. }
  unfold value. rewrite fold_left_app. cbn [fold_left]. fold (value (decimal fuel (n / 10))).
  pose proof (Z.mod_pos_bound n 10 ltac:(lia)). rewrite IH, digit_value_char by
    (lia || (split; [apply Z.div_pos; lia | apply Z.div_lt_upper_bound; [lia |];
      rewrite Nat2Z.inj_succ, Z.pow_succ_r in Hn by lia; lia])).
  pose proof (Z.div_mod n 10). lia.
Qed.

Lemma decimal_injective fuel n m :
  0 ≤ n < 10 ^ Z.of_nat fuel → 0 ≤ m < 10 ^ Z.of_nat fuel → decimal fuel n = decimal fuel m → n = m.
Proof.
  intros Hn Hm Heq. rewrite <-(value_decimal fuel n Hn), <-(value_decimal fuel m Hm). by rewrite Heq.
Qed.

Lemma tail_injective {A} (x y : A) l k : x :: l = y :: k → l = k.
Proof. by intros [= _ ->]. Qed.

(** The characters of a printed number. *)
Lemma decimal_chars fuel n c :
  0 ≤ n → c ∈ decimal fuel n → ∃ d, 0 ≤ d < 10 ∧ c = digit_char d.
Proof.
  revert n. induction fuel as [| fuel IH]; intros n Hn; cbn [decimal]; [by intros ?%elem_of_nil |].
  destruct (Z.ltb_spec n 10) as [Hlt | Hge].
  { intros ->%list_elem_of_singleton. eauto. }
  intros [Hc | ->%list_elem_of_singleton]%elem_of_app.
  - eapply IH; [| done]. apply Z.div_pos; lia.
  - exists (n mod 10). split; [apply Z.mod_pos_bound; lia | done].
Qed.

Lemma digit_char_not d (c : ascii) :
  0 ≤ d < 10 → (nat_of_ascii c <? 48)%nat = true → digit_char d ≠ c.
Proof.
  intros Hd Hc%Nat.ltb_lt Heq. apply (f_equal nat_of_ascii) in Heq. unfold digit_char in Heq.
  rewrite nat_ascii_embedding in Heq; lia.
Qed.

Lemma comma_not_printed n : (","%char : ascii) ∉ print_int n.
Proof.
  unfold print_int. destruct (Z.ltb_spec n 0) as [Hn | Hn].
  - intros [? | (d & Hd & Heq)%decimal_chars]%elem_of_cons; [done | | lia].
    refine (digit_char_not _ _ Hd _ (eq_sym Heq)); reflexivity.
  - intros (d & Hd & Heq)%decimal_chars; [| lia].
    refine (digit_char_not _ _ Hd _ (eq_sym Heq)); reflexivity.
Qed.

Lemma print_int_injective n m :
  - 10 ^ 20 < n < 10 ^ 20 → - 10 ^ 20 < m < 10 ^ 20 → print_int n = print_int m → n = m.
Proof.
  intros Hn Hm. unfold print_int.
  assert (∀ k r, 0 ≤ k → decimal 20 k ≠ ("-" : ascii)%char :: r) as Hminus.
  { intros k r Hk Heq. destruct (decimal_chars 20 k ("-" : ascii)%char Hk) as (d & Hd & Hc);
      [rewrite Heq; constructor |].
    refine (digit_char_not _ _ Hd _ (eq_sym Hc)); reflexivity. }
  destruct (Z.ltb_spec n 0), (Z.ltb_spec m 0); intros Heq.
  - apply tail_injective, decimal_injective in Heq; lia.
  - by destruct (Hminus m (decimal 20 (- n))).
  - by destruct (Hminus n (decimal 20 (- m))).
  - apply decimal_injective in Heq; lia.
Qed.

(** Texts cut at their first separator. *)
Lemma cut_separator (a a' r r' : str) c :
  c ∉ a → c ∉ a' → a ++ c :: r = a' ++ c :: r' → a = a' ∧ r = r'.
Proof.
  revert a'. induction a as [| x a IH]; intros [| x' a'] Ha Ha'; simpl; intros [=]; subst; try done.
  - by destruct Ha'; constructor.
  - by destruct Ha; constructor.
  - apply not_elem_of_cons in Ha as [_ Ha], Ha' as [_ Ha'].
    by destruct (IH a' Ha Ha') as [-> ->].
Qed.

Lemma print_bool_injective (a b : bool) : print_bool a = print_bool b → a = b.
Proof. by destruct a, b. Qed.

Lemma comma_not_bool b : (","%char : ascii) ∉ print_bool b.
Proof. destruct b; apply (bool_decide_unpack _); vm_compute; exact I. Qed.

(** The printed form tells orders apart: orders built by the constructor, with
    an identifier, a level and a quantity of their types, print the same text
    only if they are equal. *)
Theorem print_order_injective id level isBuy qty id' level' isBuy' qty' :
  in_u64 id → in_i64 level → in_i32 qty → in_u64 id' → in_i64 level' → in_i32 qty' →
  print_order (new_Order id level isBuy qty) = print_order (new_Order id' level' isBuy' qty') →
  new_Order id level isBuy qty = new_Order id' level' isBuy' qty'.
Proof.
  unfold in_u64, in_i64, in_i32. intros Hi Hl Hq Hi' Hl' Hq' Heq.
  change (lit "id: " ++ print_int id ++ ","%char :: (lit " level: " ++ print_int level ++ ","%char ::
    (lit " isbuy: " ++ print_bool isBuy ++ ","%char :: (lit " qty: " ++ print_int qty)))
  = lit "id: " ++ print_int id' ++ ","%char :: (lit " level: " ++ print_int level' ++ ","%char ::
    (lit " isbuy: " ++ print_bool isBuy' ++ ","%char :: (lit " qty: " ++ print_int qty')))) in Heq.
  apply app_inv_head, cut_separator in Heq as [Hid Heq]; [| apply comma_not_printed..].
  apply app_inv_head, cut_separator in Heq as [Hlevel Heq]; [| apply comma_not_printed..].
  apply app_inv_head, cut_separator in Heq as [Hbuy Heq]; [| apply comma_not_bool..].
  apply app_inv_head in Heq.
  apply print_int_injective in Hid as ->; [| lia..].
  apply print_int_injective in Hlevel as ->; [| lia..].
  apply print_int_injective in Heq as ->; [| lia..].
  by apply print_bool_injective in Hbuy as ->.
Qed.

Example order_printed :
  print_order (new_Order 7 (-250) true 40) = lit "id: 7, level: -250, isbuy: 1, qty: 40".
Proof. vm_compute. reflexivity. Qed.

Lemma print_order_injective_witness :
  new_Order 7 (-250) true 40 = new_Order 7 (-250) true 40.
Proof. apply print_order_injective; unfold in_u64, in_i64, in_i32; (lia || reflexivity). Defined.
