(* ===== verification/LogFormat.v ===== *)
(** * LogFormat: the records and lines of SPSCLogger

    Models the formatting half of [src/include/fiah/utils/SPSCLogger.hh]: the
    record a call to [info], [warn] or [error] builds ([_log]), and the line the
    consumer writes for it ([_serialize], [_flush]).  [snprintf] with user
    arguments ([printf]) and [localtime_r] are the C library's: parameters.
    Texts hold no zero byte. *)

From stdpp Require Import base tactics numbers list option strings.
From Stdlib Require Import ZArith Lia Ascii.
From S2P Require Import Prelude Text.
#[local] Open Scope char_scope.
#[local] Open Scope Z_scope.
#[local] Open Scope fiah_scope.

Inductive Level : Type := INFO | DEBUG | ERROR | WARN.

(** [std::source_location] *)
Record source_location : Type := Location {
  file_name : str;
  function_name : str;
  line : Z
}.

(** [Record::BUFF_SIZE] *)
Definition BUFF_SIZE : nat := 512.

Record LogRecord : Type := MkRecord {
  buff : str;
  ts_ns : Z;
  loc : source_location;
  buff_size : Z;
  level : Level
}.

(** ** [_serialize] *)

(** The fields of [std::tm] the time stamp prints. *)
Record tm : Type := MkTm { tm_hour : Z; tm_min : Z; tm_sec : Z; tm_zone : str }.

Definition ESC : ascii := chr 27.
Definition TAB : ascii := chr 9.
Definition COLOR_TERMINATOR : str := ESC :: lit "[0m".

Definition _level_to_string (l : Level) : str :=
  match l with
  | INFO => lit "INFO" | DEBUG => lit "DEBUG" | ERROR => lit "ERROR" | WARN => lit "WARN"
  end.

Definition _level_to_color (l : Level) : str :=
  match l with
  | INFO => ESC :: lit "[32m" | DEBUG => ESC :: lit "[36m"
  | ERROR => ESC :: lit "[31m" | WARN => ESC :: lit "[33m"
  end.

(** The part of the path right of the last slash. *)
Definition filename (full_file_path : str) : str :=
  match strrchr full_file_path "/" with Some slash => drop (S slash) full_file_path | None => full_file_path end.

(** At most 127 characters of the signature, cut at its last parenthesis, right
    of the last colon left there. *)
Definition func_name (function_name : str) : str :=
  let func_buf := fst (snprintf 128 function_name) in
  let func_buf := match strrchr func_buf "(" with Some paren => take paren func_buf | None => func_buf end in
  match strrchr func_buf ":" with Some colon => drop (S colon) func_buf | None => func_buf end.

Section Serialize.
Context (localtime_r : Z → tm).

Definition time_text (ts : Z) : str :=
  let s_since_epoch := ts / 1000000000 in
  let ns := ts mod 1000000000 in
  let tm_buf := localtime_r s_since_epoch in
  fst (snprintf 24 (padded 2 (tm_hour tm_buf) ++ lit ":" ++ padded 2 (tm_min tm_buf) ++ lit ":" ++
    padded 2 (tm_sec tm_buf) ++ lit " " ++ padded 9 ns ++ lit " " ++ tm_zone tm_buf)).

(** Everything left of the message. *)
Definition prefix_text (rec : LogRecord) : str :=
  _level_to_color (level rec) ++ lit "[" ++ _level_to_string (level rec) ++ lit "]" ++ [TAB] ++
  lit "[" ++ time_text (ts_ns rec) ++ lit "][" ++ filename (file_name (loc rec)) ++ lit " " ++
  func_name (function_name (loc rec)) ++ lit ":" ++ decimal 10 (line (loc rec)) ++ lit "]" ++ [TAB] ++
  COLOR_TERMINATOR ++ lit " ".

Definition _serialize (rec : LogRecord) (len : nat) : str * Z :=
  snprintf len (prefix_text rec ++ buff rec).

(** [char line[Record::BUFF_SIZE + 512]] of [_flush]. *)
Definition LINE_SIZE : nat := BUFF_SIZE + 512.

(** One turn of the loop of [_flush]: [fwrite] of the bytes [snprintf] reports.
    That many bytes of [line] exist, or the read is out of bounds. *)
Definition write_line (rec : LogRecord) : outcome str :=
  let '(out, written_bytes) := _serialize rec LINE_SIZE in
  let n := if written_bytes <? 0 then 0 else written_bytes in
  require! n <=? Z.of_nat LINE_SIZE;;
  Ret (take (Z.to_nat n) (out ++ [chr 0])).
End Serialize.

(** ** [_log] *)

Section Log.
Context {Arg : Type}.
(** [snprintf(buf, size, fmt, args...)]: the text in the buffer and the result. *)
Context (printf : nat → str → list Arg → str * Z).

Definition _log (lvl : Level) (where_ : source_location) (now : Z) (fmt : str) (args : list Arg)
  : LogRecord :=
  let '(text, n) :=
    match args with [] => snprintf BUFF_SIZE fmt | _ => printf BUFF_SIZE fmt args end in
  MkRecord text (u64 now) where_ (Z.min (u16 n) (u16 (Z.of_nat BUFF_SIZE - 1))) lvl.

Definition info := _log INFO.
Definition warn := _log WARN.
Definition error := _log ERROR.
End Log.

(** * Proofs *)

Lemma filename_length p : (length (filename p) ≤ length p)%nat.
Proof. unfold filename. destruct (strrchr p "/"); [rewrite length_drop |]; lia. Qed.

Lemma filename_base dir base : "/" ∉ base → filename (dir ++ "/" :: base) = base.
Proof.
  intros Hb. unfold filename. rewrite strrchr_last by done.
  apply drop_after.
Qed.

Lemma func_name_length f : (length (func_name f) ≤ 127)%nat.
Proof.
  unfold func_name, snprintf. cbn [fst]. set (b := take _ f).
  assert (length b ≤ 127)%nat as Hb by (unfold b; rewrite length_take; lia).
  set (b' := match strrchr b "(" with Some paren => take paren b | None => b end).
  assert (length b' ≤ 127)%nat as Hb'.
  { unfold b'. destruct (strrchr b "("); [rewrite length_take |]; lia. }
  destruct (strrchr b' ":"); [rewrite length_drop |]; lia.
Qed.

Lemma time_text_length localtime_r ts : (length (time_text localtime_r ts) ≤ 23)%nat.
Proof. unfold time_text, snprintf. cbn [fst]. rewrite length_take. lia. Qed.

Lemma prefix_text_length localtime_r rec :
  0 ≤ line (loc rec) < 2 ^ 32 →
  (length (prefix_text localtime_r rec) ≤ 185 + length (filename (file_name (loc rec))))%nat.
Proof.
  intros Hl. unfold prefix_text. rewrite !length_app.
  pose proof (time_text_length localtime_r (ts_ns rec)).
  pose proof (func_name_length (function_name (loc rec))).
  assert (length (decimal 10 (line (loc rec))) ≤ 10)%nat by (apply decimal_length; lia).
  assert (length (_level_to_color (level rec)) = 5)%nat as -> by (by destruct (level rec)).
  assert (length (_level_to_string (level rec)) ≤ 5)%nat by (destruct (level rec); simpl; lia).
  change (length (lit "[")) with 1%nat. change (length (lit "]")) with 1%nat.
  change (length (lit "][")) with 2%nat. change (length (lit " ")) with 1%nat.
  change (length (lit ":")) with 1%nat. change (length [TAB]) with 1%nat.
  change (length COLOR_TERMINATOR) with 4%nat. lia.
Qed.

Lemma write_line_fits localtime_r rec :
  (length (prefix_text localtime_r rec ++ buff rec) < LINE_SIZE)%nat →
  write_line localtime_r rec = Ret (prefix_text localtime_r rec ++ buff rec).
Proof.
  intros Hlen. unfold write_line, _serialize. rewrite snprintf_fits by done.
  rewrite (proj2 (Z.ltb_ge _ _)) by lia. rewrite (proj2 (Z.leb_le _ _)) by lia.
  by rewrite Nat2Z.id, take_app_length.
Qed.

(** A text of at most 127 characters is not cut. *)
Lemma func_name_last scope name params :
  (length (scope ++ ":" :: name ++ "(" :: params) ≤ 127)%nat → "(" ∉ params → ":" ∉ name →
  func_name (scope ++ ":" :: name ++ "(" :: params) = name.
Proof.
  intros Hlen Hp Hn. unfold func_name. rewrite snprintf_fits by lia. cbn [fst].
  rewrite (app_comm_cons name), (assoc_L (++) scope), strrchr_last by done.
  rewrite take_app_length, strrchr_last by done.
  apply drop_after.
Qed.

(** * Properties *)

(** C37: every log call yields a record whose line is written whole.  If the C
    library keeps its promise (at most [size - 1] characters in the buffer) and
    the file's base name has at most 255 characters, the consumer's line buffer
    holds the header and the message, 951 characters at most, and [fwrite] reads
    only what [snprintf] wrote.  A message without arguments is cut after 511
    characters, and [buff_size] is the length kept, as long as the message has
    less than 65536 characters. *)
Theorem log_line_complete {Arg} (printf : nat → str → list Arg → str * Z) localtime_r
    lvl where_ now fmt args :
  (∀ size fmt args, (0 < size)%nat → (length (fst (printf size fmt args)) < size)%nat) →
  0 ≤ line where_ < 2 ^ 32 → (length (filename (file_name where_)) ≤ 255)%nat →
  let rec := _log printf lvl where_ now fmt args in
  write_line localtime_r rec = Ret (prefix_text localtime_r rec ++ buff rec) ∧
  (length (prefix_text localtime_r rec ++ buff rec) ≤ 951)%nat ∧
  0 ≤ buff_size rec ≤ 511 ∧
  (args = [] → buff rec = take 511 fmt ∧
    (zlen fmt < 65536 → buff_size rec = zlen (buff rec))).
Proof.
  intros Hprintf Hline Hfile rec.
  assert (length (buff rec) ≤ 511 ∧ loc rec = where_)%nat as [Hbuff Hloc].
  { unfold rec, _log. destruct args as [| a args].
    - cbn. rewrite length_take. split; [lia | done].
    - specialize (Hprintf BUFF_SIZE fmt (a :: args) ltac:(unfold BUFF_SIZE; lia)).
      destruct (printf _ _ _) as [text n]. cbn in *. unfold BUFF_SIZE in Hprintf. split; [lia | done]. }
  assert (length (prefix_text localtime_r rec ++ buff rec) ≤ 951)%nat as Hlen.
  { rewrite length_app. pose proof (prefix_text_length localtime_r rec) as Hp. rewrite Hloc in Hp.
    specialize (Hp Hline). lia. }
  split_and!; [| done | | |].
  - apply write_line_fits. unfold LINE_SIZE, BUFF_SIZE. lia.
  - unfold rec, _log. destruct (match args with [] => _ | _ => _ end) as [text n]. cbn [buff_size].
    pose proof (u16_range n). change (u16 (Z.of_nat BUFF_SIZE - 1)) with 511. lia.
  - unfold rec, _log. destruct (match args with [] => _ | _ => _ end) as [text n]. cbn [buff_size].
    pose proof (u16_range n). change (u16 (Z.of_nat BUFF_SIZE - 1)) with 511. lia.
  - intros ->. unfold rec, _log, snprintf. cbn [buff buff_size].
    change (BUFF_SIZE - 1)%nat with 511%nat. split; [done |]. intros Hshort.
    change (u16 (Z.of_nat BUFF_SIZE - 1)) with 511. rewrite length_take.
    unfold u16, wrap. rewrite Z.mod_small by lia. lia.
Qed.

(** The place printed is the base name of the file and the unqualified name
    of the function, when the signature has at most 127 characters, no colon in
    the name and a single parameter list. *)
Theorem serialize_names dir base scope name params :
  "/" ∉ base → (length (scope ++ ":" :: name ++ "(" :: params) ≤ 127)%nat →
  "(" ∉ params → ":" ∉ name →
  filename (dir ++ "/" :: base) = base ∧ func_name (scope ++ ":" :: name ++ "(" :: params) = name.
Proof. intros. split; [by apply filename_base | by apply func_name_last]. Qed.

(** * On concrete records *)

Module Demo.

Definition at_noon (_ : Z) : tm := MkTm 12 0 0 (lit "UTC").
Definition here : source_location :=
  Location (lit "/src/engine/book.cc") (lit "void fiah::Book::match(int)") 42.
Definition no_printf (size : nat) (fmt : str) (_ : list unit) : str * Z := snprintf size fmt.

Lemma no_printf_bound size fmt args :
  (0 < size)%nat → (length (fst (no_printf size fmt args)) < size)%nat.
Proof. intros. unfold no_printf, snprintf. cbn [fst]. rewrite length_take. lia. Qed.

Definition hello : LogRecord := info no_printf here 1700000000000000007 (lit "hello") [].

Example hello_line : write_line at_noon hello =
  Ret (ESC :: lit "[32m[INFO]" ++ [TAB] ++ lit "[12:00:00 000000007 UTC][book.cc match:42]" ++ [TAB] ++
       ESC :: lit "[0m hello").
Proof. vm_compute. reflexivity. Qed.

(** A parameter that has a parameter list of its own hides the function's name. *)
Example nested_parameters :
  func_name (lit "void fiah::run(std::function<void(int)>)") = lit "function<void".
Proof. vm_compute. reflexivity. Qed.

(** A function outside every namespace keeps its return type. *)
Example global_function : func_name (lit "int main()") = lit "int main".
Proof. vm_compute. reflexivity. Qed.

(** A message of 65536 characters is recorded with size 0. *)
Example long_message :
  let rec := info no_printf here 0 (replicate (Z.to_nat 65536) ("x" : ascii)) [] in
  length (buff rec) = 511%nat ∧ buff_size rec = 0.
Proof. vm_compute. done. Qed.
End Demo.

Lemma log_line_complete_witness :
  write_line Demo.at_noon Demo.hello = Ret (prefix_text Demo.at_noon Demo.hello ++ lit "hello") ∧
  buff_size Demo.hello = 5.
Proof.
  destruct (log_line_complete Demo.no_printf Demo.at_noon INFO Demo.here 1700000000000000007
    (lit "hello") [] Demo.no_printf_bound) as (H & _ & _ & Hb).
  - vm_compute. split; [discriminate | reflexivity].
  - vm_compute. lia.
  - split; [exact H |]. destruct (Hb eq_refl) as [_ Hn]. apply Hn. reflexivity.
Defined.

Lemma serialize_names_witness :
  filename (lit "/src/engine" ++ "/" :: lit "book.cc") = lit "book.cc" ∧
  func_name (lit "void fiah::Book:" ++ ":" :: lit "match" ++ "(" :: lit "int)") = lit "match".
Proof. apply serialize_names; [by_evaluation | vm_compute; lia | by_evaluation | by_evaluation]. Defined.
