(* ===== verification/SPSCLogger.v ===== *)
(** * SPSCLogger: registration, queues and the consumer thread

    Models the concurrent half of [src/include/fiah/utils/SPSCLogger.hh].  Every
    logging thread owns a queue it registers on its first call; the consumer
    thread copies the list of queues under the mutex, drains every queue and
    writes the records in batches; the destructor stops and joins it and deletes
    the queues.  Threads interleave; a step makes one access to shared data.

    The code is written over the class [QueueOps] of queues, whose operations run
    step by step.  The theorems of this file take a queue to be its contents,
    bounded by [QUEUE_SIZE], with operations of one step; [LoggerQueues] carries
    them over to the queues of [SPSCQueue].  That each queue has one producer and
    one consumer is proved here.  The records and the line written for one
    ([write_line]) are parameters, given in [LogFormat]. *)

From stdpp Require Import base tactics numbers list option gmap.
From Stdlib Require Import ZArith Lia.
From S2P Require Import Prelude Text SPSCQueue LogFormat.
#[local] Open Scope fiah_scope.

Definition QUEUE_SIZE : Z := 2 ^ 10.
Definition OUT_LIST_SIZE : nat := 10.

(** A [QueueT]: one step of [push(rec)], with its answer when it returns; one step
    of [pop]; and the destructor. *)
Class QueueOps (R Q : Type) : Type := {
  queue_new : Q;
  queue_push_step : R → Q → outcome (Q * option bool);
  queue_pop_step : Q → outcome (Q * option (option R));
  queue_delete : Q → outcome unit
}.

(** A queue as the list of its records, with operations of one step. *)
Section Lists.
Context {R : Type}.

Definition queue_push (rs : list R) (rec : R) : option (list R) :=
  if (zlen rs =? QUEUE_SIZE)%Z then None else Some (rs ++ [rec]).
Definition queue_pop (rs : list R) : option (R * list R) :=
  match rs with [] => None | rec :: rs => Some (rec, rs) end.

#[export] Instance list_queue : QueueOps R (list R) := {|
  queue_new := [];
  queue_push_step rec rs :=
    Ret (match queue_push rs rec with Some rs => (rs, Some true) | None => (rs, Some false) end);
  queue_pop_step rs :=
    Ret (match queue_pop rs with Some (rec, rs) => (rs, Some (Some rec)) | None => (rs, Some None) end);
  queue_delete rs := Ret tt
|}.
End Lists.

Section SPSCLogger.
Context {R Q : Type} `{QueueOps R Q} (write_line : R → outcome str).

(** The lines of a batch, in order. *)
Fixpoint _flush (recs : list R) : outcome (list str) :=
  match recs with
  | [] => Ret []
  | rec :: recs => let! l := write_line rec in let! ls := _flush recs in Ret (l :: ls)
  end.

(** The consumer in [_run]; [rest] is what the loop of [drain] has left of the
    snapshot, [final] tells the drain after the main loop. *)
Inductive run_pc : Type :=
| R_unborn
| R_test
| R_lock
| R_copy
| R_unlock
| R_pop (final : bool) (rest : list nat)
| R_end.

(** A thread in [_log] ([L]) or [get_num_threads] ([N]). *)
Inductive thread_pc : Type :=
| L_get (rec : R)                 (* thread_local q: initialised? *)
| L_new (rec : R)                 (* new QueueT *)
| L_lock (rec : R) (q : nat)
| L_append (rec : R) (q : nat)    (* m_queues.push_back(q), mutex held *)
| L_unlock (rec : R) (q : nat)
| L_push (rec : R) (q : nat)
| N_read.

(** The life of the object: its members are initialised in the order of their
    declaration, the thread before the vector. *)
Inductive object_pc : Type :=
| P_start                    (* m_consumer_thread is about to start *)
| P_queues                   (* m_queues is about to be initialised *)
| P_reserve                  (* m_queues.reserve(...), without the mutex *)
| P_ready
| P_join                     (* destructor: stop requested *)
| P_delete (rest : list nat)
| P_done.

Record logger : Type := Logger {
  m_queues : list nat;
  m_queues_mutex : bool;
  heap : gmap nat Q;                 (* the QueueT objects *)
  fresh : nat;
  stop : bool;
  runner : run_pc;
  q_snapshot : list nat;
  out_list : list R;                 (* its first [list_tracker] elements *)
  locals : gmap nat nat;             (* thread_local q of each thread *)
  threads : gmap nat thread_pc;
  stdout : list str;
  object : object_pc
}.

Definition init : logger := Logger [] false ∅ 0 false R_unborn [] [] ∅ ∅ [] P_start.

Inductive event : Type :=
| Ev_log (t q : nat) (rec : R)     (* the record entered the queue of [t] *)
| Ev_drop (t q : nat) (rec : R)    (* the queue was full *)
| Ev_pop (q : nat) (rec : R)       (* the consumer took it *)
| Ev_num (t n : nat).

(** Assignments. *)
Definition set_runner (s : logger) (p : run_pc) : logger :=
  Logger (m_queues s) (m_queues_mutex s) (heap s) (fresh s) (stop s) p (q_snapshot s) (out_list s)
    (locals s) (threads s) (stdout s) (object s).
Definition set_snapshot (s : logger) (l : list nat) : logger :=
  Logger (m_queues s) (m_queues_mutex s) (heap s) (fresh s) (stop s) (runner s) l (out_list s)
    (locals s) (threads s) (stdout s) (object s).
Definition set_mutex (s : logger) (b : bool) : logger :=
  Logger (m_queues s) b (heap s) (fresh s) (stop s) (runner s) (q_snapshot s) (out_list s)
    (locals s) (threads s) (stdout s) (object s).
Definition set_heap (s : logger) (h : gmap nat Q) : logger :=
  Logger (m_queues s) (m_queues_mutex s) h (fresh s) (stop s) (runner s) (q_snapshot s) (out_list s)
    (locals s) (threads s) (stdout s) (object s).
Definition set_threads (s : logger) (ts : gmap nat thread_pc) : logger :=
  Logger (m_queues s) (m_queues_mutex s) (heap s) (fresh s) (stop s) (runner s) (q_snapshot s) (out_list s)
    (locals s) ts (stdout s) (object s).
Definition set_object (s : logger) (p : object_pc) : logger :=
  Logger (m_queues s) (m_queues_mutex s) (heap s) (fresh s) (stop s) (runner s) (q_snapshot s) (out_list s)
    (locals s) (threads s) (stdout s) p.
Definition set_output (s : logger) (recs : list R) (ls : list str) : logger :=
  Logger (m_queues s) (m_queues_mutex s) (heap s) (fresh s) (stop s) (runner s) (q_snapshot s) recs
    (locals s) (threads s) (stdout s ++ ls) (object s).

(** [m_queues] is being written by the constructor, which takes no mutex. *)
Definition constructing (p : object_pc) : bool :=
  match p with P_start | P_queues | P_reserve => true | _ => false end.

(** One step of the consumer thread. *)
Definition run_step (s : logger) : outcome (logger * option event) :=
  match runner s with
  | R_unborn | R_end => Ret (s, None)
  | R_test =>
      Ret (if stop s then set_runner s (R_pop true (q_snapshot s))
           else set_runner (set_snapshot s []) R_lock, None)
  | R_lock =>
      Ret (if m_queues_mutex s then s else set_runner (set_mutex s true) R_copy, None)
  | R_copy =>
      if constructing (object s) then Undef
      else Ret (set_runner (set_snapshot s (m_queues s)) R_unlock, None)
  | R_unlock => Ret (set_runner (set_mutex s false) (R_pop false (q_snapshot s)), None)
  | R_pop final [] => Ret (set_runner s (if final then R_end else R_test), None)
  | R_pop final (q :: rest) =>
      match heap s !! q with
      | None => Undef
      | Some qu =>
          let! (qu, popped) := queue_pop_step qu in
          let s := set_heap s (<[q := qu]> (heap s)) in
          match popped with
          | None => Ret (s, None)
          | Some (Some rec) =>
              require! (length (out_list s) <? OUT_LIST_SIZE)%nat;;
              let recs := out_list s ++ [rec] in
              if (OUT_LIST_SIZE <=? length recs)%nat
              then let! ls := _flush recs in Ret (set_output s [] ls, Some (Ev_pop q rec))
              else Ret (set_output s recs [], Some (Ev_pop q rec))
          | Some None =>
              let! ls := _flush (out_list s) in
              Ret (set_runner (set_output s [] ls) (R_pop final rest), None)
          end
      end
  end.

Definition appends (p : thread_pc) : bool := match p with L_append _ _ => true | _ => false end.

(** One step of thread [t]. *)
Definition thread_step (s : logger) (t : nat) : outcome (logger * option event) :=
  let goto s p := set_threads s (<[t := p]> (threads s)) in
  let leave s := set_threads s (delete t (threads s)) in
  match threads s !! t with
  | None => Ret (s, None)
  | Some (L_get rec) =>
      Ret (goto s (match locals s !! t with Some q => L_push rec q | None => L_new rec end), None)
  | Some (L_new rec) =>
      Ret (Logger (m_queues s) (m_queues_mutex s) (<[fresh s := queue_new]> (heap s)) (S (fresh s)) (stop s)
             (runner s) (q_snapshot s) (out_list s) (locals s)
             (<[t := L_lock rec (fresh s)]> (threads s)) (stdout s) (object s), None)
  | Some (L_lock rec q) =>
      Ret (if m_queues_mutex s then s else goto (set_mutex s true) (L_append rec q), None)
  | Some (L_append rec q) =>
      Ret (Logger (m_queues s ++ [q]) (m_queues_mutex s) (heap s) (fresh s) (stop s) (runner s)
             (q_snapshot s) (out_list s) (locals s) (<[t := L_unlock rec q]> (threads s)) (stdout s)
             (object s), None)
  | Some (L_unlock rec q) =>
      Ret (Logger (m_queues s) false (heap s) (fresh s) (stop s) (runner s) (q_snapshot s) (out_list s)
             (<[t := q]> (locals s)) (<[t := L_push rec q]> (threads s)) (stdout s) (object s), None)
  | Some (L_push rec q) =>
      match heap s !! q with
      | None => Undef
      | Some qu =>
          let! (qu, pushed) := queue_push_step rec qu in
          let s := set_heap s (<[q := qu]> (heap s)) in
          match pushed with
          | None => Ret (s, None)
          | Some true => Ret (leave s, Some (Ev_log t q rec))
          | Some false => Ret (leave s, Some (Ev_drop t q rec))
          end
      end
  | Some N_read =>
      (* the mutex is not taken *)
      if decide (map_Forall (λ _ p, appends p = false) (threads s))
      then Ret (leave s, Some (Ev_num t (length (m_queues s)))) else Undef
  end.

(** One step of the constructor or the destructor. *)
Definition object_step (s : logger) : outcome (logger * option event) :=
  let racing := match runner s with R_copy => true | _ => false end in
  match object s with
  | P_start => Ret (set_object (set_runner s R_test) P_queues, None)
  | P_queues => if racing then Undef else Ret (set_object s P_reserve, None)
  | P_reserve => if racing then Undef else Ret (set_object s P_ready, None)
  | P_ready | P_done => Ret (s, None)
  | P_join =>
      Ret (match runner s with R_end => set_object s (P_delete (m_queues s)) | _ => s end, None)
  | P_delete [] => Ret (set_object s P_done, None)
  | P_delete (q :: rest) =>
      match heap s !! q with
      | None => Undef
      | Some qu =>
          let! _ := queue_delete qu in
          Ret (set_object (set_heap s (delete q (heap s))) (P_delete rest), None)
      end
  end.

Inductive action : Type :=
| RunObject
| CallLog (t : nat) (rec : R)
| CallNum (t : nat)
| RunThread (t : nat)
| RunRunner
| CallDestructor.

(** [get_instance] hands the object out once it is constructed; it is destroyed
    when no thread is in a call, and not used afterwards. *)
Definition call (s : logger) (t : nat) (p : thread_pc) : logger :=
  match object s, threads s !! t with
  | P_ready, None => set_threads s (<[t := p]> (threads s))
  | _, _ => s
  end.

Definition request_stop (s : logger) : logger :=
  Logger (m_queues s) (m_queues_mutex s) (heap s) (fresh s) true (runner s) (q_snapshot s) (out_list s)
    (locals s) (threads s) (stdout s) P_join.

Definition exec (s : logger) (a : action) : outcome (logger * option event) :=
  match a with
  | RunObject => object_step s
  | CallLog t rec => Ret (call s t (L_get rec), None)
  | CallNum t => Ret (call s t N_read, None)
  | RunThread t => thread_step s t
  | RunRunner => run_step s
  | CallDestructor =>
      Ret (match object s with
           | P_ready => if decide (threads s = ∅) then request_stop s else s
           | _ => s
           end, None)
  end.

Definition logged_to (q : nat) (es : list event) : list R :=
  omap (λ e, match e with Ev_log _ q' r => if decide (q' = q) then Some r else None | _ => None end) es.
Definition logged_by (t : nat) (es : list event) : list R :=
  omap (λ e, match e with Ev_log t' _ r => if decide (t' = t) then Some r else None | _ => None end) es.
Definition popped_from (q : nat) (es : list event) : list R :=
  omap (λ e, match e with Ev_pop q' r => if decide (q' = q) then Some r else None | _ => None end) es.
Definition popped (es : list event) : list R :=
  omap (λ e, match e with Ev_pop _ r => Some r | _ => None end) es.
End SPSCLogger.

#[export] Instance run_pc_eq_dec : EqDecision run_pc.
Proof. solve_decision. Defined.

Arguments thread_pc R : clear implicits.
Arguments logger R Q : clear implicits.
Arguments event R : clear implicits.
Arguments action R : clear implicits.

Lemma logged_to_app {R} q (es es' : list (event R)) : logged_to q (es ++ es') = logged_to q es ++ logged_to q es'.
Proof. apply omap_app. Qed.
Lemma popped_from_app {R} q (es es' : list (event R)) : popped_from q (es ++ es') = popped_from q es ++ popped_from q es'.
Proof. apply omap_app. Qed.
Lemma popped_app {R} (es es' : list (event R)) : popped (es ++ es') = popped es ++ popped es'.
Proof. apply omap_app. Qed.

Abbreviation step w := (machine_step (exec w)).

(** ** The queues are used as [SPSCQueue] specifies *)

Lemma queue_push_fifo {R} (rs : list R) rec :
  (zlen rs ≤ QUEUE_SIZE)%Z →
  match queue_push rs rec with
  | Some rs' => fifo_step 10 rs (SPSCQueue.Ev_push rec) rs'
  | None => fifo_step 10 rs (SPSCQueue.Ev_push_full rec) rs
  end.
Proof.
  intros Hle. unfold queue_push. destruct (Z.eqb_spec (zlen rs) QUEUE_SIZE).
  - by apply fifo_push_full.
  - apply fifo_push. change (kCapacity 10) with QUEUE_SIZE. lia.
Qed.

Lemma queue_pop_fifo {R} (rs : list R) :
  match queue_pop rs with
  | Some (rec, rs') => fifo_step 10 rs (SPSCQueue.Ev_pop rec) rs'
  | None => fifo_step 10 rs SPSCQueue.Ev_pop_empty rs
  end.
Proof. destruct rs; constructor. Qed.

(** An operation that leaves its queue as it was. *)
Lemma set_heap_same {R Q} (s : logger R Q) q qu :
  heap s !! q = Some qu → set_heap s (<[q := qu]> (heap s)) = s.
Proof. intros Hq. unfold set_heap. rewrite insert_id by done. by destruct s. Qed.

#[local] Arguments Nat.leb : simpl never.
#[local] Arguments Nat.ltb : simpl never.

(** * Invariants *)

Section Invariants.
Context {R : Type} (write_line : R → outcome str).
Implicit Types (s : logger R (list R)) (p : thread_pc R) (rs : list R).

Definition deleting (o : object_pc) : bool := match o with P_delete _ | P_done => true | _ => false end.
Definition stopping (o : object_pc) : bool := match o with P_join => true | _ => deleting o end.

(** The queue a thread in its first call is registering. *)
Definition pc_queue p : option nat :=
  match p with L_lock _ q | L_append _ q | L_unlock _ q => Some q | _ => None end.
Definition registering p : bool :=
  match p with L_new _ | L_lock _ _ | L_append _ _ | L_unlock _ _ => true | _ => false end.

(** The queue that belongs to thread [t]. *)
Definition queue_of s (t : nat) : option nat :=
  match locals s !! t with Some q => Some q | None => threads s !! t ≫= pc_queue end.

Record threads_ok s : Prop := ThreadsOk {
  th_inj : ∀ t t' q, queue_of s t = Some q → queue_of s t' = Some q → t = t';
  th_push : ∀ t rec q, threads s !! t = Some (L_push rec q) → locals s !! t = Some q;
  th_reg : ∀ t p, threads s !! t = Some p → registering p = true → locals s !! t = None;
  th_fresh : ∀ t q, queue_of s t = Some q → q < fresh s ∧ (deleting (object s) = false → is_Some (heap s !! q));
  th_heap : ∀ q, is_Some (heap s !! q) → q < fresh s;
  th_queues : ∀ q, q ∈ m_queues s → deleting (object s) = false → is_Some (heap s !! q)
}.

(** The consumer has emptied [q] for good. *)
Definition drained s : Prop :=
  match runner s with
  | R_pop true rest => ∀ q, q ∈ q_snapshot s → (q ∉ rest) → heap s !! q = Some []
  | R_end => deleting (object s) = false → ∀ q, q ∈ q_snapshot s → heap s !! q = Some []
  | _ => True
  end.

Definition past_loop (r : run_pc) : bool := match r with R_pop true _ | R_end => true | _ => false end.

Record runner_ok s : Prop := RunnerOk {
  ru_snapshot : q_snapshot s ⊆ m_queues s;
  ru_rest : match runner s with R_pop _ rest => rest ⊆ q_snapshot s | _ => True end;
  ru_final : past_loop (runner s) = true → stop s = true;
  ru_out : length (out_list s) < OUT_LIST_SIZE ∧
    match runner s with R_pop _ (_ :: _) => True | _ => out_list s = [] end;
  ru_drained : drained s;
  ru_unborn : runner s = R_unborn ↔ object s = P_start;
  ru_end : deleting (object s) = true → runner s = R_end
}.

Definition t_holds p : nat := match p with L_append _ _ | L_unlock _ _ => 1 | _ => 0 end.
Definition r_holds (r : run_pc) : nat := match r with R_copy | R_unlock => 1 | _ => 0 end.

Record shared_ok s : Prop := SharedOk {
  sh_stop : stop s = stopping (object s);
  sh_idle : object s ≠ P_ready → threads s = ∅;
  sh_mutex : msum t_holds (threads s) + r_holds (runner s) = Nat.b2n (m_queues_mutex s);
  sh_size : ∀ q rs, heap s !! q = Some rs → (zlen rs ≤ QUEUE_SIZE)%Z
}.

Definition logger_ok s : Prop := threads_ok s ∧ runner_ok s ∧ shared_ok s.

Lemma logger_ok_init : logger_ok init.
Proof.
  split_and!; split; unfold queue_of; simpl; try done; rewrite ?msum_empty; try done.
  all: try (intros *; rewrite ?lookup_empty; done).
  - intros q Hq. by apply elem_of_nil in Hq.
  - split; [unfold OUT_LIST_SIZE; lia | done].
Qed.

(** *** Steps of the consumer *)

(** Nothing the other threads rely on changes, but the contents of queues. *)
Lemma threads_ok_same s s' :
  threads_ok s → m_queues s' = m_queues s → fresh s' = fresh s → locals s' = locals s →
  threads s' = threads s → deleting (object s') = deleting (object s) →
  (∀ q, is_Some (heap s' !! q) ↔ is_Some (heap s !! q)) → threads_ok s'.
Proof.
  intros [H1 H2 H3 H4 H5 H6] Eq Ef El Et Eo Hh.
  assert (∀ t, queue_of s' t = queue_of s t) as Hown by (intros; unfold queue_of; by rewrite El, Et).
  split; rewrite ?Eq, ?Ef, ?El, ?Et, ?Eo; auto.
  - intros t t' q. rewrite !Hown. apply H1.
  - intros t q Hq. rewrite Hown in Hq. rewrite Hh. by apply (H4 t).
  - intros q. rewrite Hh. apply H5.
  - intros q Hq Hd. rewrite Hh. auto.
Qed.

Lemma heap_same (h : gmap nat (list R)) q rs rs' :
  h !! q = Some rs → ∀ q', is_Some (<[q := rs']> h !! q') ↔ is_Some (h !! q').
Proof.
  intros Hq q'. destruct (decide (q' = q)) as [-> | Hne].
  - rewrite lookup_insert_eq, Hq. split; by eexists.
  - by rewrite lookup_insert_ne.
Qed.

Lemma queue_pop_size rs rec rs' : queue_pop rs = Some (rec, rs') → rs = rec :: rs'.
Proof. destruct rs; [done |]. by intros [= -> ->]. Qed.

(** One record of the queue [q] goes to the output list, which may be flushed. *)
Lemma pop_record_ok s final q rest rec rs out ls :
  logger_ok s → runner s = R_pop final (q :: rest) → heap s !! q = Some (rec :: rs) →
  length out < OUT_LIST_SIZE → logger_ok (set_output (set_heap s (<[q := rs]> (heap s))) out ls).
Proof.
  intros (Hth & Hru & Hsh) Hr Hq Hlen. split_and!.
  - eapply threads_ok_same; try done. by eapply heap_same.
  - destruct Hru as [Hsnap Hrest Hfin _ Hdr Hun Hend]. unfold drained in *.
    split; unfold drained; simpl; rewrite ?Hr in *; try done. destruct final; [| done].
    intros q' Hin Hnot. rewrite lookup_insert_ne by (intros ->; apply Hnot, list_elem_of_here). by apply Hdr.
  - destruct Hsh as [Hst Hid Hm Hsz]. split; simpl; try done.
    intros q' l [[<- <-] | [_ Hl]]%lookup_insert_Some; [| eauto].
    specialize (Hsz q (rec :: rs) Hq). simpl in Hsz. lia.
Qed.

(** The queue [q] is empty: the output list is flushed, and the next queue is due. *)
Lemma pop_empty_ok s final q rest ls :
  logger_ok s → runner s = R_pop final (q :: rest) → heap s !! q = Some [] →
  logger_ok (set_runner (set_output s [] ls) (R_pop final rest)).
Proof.
  intros (Hth & Hru & Hsh) Hr Hq. split_and!.
  - by eapply threads_ok_same.
  - destruct Hru as [Hsnap Hrest Hfin _ Hdr Hun Hend]. unfold drained in *.
    split; unfold drained; simpl; rewrite ?Hr in *; try done.
    + intros x Hx. apply Hrest. by apply list_elem_of_further.
    + split; [unfold OUT_LIST_SIZE; lia | by destruct rest].
    + destruct final; [| done]. intros q' Hin Hnot. destruct (decide (q' = q)) as [-> | Hne]; [done |].
      apply Hdr; [done |]. rewrite not_elem_of_cons. tauto.
    + by rewrite <-Hun.
    + intros Hd. by specialize (Hend Hd).
  - destruct Hsh as [Hst Hid Hm Hsz]. split; simpl; try done. by rewrite Hr in Hm.
Qed.

(** The consumer goes from one program point to another, outside the popping. *)
Lemma runner_move_ok s s' :
  logger_ok s → runner s ≠ R_unborn → runner s' ≠ R_unborn → runner s ≠ R_end →
  (m_queues s', heap s', fresh s', stop s', out_list s', locals s', threads s', object s')
    = (m_queues s, heap s, fresh s, stop s, [], locals s, threads s, object s) →
  q_snapshot s' ⊆ m_queues s → match runner s' with R_pop _ rest => rest ⊆ q_snapshot s' | _ => True end →
  (past_loop (runner s') = true → stop s = true) → drained s' →
  r_holds (runner s') + Nat.b2n (m_queues_mutex s) = r_holds (runner s) + Nat.b2n (m_queues_mutex s') →
  logger_ok s'.
Proof.
  intros (Hth & Hru & Hsh) Hr Hr' Hend [= Eq Eh Ef Es Eo El Et Eb] Hsnap Hrest Hpast Hdr Hm. split_and!.
  - apply (threads_ok_same s); rewrite ?Eb, ?Eh; done.
  - destruct Hru as [_ _ _ _ _ Hun Hdel]. split; rewrite ?Eq, ?Es, ?Eb; try done.
    + rewrite Eo. split; [unfold OUT_LIST_SIZE; simpl; lia |]. by destruct (runner s') as [| | | | | ? [] |].
    + split; [done | by intros ?%Hun].
    + intros Hd. by specialize (Hdel Hd).
  - destruct Hsh as [Hst Hid Hmx Hsz]. split; rewrite ?Es, ?Eb, ?Et, ?Eh; try done. lia.
Qed.

Lemma run_step_ok s s' e : logger_ok s → run_step write_line s = Ret (s', e) → logger_ok s'.
Proof.
  intros Hok. pose proof Hok as (_ & [Hsnap Hrest Hfin [Hlen Hout] Hdr _ _] & _). unfold run_step.
  pose proof (λ s', runner_move_ok s s' Hok) as Hmove. unfold drained in *.
  destruct (runner s) as [| | | | | final rest |] eqn:Hr; simpl in Hmove.
  - by intros [= <- <-].
  - intros [= <- <-]. destruct (stop s) eqn:Hs; apply Hmove; simpl; rewrite ?Hs, ?Hout; try done.
    apply list_subseteq_nil.
  - intros [= <- <-]. destruct (m_queues_mutex s) eqn:Hmx; [done |]. apply Hmove; simpl; rewrite ?Hmx, ?Hout; done.
  - destruct (constructing (object s)); [done |]. intros [= <- <-]. apply Hmove; simpl; rewrite ?Hout; done.
  - intros [= <- <-]. assert (m_queues_mutex s = true) as Hmx.
    { destruct Hok as (_ & _ & [_ _ Hm _]). rewrite Hr in Hm. simpl in Hm. destruct (m_queues_mutex s); [done | simpl in Hm; lia]. }
    apply Hmove; simpl; rewrite ?Hmx, ?Hout; done.
  - destruct rest as [| q rest].
    + intros [= <- <-]. destruct final; apply Hmove; simpl; rewrite ?Hout; try done.
      intros _ q Hq. by apply Hdr; [| apply not_elem_of_nil].
    + destruct (heap s !! q) as [rs |] eqn:Hq; [| done]. simpl. destruct rs as [| rec rs]; simpl.
      * destruct (_flush _ _) as [ls | | | |]; [| done..]. simpl. intros [= <- <-].
        rewrite set_heap_same by done. by eapply pop_empty_ok.
      * rewrite (proj2 (Nat.ltb_lt _ _)) by done. cbv zeta.
        destruct (Nat.leb_spec OUT_LIST_SIZE (length (out_list s ++ [rec]))).
        -- destruct (_flush _ _) as [ls | | | |]; [| done..]. simpl. intros [= <- <-].
           eapply pop_record_ok; try done. unfold OUT_LIST_SIZE. simpl. lia.
        -- intros [= <- <-]. by eapply pop_record_ok.
  - by intros [= <- <-].
Qed.

(** *** Steps of the logging threads *)

Lemma runner_ok_live s s' :
  runner_ok s → stop s = false → m_queues s ⊆ m_queues s' → stop s' = stop s →
  runner s' = runner s → q_snapshot s' = q_snapshot s → out_list s' = out_list s →
  object s' = object s → runner_ok s'.
Proof.
  intros [H1 H2 H3 H4 H5 H6 H7] Hlive Eq Es Er En Eo Eb.
  assert (past_loop (runner s) = false) as Hloop.
  { destruct (past_loop (runner s)); [by rewrite H3 in Hlive |done]. }
  split; rewrite ?Es, ?Er, ?En, ?Eo, ?Eb; try done.
  - by etrans.
  - unfold drained. rewrite Er. by destruct (runner s) as [| | | | | [] |].
Qed.

(** Thread [t] moves from [p] to [po]; whose queue is whose does not change. *)
Lemma threads_ok_move s s' t p po :
  threads_ok s → threads s !! t = Some p → threads s' = partial_alter (λ _, po) t (threads s) →
  queue_of s' t = queue_of s t → (∀ u, u ≠ t → locals s' !! u = locals s !! u) →
  (∀ rec q, po = Some (L_push rec q) → locals s' !! t = Some q) →
  (∀ p', po = Some p' → registering p' = true → locals s' !! t = None) →
  fresh s' = fresh s → object s' = object s → deleting (object s) = false →
  (∀ q, is_Some (heap s' !! q) ↔ is_Some (heap s !! q)) →
  (∀ q, q ∈ m_queues s' → q ∈ m_queues s ∨ queue_of s t = Some q) →
  threads_ok s'.
Proof.
  intros [H1 H2 H3 H4 H5 H6] Ht Eth Eown Eloc Hpush Hreg Ef Eo Hd Hh Hqs.
  assert (∀ u, threads s' !! u = if decide (u = t) then po else threads s !! u) as Hlook.
  { intros u. rewrite Eth. case_decide as Hu.
    - subst. by rewrite lookup_partial_alter_eq.
    - by rewrite lookup_partial_alter_ne. }
  assert (∀ u, queue_of s' u = queue_of s u) as Hown.
  { intros u. destruct (decide (u = t)) as [-> | Hu]; [done |].
    unfold queue_of. by rewrite Eloc, Hlook, decide_False. }
  split; rewrite ?Ef, ?Eo.
  - intros u u' q. rewrite !Hown. apply H1.
  - intros u rec q. rewrite Hlook. case_decide as Hu; [subst; apply Hpush |]. rewrite Eloc by done. apply H2.
  - intros u p'. rewrite Hlook. case_decide as Hu; [subst; apply Hreg |]. rewrite Eloc by done. apply H3.
  - intros u q Hq. rewrite Hown in Hq. rewrite Hh. by apply (H4 u).
  - intros q. rewrite Hh. apply H5.
  - intros q Hq _. rewrite Hh. destruct (Hqs q Hq) as [? | Hq']; [by apply H6 | by apply (H4 t)].
Qed.

(** The first call of thread [t] makes its queue. *)
Lemma threads_ok_new s t rec :
  threads_ok s → threads s !! t = Some (L_new rec) → deleting (object s) = false →
  threads_ok (Logger (m_queues s) (m_queues_mutex s) (<[fresh s := []]> (heap s)) (S (fresh s)) (stop s)
    (runner s) (q_snapshot s) (out_list s) (locals s)
    (<[t := L_lock rec (fresh s)]> (threads s)) (stdout s) (object s)).
Proof.
  intros [H1 H2 H3 H4 H5 H6] Ht Hd. set (s' := Logger _ _ _ _ _ _ _ _ _ _ _ _).
  pose proof (H3 t _ Ht eq_refl) as Hnone.
  assert (queue_of s' t = Some (fresh s)) as Hmine.
  { unfold queue_of, s'. simpl. by rewrite Hnone, lookup_insert_eq. }
  assert (∀ u, u ≠ t → queue_of s' u = queue_of s u) as Hother.
  { intros u Hu. unfold queue_of, s'. simpl. by rewrite lookup_insert_ne. }
  assert (∀ u q, u ≠ t → queue_of s' u = Some q → q < fresh s) as Hold.
  { intros u q Hu. rewrite Hother by done. apply H4. }
  assert (∀ q, is_Some (heap s !! q) → is_Some (<[fresh s:=[]]> (heap s) !! q)) as Hheap.
  { intros q Hq. apply lookup_insert_is_Some'. by right. }
  split; simpl.
  - intros u u' q Hu Hu'. destruct (decide (u = t)) as [-> |], (decide (u' = t)) as [-> |]; [done | | |].
    + rewrite Hmine in Hu. simplify_eq. apply Hold in Hu'; [lia | done].
    + rewrite Hmine in Hu'. simplify_eq. apply Hold in Hu; [lia | done].
    + rewrite Hother in Hu, Hu' by done. by apply (H1 u u' q).
  - intros u r q [[<- ?] | [? ?]]%lookup_insert_Some; [done | eauto].
  - intros u p [[<- <-] | [? ?]]%lookup_insert_Some; [done | eauto].
  - intros u q Hu. destruct (decide (u = t)) as [-> | Hne].
    + rewrite Hmine in Hu. simplify_eq. split; [lia |]. intros _. by rewrite lookup_insert_eq.
    + rewrite Hother in Hu by done. destruct (H4 u q Hu) as [? Hs]. split; [lia |]. auto.
  - intros q [<- | Hq%H5]%lookup_insert_is_Some'; lia.
  - intros q Hq _. auto.
Qed.

(** A step of thread [t] from [p] to [po], inside an object that is ready. *)
Lemma logger_ok_move s s' t p po :
  logger_ok s → object s = P_ready → threads s !! t = Some p →
  threads s' = partial_alter (λ _, po) t (threads s) →
  queue_of s' t = queue_of s t → (∀ u, u ≠ t → locals s' !! u = locals s !! u) →
  (∀ rec q, po = Some (L_push rec q) → locals s' !! t = Some q) →
  (∀ p', po = Some p' → registering p' = true → locals s' !! t = None) →
  (fresh s', object s', stop s', runner s', q_snapshot s', out_list s')
    = (fresh s, object s, stop s, runner s, q_snapshot s, out_list s) →
  (∀ q, is_Some (heap s' !! q) ↔ is_Some (heap s !! q)) →
  (∀ q rs, heap s' !! q = Some rs → (zlen rs ≤ QUEUE_SIZE)%Z) →
  m_queues s ⊆ m_queues s' → (∀ q, q ∈ m_queues s' → q ∈ m_queues s ∨ queue_of s t = Some q) →
  from_option t_holds 0 po + Nat.b2n (m_queues_mutex s) = t_holds p + Nat.b2n (m_queues_mutex s') →
  logger_ok s'.
Proof.
  intros (Hth & Hru & Hsh) Ho Ht Eth Eown Eloc Hpush Hreg [= Ef Eo Es Er En Eu] Hh Hsz Hsub Hqs Hm.
  assert (stop s = false) as Hstop by (by rewrite (sh_stop _ Hsh), Ho).
  split_and!.
  - eapply threads_ok_move; try done. by rewrite Ho.
  - by eapply runner_ok_live.
  - destruct Hsh as [Hst Hid Hmx _]. split; rewrite ?Eo, ?Es, ?Er; try done.
    rewrite Eth. destruct po as [p' |]; simpl in Hm.
    + pose proof (msum_replace t_holds _ _ _ p' Ht) as Hs. unfold insert, map_insert in Hs. lia.
    + pose proof (msum_remove t_holds _ _ _ Ht) as Hs. unfold delete, map_delete in Hs. lia.
Qed.

Lemma logger_ok_new s t rec :
  logger_ok s → object s = P_ready → threads s !! t = Some (L_new rec) →
  logger_ok (Logger (m_queues s) (m_queues_mutex s) (<[fresh s := []]> (heap s)) (S (fresh s)) (stop s)
    (runner s) (q_snapshot s) (out_list s) (locals s)
    (<[t := L_lock rec (fresh s)]> (threads s)) (stdout s) (object s)).
Proof.
  intros (Hth & Hru & Hsh) Ho Ht. split_and!.
  - apply (threads_ok_new _ t rec Hth Ht). by rewrite Ho.
  - eapply runner_ok_live; try done. by rewrite (sh_stop _ Hsh), Ho.
  - destruct Hsh as [Hst Hid Hmx Hsz]. split; simpl; try done.
    + pose proof (msum_replace t_holds _ _ _ (L_lock rec (fresh s)) Ht) as Hm. simpl in Hm. lia.
    + intros q rs [[<- <-] | [_ ?]]%lookup_insert_Some; [unfold QUEUE_SIZE; simpl; lia | eauto].
Qed.

(** A call that pushes its record. *)
Lemma push_step_ok s t rec q rs rs' :
  logger_ok s → object s = P_ready → threads s !! t = Some (L_push rec q) → heap s !! q = Some rs →
  (zlen rs' ≤ QUEUE_SIZE)%Z →
  logger_ok (set_threads (set_heap s (<[q := rs']> (heap s))) (delete t (threads s))).
Proof.
  intros Hok Ho Ht Hq Hsz. pose proof Hok as (Hth & _ & Hsh).
  apply (logger_ok_move s _ t (L_push rec q) None); try done; simpl.
  - unfold queue_of. simpl. by rewrite (th_push _ Hth t rec q Ht).
  - by eapply heap_same.
  - intros q' l [[<- <-] | [_ Hl]]%lookup_insert_Some; [done | by eapply (sh_size _ Hsh)].
  - by left.
Qed.

Lemma thread_step_ok s t s' e : logger_ok s → thread_step s t = Ret (s', e) → logger_ok s'.
Proof.
  intros Hok. pose proof Hok as (Hth & Hru & Hsh). unfold thread_step.
  destruct (threads s !! t) as [p |] eqn:Ht; [| by intros [= <- <-]].
  assert (object s = P_ready) as Ho.
  { destruct (object s) eqn:Ho; try done;
      (pose proof (sh_idle _ Hsh) as Hid; rewrite Ho in Hid; by rewrite Hid in Ht). }
  pose proof (λ s' po, logger_ok_move s s' t p po Hok Ho Ht) as Hmove.
  pose proof (th_reg _ Hth _ _ Ht) as Hreg. pose proof (sh_size _ Hsh) as Hsz.
  destruct p as [rec | rec | rec q | rec q | rec q | rec q |].
  - intros [= <- <-]. destruct (locals s !! t) as [q |] eqn:Hl.
    + apply (Hmove _ (Some (L_push rec q))); unfold queue_of; simpl; try done; [by rewrite Hl | | | by left].
      * by intros ? ? [= -> ->].
      * by intros ? [= <-].
    + apply (Hmove _ (Some (L_new rec))); unfold queue_of; simpl; try done; [| by left].
      by rewrite Hl, Ht, lookup_insert_eq.
  - intros [= <- <-]. by apply logger_ok_new.
  - destruct (m_queues_mutex s) eqn:Hmx; intros [= <- <-]; [done |].
    apply (Hmove _ (Some (L_append rec q))); unfold queue_of; simpl; try done; [| auto | by left].
    by rewrite (Hreg eq_refl), Ht, lookup_insert_eq.
  - intros [= <- <-]. apply (Hmove _ (Some (L_unlock rec q))); unfold queue_of; simpl; try done.
    + by rewrite (Hreg eq_refl), Ht, lookup_insert_eq.
    + auto.
    + intros x Hx. apply elem_of_app. by left.
    + intros q' [? | ->%list_elem_of_singleton]%elem_of_app; [by left | right]. by rewrite (Hreg eq_refl), Ht.
  - intros [= <- <-]. assert (m_queues_mutex s = true) as Hmx.
    { pose proof (sh_mutex _ Hsh) as Hm. pose proof (msum_ge t_holds _ _ _ Ht). destruct (m_queues_mutex s); [done |].
      simpl in *. lia. }
    apply (Hmove _ (Some (L_push rec q))); unfold queue_of; simpl; rewrite ?Hmx; try done.
    + by rewrite lookup_insert_eq, (Hreg eq_refl), Ht.
    + intros u Hu. by rewrite lookup_insert_ne.
    + intros ? ? [= -> ->]. by rewrite lookup_insert_eq.
    + by intros p' [= <-].
    + by left.
  - destruct (heap s !! q) as [rs |] eqn:Hq; [| done]. simpl. unfold queue_push.
    specialize (Hsz q rs Hq). destruct (Z.eqb_spec (zlen rs) QUEUE_SIZE); intros [= <- <-].
    + by eapply push_step_ok.
    + eapply push_step_ok; try done. rewrite length_app. simpl. lia.
  - case_decide; [| done]. intros [= <- <-].
    apply (Hmove _ None); unfold queue_of; simpl; try done; [| by left]. by rewrite Ht, lookup_delete_eq.
Qed.

(** *** Steps of the constructor and the destructor *)

Lemma threads_ok_object s ob :
  threads_ok s → (deleting ob = false → deleting (object s) = false) → threads_ok (set_object s ob).
Proof.
  intros [H1 H2 H3 H4 H5 H6] Hd. split; simpl; auto.
  intros t q Hq. destruct (H4 t q Hq). auto.
Qed.

Lemma object_step_ok s s' e : logger_ok s → object_step s = Ret (s', e) → logger_ok s'.
Proof.
  intros (Hth & Hru & Hsh). unfold object_step.
  pose proof (λ ob, threads_ok_object s ob Hth) as Hobj.
  destruct s as [qs mx h fr st ru snap out lo th so ob]. simpl in *.
  destruct Hru as [Hsnap Hrest Hfin [Hlen Hout] Hdr Hun Hend].
  destruct Hsh as [Hst Hid Hm Hsz]. unfold drained in *. simpl in *.
  destruct ob as [| | | | | [| q rest] |]; simpl in *.
  - assert (ru = R_unborn) as -> by (by apply Hun). intros [= <- <-]. split_and!.
    + eapply threads_ok_same; [by apply (Hobj P_queues) | done..].
    + split; unfold drained; simpl; try done.
    + split; simpl; try done. intros _. by apply Hid.
  - destruct ru; intros [= <- <-]; (split_and!; [by apply Hobj | |]; split; unfold drained; simpl; try done);
      try (intros _; by apply Hid); try (split; [by intros ?%Hun | done]).
  - destruct ru; intros [= <- <-]; (split_and!; [by apply Hobj | |]; split; unfold drained; simpl; try done);
      try (intros _; by apply Hid); try (split; [by intros ?%Hun | done]).
  - by intros [= <- <-].
  - destruct ru; intros [= <- <-]; (split_and!; [by apply Hobj | |]; split; unfold drained; simpl; try done);
      try (intros _; by apply Hid).
  - intros [= <- <-]. rewrite (Hend eq_refl) in *.
    split_and!; [by apply Hobj | |]; split; unfold drained; simpl; try done. intros _. by apply Hid.
  - destruct (h !! q); [| done]. intros [= <- <-]. rewrite (Hend eq_refl) in *. split_and!.
    + destruct Hth as [H1 H2 H3 H4 H5 H6]. split; simpl; auto; try done.
      * intros t q' Hq. destruct (H4 t q' Hq). by split.
      * intros q' [x [_ Hq]%lookup_delete_Some]. apply H5. by exists x.
    + split; unfold drained; simpl; try done.
    + split; simpl; try done; [intros _; by apply Hid |].
      intros q' l' [_ Hq]%lookup_delete_Some. by apply (Hsz q').
  - by intros [= <- <-].
Qed.

Lemma call_ok s t p :
  logger_ok s → pc_queue p = None → registering p = false → t_holds p = 0 →
  (∀ rec q, p ≠ L_push rec q) → logger_ok (call s t p).
Proof.
  intros (Hth & Hru & Hsh) Hp Hreg Hh Hpush. unfold call.
  destruct (object s) eqn:Ho; try done. destruct (threads s !! t) eqn:Ht; [done |].
  destruct Hsh as [Hst Hid Hm Hsz]. split_and!.
  - destruct Hth as [H1 H2 H3 H4 H5 H6].
    assert (∀ u, queue_of (set_threads s (<[t:=p]> (threads s))) u = queue_of s u) as Hown.
    { intros u. unfold queue_of. simpl. destruct (decide (u = t)) as [-> | Hne].
      - rewrite lookup_insert_eq, Ht. simpl. by rewrite Hp.
      - by rewrite lookup_insert_ne. }
    split; simpl; auto.
    + intros u u' q. rewrite !Hown. apply H1.
    + intros u rec q [[<- ?] | [? ?]]%lookup_insert_Some; [by destruct (Hpush rec q) | eauto].
    + intros u p' [[<- <-] | [? ?]]%lookup_insert_Some; [congruence | eauto].
    + intros u q Hq. rewrite Hown in Hq. by apply (H4 u).
  - eapply runner_ok_live; try done. by rewrite Hst, Ho.
  - split; simpl; try done. rewrite msum_insert_fresh by done. lia.
Qed.

Lemma request_stop_ok s : logger_ok s → object s = P_ready → threads s = ∅ → logger_ok (request_stop s).
Proof.
  intros (Hth & Hru & Hsh) Ho Ht.
  destruct Hru as [Hsnap Hrest Hfin Hlen Hdr Hun Hend]. destruct Hsh as [Hst Hid Hm Hsz].
  unfold drained in *. rewrite Ho in *. split_and!.
  - destruct Hth as [H1 H2 H3 H4 H5 H6]. rewrite Ho in *. by split.
  - split; unfold drained; simpl; try done. split; [by intros ?%Hun | done].
  - by split.
Qed.

Lemma exec_ok s a s' e : logger_ok s → exec write_line s a = Ret (s', e) → logger_ok s'.
Proof.
  intros Hok. destruct a; simpl.
  - by apply object_step_ok.
  - intros [= <- <-]. by apply call_ok.
  - intros [= <- <-]. by apply call_ok.
  - by apply thread_step_ok.
  - by apply run_step_ok.
  - intros [= <- <-]. destruct (object s) eqn:Ho; try done. case_decide; [| done]. by apply request_stop_ok.
Qed.

(** *** The records along a run *)

Implicit Types (tr : list (action R * option (event R))).

Record accounted (es : list (event R)) s : Prop := Accounted {
  ac_queue : ∀ q rs, heap s !! q = Some rs → logged_to q es = popped_from q es ++ rs;
  ac_fresh : ∀ q, fresh s ≤ q → logged_to q es = [] ∧ popped_from q es = [];
  ac_owner : ∀ t q rec, Ev_log t q rec ∈ es → locals s !! t = Some q;
  ac_out : ∃ flushed, popped es = flushed ++ out_list s ∧
    Forall2 (λ rec l, write_line rec = Ret l) flushed (stdout s)
}.

Lemma flush_lines recs ls :
  _flush write_line recs = Ret ls → Forall2 (λ rec l, write_line rec = Ret l) recs ls.
Proof.
  revert ls. induction recs as [| rec recs IH]; intros ls; simpl; [by intros [= <-] |].
  destruct (write_line rec) as [l | | | |] eqn:Hl; simpl; try done.
  destruct (_flush write_line recs) as [ls' | | | |]; simpl; try done.
  intros [= <-]. constructor; auto.
Qed.

(** What one step adds to the account. *)
Record booked s s' (es : list (event R)) : Prop := Booked {
  bk_queue : ∀ q rs', heap s' !! q = Some rs' →
    (∃ rs, heap s !! q = Some rs ∧ rs ++ logged_to q es = popped_from q es ++ rs') ∨
    (q = fresh s ∧ rs' = [] ∧ logged_to q es = [] ∧ popped_from q es = []);
  bk_fresh : fresh s ≤ fresh s' ∧ ∀ q, fresh s' ≤ q → logged_to q es = [] ∧ popped_from q es = [];
  bk_owner : ∀ t q rec, Ev_log t q rec ∈ es → locals s' !! t = Some q;
  bk_locals : ∀ t q, locals s !! t = Some q → locals s' !! t = Some q;
  bk_out : ∃ flushed ls, out_list s ++ popped es = flushed ++ out_list s' ∧ stdout s' = stdout s ++ ls ∧
    Forall2 (λ rec l, write_line rec = Ret l) flushed ls
}.

Lemma account_step es s s' e : accounted es s → booked s s' e → accounted (es ++ e) s'.
Proof.
  intros [Hq Hf Ho (flushed & Hp & Hw)] [Bq [Bf Bf'] Bo Bl (fl & ls & Bp & Bs & Bw)].
  split.
  - intros q rs' Hrs'. rewrite logged_to_app, popped_from_app. destruct (Bq q rs' Hrs') as [(rs & Hrs & Heq) | (-> & -> & -> & ->)].
    + by rewrite (Hq q rs Hrs), <-!(assoc_L (++)), Heq.
    + by destruct (Hf (fresh s) (le_n _)) as [-> ->].
  - intros q Hle. rewrite logged_to_app, popped_from_app. destruct (Hf q) as [-> ->]; [lia |]. by apply Bf'.
  - intros t q rec [Hin | Hin]%elem_of_app; eauto.
  - exists (flushed ++ fl). rewrite popped_app, Hp, Bs, <-!(assoc_L (++)). split; [by rewrite Bp | by apply Forall2_app].
Qed.

Definition silent (e : option (event R)) : bool :=
  match e with Some (Ev_log _ _ _) | Some (Ev_pop _ _) => false | _ => true end.

(** A step that touches neither queues nor output. *)
Lemma booked_quiet s s' e :
  heap s' = heap s → fresh s' = fresh s → out_list s' = out_list s → stdout s' = stdout s →
  (∀ t q, locals s !! t = Some q → locals s' !! t = Some q) → silent e = true →
  booked s s' (option_list e).
Proof.
  intros Hh Hf Ho Hs Hl He.
  assert (∀ q, logged_to q (option_list e) = [] ∧ popped_from q (option_list e) = [] ∧
    popped (option_list e) = []) as Hsil by (by destruct e as [[] |]).
  split; rewrite ?Hh, ?Hf, ?Ho, ?Hs; auto.
  - intros q rs Hq. left. exists rs. destruct (Hsil q) as (-> & -> & _). by rewrite app_nil_r.
  - split; [done |]. intros q _. by destruct (Hsil q) as (-> & -> & _).
  - intros t q rec Hin. destruct e as [[] |]; try done; by apply list_elem_of_singleton in Hin || by apply elem_of_nil in Hin.
  - exists [], []. destruct (Hsil 0) as (_ & _ & ->). by rewrite !app_nil_r.
Qed.

Lemma booked_pop s s' q rec rs :
  (∀ u, is_Some (heap s !! u) → u < fresh s) → heap s !! q = Some (rec :: rs) →
  heap s' = <[q:=rs]> (heap s) → fresh s' = fresh s → locals s' = locals s →
  (∃ flushed ls, out_list s ++ [rec] = flushed ++ out_list s' ∧ stdout s' = stdout s ++ ls ∧
    Forall2 (λ rec l, write_line rec = Ret l) flushed ls) →
  booked s s' [Ev_pop q rec].
Proof.
  intros Hlt Hq Hh Hf Hl Hout. split; rewrite ?Hh, ?Hf, ?Hl; try done.
  - intros u l [[<- <-] | [Hne Hu]]%lookup_insert_Some; left.
    + exists (rec :: rs). simpl. by rewrite decide_True, app_nil_r.
    + exists l. simpl. by rewrite decide_False, app_nil_r.
  - split; [done |]. intros u Hu. simpl. rewrite decide_False; [done |]. intros ->.
    specialize (Hlt u ltac:(by eexists)). lia.
  - by intros t q' rec' Hin%list_elem_of_singleton.
Qed.

Lemma run_step_booked s s' e :
  (∀ u, is_Some (heap s !! u) → u < fresh s) →
  run_step write_line s = Ret (s', e) → booked s s' (option_list e).
Proof.
  intros Hlt. unfold run_step. destruct (runner s) as [| | | | | final [| q rest] |].
  1, 2, 3, 5, 6, 8: intros [= <- <-]; apply booked_quiet; by repeat case_match.
  - destruct (constructing (object s)); [done |]. intros [= <- <-]. by apply booked_quiet.
  - destruct (heap s !! q) as [rs |] eqn:Hq; [| done].
    cbn [queue_pop_step list_queue]. destruct (queue_pop rs) as [[rec rs'] |] eqn:Hpop; cbn [obind].
    + apply queue_pop_size in Hpop as ->. cbn [out_list set_heap].
      destruct (length (out_list s) <? OUT_LIST_SIZE); [| done]. cbv zeta. case_match.
      * destruct (_flush write_line _) as [ls | | | |] eqn:Hfl; simpl; try done. intros [= <- <-].
        eapply booked_pop; try done. exists (out_list s ++ [rec]), ls. simpl.
        rewrite app_nil_r. split_and!; [done | done | by apply flush_lines].
      * intros [= <- <-]. eapply booked_pop; try done. exists [], []. simpl. by rewrite app_nil_r.
    + cbv zeta. assert (rs = []) as -> by (by destruct rs). rewrite set_heap_same by done.
      destruct (_flush write_line _) as [ls | | | |] eqn:Hfl; simpl; try done. intros [= <- <-].
      split; simpl; auto.
      * intros u l Hu. left. exists l. by rewrite app_nil_r.
      * intros t u rec Hin. by apply elem_of_nil in Hin.
      * exists (out_list s), ls. rewrite !app_nil_r. split_and!; [done | done | by apply flush_lines].
Qed.

Lemma thread_step_booked s t s' e :
  threads_ok s → thread_step s t = Ret (s', e) → booked s s' (option_list e).
Proof.
  intros Hth. pose proof (th_heap _ Hth) as Hlt. unfold thread_step.
  destruct (threads s !! t) as [p |] eqn:Ht; [| intros [= <- <-]; by apply booked_quiet].
  pose proof (th_reg _ Hth _ _ Ht) as Hreg.
  destruct p as [rec | rec | rec q | rec q | rec q | rec q |].
  1, 3, 4: intros [= <- <-]; apply booked_quiet; by repeat case_match.
  - intros [= <- <-]. split; simpl; auto.
    + intros q rs [[<- <-] | [_ Hq]]%lookup_insert_Some; [by right |].
      left. exists rs. by rewrite app_nil_r.
    + intros u q r Hin. by apply elem_of_nil in Hin.
    + exists [], []. simpl. by rewrite !app_nil_r.
  - intros [= <- <-]. apply booked_quiet; simpl; try done. intros u q' Hu.
    rewrite lookup_insert_ne; [done |]. intros ->. by rewrite (Hreg eq_refl) in Hu.
  - pose proof (th_push _ Hth _ _ _ Ht) as Hpush.
    destruct (heap s !! q) as [rs |] eqn:Hq; [| done]. cbn [queue_push_step list_queue]. unfold queue_push.
    destruct (zlen rs =? QUEUE_SIZE)%Z; [cbn [obind]; rewrite set_heap_same by done |]; intros [= <- <-].
    + by apply booked_quiet.
    + split; simpl.
      * intros u l [[<- <-] | [Hne Hu]]%lookup_insert_Some; left.
        -- exists rs. by rewrite decide_True.
        -- exists l. by rewrite decide_False, app_nil_r.
      * split; [done |]. intros u Hu. rewrite decide_False; [done |]. intros ->.
        specialize (Hlt u ltac:(by eexists)). lia.
      * intros u q' r Hin%list_elem_of_singleton. by simplify_eq.
      * done.
      * exists [], []. by rewrite !app_nil_r.
  - case_decide; [| done]. intros [= <- <-]. by apply booked_quiet.
Qed.

Lemma object_step_booked s s' e : object_step s = Ret (s', e) → booked s s' (option_list e).
Proof.
  unfold object_step. destruct (object s) as [| | | | | [| q rest] |].
  1, 2, 3, 4, 5, 6, 8: try (case_match; try done); intros [= <- <-]; by apply booked_quiet.
  destruct (heap s !! q); [| done]. intros [= <- <-]. split; simpl; auto.
  - intros u rs [_ Hu]%lookup_delete_Some. left. exists rs. by rewrite app_nil_r.
  - intros u q' r Hin. by apply elem_of_nil in Hin.
  - exists [], []. by rewrite !app_nil_r.
Qed.

Lemma exec_booked s a s' e : logger_ok s → exec write_line s a = Ret (s', e) → booked s s' (option_list e).
Proof.
  intros (Hth & _). destruct a; simpl.
  - apply object_step_booked.
  - intros [= <- <-]. unfold call. by repeat case_match; apply booked_quiet.
  - intros [= <- <-]. unfold call. by repeat case_match; apply booked_quiet.
  - by apply thread_step_booked.
  - apply run_step_booked, Hth.
  - intros [= <- <-]. destruct (object s); try case_decide; by apply booked_quiet.
Qed.

(** *** Registration *)

Definition pc_unregistered p : option nat :=
  match p with L_lock _ q | L_append _ q => Some q | _ => None end.

(** The list of queues names every queue once, but those on their way into it. *)
Record registered s : Prop := Registered {
  rg_nodup : NoDup (m_queues s);
  rg_new : ∀ t p q, threads s !! t = Some p → pc_unregistered p = Some q → q ∉ m_queues s;
  rg_heap : deleting (object s) = false → ∀ q, is_Some (heap s !! q) →
    q ∈ m_queues s ∨ ∃ t p, threads s !! t = Some p ∧ pc_unregistered p = Some q;
  rg_delete : match object s with
    | P_delete rest => NoDup rest ∧ ∀ q, is_Some (heap s !! q) ↔ q ∈ rest
    | P_done => heap s = ∅
    | _ => True
    end
}.

Lemma registered_same s s' :
  registered s → m_queues s' = m_queues s → threads s' = threads s → object s' = object s →
  deleting (object s) = false → (∀ q, is_Some (heap s' !! q) ↔ is_Some (heap s !! q)) → registered s'.
Proof.
  intros [H1 H2 H3 H4] Eq Et Eo Hd Hh. split; rewrite ?Eq, ?Et, ?Eo; auto.
  - intros _ q. rewrite Hh. auto.
  - by destruct (object s).
Qed.

(** Thread [t] moves from [p] to [po], adding nothing to the list. *)
Lemma registered_move s s' t p po :
  registered s → threads s !! t = Some p → threads s' = partial_alter (λ _, po) t (threads s) →
  (po ≫= pc_unregistered) = pc_unregistered p → m_queues s' = m_queues s → object s' = object s →
  object s = P_ready → (∀ q, is_Some (heap s' !! q) ↔ is_Some (heap s !! q)) → registered s'.
Proof.
  intros [H1 H2 H3 H4] Ht Eth Epc Eq Eo Ho Hh.
  split; rewrite ?Eq, ?Eth, ?Eo, ?Ho; auto.
  - intros u p' q Hu Hp'. destruct (decide (u = t)) as [-> | Hne].
    + rewrite lookup_partial_alter_eq in Hu. subst po. simpl in Epc. apply (H2 t p); congruence.
    + rewrite lookup_partial_alter_ne in Hu by done. eauto.
  - intros _ q. rewrite Hh. rewrite Ho in H3. intros Hq.
    destruct (H3 eq_refl q Hq) as [? | (u & p' & Hu & Hp')]; [by left | right].
    destruct (decide (u = t)) as [-> | Hne].
    + rewrite Ht in Hu. simplify_eq. rewrite <-Epc in Hp'. destruct po as [p'' |]; [| done].
      exists t, p''. by rewrite lookup_partial_alter_eq.
    + exists u, p'. by rewrite lookup_partial_alter_ne.
Qed.

Lemma thread_step_registered s t s' e :
  threads_ok s → (object s ≠ P_ready → threads s = ∅) → registered s →
  thread_step s t = Ret (s', e) → registered s'.
Proof.
  intros Hth Hidle Hreg. unfold thread_step.
  destruct (threads s !! t) as [p |] eqn:Ht; [| by intros [= <- <-]].
  assert (object s = P_ready) as Ho.
  { destruct (object s) eqn:Ho; try done; by rewrite Hidle in Ht. }
  pose proof (λ s' po, registered_move s s' t p po Hreg Ht) as Hmove.
  destruct p as [rec | rec | rec q | rec q | rec q | rec q |].
  - intros [= <- <-]. apply (Hmove _ (Some (match locals s !! t with Some q => L_push rec q | None => L_new rec end)));
      simpl; try done. by destruct (locals s !! t).
  - intros [= <- <-]. pose proof (th_heap _ Hth) as Hlt. destruct Hreg as [H1 H2 H3 H4].
    assert (fresh s ∉ m_queues s) as Hnew.
    { intros Hin. assert (is_Some (heap s !! fresh s)) as Hs by (by apply (th_queues _ Hth); [| rewrite Ho]).
      specialize (Hlt _ Hs). lia. }
    split; simpl; rewrite ?Ho; auto.
    + intros u p q [[<- <-] | [? ?]]%lookup_insert_Some; [by intros [= <-] | eauto].
    + intros _ q [<- | Hq]%lookup_insert_is_Some'.
      * right. exists t, (L_lock rec (fresh s)). by rewrite lookup_insert_eq.
      * rewrite Ho in H3. destruct (H3 eq_refl q Hq) as [? | (u & p & Hu & Hp)]; [by left | right].
        exists u, p. rewrite lookup_insert_ne; [done |]. intros <-. by rewrite Ht in Hu; simplify_eq.
  - intros [= <- <-]. destruct (m_queues_mutex s); [done |]. by apply (Hmove _ (Some (L_append rec q))).
  - intros [= <- <-]. pose proof (th_inj _ Hth) as Hinj. pose proof (th_reg _ Hth) as Hnone.
    destruct Hreg as [H1 H2 H3 H4]. split; simpl; rewrite ?Ho; auto.
    + apply NoDup_app. split_and!; [done | | apply NoDup_singleton].
      intros x Hx ->%list_elem_of_singleton. by apply (H2 t _ q Ht).
    + intros u p q' [[<- <-] | [Hne Hu]]%lookup_insert_Some Hp; [done |].
      rewrite not_elem_of_app. split; [eauto |]. intros ->%list_elem_of_singleton. apply Hne.
      apply (Hinj t u q); unfold queue_of.
      * by rewrite (Hnone t _ Ht eq_refl), Ht.
      * rewrite (Hnone u p Hu), Hu; [by destruct p; simplify_eq/= | by destruct p].
    + intros _ q' Hq'. rewrite Ho in H3. destruct (H3 eq_refl q' Hq') as [? | (u & p & Hu & Hp)].
      * left. apply elem_of_app. by left.
      * destruct (decide (u = t)) as [-> | Hne].
        -- rewrite Ht in Hu. simplify_eq/=. left. apply elem_of_app. right. by apply list_elem_of_singleton.
        -- right. exists u, p. by rewrite lookup_insert_ne.
  - intros [= <- <-]. by apply (Hmove _ (Some (L_push rec q))).
  - destruct (heap s !! q) as [rs |] eqn:Hq; [| done]. cbn [queue_push_step list_queue]. unfold queue_push.
    destruct (zlen rs =? QUEUE_SIZE)%Z; [cbn [obind]; rewrite set_heap_same by done |]; intros [= <- <-].
    + by apply (Hmove _ None).
    + apply (Hmove _ None); simpl; try done. by eapply heap_same.
  - case_decide; [| done]. intros [= <- <-]. by apply (Hmove _ None).
Qed.

Lemma run_step_registered s s' e :
  runner_ok s → registered s → run_step write_line s = Ret (s', e) → registered s'.
Proof.
  intros Hru Hreg. pose proof (ru_end _ Hru) as Hend. unfold run_step.
  destruct (runner s) as [| | | | | final [| q rest] |] eqn:Hr;
    try (intros [= <- <-]; done);
    (assert (deleting (object s) = false) as Hd by (destruct (deleting (object s)); [by specialize (Hend eq_refl) | done])).
  1, 2, 4, 5: intros [= <- <-]; repeat case_match; try done; by eapply registered_same.
  - destruct (constructing (object s)); [done |]. intros [= <- <-]. by eapply registered_same.
  - destruct (heap s !! q) as [rs |] eqn:Hq; [| done].
    cbn [queue_pop_step list_queue]. destruct (queue_pop rs) as [[rec rs'] |]; cbn [obind].
    + destruct (_ <? _); [| done]. cbv zeta. case_match.
      * destruct (_flush _ _); simpl; try done. intros [= <- <-]. eapply registered_same; try done.
        by eapply heap_same.
      * intros [= <- <-]. eapply registered_same; try done. by eapply heap_same.
    + destruct (_flush _ _); simpl; try done. intros [= <- <-]. eapply registered_same; try done.
      by eapply heap_same.
Qed.

Lemma object_step_registered s s' e :
  threads_ok s → shared_ok s → registered s → object_step s = Ret (s', e) → registered s'.
Proof.
  intros Hth Hsh Hreg. pose proof (sh_idle _ Hsh) as Hidle. pose proof (th_queues _ Hth) as Hlive.
  destruct Hreg as [H1 H2 H3 H4]. unfold object_step.
  destruct (object s) as [| | | | | [| q rest] |] eqn:Ho; rewrite ?Ho in *.
  - intros [= <- <-]. by split.
  - case_match; try done; intros [= <- <-]; by split.
  - case_match; try done; intros [= <- <-]; by split.
  - intros [= <- <-]. split; rewrite ?Ho; auto.
  - case_match; intros [= <- <-]; try (split; rewrite ?Ho; auto; done). split; simpl; auto; try done.
    split; [done |]. intros q. split; [| by intros; apply Hlive].
    intros Hq. destruct (H3 eq_refl q Hq) as [? | (t & p & Ht & _)]; [done |]. by rewrite Hidle in Ht.
  - intros [= <- <-]. destruct H4 as [_ H4]. split; simpl; auto; try done.
    apply map_eq. intros q. rewrite lookup_empty. apply eq_None_not_Some. rewrite H4. apply not_elem_of_nil.
  - destruct (heap s !! q); [| done]. intros [= <- <-]. destruct H4 as [Hnd H4].
    apply NoDup_cons in Hnd as [Hq Hnd]. split; simpl; auto; try done.
    split; [done |]. intros u. rewrite lookup_delete_is_Some, H4, elem_of_cons. split; [by intros [? [-> | ?]] |].
    intros Hu. split; [by intros -> | by right].
  - intros [= <- <-]. split; rewrite ?Ho; auto.
Qed.

Lemma exec_registered s a s' e :
  logger_ok s → registered s → exec write_line s a = Ret (s', e) → registered s'.
Proof.
  intros (Hth & Hru & Hsh) Hreg.
  assert (∀ t p, pc_unregistered p = None → registered (call s t p)) as Hcall.
  { intros t p Hp. unfold call. destruct (object s) eqn:Ho; try done.
    destruct (threads s !! t) eqn:Ht; [done |]. destruct Hreg as [H1 H2 H3 H4]. rewrite Ho in *.
    split; simpl; rewrite ?Ho; auto.
    - intros u p' q [[<- <-] | [? ?]]%lookup_insert_Some; [congruence | eauto].
    - intros _ q Hq. destruct (H3 eq_refl q Hq) as [? | (u & p' & Hu & Hp')]; [by left | right].
      exists u, p'. rewrite lookup_insert_ne; [done |]. intros <-. congruence. }
  destruct a; simpl.
  - by apply object_step_registered.
  - intros [= <- <-]. by apply Hcall.
  - intros [= <- <-]. by apply Hcall.
  - apply thread_step_registered; [done | apply Hsh | done].
  - by apply run_step_registered.
  - intros [= <- <-]. destruct (object s) eqn:Ho; try done. case_decide as Ht; [| done].
    destruct Hreg as [H1 H2 H3 H4]. rewrite Ho in *. by split.
Qed.

Lemma logger_reachable tr s :
  run (step write_line) init tr s → logger_ok s ∧ registered s ∧ accounted (omap snd tr) s.
Proof.
  apply (run_invariant (step write_line) (λ tr s, logger_ok s ∧ registered s ∧ accounted (omap snd tr) s)).
  { split_and!; [apply logger_ok_init | |].
    - split; simpl; try done.
      + constructor.
      + intros _ q. rewrite lookup_empty. by intros [].
    - split; simpl; try done.
      + intros t q rec Hin. by apply elem_of_nil in Hin.
      + exists []. split; [done | constructor]. }
  intros tr' s1 [a e] s2 (Hok & Hreg & Hac) Hstep. unfold machine_step in Hstep. simpl in Hstep.
  split_and!; [by eapply exec_ok | by eapply exec_registered |]. rewrite omap_app.
  replace (omap snd [(a, e)]) with (option_list e) by (by destruct e).
  eapply account_step; [done |]. by eapply exec_booked.
Qed.
End Invariants.

(** * Safety and shutdown *)

Section Progress.
Context {R : Type} (write_line : R → outcome str).
Context (Hwrite : ∀ rec, ∃ l, write_line rec = Ret l).
Implicit Types (s : logger R (list R)) (p : thread_pc R).

Lemma flush_total recs : ∃ ls, _flush write_line recs = Ret ls.
Proof.
  induction recs as [| rec recs [ls IH]]; simpl; [by eexists |].
  destruct (Hwrite rec) as [l ->]. simpl. rewrite IH. by eexists.
Qed.

(** The consumer's next step is defined, and outside the waits it gets closer
    to the end of its work. *)
Definition run_left s : nat :=
  let total := msum length (heap s) in
  match runner s with
  | R_pop true rest => total + length rest + 1
  | R_test => total + length (q_snapshot s) + 2
  | R_pop false rest => total + length rest + length (q_snapshot s) + 3
  | R_unlock => total + 2 * length (q_snapshot s) + 4
  | R_copy => total + 2 * length (m_queues s) + 5
  | R_lock => total + 2 * length (m_queues s) + 6
  | R_unborn | R_end => 0
  end.

Lemma run_step_defined s :
  logger_ok s → constructing (object s) = false →
  ∃ s' e, run_step write_line s = Ret (s', e) ∧ threads s' = threads s ∧ object s' = object s ∧
    (stop s = true → m_queues_mutex s = false ∨ runner s ≠ R_lock → runner s ≠ R_end →
     run_left s' < run_left s).
Proof.
  intros (Hth & Hru & Hsh) Hc. unfold run_step, run_left.
  pose proof (ru_unborn _ Hru) as Hun. pose proof (ru_end _ Hru) as Hend.
  pose proof (ru_rest _ Hru) as Hrest. pose proof (ru_snapshot _ Hru) as Hsnap.
  destruct (ru_out _ Hru) as [Hlen _].
  destruct (runner s) as [| | | | | final [| q rest] |] eqn:Hr.
  - assert (object s = P_start) as Ho by (by apply Hun). by rewrite Ho in Hc.
  - do 2 eexists. split; [done |]. destruct (stop s); simpl; split_and!; try done. intros. lia.
  - do 2 eexists. split; [done |]. destruct (m_queues_mutex s); simpl; split_and!; try done.
    + intros _ [? | ?]; done.
    + intros. lia.
  - rewrite Hc. do 2 eexists. split; [done |]. simpl. split_and!; try done. intros. lia.
  - do 2 eexists. split; [done |]. simpl. split_and!; try done. intros. lia.
  - do 2 eexists. split; [done |]. destruct final; simpl; split_and!; try done; intros; lia.
  - assert (is_Some (heap s !! q)) as [rs Hq].
    { apply (th_queues _ Hth); [apply Hsnap, Hrest; constructor |].
      destruct (deleting (object s)); [by specialize (Hend eq_refl) | done]. }
    rewrite Hq. cbn [queue_pop_step list_queue]. destruct (queue_pop rs) as [[rec rs'] |] eqn:Hpop; cbn [obind].
    + apply queue_pop_size in Hpop as ->. cbn [out_list set_heap]. rewrite (proj2 (Nat.ltb_lt _ _)) by done. cbv zeta.
      pose proof (msum_replace length _ _ _ rs' Hq) as Hsum. simpl in Hsum.
      destruct (_ <=? _).
      * destruct (flush_total (out_list s ++ [rec])) as [ls ->]. simpl. do 2 eexists. split; [done |].
        unfold set_output, set_heap. simpl. rewrite Hr. split_and!; try done. intros _ _ _. destruct final; simpl; lia.
      * do 2 eexists. split; [done |]. unfold set_output, set_heap. simpl. rewrite Hr.
        split_and!; try done. intros _ _ _. destruct final; simpl; lia.
    + assert (rs = []) as -> by (by destruct rs). cbv zeta. rewrite set_heap_same by done.
      destruct (flush_total (out_list s)) as [ls ->]. simpl. do 2 eexists. split; [done |]. simpl.
      split_and!; try done. intros _ _ _. destruct final; simpl; lia.
  - by do 2 eexists.
Qed.

(** No thread is in [get_num_threads]. *)
Definition calm s : Prop := map_Forall (λ _ p, p ≠ N_read) (threads s).

Lemma thread_step_defined s t :
  logger_ok s → calm s → ∃ s' e, thread_step s t = Ret (s', e) ∧ calm s' ∧ object s' = object s.
Proof.
  intros (Hth & Hru & Hsh) Hcalm. unfold thread_step.
  destruct (threads s !! t) as [p |] eqn:Ht; [| by do 2 eexists].
  pose proof (th_push _ Hth t) as Hpush. specialize (Hcalm t p Ht) as Hp.
  assert (∀ p', p' ≠ N_read → map_Forall (λ _ p, p ≠ N_read) (<[t:=p']> (threads s))) as Hins.
  { intros p' Hp'. by apply map_Forall_insert_2. }
  assert (map_Forall (λ _ p, p ≠ N_read) (delete t (threads s))) as Hdel by (by apply map_Forall_delete).
  destruct p as [rec | rec | rec q | rec q | rec q | rec q |]; try done.
  - do 2 eexists. split; [done |]. split; [| done]. apply Hins. by destruct (locals s !! t).
  - do 2 eexists. split; [done |]. split; [| done]. by apply Hins.
  - do 2 eexists. split; [done |]. destruct (m_queues_mutex s); (split; [| done]); [done | by apply Hins].
  - do 2 eexists. split; [done |]. split; [| done]. by apply Hins.
  - do 2 eexists. split; [done |]. split; [| done]. by apply Hins.
  - assert (is_Some (heap s !! q)) as [rs ->].
    { apply (th_fresh _ Hth t q); [unfold queue_of; by rewrite (Hpush rec q Ht) |].
      destruct (object s) eqn:Ho; try done; rewrite (sh_idle _ Hsh) in Ht; by rewrite ?Ho. }
    cbn [queue_push_step list_queue]. destruct (queue_push rs rec); do 2 eexists; (split; [done |]); (split; [| done]); done.
Qed.

Definition counts (a : action R) : bool := match a with CallNum _ => true | _ => false end.

Lemma object_step_defined s :
  logger_ok s → registered s → constructing (object s) = false →
  ∃ s' e, object_step s = Ret (s', e) ∧ threads s' = threads s ∧ constructing (object s') = false.
Proof.
  intros Hok Hreg Hc. pose proof (rg_delete _ Hreg) as Hdel. unfold object_step.
  destruct (object s) as [| | | | | [| q rest] |] eqn:Ho; try done.
  - do 2 eexists. split; [done |]. by rewrite Ho.
  - do 2 eexists. split; [done |]. by case_match; rewrite ?Ho.
  - by do 2 eexists.
  - destruct Hdel as [_ Hdel]. destruct (proj2 (Hdel q) ltac:(constructor)) as [rs ->]. by do 2 eexists.
  - do 2 eexists. split; [done |]. by rewrite Ho.
Qed.

Definition usable s : Prop := logger_ok s ∧ registered s ∧ calm s ∧ constructing (object s) = false.

Lemma exec_usable s a :
  counts a = false → usable s → ∃ s' e, exec write_line s a = Ret (s', e) ∧ usable s'.
Proof.
  intros Ha (Hok & Hreg & Hcalm & Hc).
  cut (∃ s' e, exec write_line s a = Ret (s', e) ∧ calm s' ∧ constructing (object s') = false).
  { intros (s' & e & He & ? & ?). exists s', e. split; [done |].
    split_and!; [by eapply exec_ok | by eapply exec_registered | done | done]. }
  destruct a as [| t rec | t | t | |]; try done; simpl.
  - destruct (object_step_defined s Hok Hreg Hc) as (s' & e & ? & Ht & ?). exists s', e.
    unfold calm. by rewrite Ht.
  - do 2 eexists. split; [done |]. unfold call. destruct (object s) eqn:Ho; try (by rewrite ?Ho).
    destruct (threads s !! t); simpl; rewrite ?Ho; [done |]. split; [by apply map_Forall_insert_2 | done].
  - destruct (thread_step_defined s t Hok Hcalm) as (s' & e & ? & ? & Ho). exists s', e. by rewrite Ho.
  - destruct (run_step_defined s Hok Hc) as (s' & e & ? & Ht & Ho & _). exists s', e.
    unfold calm. by rewrite Ht, Ho.
  - do 2 eexists. split; [done |]. destruct (object s) eqn:Ho; try (by rewrite ?Ho).
    case_decide; [| by rewrite Ho]. done.
Qed.

Abbreviation reaches s tr s' := (run (step write_line) s tr s').

(** After [request_stop] the consumer finishes. *)
Lemma runner_ends s :
  logger_ok s → object s = P_join →
  ∃ tr s', reaches s tr s' ∧ logger_ok s' ∧ object s' = P_join ∧ runner s' = R_end.
Proof.
  remember (run_left s) as k eqn:Hk. revert s Hk.
  induction (lt_wf k) as [k _ IH]. intros s -> Hok Ho.
  destruct (decide (runner s = R_end)) as [Hr | Hr].
  { exists [], s. by split_and!; [constructor | ..]. }
  destruct (run_step_defined s Hok) as (s1 & e & Hs & Ht & Ho1 & Hlt); [by rewrite Ho |].
  assert (run_left s1 < run_left s) as Hlt1.
  { destruct Hok as (_ & _ & Hsh). apply Hlt; [by rewrite (sh_stop _ Hsh), Ho | | done].
    pose proof (sh_mutex _ Hsh) as Hm. rewrite (sh_idle _ Hsh), msum_empty in Hm by (by rewrite Ho).
    destruct (m_queues_mutex s); [right | by left]. intros Hl. by rewrite Hl in Hm. }
  destruct (IH _ Hlt1 s1 eq_refl) as (tr & s' & Hrun & ?); [by eapply run_step_ok | congruence |].
  exists ([(RunRunner, e)] ++ tr), s'. split; [| done]. eapply run_app; [by apply run_one | done].
Qed.

(** The destructor deletes every queue, once. *)
Lemma deletes_end s rest :
  registered s → object s = P_delete rest →
  ∃ tr s', reaches s tr s' ∧ omap snd tr = [] ∧ object s' = P_done ∧ q_snapshot s' = q_snapshot s.
Proof.
  revert s. induction rest as [| q rest IH]; intros s Hreg Ho.
  - exists [(RunObject, None)], (set_object s P_done). split_and!; try done.
    apply run_one. unfold machine_step. simpl. unfold object_step. by rewrite Ho.
  - pose proof (rg_delete _ Hreg) as Hdel. rewrite Ho in Hdel. destruct Hdel as [Hnd Hdel].
    destruct (proj2 (Hdel q) ltac:(constructor)) as [rs Hq].
    set (s1 := set_object (set_heap s (delete q (heap s))) (P_delete rest)).
    destruct (IH s1) as (tr & s' & Hrun & Htr & Hdone & Hsnap); [| done |].
    { destruct Hreg as [H1 H2 H3 _]. split; simpl; try done. apply NoDup_cons in Hnd as [Hn Hnd].
      split; [done |]. intros u. rewrite lookup_delete_is_Some, Hdel, elem_of_cons.
      split; [by intros [? [-> | ?]] |]. intros Hu. split; [by intros -> | by right]. }
    exists ([(RunObject, None)] ++ tr), s'. split_and!; try done.
    eapply run_app; [apply run_one | done]. unfold machine_step. simpl. unfold object_step.
    by rewrite Ho, Hq.
Qed.
End Progress.

(** * Properties *)

(** No record is lost in the queues, duplicated or reordered.  In every
    interleaving, a thread's records all go to one queue and no other thread's
    do (as [SPSCQueue] requires); what was taken out of a queue is a prefix of
    what entered it and the rest is still there; and the lines on [stdout],
    followed by those of the batch being filled, are the records taken, in
    order. *)
Theorem logger_fifo {R} (write_line : R → outcome str) tr s :
  run (step write_line) init tr s →
  let es := omap snd tr in
  (∀ t t' q q' rec rec', Ev_log t q rec ∈ es → Ev_log t' q' rec' ∈ es → t = t' ↔ q = q') ∧
  (∀ q rs, heap s !! q = Some rs → logged_to q es = popped_from q es ++ rs) ∧
  ∃ flushed, popped es = flushed ++ out_list s ∧
    Forall2 (λ rec l, write_line rec = Ret l) flushed (stdout s).
Proof.
  intros Hrun. destruct (logger_reachable write_line tr s Hrun) as ((Hth & _) & _ & [Hq _ Ho Hout]).
  split_and!; [| done | done]. intros t t' q q' rec rec' H1%Ho H2%Ho. split; [congruence |].
  intros <-. apply (th_inj _ Hth t t' q); unfold queue_of; by rewrite ?H1, ?H2.
Qed.

(** The consumer's arrays and the queues are never overrun: fewer than
    [OUT_LIST_SIZE] records are buffered whenever one more is stored, no queue
    exceeds its capacity, and two threads are never both in the mutex. *)
Theorem logger_bounds {R} (write_line : R → outcome str) tr s :
  run (step write_line) init tr s →
  length (out_list s) < OUT_LIST_SIZE ∧
  (∀ q rs, heap s !! q = Some rs → (zlen rs ≤ QUEUE_SIZE)%Z) ∧
  msum t_holds (threads s) + r_holds (runner s) ≤ 1.
Proof.
  intros Hrun. destruct (logger_reachable write_line tr s Hrun) as ((_ & Hru & Hsh) & _ & _).
  split_and!; [by destruct (ru_out _ Hru) | apply (sh_size _ Hsh) |].
  rewrite (sh_mutex _ Hsh). destruct (m_queues_mutex s); simpl; lia.
Qed.

(** Once the constructor has returned, and without [get_num_threads], no
    interleaving of logging threads, consumer and destructor is undefined: no
    deleted queue is used and none is deleted twice. *)
Theorem logger_safe {R} (write_line : R → outcome str) (acts : list (action R)) :
  (∀ rec, ∃ l, write_line rec = Ret l) → Forall (λ a, counts a = false) acts →
  ∃ s es, run_schedule (exec write_line) init ([RunObject; RunObject; RunObject] ++ acts) = Ret (s, es).
Proof.
  intros Hwrite Hacts. simpl.
  set (s0 := set_object _ P_ready).
  assert (∃ tr, run (step write_line) init tr s0) as [tr Hrun].
  { exists ([(RunObject, None)] ++ [(RunObject, None)] ++ [(RunObject, None)]).
    eapply run_app; [by apply run_one |]. eapply run_app; by apply run_one. }
  destruct (logger_reachable write_line tr s0 Hrun) as (Hok & Hreg & _).
  destruct (run_schedule_total (exec write_line) (λ a, counts a = false) usable acts s0)
    as (s & es & -> & _); [intros; by apply exec_usable | done | by split_and! | simpl; eauto].
Qed.

(** Shutting down writes what was logged.  From any state in which the
    destructor has asked the consumer to stop, the consumer can end, and then
    every queue is deleted, and every record a thread logged, to a queue of the
    last snapshot, has been taken and written. *)
Theorem logger_shutdown {R} (write_line : R → outcome str) tr s :
  (∀ rec, ∃ l, write_line rec = Ret l) → run (step write_line) init tr s → object s = P_join →
  ∃ tr' s', run (step write_line) s tr' s' ∧ object s' = P_done ∧ heap s' = ∅ ∧
    let es := omap snd (tr ++ tr') in
    (∀ q, q ∈ q_snapshot s' → popped_from q es = logged_to q es) ∧
    Forall2 (λ rec l, write_line rec = Ret l) (popped es) (stdout s').
Proof.
  intros Hwrite Hrun Ho. destruct (logger_reachable write_line tr s Hrun) as (Hok & _ & _).
  destruct (runner_ends write_line Hwrite s Hok Ho) as (tr1 & s1 & Hrun1 & Hok1 & Ho1 & Hr1).
  assert (run (step write_line) init (tr ++ tr1) s1) as Hinit1 by (by eapply run_app).
  destruct (logger_reachable write_line _ s1 Hinit1) as (_ & Hreg1 & Hac1).
  assert (run (step write_line) s1 [(RunObject, None)] (set_object s1 (P_delete (m_queues s1)))) as Hjoin.
  { apply run_one. unfold machine_step. simpl. unfold object_step. by rewrite Ho1, Hr1. }
  destruct (logger_reachable write_line _ _ (run_app _ _ _ _ _ _ Hinit1 Hjoin)) as (_ & Hreg2 & _).
  destruct (deletes_end write_line _ _ Hreg2 eq_refl) as (tr2 & s' & Hrun2 & Htr2 & Hdone & Hsnap).
  exists (tr1 ++ [(RunObject, None)] ++ tr2), s'.
  assert (run (step write_line) s (tr1 ++ [(RunObject, None)] ++ tr2) s') as Hall.
  { eapply run_app; [done |]. by eapply run_app. }
  destruct (logger_reachable write_line _ s' (run_app _ _ _ _ _ _ Hrun Hall)) as (Hok' & Hreg' & Hac').
  pose proof (rg_delete _ Hreg') as Hheap. rewrite Hdone in Hheap.
  split_and!; [done | done | done |].
  assert (omap snd (tr ++ tr1 ++ [(RunObject, None)] ++ tr2) = omap snd (tr ++ tr1)) as Hes.
  { rewrite !omap_app, Htr2. simpl. by rewrite app_nil_r. }
  rewrite Hes in *. split.
  - intros q Hq. rewrite Hsnap in Hq. simpl in Hq. destruct Hok1 as (_ & Hru1 & _).
    pose proof (ru_drained _ Hru1) as Hdr. unfold drained in Hdr. rewrite Hr1, Ho1 in Hdr.
    specialize (Hdr eq_refl q Hq). pose proof (ac_queue _ _ _ Hac1 q [] Hdr) as Heq.
    by rewrite Heq, app_nil_r.
  - destruct (ac_out _ _ _ Hac') as (flushed & Heq & Hw). destruct Hok' as (_ & Hru' & _).
    assert (out_list s' = []) as Hout.
    { destruct (ru_out _ Hru') as [_ Hout]. rewrite (ru_end _ Hru') in Hout; [done | by rewrite Hdone]. }
    by rewrite Heq, Hout, app_nil_r.
Qed.

(** The consumer thread is started before [m_queues] is initialised: when it
    is fast, it reads the vector before it exists. *)
Theorem logger_start_race {R} (write_line : R → outcome str) :
  run_schedule (exec write_line) init [RunObject; RunRunner; RunRunner; RunRunner] = Undef.
Proof. reflexivity. Qed.

(** * On a concrete logger *)

Module Demo.

(** The message [n], as [info] records it and [_flush] writes it. *)
Definition numbered (n : nat) : LogRecord :=
  info LogFormat.Demo.no_printf LogFormat.Demo.here 0 (decimal 20 (Z.of_nat n)) [].
Definition write_number (n : nat) : outcome str :=
  LogFormat.write_line LogFormat.Demo.at_noon (numbered n).

Lemma write_number_total n : ∃ l, write_number n = Ret l.
Proof.
  eexists. unfold write_number. apply write_line_fits. rewrite length_app.
  pose proof (prefix_text_length LogFormat.Demo.at_noon (numbered n) ltac:(simpl; lia)) as Hp.
  change (length (filename (file_name (loc (numbered n))))) with 7 in Hp.
  assert (length (buff (numbered n)) ≤ 511) 
    by (change (buff (numbered n)) with (take (BUFF_SIZE - 1) (decimal 20 (Z.of_nat n)));
        rewrite length_take; unfold BUFF_SIZE; lia).
  unfold LINE_SIZE, BUFF_SIZE. lia.
Qed.

(** A thread logs, the consumer writes, the object is destroyed. *)
Definition log_once : list (action nat) :=
  [RunObject; RunObject; RunObject; CallLog 1 7] ++ replicate 6 (RunThread 1).
Definition schedule : list (action nat) := log_once ++ replicate 6 RunRunner ++ [CallDestructor].

Definition closing : logger nat (list nat) := final init (run_schedule (exec write_number) init schedule).

Lemma closing_run : ∃ tr, run (step write_number) init tr closing ∧
  omap snd tr = [Ev_log 1 0 7; Ev_pop 0 7] ∧ tr.*1 = schedule.
Proof. apply run_schedule_run. vm_compute. reflexivity. Qed.

Example closing_written : stdout closing = [match write_number 7 with Ret l => l | _ => [] end].
Proof. vm_compute. reflexivity. Qed.

Definition plain (n : nat) : outcome str := Ret (decimal 20 (Z.of_nat n)).

(** A thread that registers after the last snapshot loses its records. *)
Example late_thread :
  let s := final init (run_schedule (exec plain) init
    ([RunObject; RunObject; RunObject] ++ replicate 4 RunRunner ++ [CallLog 1 7] ++
     replicate 6 (RunThread 1) ++ [CallDestructor] ++ replicate 3 RunRunner ++ replicate 3 RunObject)) in
  object s = P_done ∧ runner s = R_end ∧ m_queues s = [0] ∧ stdout s = [].
Proof. vm_compute. done. Qed.

(** A full queue drops the record, without telling the caller. *)
Example full_queue :
  let acts := [RunObject; RunObject; RunObject; CallLog 1 0] ++ replicate 6 (RunThread 1) ++
    mjoin (replicate 1024 [CallLog 1 1; RunThread 1; RunThread 1]) in
  match run_schedule (exec plain) init acts with
  | Ret (_, es) => last es = Some (Ev_drop 1 0 1) ∧ length (logged_to 0 es) = 1024
  | _ => False
  end.
Proof. vm_compute. done. Qed.
End Demo.

(** ** Witnesses *)

Lemma logger_fifo_witness : ∃ tr, run (step Demo.write_number) init tr Demo.closing ∧
  logged_to 0 (omap snd tr) = popped_from 0 (omap snd tr) ++ [].
Proof.
  destruct Demo.closing_run as (tr & Hrun & _). exists tr. split; [exact Hrun |].
  destruct (logger_fifo Demo.write_number tr Demo.closing Hrun) as (_ & Hq & _).
  apply Hq. vm_compute. reflexivity.
Defined.

Lemma logger_bounds_witness : ∃ tr, run (step Demo.write_number) init tr Demo.closing ∧
  length (out_list Demo.closing) < OUT_LIST_SIZE.
Proof.
  destruct Demo.closing_run as (tr & Hrun & _). exists tr. split; [exact Hrun |].
  apply (logger_bounds Demo.write_number tr Demo.closing Hrun).
Defined.

Lemma logger_safe_witness : ∃ s es,
  run_schedule (exec Demo.write_number) init
    ([RunObject; RunObject; RunObject] ++ drop 3 Demo.schedule) = Ret (s, es).
Proof. apply (logger_safe Demo.write_number _ Demo.write_number_total). repeat constructor. Defined.

Lemma logger_shutdown_witness : ∃ tr, run (step Demo.write_number) init tr Demo.closing ∧
  ∃ tr' s', run (step Demo.write_number) Demo.closing tr' s' ∧ object s' = P_done ∧ heap s' = ∅ ∧
    let es := omap snd (tr ++ tr') in
    (∀ q, q ∈ q_snapshot s' → popped_from q es = logged_to q es) ∧
    Forall2 (λ rec l, Demo.write_number rec = Ret l) (popped es) (stdout s').
Proof.
  destruct Demo.closing_run as (tr & Hrun & _). exists tr. split; [exact Hrun |].
  apply (logger_shutdown Demo.write_number tr Demo.closing Demo.write_number_total Hrun).
  vm_compute. reflexivity.
Defined.
