(* ===== verification/LoggerQueues.v ===== *)
(** * LoggerQueues: the logger over its lock-free queues

    [src/include/fiah/utils/SPSCLogger.hh] uses one [SPSCQueue] per logging
    thread.  [SPSCLogger] proves its theorems of queues with operations of one
    step; here the same definitions run over the queues of [SPSCQueue], whose
    [push] and [pop] take several steps that interleave with everything else.

    The class [QueueLaws] states what the logger relies on: while one thread
    pushes and one pops, a queue stands for a list of records, and an operation
    changes the list in the step in which it returns.  Against these laws the
    logger over any such queue refines the logger over lists, and the other way
    round every step over lists is a few steps over the queue.  [ring_laws] proves
    them of [SPSCQueue]. *)

From stdpp Require Import base tactics numbers list option gmap.
From Stdlib Require Import ZArith Lia.
From S2P Require Import Prelude Text Storage Ring SPSCQueue LogFormat SPSCLogger.
#[local] Open Scope fiah_scope.

(** [QueueT = SPSCQueue<Record, QUEUE_SIZE>]: the first step of an operation is
    the call. *)
Definition ring_push_step {R} (rec : R) (q : queue R) : outcome (queue R * option bool) :=
  match producer q with
  | P_idle => Ret (set_producer q (P_load_head rec), None)
  | _ =>
      let! (q, e) := emplace_step 10 q in
      Ret (q, match e with
              | Some (SPSCQueue.Ev_push _) => Some true
              | Some (SPSCQueue.Ev_push_full _) => Some false
              | _ => None
              end)
  end.
Definition ring_pop_step {R} (q : queue R) : outcome (queue R * option (option R)) :=
  match consumer q with
  | C_idle => Ret (set_consumer q C_load_tail, None)
  | _ =>
      let! (q, e) := pop_step 10 q in
      Ret (q, match e with
              | Some (SPSCQueue.Ev_pop rec) => Some (Some rec)
              | Some SPSCQueue.Ev_pop_empty => Some None
              | _ => None
              end)
  end.

(** The destructor turns once for each record left. *)
Definition DRAIN_FUEL : nat := S (Z.to_nat QUEUE_SIZE).

#[export] Instance ring_queue {R} : QueueOps R (queue R) := {|
  queue_new := SPSCQueue.init 10;
  queue_push_step := ring_push_step;
  queue_pop_step := ring_pop_step;
  queue_delete q := let! _ := destructor 10 DRAIN_FUEL q in Ret tt
|}.

(** * What the logger relies on *)

(** [stands_for qu rs p c]: the queue holds [rs]; [p] is the record that a push
    under way carries, [c] tells whether a pop is under way.  An operation run by
    itself ends: [push_left], [pop_left]. *)
Class QueueLaws (R Q : Type) `{QueueOps R Q} : Type := {
  stands_for : Q → list R → option R → bool → Prop;
  push_left : Q → nat;
  pop_left : Q → nat;
  stands_new : stands_for queue_new [] None false;
  stands_push qu rs p c rec :
    stands_for qu rs p c → (∀ x, p = Some x → x = rec) →
    ∃ qu' answer, queue_push_step rec qu = Ret (qu', answer) ∧
      match answer with
      | None => stands_for qu' rs (Some rec) c ∧ push_left qu' < push_left qu
      | Some ok => ∃ rs', queue_push_step rec rs = Ret (rs', Some ok) ∧ stands_for qu' rs' None c
      end;
  stands_pop qu rs p c :
    stands_for qu rs p c →
    ∃ qu' answer, queue_pop_step qu = Ret (qu', answer) ∧
      match answer with
      | None => stands_for qu' rs p true ∧ pop_left qu' < pop_left qu
      | Some r => ∃ rs', queue_pop_step rs = Ret (rs', Some r) ∧ stands_for qu' rs' p false
      end;
  stands_delete qu rs : stands_for qu rs None false → queue_delete qu = Ret tt
}.

(** ** [SPSCQueue] obeys *)

Section Ring.
Context {R : Type}.
Implicit Types (q : queue R) (rs : list R).

Definition pushing q : option R :=
  match producer q with
  | P_idle => None
  | P_load_head x | P_load_tail x _ | P_construct x _ | P_publish x _ => Some x
  end.
Definition popping q : bool := match consumer q with C_idle => false | _ => true end.

Definition ring_stands q rs (p : option R) (c : bool) : Prop :=
  represents 10 q rs ∧ pushing q = p ∧ popping q = c.

Definition ring_push_left q : nat :=
  match producer q with
  | P_idle => 5 | P_load_head _ => 4 | P_load_tail _ _ => 3 | P_construct _ _ => 2 | P_publish _ _ => 1
  end.
Definition ring_pop_left q : nat :=
  match consumer q with
  | C_idle => 6 | C_load_tail => 5 | C_load_head _ => 4 | C_move _ => 3 | C_destroy _ _ => 2 | C_publish _ _ => 1
  end.

Lemma in_width : (0 ≤ 10 < 64)%Z.
Proof. lia. Qed.

(** What a step of [emplace] leaves: the value it carries, and a step less. *)
Lemma emplace_step_pc q q' e :
  emplace_step 10 q = Ret (q', e) → producer q ≠ P_idle →
  consumer q' = consumer q ∧
  match e with
  | None => pushing q' = pushing q ∧ ring_push_left q' < ring_push_left q
  | Some (SPSCQueue.Ev_push x) | Some (SPSCQueue.Ev_push_full x) => pushing q = Some x ∧ pushing q' = None
  | _ => False
  end.
Proof.
  unfold emplace_step, pushing, ring_push_left. intros H Hpc.
  destruct (producer q); try done; unfold obind in H; split_match_in H; simplify_eq/=; split_and!; done || lia.
Qed.

Lemma pop_step_pc q q' e :
  pop_step 10 q = Ret (q', e) → consumer q ≠ C_idle →
  producer q' = producer q ∧
  match e with
  | None => popping q' = true ∧ ring_pop_left q' < ring_pop_left q
  | Some (SPSCQueue.Ev_pop x) => popping q' = false
  | Some SPSCQueue.Ev_pop_empty => popping q' = false
  | _ => False
  end.
Proof.
  unfold pop_step, popping, ring_pop_left. intros H Hpc.
  destruct (consumer q); try done; unfold obind in H; split_match_in H; simplify_eq/=; split_and!; done || lia.
Qed.

Lemma ring_push q rs p c rec :
  ring_stands q rs p c → (∀ x, p = Some x → x = rec) →
  ∃ q' answer, ring_push_step rec q = Ret (q', answer) ∧
    match answer with
    | None => ring_stands q' rs (Some rec) c ∧ ring_push_left q' < ring_push_left q
    | Some ok => ∃ rs', queue_push_step rec rs = Ret (rs', Some ok) ∧ ring_stands q' rs' None c
    end.
Proof.
  intros (Hrep & Hp & Hc) Hx. unfold ring_push_step. destruct (decide (pushing q = None)) as [Hidle | Hbusy].
  - assert (producer q = P_idle) as Hpc by (unfold pushing in Hidle; by destruct (producer q)).
    rewrite Hpc. do 2 eexists. split; [done |]. simpl. split; [| unfold ring_push_left; simpl; rewrite Hpc; lia].
    destruct (exec_sound 10 in_width q rs (CallPush rec) Hrep) as (q1 & e & Hcall & He).
    simpl in Hcall. rewrite Hpc in Hcall. injection Hcall as <- <-. by split_and!.
  - assert (producer q ≠ P_idle) as Hpc by (unfold pushing in Hbusy; by destruct (producer q)).
    destruct (exec_sound 10 in_width q rs RunProducer Hrep) as (q1 & e & Hstep & He). simpl in Hstep.
    destruct (emplace_step_pc _ _ _ Hstep Hpc) as [Hcons Hprod].
    assert (popping q1 = c) as Hc1 by (unfold popping in *; by rewrite Hcons).
    exists q1. rewrite Hstep. cbn [obind]. eexists. split; [by destruct (producer q) |].
    destruct e as [[x | x | x |] |]; try done.
    + destruct He as (rs' & Hfifo & Hrep'). destruct Hprod as [Hx' Hnone].
      rewrite Hx' in Hp. assert (x = rec) as -> by (by apply Hx). exists rs'. split; [| by split_and!].
      inversion Hfifo as [? ? Hlt | | |]; subst. cbn [queue_push_step list_queue]. unfold queue_push.
      change (kCapacity 10) with QUEUE_SIZE in Hlt. by rewrite (proj2 (Z.eqb_neq _ _)) by lia.
    + destruct He as (rs' & Hfifo & Hrep'). destruct Hprod as [Hx' Hnone].
      exists rs'. split; [| by split_and!]. inversion Hfifo as [| ? ? Hfull | |]; subst.
      cbn [queue_push_step list_queue]. unfold queue_push. change (kCapacity 10) with QUEUE_SIZE in Hfull.
      by rewrite (proj2 (Z.eqb_eq _ _)) by done.
    + destruct Hprod as [Hsame Hlt]. split; [| done]. split_and!; [done | | done]. rewrite Hsame.
      destruct (pushing q) as [x |]; [| done]. f_equal. by apply Hx.
Qed.

Lemma ring_pop q rs p c :
  ring_stands q rs p c →
  ∃ q' answer, ring_pop_step q = Ret (q', answer) ∧
    match answer with
    | None => ring_stands q' rs p true ∧ ring_pop_left q' < ring_pop_left q
    | Some r => ∃ rs', queue_pop_step rs = Ret (rs', Some r) ∧ ring_stands q' rs' p false
    end.
Proof.
  intros (Hrep & Hp & Hc). unfold ring_pop_step. destruct (popping q) eqn:Hbusy; subst c.
  - assert (consumer q ≠ C_idle) as Hpc by (unfold popping in Hbusy; by destruct (consumer q)).
    destruct (exec_sound 10 in_width q rs RunConsumer Hrep) as (q1 & e & Hstep & He). simpl in Hstep.
    destruct (pop_step_pc _ _ _ Hstep Hpc) as [Hprod Hcons].
    assert (pushing q1 = p) as Hp1 by (unfold pushing in *; by rewrite Hprod).
    exists q1. rewrite Hstep. cbn [obind]. eexists. split; [by destruct (consumer q) |].
    destruct e as [[x | x | x |] |]; try done.
    + destruct He as (rs' & Hfifo & Hrep'). exists rs'. split; [by inversion Hfifo | by split_and!].
    + destruct He as (rs' & Hfifo & Hrep'). exists rs'. split; [by inversion Hfifo | by split_and!].
    + destruct Hcons as [Hpop Hlt]. by split_and!.
  - assert (consumer q = C_idle) as Hpc by (unfold popping in Hbusy; by destruct (consumer q)).
    rewrite Hpc. do 2 eexists. split; [done |]. simpl. split; [| unfold ring_pop_left; simpl; rewrite Hpc; lia].
    destruct (exec_sound 10 in_width q rs CallPop Hrep) as (q1 & e & Hcall & He).
    simpl in Hcall. rewrite Hpc in Hcall. injection Hcall as <- <-. by split_and!.
Qed.

Lemma ring_delete q rs : ring_stands q rs None false → (let! _ := destructor 10 DRAIN_FUEL q in Ret tt) = Ret tt.
Proof.
  intros ([lo [Hh Ht Hl _ _ Hz Hs]] & Hp & Hc).
  destruct (destructor_loop_ok 10 in_width rs lo (m_storage q) Hl) as (st & Hst & _ & _).
  { eapply holds_ext; [| exact Hs]. intros i Hi. unfold contents, pushing, popping in *.
    destruct (consumer q); try done. by destruct (producer q). }
  unfold destructor. rewrite Hh, Ht. erewrite destructor_loop_fuel; [done | exact Hst |].
  unfold DRAIN_FUEL. change QUEUE_SIZE with (2 ^ 10)%Z. lia.
Qed.
End Ring.

#[export] Instance ring_laws {R} : QueueLaws R (queue R) := {|
  stands_for := ring_stands;
  push_left := ring_push_left;
  pop_left := ring_pop_left;
  stands_new := conj (represents_init 10 in_width) (conj eq_refl eq_refl);
  stands_push := ring_push;
  stands_pop := ring_pop;
  stands_delete := ring_delete
|}.

(** * The logger over lists, from the logger over queues *)

Section Refinement.
Context {R Q : Type} `{QueueLaws R Q} (write_line : R → outcome str).
Implicit Types (s : logger R Q) (h : gmap nat (list R)) (a : action R).

(** The same logger, its queues the lists of [h]. *)
Definition with_heap s h : logger R (list R) :=
  Logger (m_queues s) (m_queues_mutex s) h (fresh s) (stop s) (runner s) (q_snapshot s) (out_list s)
    (locals s) (threads s) (stdout s) (object s).

(** A push under way is that of a thread at its [push], a pop that of the
    consumer. *)
Definition queue_stands s (q : nat) (qu : Q) (rs : list R) : Prop :=
  ∃ p c, stands_for qu rs p c ∧
    (∀ rec, p = Some rec → ∃ t, threads s !! t = Some (L_push rec q)) ∧
    (c = true → ∃ final rest, runner s = R_pop final (q :: rest)).
Definition heaps_ok s h : Prop :=
  ∀ q, match heap s !! q, h !! q with
       | Some qu, Some rs => queue_stands s q qu rs
       | None, None => True
       | _, _ => False
       end.

Lemma heaps_lookup s h q :
  heaps_ok s h →
  (heap s !! q = None ∧ h !! q = None) ∨
  ∃ qu rs, heap s !! q = Some qu ∧ h !! q = Some rs ∧ queue_stands s q qu rs.
Proof.
  intros Hh. specialize (Hh q). destruct (heap s !! q) as [qu |], (h !! q) as [rs |]; try done; eauto 6.
Qed.

(** What a queue stands for does not depend on the rest of the logger, but for
    the operations under way. *)
Definition keeps s s' (q : nat) : Prop :=
  (∀ t rec, threads s !! t = Some (L_push rec q) → threads s' !! t = Some (L_push rec q)) ∧
  (∀ final rest, runner s = R_pop final (q :: rest) → runner s' = R_pop final (q :: rest)).

Lemma stands_keeps s s' q qu rs : queue_stands s q qu rs → keeps s s' q → queue_stands s' q qu rs.
Proof.
  intros (p & c & Hs & Hp & Hc) [Kt Kr]. exists p, c. split_and!; [done | |].
  - intros rec Hrec. destruct (Hp rec Hrec) as (t & Ht). eauto.
  - intros Htrue. destruct (Hc Htrue) as (final & rest & Hr). eauto.
Qed.

Lemma heaps_same s s' h : heaps_ok s h → heap s' = heap s → (∀ q, keeps s s' q) → heaps_ok s' h.
Proof.
  intros Hh Heq Hk q. specialize (Hh q). rewrite Heq. destruct (heap s !! q), (h !! q); try done.
  by eapply stands_keeps.
Qed.

(** One queue has changed. *)
Lemma heaps_insert s s' h q qu rs :
  heaps_ok s h → heap s' = <[q := qu]> (heap s) → queue_stands s' q qu rs →
  (∀ q', q' ≠ q → keeps s s' q') → heaps_ok s' (<[q := rs]> h).
Proof.
  intros Hh Heq Hq Hk q'. rewrite Heq. destruct (decide (q' = q)) as [-> | Hne].
  - by rewrite !lookup_insert_eq.
  - rewrite !lookup_insert_ne by done. specialize (Hh q'). destruct (heap s !! q'), (h !! q'); try done.
    eapply stands_keeps; [done | by apply Hk].
Qed.

(** The step of the logger over queues and that over lists. *)
Definition matches (x : outcome (logger R Q * option (event R)))
    (y : outcome (logger R (list R) * option (event R))) : Prop :=
  match x, y with
  | Ret (s', e), Ret (l, e') => e' = e ∧ ∃ h', l = with_heap s' h' ∧ heaps_ok s' h'
  | Ret _, _ | _, Ret _ => False
  | _, _ => True
  end.

(** Steps an operation that action [a] runs still has to take. *)
Definition pending s a : nat :=
  match a with
  | RunThread t =>
      match threads s !! t with
      | Some (L_push _ q) => from_option push_left 0 (heap s !! q)
      | _ => 0
      end
  | RunRunner =>
      match runner s with
      | R_pop _ (q :: _) => from_option pop_left 0 (heap s !! q)
      | _ => 0
      end
  | _ => 0
  end.

(** Nothing to be seen of a step inside an operation. *)
Definition inside s h a : Prop :=
  ∃ s', exec write_line s a = Ret (s', None) ∧ with_heap s' h = with_heap s h ∧ heaps_ok s' h ∧
    pending s' a < pending s a.

Lemma matches_same h s' l e :
  l = with_heap s' h → heaps_ok s' h → matches (Ret (s', e)) (Ret (l, e)).
Proof. intros -> Hh. split; [done |]. by exists h. Qed.

(** *** The destructor *)

Lemma object_step_matches s h :
  heaps_ok s h → logger_ok (with_heap s h) → matches (object_step s) (object_step (with_heap s h)).
Proof.
  intros Hh (_ & Hru & Hsh). pose proof (ru_end _ Hru) as Hend. pose proof (sh_idle _ Hsh) as Hidle.
  destruct s as [qs mx hp fr st ru snap out lo th so ob]. unfold object_step. simpl in *.
  destruct ob as [| | | | | [| q rest] |].
  - apply (matches_same h); [done |]. eapply heaps_same; [exact Hh | done |]. intros q. split; [done |].
    intros final rest Hr. pose proof (proj2 (ru_unborn _ Hru) eq_refl) as Hun. simpl in *. congruence.
  - destruct ru; try (apply (matches_same h); done); done.
  - destruct ru; try (apply (matches_same h); done); done.
  - by apply (matches_same h).
  - destruct ru; by apply (matches_same h).
  - by apply (matches_same h).
  - destruct (heaps_lookup _ _ q Hh) as [[Hq Hq'] | (qu & rs & Hq & Hq' & p & c & Hs & Hp & Hc)];
      simpl in *; rewrite Hq, Hq'; [done |].
    assert (p = None) as ->.
    { destruct p as [rec |]; [| done]. destruct (Hp rec eq_refl) as (t & Ht). by rewrite (Hidle ltac:(done)) in Ht. }
    assert (c = false) as ->.
    { destruct c; [| done]. destruct (Hc eq_refl) as (final & rest' & Hr). by rewrite (Hend eq_refl) in Hr. }
    rewrite (stands_delete _ _ Hs). cbn [obind queue_delete list_queue]. split; [done |].
    exists (delete q h). split; [done |]. intros q'. simpl. destruct (decide (q' = q)) as [-> | Hne].
    + by rewrite !lookup_delete_eq.
    + rewrite !lookup_delete_ne by done. apply (Hh q').
  - by apply (matches_same h).
Qed.

(** *** The consumer *)

(** Between two queues the runner moves freely. *)
Lemma heaps_runner s s' h :
  heaps_ok s h → heap s' = heap s → threads s' = threads s →
  (∀ final q rest, runner s ≠ R_pop final (q :: rest)) → heaps_ok s' h.
Proof.
  intros Hh Heq Ht Hr. eapply heaps_same; [done | done |]. intros q. split; [by rewrite Ht |].
  intros final rest Hq. by apply Hr in Hq.
Qed.

Lemma run_step_matches s h :
  heaps_ok s h →
  inside s h RunRunner ∨ matches (run_step write_line s) (run_step write_line (with_heap s h)).
Proof.
  intros Hh. unfold inside. simpl. unfold run_step. change (runner (with_heap s h)) with (runner s).
  destruct (runner s) as [| | | | | final [| q rest] |] eqn:Hr.
  1, 2, 3, 5, 6, 8: right; apply (matches_same h); [cbn [stop m_queues_mutex with_heap]; by repeat case_match |].
  1-6: repeat case_match; try done; (eapply heaps_runner; [done | done | done | by rewrite Hr]).
  - right. change (object (with_heap s h)) with (object s). destruct (constructing (object s)); [done |].
    apply (matches_same h); [done |]. eapply heaps_runner; [done | done | done | by rewrite Hr].
  - destruct (heaps_lookup _ _ q Hh) as [[Hq Hq'] | (qu & rs & Hq & Hq' & p & c & Hs & Hp & Hc)];
      cbn [heap with_heap]; rewrite Hq, Hq'; [by right |].
    destruct (stands_pop _ _ _ _ Hs) as (qu' & answer & Hstep & Hans). rewrite Hstep. cbn [obind].
    assert (∀ s', heap s' = <[q := qu']> (heap s) → threads s' = threads s →
      (∀ q', q' ≠ q → ∀ final rest, runner s = R_pop final (q' :: rest) → runner s' = R_pop final (q' :: rest)) →
      ∀ rs' c', stands_for qu' rs' p c' → (c' = true → runner s' = runner s) →
      heaps_ok s' (<[q := rs']> h)) as Hput.
    { intros s' Heq Ht Hr' rs' c' Hs' Hc'. eapply heaps_insert; [exact Hh | exact Heq | |].
      - exists p, c'. split_and!; [done | by rewrite Ht |]. intros Htrue. rewrite (Hc' Htrue). eauto.
      - intros q' Hne. split; [by rewrite Ht | by apply Hr']. }
    destruct answer as [[rec |] |].
    + right. destruct Hans as (rs' & Hlist & Hs'). rewrite Hlist. cbn [obind out_list set_heap with_heap].
      destruct (length (out_list s) <? OUT_LIST_SIZE); [| done]. cbv zeta.
      assert (∀ l ls, heaps_ok (set_output (set_heap s (<[q := qu']> (heap s))) l ls) (<[q := rs']> h)) as Hok
        by (intros; by eapply Hput).
      destruct (OUT_LIST_SIZE <=? _); [| by apply (matches_same (<[q := rs']> h))].
      destruct (_flush write_line _) as [ls | | | |]; try done. by apply (matches_same (<[q := rs']> h)).
    + right. destruct Hans as (rs' & Hlist & Hs'). rewrite Hlist. cbn [obind out_list set_heap with_heap].
      destruct (_flush write_line _) as [ls | | | |]; try done. cbn [obind].
      apply (matches_same (<[q := rs']> h)); [done |]. eapply Hput; [done | done | | exact Hs' | done].
      intros q' Hne final' rest' Hq2. congruence.
    + left. destruct Hans as [Hs' Hlt]. eexists. split; [done |]. split; [done |]. split.
      * rewrite <-(insert_id h q rs) by done. eapply Hput; [done | done | done | exact Hs' | done].
      * cbn [runner heap set_heap]. by rewrite Hr, lookup_insert_eq.
Qed.

(** *** The logging threads *)

(** A thread that is not at its push moves, and changes no queue. *)
Lemma heaps_thread s s' h t :
  heaps_ok s h → heap s' = heap s → runner s' = runner s →
  (∀ rec q, threads s !! t ≠ Some (L_push rec q)) →
  (∀ t', t' ≠ t → threads s' !! t' = threads s !! t') → heaps_ok s' h.
Proof.
  intros Hh Heq Hr Ht Hother. eapply heaps_same; [done | done |]. intros q. split; [| by rewrite Hr].
  intros t' rec Hp. rewrite Hother; [done |]. intros ->. by apply Ht in Hp.
Qed.

Lemma thread_step_matches s h t :
  heaps_ok s h → logger_ok (with_heap s h) →
  inside s h (RunThread t) ∨ matches (thread_step s t) (thread_step (with_heap s h) t).
Proof.
  intros Hh (Hth & _ & _). unfold inside. simpl. unfold thread_step.
  change (threads (with_heap s h)) with (threads s).
  destruct (threads s !! t) as [p |] eqn:Ht; [| right; by apply (matches_same h)].
  assert (∀ s', heap s' = heap s → runner s' = runner s → (∀ t', t' ≠ t → threads s' !! t' = threads s !! t') →
    (∀ rec q, p ≠ L_push rec q) → heaps_ok s' h) as Hmove.
  { intros. eapply (heaps_thread s _ _ t); try done. intros rec q. rewrite Ht. naive_solver. }
  assert (∀ po t', t' ≠ t → partial_alter (λ _, po) t (threads s) !! t' = threads s !! t') as Hother
    by (intros; by rewrite lookup_partial_alter_ne).
  destruct p as [rec | rec | rec q | rec q | rec q | rec q |].
  1, 3, 4, 5: right; apply (matches_same h);
    [cbn [m_queues_mutex locals with_heap]; by repeat case_match | cbn [m_queues_mutex with_heap]].
  1-4: repeat case_match; try done; apply Hmove; try done; simpl; try (intros; by rewrite lookup_insert_ne).
  - right. split; [done |]. exists (<[fresh s := []]> h). split; [done |].
    eapply (heaps_insert s); [exact Hh | done | |].
    + exists None, false. split; [apply stands_new | done].
    + intros q' _. split; [| done]. simpl. intros t' rec' Hp. rewrite lookup_insert_ne; [done |].
      intros <-. congruence.
  - destruct (heaps_lookup _ _ q Hh) as [[Hq Hq'] | (qu & rs & Hq & Hq' & p & c & Hs & Hp & Hc)];
      cbn [heap with_heap]; rewrite Hq, Hq'; [by right |].
    assert (∀ x, p = Some x → x = rec) as Hmine.
    { intros x ->. destruct (Hp x eq_refl) as (t' & Ht'). pose proof (th_push _ Hth _ _ _ Ht) as H1.
      pose proof (th_push _ Hth _ _ _ Ht') as H2. assert (t' = t) as ->; [| congruence].
      apply (th_inj _ Hth t' t q); unfold queue_of; by rewrite ?H1, ?H2. }
    destruct (stands_push _ _ _ _ rec Hs Hmine) as (qu' & answer & Hstep & Hans). rewrite Hstep. cbn [obind].
    assert (∀ s' rs' p', heap s' = <[q := qu']> (heap s) → runner s' = runner s →
      (∀ t', t' ≠ t → threads s' !! t' = threads s !! t') → stands_for qu' rs' p' c →
      (∀ x, p' = Some x → threads s' !! t = Some (L_push x q)) → heaps_ok s' (<[q := rs']> h)) as Hput.
    { intros s' rs' p' Heq Hr Hoth Hs' Hp'. eapply heaps_insert; [exact Hh | exact Heq | |].
      - exists p', c. split_and!; [done | eauto | by rewrite Hr].
      - intros q' Hne. split; [| by rewrite Hr]. intros t' rec' Ht'. rewrite Hoth; [done |]. intros ->. congruence. }
    destruct answer as [ok |].
    + right. destruct Hans as (rs' & Hlist & Hs'). rewrite Hlist. cbn [obind].
      destruct ok; (apply (matches_same (<[q := rs']> h)); [done |]);
        apply (Hput _ _ None); try done; intros; simpl; by rewrite lookup_delete_ne.
    + left. destruct Hans as [Hs' Hlt]. eexists. split; [done |]. split; [done |]. split.
      * rewrite <-(insert_id h q rs) by done. apply (Hput _ _ (Some rec)); try done. by intros x [= <-].
      * cbn [threads heap set_heap]. by rewrite Ht, lookup_insert_eq.
  - right. change (threads (with_heap s h)) with (threads s). case_decide; [| done].
    apply (matches_same h); [done |]. apply Hmove; try done. intros. simpl. by rewrite lookup_delete_ne.
Qed.

Lemma exec_matches s h a :
  heaps_ok s h → logger_ok (with_heap s h) →
  inside s h a ∨ matches (exec write_line s a) (exec write_line (with_heap s h) a).
Proof.
  intros Hh Hok. destruct a as [| t rec | t | t | |]; simpl.
  - right. by apply object_step_matches.
  - right. apply (matches_same h); [unfold call; simpl; by repeat case_match |].
    unfold call. destruct (object s), (threads s !! t) eqn:Ht; try done.
    eapply (heaps_thread s _ _ t); try done; [by rewrite Ht |]. intros. simpl. by rewrite lookup_insert_ne.
  - right. apply (matches_same h); [unfold call; simpl; by repeat case_match |].
    unfold call. destruct (object s), (threads s !! t) eqn:Ht; try done.
    eapply (heaps_thread s _ _ t); try done; [by rewrite Ht |]. intros. simpl. by rewrite lookup_insert_ne.
  - by apply thread_step_matches.
  - by apply run_step_matches.
  - right. apply (matches_same h); [cbn [object threads with_heap]; by repeat case_match |].
    destruct (object s); try done. case_decide; [| done]. eapply heaps_same; [exact Hh | done | done].
Qed.

(** ** Whole runs *)

(** A run over queues is a run over lists, event for event. *)
Lemma run_over_lists tr s :
  run (step write_line) init tr s →
  ∃ tr' h, run (step write_line) init tr' (with_heap s h) ∧ omap snd tr' = omap snd tr ∧ heaps_ok s h.
Proof.
  apply (run_invariant (step write_line) (λ tr s, ∃ tr' h, run (step write_line) init tr' (with_heap s h) ∧
    omap snd tr' = omap snd tr ∧ heaps_ok s h)).
  { exists [], ∅. split_and!; [constructor | done |]. intros q. simpl. by rewrite !lookup_empty. }
  clear. intros tr s [a e] s' (tr' & h & Hrun & Htr & Hh) Hstep. unfold machine_step in Hstep. simpl in Hstep.
  destruct (logger_reachable write_line _ _ Hrun) as (Hok & _ & _).
  destruct (exec_matches s h a Hh Hok) as [(s1 & Hs1 & Heq & Hh' & _) | Hm].
  - rewrite Hs1 in Hstep. injection Hstep as <- <-. exists tr', h. rewrite Heq. split_and!; [done | | done].
    by rewrite omap_app, Htr, app_nil_r.
  - rewrite Hstep in Hm. destruct (exec write_line (with_heap s h) a) as [[l e'] | | | |] eqn:Ha; try done.
    destruct Hm as (-> & h' & -> & Hh'). exists (tr' ++ [(a, e)]), h'.
    split_and!; [| by rewrite !omap_app, Htr | done]. eapply run_app; [exact Hrun |]. by apply run_one.
Qed.

(** A step over lists is some steps over queues, with the same event. *)
Lemma step_over_queues s h a l e :
  heaps_ok s h → logger_ok (with_heap s h) → exec write_line (with_heap s h) a = Ret (l, e) →
  ∃ tr s' h', run (step write_line) s tr s' ∧ omap snd tr = option_list e ∧ l = with_heap s' h' ∧ heaps_ok s' h'.
Proof.
  remember (pending s a) as n eqn:Hn. revert s Hn. induction (lt_wf n) as [n _ IH]. intros s -> Hh Hok Ha.
  destruct (exec_matches s h a Hh Hok) as [(s1 & Hs1 & Heq & Hh' & Hlt) | Hm].
  - destruct (IH _ Hlt s1 eq_refl Hh') as (tr & s' & h' & Hrun & Htr & Hl & Hh2); [by rewrite Heq | by rewrite Heq |].
    exists ([(a, None)] ++ tr), s', h'. split_and!; [| done | done | done].
    eapply run_app; [by apply run_one | exact Hrun].
  - destruct (exec write_line s a) as [[s' e'] | | | |] eqn:Hs; rewrite Ha in Hm; try done.
    destruct Hm as (-> & h' & -> & Hh'). exists [(a, e')], s', h'.
    split_and!; [by apply run_one | simpl; by destruct e' | done | done].
Qed.

Lemma run_over_queues l tr l' s h :
  run (step write_line) l tr l' → l = with_heap s h → heaps_ok s h → logger_ok l →
  ∃ tr' s' h', run (step write_line) s tr' s' ∧ omap snd tr' = omap snd tr ∧ l' = with_heap s' h' ∧
    heaps_ok s' h' ∧ logger_ok l'.
Proof.
  induction 1 as [l | l tr l1 [a e] l2 Hrun IH Hstep]; intros -> Hh Hok.
  { exists [], s, h. split_and!; [constructor | done..]. }
  destruct (IH eq_refl Hh Hok) as (tr1 & s1 & h1 & Hrun1 & Htr1 & -> & Hh1 & Hok1).
  unfold machine_step in Hstep. simpl in Hstep.
  destruct (step_over_queues _ _ _ _ _ Hh1 Hok1 Hstep) as (tr2 & s2 & h2 & Hrun2 & Htr2 & -> & Hh2).
  exists (tr1 ++ tr2), s2, h2. split_and!; [by eapply run_app | | done | done | by eapply exec_ok].
  rewrite !omap_app, Htr1, Htr2. simpl. by destruct e.
Qed.

End Refinement.

(** * Properties *)


(** C13: shutting down the logger over the lock-free queues writes what was
    logged.  From any reachable state in which the destructor has asked the
    consumer to stop, consumer and destructor can end; then every queue is
    destroyed, and every record a thread logged, to a queue of the last snapshot,
    has been taken and written. *)
Theorem queued_logger_shutdown {R} (write_line : R → outcome str) tr (s : logger R (queue R)) :
  (∀ rec, ∃ l, write_line rec = Ret l) → run (step write_line) init tr s → object s = P_join →
  ∃ tr' s', run (step write_line) s tr' s' ∧ object s' = P_done ∧ heap s' = ∅ ∧
    let es := omap snd (tr ++ tr') in
    (∀ q, q ∈ q_snapshot s' → popped_from q es = logged_to q es) ∧
    Forall2 (λ rec l, write_line rec = Ret l) (popped es) (stdout s').
Proof.
  intros Hwrite Hrun Ho. destruct (run_over_lists write_line _ _ Hrun) as (tr1 & h & Hlist & Hes & Hh).
  destruct (logger_reachable write_line _ _ Hlist) as (Hok & _ & _).
  destruct (logger_shutdown write_line _ _ Hwrite Hlist Ho) as (tr2 & l & Hrun2 & Hdone & Hheap & Hq & Hout).
  destruct (run_over_queues write_line _ _ _ s h Hrun2 eq_refl Hh Hok)
    as (tr' & s' & h' & Hrun' & Hes' & -> & Hh' & _).
  exists tr', s'. split_and!; [done | exact Hdone | |].
  - apply map_empty. intros q. destruct (heaps_lookup _ _ q Hh') as [[Hq1 _] | (qu & rs & _ & Hq2 & _)]; [done |].
    cbn [heap with_heap] in Hheap. by rewrite Hheap, lookup_empty in Hq2.
  - cbv zeta in *. rewrite !omap_app, Hes, Hes' in *. by rewrite <-omap_app in *.
Qed.

(** * On a concrete logger *)

Module Demo.
(** Thread 1 registers and starts to push while the consumer looks at the list of
    queues; the push and the pop overlap; then the destructor is called. *)
Definition overlapping : list (action nat) :=
  CallLog 1 7 :: replicate 5 (RunThread 1) ++ replicate 4 RunRunner ++
  mjoin (replicate 6 [RunThread 1; RunRunner]) ++ replicate 20 RunRunner.
Definition schedule : list (action nat) :=
  [RunObject; RunObject; RunObject] ++ overlapping ++ [CallDestructor].

Definition closing : logger nat (queue nat) :=
  final init (run_schedule (exec SPSCLogger.Demo.write_number) init schedule).

Lemma queued_closing_run : ∃ tr, run (step SPSCLogger.Demo.write_number) init tr closing ∧
  omap snd tr = [Ev_log 1 0 7; Ev_pop 0 7] ∧ tr.*1 = schedule.
Proof. apply run_schedule_run. vm_compute. reflexivity. Qed.
End Demo.


Lemma queued_logger_shutdown_witness : ∃ tr, run (step SPSCLogger.Demo.write_number) init tr Demo.closing ∧
  ∃ tr' s', run (step SPSCLogger.Demo.write_number) Demo.closing tr' s' ∧ object s' = P_done ∧ heap s' = ∅ ∧
    let es := omap snd (tr ++ tr') in
    (∀ q, q ∈ q_snapshot s' → popped_from q es = logged_to q es) ∧
    Forall2 (λ rec l, SPSCLogger.Demo.write_number rec = Ret l) (popped es) (stdout s').
Proof.
  destruct Demo.queued_closing_run as (tr & Hrun & _). exists tr. split; [exact Hrun |].
  apply (queued_logger_shutdown SPSCLogger.Demo.write_number tr Demo.closing
    SPSCLogger.Demo.write_number_total Hrun).
  vm_compute. reflexivity.
Defined.
