(* ===== verification/Vector.v ===== *)
(** * Vector: a growable array over raw storage

    Models [src/include/fiah/structs/Vector.hh].  A vector is three pointers
    into a block of cells on the heap; every construction, relocation and
    destruction of an element is a step on a cell, so that constructing over a
    live element, reading a dead one or running past the block is [Undef]. *)

From stdpp Require Import base tactics numbers list option gmap.
From Stdlib Require Import ZArith Lia.
From S2P Require Import Prelude Storage Heap.
#[local] Open Scope Z_scope.
#[local] Open Scope fiah_scope.

Section Vector.
Context {V : Type}.
(** The value [T{}] *)
Context (dflt : V).
(** [sizeof(T)], and whether [std::move_if_noexcept] moves *)
Context (TSize : Z) (nothrow_move : bool).
(** [operator new(bytes)] succeeds; else it throws, and the [noexcept] caller terminates *)
Context (available : Z → bool).

(** ** Pointers to elements *)

Inductive ptr : Type := Null | Ptr (b : nat) (off : Z).

Abbreviation cells := (list (cell V)).
Abbreviation mem := (heap cells).

Definition ptr_add (p : ptr) (n : Z) : ptr :=
  match p with Null => Null | Ptr b o => Ptr b (o + n) end.

(** [p - q] *)
Definition ptr_diff (p q : ptr) : outcome Z :=
  match p, q with
  | Null, Null => Ret 0
  | Ptr b o, Ptr b' o' => require! (b =? b')%nat;; Ret (o - o')
  | _, _ => Undef
  end.

Definition ptr_eqb (p q : ptr) : bool :=
  match p, q with
  | Null, Null => true
  | Ptr b o, Ptr b' o' => (b =? b')%nat && (o =? o')
  | _, _ => false
  end.

(** An operation of [Storage] on the element a pointer points to. *)
Definition on_elem (p : ptr) (f : cells → nat → outcome cells) (h : mem) : outcome mem :=
  match p with
  | Null => Undef
  | Ptr b o =>
      require! (0 <=? o);;
      let! cs := load h b in
      let! cs := f cs (Z.to_nat o) in store h b cs
  end.

Definition construct_elem (h : mem) (p : ptr) (v : V) : outcome mem :=
  on_elem p (λ cs i, construct_at cs i v) h.
Definition destroy_elem (h : mem) (p : ptr) : outcome mem := on_elem p destroy_at h.
Definition assign_elem (h : mem) (p : ptr) (v : V) : outcome mem :=
  on_elem p (λ cs i, assign_at cs i v) h.

Definition read_elem (h : mem) (p : ptr) : outcome V :=
  match p with
  | Null => Undef
  | Ptr b o => require! (0 <=? o);; let! cs := load h b in read_at cs (Z.to_nat o)
  end.

(** [std::move( *p)] as a source *)
Definition move_elem (h : mem) (p : ptr) : outcome (V * mem) :=
  let! v := read_elem h p in
  let! h := on_elem p (λ cs i, let! (_, cs) := move_from cs i in Ret cs) h in Ret (v, h).

(** [std::move_if_noexcept( *p)] as a source *)
Definition move_if_noexcept (h : mem) (p : ptr) : outcome (V * mem) :=
  if nothrow_move then move_elem h p else let! v := read_elem h p in Ret (v, h).

(** ** Library loops *)

Fixpoint destroy_n (h : mem) (p : ptr) (n : nat) : outcome mem :=
  match n with
  | O => Ret h
  | S n => let! h := destroy_elem h p in destroy_n h (ptr_add p 1) n
  end.

Fixpoint uninitialized_copy_n (h : mem) (src : ptr) (n : nat) (dst : ptr) : outcome (mem * ptr) :=
  match n with
  | O => Ret (h, dst)
  | S n =>
      let! v := read_elem h src in
      let! h := construct_elem h dst v in
      uninitialized_copy_n h (ptr_add src 1) n (ptr_add dst 1)
  end.

Fixpoint copy_n (h : mem) (src : ptr) (n : nat) (dst : ptr) : outcome (mem * ptr) :=
  match n with
  | O => Ret (h, dst)
  | S n =>
      let! v := read_elem h src in
      let! h := assign_elem h dst v in
      copy_n h (ptr_add src 1) n (ptr_add dst 1)
  end.

(** ** The vector object and its private operations *)

Record vec : Type := MkVector { m_begin : ptr; m_end : ptr; m_cap : ptr }.

Definition ExpansionMult : Z := 2.

Definition size (v : vec) : outcome Z :=
  let! d := ptr_diff (m_end v) (m_begin v) in Ret (u64 d).
Definition capacity (v : vec) : outcome Z :=
  let! d := ptr_diff (m_cap v) (m_begin v) in Ret (u64 d).
Definition empty (v : vec) : bool := ptr_eqb (m_begin v) (m_end v).
Definition begin (v : vec) : ptr := m_begin v.
Definition end_ (v : vec) : ptr := m_end v.

(** What a range-for loop over [p] and [e] reads. *)
Fixpoint range_for (fuel : nat) (h : mem) (p e : ptr) : outcome (list V) :=
  if ptr_eqb p e then Ret [] else
  match fuel with
  | O => OutOfFuel
  | S fuel => let! x := read_elem h p in let! l := range_for fuel h (ptr_add p 1) e in Ret (x :: l)
  end.

(** A block of [alloc_size] elements, as long as the byte count does not wrap. *)
Definition _allocate (h : mem) (alloc_size : Z) : outcome (ptr * mem) :=
  assert! negb (alloc_size =? 0);;
  let bytes := TSize *u64 alloc_size in
  assert! available bytes;;
  let (b, h) := alloc h (replicate (Z.to_nat (bytes / TSize)) Raw) in
  Ret (Ptr b 0, h).

Definition is_raw (c : cell V) : bool := match c with Raw => true | _ => false end.

(** [operator delete]: of a null pointer, nothing.  Releasing the storage of an
    element ends its life without its destructor, which would then never run:
    for elements whose destructors matter that is an error, and undefined here. *)
Definition delete_block (h : mem) (p : ptr) : outcome mem :=
  match p with
  | Null => Ret h
  | Ptr b o =>
      require! (o =? 0);;
      let! cs := load h b in
      require! forallb is_raw cs;; free h b
  end.

(** [while (i-- > 0) construct_at(new_arr + i, move_if_noexcept(m_begin[i]))] *)
Fixpoint relocate (h : mem) (begin_ new_arr : ptr) (i : nat) : outcome mem :=
  match i with
  | O => Ret h
  | S i =>
      let! (x, h) := move_if_noexcept h (ptr_add begin_ (Z.of_nat i)) in
      let! h := construct_elem h (ptr_add new_arr (Z.of_nat i)) x in
      relocate h begin_ new_arr i
  end.

Definition _grow_capacity (h : mem) (v : vec) (new_cap : Z) : outcome (mem * vec) :=
  let! (new_arr, h) := _allocate h new_cap in
  let! curr_sz := size v in
  let! h := relocate h (m_begin v) new_arr (Z.to_nat curr_sz) in
  let! h := destroy_n h (m_begin v) (Z.to_nat curr_sz) in
  let! h := delete_block h (m_begin v) in
  Ret (h, MkVector new_arr (ptr_add new_arr curr_sz) (ptr_add new_arr new_cap)).

Definition _allocate_from_nullptr (h : mem) (v : vec) (new_cap : Z) : outcome (mem * vec) :=
  assert! ptr_eqb (m_begin v) Null;; assert! ptr_eqb (m_end v) Null;;
  assert! ptr_eqb (m_cap v) Null;;
  let! (p, h) := _allocate h new_cap in
  Ret (h, MkVector p p (ptr_add p new_cap)).

Definition _destroy_all (h : mem) (v : vec) : outcome (mem * vec) :=
  match m_begin v with
  | Null => Ret (h, v)
  | _ =>
      let! n := size v in
      let! h := destroy_n h (m_begin v) (Z.to_nat n) in
      Ret (h, MkVector (m_begin v) (m_begin v) (m_cap v))
  end.

Definition _free (h : mem) (v : vec) : outcome (mem * vec) :=
  let! h := delete_block h (m_begin v) in Ret (h, MkVector Null Null Null).

Definition _destroy_and_free (h : mem) (v : vec) : outcome (mem * vec) :=
  let! (h, v) := _destroy_all h v in _free h v.

(** ** Constructors and assignment

    [other] is a vector distinct from [*this] in the constructors; in the
    assignments [None] stands for [&other == this]. *)

Definition Vector : vec := MkVector Null Null Null.

Definition Vector_reserve (h : mem) (N : Z) : outcome (mem * vec) :=
  _allocate_from_nullptr h Vector N.

Definition Vector_copy (h : mem) (other : vec) : outcome (mem * vec) :=
  let! c := capacity other in
  let! (h, v) := _allocate_from_nullptr h Vector c in
  let! n := size other in
  let! (h, e) := uninitialized_copy_n h (m_begin other) (Z.to_nat n) (m_begin v) in
  Ret (h, MkVector (m_begin v) e (m_cap v)).

Definition reserve (h : mem) (v : vec) (new_cap : Z) : outcome (mem * vec) :=
  match m_begin v with
  | Null => _allocate_from_nullptr h v new_cap
  | _ =>
      let! current_cap := capacity v in
      if new_cap <=? current_cap then Ret (h, v) else _grow_capacity h v new_cap
  end.

Definition copy_assign (h : mem) (v : vec) (other : option vec) : outcome (mem * vec) :=
  let! n := size (default v other) in
  let! (h, v) := reserve h v n in
  let other := default v other in
  let! n := size other in
  let! (h, e) := copy_n h (m_begin other) (Z.to_nat n) (m_begin v) in
  Ret (h, MkVector (m_begin v) e (m_cap v)).

(** The moved-to and the moved-from vector. *)
Definition Vector_move (other : vec) : vec * vec := (other, Vector).

Definition move_assign (h : mem) (v : vec) (other : option vec) : outcome (mem * vec * vec) :=
  let! (h, v) := _destroy_and_free h v in
  match other with
  | Some other => Ret (h, other, Vector)
  | None =>
      (* both names are [v]: its fields are read back, then cleared *)
      Ret (h, Vector, Vector)
  end.

Definition Vector_destroy (h : mem) (v : vec) : outcome (mem * vec) := _destroy_and_free h v.

(** ** Element access and modification *)

(** An argument of [emplace_back]: a value of its own, or an element read
    through a reference when the new element is constructed. *)
Inductive source : Type := Value (x : V) | Elem (p : ptr).

Definition from_source (h : mem) (s : source) : outcome V :=
  match s with Value x => Ret x | Elem p => read_elem h p end.

Definition emplace_back (h : mem) (v : vec) (s : source) : outcome (mem * vec * ptr) :=
  let! (h, v) :=
    match m_begin v with
    | Null => _allocate_from_nullptr h v 1
    | _ =>
        if ptr_eqb (m_end v) (m_cap v)
        then let! c := capacity v in _grow_capacity h v (c *u64 ExpansionMult)
        else Ret (h, v)
    end in
  let p := m_end v in
  let! x := from_source h s in
  let! h := construct_elem h p x in
  Ret (h, MkVector (m_begin v) (ptr_add p 1) (m_cap v), p).

Definition push_back (h : mem) (v : vec) (s : source) : outcome (mem * vec) :=
  let! (h, v, _) := emplace_back h v s in Ret (h, v).

(** The reference returned, or the exception. *)
Definition at_ (v : vec) (index : Z) : outcome ptr :=
  let! n := size v in
  if n <=? index then Throw out_of_range else Ret (ptr_add (m_begin v) index).

Definition subscript (v : vec) (pos : Z) : outcome ptr :=
  let! n := size v in
  assert! (pos <? n);; Ret (ptr_add (m_begin v) pos).

Definition pop_back (h : mem) (v : vec) : outcome (mem * vec) :=
  assert! negb (empty v);;
  let e := ptr_add (m_end v) (-1) in
  let! h := destroy_elem h e in
  Ret (h, MkVector (m_begin v) e (m_cap v)).

Definition clear (h : mem) (v : vec) : outcome (mem * vec) := _destroy_all h v.

(** [while (m_end != new_end) construct_at(m_end++)] *)
Fixpoint construct_until (fuel : nat) (h : mem) (e new_end : ptr) : outcome (mem * ptr) :=
  match fuel with
  | O => OutOfFuel
  | S fuel =>
      if ptr_eqb e new_end then Ret (h, e)
      else let! h := construct_elem h e dflt in construct_until fuel h (ptr_add e 1) new_end
  end.

(** [while (m_end != new_end) destroy_at(--m_end)] *)
Fixpoint destroy_until (fuel : nat) (h : mem) (e new_end : ptr) : outcome (mem * ptr) :=
  match fuel with
  | O => OutOfFuel
  | S fuel =>
      if ptr_eqb e new_end then Ret (h, e)
      else
        let e := ptr_add e (-1) in
        let! h := destroy_elem h e in destroy_until fuel h e new_end
  end.

Definition resize (h : mem) (v : vec) (new_size : Z) : outcome (mem * vec) :=
  match m_begin v with
  | Null =>
      let! (h, v) := _allocate_from_nullptr h v new_size in
      let! (h, e) := construct_until (S (Z.to_nat new_size)) h (m_end v) (m_cap v) in
      Ret (h, MkVector (m_begin v) e (m_cap v))
  | _ =>
      let! current_size := size v in
      let new_end := ptr_add (m_begin v) new_size in
      if new_size <=? current_size then
        let! (h, e) := destroy_until (S (Z.to_nat current_size)) h (m_end v) new_end in
        Ret (h, MkVector (m_begin v) e (m_cap v))
      else
        let! c := capacity v in
        let! (h, v) := if c <? new_size then _grow_capacity h v new_size else Ret (h, v) in
        let! (h, e) := construct_until (S (Z.to_nat new_size)) h (m_end v) new_end in
        Ret (h, MkVector (m_begin v) e (m_cap v))
  end.

(** * Proofs *)

(** ** Single elements *)

Implicit Types (h : mem) (b n i : nat) (cs : cells) (F : gmap nat cells) (l : list V).

Lemma on_elem_returns h b i f cs cs' F :
  owns h b cs F → f cs i = Ret cs' →
  returns (on_elem (Ptr b (Z.of_nat i)) f h) (λ h', owns h' b cs' F).
Proof.
  intros Ho Hf. unfold on_elem. rewrite (proj2 (Z.leb_le _ _)) by lia.
  rewrite (load_owns _ _ _ _ Ho). simpl. rewrite Nat2Z.id, Hf. simpl.
  destruct (store_owns _ _ _ cs' _ Ho) as (h' & -> & Ho'). done.
Qed.

Lemma construct_elem_returns h b i cs v F :
  owns h b cs F → cs !! i = Some Raw →
  returns (construct_elem h (Ptr b (Z.of_nat i)) v) (λ h', owns h' b (<[i := Live v]> cs) F).
Proof. intros. by apply (on_elem_returns _ _ _ _ cs), construct_at_raw. Qed.

Definition alive (c : cell V) : Prop := c ≠ Raw.

Lemma destroy_elem_returns h b i cs c F :
  owns h b cs F → cs !! i = Some c → alive c →
  returns (destroy_elem h (Ptr b (Z.of_nat i))) (λ h', owns h' b (<[i := Raw]> cs) F).
Proof.
  intros. apply (on_elem_returns _ _ _ _ cs); [done |].
  destruct c as [| v |]; [done | by eapply destroy_at_live | by apply destroy_at_moved].
Qed.

Lemma assign_elem_returns h b i cs c v F :
  owns h b cs F → cs !! i = Some c → alive c →
  returns (assign_elem h (Ptr b (Z.of_nat i)) v) (λ h', owns h' b (<[i := Live v]> cs) F).
Proof.
  intros Ho Hc Ha. apply (on_elem_returns _ _ _ _ cs); [done |].
  unfold assign_at, at_cell. rewrite Hc. by destruct c.
Qed.

Lemma read_elem_live h b i cs v F :
  owns h b cs F → cs !! i = Some (Live v) → read_elem h (Ptr b (Z.of_nat i)) = Ret v.
Proof.
  intros Ho Hv. unfold read_elem. rewrite (proj2 (Z.leb_le _ _)) by lia.
  rewrite (load_owns _ _ _ _ Ho). simpl. rewrite Nat2Z.id. by apply read_at_live.
Qed.

(** What [move_if_noexcept] leaves of an element. *)
Definition left_behind (v : V) : cell V := if nothrow_move then Moved else Live v.

Lemma move_if_noexcept_returns h b i cs v F :
  owns h b cs F → cs !! i = Some (Live v) →
  returns (move_if_noexcept h (Ptr b (Z.of_nat i)))
    (λ '(x, h'), x = v ∧ owns h' b (<[i := left_behind v]> cs) F).
Proof.
  intros Ho Hv. unfold move_if_noexcept, move_elem, left_behind.
  rewrite (read_elem_live _ _ _ _ _ _ Ho Hv). cbn [obind]. destruct nothrow_move.
  - eapply (returns_bind _ _ (λ h', owns h' b (<[i := Moved]> cs) F)); [| done].
    apply (on_elem_returns _ _ _ _ cs _ _ Ho). by erewrite move_from_live.
  - simpl. by rewrite list_insert_id.
Qed.

Lemma ptr_step b o : ptr_add (Ptr b o) 1 = Ptr b (o + 1).
Proof. done. Qed.

(** ** Runs of elements *)

Lemma insert_middle {A} (pre post : list A) x y :
  <[length pre := y]> (pre ++ x :: post) = pre ++ y :: post.
Proof. by rewrite insert_app_r_alt, Nat.sub_diag by done. Qed.

Lemma lookup_middle {A} (pre post : list A) x : (pre ++ x :: post) !! length pre = Some x.
Proof. by apply list_lookup_middle. Qed.

Lemma insert_middle_at {A} i (pre post : list A) x y :
  i = length pre → <[i := y]> (pre ++ x :: post) = pre ++ y :: post.
Proof. intros ->. apply insert_middle. Qed.

Lemma lookup_middle_at {A} i (pre post : list A) x :
  i = length pre → (pre ++ x :: post) !! i = Some x.
Proof. intros ->. apply lookup_middle. Qed.

Lemma ptr_next b (pre : cells) c : ptr_add (Ptr b (zlen pre)) 1 = Ptr b (zlen (pre ++ [c])).
Proof. rewrite ptr_step, length_app. f_equal. simpl. lia. Qed.

(** Loops that walk up a block: [pre] is done, [mid] is to do. *)
Lemma destroy_n_returns h b pre mid post F :
  owns h b (pre ++ mid ++ post) F → Forall alive mid →
  returns (destroy_n h (Ptr b (zlen pre)) (length mid))
    (λ h', owns h' b (pre ++ replicate (length mid) Raw ++ post) F).
Proof.
  intros Ho Hmid. revert h pre Ho. induction Hmid as [| c mid Hc Hmid IH]; intros h pre Ho; [done |].
  cbn [destroy_n length replicate app]. eapply returns_bind.
  - eapply destroy_elem_returns; [exact Ho | apply lookup_middle | done].
  - intros h' Ho'. simpl in Ho'. rewrite insert_middle, cons_middle, (assoc_L (++)) in Ho'.
    rewrite (ptr_next _ _ Raw). specialize (IH h' _ Ho'). by rewrite <-(assoc_L (++)) in IH.
Qed.

Lemma read_frame h b cs F sb srcs v post :
  owns h b cs F → F !! sb = Some (srcs ++ Live v :: post) →
  read_elem h (Ptr sb (zlen srcs)) = Ret v.
Proof.
  intros (Hok & Hb & Heq) Hsb. unfold read_elem, load.
  rewrite (proj2 (Z.leb_le _ _)), Heq, lookup_insert_ne, Hsb by (lia || congruence).
  simpl. rewrite Nat2Z.id. by apply read_at_live, lookup_middle.
Qed.

Lemma copy_n_returns h b pre mid post l F sb srcs tail :
  owns h b (pre ++ mid ++ post) F → F !! sb = Some (srcs ++ (Live <$> l) ++ tail) →
  length mid = length l → Forall alive mid →
  returns (copy_n h (Ptr sb (zlen srcs)) (length l) (Ptr b (zlen pre)))
    (λ '(h', e), owns h' b (pre ++ (Live <$> l) ++ post) F ∧ e = Ptr b (zlen pre + zlen l)).
Proof.
  intros Ho Hsb Hlen Hmid. revert h pre mid srcs Ho Hsb Hlen Hmid.
  induction l as [| v l IH]; intros h pre mid srcs Ho Hsb Hlen Hmid.
  { destruct mid; [| done]. simpl. split; [done | f_equal; lia]. }
  destruct mid as [| c mid]; [done |]. apply Forall_cons in Hmid as [Hc Hmid].
  cbn [copy_n length fmap list_fmap app] in *. erewrite read_frame by done. cbn [obind].
  eapply returns_bind.
  - eapply assign_elem_returns; [exact Ho | apply lookup_middle | done].
  - intros h' Ho'. simpl in Ho'. rewrite insert_middle, cons_middle, (assoc_L (++)) in Ho'.
    rewrite !(ptr_next _ _ (Live v)). rewrite cons_middle, (assoc_L (++)) in Hsb.
    eapply returns_mono; [apply (IH h' _ mid _ Ho' Hsb); [lia | done] |].
    intros [h'' e] [Ho'' ->]. rewrite <-(assoc_L (++)) in Ho''. split; [done |].
    rewrite length_app. f_equal. simpl. lia.
Qed.

(** With fewer elements alive than it copies, it assigns to raw storage. *)
Lemma copy_n_overrun h b pre mid post l F sb srcs tail :
  owns h b (pre ++ mid ++ Raw :: post) F → F !! sb = Some (srcs ++ (Live <$> l) ++ tail) →
  (length mid < length l)%nat → Forall alive mid →
  copy_n h (Ptr sb (zlen srcs)) (length l) (Ptr b (zlen pre)) = Undef.
Proof.
  intros Ho Hsb Hlen Hmid. revert h pre mid srcs Ho Hsb Hlen Hmid.
  induction l as [| v l IH]; intros h pre mid srcs Ho Hsb Hlen Hmid; [simpl in Hlen; lia |].
  cbn [copy_n length fmap list_fmap app] in *. erewrite read_frame by done. cbn [obind].
  destruct mid as [| c mid].
  - cbn [app] in Ho. unfold assign_elem, on_elem.
    rewrite (proj2 (Z.leb_le _ _)), (load_owns _ _ _ _ Ho) by lia.
    cbn [obind]. unfold assign_at, at_cell. by rewrite Nat2Z.id, lookup_middle.
  - apply Forall_cons in Hmid as [Hc Hmid].
    destruct (returns_inv _ _ (assign_elem_returns _ _ _ _ _ v _ Ho (lookup_middle _ _ _) Hc))
      as (h' & -> & Ho').
    simpl in Ho'. rewrite insert_middle, cons_middle, (assoc_L (++)) in Ho'. cbn [obind].
    rewrite !(ptr_next _ _ (Live v)). rewrite cons_middle, (assoc_L (++)) in Hsb.
    apply (IH h' _ mid _ Ho' Hsb); [simpl in Hlen; lia | done].
Qed.

Lemma uninitialized_copy_n_returns h b pre post l F sb srcs tail :
  owns h b (pre ++ replicate (length l) Raw ++ post) F →
  F !! sb = Some (srcs ++ (Live <$> l) ++ tail) →
  returns (uninitialized_copy_n h (Ptr sb (zlen srcs)) (length l) (Ptr b (zlen pre)))
    (λ '(h', e), owns h' b (pre ++ (Live <$> l) ++ post) F ∧ e = Ptr b (zlen pre + zlen l)).
Proof.
  intros Ho Hsb. revert h pre srcs Ho Hsb. induction l as [| v l IH]; intros h pre srcs Ho Hsb.
  { simpl. split; [done | f_equal; lia]. }
  cbn [uninitialized_copy_n length fmap list_fmap app replicate] in *.
  erewrite read_frame by done. cbn [obind]. eapply returns_bind.
  - eapply construct_elem_returns; [exact Ho | apply lookup_middle].
  - intros h' Ho'. simpl in Ho'. rewrite insert_middle, cons_middle, (assoc_L (++)) in Ho'.
    rewrite !(ptr_next _ _ (Live v)). rewrite cons_middle, (assoc_L (++)) in Hsb.
    eapply returns_mono; [apply (IH h' _ _ Ho' Hsb) |].
    intros [h'' e] [Ho'' ->]. rewrite <-(assoc_L (++)) in Ho''. split; [done |].
    rewrite length_app. f_equal. simpl. lia.
Qed.

(** The new elements of [resize]. *)
Lemma construct_until_returns fuel h b pre n post F :
  owns h b (pre ++ replicate n Raw ++ post) F → (n < fuel)%nat →
  returns (construct_until fuel h (Ptr b (zlen pre)) (Ptr b (zlen pre + Z.of_nat n)))
    (λ '(h', e), owns h' b (pre ++ replicate n (Live dflt) ++ post) F ∧
      e = Ptr b (zlen pre + Z.of_nat n)).
Proof.
  revert h pre n. induction fuel as [| fuel IH]; intros h pre n Ho Hfuel; [lia |].
  cbn [construct_until ptr_eqb]. rewrite Nat.eqb_refl. cbn [andb].
  destruct n as [| n].
  { rewrite (proj2 (Z.eqb_eq _ _)) by lia. simpl. split; [done | f_equal; lia]. }
  rewrite (proj2 (Z.eqb_neq _ _)) by lia. cbn [replicate app] in *. eapply returns_bind.
  - eapply construct_elem_returns; [exact Ho | apply lookup_middle].
  - intros h' Ho'. simpl in Ho'. rewrite insert_middle, cons_middle, (assoc_L (++)) in Ho'.
    rewrite (ptr_next _ _ (Live dflt)).
    replace (zlen pre + Z.of_nat (S n)) with (zlen (pre ++ [Live dflt]) + Z.of_nat n)
      by (rewrite length_app; simpl; lia).
    eapply returns_mono; [apply (IH h' _ _ Ho'); lia |].
    intros [h'' e] [Ho'' ->]. by rewrite <-(assoc_L (++)) in Ho''.
Qed.

(** The dropped elements of [resize], from the last one down. *)
Lemma destroy_until_returns fuel h b pre mid post F :
  owns h b (pre ++ mid ++ post) F → Forall alive mid → (length mid < fuel)%nat →
  returns (destroy_until fuel h (Ptr b (zlen pre + zlen mid)) (Ptr b (zlen pre)))
    (λ '(h', e), owns h' b (pre ++ replicate (length mid) Raw ++ post) F ∧
      e = Ptr b (zlen pre)).
Proof.
  revert h mid post. induction fuel as [| fuel IH]; intros h mid post Ho Hmid Hfuel; [lia |].
  cbn [destroy_until ptr_eqb]. rewrite Nat.eqb_refl. cbn [andb].
  destruct (list_snoc_destruct mid) as [-> | (mid' & c & ->)].
  { rewrite (proj2 (Z.eqb_eq _ _)) by (simpl; lia). simpl. split; [done | f_equal; simpl; lia]. }
  rewrite length_app in *. simpl in Hfuel.
  rewrite (proj2 (Z.eqb_neq _ _)) by (simpl; lia). apply Forall_app in Hmid as [Hmid Hc].
  apply Forall_cons in Hc as [Hc _]. simpl ptr_add.
  replace (zlen pre + Z.of_nat (length mid' + 1) + -1) with (zlen (pre ++ mid'))
    by (rewrite length_app; lia).
  rewrite <-(assoc_L (++)), (assoc_L (++) pre) in Ho. simpl in Ho. eapply returns_bind.
  - eapply destroy_elem_returns; [exact Ho | apply lookup_middle | done].
  - intros h' Ho'. simpl in Ho'. rewrite insert_middle, <-(assoc_L (++)) in Ho'.
    rewrite length_app, Nat2Z.inj_add.
    eapply returns_mono; [apply (IH h' mid' (Raw :: post) Ho' Hmid); lia |].
    intros [h'' e] [Ho'' ->]. split; [| done].
    rewrite replicate_add, <-(assoc_L (++)). exact Ho''.
Qed.

Lemma relocate_returns h b n l1 l2 post post' F :
  b ≠ n → F !! b = None → F !! n = None →
  owns h n (replicate (length l1) Raw ++ (Live <$> l2) ++ post')
    (<[b := (Live <$> l1) ++ (left_behind <$> l2) ++ post]> F) →
  returns (relocate h (Ptr b 0) (Ptr n 0) (length l1))
    (λ h', owns h' n ((Live <$> l1 ++ l2) ++ post')
      (<[b := (left_behind <$> l1 ++ l2) ++ post]> F)).
Proof.
  intros Hne Hb Hn. revert h l2. induction l1 as [| x l1 IH] using rev_ind; intros h l2 Ho.
  { done. }
  rewrite length_app, Nat.add_1_r in *. cbn [relocate ptr_add]. rewrite Z.add_0_l.
  rewrite replicate_S_end, fmap_app, <-!(assoc_L (++)) in Ho. simpl in Ho.
  apply owns_swap in Ho; [| done | done]. eapply returns_bind.
  - eapply move_if_noexcept_returns; [exact Ho |].
    apply lookup_middle_at. by rewrite length_fmap.
  - intros [y h1] [-> Ho1]. rewrite insert_middle_at in Ho1 by (by rewrite length_fmap).
    apply owns_swap in Ho1; [| done | done]. eapply returns_bind.
    + eapply construct_elem_returns; [exact Ho1 |].
      apply lookup_middle_at. by rewrite length_replicate.
    + intros h2 Ho2. rewrite insert_middle_at in Ho2 by (by rewrite length_replicate).
      rewrite <-(assoc_L (++)). by apply (IH h2 (x :: l2)).
Qed.

(** ** Vectors *)

Definition buffer l (cap : Z) : cells :=
  (Live <$> l) ++ replicate (Z.to_nat cap - length l) Raw.

(** [v] holds the elements [l] in room for [cap]; [F] is the rest of the heap. *)
Inductive is_vec (h : mem) (v : vec) l (cap : Z) F : Prop :=
| is_vec_null : v = Vector → l = [] → cap = 0 → frame h F → is_vec h v l cap F
| is_vec_block b : v = MkVector (Ptr b 0) (Ptr b (zlen l)) (Ptr b cap) →
    0 < cap < 2 ^ 64 → zlen l ≤ cap → owns h b (buffer l cap) F → is_vec h v l cap F.

(** A block of [n] elements can be had. *)
Definition fits (n : Z) : Prop :=
  0 < n < 2 ^ 64 ∧ TSize * n < 2 ^ 64 ∧ available (TSize * n) = true.

Hypothesis HT : 0 < TSize.

Lemma _allocate_returns h (n : Z) F :
  frame h F → fits n →
  returns (_allocate h n) (λ '(p, h'), ∃ b, p = Ptr b 0 ∧
    owns h' b (replicate (Z.to_nat n) Raw) F).
Proof using HT.
  intros Hf (Hn & Hbytes & Hav). unfold _allocate.
  rewrite (proj2 (Z.eqb_neq _ _)) by lia. cbn [negb].
  rewrite (u64_small (TSize * n)) by (unfold in_u64; nia). rewrite Hav.
  pose proof (alloc_owns h (replicate (Z.to_nat (TSize * n / TSize)) Raw) F Hf) as Ho.
  destruct (alloc h _) as [b h']. simpl in *. exists b. split; [done |].
  by rewrite Z.mul_comm, Z.div_mul in Ho by lia.
Qed.

Lemma is_vec_size h v l cap F : is_vec h v l cap F → size v = Ret (zlen l).
Proof.
  intros [-> -> _ _ | b -> Hc Hl _]; [done |]. unfold size. simpl. rewrite Nat.eqb_refl. simpl.
  rewrite Z.sub_0_r, u64_small; [done |]. unfold in_u64. lia.
Qed.

Lemma is_vec_capacity h v l cap F : is_vec h v l cap F → capacity v = Ret cap.
Proof.
  intros [-> _ -> _ | b -> Hc Hl _]; [done |]. unfold capacity. simpl. rewrite Nat.eqb_refl. simpl.
  rewrite Z.sub_0_r, u64_small; [done |]. unfold in_u64. lia.
Qed.

Lemma is_vec_bound h v l cap F : is_vec h v l cap F → 0 ≤ zlen l ≤ cap ∧ cap < 2 ^ 64.
Proof. intros [_ -> -> _ | b _ ? ? _]; simpl; lia. Qed.

Lemma is_vec_empty h v l cap F : is_vec h v l cap F → empty v = bool_decide (l = []).
Proof.
  intros [-> -> _ _ | b -> Hc Hl _]; unfold empty; simpl; [done |]. rewrite Nat.eqb_refl. simpl.
  by destruct l.
Qed.

Lemma alive_live l : Forall alive (Live <$> l).
Proof. apply Forall_fmap, Forall_true. done. Qed.

Lemma alive_left_behind l : Forall alive (left_behind <$> l).
Proof. apply Forall_fmap, Forall_true. intros v. unfold compose, left_behind. by destruct nothrow_move. Qed.

Lemma delete_block_raw h b n F :
  owns h b (replicate n Raw) F → ∃ h', delete_block h (Ptr b 0) = Ret h' ∧ frame h' F.
Proof.
  intros Ho. destruct (free_owns _ _ _ _ Ho) as (h' & Hfree & Hf). exists h'. split; [| done].
  cbn [delete_block]. change (0 =? 0) with true. cbn iota. rewrite (load_owns _ _ _ _ Ho). cbn [obind].
  assert (forallb is_raw (replicate n Raw) = true) as -> by (clear; by induction n). exact Hfree.
Qed.

(** Relocation to a new block keeps every element, in order, and frees the old block. *)
Lemma _grow_capacity_returns h v l cap new_cap F b :
  is_vec h v l cap F → m_begin v = Ptr b 0 → zlen l ≤ new_cap → fits new_cap →
  returns (_grow_capacity h v new_cap)
    (λ '(h', v'), is_vec h' v' l new_cap F ∧ ∃ n, m_begin v' = Ptr n 0 ∧ n ≠ b ∧ F !! b = None).
Proof using HT.
  intros Hv Hb Hl Hfits. unfold _grow_capacity. rewrite (is_vec_size _ _ _ _ _ Hv).
  destruct Hv as [-> _ _ _ | b' -> Hc Hlc Ho]; [done |]. simpl in Hb. injection Hb as ->.
  eapply returns_bind; [eapply _allocate_returns; [by eapply owns_frame | done] |].
  intros [p h1] (n & -> & Ho1). cbn [obind m_begin]. rewrite Nat2Z.id.
  destruct Ho as (_ & HFb & _). pose proof (proj1 (proj2 Ho1)) as Hn.
  destruct (decide (b = n)) as [-> | Hne]; [by rewrite lookup_insert_eq in Hn |].
  rewrite lookup_insert_ne in Hn by done.
  replace (replicate (Z.to_nat new_cap) Raw) with
    (replicate (length l) (@Raw V) ++ (Live <$> []) ++ replicate (Z.to_nat new_cap - length l) Raw)
    in Ho1 by (simpl; rewrite <-replicate_add; f_equal; lia).
  eapply returns_bind.
  { apply (relocate_returns h1 b n l [] (replicate (Z.to_nat cap - length l) Raw)
      (replicate (Z.to_nat new_cap - length l) Raw) F); done. }
  intros h2 Ho2. rewrite app_nil_r in Ho2. apply owns_swap in Ho2; [| done | done].
  eapply returns_bind.
  { rewrite <-(length_fmap left_behind l).
    apply (destroy_n_returns h2 b [] _ _ _ Ho2), alive_left_behind. }
  intros h3 Ho3. cbn [app] in Ho3. rewrite <-replicate_add in Ho3.
  apply delete_block_raw in Ho3 as (h4 & -> & Hf4). cbn [obind returns]. split; [| by exists n].
  apply (is_vec_block _ _ _ _ _ n); [simpl; by rewrite !Z.add_0_l | destruct Hfits; lia | done |].
  apply frame_owns; [done | exact Hf4].
Qed.

Lemma _allocate_from_nullptr_returns h (n : Z) F :
  frame h F → fits n →
  returns (_allocate_from_nullptr h Vector n) (λ '(h', v'), is_vec h' v' [] n F ∧ ∃ b, m_begin v' = Ptr b 0).
Proof using HT.
  intros Hf Hfits. unfold _allocate_from_nullptr. simpl.
  eapply returns_bind; [by eapply _allocate_returns |]. intros [p h1] (b & -> & Ho).
  split; [| by exists b]. apply (is_vec_block _ _ _ _ _ b).
  - simpl. by rewrite Z.add_0_l.
  - by destruct Hfits.
  - destruct Hfits; simpl; lia.
  - unfold buffer. simpl. by rewrite Nat.sub_0_r.
Qed.

(** The block of a non-empty vector, its free room split off. *)
Lemma is_vec_inv h v l cap F b :
  is_vec h v l cap F → m_begin v = Ptr b 0 →
  v = MkVector (Ptr b 0) (Ptr b (zlen l)) (Ptr b cap) ∧ 0 < cap < 2 ^ 64 ∧ zlen l ≤ cap ∧
  owns h b (buffer l cap) F.
Proof.
  intros [-> _ _ _ | b' -> Hc Hl Ho]; [done |]. simpl. intros [= ->]. done.
Qed.

Lemma is_vec_begin h v l cap F :
  is_vec h v l cap F → (v = Vector ∧ l = [] ∧ cap = 0 ∧ frame h F) ∨ ∃ b, m_begin v = Ptr b 0.
Proof. intros [-> -> -> ? | b -> ? ? ?]; [by left | right; by exists b]. Qed.

Lemma buffer_snoc l x cap :
  buffer (l ++ [x]) cap = (Live <$> l) ++ Live x :: replicate (Z.to_nat cap - length l - 1) Raw.
Proof.
  unfold buffer. rewrite fmap_app, <-(assoc_L (++)), length_app. simpl. do 3 f_equal. lia.
Qed.

Lemma buffer_room l cap :
  zlen l < cap →
  buffer l cap = (Live <$> l) ++ Raw :: replicate (Z.to_nat cap - length l - 1) Raw.
Proof.
  intros Hl. unfold buffer. f_equal. rewrite <-(replicate_S _ (@Raw V)). f_equal. lia.
Qed.

(** *** Adding an element *)

Definition grown (cap : Z) : Z := if cap =? 0 then 1 else cap * ExpansionMult.

(** The capacity after one more element. *)
Definition next_cap l (cap : Z) : Z := if zlen l =? cap then grown cap else cap.

Definition room (h : mem) (v : vec) : outcome (mem * vec) :=
  match m_begin v with
  | Null => _allocate_from_nullptr h v 1
  | _ =>
      if ptr_eqb (m_end v) (m_cap v)
      then let! c := capacity v in _grow_capacity h v (c *u64 ExpansionMult)
      else Ret (h, v)
  end.

Lemma room_returns h v l cap F :
  is_vec h v l cap F → (zlen l = cap → fits (grown cap)) →
  returns (room h v) (λ '(h', v'), is_vec h' v' l (next_cap l cap) F ∧ ∃ b, m_begin v' = Ptr b 0).
Proof using HT.
  intros Hv Hfits. unfold room, next_cap.
  destruct (is_vec_begin _ _ _ _ _ Hv) as [(-> & -> & -> & Hf) | [b Hb]].
  { simpl. apply _allocate_from_nullptr_returns; [done | by apply Hfits]. }
  pose proof (is_vec_inv _ _ _ _ _ _ Hv Hb) as (-> & Hc & Hl & Ho). cbn [m_begin m_end m_cap ptr_eqb].
  rewrite Nat.eqb_refl. cbn [andb]. destruct (Z.eqb_spec (zlen l) cap) as [Heq | Hne].
  - rewrite (is_vec_capacity _ _ _ _ _ Hv). cbn [obind]. specialize (Hfits Heq).
    unfold grown, ExpansionMult in *. rewrite (proj2 (Z.eqb_neq cap 0)) in * by lia.
    rewrite u64_small by (unfold in_u64; destruct Hfits; lia).
    eapply returns_mono; [eapply _grow_capacity_returns; [exact Hv | done | lia | done] |].
    intros [h' v'] (Hv' & n & Hn & _). split; [done | by exists n].
  - simpl. split; [done | by exists b].
Qed.

(** Constructing one element past the end of a vector with room. *)
Lemma append_returns h b l x cap F :
  owns h b (buffer l cap) F → 0 < cap < 2 ^ 64 → zlen l < cap →
  returns (construct_elem h (Ptr b (zlen l)) x)
    (λ h', is_vec h' (MkVector (Ptr b 0) (Ptr b (zlen l + 1)) (Ptr b cap)) (l ++ [x]) cap F).
Proof.
  intros Ho Hc Hl. rewrite buffer_room in Ho by done. eapply returns_mono.
  - eapply construct_elem_returns; [exact Ho |]. apply lookup_middle_at. by rewrite length_fmap.
  - intros h' Ho'. cbn beta in Ho'. rewrite insert_middle_at in Ho' by (by rewrite length_fmap).
    apply (is_vec_block _ _ _ _ _ b); [| done | rewrite length_app; simpl; lia |].
    + do 2 f_equal. rewrite length_app. simpl. lia.
    + by rewrite buffer_snoc.
Qed.

Lemma emplace_back_returns h v l cap F s x :
  is_vec h v l cap F → (zlen l = cap → fits (grown cap)) →
  (∀ h' v', is_vec h' v' l (next_cap l cap) F → (zlen l < cap → h' = h) → from_source h' s = Ret x) →
  returns (emplace_back h v s) (λ '(h', v', p), is_vec h' v' (l ++ [x]) (next_cap l cap) F ∧
    read_elem h' p = Ret x).
Proof using HT.
  intros Hv Hfits Hs. unfold emplace_back. fold (room h v).
  pose proof (room_returns _ _ _ _ _ Hv Hfits) as Hroom.
  assert (zlen l < next_cap l cap) as Hlt.
  { pose proof (is_vec_bound _ _ _ _ _ Hv). unfold next_cap, grown, ExpansionMult.
    destruct (Z.eqb_spec (zlen l) cap), (Z.eqb_spec cap 0); lia. }
  apply returns_inv in Hroom as ([h1 v1] & Hroom & Hv1 & b & Hb). rewrite Hroom. cbn [obind].
  assert (zlen l < cap → h1 = h) as Hsame.
  { intros Hl. unfold room in Hroom.
    destruct (is_vec_begin _ _ _ _ _ Hv) as [(-> & -> & -> & Hf) | [b0 Hb0]]; [simpl in Hl; lia |].
    pose proof (is_vec_inv _ _ _ _ _ _ Hv Hb0) as (-> & _). cbn [m_begin m_end m_cap ptr_eqb] in Hroom.
    rewrite Nat.eqb_refl, (proj2 (Z.eqb_neq _ _)) in Hroom by lia. by injection Hroom. }
  rewrite (Hs h1 v1 Hv1 Hsame). cbn [obind].
  pose proof (is_vec_inv _ _ _ _ _ _ Hv1 Hb) as (-> & Hc & Hl & Ho). cbn [m_begin m_end m_cap ptr_add].
  eapply returns_bind; [by eapply append_returns |]. intros h2 Hv2. split; [done |].
  pose proof (is_vec_inv _ _ _ _ _ b Hv2 eq_refl) as (_ & _ & _ & Ho2).
  eapply read_elem_live; [exact Ho2 |]. rewrite buffer_snoc. apply lookup_middle_at.
  by rewrite length_fmap.
Qed.

Lemma push_back_returns h v l cap F x :
  is_vec h v l cap F → (zlen l = cap → fits (grown cap)) →
  returns (push_back h v (Value x)) (λ '(h', v'), is_vec h' v' (l ++ [x]) (next_cap l cap) F).
Proof using HT.
  intros Hv Hfits. unfold push_back. eapply returns_bind.
  - by eapply emplace_back_returns with (x := x).
  - intros [[h' v'] p] [? _]. done.
Qed.

(** *** Removing elements *)

Lemma pop_back_returns h v l x cap F :
  is_vec h v (l ++ [x]) cap F →
  returns (pop_back h v) (λ '(h', v'), is_vec h' v' l cap F).
Proof.
  intros Hv. unfold pop_back. rewrite (is_vec_empty _ _ _ _ _ Hv).
  rewrite bool_decide_eq_false_2 by (by destruct l). cbn [negb].
  destruct (is_vec_begin _ _ _ _ _ Hv) as [(_ & Hl & _) | [b Hb]]; [by destruct l |].
  pose proof (is_vec_inv _ _ _ _ _ _ Hv Hb) as (-> & Hc & Hl & Ho). cbn [m_begin m_end m_cap ptr_add].
  rewrite length_app in *. simpl length in *.
  replace (Z.of_nat (length l + 1) + -1) with (zlen l) by lia. rewrite buffer_snoc in Ho.
  eapply returns_bind.
  - eapply destroy_elem_returns; [exact Ho | apply lookup_middle_at; by rewrite length_fmap | done].
  - intros h' Ho'. cbn beta in Ho'. rewrite insert_middle_at in Ho' by (by rewrite length_fmap).
    apply (is_vec_block _ _ _ _ _ b); [done | done | lia |]. by rewrite buffer_room by lia.
Qed.

Lemma destroy_buffer h b l cap F :
  owns h b (buffer l cap) F → zlen l ≤ cap →
  returns (destroy_n h (Ptr b 0) (length l)) (λ h', owns h' b (buffer [] cap) F).
Proof.
  intros Ho Hl. rewrite <-(length_fmap Live l). eapply returns_mono.
  - apply (destroy_n_returns h b [] _ _ _ Ho), alive_live.
  - intros h' Ho'. unfold buffer. simpl in *. rewrite length_fmap, <-replicate_add in Ho'.
    by replace (length l + (Z.to_nat cap - length l))%nat with (Z.to_nat cap - 0)%nat in Ho' by lia.
Qed.

Lemma _destroy_all_returns h v l cap F :
  is_vec h v l cap F → returns (_destroy_all h v) (λ '(h', v'), is_vec h' v' [] cap F).
Proof.
  intros Hv. unfold _destroy_all. rewrite (is_vec_size _ _ _ _ _ Hv).
  destruct (is_vec_begin _ _ _ _ _ Hv) as [(-> & -> & -> & Hf) | [b Hb]].
  { simpl. by apply is_vec_null. }
  pose proof (is_vec_inv _ _ _ _ _ _ Hv Hb) as (-> & Hc & Hl & Ho). cbn [m_begin m_end m_cap obind].
  rewrite Nat2Z.id. eapply returns_bind; [by eapply destroy_buffer |].
  intros h' Ho'. apply (is_vec_block _ _ _ _ _ b); [done | done | simpl; lia | done].
Qed.

Lemma _destroy_and_free_returns h v l cap F :
  is_vec h v l cap F → returns (_destroy_and_free h v) (λ '(h', v'), frame h' F ∧ v' = Vector).
Proof.
  intros Hv. unfold _destroy_and_free, _free. eapply returns_bind; [by eapply _destroy_all_returns |].
  intros [h1 v1] [-> _ _ Hf | b -> _ _ Ho]; [done |]. unfold buffer in Ho. cbn [app fmap list_fmap m_begin] in *.
  by destruct (delete_block_raw _ _ _ _ Ho) as (h2 & -> & Hf).
Qed.

(** *** Capacity and size *)

Lemma reserve_returns h v l cap F new_cap :
  is_vec h v l cap F → (cap < new_cap ∨ cap = 0 → fits new_cap) →
  returns (reserve h v new_cap) (λ '(h', v'), is_vec h' v' l (Z.max cap new_cap) F).
Proof using HT.
  intros Hv Hfits. unfold reserve.
  destruct (is_vec_begin _ _ _ _ _ Hv) as [(-> & -> & -> & Hf) | [b Hb]].
  { simpl. specialize (Hfits (or_intror eq_refl)). eapply returns_mono.
    - by eapply _allocate_from_nullptr_returns.
    - intros [h' v'] [? _]. rewrite Z.max_r by (destruct Hfits; lia). done. }
  rewrite Hb, (is_vec_capacity _ _ _ _ _ Hv). cbn [obind]. destruct (Z.leb_spec new_cap cap).
  - simpl. by rewrite Z.max_l.
  - rewrite Z.max_r by lia. pose proof (is_vec_bound _ _ _ _ _ Hv).
    eapply returns_mono; [eapply _grow_capacity_returns; [exact Hv | exact Hb | lia | apply Hfits; lia] |].
    intros [h' v'] [? _]. done.
Qed.

(** [resize] inside the capacity, or of a vector that has no buffer yet. *)
Definition resized l (new_size : Z) : list V :=
  take (Z.to_nat new_size) l ++ replicate (Z.to_nat new_size - length l) dflt.

Lemma construct_tail h b l cap new_size F :
  owns h b (buffer l cap) F → 0 < cap < 2 ^ 64 → zlen l ≤ new_size ≤ cap →
  returns (construct_until (S (Z.to_nat new_size)) h (Ptr b (zlen l)) (Ptr b new_size))
    (λ '(h', e), is_vec h' (MkVector (Ptr b 0) e (Ptr b cap)) (resized l new_size) cap F).
Proof.
  intros Ho Hc Hn. set (n := (Z.to_nat new_size - length l)%nat).
  replace (buffer l cap) with
    ((Live <$> l) ++ replicate n (@Raw V) ++ replicate (Z.to_nat cap - Z.to_nat new_size) Raw) in Ho.
  2: { unfold buffer. rewrite <-replicate_add. do 2 f_equal. lia. }
  replace (Ptr b new_size) with (Ptr b (zlen l + Z.of_nat n)) by (f_equal; lia).
  rewrite <-(length_fmap Live l). eapply returns_mono.
  - eapply construct_until_returns; [exact Ho | lia].
  - intros [h' e] [Ho' ->]. rewrite length_fmap.
    assert (length (resized l new_size) = Z.to_nat new_size) as Hlen.
    { unfold resized. rewrite length_app, length_take, length_replicate. lia. }
    apply (is_vec_block _ _ _ _ _ b); [| done | lia |].
    + do 2 f_equal. lia.
    + unfold buffer. rewrite Hlen. unfold resized.
      rewrite take_ge, fmap_app, fmap_replicate, <-(assoc_L (++)) by lia. exact Ho'.
Qed.

Lemma resize_returns h v l cap F new_size :
  is_vec h v l cap F → 0 ≤ new_size → (if cap =? 0 then fits new_size else new_size ≤ cap) →
  returns (resize h v new_size)
    (λ '(h', v'), is_vec h' v' (resized l new_size) (Z.max cap new_size) F).
Proof using HT.
  intros Hv Hpos Hroom. unfold resize.
  destruct (is_vec_begin _ _ _ _ _ Hv) as [(-> & -> & -> & Hf) | [b Hb]].
  { simpl in Hroom |- *. eapply returns_bind; [by eapply _allocate_from_nullptr_returns |].
    intros [h1 v1] [Hv1 [b Hb]].
    pose proof (is_vec_inv _ _ _ _ _ _ Hv1 Hb) as (-> & Hc & _ & Ho). cbn [m_begin m_end m_cap].
    eapply returns_bind; [apply (construct_tail _ _ [] new_size); [done | done | simpl; lia] |].
    intros [h2 e] Hv2. simpl. by rewrite Z.max_r by lia. }
  pose proof (is_vec_inv _ _ _ _ _ _ Hv Hb) as (-> & Hc & Hl & Ho).
  rewrite (is_vec_size _ _ _ _ _ Hv). cbn [m_begin m_end m_cap obind ptr_add]. rewrite Z.add_0_l.
  rewrite (proj2 (Z.eqb_neq cap 0)) in Hroom by lia. rewrite Z.max_l by lia.
  destruct (Z.leb_spec new_size (zlen l)) as [Hle | Hgt].
  - assert (length (take (Z.to_nat new_size) l) = Z.to_nat new_size) as Hlen
      by (rewrite length_take; lia).
    assert (zlen (Live <$> take (Z.to_nat new_size) l) = new_size) as Hz
      by (rewrite length_fmap; lia).
    unfold buffer in Ho. rewrite <-(take_drop (Z.to_nat new_size) l) in Ho at 1.
    rewrite fmap_app, <-(assoc_L (++)) in Ho.
    eapply returns_bind.
    + replace (Ptr b (zlen l)) with (Ptr b (new_size + zlen (Live <$> drop (Z.to_nat new_size) l)))
        by (f_equal; rewrite length_fmap, length_drop; lia).
      rewrite <-Hz at 1 3.
      eapply destroy_until_returns; [exact Ho | apply alive_live |].
      rewrite length_fmap, length_drop. lia.
    + intros [h' e] [Ho' ->]. rewrite Hz. unfold resized.
      replace (Z.to_nat new_size - length l)%nat with 0%nat by lia. simpl. rewrite app_nil_r.
      apply (is_vec_block _ _ _ _ _ b); [| done | lia |]; rewrite ?Hlen.
      * do 2 f_equal. lia.
      * unfold buffer. rewrite Hlen. rewrite <-replicate_add, length_fmap, length_drop in Ho'.
        by replace (length l - Z.to_nat new_size + (Z.to_nat cap - length l))%nat
          with (Z.to_nat cap - Z.to_nat new_size)%nat in Ho' by lia.
  - rewrite (is_vec_capacity _ _ _ _ _ Hv). cbn [obind]. rewrite (proj2 (Z.ltb_ge _ _)) by lia.
    cbn [obind m_end m_begin m_cap]. eapply returns_bind; [eapply construct_tail; [done | done | lia] |].
    intros [h2 e] Hv2. done.
Qed.
(** *** Stepping outside the contract *)

(** The default-construction loop started in block [n] never meets an end
    pointer into another block: it leaves [n]. *)
Lemma construct_until_escapes fuel h n b o pre k F :
  owns h n (pre ++ replicate k Raw) F → n ≠ b → (k < fuel)%nat →
  construct_until fuel h (Ptr n (zlen pre)) (Ptr b o) = Undef.
Proof.
  revert h pre k. induction fuel as [| fuel IH]; intros h pre k Ho Hne Hfuel; [lia |].
  cbn [construct_until ptr_eqb]. rewrite (proj2 (Nat.eqb_neq _ _)) by done. cbn [andb].
  destruct k as [| k].
  - unfold construct_elem, on_elem. rewrite (proj2 (Z.leb_le _ _)), (load_owns _ _ _ _ Ho) by lia.
    cbn [obind]. unfold construct_at, at_cell. rewrite Nat2Z.id, lookup_ge_None_2; [done |].
    rewrite app_nil_r. lia.
  - assert (returns (construct_elem h (Ptr n (zlen pre)) dflt)
      (λ h', owns h' n ((pre ++ [Live dflt]) ++ replicate k Raw) F)) as Hc.
    { cbn [replicate] in Ho. eapply returns_mono.
      - eapply construct_elem_returns; [exact Ho | by apply lookup_middle_at].
      - intros h' Ho'. cbn beta in Ho'. rewrite insert_middle in Ho'. by rewrite <-(assoc_L (++)). }
    apply returns_inv in Hc as (h' & -> & Ho'). cbn [obind]. rewrite (ptr_next _ _ (Live dflt)).
    apply (IH _ _ _ Ho'); [done | lia].
Qed.

Lemma resize_beyond_capacity h v l cap F new_size :
  is_vec h v l cap F → 0 < cap < new_size → fits new_size → resize h v new_size = Undef.
Proof using HT.
  intros Hv Hcap Hfits. pose proof (is_vec_bound _ _ _ _ _ Hv) as [Hl _].
  destruct (is_vec_begin _ _ _ _ _ Hv) as [(_ & _ & ? & _) | [b Hb]]; [lia |].
  unfold resize. rewrite Hb, (is_vec_size _ _ _ _ _ Hv), (is_vec_capacity _ _ _ _ _ Hv).
  cbn [obind ptr_add]. rewrite (proj2 (Z.leb_gt _ _)), (proj2 (Z.ltb_lt _ _)) by lia.
  assert (zlen l ≤ new_size) as Hle by lia.
  destruct (returns_inv _ _ (_grow_capacity_returns _ _ _ _ _ _ _ Hv Hb Hle Hfits))
    as ([h1 v1] & -> & Hv1 & n & Hn & Hne & _).
  pose proof (is_vec_inv _ _ _ _ _ _ Hv1 Hn) as (-> & Hc & _ & Ho). cbn [obind m_end].
  rewrite <-(length_fmap Live l). erewrite construct_until_escapes; [done | exact Ho | done | lia].
Qed.

(** A reference into the vector's own buffer dangles once the buffer grows. *)
Lemma emplace_back_dangles h v l cap F b (i : Z) :
  is_vec h v l cap F → m_begin v = Ptr b 0 → zlen l = cap → fits (grown cap) →
  emplace_back h v (Elem (Ptr b i)) = Undef.
Proof using HT.
  intros Hv Hb Hfull Hfits.
  pose proof (is_vec_inv _ _ _ _ _ _ Hv Hb) as (Heq & Hc & _ & _).
  unfold emplace_back. rewrite Hb. rewrite Heq at 1. rewrite Heq at 1. cbn [m_end m_cap ptr_eqb].
  rewrite Nat.eqb_refl, Hfull, Z.eqb_refl, (is_vec_capacity _ _ _ _ _ Hv). cbn [andb obind].
  unfold grown, ExpansionMult in *. rewrite (proj2 (Z.eqb_neq cap 0)) in Hfits by lia.
  rewrite u64_small by (unfold in_u64; destruct Hfits; lia).
  assert (zlen l ≤ cap * 2) as Hle by lia.
  destruct (returns_inv _ _ (_grow_capacity_returns _ _ _ _ _ _ _ Hv Hb Hle Hfits))
    as ([h1 v1] & -> & Hv1 & n & Hn & Hne & HF).
  pose proof (is_vec_inv _ _ _ _ _ _ Hv1 Hn) as (-> & _ & _ & _ & _ & Hbl).
  cbn [obind from_source]. unfold read_elem, load. rewrite Hbl, lookup_insert_ne, HF by done.
  by destruct (0 <=? i).
Qed.
(** *** Copies *)

(** [v] is a vector of [l] somewhere in the heap part [F]. *)
Definition vec_in F (v : vec) l (cap : Z) : Prop :=
  ∃ b, v = MkVector (Ptr b 0) (Ptr b (zlen l)) (Ptr b cap) ∧ 0 < cap < 2 ^ 64 ∧ zlen l ≤ cap ∧
    F !! b = Some (buffer l cap).

Lemma vec_in_size F v l cap : vec_in F v l cap → size v = Ret (zlen l).
Proof.
  intros (b & -> & Hc & Hl & _). unfold size. simpl. rewrite Nat.eqb_refl. simpl.
  rewrite Z.sub_0_r, u64_small; [done |]. unfold in_u64. lia.
Qed.

Lemma vec_in_capacity F v l cap : vec_in F v l cap → capacity v = Ret cap.
Proof.
  intros (b & -> & Hc & Hl & _). unfold capacity. simpl. rewrite Nat.eqb_refl. simpl.
  rewrite Z.sub_0_r, u64_small; [done |]. unfold in_u64. lia.
Qed.

Lemma Vector_copy_returns h other l cap F :
  frame h F → vec_in F other l cap → fits cap →
  returns (Vector_copy h other) (λ '(h', v'), is_vec h' v' l cap F).
Proof using HT.
  intros Hf Hin Hfits. unfold Vector_copy.
  rewrite (vec_in_capacity _ _ _ _ Hin), (vec_in_size _ _ _ _ Hin). cbn [obind].
  eapply returns_bind; [by eapply _allocate_from_nullptr_returns |]. intros [h1 v1] [Hv1 [b Hb]].
  pose proof (is_vec_inv _ _ _ _ _ _ Hv1 Hb) as (-> & Hc & _ & Ho). cbn [m_begin m_cap].
  destruct Hin as (sb & -> & _ & Hl & Hsb). cbn [m_begin]. rewrite Nat2Z.id.
  eapply returns_bind.
  - apply (uninitialized_copy_n_returns h1 b [] (replicate (Z.to_nat cap - length l) Raw) l F sb []
      (replicate (Z.to_nat cap - length l) Raw)); [| exact Hsb].
    simpl. rewrite <-replicate_add. unfold buffer in Ho. simpl in Ho.
    by replace (length l + (Z.to_nat cap - length l))%nat with (Z.to_nat cap - 0)%nat by lia.
  - intros [h2 e] [Ho2 ->]. apply (is_vec_block _ _ _ _ _ b); [done | done | done | exact Ho2].
Qed.

(** Assigning as many elements as are alive overwrites them in place. *)
Lemma copy_assign_same h v l cap other lo capo F :
  is_vec h v l cap F → vec_in F other lo capo → length l = length lo → l ≠ [] →
  returns (copy_assign h v (Some other)) (λ '(h', v'), is_vec h' v' lo cap F).
Proof.
  intros Hv Hin Hlen Hne. unfold copy_assign. cbn [from_option].
  change (id other) with other. rewrite (vec_in_size _ _ _ _ Hin). cbn [obind].
  destruct (is_vec_begin _ _ _ _ _ Hv) as [(_ & ? & _) | [b Hb]]; [done |].
  pose proof (is_vec_inv _ _ _ _ _ _ Hv Hb) as (-> & Hc & Hl & Ho).
  unfold reserve. cbn [m_begin]. rewrite (is_vec_capacity _ _ _ _ _ Hv). cbn [obind].
  rewrite (proj2 (Z.leb_le _ _)) by lia. cbn [obind m_begin m_cap].
  destruct Hin as (sb & -> & _ & Hlo & Hsb). cbn [m_begin]. rewrite Nat2Z.id.
  eapply returns_bind.
  - apply (copy_n_returns h b [] (Live <$> l) (replicate (Z.to_nat cap - length l) Raw) lo F sb []
      (replicate (Z.to_nat capo - length lo) Raw)); [exact Ho | exact Hsb | | apply alive_live].
    by rewrite length_fmap.
  - intros [h2 e] [Ho2 ->]. apply (is_vec_block _ _ _ _ _ b); [done | done | lia |].
    unfold buffer. by rewrite <-Hlen.
Qed.

(** A longer source assigns to elements that were never constructed. *)
Lemma copy_assign_longer h v l cap other lo capo F :
  is_vec h v l cap F → vec_in F other lo capo → zlen l < zlen lo ≤ cap →
  copy_assign h v (Some other) = Undef.
Proof.
  intros Hv Hin Hlen. unfold copy_assign. cbn [from_option].
  change (id other) with other. rewrite (vec_in_size _ _ _ _ Hin). cbn [obind].
  destruct (is_vec_begin _ _ _ _ _ Hv) as [(_ & _ & ? & _) | [b Hb]]; [lia |].
  pose proof (is_vec_inv _ _ _ _ _ _ Hv Hb) as (-> & Hc & Hl & Ho).
  unfold reserve. cbn [m_begin]. rewrite (is_vec_capacity _ _ _ _ _ Hv). cbn [obind].
  rewrite (proj2 (Z.leb_le _ _)) by lia. cbn [obind m_begin m_cap].
  destruct Hin as (sb & -> & _ & Hlo & Hsb). cbn [m_begin]. rewrite Nat2Z.id.
  rewrite buffer_room in Ho by lia.
  pose proof (copy_n_overrun h b [] (Live <$> l) _ lo F sb [] _ Ho Hsb) as Hov.
  change (zlen (@nil (cell V))) with 0 in Hov.
  rewrite Hov; [done | rewrite length_fmap; lia | apply alive_live].
Qed.

(** *** Sessions

    A sequence of calls on one vector, against a list and its capacity.  The
    specification is partial: [None] is a call outside the contract. *)

Inductive command : Type :=
| PushBack (x : V) | PopBack | Clear | Reserve (n : Z) | Resize (n : Z) | At (i : Z) | ForEach.

Inductive reply : Type := Done | Got (x : V) | OutOfRange | All (l : list V).

Definition perform (h : mem) (v : vec) (c : command) : outcome (mem * vec * reply) :=
  match c with
  | PushBack x => let! (h, v) := push_back h v (Value x) in Ret (h, v, Done)
  | PopBack => let! (h, v) := pop_back h v in Ret (h, v, Done)
  | Clear => let! (h, v) := clear h v in Ret (h, v, Done)
  | Reserve n => let! (h, v) := reserve h v n in Ret (h, v, Done)
  | Resize n => let! (h, v) := resize h v n in Ret (h, v, Done)
  | At i =>
      match at_ v i with
      | Ret p => let! x := read_elem h p in Ret (h, v, Got x)
      | Throw _ => Ret (h, v, OutOfRange)
      | Abort => Abort | Undef => Undef | OutOfFuel => OutOfFuel
      end
  | ForEach =>
      let! (sz : Z) := size v in
      let! l := range_for (Z.to_nat sz) h (begin v) (end_ v) in Ret (h, v, All l)
  end.

Fixpoint session (h : mem) (v : vec) (cs : list command) : outcome (mem * vec * list reply) :=
  match cs with
  | [] => Ret (h, v, [])
  | c :: cs =>
      let! (h, v, r) := perform h v c in
      let! (h, v, rs) := session h v cs in Ret (h, v, r :: rs)
  end.

(** The largest capacity a session may reach. *)
Context (limit : Z).

Definition spec_perform l (cap : Z) (c : command) : option (list V * Z * reply) :=
  match c with
  | PushBack x => if next_cap l cap <=? limit then Some (l ++ [x], next_cap l cap, Done) else None
  | PopBack => match l with [] => None | _ => Some (take (length l - 1) l, cap, Done) end
  | Clear => Some ([], cap, Done)
  | Reserve n =>
      if (0 <? n) && (n <=? limit) then Some (l, Z.max cap n, Done) else None
  | Resize n =>
      if (if cap =? 0 then (0 <? n) && (n <=? limit) else (0 <=? n) && (n <=? cap))
      then Some (resized l n, Z.max cap n, Done) else None
  | At i =>
      if 0 <=? i
      then Some (l, cap, match l !! Z.to_nat i with Some x => Got x | None => OutOfRange end)
      else None
  | ForEach => Some (l, cap, All l)
  end.

Fixpoint spec_session l (cap : Z) (cs : list command) : option (list V * Z * list reply) :=
  match cs with
  | [] => Some (l, cap, [])
  | c :: cs =>
      '(l, cap, r) ← spec_perform l cap c;
      '(l, cap, rs) ← spec_session l cap cs; Some (l, cap, r :: rs)
  end.

Lemma at_returns h v l cap F (i : Z) :
  is_vec h v l cap F → 0 ≤ i →
  match l !! Z.to_nat i with
  | Some x => ∃ p, at_ v i = Ret p ∧ subscript v i = Ret p ∧ read_elem h p = Ret x
  | None => at_ v i = Throw out_of_range ∧ subscript v i = Abort
  end.
Proof.
  intros Hv Hi. unfold at_, subscript. rewrite (is_vec_size _ _ _ _ _ Hv). cbn [obind].
  destruct (l !! Z.to_nat i) as [x |] eqn:Hx.
  - pose proof (lookup_lt_Some _ _ _ Hx).
    rewrite (proj2 (Z.leb_gt _ _)), (proj2 (Z.ltb_lt _ _)) by lia.
    destruct Hv as [_ -> _ _ | b -> _ Hl Ho]; [done |]. eexists. split_and!; [done.. |].
    cbn [m_begin ptr_add]. rewrite Z.add_0_l, <-(Z2Nat.id i) by done.
    eapply read_elem_live; [exact Ho |]. unfold buffer.
    rewrite lookup_app_l by (rewrite length_fmap; lia). by rewrite list_lookup_fmap, Hx.
  - apply lookup_ge_None_1 in Hx.
    by rewrite (proj2 (Z.leb_le _ _)), (proj2 (Z.ltb_ge _ _)) by lia.
Qed.

Lemma ptr_eqb_same b o : ptr_eqb (Ptr b o) (Ptr b o) = true.
Proof. cbn [ptr_eqb]. by rewrite Nat.eqb_refl, Z.eqb_refl. Qed.

Lemma ptr_eqb_offset b o o' : o ≠ o' → ptr_eqb (Ptr b o) (Ptr b o') = false.
Proof. intros Hne. cbn [ptr_eqb]. rewrite Nat.eqb_refl. by apply Z.eqb_neq. Qed.

Lemma range_for_returns h b cs F l pre post :
  owns h b cs F → cs = pre ++ (Live <$> l) ++ post →
  range_for (length l) h (Ptr b (zlen pre)) (Ptr b (zlen pre + zlen l)) = Ret l.
Proof.
  intros Ho. revert pre. induction l as [| x l IH]; intros pre ->; cbn [length range_for fmap list_fmap app].
  - by rewrite Z.add_0_r, ptr_eqb_same.
  - rewrite ptr_eqb_offset by lia. rewrite (read_elem_live _ _ _ _ x _ Ho) by apply lookup_middle.
    cbn [obind]. rewrite (ptr_next b pre (Live x)).
    replace (zlen pre + Z.of_nat (S (length l))) with (zlen (pre ++ [Live x]) + zlen l)
      by (rewrite length_app; simpl; lia).
    rewrite IH; [done |]. by rewrite <-(assoc_L (++)).
Qed.

Lemma for_each_returns h v l cap F :
  is_vec h v l cap F → size v = Ret (zlen l) ∧ range_for (length l) h (begin v) (end_ v) = Ret l.
Proof.
  intros Hv. split; [by eapply is_vec_size |]. destruct Hv as [-> -> _ _ | b -> _ Hl Ho]; [done |].
  by eapply (range_for_returns h b (buffer l cap) F l []).
Qed.

Lemma perform_returns h v l cap F c l' cap' r :
  (∀ n : Z, 0 < n ≤ limit → fits n) → is_vec h v l cap F →
  spec_perform l cap c = Some (l', cap', r) →
  returns (perform h v c) (λ '(h', v', r'), is_vec h' v' l' cap' F ∧ r' = r).
Proof using HT.
  intros Hmem Hv Hspec. pose proof (is_vec_bound _ _ _ _ _ Hv) as [Hl _].
  destruct c as [x | | | n | n | i |]; cbn [spec_perform perform] in *.
  - destruct (Z.leb_spec (next_cap l cap) limit) as [Hlim |]; simplify_eq.
    eapply returns_bind; [eapply push_back_returns; [exact Hv |] | by intros [h' v']].
    intros Heq. apply Hmem. unfold next_cap, grown, ExpansionMult in *.
    rewrite (proj2 (Z.eqb_eq _ _)) in Hlim by done. destruct (Z.eqb_spec cap 0); lia.
  - destruct (list_snoc_destruct l) as [-> | (l0 & x & ->)]; [done |].
    rewrite length_app in Hspec. simpl in Hspec.
    replace (length l0 + 1 - 1)%nat with (length l0) in Hspec by lia.
    rewrite take_app_length in Hspec. destruct (l0 ++ [x]) eqn:Hl0; [by destruct l0 |].
    simplify_eq. rewrite <-Hl0 in Hv.
    eapply returns_bind; [by eapply pop_back_returns | by intros [h' v']].
  - simplify_eq. eapply returns_bind; [by eapply _destroy_all_returns | by intros [h' v']].
  - destruct (Z.ltb_spec 0 n), (Z.leb_spec n limit); simplify_eq/=.
    eapply returns_bind; [eapply reserve_returns; [exact Hv | by auto] | by intros [h' v']].
  - destruct (if cap =? 0 then _ else _) eqn:Hn; simplify_eq.
    eapply returns_bind; [eapply resize_returns; [exact Hv | |] | by intros [h' v']];
      destruct (cap =? 0); zify_bool; auto; lia.
  - destruct (Z.leb_spec 0 i) as [Hi |]; simplify_eq.
    pose proof (at_returns _ _ _ _ _ _ Hv Hi) as Hat. destruct (l' !! Z.to_nat i) as [x |].
    + destruct Hat as (p & -> & _ & ->). done.
    + by destruct Hat as [-> _].
  - simplify_eq. destruct (for_each_returns _ _ _ _ _ Hv) as [-> Hall]. cbn [obind]. by rewrite Nat2Z.id, Hall.
Qed.

(** * Properties *)

(** C8: a vector is a list.  Every session of [push_back], [pop_back], [clear],
    [reserve], [resize] and [at] calls and range-for loops on a new vector, inside
    the contract, runs to its end with the replies, contents and capacity of the
    list specification; destroying the vector then leaves the heap empty: every
    block was freed, and no element was alive in a block when it was freed, so
    every element constructed was destroyed.  The contract: capacities stay up
    to a limit for which memory can be had, [pop_back] is not called on an empty
    vector, [reserve] not with 0, and [resize] asks for at most the capacity, or
    for the first storage ([resize] beyond the capacity is undefined in the code:
    [resize_behaviour]). *)
Theorem vector_refines_list (calls : list command) l cap rs :
  (∀ n : Z, 0 < n ≤ limit → fits n) → spec_session [] 0 calls = Some (l, cap, rs) →
  ∃ h v, session empty_heap Vector calls = Ret (h, v, rs) ∧ is_vec h v l cap ∅ ∧
    size v = Ret (zlen l) ∧ capacity v = Ret cap ∧
    ∃ h', Vector_destroy h v = Ret (h', Vector) ∧ blocks h' = ∅.
Proof using HT.
  intros Hmem Hspec.
  cut (∃ h v, session empty_heap Vector calls = Ret (h, v, rs) ∧ is_vec h v l cap ∅).
  { intros (h & v & Hs & Hv). exists h, v. split_and!; [done | done | | |].
    - by eapply is_vec_size.
    - by eapply is_vec_capacity.
    - destruct (returns_inv _ _ (_destroy_and_free_returns _ _ _ _ _ Hv)) as ([h' v'] & ? & [_ ?] & ->).
      by exists h'. }
  assert (is_vec empty_heap Vector [] 0 ∅) as Hv by (apply is_vec_null, frame_empty; done).
  revert rs Hspec Hv. generalize (@nil V) at 1 2, 0, (@empty_heap cells), Vector.
  induction calls as [| c calls IH]; intros l0 cap0 h v rs Hspec Hv; cbn [session spec_session] in *.
  { simplify_eq. by exists h, v. }
  destruct (spec_perform l0 cap0 c) as [[[l1 cap1] r] |] eqn:Hc; [| done]. simpl in Hspec.
  destruct (spec_session l1 cap1 calls) as [[[l2 cap2] rs'] |] eqn:Hcs; [| done]. simplify_eq/=.
  destruct (returns_inv _ _ (perform_returns _ _ _ _ _ _ _ _ _ Hmem Hv Hc))
    as ([[h1 v1] r1] & -> & Hv1 & ->).
  destruct (IH _ _ _ _ _ Hcs Hv1) as (h2 & v2 & Hs & Hv2). cbn [obind]. rewrite Hs. eauto.
Qed.

(** [emplace_back] appends in place when there is room and otherwise grows
    first: to one element from nothing, else to twice the capacity.  The
    reference it returns reads the new element; the elements before it are
    kept in order; nothing else on the heap changes. *)
Theorem emplace_back_appends h v l cap F x :
  is_vec h v l cap F → (zlen l = cap → fits (grown cap)) →
  ∃ h' v' p, emplace_back h v (Value x) = Ret (h', v', p) ∧
    is_vec h' v' (l ++ [x]) (next_cap l cap) F ∧ read_elem h' p = Ret x ∧
    next_cap l cap = (if zlen l =? cap then (if cap =? 0 then 1 else 2 * cap) else cap).
Proof using HT.
  intros Hv Hfits.
  assert (returns (emplace_back h v (Value x)) (λ '(h', v', p),
    is_vec h' v' (l ++ [x]) (next_cap l cap) F ∧ read_elem h' p = Ret x)) as Hr
    by (by eapply emplace_back_returns).
  apply returns_inv in Hr as ([[h' v'] p] & Hr & Hv' & Hp). exists h', v', p.
  split_and!; [done.. |]. unfold next_cap, grown, ExpansionMult. by rewrite Z.mul_comm.
Qed.

(** Appending a vector's own element by reference: with room it appends a
    copy; when the vector is full the buffer is freed before the reference is
    read, which is undefined. *)
Theorem push_back_own_element h v l cap F b (i : Z) x :
  is_vec h v l cap F → m_begin v = Ptr b 0 → 0 ≤ i → l !! Z.to_nat i = Some x →
  (zlen l < cap →
    ∃ h' v', push_back h v (Elem (Ptr b i)) = Ret (h', v') ∧ is_vec h' v' (l ++ [x]) cap F) ∧
  (zlen l = cap → fits (2 * cap) → push_back h v (Elem (Ptr b i)) = Undef).
Proof using HT.
  intros Hv Hb Hi Hx. unfold push_back. split.
  - intros Hroom.
    assert (returns (emplace_back h v (Elem (Ptr b i))) (λ '(h', v', p),
      is_vec h' v' (l ++ [x]) (next_cap l cap) F ∧ read_elem h' p = Ret x)) as Hr.
    { eapply emplace_back_returns; [exact Hv | lia |]. intros h' v' _ Hsame.
      rewrite (Hsame Hroom). pose proof (at_returns _ _ _ _ _ _ Hv Hi) as Hat. rewrite Hx in Hat.
      destruct Hat as (p & Hp & _ & Hread). unfold at_ in Hp.
      rewrite (is_vec_size _ _ _ _ _ Hv) in Hp. cbn [obind] in Hp.
      destruct (zlen l <=? i); [done |]. rewrite Hb in Hp. injection Hp as <-. exact Hread. }
    apply returns_inv in Hr as ([[h' v'] p] & -> & Hv' & _). exists h', v'. split; [done |].
    unfold next_cap in Hv'. by rewrite (proj2 (Z.eqb_neq _ _)) in Hv' by lia.
  - intros Hfull Hfits. rewrite (emplace_back_dangles _ _ _ _ _ _ _ Hv Hb Hfull); [done |].
    unfold grown, ExpansionMult. pose proof (lookup_lt_Some _ _ _ Hx).
    rewrite (proj2 (Z.eqb_neq _ _)), Z.mul_comm by lia. done.
Qed.

(** [resize] inside the capacity truncates or appends default elements;
    beyond the capacity of a non-empty buffer its end pointer still points
    into the buffer that growing has freed, and the construction loop runs
    out of the new one. *)
Theorem resize_behaviour h v l cap F new_size :
  is_vec h v l cap F → 0 ≤ new_size →
  (0 < cap → new_size ≤ cap → ∃ h' v', resize h v new_size = Ret (h', v') ∧
    is_vec h' v' (take (Z.to_nat new_size) l ++ replicate (Z.to_nat new_size - length l) dflt) cap F) ∧
  (0 < cap < new_size → fits new_size → resize h v new_size = Undef).
Proof using HT.
  intros Hv Hpos. split.
  - intros Hcap Hle.
    assert (returns (resize h v new_size)
      (λ '(h', v'), is_vec h' v' (resized l new_size) (Z.max cap new_size) F)) as Hr.
    { apply resize_returns; [done | done |]. by rewrite (proj2 (Z.eqb_neq _ _)) by lia. }
    apply returns_inv in Hr as ([h' v'] & -> & Hv'). exists h', v'. split; [done |].
    by rewrite Z.max_l in Hv' by lia.
  - intros. by eapply resize_beyond_capacity.
Qed.

(** The copy constructor makes an independent vector with the source's
    elements and capacity; copy assignment between vectors of equal length
    replaces the elements in place; from a longer source (that fits the
    capacity) it assigns to storage in which no element lives. *)
Theorem vector_copies h other lo capo F :
  vec_in F other lo capo →
  (frame h F → fits capo → ∃ h' v', Vector_copy h other = Ret (h', v') ∧ is_vec h' v' lo capo F) ∧
  (∀ v l cap, is_vec h v l cap F → length l = length lo → l ≠ [] →
    ∃ h' v', copy_assign h v (Some other) = Ret (h', v') ∧ is_vec h' v' lo cap F) ∧
  (∀ v l cap, is_vec h v l cap F → zlen l < zlen lo ≤ cap →
    copy_assign h v (Some other) = Undef).
Proof using HT.
  intros Hin. split_and!.
  - intros Hf Hfits.
    destruct (returns_inv _ _ (Vector_copy_returns _ _ _ _ _ Hf Hin Hfits)) as ([h' v'] & ? & ?). eauto.
  - intros v l cap Hv Hlen Hne.
    destruct (returns_inv _ _ (copy_assign_same _ _ _ _ _ _ _ _ Hv Hin Hlen Hne))
      as ([h' v'] & ? & ?). eauto.
  - intros v l cap Hv Hlen. by eapply copy_assign_longer.
Qed.

(** Move assignment destroys what the target held, frees its block, hands
    over the source's buffer untouched and leaves the source empty; assigning
    a vector to itself that way loses its contents. *)
Theorem vector_moves h v l cap F other :
  is_vec h v l cap F →
  ∃ h', move_assign h v (Some other) = Ret (h', other, Vector) ∧ frame h' F ∧
    move_assign h v None = Ret (h', Vector, Vector).
Proof.
  intros Hv. unfold move_assign.
  destruct (returns_inv _ _ (_destroy_and_free_returns _ _ _ _ _ Hv)) as ([h' v'] & -> & Hf & ->).
  by exists h'.
Qed.
End Vector.

(** ** Concrete vectors *)

Module Demo.
(** 4-byte elements, relocated by moves, with memory for everything. *)
Definition all_fit : Z → bool := λ _, true.
Abbreviation run_session := (session (V := Z) 0 4 true all_fit).

Definition script : list (@command Z) :=
  [PushBack 10; PushBack 20; PushBack 30; At 1; At 3; PopBack; Resize 4; Reserve 8; At 3; ForEach].
Definition contents : list Z := [10; 20; 0; 0].
Definition replies : list reply :=
  [Done; Done; Done; Got 20; OutOfRange; Done; Done; Done; Got 0; All [10; 20; 0; 0]].

Example script_spec : spec_session 0 8 [] 0 script = Some (contents, 8, replies).
Proof. vm_compute. reflexivity. Qed.

Example script_runs :
  match run_session empty_heap Vector script with
  | Ret (h, v, rs) => rs = replies ∧ size v = Ret 4 ∧ blocks h !! 3%nat = Some (buffer contents 8)
  | _ => False
  end.
Proof. vm_compute. done. Qed.

Lemma fits_8 : ∀ n : Z, 0 < n ≤ 8 → fits 4 all_fit n.
Proof. intros n Hn. unfold fits, all_fit. split_and!; [lia | lia | lia | done]. Qed.

(** A full vector of two elements, alone and beside another. *)
Definition full : vec := MkVector (Ptr 0 0) (Ptr 0 2) (Ptr 0 2).
Definition heap1 : heap (list (cell Z)) := Heap 1 {[0%nat := [Live 1; Live 2]]}.
Definition with_room : vec := MkVector (Ptr 1 0) (Ptr 1 2) (Ptr 1 4).
Definition heap2 : heap (list (cell Z)) :=
  Heap 2 (<[1%nat := [Live 7; Live 8; Raw; Raw]]> {[0%nat := [Live 1; Live 2]]}).

Lemma full_block : owns heap1 0 (buffer [1; 2] 2) ∅.
Proof.
  split_and!; [| done | done]. intros b [x Hx]. unfold heap1 in Hx. simpl in Hx.
  apply lookup_singleton_Some in Hx as [<- _]. simpl. lia.
Qed.

Lemma full_is_vec : is_vec heap1 full [1; 2] 2 ∅.
Proof.
  apply (is_vec_block _ _ _ _ _ 0%nat); [done | lia | simpl; lia | exact full_block].
Qed.

Definition F2 : gmap nat (list (cell Z)) := {[0%nat := [Live 1; Live 2]]}.

Lemma heap2_ok : heap_ok heap2.
Proof.
  intros b [x Hx]. unfold heap2 in Hx. simpl in Hx.
  apply lookup_insert_Some in Hx as [[<- _] | [_ Hx]]; simpl; [lia |].
  apply lookup_singleton_Some in Hx as [<- _]. lia.
Qed.

Lemma with_room_is_vec : is_vec heap2 with_room [7; 8] 4 F2.
Proof.
  apply (is_vec_block _ _ _ _ _ 1%nat); [done | lia | simpl; lia |].
  split_and!; [exact heap2_ok | done | done].
Qed.

Lemma full_in : vec_in F2 full [1; 2] 2.
Proof. exists 0%nat. split_and!; [done | lia | lia | simpl; lia | done]. Qed.
End Demo.

Lemma vector_refines_list_witness :
  ∃ h v, Demo.run_session empty_heap Vector Demo.script = Ret (h, v, Demo.replies) ∧
    is_vec h v Demo.contents 8 ∅ ∧ size v = Ret 4 ∧ capacity v = Ret 8 ∧
    ∃ h', Vector_destroy h v = Ret (h', Vector) ∧ blocks h' = ∅.
Proof.
  apply (vector_refines_list 0 4 true Demo.all_fit ltac:(lia) 8 Demo.script).
  - exact Demo.fits_8.
  - exact Demo.script_spec.
Defined.

Lemma emplace_back_appends_witness :
  ∃ h' v' p, emplace_back 4 true Demo.all_fit Demo.heap1 Demo.full (Value 3) = Ret (h', v', p) ∧
    is_vec h' v' [1; 2; 3] 4 ∅ ∧ read_elem h' p = Ret 3 ∧ 4 = 4.
Proof.
  apply (emplace_back_appends 4 true Demo.all_fit ltac:(lia) _ _ _ _ _ 3 Demo.full_is_vec).
  intros _. apply Demo.fits_8. vm_compute. done.
Defined.

Lemma push_back_own_element_witness :
  push_back 4 true Demo.all_fit Demo.heap1 Demo.full (Elem (Ptr 0 0)) = Undef ∧
  ∃ h' v', push_back 4 true Demo.all_fit Demo.heap2 Demo.with_room (Elem (Ptr 1 0)) = Ret (h', v') ∧
    is_vec h' v' [7; 8; 7] 4 Demo.F2.
Proof.
  split.
  - apply (push_back_own_element 4 true Demo.all_fit ltac:(lia) _ _ _ _ _ 0%nat 0 1 Demo.full_is_vec);
      [done | lia | done | done |]. apply Demo.fits_8. lia.
  - apply (push_back_own_element 4 true Demo.all_fit ltac:(lia) _ _ _ _ _ 1%nat 0 7
      Demo.with_room_is_vec); [done | lia | done | simpl; lia].
Defined.

Lemma resize_behaviour_witness :
  (∃ h' v', resize 0 4 true Demo.all_fit Demo.heap2 Demo.with_room 3 = Ret (h', v') ∧
    is_vec h' v' [7; 8; 0] 4 Demo.F2) ∧
  resize 0 4 true Demo.all_fit Demo.heap1 Demo.full 5 = Undef.
Proof.
  split.
  - apply (resize_behaviour 0 4 true Demo.all_fit ltac:(lia) _ _ _ _ _ 3 Demo.with_room_is_vec);
      lia.
  - apply (resize_behaviour 0 4 true Demo.all_fit ltac:(lia) _ _ _ _ _ 5 Demo.full_is_vec);
      [lia | lia |]. apply Demo.fits_8. lia.
Defined.

Lemma vector_copies_witness :
  (∃ h' v', Vector_copy 4 Demo.all_fit Demo.heap1 Demo.full = Ret (h', v') ∧
    is_vec h' v' [1; 2] 2 Demo.F2) ∧
  ∃ h' v', copy_assign 4 true Demo.all_fit Demo.heap2 Demo.with_room (Some Demo.full) = Ret (h', v') ∧
    is_vec h' v' [1; 2] 4 Demo.F2.
Proof.
  destruct (vector_copies 4 true Demo.all_fit ltac:(lia) Demo.heap1 _ _ _ _ Demo.full_in) as (H1 & _ & _).
  destruct (vector_copies 4 true Demo.all_fit ltac:(lia) Demo.heap2 _ _ _ _ Demo.full_in) as (_ & H2 & _).
  split.
  - apply H1; [| apply Demo.fits_8; lia]. exact (owns_frame _ _ _ _ Demo.full_block).
  - apply (H2 _ _ _ Demo.with_room_is_vec); done.
Defined.

Lemma vector_moves_witness :
  ∃ h', move_assign Demo.heap2 Demo.with_room (Some Demo.full) = Ret (h', Demo.full, Vector) ∧
    frame h' Demo.F2 ∧ move_assign Demo.heap2 Demo.with_room None = Ret (h', Vector, Vector).
Proof. exact (vector_moves _ _ _ _ _ _ Demo.with_room_is_vec). Defined.
