(* ===== verification/Arena.v ===== *)
(** * Arena: bump allocation

    Models [src/include/fiah/memory/BumpArena.hh] and
    [src/include/fiah/memory/BumpAllocator.hh].  Addresses are [uintptr_t]
    values; 0 is the null pointer.  The typeclass [Arena] is what the allocator
    needs of an arena: its theorems hold for every arena with those laws, and
    [BumpArena] has them. *)

From stdpp Require Import base tactics numbers list option gmap.
From Stdlib Require Import ZArith Lia.
From S2P Require Import Prelude.
#[local] Open Scope Z_scope.
#[local] Open Scope fiah_scope.

(** ** The arena *)

Record BumpArena : Type := MkBumpArena {
  m_begin : Z;
  m_curr : Z;
  m_end : Z
}.

(** The constructor. *)
Definition new_BumpArena (buff size : Z) : BumpArena :=
  MkBumpArena buff buff (buff +u64 size).

Definition used (a : BumpArena) : Z := m_curr a -u64 m_begin a.
Definition remaining (a : BumpArena) : Z := m_end a -u64 m_curr a.
Definition full (a : BumpArena) : bool := m_curr a =? m_end a.
Definition reset (a : BumpArena) : BumpArena := MkBumpArena (m_begin a) (m_begin a) (m_end a).

(** [std::align]: the first multiple of [alignment] (a power of two) not below
    [ptr], if [size] bytes fit there in [space]; the address is computed in
    [uintptr_t], which wraps. *)
Definition align (alignment size ptr space : Z) : Z :=
  if space <? size then 0
  else
    let aligned := Z.land (ptr -u64 1 +u64 alignment) (u64 (- alignment)) in
    let diff := aligned -u64 ptr in
    if space -u64 size <? diff then 0 else aligned.

Definition allocate (a : BumpArena) (size alignment : Z) : Z * BumpArena :=
  let aligned := align alignment size (m_curr a) (remaining a) in
  if aligned =? 0 then (0, a)
  else (aligned, MkBumpArena (m_begin a) (aligned +u64 size) (m_end a)).

(** ** What an allocator needs of an arena *)

Definition pow2 (n : Z) : Prop := ∃ k, 0 ≤ k < 64 ∧ n = 2 ^ k.

(** [p, p + n) *)
Definition block (p n : Z) (addr : Z) : Prop := p ≤ addr < p + n.

Class Arena (A : Type) : Type := {
  arena_allocate : A → Z → Z → Z * A;
  arena_ok : A → Prop;
  (** the addresses not handed out *)
  free : A → Z → Prop
}.

Class ArenaLaws (A : Type) `{Arena A} : Prop := {
  (** the null pointer, and nothing else, stands for failure; memory handed out
      is aligned, was free, and is not free afterwards *)
  arena_allocate_law a size alignment :
    arena_ok a → in_u64 size → pow2 alignment →
    let '(p, a') := arena_allocate a size alignment in
    arena_ok a' ∧
    (p = 0 ∧ a' = a ∨
     p ≠ 0 ∧ in_u64 p ∧ (alignment | p) ∧
     (∀ addr, block p size addr → free a addr ∧ ¬ free a' addr) ∧
     (∀ addr, free a' addr → free a addr))
}.

#[export] Instance bump_arena : Arena BumpArena := {
  arena_allocate := allocate;
  arena_ok a := 0 ≤ m_begin a ≤ m_curr a ∧ m_curr a ≤ m_end a < 2 ^ 64;
  free a addr := m_curr a ≤ addr < m_end a
}.

(** ** The allocator *)

(** What [m_arena] may hold: the defaulted constructor leaves it as it is. *)
Inductive arena_ref (A : Type) : Type := Indeterminate | NullArena | At (a : A).
Arguments Indeterminate {A}.
Arguments NullArena {A}.
Arguments At {A} _.

Definition size_max : Z := 2 ^ 64 - 1.

Section BumpAllocator.
Context {A : Type} `{Arena A}.

(** [BumpAllocator<T>::allocate(n)] for a [T] of size [sizeT] and alignment
    [alignT]; [alloc_fail] stops the process.  The arena is shared: its new
    state is returned. *)
Definition allocator_allocate (sizeT alignT : Z) (m_arena : arena_ref A) (n : Z) : outcome (Z * A) :=
  match m_arena with
  | Indeterminate => Undef
  | NullArena => Abort
  | At a =>
      if size_max / sizeT <? n then Abort
      else
        let '(ptr, a) := arena_allocate a (n *u64 sizeT) alignT in
        if ptr =? 0 then Abort else Ret (ptr, a)
  end.

Definition deallocate (a : A) (p n : Z) : A := a.

(** Requests of allocators of any element types on one arena; the addresses
    and byte counts handed out, oldest first. *)
Record request : Type := Request { sizeT : Z; alignT : Z; count : Z }.

Fixpoint allocate_all (a : A) (rs : list request) : outcome (list (Z * Z) * A) :=
  match rs with
  | [] => Ret ([], a)
  | r :: rs =>
      let! (p, a) := allocator_allocate (sizeT r) (alignT r) (At a) (count r) in
      let! (ps, a) := allocate_all a rs in Ret ((p, count r * sizeT r) :: ps, a)
  end.
End BumpAllocator.

(** ** Allocators of several arenas

    The arenas of a program, by name; an allocator holds the address of one. *)

Section Allocators.
Context {A : Type} `{Arena A}.

(** [BumpAllocator()] leaves [m_arena] unwritten; [BumpAllocator(a)] and the
    conversion from an allocator of another element type copy the address. *)
Definition default_allocator : arena_ref nat := Indeterminate.
Definition new_allocator (a : option nat) : arena_ref nat :=
  match a with Some i => At i | None => NullArena end.
Definition convert_allocator (other : arena_ref nat) : outcome (arena_ref nat) :=
  match other with Indeterminate => Undef | _ => Ret other end.

(** [operator==] and [operator!=] *)
Definition allocator_eq (this other : arena_ref nat) : outcome bool :=
  match this, other with
  | Indeterminate, _ | _, Indeterminate => Undef
  | NullArena, NullArena => Ret true
  | At i, At j => Ret (bool_decide (i = j))
  | _, _ => Ret false
  end.
Definition allocator_ne (this other : arena_ref nat) : outcome bool :=
  let! eq := allocator_eq this other in Ret (negb eq).

(** [allocate(n)] through the address; an address of no arena dangles. *)
Definition allocate_from (sizeT alignT : Z) (this : arena_ref nat) (n : Z) (arenas : gmap nat A)
  : outcome (Z * gmap nat A) :=
  match this with
  | Indeterminate => let! (ptr, _) := allocator_allocate (A := A) sizeT alignT Indeterminate n in Ret (ptr, arenas)
  | NullArena => let! (ptr, _) := allocator_allocate (A := A) sizeT alignT NullArena n in Ret (ptr, arenas)
  | At i =>
      match arenas !! i with
      | None => Undef
      | Some a =>
          let! (ptr, a) := allocator_allocate sizeT alignT (At a) n in Ret (ptr, <[i := a]> arenas)
      end
  end.
End Allocators.

(** * Proofs *)

(** ** Rounding up *)

Definition align_up (alignment x : Z) : Z := (x + alignment - 1) / alignment * alignment.

Lemma align_up_spec al x : 0 < al → x ≤ align_up al x < x + al ∧ (al | align_up al x).
Proof.
  intros Hal. unfold align_up. split; [| by exists ((x + al - 1) / al)].
  pose proof (Z.div_mod (x + al - 1) al). pose proof (Z.mod_pos_bound (x + al - 1) al). lia.
Qed.

Lemma align_up_least al x y : 0 < al → (al | y) → x ≤ y → align_up al x ≤ y.
Proof.
  intros Hal [k ->] Hx. unfold align_up. apply Z.mul_le_mono_nonneg_r; [lia |].
  enough ((x + al - 1) / al < k + 1) by lia.
  apply Z.div_lt_upper_bound; lia.
Qed.

(** The mask [-2^k] clears the low [k] bits of a word. *)
Lemma land_mask k x : 0 ≤ k < 64 → in_u64 x → Z.land x (u64 (- 2 ^ k)) = x / 2 ^ k * 2 ^ k.
Proof.
  intros Hk Hx. rewrite <-Z.shiftr_div_pow2, <-Z.shiftl_mul_pow2 by lia.
  apply Z.bits_inj'. intros n Hn. rewrite Z.land_spec, Z.shiftl_spec by done.
  rewrite u64_testbit, <-(Z.mul_1_l (2 ^ k)), <-Z.mul_opp_l.
  destruct (Z.ltb_spec n k).
  - rewrite (Z.testbit_neg_r _ (n - k)), Z.mul_pow2_bits_low by lia. by rewrite !andb_false_r.
  - rewrite Z.shiftr_spec, Z.mul_pow2_bits, Z.bits_m1 by lia. replace (n - k + k) with n by lia.
    destruct (Z.ltb_spec n 64); [by rewrite !andb_true_r |].
    by rewrite (in_u64_testbit x) by (done || lia).
Qed.

Lemma align_spec k size ptr space :
  0 ≤ k < 64 → 0 ≤ ptr → 0 ≤ space → ptr + space < 2 ^ 64 → in_u64 size →
  align (2 ^ k) size ptr space =
    if align_up (2 ^ k) ptr + size <=? ptr + space then align_up (2 ^ k) ptr else 0.
Proof.
  intros Hk Hptr Hspace Hend [Hs0 Hs]. unfold align.
  assert (0 < 2 ^ k) as Hal by (apply Z.pow_pos_nonneg; lia).
  assert (2 ^ 64 = 2 ^ (64 - k) * 2 ^ k) as H64 by (rewrite <-Z.pow_add_r by lia; f_equal; lia).
  destruct (align_up_spec (2 ^ k) ptr Hal) as [Hup _].
  destruct (Z.ltb_spec space size).
  { by rewrite (proj2 (Z.leb_gt _ _)) by lia. }
  rewrite u64_add_l, land_mask by (done || apply u64_range).
  rewrite (u64_small (space - size)) by (unfold in_u64; lia).
  replace (ptr - 1 + 2 ^ k) with (ptr + 2 ^ k - 1) by lia.
  destruct (decide (ptr + 2 ^ k - 1 < 2 ^ 64)) as [Hlt | Hge].
  - rewrite (u64_small (ptr + 2 ^ k - 1)) by (unfold in_u64; lia). fold (align_up (2 ^ k) ptr).
    assert (align_up (2 ^ k) ptr - ptr < 2 ^ 64) by (apply Z.lt_trans with (2 ^ k); [lia |];
      apply Z.pow_lt_mono_r; lia).
    rewrite (u64_small (align_up _ _ - ptr)) by (unfold in_u64; lia).
    destruct (Z.ltb_spec (space - size) (align_up (2 ^ k) ptr - ptr)),
      (Z.leb_spec (align_up (2 ^ k) ptr + size) (ptr + space)); lia.
  - assert (2 ^ k < 2 ^ 64) by (apply Z.pow_lt_mono_r; lia).
    assert (u64 (ptr + 2 ^ k - 1) = ptr + 2 ^ k - 1 - 2 ^ 64) as ->.
    { unfold u64, wrap. symmetry. apply Z.mod_unique with 1; lia. }
    rewrite Z.div_small, Z.mul_0_l by lia.
    assert (2 ^ 64 ≤ align_up (2 ^ k) ptr) as Hbig.
    { unfold align_up. rewrite H64. apply Z.mul_le_mono_nonneg_r; [lia |].
      apply Z.div_le_lower_bound; lia. }
    rewrite (proj2 (Z.leb_gt (align_up (2 ^ k) ptr + size) _)) by lia.
    destruct (Z.ltb_spec (space - size) (u64 (0 - ptr))); [done |].
    exfalso. revert H1. unfold u64, wrap.
    destruct (decide (ptr = 0)) as [-> |]; [lia |].
    rewrite <-(Z.mod_unique (0 - ptr) (2 ^ 64) (-1) (2 ^ 64 - ptr)) by lia. lia.
Qed.

(** ** The arena *)

Lemma remaining_ok a : arena_ok a → remaining a = m_end a - m_curr a.
Proof. intros [? ?]. unfold remaining. apply u64_small. unfold in_u64. lia. Qed.

Lemma used_ok a : arena_ok a → used a = m_curr a - m_begin a.
Proof. intros [? ?]. unfold used. apply u64_small. unfold in_u64. lia. Qed.

(** Success and failure of one allocation, exactly. *)
Lemma allocate_cases a size k :
  arena_ok a → in_u64 size → 0 ≤ k < 64 →
  let p := align_up (2 ^ k) (m_curr a) in
  allocate a size (2 ^ k) =
    if (p + size <=? m_end a) && negb (p =? 0) then (p, MkBumpArena (m_begin a) (p + size) (m_end a))
    else (0, a).
Proof.
  intros Ha Hs Hk p. unfold allocate. rewrite remaining_ok by done. destruct Ha as [H1 H2].
  rewrite align_spec by (done || lia). fold p.
  replace (m_curr a + (m_end a - m_curr a)) with (m_end a) by lia.
  destruct (Z.leb_spec (p + size) (m_end a)); simpl; [| done].
  destruct (Z.eqb_spec p 0) as [-> |]; simpl; [done |].
  unfold in_u64 in Hs. pose proof (align_up_spec (2 ^ k) (m_curr a) ltac:(apply Z.pow_pos_nonneg; lia)).
  rewrite u64_small by (unfold in_u64; lia). done.
Qed.

#[export] Instance bump_arena_laws : ArenaLaws BumpArena.
Proof.
  split. intros a size al Ha Hs (k & Hk & ->). simpl arena_allocate.
  rewrite allocate_cases by done. cbn zeta.
  destruct (align_up_spec (2 ^ k) (m_curr a)) as [Hup Hdiv]; [apply Z.pow_pos_nonneg; lia |].
  destruct (_ && _) eqn:Hc; [| split; [done | by left]]. zify_bool.
  destruct Ha as [H1 H2]. unfold in_u64 in Hs. simpl. split; [lia |]. right.
  split_and!; [lia | unfold in_u64; lia | done | |]; unfold block; intros addr; lia.
Qed.

(** ** The allocator, over any arena *)

Section Client.
Context {A : Type} `{ArenaLaws A}.

Definition request_ok (r : request) : Prop :=
  0 < sizeT r < 2 ^ 64 ∧ pow2 (alignT r) ∧ in_u64 (count r).

(** A request that is served got memory of its full size, aligned for its
    type; otherwise the process stops. *)
Lemma allocator_allocate_spec a r :
  arena_ok a → request_ok r →
  match allocator_allocate (sizeT r) (alignT r) (At a) (count r) with
  | Ret (p, a') =>
      arena_ok a' ∧ p ≠ 0 ∧ (alignT r | p) ∧ in_u64 (count r * sizeT r) ∧
      (∀ addr, block p (count r * sizeT r) addr → free a addr ∧ ¬ free a' addr) ∧
      (∀ addr, free a' addr → free a addr)
  | Abort => True
  | _ => False
  end.
Proof.
  intros Ha (Hsz & Hal & Hn). unfold allocator_allocate.
  destruct (Z.ltb_spec (size_max / sizeT r) (count r)) as [| Hle]; [done |].
  assert (in_u64 (count r * sizeT r)) as Hbytes.
  { unfold in_u64, size_max in *.
    pose proof (Z.mul_div_le (2 ^ 64 - 1) (sizeT r)). split; [lia |]. nia. }
  rewrite u64_small by done.
  pose proof (arena_allocate_law a _ _ Ha Hbytes Hal) as Hlaw.
  destruct (arena_allocate a (count r * sizeT r) (alignT r)) as [p a'].
  destruct Hlaw as [Ha' [[-> ->] | (Hp & _ & Hdiv & Hblk & Hfree)]]; [done |].
  rewrite (proj2 (Z.eqb_neq p 0)) by done. done.
Qed.

Definition disjoint_blocks (x y : Z * Z) : Prop :=
  ∀ addr, block x.1 x.2 addr → block y.1 y.2 addr → False.

Lemma allocate_all_sound rs a ps a' :
  arena_ok a → Forall request_ok rs → allocate_all a rs = Ret (ps, a') →
  arena_ok a' ∧ length ps = length rs ∧
  ForallOrdPairs disjoint_blocks ps ∧
  Forall (λ x, ∀ addr, block x.1 x.2 addr → free a addr ∧ ¬ free a' addr) ps ∧
  Forall2 (λ r x, x.2 = count r * sizeT r ∧ (alignT r | x.1) ∧ x.1 ≠ 0) rs ps ∧
  (∀ addr, free a' addr → free a addr).
Proof.
  intros Ha Hrs. revert a ps Ha. induction Hrs as [| r rs Hr Hrs IH]; intros a ps Ha Heq.
  { simpl in Heq. simplify_eq. split_and!; try done; constructor. }
  cbn [allocate_all] in Heq. pose proof (allocator_allocate_spec a r Ha Hr) as Hspec.
  destruct (allocator_allocate _ _ _ _) as [[p a1] | | | |]; try done. cbn [obind] in Heq.
  destruct Hspec as (Ha1 & Hp & Hdiv & _ & Hblk & Hfree).
  destruct (allocate_all a1 rs) as [[ps1 a2] | | | |] eqn:Hall; try done. simpl in Heq. simplify_eq.
  destruct (IH _ _ Ha1 Hall) as (Ha' & Hlen & Hdis & Hin & H2 & Hsub).
  split_and!; [done | simpl; lia | | | | auto].
  - constructor; [| done]. eapply List.Forall_impl; [| exact Hin]. intros x Hx addr Hb1 Hb2.
    apply (Hblk addr Hb1). by apply Hx.
  - constructor.
    + intros addr Hb. split; [by apply Hblk |]. intros Hf. by apply (Hblk addr Hb), Hsub.
    + eapply List.Forall_impl; [| exact Hin]. intros x Hx addr Hb.
      destruct (Hx addr Hb). auto.
  - by constructor.
Qed.
End Client.

(** A bump arena only ever moves its pointer up, by at least what it hands out. *)
Lemma allocate_all_progress rs a ps (a' : BumpArena) :
  arena_ok a → Forall request_ok rs → allocate_all a rs = Ret (ps, a') →
  arena_ok a' ∧ m_begin a' = m_begin a ∧ m_end a' = m_end a ∧
  m_curr a + foldr (λ x, Z.add x.2) 0 ps ≤ m_curr a'.
Proof.
  intros Ha Hrs. revert a ps Ha. induction Hrs as [| r rs Hr Hrs IH]; intros a ps Ha Heq.
  { simpl in Heq. simplify_eq. split_and!; [done.. |]. simpl. lia. }
  cbn [allocate_all] in Heq. pose proof (allocator_allocate_spec a r Ha Hr) as Hspec.
  unfold allocator_allocate in *. destruct (_ <? count r); [done |].
  destruct Hr as (Hsz & (k & Hk & Hal) & Hn). rewrite Hal in *.
  simpl arena_allocate in *. rewrite allocate_cases in * by (done || apply u64_range). cbn zeta in *.
  destruct (_ && _) eqn:Hc; [| done].
  apply andb_true_iff in Hc as [_ Hc%negb_true_iff]. rewrite Hc in *. cbn [obind] in Heq.
  destruct Hspec as (Ha1 & _ & _ & Hbytes & _). rewrite u64_small in * by done.
  destruct (allocate_all _ rs) as [[ps1 a2] | | | |] eqn:Hall; try done. simpl in Heq. simplify_eq.
  destruct (IH _ _ Ha1 Hall) as (Ha' & H1 & H2 & H3). simpl in *.
  pose proof (align_up_spec (2 ^ k) (m_curr a) ltac:(apply Z.pow_pos_nonneg; lia)).
  split_and!; (done || lia).
Qed.

(** * Properties *)

(** C33: one allocation from a bump arena over a buffer that is not at address 0.
    It succeeds exactly when the block,
    placed at the first aligned address not below the bump pointer, ends inside
    the buffer; then that address is returned and the pointer moves to the
    block's end.  Otherwise the result is null and the arena unchanged.  The
    rounding never wraps into a bogus success. *)
Theorem BumpArena_allocate a size k :
  arena_ok a → 0 < m_begin a → in_u64 size → 0 ≤ k < 64 →
  let '(p, a') := allocate a size (2 ^ k) in
  arena_ok a' ∧ m_begin a' = m_begin a ∧ m_end a' = m_end a ∧
  (0 < p ∧ m_curr a ≤ p ∧ (2 ^ k | p) ∧ p + size ≤ m_end a ∧ m_curr a' = p + size ∧
     (∀ q, m_curr a ≤ q → (2 ^ k | q) → p ≤ q)
   ∨ p = 0 ∧ a' = a ∧ (∀ q, m_curr a ≤ q → (2 ^ k | q) → m_end a < q + size)).
Proof.
  intros Ha Hb Hs Hk. pose proof (arena_allocate_law a size (2 ^ k) Ha Hs) as Hlaw.
  simpl arena_allocate in Hlaw. rewrite allocate_cases in * by done. cbn zeta in *.
  assert (0 < 2 ^ k) as Hal by (apply Z.pow_pos_nonneg; lia).
  destruct (align_up_spec (2 ^ k) (m_curr a) Hal) as [Hup Hdiv].
  pose proof (λ q H1 H2, align_up_least (2 ^ k) (m_curr a) q Hal H2 H1) as Hleast.
  destruct Ha as [H1 H2]. rewrite (proj2 (Z.eqb_neq (align_up _ _) 0)) in * by lia.
  destruct (Z.leb_spec (align_up (2 ^ k) (m_curr a) + size) (m_end a)); cbn [andb negb] in *.
  - split_and!; [by apply Hlaw; exists k | done | done |]. left. simpl. split_and!; [lia.. | done | lia | done | done].
  - split_and!; [done.. |]. right. split_and!; [done.. |].
    intros q Hq Hdq. specialize (Hleast q Hq Hdq). lia.
Qed.

(** C34: blocks of one arena never overlap.  Whatever mix of element types the
    allocators on it ask for, each served request has memory of its full size
    (no multiplication overflow), aligned for its type, inside the buffer and
    disjoint from every other block.  Proved for every arena with the laws of
    [ArenaLaws]; [BumpArena] is one. *)
Theorem allocations_disjoint rs a ps a' :
  arena_ok a → Forall request_ok rs → allocate_all (A := BumpArena) a rs = Ret (ps, a') →
  ForallOrdPairs disjoint_blocks ps ∧
  Forall (λ x, ∀ addr, block x.1 x.2 addr → m_curr a ≤ addr < m_end a) ps ∧
  Forall2 (λ r x, x.2 = count r * sizeT r ∧ (alignT r | x.1) ∧ x.1 ≠ 0) rs ps.
Proof.
  intros Ha Hrs Hall. destruct (allocate_all_sound _ _ _ _ Ha Hrs Hall) as (_ & _ & Hd & Hin & H2 & _).
  split_and!; [done | | done]. eapply List.Forall_impl; [| exact Hin].
  intros x Hx addr Hb. apply (Hx addr Hb).
Qed.

(** [used] and [remaining] always add up to the size of the buffer, [full]
    says that nothing remains, and [reset] makes the whole buffer available
    again. *)
Theorem BumpArena_accounting buff size rs ps a :
  0 ≤ buff → 0 ≤ size → buff + size < 2 ^ 64 → Forall request_ok rs →
  allocate_all (new_BumpArena buff size) rs = Ret (ps, a) →
  used a + remaining a = size ∧ (full a = true ↔ remaining a = 0) ∧
  reset a = new_BumpArena buff size ∧ foldr (λ x, Z.add x.2) 0 ps ≤ used a.
Proof.
  intros Hb Hs Hend Hrs Hall. unfold new_BumpArena in *.
  rewrite u64_small in * by (unfold in_u64; lia).
  assert (arena_ok (MkBumpArena buff buff (buff + size))) as Hok by (simpl; lia).
  destruct (allocate_all_progress _ _ _ _ Hok Hrs Hall) as (Ha & H1 & H2 & H3).
  rewrite remaining_ok, used_ok by done. unfold full, reset. cbn [m_begin m_end m_curr] in *.
  rewrite Z.eqb_eq, H1, H2. split_and!; [lia | lia | done | lia].
Qed.

(** ** A concrete arena *)

Module Demo.
(** 32 bytes at address 1003; an [int], a [double], two [char]s. *)
Definition arena : BumpArena := new_BumpArena 1003 32.
Definition requests : list request := [Request 4 4 1; Request 8 8 1; Request 1 1 2].
Definition served : list (Z * Z) := [(1004, 4); (1008, 8); (1016, 2)].
Definition after : BumpArena := MkBumpArena 1003 1018 1035.

Example served_run : allocate_all arena requests = Ret (served, after).
Proof. vm_compute. reflexivity. Qed.

Example exhausted : allocate_all arena [Request 4 4 8] = Abort.
Proof. vm_compute. reflexivity. Qed.

Example null_buffer : allocate_all (new_BumpArena 0 32) [Request 4 4 1] = Abort.
Proof. vm_compute. reflexivity. Qed.

Lemma arena_is_ok : arena_ok arena.
Proof. simpl. unfold u64, wrap. rewrite Z.mod_small; lia. Qed.

Lemma requests_ok : Forall request_ok requests.
Proof.
  repeat constructor; simpl; try lia; [by exists 2 | by exists 3 | by exists 0].
Qed.
End Demo.

Lemma BumpArena_allocate_witness :
  allocate Demo.arena 8 (2 ^ 3) = (1008, MkBumpArena 1003 1016 1035) ∧
  (∀ q, 1003 ≤ q → (2 ^ 3 | q) → 1008 ≤ q).
Proof.
  split; [vm_compute; reflexivity |].
  destruct (BumpArena_allocate Demo.arena 8 3 Demo.arena_is_ok) as (_ & _ & _ & H);
    [simpl; lia | unfold in_u64; lia | lia |].
  destruct H as [(_ & _ & _ & _ & _ & H) | [H _]]; [exact H | discriminate H].
Defined.

Lemma allocations_disjoint_witness :
  ForallOrdPairs disjoint_blocks Demo.served ∧
  Forall (λ x, ∀ addr, block x.1 x.2 addr → 1003 ≤ addr < 1035) Demo.served ∧
  Forall2 (λ r x, x.2 = count r * sizeT r ∧ (alignT r | x.1) ∧ x.1 ≠ 0) Demo.requests Demo.served.
Proof.
  exact (allocations_disjoint _ _ _ _ Demo.arena_is_ok Demo.requests_ok Demo.served_run).
Defined.

Lemma BumpArena_accounting_witness :
  used Demo.after + remaining Demo.after = 32 ∧ reset Demo.after = Demo.arena.
Proof.
  destruct (BumpArena_accounting 1003 32 _ _ _ ltac:(lia) ltac:(lia) ltac:(lia) Demo.requests_ok
    Demo.served_run) as (H1 & _ & H2 & _).
  split; [exact H1 | exact H2].
Defined.

(** Comparing equal is what containers may rely on: allocators that compare
    equal allocate from the same arena, so that each can answer for the other's
    memory; an allocation through an allocator that compares different leaves the other's
    arena as it was. *)
Theorem allocator_equality {A} `{ArenaLaws A} (this other : arena_ref nat) arenas b :
  allocator_eq this other = Ret b →
  allocator_ne this other = Ret (negb b) ∧
  if b then ∀ sz al n, allocate_from sz al this n arenas = allocate_from sz al other n arenas
  else ∀ sz al n ptr arenas', allocate_from sz al this n arenas = Ret (ptr, arenas') →
    ∀ j, other = At j → arenas' !! j = arenas !! j.
Proof.
  intros Heq. split; [unfold allocator_ne; by rewrite Heq |].
  destruct this as [| | i], other as [| | j]; simpl in Heq; try done; simplify_eq; try done.
  case_bool_decide as Hij; [by subst |].
  intros sz al n ptr arenas' Hal j' [= <-]. simpl in Hal.
  destruct (arenas !! i) as [a |]; [| done].
  destruct (size_max / sz <? n); [done |]. destruct (arena_allocate a _ al) as [p a'].
  destruct (p =? 0); [done |]. simpl in Hal. simplify_eq. by rewrite lookup_insert_ne.
Qed.

Lemma allocator_equality_witness :
  allocator_eq (At 0%nat) (At 1%nat) = Ret false ∧ allocator_ne (At 0%nat) (At 1%nat) = Ret true.
Proof.
  split; [reflexivity |].
  exact (proj1 (allocator_equality (A := BumpArena) (At 0%nat) (At 1%nat) ∅ false eq_refl)).
Defined.
