(* ===== verification/Bytes.v ===== *)
(** * Bytes: the memory routines

    Models [src/include/fiah/memory/Memcpy.cc], [Memmove.cc] and [Strcpy.cc] on
    a byte-addressed memory; an access to an address that is not mapped is
    [Undef].  The result of each is stated pointwise against the memory before
    the call ([copied]). *)

From stdpp Require Import base tactics numbers list option gmap.
From Stdlib Require Import ZArith Lia.
From S2P Require Import Prelude.
#[local] Open Scope Z_scope.
#[local] Open Scope fiah_scope.

Abbreviation memory := (gmap Z Z).

Definition load (m : memory) (a : Z) : outcome Z :=
  match m !! a with Some x => Ret x | None => Undef end.
Definition store (m : memory) (a x : Z) : outcome memory :=
  let! _ := load m a in Ret (<[a := x]> m).

(** [*to = *from] *)
Definition copy_byte (m : memory) (to from : Z) : outcome memory :=
  let! x := load m from in store m to x.

(** ** The routines *)

(** [while (n--) *to++ = *from++] *)
Fixpoint copy_up (m : memory) (to from : Z) (n : nat) : outcome memory :=
  match n with
  | O => Ret m
  | S n => let! m := copy_byte m to from in copy_up m (to + 1) (from + 1) n
  end.

(** [while (n--) *--to = *--from] *)
Fixpoint copy_down (m : memory) (to from : Z) (n : nat) : outcome memory :=
  match n with
  | O => Ret m
  | S n => let! m := copy_byte m (to - 1) (from - 1) in copy_down m (to - 1) (from - 1) n
  end.

(** [while (n >= 8)]: eight assignments, then the pointers move by 8; the loop's
    result is the state it leaves the byte loop. *)
Fixpoint copy_eights (fuel : nat) (m : memory) (to from : Z) (n : nat)
  : outcome (memory * Z * Z * nat) :=
  match fuel with
  | O => OutOfFuel
  | S fuel =>
      if (8 <=? n)%nat then
        let! m := copy_byte m (to + 0) (from + 0) in
        let! m := copy_byte m (to + 1) (from + 1) in
        let! m := copy_byte m (to + 2) (from + 2) in
        let! m := copy_byte m (to + 3) (from + 3) in
        let! m := copy_byte m (to + 4) (from + 4) in
        let! m := copy_byte m (to + 5) (from + 5) in
        let! m := copy_byte m (to + 6) (from + 6) in
        let! m := copy_byte m (to + 7) (from + 7) in
        copy_eights fuel m (to + 8) (from + 8) (n - 8)
      else Ret (m, to, from, n)
  end.

Definition Memcpy (m : memory) (dst src : Z) (n : nat) : outcome (memory * Z) :=
  let! (m, to, from, n) := copy_eights (S n) m dst src n in
  let! m := copy_up m to from n in Ret (m, dst).

(** 0 is the null pointer. *)
Definition Memmove (m : memory) (dst src : Z) (n : nat) : outcome (memory * Z) :=
  if (src =? 0) || (dst =? 0) || (n =? 0)%nat then Ret (m, dst)
  else if dst <? src then let! m := copy_up m dst src n in Ret (m, dst)
  else if src <? dst then
    let! m := copy_down m (dst + Z.of_nat n) (src + Z.of_nat n) n in Ret (m, dst)
  else Ret (m, dst).

(** [while (( *dst++ = *src++)) ;] *)
Fixpoint strcpy_loop (fuel : nat) (m : memory) (dst src : Z) : outcome memory :=
  match fuel with
  | O => OutOfFuel
  | S fuel =>
      let! x := load m src in
      let! m := store m dst x in
      if x =? 0 then Ret m else strcpy_loop fuel m (dst + 1) (src + 1)
  end.

(** Every step reads one more mapped address, so the number of these is fuel
    enough. *)
Definition Strcpy (m : memory) (dst src : Z) : outcome (memory * Z) :=
  let! m := strcpy_loop (S (size m)) m dst src in Ret (m, dst).

(** ** Specification *)

(** [m'] is [m] with the [n] bytes at [src], as [m] has them, at [dst]. *)
Definition copied (m m' : memory) (dst src : Z) (n : nat) : Prop :=
  ∀ a, m' !! a = if bool_decide (dst ≤ a < dst + Z.of_nat n) then m !! (a - dst + src) else m !! a.

Definition mapped (m : memory) (p : Z) (n : nat) : Prop :=
  ∀ a, p ≤ a < p + Z.of_nat n → is_Some (m !! a).

(** * Proofs *)

Lemma copy_byte_returns m to from x :
  m !! from = Some x → is_Some (m !! to) → copy_byte m to from = Ret (<[to := x]> m).
Proof. intros Hx [y Hy]. unfold copy_byte, store, load. rewrite Hx. simpl. by rewrite Hy. Qed.

Lemma mapped_insert m a x p n : mapped m p n → mapped (<[a := x]> m) p n.
Proof.
  intros Hm b Hb. destruct (decide (a = b)) as [-> |]; [rewrite lookup_insert_eq; eauto |].
  rewrite lookup_insert_ne by done. by apply Hm.
Qed.

Lemma mapped_sub m p n q k :
  mapped m p n → p ≤ q → q + Z.of_nat k ≤ p + Z.of_nat n → mapped m q k.
Proof. intros Hm H1 H2 a Ha. apply Hm. lia. Qed.

(** Copying upwards is right unless the destination lies inside the source. *)
Lemma copy_up_spec m dst src n :
  mapped m dst n → mapped m src n → dst ≤ src ∨ src + Z.of_nat n ≤ dst →
  ∃ m', copy_up m dst src n = Ret m' ∧ copied m m' dst src n.
Proof.
  revert m dst src. induction n as [| n IH]; intros m dst src Hd Hs Hov.
  { exists m. split; [done |]. intros a. rewrite bool_decide_eq_false_2 by lia. done. }
  cbn [copy_up]. destruct (Hs src) as [x Hx]; [lia |].
  rewrite (copy_byte_returns _ _ _ x) by (done || apply Hd; lia). cbn [obind].
  destruct (IH (<[dst := x]> m) (dst + 1) (src + 1)) as (m' & -> & Hm').
  - apply mapped_insert. eapply mapped_sub; [exact Hd | lia | lia].
  - apply mapped_insert. eapply mapped_sub; [exact Hs | lia | lia].
  - lia.
  - exists m'. split; [done |]. intros a. rewrite (Hm' a).
    repeat case_bool_decide; rewrite ?lookup_insert_ne by lia; try lia.
    + f_equal. lia.
    + assert (a = dst) as -> by lia. rewrite lookup_insert_eq, <-Hx. f_equal. lia.
    + done.
Qed.

(** Copying downwards is right unless the source lies inside the destination. *)
Lemma copy_down_spec m dst src n :
  mapped m dst n → mapped m src n → src ≤ dst ∨ dst + Z.of_nat n ≤ src →
  ∃ m', copy_down m (dst + Z.of_nat n) (src + Z.of_nat n) n = Ret m' ∧ copied m m' dst src n.
Proof.
  revert m. induction n as [| n IH]; intros m Hd Hs Hov.
  { exists m. split; [done |]. intros a. rewrite bool_decide_eq_false_2 by lia. done. }
  cbn [copy_down]. replace (dst + Z.of_nat (S n) - 1) with (dst + Z.of_nat n) by lia.
  replace (src + Z.of_nat (S n) - 1) with (src + Z.of_nat n) by lia.
  destruct (Hs (src + Z.of_nat n)) as [x Hx]; [lia |].
  rewrite (copy_byte_returns _ _ _ x) by (done || apply Hd; lia). cbn [obind].
  destruct (IH (<[dst + Z.of_nat n := x]> m)) as (m' & -> & Hm').
  - apply mapped_insert. eapply mapped_sub; [exact Hd | lia | lia].
  - apply mapped_insert. eapply mapped_sub; [exact Hs | lia | lia].
  - lia.
  - exists m'. split; [done |]. intros a. rewrite (Hm' a).
    repeat case_bool_decide; rewrite ?lookup_insert_ne by lia; try lia; try done.
    assert (a = dst + Z.of_nat n) as -> by lia. rewrite lookup_insert_eq, <-Hx. f_equal. lia.
Qed.

(** The unrolled loop is the byte loop. *)
Lemma copy_up_add m to from k n :
  copy_up m to from (k + n) =
  let! m := copy_up m to from k in copy_up m (to + Z.of_nat k) (from + Z.of_nat k) n.
Proof.
  revert m to from. induction k as [| k IH]; intros m to from.
  { simpl. by rewrite !Z.add_0_r. }
  cbn [Nat.add copy_up]. destruct (copy_byte m to from); [| done..]. cbn [obind]. rewrite IH.
  by replace (to + 1 + Z.of_nat k) with (to + Z.of_nat (S k)) by lia;
    replace (from + 1 + Z.of_nat k) with (from + Z.of_nat (S k)) by lia.
Qed.

Lemma copy_eights_up fuel m to from n :
  (n < fuel)%nat →
  (let! (m, to, from, n) := copy_eights fuel m to from n in copy_up m to from n)
  = copy_up m to from n.
Proof.
  revert m to from n. induction fuel as [| fuel IH]; intros m to from n Hf; [lia |].
  cbn [copy_eights]. destruct (Nat.leb_spec 8 n) as [Hle |]; [| done].
  pose proof (copy_up_add m to from 8 (n - 8)) as Hadd.
  replace (8 + (n - 8))%nat with n in Hadd by lia. rewrite Hadd. cbn [copy_up].
  rewrite !Z.add_0_r, <-!Z.add_assoc. cbn [Z.add Pos.add Pos.succ].
  repeat (destruct (copy_byte _ _ _) as [? | | | |]; [| done..]; cbn [obind]).
  rewrite IH by lia. done.
Qed.

(** ** Strings *)

(** The bytes [s], none of them NUL, then a NUL, at [p]. *)
Definition c_string (m : memory) (p : Z) (s : list Z) : Prop :=
  Forall (λ x, x ≠ 0) s ∧ (∀ i x, (s ++ [0]) !! i = Some x → m !! (p + Z.of_nat i) = Some x).

Lemma c_string_cons m p x s :
  c_string m p (x :: s) → x ≠ 0 ∧ m !! p = Some x ∧ c_string m (p + 1) s.
Proof.
  intros [[Hx Hs]%Forall_cons Hm]. split_and!; [done | |].
  - rewrite <-(Hm 0%nat x eq_refl). f_equal. lia.
  - split; [done |]. intros i y Hi. rewrite <-(Hm (S i) y Hi). f_equal. lia.
Qed.

Lemma c_string_mapped m p s : c_string m p s → mapped m p (S (length s)).
Proof.
  intros [_ Hm] a Ha. destruct (lookup_lt_is_Some_2 (s ++ [0]) (Z.to_nat (a - p))) as [x Hx].
  { rewrite length_app. simpl. lia. }
  exists x. rewrite <-(Hm _ _ Hx). f_equal. lia.
Qed.

Lemma c_string_insert m p s a x :
  c_string m p s → a < p ∨ p + zlen s < a → c_string (<[a := x]> m) p s.
Proof.
  intros [Hs Hm] Ha. split; [done |]. intros i y Hi.
  pose proof (lookup_lt_Some _ _ _ Hi) as Hlt. rewrite length_app in Hlt. simpl in Hlt.
  rewrite lookup_insert_ne by lia. by apply Hm.
Qed.

(** [strcpy] copies the bytes up to and with the NUL. *)
Lemma strcpy_loop_up fuel m dst src s :
  c_string m src s → mapped m dst (S (length s)) → dst ≤ src ∨ src + zlen s < dst →
  (length s < fuel)%nat →
  strcpy_loop fuel m dst src = copy_up m dst src (S (length s)).
Proof.
  revert fuel m dst src. induction s as [| x s IH]; intros fuel m dst src Hs Hd Hov Hf;
    (destruct fuel as [| fuel]; [lia |]); cbn [strcpy_loop length].
  - destruct Hs as [_ Hm]. specialize (Hm 0%nat 0 eq_refl). rewrite Z.add_0_r in Hm.
    cbn [copy_up]. unfold copy_byte, load. rewrite Hm. cbn [obind]. by destruct (store m dst 0).
  - apply c_string_cons in Hs as (Hx & Hsrc & Hs). cbn [length] in *.
    change (copy_up m dst src (S (S (length s)))) with
      (let! m := copy_byte m dst src in copy_up m (dst + 1) (src + 1) (S (length s))).
    rewrite (copy_byte_returns _ _ _ _ Hsrc) by (apply Hd; lia).
    unfold load, store. rewrite Hsrc. cbn [obind]. unfold load.
    destruct (Hd dst) as [y ->]; [lia |]. cbn [obind]. rewrite (proj2 (Z.eqb_neq _ _)) by done.
    apply IH; [| | lia | lia].
    + apply c_string_insert; [done | lia].
    + apply mapped_insert. eapply mapped_sub; [exact Hd | lia | lia].
Qed.

Lemma mapped_size m p n : mapped m p n → (n ≤ base.size m)%nat.
Proof.
  intros Hm. set (X := list_to_set (seqZ p (Z.of_nat n)) : gset Z).
  assert (X ⊆ dom m) as Hsub.
  { intros a Ha. apply elem_of_list_to_set, elem_of_seqZ in Ha.
    apply elem_of_dom. apply Hm. lia. }
  apply subseteq_size in Hsub. unfold X in Hsub.
  rewrite size_list_to_set in Hsub by apply NoDup_seqZ. rewrite length_seqZ, size_dom in Hsub. lia.
Qed.

(** * Properties *)

(** [Memmove] of mapped, non-null ranges returns its destination and leaves
    there the bytes the source had before the call, however the two ranges
    overlap; every other byte is unchanged. *)
Theorem Memmove_correct m dst src n :
  dst ≠ 0 → src ≠ 0 → mapped m dst n → mapped m src n →
  ∃ m', Memmove m dst src n = Ret (m', dst) ∧ copied m m' dst src n.
Proof.
  intros Hd0 Hs0 Hd Hs. unfold Memmove.
  rewrite (proj2 (Z.eqb_neq src 0)), (proj2 (Z.eqb_neq dst 0)) by done. cbn [orb].
  destruct (Nat.eqb_spec n 0) as [-> | Hn].
  { exists m. split; [done |]. intros a. by rewrite bool_decide_eq_false_2 by lia. }
  destruct (Z.ltb_spec dst src).
  - destruct (copy_up_spec m dst src n Hd Hs) as (m' & -> & ?); [lia |]. by exists m'.
  - destruct (Z.ltb_spec src dst).
    + destruct (copy_down_spec m dst src n Hd Hs) as (m' & -> & ?); [lia |]. by exists m'.
    + assert (dst = src) as -> by lia. exists m. split; [done |]. intros a.
      case_bool_decide; [| done]. f_equal. lia.
Qed.

(** C39: the unrolled [Memcpy] is the byte-by-byte copy on every input, and
    copies correctly whenever the destination does not start inside the source. *)
Theorem Memcpy_correct m dst src n :
  (Memcpy m dst src n = let! m' := copy_up m dst src n in Ret (m', dst)) ∧
  (mapped m dst n → mapped m src n → dst ≤ src ∨ src + Z.of_nat n ≤ dst →
    ∃ m', Memcpy m dst src n = Ret (m', dst) ∧ copied m m' dst src n).
Proof.
  assert (Memcpy m dst src n = let! m' := copy_up m dst src n in Ret (m', dst)) as Heq.
  { rewrite <-(copy_eights_up (S n)) by lia. unfold Memcpy.
    by destruct (copy_eights _ _ _ _ _) as [[[[? ?] ?] ?] | | | |]. }
  split; [done |]. intros Hd Hs Hov. rewrite Heq.
  destruct (copy_up_spec m dst src n Hd Hs Hov) as (m' & -> & ?). by exists m'.
Qed.

(** [Strcpy] terminates on every NUL-terminated source and copies the string
    with its NUL, nothing more, to a destination that has room for it and does
    not start inside it. *)
Theorem Strcpy_correct m dst src s :
  c_string m src s → mapped m dst (S (length s)) → dst ≤ src ∨ src + zlen s < dst →
  ∃ m', Strcpy m dst src = Ret (m', dst) ∧ copied m m' dst src (S (length s)) ∧ c_string m' dst s.
Proof.
  intros Hs Hd Hov. pose proof (c_string_mapped _ _ _ Hs) as Hms. unfold Strcpy.
  rewrite (strcpy_loop_up _ _ _ _ s) by (done || (pose proof (mapped_size _ _ _ Hms); lia)).
  destruct (copy_up_spec m dst src (S (length s)) Hd Hms) as (m' & -> & Hm'); [lia |].
  exists m'. split_and!; [done | done |]. destruct Hs as [Hnz Hs]. split; [done |].
  intros i x Hi. rewrite (Hm' _). pose proof (lookup_lt_Some _ _ _ Hi) as Hlt.
  rewrite length_app in Hlt. simpl in Hlt. rewrite bool_decide_eq_true_2 by lia.
  rewrite <-(Hs _ _ Hi). f_equal. lia.
Qed.

(** ** Concrete memory *)

Module Demo.
(** 12 bytes from address 100: the values 1 to 8, a NUL, then 10 to 12. *)
Definition memory0 : memory :=
  list_to_map (zip (seqZ 100 12) [1; 2; 3; 4; 5; 6; 7; 8; 0; 10; 11; 12]).

Definition bytes_at (m : memory) (p : Z) (n : nat) : list Z :=
  omap (λ a, m !! a) (seqZ p (Z.of_nat n)).

Example overlap_up :
  (let! (m, _) := Memmove memory0 102 100 9 in Ret (bytes_at m 100 12))
  = Ret [1; 2; 1; 2; 3; 4; 5; 6; 7; 8; 0; 12].
Proof. vm_compute. reflexivity. Qed.

Example overlap_down :
  (let! (m, _) := Memcpy memory0 100 102 10 in Ret (bytes_at m 100 12))
  = Ret [3; 4; 5; 6; 7; 8; 0; 10; 11; 12; 11; 12].
Proof. vm_compute. reflexivity. Qed.

Lemma all_mapped p n : 100 ≤ p → p + Z.of_nat n ≤ 112 → mapped memory0 p n.
Proof.
  intros H1 H2 a Ha.
  assert (a ∈ seqZ 100 12) as Hin by (apply elem_of_seqZ; lia).
  refine (proj1 (Forall_forall (λ a, is_Some (memory0 !! a)) (seqZ 100 12)) _ a Hin).
  by_evaluation.
Qed.

(** The last three bytes of the string, 6, 7, 8 and the NUL. *)
Lemma tail_string : c_string memory0 105 [6; 7; 8].
Proof.
  split; [repeat constructor; done |]. intros i x Hi.
  destruct i as [| [| [| [| i]]]]; simpl in Hi; simplify_eq; vm_compute; done.
Qed.
End Demo.

Lemma Memmove_correct_witness :
  ∃ m', Memmove Demo.memory0 102 100 9 = Ret (m', 102) ∧ copied Demo.memory0 m' 102 100 9.
Proof.
  apply (Memmove_correct Demo.memory0 102 100 9); [lia | lia | |]; apply Demo.all_mapped; lia.
Defined.

Lemma Memcpy_correct_witness :
  ∃ m', Memcpy Demo.memory0 100 102 10 = Ret (m', 100) ∧ copied Demo.memory0 m' 100 102 10.
Proof.
  apply (Memcpy_correct Demo.memory0 100 102 10); [| | lia]; apply Demo.all_mapped; lia.
Defined.

Lemma Strcpy_correct_witness :
  ∃ m', Strcpy Demo.memory0 100 105 = Ret (m', 100) ∧ copied Demo.memory0 m' 100 105 4 ∧
    c_string m' 100 [6; 7; 8].
Proof.
  apply (Strcpy_correct Demo.memory0 100 105 [6; 7; 8] Demo.tail_string); [| lia].
  apply Demo.all_mapped; simpl; lia.
Defined.
