(* ===== verification/XorBitant.v ===== *)
(** * XorBitant: the xorshift generator

    Models [src/include/fiah/utils/XorBitant.hh] on 64-bit words: [x << 13]
    drops the bits shifted out, the product with the multiplier wraps, and the
    result is its low 32 bits. *)

From stdpp Require Import base tactics numbers list.
From Stdlib Require Import ZArith Lia.
From S2P Require Import Prelude.
#[local] Open Scope Z_scope.
#[local] Open Scope fiah_scope.

Definition MAGIC_MULTIPLIER : Z := 0x9E3779B97F4A7C15.
Definition MAGIC_SEED : Z := 0xDEADBEEFBABECAFE.

Record XorBitant32 : Type := MkXorBitant32 { m_state : Z }.

Definition new_XorBitant32 (seed : Z) : XorBitant32 := MkXorBitant32 seed.

Definition min : Z := 0.
Definition max : Z := 2 ^ 32 - 1.

(** [x ^= x << s] and [x ^= x >> s] *)
Definition xor_shl (s x : Z) : Z := Z.lxor x (x <<u64 s).
Definition xor_shr (s x : Z) : Z := Z.lxor x (Z.shiftr x s).

(** [operator()]: the number and the generator's next state. *)
Definition generate (g : XorBitant32) : Z * XorBitant32 :=
  let x := m_state g in
  let x := xor_shl 13 x in
  let x := xor_shr 7 x in
  let x := xor_shl 5 x in
  (u32 (x *u64 MAGIC_MULTIPLIER), MkXorBitant32 x).

(** The first [n] numbers. *)
Fixpoint generate_n (n : nat) (g : XorBitant32) : list Z * XorBitant32 :=
  match n with
  | O => ([], g)
  | S n => let (r, g) := generate g in let (rs, g) := generate_n n g in (r :: rs, g)
  end.

(** * Proofs *)

Lemma xor_shl_testbit s x i :
  0 ≤ s → 0 ≤ i < 64 → Z.testbit (xor_shl s x) i = xorb (Z.testbit x i) (Z.testbit x (i - s)).
Proof.
  intros Hs Hi. unfold xor_shl. rewrite Z.lxor_spec, u64_testbit, Z.shiftl_spec by lia.
  by rewrite (proj2 (Z.ltb_lt _ _)) by lia.
Qed.

Lemma xor_shr_testbit s x i :
  0 ≤ i → Z.testbit (xor_shr s x) i = xorb (Z.testbit x i) (Z.testbit x (i + s)).
Proof. intros Hi. unfold xor_shr. by rewrite Z.lxor_spec, Z.shiftr_spec. Qed.

(** Words are equal when their 64 bits are. *)
Lemma u64_bits_inj x y :
  in_u64 x → in_u64 y → (∀ i, 0 ≤ i < 64 → Z.testbit x i = Z.testbit y i) → x = y.
Proof.
  intros Hx Hy H. apply Z.bits_inj'. intros i Hi. destruct (decide (i < 64)); [by apply H |].
  by rewrite !in_u64_testbit by (done || lia).
Qed.

Lemma in_u64_lxor x y : in_u64 x → in_u64 y → in_u64 (Z.lxor x y).
Proof.
  intros Hx Hy. cut (Z.lxor x y = u64 (Z.lxor x y)); [intros ->; apply u64_range |].
  apply Z.bits_inj'. intros i Hi. rewrite u64_testbit, Z.lxor_spec.
  destruct (Z.ltb_spec i 64); [done |]. by rewrite !in_u64_testbit by done.
Qed.

Lemma xor_shl_range s x : in_u64 x → in_u64 (xor_shl s x).
Proof. intros Hx. apply in_u64_lxor; [done | apply u64_range]. Qed.

Lemma xor_shr_range s x : 0 ≤ s → in_u64 x → in_u64 (xor_shr s x).
Proof.
  intros Hs Hx. apply in_u64_lxor; [done |]. unfold in_u64 in *.
  rewrite Z.shiftr_div_pow2 by done. assert (0 < 2 ^ s) by (apply Z.pow_pos_nonneg; lia).
  split; [apply Z.div_pos; lia |]. apply Z.div_lt_upper_bound; nia.
Qed.

(** Bit [i] of the result determines bit [i] of the argument, given the lower
    (for a left shift) or the higher bits: from the low end up, and from the
    high end down. *)
Lemma xor_shl_inj s x y :
  0 < s → in_u64 x → in_u64 y → xor_shl s x = xor_shl s y → x = y.
Proof.
  intros Hs Hx Hy Heq. apply u64_bits_inj; [done | done |].
  intros i. induction i as [i IH] using (well_founded_induction (Z.lt_wf 0)). intros Hi.
  pose proof (xor_shl_testbit s x i ltac:(lia) Hi) as Hxi.
  rewrite Heq, (xor_shl_testbit s y i ltac:(lia) Hi) in Hxi.
  assert (Z.testbit x (i - s) = Z.testbit y (i - s)) as Hlow.
  { destruct (decide (i - s < 0)); [by rewrite !Z.testbit_neg_r | apply IH; lia]. }
  rewrite Hlow in Hxi. by destruct (Z.testbit x i), (Z.testbit y i), (Z.testbit y (i - s)).
Qed.

Lemma xor_shr_inj s x y :
  0 < s → in_u64 x → in_u64 y → xor_shr s x = xor_shr s y → x = y.
Proof.
  intros Hs Hx Hy Heq. apply u64_bits_inj; [done | done |].
  enough (∀ j, 0 ≤ j → ∀ i, i = 63 - j → 0 ≤ i → Z.testbit x i = Z.testbit y i) as H
    by (intros i Hi; apply (H (63 - i)); lia).
  intros j. induction j as [j IH] using (well_founded_induction (Z.lt_wf 0)). intros Hj i -> Hi.
  pose proof (xor_shr_testbit s x _ Hi) as Hxi. rewrite Heq, (xor_shr_testbit s y _ Hi) in Hxi.
  assert (Z.testbit x (63 - j + s) = Z.testbit y (63 - j + s)) as Hhigh.
  { destruct (decide (64 ≤ 63 - j + s)); [by rewrite !in_u64_testbit by done |].
    apply (IH (j - s)); lia. }
  rewrite Hhigh in Hxi. by destruct (Z.testbit x (63 - j)), (Z.testbit y (63 - j)),
    (Z.testbit y (63 - j + s)).
Qed.

(** The state after one number. *)
Definition next (x : Z) : Z := xor_shl 5 (xor_shr 7 (xor_shl 13 x)).

Lemma generate_next g : generate g =
  (u32 (next (m_state g) *u64 MAGIC_MULTIPLIER), MkXorBitant32 (next (m_state g))).
Proof. done. Qed.

Lemma next_range x : in_u64 x → in_u64 (next x).
Proof. intros Hx. by apply xor_shl_range, xor_shr_range, xor_shl_range. Qed.

Lemma next_inj x y : in_u64 x → in_u64 y → next x = next y → x = y.
Proof.
  intros Hx Hy H. apply xor_shl_inj in H; [| lia | by apply xor_shr_range, xor_shl_range..].
  apply xor_shr_inj in H; [| lia | by apply xor_shl_range..].
  by apply xor_shl_inj in H.
Qed.

Lemma generate_n_state n g : m_state (generate_n n g).2 = Nat.iter n next (m_state g).
Proof.
  revert g. induction n as [| n IH]; intros g; [done |]. cbn [generate_n]. rewrite generate_next.
  specialize (IH (MkXorBitant32 (next (m_state g)))). destruct (generate_n n _) as [rs g'].
  cbn [snd m_state] in *. by rewrite IH, Nat.iter_succ_r.
Qed.

Lemma iter_next_range n x : in_u64 x → in_u64 (Nat.iter n next x).
Proof. intros Hx. induction n; simpl; [done | by apply next_range]. Qed.

Lemma iter_next_inj n x y :
  in_u64 x → in_u64 y → Nat.iter n next x = Nat.iter n next y → x = y.
Proof.
  intros Hx Hy. induction n as [| n IH]; simpl; [done |]. intros H.
  apply next_inj in H; [auto | by apply iter_next_range..].
Qed.

(** * Properties *)

(** Every number is in [[min(), max()]] and every state a 64-bit word. *)
Theorem XorBitant_range n g :
  in_u64 (m_state g) →
  length (generate_n n g).1 = n ∧ Forall (λ r, min ≤ r ≤ max) (generate_n n g).1 ∧
  in_u64 (m_state (generate_n n g).2).
Proof.
  intros Hg. rewrite generate_n_state. split_and!; [| | by apply iter_next_range].
  - revert g Hg. induction n as [| n IH]; intros g Hg; [done |]. cbn [generate_n].
    rewrite generate_next. specialize (IH (MkXorBitant32 (next (m_state g))) (next_range _ Hg)).
    destruct (generate_n n _). simpl in *. by rewrite IH.
  - revert g Hg. induction n as [| n IH]; intros g Hg; [constructor |]. cbn [generate_n].
    rewrite generate_next. specialize (IH (MkXorBitant32 (next (m_state g))) (next_range _ Hg)).
    destruct (generate_n n _). cbn [fst] in *. constructor; [| done].
    pose proof (u32_range (next (m_state g) *u64 MAGIC_MULTIPLIER)). unfold min, max. lia.
Qed.

(** The generator permutes its states.  Generators with different states
    never meet; the first state to occur again is the one it started from; and
    0, which no other state reaches, is left by no step: a zero seed yields
    zeros for ever. *)
Theorem XorBitant_permutes n g g' :
  in_u64 (m_state g) → in_u64 (m_state g') →
  (m_state (generate_n n g).2 = m_state (generate_n n g').2 → m_state g = m_state g') ∧
  (∀ i, m_state (generate_n i g).2 = m_state (generate_n (i + n) g).2 →
    m_state (generate_n n g).2 = m_state g) ∧
  (m_state (generate_n n g).2 = 0 ↔ m_state g = 0) ∧
  (m_state g = 0 → Forall (λ r, r = 0) (generate_n n g).1).
Proof.
  intros Hg Hg'. assert (∀ k, Nat.iter k next 0 = 0) as H0.
  { induction k as [| k IH]; [done |]. simpl. by rewrite IH. }
  split_and!.
  - rewrite !generate_n_state. by apply iter_next_inj.
  - intros i. rewrite !generate_n_state, Nat.iter_add. intros H.
    apply iter_next_inj in H; [done | done | by apply iter_next_range].
  - rewrite generate_n_state. split; [| intros ->; apply H0].
    intros H. apply (iter_next_inj n); [done | unfold in_u64; lia |]. by rewrite H0.
  - clear Hg. revert g. induction n as [| n IH]; intros g Hz; [constructor |]. cbn [generate_n].
    rewrite generate_next, Hz.
    specialize (IH (MkXorBitant32 (next 0)) eq_refl). destruct (generate_n n _).
    by constructor.
Qed.

(** ** The default generator *)

Module Demo.
Definition g : XorBitant32 := new_XorBitant32 MAGIC_SEED.

Lemma g_ok : in_u64 (m_state g).
Proof. unfold in_u64, g, MAGIC_SEED. simpl. lia. Qed.

Lemma zero_ok : in_u64 (m_state (new_XorBitant32 0)).
Proof. unfold in_u64. simpl. lia. Qed.
End Demo.

Lemma XorBitant_range_witness :
  length (generate_n 3 Demo.g).1 = 3%nat ∧ Forall (λ r, min ≤ r ≤ max) (generate_n 3 Demo.g).1 ∧
  in_u64 (m_state (generate_n 3 Demo.g).2).
Proof. exact (XorBitant_range 3 _ Demo.g_ok). Defined.

Lemma XorBitant_permutes_witness :
  m_state (generate_n 3 Demo.g).2 ≠ m_state (generate_n 3 (new_XorBitant32 0)).2 ∧
  Forall (λ r, r = 0) (generate_n 3 (new_XorBitant32 0)).1.
Proof.
  split.
  - intros H. by apply (XorBitant_permutes 3 _ _ Demo.g_ok Demo.zero_ok) in H.
  - by apply (XorBitant_permutes 3 _ _ Demo.zero_ok Demo.g_ok).
Defined.
