(* ===== verification/SpinMutex.v ===== *)
(** * SpinMutex: the spinning mutex

    Models [src/include/fiah/thread/SpinMutex.hpp].  Each atomic operation on
    the flag is one step of a thread, under sequential consistency; [_mm_pause]
    does nothing to the state, [yield] is a step of its own.  A thread holds the
    mutex from the return of [lock], or of a [try_lock] whose result the C++
    mutex requirements read as success ([true]), to its call of [unlock]. *)

From stdpp Require Import base tactics numbers list option gmap.
From Stdlib Require Import ZArith Lia.
From S2P Require Import Prelude.
#[local] Open Scope Z_scope.
#[local] Open Scope fiah_scope.

(** Where a thread is; a thread with no entry is outside. *)
Inductive pc : Type :=
| L_fast                (* lock: the first test_and_set *)
| L_test (i : Z)        (* lock: flag.test, [i]-th iteration of the inner loop *)
| L_set (i : Z)         (* lock: the test_and_set after a clear test *)
| L_yield               (* lock: std::this_thread::yield *)
| T_set                 (* try_lock: its test_and_set *)
| Holding
| U_clear.              (* unlock: flag.clear *)

Record Mutex : Type := MkMutex {
  flag : bool;
  threads : gmap nat pc
}.

Definition init : Mutex := MkMutex false ∅.

Inductive event : Type :=
| Ev_locked (t : nat)
| Ev_try_lock (t : nat) (result : bool)
| Ev_unlocked (t : nat).

Definition goto (m : Mutex) (t : nat) (p : pc) : Mutex :=
  MkMutex (flag m) (<[t := p]> (threads m)).
Definition leave (m : Mutex) (t : nat) : Mutex := MkMutex (flag m) (delete t (threads m)).

(** [flag.test_and_set()]: the old value, and the flag set. *)
Definition test_and_set (m : Mutex) : bool * Mutex := (flag m, MkMutex true (threads m)).

(** [++i] and the loop test; after 64 iterations, the yield. *)
Definition next_spin (i : Z) : pc := if i + 1 <? 64 then L_test (i + 1) else L_yield.

(** One step of the call thread [t] is in. *)
Definition run_step (m : Mutex) (t : nat) : Mutex * option event :=
  match threads m !! t with
  | None | Some Holding => (m, None)
  | Some L_fast =>
      let (old, m) := test_and_set m in
      if negb old then (goto m t Holding, Some (Ev_locked t)) else (goto m t (L_test 0), None)
  | Some (L_test i) =>
      if negb (flag m) then (goto m t (L_set i), None) else (goto m t (next_spin i), None)
  | Some (L_set i) =>
      let (old, m) := test_and_set m in
      if negb old then (goto m t Holding, Some (Ev_locked t)) else (goto m t (next_spin i), None)
  | Some L_yield => (goto m t (L_test 0), None)
  | Some T_set =>
      let (result, m) := test_and_set m in
      (if result then goto m t Holding else leave m t, Some (Ev_try_lock t result))
  | Some U_clear =>
      (leave (MkMutex false (threads m)) t, Some (Ev_unlocked t))
  end.

Inductive action : Type := CallLock (t : nat) | CallTryLock (t : nat) | CallUnlock (t : nat) | Run (t : nat).

(** A call begins where the client may make it; elsewhere nothing happens. *)
Definition exec (m : Mutex) (a : action) : outcome (Mutex * option event) :=
  match a with
  | CallLock t => Ret (match threads m !! t with None => goto m t L_fast | _ => m end, None)
  | CallTryLock t => Ret (match threads m !! t with None => goto m t T_set | _ => m end, None)
  | CallUnlock t => Ret (match threads m !! t with Some Holding => goto m t U_clear | _ => m end, None)
  | Run t => Ret (run_step m t)
  end.

Abbreviation step := (machine_step exec).

Definition is_try_lock (a : action) : bool := match a with CallTryLock _ => true | _ => false end.

(** * Proofs *)

(** The thread has the flag: it holds the mutex or is about to clear it. *)
Definition owns_flag (p : pc) : bool := match p with Holding | U_clear => true | _ => false end.

Definition wf (p : pc) : Prop :=
  match p with L_test i | L_set i => 0 ≤ i < 64 | T_set => False | _ => True end.

(** Without [try_lock]: the flag is set exactly when one thread owns it. *)
Record inv (m : Mutex) : Prop := Inv {
  inv_wf : map_Forall (λ _, wf) (threads m);
  inv_flag : flag m = true ↔ ∃ t p, threads m !! t = Some p ∧ owns_flag p = true;
  inv_unique : ∀ t t' p p', threads m !! t = Some p → threads m !! t' = Some p' →
    owns_flag p = true → owns_flag p' = true → t = t'
}.

Lemma spin_inv_init : inv init.
Proof.
  split; simpl.
  - apply map_Forall_empty.
  - split; [done |]. intros (t & p & Hp & _). by rewrite lookup_empty in Hp.
  - intros t t' p p' Hp. by rewrite lookup_empty in Hp.
Qed.

(** A move of one thread between points where it does not own the flag. *)
Lemma inv_goto m t p :
  inv m → wf p → owns_flag p = false → (∀ o, threads m !! t = Some o → owns_flag o = false) →
  inv (goto m t p).
Proof.
  intros [Hwf Hf Hu] Hp Ho Hold. split; simpl.
  - by apply map_Forall_insert_2.
  - rewrite Hf. split; intros (t' & p' & Hl & Hown).
    + exists t', p'. split; [| done]. rewrite lookup_insert_ne; [done |]. intros <-.
      by rewrite (Hold _ Hl) in Hown.
    + apply lookup_insert_Some in Hl as [[<- <-] | [_ Hl]]; [congruence | eauto].
  - intros t1 t2 p1 p2 [[<- <-] | [_ H1]]%lookup_insert_Some
      [[<- <-] | [_ H2]]%lookup_insert_Some ? ?; [congruence.. | eauto].
Qed.

(** A thread finds the flag clear and sets it. *)
Lemma spin_inv_acquire m t :
  inv m → flag m = false → inv (goto (MkMutex true (threads m)) t Holding).
Proof.
  intros [Hwf Hf Hu] Hflag. assert (∀ t p, threads m !! t = Some p → owns_flag p = false) as Hno.
  { intros t' p Hp. apply not_true_iff_false. intros Ho.
    assert (flag m = true) by (apply Hf; eauto). congruence. }
  split; simpl.
  - by apply map_Forall_insert_2.
  - split; [| done]. intros _. exists t, Holding. by rewrite lookup_insert_eq.
  - intros t1 t2 p1 p2 [[<- <-] | [_ H1]]%lookup_insert_Some
      [[<- <-] | [_ H2]]%lookup_insert_Some O1 O2; [done | | |];
      [rewrite (Hno _ _ H2) in O2 | rewrite (Hno _ _ H1) in O1 | rewrite (Hno _ _ H1) in O1]; done.
Qed.

Lemma inv_unlock_call m t :
  inv m → threads m !! t = Some Holding → inv (goto m t U_clear).
Proof.
  intros [Hwf Hf Hu] Ht. split; simpl.
  - by apply map_Forall_insert_2.
  - rewrite Hf. split; intros (t' & p' & Hl & Hown).
    + exists t, U_clear. by rewrite lookup_insert_eq.
    + exists t, Holding. done.
  - intros t1 t2 p1 p2 [[<- <-] | [_ H1]]%lookup_insert_Some
      [[<- <-] | [_ H2]]%lookup_insert_Some O1 O2; eauto.
Qed.

Lemma inv_release m t :
  inv m → threads m !! t = Some U_clear → inv (leave (MkMutex false (threads m)) t).
Proof.
  intros [Hwf Hf Hu] Ht. assert (∀ t' p, threads m !! t' = Some p → t' ≠ t → owns_flag p = false) as Hno.
  { intros t' p Hp Hne. apply not_true_iff_false. intros Ho. apply Hne. by eapply Hu. }
  split; simpl.
  - by apply map_Forall_delete.
  - split; [done |]. intros (t' & p & [Hne Hp]%lookup_delete_Some & Ho).
    by rewrite (Hno _ _ Hp) in Ho.
  - intros t1 t2 p1 p2 [Hne Hp]%lookup_delete_Some _ Ho. by rewrite (Hno _ _ Hp) in Ho.
Qed.

Lemma next_spin_ok i : 0 ≤ i < 64 → wf (next_spin i) ∧ owns_flag (next_spin i) = false.
Proof. intros Hi. unfold next_spin. destruct (Z.ltb_spec (i + 1) 64); simpl; split; (done || lia). Qed.

(** [test_and_set] on a set flag changes nothing. *)
Lemma set_again m : flag m = true → MkMutex true (threads m) = m.
Proof. intros <-. by destruct m. Qed.

Lemma inv_run m t : inv m → inv (run_step m t).1.
Proof.
  intros Hinv. unfold run_step, test_and_set.
  destruct (threads m !! t) as [p |] eqn:Ht; [| done].
  pose proof (map_Forall_lookup_1 _ _ _ _ (inv_wf m Hinv) Ht) as Hwf.
  assert (∀ p', wf p' ∧ owns_flag p' = false → owns_flag p = false → inv (goto m t p')) as Hgoto.
  { intros p' [? ?] Ho. apply inv_goto; [done.. |]. intros o. rewrite Ht. by intros [= <-]. }
  destruct p as [| i | i | | | |]; simpl in Hwf; [| | | | done | done |].
  - destruct (flag m) eqn:Hf; simpl; [rewrite set_again by done; apply Hgoto; simpl; split_and?; (done || lia) |].
    by apply spin_inv_acquire.
  - destruct (flag m); simpl; apply Hgoto; [by apply next_spin_ok | done | simpl; done | done].
  - destruct (flag m) eqn:Hf; simpl; [rewrite set_again by done; apply Hgoto; [by apply next_spin_ok | done] |].
    by apply spin_inv_acquire.
  - simpl. apply Hgoto; [simpl; split_and?; (done || lia) | done].
  - simpl. by apply inv_release.
Qed.

Lemma inv_exec m a e m' : inv m → is_try_lock a = false → exec m a = Ret (m', e) → inv m'.
Proof.
  intros Hinv Ha Hexec. destruct a as [t | t | t | t]; simpl in *; [| done | |].
  - simplify_eq. destruct (threads m !! t) as [p |] eqn:Ht; [done |].
    apply inv_goto; [done.. |]. by rewrite Ht.
  - simplify_eq. destruct (threads m !! t) as [[] |] eqn:Ht; try done. by apply inv_unlock_call.
  - injection Hexec as Heq. pose proof (inv_run m t Hinv) as Hr. by rewrite Heq in Hr.
Qed.

Lemma run_inv tr m :
  run step init tr m → Forall (λ e, is_try_lock e.1 = false) tr → inv m.
Proof.
  intros Hrun. refine (run_invariant step
    (λ tr m, Forall (λ e, is_try_lock e.1 = false) tr → inv m) init (λ _, spin_inv_init) _ tr m Hrun).
  clear. intros tr m [a e] m' IH Hstep [Htr [Ha _]%Forall_cons]%Forall_app.
  by eapply inv_exec; [apply IH | |].
Qed.

(** How many of its own steps a thread in [lock] needs once the flag is clear. *)
Definition lock_steps (p : pc) : nat :=
  match p with L_fast | L_set _ => 1 | L_test _ => 2 | L_yield => 3 | _ => 0 end.

(** * Properties *)

(** Mutual exclusion.  However threads calling [lock] and [unlock] are
    interleaved, at most one holds the mutex, and the flag is set exactly while
    one holds it or is releasing it. *)
Theorem lock_mutual_exclusion tr m t t' :
  run step init tr m → Forall (λ e, is_try_lock e.1 = false) tr →
  (threads m !! t = Some Holding → threads m !! t' = Some Holding → t = t') ∧
  (flag m = true ↔ ∃ u, threads m !! u = Some Holding ∨ threads m !! u = Some U_clear).
Proof.
  intros Hrun Htr. destruct (run_inv _ _ Hrun Htr) as [_ Hf Hu]. split.
  - intros H1 H2. by eapply Hu.
  - rewrite Hf. split.
    + intros (u & p & Hp & Ho). exists u. destruct p; auto; done.
    + intros (u & [Hu' | Hu']); eauto.
Qed.

(** No thread is stuck in [lock].  Wherever in its spinning a thread is, once
    the flag is clear it returns from [lock] within three steps of its own,
    unless another thread takes the mutex first; and a step of [lock] never
    clears the flag or moves another thread. *)
Theorem lock_acquires_when_free m t p :
  threads m !! t = Some p → (0 < lock_steps p)%nat → flag m = false →
  ∃ m', Nat.iter (lock_steps p) (λ m, (run_step m t).1) m = m' ∧
    threads m' !! t = Some Holding ∧ flag m' = true ∧ delete t (threads m') = delete t (threads m).
Proof.
  intros Ht Hp Hf. assert (∀ m i, threads m !! t = Some (L_set i) → flag m = false →
    (run_step m t).1 = goto (MkMutex true (threads m)) t Holding) as Hset.
  { intros m0 i H1 H2. unfold run_step, test_and_set. by rewrite H1, H2. }
  assert (∀ m i, threads m !! t = Some (L_test i) → flag m = false →
    (run_step m t).1 = goto m t (L_set i)) as Htest.
  { intros m0 i H1 H2. unfold run_step. by rewrite H1, H2. }
  eexists. split; [reflexivity |].
  destruct p as [| i | i | | | |]; simpl in *; try lia.
  - unfold run_step, test_and_set. rewrite Ht, Hf. simpl.
    by rewrite lookup_insert_eq, delete_insert_eq.
  - rewrite (Htest m i), (Hset _ i) by (done || apply lookup_insert_eq). simpl.
    by rewrite lookup_insert_eq, !delete_insert_eq.
  - rewrite (Hset _ i) by done. simpl. by rewrite lookup_insert_eq, delete_insert_eq.
  - assert ((run_step m t).1 = goto m t (L_test 0)) as ->.
    { unfold run_step. by rewrite Ht. }
    rewrite (Htest (goto m t (L_test 0)) 0) by (done || apply lookup_insert_eq).
    rewrite (Hset _ 0) by (done || apply lookup_insert_eq). simpl.
    by rewrite lookup_insert_eq, !delete_insert_eq.
Qed.

(** [try_lock] reports the opposite of what it did.  On a free mutex it
    takes the flag and answers [false], so that nobody ever releases it; on a
    held mutex it answers [true], and two threads hold it. *)
Theorem try_lock_inverted t t' m :
  t ≠ t' → flag m = false → threads m = ∅ →
  (∃ tr m', run (machine_step exec) m tr m' ∧ omap snd tr = [Ev_try_lock t false] ∧
     flag m' = true ∧ threads m' = ∅) ∧
  (∃ tr m', run (machine_step exec) m tr m' ∧ omap snd tr = [Ev_locked t; Ev_try_lock t' true] ∧
     threads m' !! t = Some Holding ∧ threads m' !! t' = Some Holding).
Proof.
  destruct m as [f ts]. simpl. intros Hne -> ->. split.
  - destruct (run_schedule_run exec [CallTryLock t; Run t] (MkMutex false ∅)
      (MkMutex true (delete t (<[t := T_set]> ∅))) [Ev_try_lock t false]) as (tr & Hrun & Htr & _).
    { simpl. unfold run_step. rewrite lookup_empty. simpl. by rewrite lookup_insert_eq. }
    eexists tr, _. split_and!; [exact Hrun | done | done |]. simpl. by rewrite delete_insert_id.
  - destruct (run_schedule_run exec [CallLock t; Run t; CallTryLock t'; Run t'] (MkMutex false ∅)
      (MkMutex true (<[t' := Holding]> (<[t' := T_set]> (<[t := Holding]> (<[t := L_fast]> ∅)))))
      [Ev_locked t; Ev_try_lock t' true]) as (tr & Hrun & Htr & _).
    { simpl. unfold run_step. rewrite lookup_empty. simpl. rewrite lookup_insert_eq. simpl.
      rewrite !lookup_insert_ne, lookup_empty by done. simpl. by rewrite lookup_insert_eq. }
    eexists tr, _. split_and!; [exact Hrun | done | |]; simpl.
    + by rewrite !lookup_insert_ne, lookup_insert_eq by done.
    + by rewrite lookup_insert_eq.
Qed.

(** ** Concrete runs *)

Module Demo.
(** Thread 1 locks while thread 2 spins, then hands over. *)
Definition schedule : list action :=
  [CallLock 1; CallLock 2; Run 1; Run 2; Run 2; Run 2; CallUnlock 1; Run 1; Run 2; Run 2].
Definition contended : Mutex := final init (run_schedule exec init (take 6 schedule)).

(** Thread 2 in its yield, the mutex free. *)
Definition yielding : Mutex := MkMutex false {[2%nat := L_yield]}.

Example handed_over :
  (let! (m, es) := run_schedule exec init schedule in Ret (flag m, threads m !! 2%nat, es))
  = Ret (true, Some Holding, [Ev_locked 1; Ev_unlocked 1; Ev_locked 2]).
Proof. vm_compute. reflexivity. Qed.
End Demo.

Lemma lock_mutual_exclusion_witness : ∃ tr,
  run step init tr Demo.contended ∧ threads Demo.contended !! 1%nat = Some Holding ∧
  (threads Demo.contended !! 2%nat = Some Holding → 1%nat = 2%nat).
Proof.
  destruct (run_schedule_run exec (take 6 Demo.schedule) init Demo.contended [Ev_locked 1])
    as (tr & Hrun & _ & Hacts); [vm_compute; reflexivity |].
  exists tr. split; [exact Hrun |]. split; [vm_compute; reflexivity |]. intros H2.
  apply (lock_mutual_exclusion tr Demo.contended 1 2 Hrun); [| vm_compute; reflexivity | exact H2].
  apply (Forall_fmap fst (λ a, is_try_lock a = false)). rewrite Hacts.
  repeat constructor.
Defined.

Lemma lock_acquires_when_free_witness :
  ∃ m', Nat.iter 3 (λ m, (run_step m 2).1) Demo.yielding = m' ∧
    threads m' !! 2%nat = Some Holding ∧ flag m' = true.
Proof.
  destruct (lock_acquires_when_free Demo.yielding 2 L_yield
    ltac:(vm_compute; reflexivity) ltac:(simpl; lia) eq_refl) as (m' & H1 & H2 & H3 & _).
  exists m'. split; [exact H1 | split; [exact H2 | exact H3]].
Defined.

Lemma try_lock_inverted_witness :
  ∃ tr m', run step init tr m' ∧ omap snd tr = [Ev_locked 1; Ev_try_lock 2 true] ∧
    threads m' !! 1%nat = Some Holding ∧ threads m' !! 2%nat = Some Holding.
Proof. apply (try_lock_inverted 1 2 init); done. Defined.
