(* ===== verification/LockWeak.v ===== *)
(** * LockWeak: the memory orders of the spinning mutex

    Models [src/include/fiah/thread/SpinMutex.hpp] over the release/acquire
    memory of [WeakMemory], with the program points of [SpinMutex]: the tests of
    the spinning loop are relaxed and may answer old values.  What the mutex is
    for is in the model too: a thread that holds it may access the data it
    protects, a plain object. *)

From stdpp Require Import base tactics numbers list option gmap.
From Stdlib Require Import ZArith Lia.
From S2P Require Import Prelude SpinMutex WeakMemory.
#[local] Open Scope Z_scope.
#[local] Open Scope fiah_scope.

(** The atomic flag and the protected data. *)
Definition FLAG : nat := 0.
Definition DATA : nat := 0.

(** The orders of [lock] and [unlock]. *)
Record lock_orders : Type := LockOrders { lock_acquires : bool; unlock_order : order }.
Definition mutex_orders : lock_orders := LockOrders true Release.

Section LockWeak.
Context (ords : lock_orders).

Record weak_mutex : Type := WeakMutex { mem : memory; locals : gmap nat pc }.

Definition weak_init : weak_mutex := WeakMutex (init_memory 0) ∅.

Definition weak_goto (q : weak_mutex) (m : memory) (t : nat) (p : pc) : weak_mutex :=
  WeakMutex m (<[t := p]> (locals q)).
Definition weak_leave (q : weak_mutex) (m : memory) (t : nat) : weak_mutex :=
  WeakMutex m (delete t (locals q)).

(** [flag.test_and_set(std::memory_order_acquire)] *)
Definition weak_test_and_set (m : memory) (t : nat) : option (bool * memory) :=
  match rmw (lock_acquires ords) false m t FLAG (λ _, 1) with
  | Some (old, m) => Some (negb (old =? 0), m)
  | None => None
  end.

(** One step of thread [t]; a relaxed test reads message [i]. *)
Definition weak_run_step (q : weak_mutex) (t i : nat) : weak_mutex * option event :=
  match locals q !! t with
  | None | Some Holding => (q, None)
  | Some L_fast =>
      match weak_test_and_set (mem q) t with
      | Some (old, m) =>
          if negb old then (weak_goto q m t Holding, Some (Ev_locked t)) else (weak_goto q m t (L_test 0), None)
      | None => (q, None)
      end
  | Some (L_test n) =>
      match load Relaxed (mem q) t FLAG i with
      | Some (f, m) =>
          if f =? 0 then (weak_goto q m t (L_set n), None) else (weak_goto q m t (next_spin n), None)
      | None => (q, None)
      end
  | Some (L_set n) =>
      match weak_test_and_set (mem q) t with
      | Some (old, m) =>
          if negb old then (weak_goto q m t Holding, Some (Ev_locked t)) else (weak_goto q m t (next_spin n), None)
      | None => (q, None)
      end
  | Some L_yield => (weak_goto q (mem q) t (L_test 0), None)
  | Some T_set =>
      match weak_test_and_set (mem q) t with
      | Some (result, m) =>
          (if result then weak_goto q m t Holding else weak_leave q m t, Some (Ev_try_lock t result))
      | None => (q, None)
      end
  | Some U_clear =>
      (weak_leave q (store (unlock_order ords) (mem q) t FLAG 0) t, Some (Ev_unlocked t))
  end.

Inductive weak_action : Type :=
| WeakCall (a : action)          (* a call begins *)
| WeakRun (t i : nat)
| WeakUse (t : nat).             (* a thread that holds the mutex accesses the data *)

Definition weak_exec (q : weak_mutex) (a : weak_action) : outcome (weak_mutex * option event) :=
  match a with
  | WeakCall (CallLock t) =>
      Ret (match locals q !! t with None => weak_goto q (mem q) t L_fast | _ => q end, None)
  | WeakCall (CallTryLock t) =>
      Ret (match locals q !! t with None => weak_goto q (mem q) t T_set | _ => q end, None)
  | WeakCall (CallUnlock t) =>
      Ret (match locals q !! t with Some Holding => weak_goto q (mem q) t U_clear | _ => q end, None)
  | WeakCall (Run _) => Ret (q, None)
  | WeakRun t i => Ret (weak_run_step q t i)
  | WeakUse t =>
      match locals q !! t with
      | Some Holding => let! m := access (mem q) t DATA in Ret (WeakMutex m (locals q), None)
      | _ => Ret (q, None)
      end
  end.

Definition calls_try_lock (a : weak_action) : bool :=
  match a with WeakCall a => is_try_lock a | _ => false end.
End LockWeak.

(** * Proofs *)

Abbreviation weak_exec_code := (weak_exec mutex_orders).

(** The mutex of [SpinMutex], with the newest value of the flag. *)
Definition newest (q : weak_mutex) (msg : message) : Mutex :=
  MkMutex (negb (msg_value msg =? 0)) (locals q).

(** Who owns the flag knows of every access to the data; while nobody does, the
    newest message does. *)
Record weak_inv_at (q : weak_mutex) (msg : message) : Prop := WeakInv {
  wi_message : newest_message (mem q) FLAG = Some msg;
  wi_mutex : inv (newest q msg);
  wi_seen : ∀ t, (seen (views (mem q) t) FLAG < length (hist (mem q) FLAG))%nat;
  wi_seen_msg : (seen (msg_view msg) FLAG < length (hist (mem q) FLAG))%nat;
  wi_clear : msg_value msg = 0 → covers (msg_view msg) (accesses (mem q)) DATA;
  wi_owner : ∀ t p, locals q !! t = Some p → owns_flag p = true →
    covers (views (mem q) t) (accesses (mem q)) DATA
}.
Definition weak_inv (q : weak_mutex) : Prop := ∃ msg, weak_inv_at q msg.

(** A step that leaves the memory: a thread that does not own the flag goes on. *)
Lemma weak_goto_inv q msg t p :
  weak_inv_at q msg → wf p → owns_flag p = false →
  (∀ o, locals q !! t = Some o → owns_flag o = false) → weak_inv_at (weak_goto q (mem q) t p) msg.
Proof.
  intros [Hmsg Hm Hseen Hsm Hclear Hown] Hp Ho Hold. split; try done.
  - by apply (inv_goto (newest q msg) t p).
  - simpl. intros t' p' [[<- <-] | [_ Hl]]%lookup_insert_Some ?; [congruence | eauto].
Qed.

(** A relaxed load by any thread. *)
Lemma weak_load_inv q msg t i x m :
  weak_inv_at q msg → load Relaxed (mem q) t FLAG i = Some (x, m) →
  weak_inv_at (WeakMutex m (locals q)) msg.
Proof.
  intros [Hmsg Hm Hseen Hsm Hclear Hown] (Hi & msg' & Hmsg' & -> & ->)%load_inv.
  apply lookup_lt_Some in Hmsg'. split; try done.
  - simpl. intros t'. unfold upd at 1. destruct (t' =? t)%nat; [| done]. simpl. by rewrite upd_eq.
  - simpl. intros t' p Hl Ho. specialize (Hown t' p Hl Ho). unfold upd at 1.
    destruct (Nat.eqb_spec t' t) as [-> |]; done.
Qed.

(** What [test_and_set] does to the memory. *)
Lemma test_and_set_spec q msg t :
  weak_inv_at q msg →
  ∃ m msg', weak_test_and_set mutex_orders (mem q) t = Some (negb (msg_value msg =? 0), m) ∧
    newest_message m FLAG = Some msg' ∧ msg_value msg' = 1 ∧ accesses m = accesses (mem q) ∧
    length (hist m FLAG) = S (length (hist (mem q) FLAG)) ∧
    (∀ t', seen (views m t') FLAG < length (hist m FLAG))%nat ∧
    (seen (msg_view msg') FLAG < length (hist m FLAG))%nat ∧
    (∀ t', t' ≠ t → views m t' = views (mem q) t') ∧
    (msg_value msg = 0 → covers (views m t) (accesses m) DATA).
Proof.
  intros [Hmsg Hm Hseen Hsm Hclear Hown]. unfold newest_message in Hmsg.
  unfold weak_test_and_set, rmw, released. rewrite Hmsg. cbn [lock_acquires mutex_orders].
  do 2 eexists. split; [reflexivity |]. split_and!.
  - eapply newest_message_snoc. apply upd_eq.
  - done.
  - done.
  - cbn [hist]. rewrite upd_eq, length_app. simpl. lia.
  - intros t'. cbn [hist views]. rewrite (upd_eq (hist _)), length_app. unfold upd at 1. specialize (Hseen t').
    destruct (t' =? t)%nat; cbn [length join seen]; rewrite ?upd_eq; lia.
  - cbn [hist]. rewrite upd_eq, length_app. cbn [msg_view join seen length]. rewrite upd_eq. lia.
  - intros t' Hne. cbn [views]. by rewrite upd_ne.
  - intros H0. cbn [views accesses]. rewrite upd_eq. by apply covers_join_r, Hclear.
Qed.

(** A [test_and_set] that finds the flag clear takes the mutex. *)
Lemma weak_acquire q msg t p :
  weak_inv_at q msg → locals q !! t = Some p → owns_flag p = false →
  ∃ m, weak_test_and_set mutex_orders (mem q) t = Some (negb (msg_value msg =? 0), m) ∧
    (msg_value msg = 0 → weak_inv (weak_goto q m t Holding)) ∧
    (msg_value msg ≠ 0 → ∀ p', wf p' ∧ owns_flag p' = false → weak_inv (weak_goto q m t p')).
Proof.
  intros Hinv Ht Hp. destruct (test_and_set_spec q msg t Hinv)
    as (m & msg' & Heq & Hmsg' & Hval & Hacc & Hlen & Hseen & Hsm & Hviews & Hcov).
  destruct Hinv as [Hmsg Hm _ _ Hclear Hown]. exists m. split; [done |]. split.
  - intros H0. exists msg'. assert (inv (newest (weak_goto q m t Holding) msg')) as Hm'.
    { unfold newest. rewrite Hval. apply (spin_inv_acquire (newest q msg)); [done |]. simpl. by rewrite H0. }
    split; try done; [by rewrite Hval |]. simpl. intros t' p' Hl Ho. destruct (decide (t' = t)) as [-> | Hne]; [by apply Hcov |].
    exfalso. apply Hne. eapply (inv_unique _ Hm' t' t p' Holding); [done | | done | done].
    simpl. by rewrite lookup_insert_eq.
  - intros H0 p' [Hwf Hno]. exists msg'. split; try done; [| by rewrite Hval |].
    + unfold newest. rewrite Hval. pose proof (inv_goto (newest q msg) t p' Hm Hwf Hno) as Hgo.
      unfold newest, goto in Hgo. simpl in Hgo. rewrite (proj2 (Z.eqb_neq _ _) H0) in Hgo.
      apply Hgo. intros o. rewrite Ht. by intros [= <-].
    + simpl. intros t' p2 [[<- <-] | [Hne Hl]]%lookup_insert_Some Ho; [congruence |].
      rewrite Hviews, Hacc by done. eauto.
Qed.

(** [unlock] passes on what its thread knows. *)
Lemma weak_release q msg t :
  weak_inv_at q msg → locals q !! t = Some U_clear →
  weak_inv (weak_leave q (store Release (mem q) t FLAG 0) t).
Proof.
  intros [Hmsg Hm Hseen Hsm Hclear Hown] Ht.
  pose proof (inv_release _ t Hm Ht) as Hm'. unfold store. eexists. split.
  - eapply newest_message_snoc. apply upd_eq.
  - exact Hm'.
  - intros t'. simpl. rewrite upd_eq, length_app. unfold upd at 1. specialize (Hseen t').
    destruct (t' =? t)%nat; cbn [length seen]; rewrite ?upd_eq; lia.
  - simpl. rewrite !upd_eq, length_app. simpl. lia.
  - intros _. by apply (Hown t U_clear).
  - simpl. intros t' p [Hne Hl]%lookup_delete_Some Ho. exfalso. apply Hne. symmetry.
    by apply (inv_unique _ Hm t' t p U_clear).
Qed.

(** The holder may access the data. *)
Lemma weak_use q msg t :
  weak_inv_at q msg → locals q !! t = Some Holding →
  ∃ m, access (mem q) t DATA = Ret m ∧ weak_inv (WeakMutex m (locals q)).
Proof.
  intros [Hmsg Hm Hseen Hsm Hclear Hown] Ht.
  destruct (access_covered (mem q) t DATA (Hown t _ Ht eq_refl)) as (m & -> & [Hh Hc Hs _ Hv _]).
  exists m. split; [done |]. exists msg. split; simpl; rewrite ?Hh; try done.
  - unfold newest_message. by rewrite Hh.
  - intros t'. destruct (decide (t' = t)) as [-> | Hne]; [by rewrite Hs | by rewrite Hv].
  - intros H0. pose proof (proj2 (inv_flag _ Hm)) as Hf. simpl in Hf. rewrite H0 in Hf.
    discriminate Hf. eauto.
  - intros t' p Hl Ho. destruct (decide (t' = t)) as [-> | Hne]; [done |]. exfalso. apply Hne.
    by apply (inv_unique _ Hm t' t p Holding).
Qed.

Lemma weak_run_step_inv q t i : weak_inv q → weak_inv (weak_run_step mutex_orders q t i).1.
Proof.
  intros [msg Hinv]. unfold weak_run_step. destruct (locals q !! t) as [p |] eqn:Ht; [| by exists msg].
  pose proof (map_Forall_lookup_1 _ _ _ _ (inv_wf _ (wi_mutex _ _ Hinv)) Ht) as Hwf.
  assert (∀ o, owns_flag p = false → locals q !! t = Some o → owns_flag o = false) as Hold by (intros; congruence).
  destruct p as [| n | n | | | |]; simpl in Hwf; [| | | | done | by exists msg |].
  - destruct (weak_acquire q msg t _ Hinv Ht eq_refl) as (m & -> & H0 & H1).
    destruct (Z.eqb_spec (msg_value msg) 0); simpl; [auto | apply H1; [done |]; simpl; split; [lia | done]].
  - destruct (load Relaxed (mem q) t FLAG i) as [[f m] |] eqn:Hl; [| by exists msg]. exists msg.
    pose proof (weak_load_inv _ _ _ _ _ _ Hinv Hl) as Hinv'.
    destruct (f =? 0); apply (weak_goto_inv (WeakMutex m (locals q))); try done; simpl; eauto.
    all: by apply next_spin_ok.
  - destruct (weak_acquire q msg t _ Hinv Ht eq_refl) as (m & -> & H0 & H1).
    destruct (Z.eqb_spec (msg_value msg) 0); simpl; [auto | apply H1; [done |]; by apply next_spin_ok].
  - exists msg. apply weak_goto_inv; eauto; simpl; lia.
  - by apply (weak_release q msg).
Qed.

Lemma weak_exec_inv q a :
  weak_inv q → calls_try_lock a = false →
  ∃ q' e, weak_exec_code q a = Ret (q', e) ∧ weak_inv q'.
Proof.
  intros Hq Ha. pose proof Hq as [msg Hinv]. destruct a as [[t | t | t | t] | t i | t]; simpl in *; try done; eauto.
  - do 2 eexists. split; [done |]. destruct (locals q !! t) eqn:Ht; [done |]. exists msg.
    apply weak_goto_inv; try done. intros o. by rewrite Ht.
  - do 2 eexists. split; [done |]. destruct (locals q !! t) as [[] |] eqn:Ht; try done. exists msg.
    destruct Hinv as [Hmsg Hm Hseen Hsm Hclear Hown]. split; try done; [by apply (inv_unlock_call (newest q msg)) |].
    simpl. intros t' p [[<- <-] | [_ Hl]]%lookup_insert_Some Ho; eauto.
  - pose proof (weak_run_step_inv q t i Hq). destruct (weak_run_step _ q t i) as [q' e]. eauto.
  - destruct (locals q !! t) as [[] |] eqn:Ht; eauto.
    destruct (weak_use q msg t Hinv Ht) as (m & -> & Hm). cbn [obind]. eauto.
Qed.

Lemma weak_lock_init : weak_inv weak_init.
Proof.
  eexists. split; [reflexivity | apply spin_inv_init | simpl; lia.. | |]; simpl; intros.
  - intros t c Hin. by apply elem_of_nil in Hin.
  - by rewrite lookup_empty in *.
Qed.

(** * Properties *)

(** C36: the acquire of [lock] and the release of [unlock] are enough.  Whatever
    the interleaving of threads that lock, unlock and use the data while they
    hold the mutex, and whichever old values the relaxed tests answer, no step is
    undefined: the accesses to the data never race.  At most one thread holds the
    mutex; the newest value of the flag is set exactly while one holds it or is
    releasing it; and every thread can read that value. *)
Theorem lock_orders_suffice acts :
  Forall (λ a, calls_try_lock a = false) acts →
  ∃ q es msg, run_schedule (weak_exec mutex_orders) weak_init acts = Ret (q, es) ∧
    newest_message (mem q) FLAG = Some msg ∧
    (∀ t t', locals q !! t = Some Holding → locals q !! t' = Some Holding → t = t') ∧
    (msg_value msg ≠ 0 ↔ ∃ t, locals q !! t = Some Holding ∨ locals q !! t = Some U_clear) ∧
    ∀ t, ∃ m, load Relaxed (mem q) t FLAG (length (hist (mem q) FLAG) - 1) = Some (msg_value msg, m).
Proof.
  intros Hacts. destruct (run_schedule_total weak_exec_code (λ a, calls_try_lock a = false) weak_inv acts weak_init
    (λ q a Ha Hq, weak_exec_inv q a Hq Ha) Hacts weak_lock_init) as (q & es & Hrun & msg & Hinv).
  destruct Hinv as [Hmsg [_ Hf Hu] Hseen Hsm Hclear Hown]. exists q, es, msg. split_and!; [done | done | | |].
  - intros t t' H1 H2. by eapply Hu.
  - simpl in Hf. rewrite <-Z.eqb_neq, <-negb_true_iff, Hf. split.
    + intros (t & p & Hp & Ho). exists t. destruct p; auto; done.
    + intros (t & [Ht | Ht]); eauto.
  - intros t. specialize (Hseen t). unfold newest_message in Hmsg. unfold load.
    rewrite (proj2 (Nat.ltb_ge _ _)) by lia. rewrite Hmsg. eauto.
Qed.

(** Thread 1 locks, uses the data and unlocks; thread 2, which spins meanwhile
    and reads the old clear flag, follows. *)
Definition handover : list weak_action :=
  [WeakCall (CallLock 1); WeakRun 1 0; WeakUse 1; WeakCall (CallLock 2); WeakRun 2 0;
   WeakCall (CallUnlock 1); WeakRun 1 0; WeakRun 2 3; WeakRun 2 0; WeakUse 2].

(** Neither order can be relaxed: the two uses of the data would race. *)
Theorem lock_orders_needed :
  Forall (λ o, run_schedule (weak_exec o) weak_init handover = Undef)
    [LockOrders false Release; LockOrders true Relaxed].
Proof. repeat constructor; vm_compute; reflexivity. Qed.

Example handover_defined :
  (snd <$> match run_schedule weak_exec_code weak_init handover with Ret r => Some r | _ => None end)
  = Some [Ev_locked 1; Ev_unlocked 1; Ev_locked 2].
Proof. vm_compute. reflexivity. Qed.

Lemma lock_orders_suffice_witness :
  Forall (λ a, calls_try_lock a = false) handover ∧
  ∃ q es, run_schedule (weak_exec mutex_orders) weak_init handover = Ret (q, es) ∧
    (∀ t t', locals q !! t = Some Holding → locals q !! t' = Some Holding → t = t').
Proof.
  assert (Forall (λ a, calls_try_lock a = false) handover) as H by (repeat constructor).
  split; [exact H |]. destruct (lock_orders_suffice handover H) as (q & es & msg & H1 & H2 & H3 & _).
  exists q, es. split; [exact H1 | exact H3].
Defined.
