(* ===== verification/ThreadSafeQueue.v ===== *)
(** * ThreadSafeQueue: the blocking queue

    Models [src/include/fiah/structs/ThreadSafeQueue.hh]: a [std::queue] under a
    [std::mutex] with a [std::condition_variable].  A thread's call is a sequence
    of steps, and other threads run between any two of them.  The queue is an
    ordinary object: [push] reads its contents and then stores the longer one,
    [wait_and_pop] reads the front and then removes an element, the predicate of
    the wait is tested before the step that releases the mutex and blocks.  Two
    threads about to access it, one of them to write, are a data race, and the
    step is undefined.  [notify_one] wakes a waiter of the scheduler's choice,
    waiters may also wake spuriously. *)

From stdpp Require Import base tactics numbers list option gmap.
From Stdlib Require Import ZArith Lia.
From S2P Require Import Prelude.
#[local] Open Scope fiah_scope.

Section ThreadSafeQueue.
Context {T : Type}.

Inductive pc : Type :=
| Push_lock (value : T)
| Push_body (value : T)                (* [_queue.push]: read the contents *)
| Push_store (value : T) (l : list T)  (* [_queue.push]: store [l] with [value] *)
| Push_unlock
| Push_notify
| Pop_lock
| Pop_test            (* the predicate of [_cv.wait] *)
| Pop_block           (* it was false: release the mutex and block *)
| Pop_blocked         (* waiting on [_cv], mutex released *)
| Pop_wake            (* notified, taking the mutex again *)
| Pop_take            (* [val = std::move(_queue.front())] *)
| Pop_erase (val : T) (* [_queue.pop()] *)
| Pop_unlock (val : T)
| Empty_read.

Record queue : Type := Queue {
  _queue : list T;
  _mutex : option nat;
  threads : gmap nat pc
}.

Definition init : queue := Queue [] None ∅.

Inductive event : Type :=
| Ev_push (t : nat) (v : T)      (* the element entered the queue *)
| Ev_pop (t : nat) (v : T)       (* the element left the queue *)
| Ev_return (t : nat) (v : T)    (* wait_and_pop returned it *)
| Ev_empty (t : nat) (b : bool).

Definition goto (q : queue) (t : nat) (p : pc) : queue :=
  Queue (_queue q) (_mutex q) (<[t := p]> (threads q)).
Definition leave (q : queue) (t : nat) : queue :=
  Queue (_queue q) (_mutex q) (delete t (threads q)).
Definition set_queue (q : queue) (l : list T) : queue := Queue l (_mutex q) (threads q).
Definition release (q : queue) : queue := Queue (_queue q) None (threads q).

(** [_mutex.lock()]: blocks while another thread has it. *)
Definition lock (q : queue) (t : nat) (next : pc) : queue :=
  match _mutex q with
  | None => goto (Queue (_queue q) (Some t) (threads q)) t next
  | Some _ => q
  end.

Definition is_blocked (p : pc) : bool := match p with Pop_blocked => true | _ => false end.

(** The points whose next step reads or writes the queue, and those that write. *)
Definition accesses (p : pc) : bool :=
  match p with
  | Push_body _ | Push_store _ _ | Pop_test | Pop_take | Pop_erase _ | Empty_read => true
  | _ => false
  end.
Definition writes (p : pc) : bool :=
  match p with Push_store _ _ | Pop_erase _ => true | _ => false end.
Definition conflict (p p' : pc) : bool := accesses p && accesses p' && (writes p || writes p').

(** No other thread is about to make an access in conflict with that of [t]. *)
Definition race_free (q : queue) (t : nat) (p : pc) : Prop :=
  map_Forall (λ u p', u = t ∨ conflict p p' = false) (threads q).
#[export] Instance race_free_dec q t p : Decision (race_free q t p).
Proof. unfold race_free. apply _. Defined.

(** One step of thread [t]; [w] is the waiter a notification would wake. *)
Definition step_at (q : queue) (t w : nat) (p : pc) : outcome (queue * option event) :=
  match p with
  | Pop_blocked => Ret (q, None)
  | Push_lock v => Ret (lock q t (Push_body v), None)
  | Push_body v => Ret (goto q t (Push_store v (_queue q)), None)
  | Push_store v l => Ret (goto (set_queue q (l ++ [v])) t Push_unlock, Some (Ev_push t v))
  | Push_unlock => Ret (goto (release q) t Push_notify, None)
  | Push_notify =>
      match threads q !! w with
      | Some Pop_blocked => Ret (goto (leave q t) w Pop_wake, None)
      | _ =>
          if decide (map_Forall (λ _ p, is_blocked p = false) (threads q))
          then Ret (leave q t, None) else Ret (q, None)
      end
  | Pop_lock | Pop_wake => Ret (lock q t Pop_test, None)
  | Pop_test => Ret (goto q t (match _queue q with [] => Pop_block | _ => Pop_take end), None)
  | Pop_block => Ret (goto (release q) t Pop_blocked, None)
  | Pop_take =>
      match _queue q with
      | [] => Undef
      | v :: _ => Ret (goto q t (Pop_erase v), None)
      end
  | Pop_erase v =>
      match _queue q with
      | [] => Undef
      | _ :: l => Ret (goto (set_queue q l) t (Pop_unlock v), Some (Ev_pop t v))
      end
  | Pop_unlock v => Ret (leave (release q) t, Some (Ev_return t v))
  | Empty_read =>
      Ret (leave q t, Some (Ev_empty t (match _queue q with [] => true | _ => false end)))
  end.

Definition run_step (q : queue) (t w : nat) : outcome (queue * option event) :=
  match threads q !! t with
  | None => Ret (q, None)
  | Some p => require! bool_decide (race_free q t p) ;; step_at q t w p
  end.

Inductive action : Type :=
| CallPush (t : nat) (value : T)
| CallPop (t : nat)
| CallEmpty (t : nat)
| Run (t w : nat)
| Spurious (t : nat).

Definition call (q : queue) (t : nat) (p : pc) : outcome (queue * option event) :=
  Ret (match threads q !! t with None => goto q t p | _ => q end, None).

Definition exec (q : queue) (a : action) : outcome (queue * option event) :=
  match a with
  | CallPush t v => call q t (Push_lock v)
  | CallPop t => call q t Pop_lock
  | CallEmpty t => call q t Empty_read
  | Run t w => run_step q t w
  | Spurious t =>
      Ret (match threads q !! t with Some Pop_blocked => goto q t Pop_wake | _ => q end, None)
  end.

Definition calls_empty (a : action) : bool := match a with CallEmpty _ => true | _ => false end.

Definition pushed (es : list event) : list T :=
  omap (λ e, match e with Ev_push _ v => Some v | _ => None end) es.
Definition popped (es : list event) : list T :=
  omap (λ e, match e with Ev_pop _ v => Some v | _ => None end) es.
Definition popped_by (t : nat) (es : list event) : list T :=
  omap (λ e, match e with Ev_pop t' v => if decide (t' = t) then Some v else None | _ => None end) es.
Definition returned_by (t : nat) (es : list event) : list T :=
  omap (λ e, match e with Ev_return t' v => if decide (t' = t) then Some v else None | _ => None end) es.
End ThreadSafeQueue.

Arguments pc T : clear implicits.
Arguments queue T : clear implicits.
Arguments event T : clear implicits.
Arguments action T : clear implicits.
Arguments CallPop {T} _.
Arguments CallEmpty {T} _.
Arguments Run {T} _ _.

Abbreviation step := (machine_step exec).

(** * Proofs *)

Section Proofs.
Context {T : Type}.
Implicit Types (q : queue T) (p : pc T) (ts : gmap nat (pc T)).

Definition holds_mutex p : bool :=
  match p with
  | Push_body _ | Push_store _ _ | Push_unlock | Pop_test | Pop_block | Pop_take | Pop_erase _
  | Pop_unlock _ => true
  | _ => false
  end.

(** What a thread inside knows of the contents from its own earlier step. *)
Definition sees (l : list T) p : Prop :=
  match p with
  | Push_store _ l' => l' = l
  | Pop_block => l = []
  | Pop_take => l ≠ []
  | Pop_erase v => head l = Some v
  | _ => True
  end.

(** Threads that will still wake a waiter, or look at the queue themselves. *)
Definition weight p : nat :=
  match p with
  | Push_unlock | Push_notify | Pop_wake | Pop_test | Pop_take | Pop_erase _ => 1
  | _ => 0
  end.

Abbreviation total := (msum weight).

Record inv q : Prop := Inv {
  inv_mutex : ∀ t p, threads q !! t = Some p → holds_mutex p = true → _mutex q = Some t;
  inv_held : ∀ t, _mutex q = Some t → ∃ p, threads q !! t = Some p ∧ holds_mutex p = true;
  inv_view : ∀ t p, threads q !! t = Some p → sees (_queue q) p;
  inv_wakeups : (∃ t, threads q !! t = Some Pop_blocked) → length (_queue q) ≤ total (threads q)
}.

Lemma sees_outside l p : holds_mutex p = false → sees l p.
Proof. by destruct p. Qed.

(** *** One thread moves *)

Implicit Types (po : option (pc T)).

(** The table after thread [t] moved to [po] ([None]: out of the queue). *)
Definition moved ts (t : nat) po := partial_alter (λ _, po) t ts.
Definition holds_o po : bool := from_option holds_mutex false po.
Definition weight_o po : nat := from_option weight 0 po.

Lemma total_moved ts t po : total (moved ts t po) + weight_o (ts !! t) = weight_o po + total ts.
Proof. destruct po as [p |]; [apply (msum_insert weight ts t p) | apply (msum_delete weight ts t)]. Qed.

(** What a move may do with the mutex: keep it as it is, take it, release it. *)
Inductive mutex_move (t : nat) (m m' : option nat) (old po : option (pc T)) : Prop :=
| mutex_kept : m' = m → holds_o po = holds_o old → mutex_move t m m' old po
| mutex_taken : m = None → m' = Some t → holds_o po = true → mutex_move t m m' old po
| mutex_released : m = Some t → m' = None → holds_o po = false → mutex_move t m m' old po.

Lemma inv_move q t po l' m' :
  inv q → mutex_move t (_mutex q) m' (threads q !! t) po →
  (l' = _queue q ∨ holds_o (threads q !! t) = true) →
  from_option (sees l') True po →
  (l' = [] ∨ po ≠ Some Pop_blocked ∧
    length l' + weight_o (threads q !! t) ≤ length (_queue q) + weight_o po) →
  inv (Queue l' m' (moved (threads q) t po)).
Proof.
  intros [Hm Hh Hv Hw] Hmove Hl Hsees Hweight. unfold moved.
  assert (∀ t' p, t' ≠ t → threads q !! t' = Some p → holds_mutex p = true → m' = Some t') as Hothers.
  { intros t' p Hne Hp Ho. specialize (Hm _ _ Hp Ho). destruct Hmove; congruence. }
  split; simpl.
  - intros t' p Hp Ho. destruct (decide (t' = t)) as [-> | Hne].
    + rewrite lookup_partial_alter_eq in Hp. subst po. destruct Hmove as [-> Hold | _ -> _ | _ _ ?];
        [| done | simpl in *; congruence].
      simpl in Hold. rewrite Ho in Hold. destruct (threads q !! t) as [o |] eqn:Hto; [| done].
      by apply (Hm t o).
    + rewrite lookup_partial_alter_ne in Hp by done. eauto.
  - intros t' Hm'. destruct (decide (t' = t)) as [-> | Hne].
    + rewrite lookup_partial_alter_eq. destruct Hmove as [-> Hold | _ _ Ho | _ -> _]; [| | done].
      * destruct (Hh _ Hm') as (o & Ho & Ho'). rewrite Ho in Hold. simpl in Hold.
        rewrite Ho' in Hold. destruct po as [p |]; [by exists p | done].
      * destruct po as [p |]; [by exists p | done].
    + rewrite lookup_partial_alter_ne by done. destruct Hmove; [subst m'; auto | congruence..].
  - intros t' p Hp. destruct (decide (t' = t)) as [-> | Hne].
    + rewrite lookup_partial_alter_eq in Hp. by subst po.
    + rewrite lookup_partial_alter_ne in Hp by done. destruct Hl as [-> | Hholds]; [eauto |].
      destruct (threads q !! t) as [o |] eqn:Hto; [| done]. apply sees_outside.
      apply not_true_is_false. intros Ho.
      pose proof (Hm _ _ Hp Ho). pose proof (Hm _ _ Hto Hholds). congruence.
  - intros [t' Hp]. destruct Hweight as [-> | [Hnb Hle]]; [simpl; lia |].
    assert (∃ u, threads q !! u = Some Pop_blocked) as Hb.
    { exists t'. destruct (decide (t' = t)) as [-> | Hne].
      - by rewrite lookup_partial_alter_eq in Hp.
      - by rewrite lookup_partial_alter_ne in Hp. }
    specialize (Hw Hb). pose proof (total_moved (threads q) t po) as Htot. unfold moved in Htot. lia.
Qed.

Lemma tsq_inv_init : inv (init (T := T)).
Proof.
  split; simpl; [intros t p Hp | done | intros t p Hp | intros [t Hp]]; by rewrite lookup_empty in Hp.
Qed.

Lemma tsq_inv_goto q t p :
  inv q → holds_mutex p = holds_o (threads q !! t) → sees (_queue q) p →
  p ≠ Pop_blocked → (weight_o (threads q !! t) ≤ weight p ∨ _queue q = []) → inv (goto q t p).
Proof.
  intros Hinv Hh Hs Hb Hw. apply (inv_move q t (Some p) (_queue q) (_mutex q)); [done | | by left | done |].
  - by apply mutex_kept.
  - destruct Hw as [Hw | Hw]; [right | by left]. split; [congruence | simpl; lia].
Qed.

Lemma inv_lock q t p :
  inv q → holds_mutex p = true → holds_o (threads q !! t) = false →
  sees (_queue q) p → weight_o (threads q !! t) ≤ weight p → inv (lock q t p).
Proof.
  intros Hinv Hp Ho Hs Hw. unfold lock. destruct (_mutex q) eqn:Hm; [done |].
  apply (inv_move q t (Some p) (_queue q) (Some t)); [done | | by left | done |].
  - by apply mutex_taken.
  - right. split; [by destruct p | simpl; lia].
Qed.

(** The waiter woken by [notify_one] takes over the notifier's weight. *)
Lemma inv_notify q t w :
  inv q → threads q !! t = Some Push_notify → threads q !! w = Some Pop_blocked →
  inv (goto (leave q t) w Pop_wake).
Proof.
  intros Hinv Ht Hw. assert (t ≠ w) as Hne by congruence.
  destruct Hinv as [Hm Hh Hv Hwk].
  assert (∀ u p, (<[w := Pop_wake]> (delete t (threads q)) : gmap _ _) !! u = Some p →
    p = Pop_wake ∨ threads q !! u = Some p) as Hold.
  { intros u p [[<- <-] | [_ [_ Hu]%lookup_delete_Some]]%lookup_insert_Some; auto. }
  split; simpl.
  - intros u p [-> | Hu]%Hold Ho; [done | eauto].
  - intros u Hu. destruct (Hh u Hu) as (p & Hp & Ho). exists p. split; [| done].
    rewrite lookup_insert_ne by (intros <-; rewrite Hw in Hp; by simplify_eq/=).
    rewrite lookup_delete_ne; [done |]. intros <-. rewrite Ht in Hp. by simplify_eq/=.
  - intros u p [-> | Hu]%Hold; [done | eauto].
  - intros _. specialize (Hwk (ex_intro _ w Hw)).
    pose proof (msum_insert weight (delete t (threads q)) w Pop_wake) as H1.
    pose proof (msum_delete weight (threads q) t) as H2. unfold at_key in *.
    rewrite lookup_delete_ne, Hw in H1 by done. rewrite Ht in H2. simpl in *. lia.
Qed.

(** A thread that is not inside and gives no wake-up to a waiter leaves. *)
Lemma inv_unlocks q t p :
  inv q → threads q !! t = Some p → holds_mutex p = false →
  (weight p = 0 ∨ map_Forall (λ _ p, is_blocked p = false) (threads q)) → inv (leave q t).
Proof.
  intros Hinv Ht Hp Hw. pose proof Hinv as [Hm Hh Hv Hwk]. destruct Hw as [Hw | Hnone].
  { apply (inv_move q t None (_queue q) (_mutex q)); rewrite ?Ht; [done | | by left | done |].
    - by apply mutex_kept.
    - right. split; [done | simpl; lia]. }
  assert (∀ u p, delete t (threads q) !! u = Some p → threads q !! u = Some p) as Hold.
  { by intros u p' [_ Hu]%lookup_delete_Some. }
  split; simpl.
  - intros u p' Hu%Hold. eauto.
  - intros u Hu. destruct (Hh u Hu) as (p' & Hp' & Ho). exists p'. split; [| done].
    rewrite lookup_delete_ne; [done |]. intros <-. congruence.
  - intros u p' Hu%Hold. eauto.
  - intros [u Hu%Hold]. by specialize (Hnone _ _ Hu).
Qed.

(** Every defined step preserves the invariant. *)
Lemma tsq_inv_step q t w p q' e :
  inv q → threads q !! t = Some p → step_at q t w p = Ret (q', e) → inv q'.
Proof.
  intros Hinv Ht Hstep.
  assert (∀ l' m' po, mutex_move t (_mutex q) m' (threads q !! t) po → holds_mutex p = true →
    from_option (sees l') True po →
    (l' = [] ∨ po ≠ Some Pop_blocked ∧ length l' + weight p ≤ length (_queue q) + weight_o po) →
    inv (Queue l' m' (moved (threads q) t po))) as Hmove.
  { intros l' m' po H1 H2 H3 H4. apply inv_move; rewrite ?Ht in *; try done. by right. }
  rewrite Ht in Hmove. pose proof (inv_mutex q Hinv _ _ Ht) as Hmine.
  pose proof (inv_view q Hinv _ _ Ht) as Hview.
  destruct p as [v | v | v l | | | | | | | | | v | v |]; simpl in Hmine, Hview, Hstep.
  - simplify_eq. apply inv_lock; rewrite ?Ht; simpl; (done || lia).
  - simplify_eq. apply tsq_inv_goto; rewrite ?Ht; simpl; auto.
  - simplify_eq. apply (Hmove (_queue q ++ [v]) (_mutex q) (Some Push_unlock));
      [by apply mutex_kept | done.. |]. right. split; [done |]. rewrite length_app. simpl. lia.
  - simplify_eq. apply (Hmove (_queue q) None (Some Push_notify)); [apply mutex_released; auto | done.. |].
    right. split; [done | simpl; lia].
  - destruct (threads q !! w) as [[] |] eqn:Hw;
      try (destruct (decide _); simplify_eq; [eapply inv_unlocks; eauto | done]).
    simplify_eq. by apply inv_notify.
  - simplify_eq. apply inv_lock; rewrite ?Ht; simpl; (done || lia).
  - simplify_eq. destruct (_queue q) as [| v l] eqn:Hq; apply tsq_inv_goto; rewrite ?Ht, ?Hq; simpl; auto.
  - simplify_eq. unfold goto, release. simpl. rewrite Hview.
    apply (Hmove [] None (Some Pop_blocked)); [apply mutex_released; auto | done | done | by left].
  - by simplify_eq.
  - simplify_eq. apply inv_lock; rewrite ?Ht; simpl; (done || lia).
  - destruct (_queue q) as [| v l] eqn:Hq; simplify_eq.
    apply tsq_inv_goto; rewrite ?Ht, ?Hq; simpl; auto.
  - destruct (_queue q) as [| v' l] eqn:Hq; simplify_eq.
    apply (Hmove l (_mutex q) (Some (Pop_unlock v))); [by apply mutex_kept | done | done |].
    right. split; [done | simpl; lia].
  - simplify_eq. apply (Hmove (_queue q) None None); [apply mutex_released; auto | done | done |].
    right. split; [done | simpl; lia].
  - simplify_eq. eapply inv_unlocks; eauto.
Qed.

Lemma tsq_inv_exec q a q' e : inv q → exec q a = Ret (q', e) → inv q'.
Proof.
  intros Hinv Hexec.
  assert (∀ t p, sees (_queue q) p → holds_mutex p = false → p ≠ Pop_blocked →
    call q t p = Ret (q', e) → inv q') as Hcall.
  { unfold call. intros t p Hs Hp Hb Hc. simplify_eq. destruct (threads q !! t) eqn:Ht; [done |].
    apply tsq_inv_goto; rewrite ?Ht; simpl; auto. left. lia. }
  destruct a as [t v | t | t | t w | t]; simpl in Hexec;
    [eapply Hcall, Hexec; done.. | |].
  - unfold run_step in Hexec. destruct (threads q !! t) as [p |] eqn:Ht; [| by simplify_eq].
    destruct (bool_decide _); [by eapply tsq_inv_step | done].
  - simplify_eq. destruct (threads q !! t) as [[] |] eqn:Ht; try done.
    apply tsq_inv_goto; rewrite ?Ht; simpl; auto.
Qed.

(** Without a thread inside [empty], the mutex excludes every race. *)
Definition no_readers q : Prop := map_Forall (λ _ p, p ≠ Empty_read) (threads q).

Lemma conflict_holds p p' :
  conflict p p' = true → p ≠ Empty_read → p' ≠ Empty_read → holds_mutex p = true ∧ holds_mutex p' = true.
Proof. destruct p, p'; done. Qed.

Lemma tsq_race_free q t p : inv q → no_readers q → threads q !! t = Some p → race_free q t p.
Proof.
  intros Hinv Hno Ht u p' Hu. destruct (decide (u = t)) as [| Hne]; [by left | right].
  apply not_true_is_false. intros [H1 H2]%conflict_holds; [| by eapply Hno..].
  pose proof (inv_mutex q Hinv _ _ Ht H1). pose proof (inv_mutex q Hinv _ _ Hu H2). congruence.
Qed.

Lemma tsq_exec_defined q a :
  inv q → no_readers q → calls_empty a = false → ∃ q' e, exec q a = Ret (q', e).
Proof.
  intros Hinv Hno Ha. destruct a as [t v | t | t | t w | t]; simpl in *; [by do 2 eexists.. | | by do 2 eexists].
  unfold run_step. destruct (threads q !! t) as [p |] eqn:Ht; [| by do 2 eexists].
  rewrite bool_decide_eq_true_2 by by apply tsq_race_free.
  pose proof (inv_view q Hinv _ _ Ht) as Hview.
  destruct p; simpl in *; split_match; try (by do 2 eexists); congruence.
Qed.

Lemma tsq_exec_no_readers q a q' e :
  no_readers q → calls_empty a = false → exec q a = Ret (q', e) → no_readers q'.
Proof.
  intros Hno Ha Hexec. unfold no_readers in *.
  destruct a as [t v | t | t | t w | t]; simpl in *; unfold call, run_step, lock in Hexec;
    split_match_in Hexec; try done;
    try (unfold step_at, lock in Hexec; split_match_in Hexec); split_match;
    repeat (apply map_Forall_insert_2; [done |]); repeat apply map_Forall_delete; done.
Qed.

(** *** Along a trace *)

(** The value a thread has taken and not yet returned. *)
Definition in_hand q (t : nat) : list T :=
  match threads q !! t with Some (Pop_unlock v) => [v] | _ => [] end.

Definition opt_list {A} (o : option A) : list A := match o with Some x => [x] | None => [] end.

Lemma omap_snoc_event (tr : list (action T * option (event T))) a e :
  omap snd (tr ++ [(a, e)]) = omap snd tr ++ opt_list e.
Proof. rewrite omap_app. by destruct e. Qed.

(** The effect of one step on contents and on values taken. *)
Lemma exec_effect q a q' e :
  inv q → exec q a = Ret (q', e) →
  _queue q ++ pushed (opt_list e) = popped (opt_list e) ++ _queue q' ∧
  ∀ u, in_hand q u ++ popped_by u (opt_list e) = returned_by u (opt_list e) ++ in_hand q' u.
Proof.
  intros Hinv Hexec. pose proof (inv_view q Hinv) as Hview.
  destruct a as [t v | t | t | t w | t]; simpl in Hexec; specialize (Hview t);
    unfold call, run_step in Hexec; destruct (threads q !! t) as [p |] eqn:?;
    try (specialize (Hview _ eq_refl); destruct p);
    try (destruct (bool_decide _); [unfold step_at, lock in Hexec |]);
    destruct (_mutex q); split_match_in Hexec; simplify_eq/=;
    (split; [simpl; rewrite ?app_nil_r; (done || congruence) |]);
    intros u; unfold in_hand; simpl; rewrite ?lookup_insert, ?lookup_delete;
    repeat case_decide; simplify_eq/=;
    repeat match goal with H : threads _ !! _ = _ |- _ => rewrite H end;
    by rewrite ?app_nil_r.
Qed.

Definition no_empty_calls (acts : list (action T)) : Prop := Forall (λ a, calls_empty a = false) acts.

Lemma tsq_run_inv (tr : list (action T * option (event T))) q :
  run step init tr q →
  inv q ∧
  (pushed (omap snd tr) = popped (omap snd tr) ++ _queue q ∧
    ∀ u, popped_by u (omap snd tr) = returned_by u (omap snd tr) ++ in_hand q u) ∧
  (no_empty_calls tr.*1 → no_readers q).
Proof.
  intros Hrun. refine (run_invariant step (λ tr q, inv q ∧
    (pushed (omap snd tr) = popped (omap snd tr) ++ _queue q ∧
      ∀ u, popped_by u (omap snd tr) = returned_by u (omap snd tr) ++ in_hand q u) ∧
    (no_empty_calls tr.*1 → no_readers q)) init _ _ tr q Hrun).
  { split; [apply tsq_inv_init |]. split; [| intros _; apply map_Forall_empty].
    split; [done |]. intros u. unfold in_hand. simpl. by rewrite lookup_empty. }
  clear. intros tr q [a e] q' (Hinv & [IH1 IH2] & IH3) Hstep.
  destruct (exec_effect _ _ _ _ Hinv Hstep) as [H1 H2]. split; [by eapply tsq_inv_exec |]. split.
  - rewrite omap_snoc_event. simpl in *. unfold pushed, popped, popped_by, returned_by in *.
    split; [| intros u]; rewrite !omap_app.
    + by rewrite IH1, <-(assoc_L (++)), H1, (assoc_L (++)).
    + by rewrite IH2, <-(assoc_L (++)), H2, (assoc_L (++)).
  - unfold no_empty_calls in *. rewrite fmap_app. intros [Htr [Ha _]%Forall_cons]%Forall_app.
    eapply tsq_exec_no_readers; [by apply IH3 | exact Ha | exact Hstep].
Qed.
End Proofs.

(** * Properties *)

(** C24: FIFO under the mutex.  In every interleaving of the steps of [push],
    [wait_and_pop] and [empty] that is defined, the values that left the queue
    are, in order, a prefix of those that entered it, and the rest is what it
    holds; each consumer returns exactly the values it took, in that order.  As
    long as [empty] was not called every next step is defined: no two threads
    touch the queue in a data race, and no pop takes from an empty queue. *)
Theorem tsq_fifo {T} (tr : list (action T * option (event T))) q :
  run step init tr q →
  (pushed (omap snd tr) = popped (omap snd tr) ++ _queue q ∧
   ∀ t, returned_by t (omap snd tr) `prefix_of` popped_by t (omap snd tr) ∧
     (threads q !! t = None → returned_by t (omap snd tr) = popped_by t (omap snd tr))) ∧
  (no_empty_calls tr.*1 → ∀ a, calls_empty a = false → ∃ q' e, exec q a = Ret (q', e)).
Proof.
  intros Hrun. destruct (tsq_run_inv tr q Hrun) as (Hinv & [H1 H2] & Hno).
  split; [split; [done |] |]; [| eauto using tsq_exec_defined].
  intros t. rewrite (H2 t). split; [by eexists |]. intros Ht. unfold in_hand. rewrite Ht. by rewrite app_nil_r.
Qed.

(** Two threads are never both between taking and releasing the mutex. *)
Theorem tsq_safe {T} (tr : list (action T * option (event T))) q t t' p p' :
  run step init tr q → threads q !! t = Some p → threads q !! t' = Some p' →
  holds_mutex p = true → holds_mutex p' = true → t = t'.
Proof.
  intros Hrun H1 H2 O1 O2. destruct (tsq_run_inv tr q Hrun) as [Hinv _].
  pose proof (inv_mutex q Hinv _ _ H1 O1). pose proof (inv_mutex q Hinv _ _ H2 O2). congruence.
Qed.

(** C25: no wake-up is lost.  While a consumer waits on the condition variable,
    there are at least as many threads about to notify, woken or looking at the
    queue as there are elements: no consumer sleeps on an element that nobody
    is coming for.  Other threads may run between the test of the wait's
    predicate and the step that releases the mutex and blocks, and between any
    other two steps. *)
Theorem tsq_no_lost_wakeup {T} (tr : list (action T * option (event T))) q t :
  run step init tr q → threads q !! t = Some Pop_blocked →
  length (_queue q) ≤ msum weight (threads q) ∧
  (_queue q ≠ [] → ∃ u p, threads q !! u = Some p ∧
    (p = Push_unlock ∨ p = Push_notify ∨ p = Pop_wake ∨ p = Pop_test ∨ p = Pop_take ∨
     ∃ v, p = Pop_erase v)).
Proof.
  intros Hrun Ht. destruct (tsq_run_inv tr q Hrun) as [Hinv _].
  pose proof (inv_wakeups q Hinv (ex_intro _ t Ht)) as Hle.
  split; [done |]. intros Hne. destruct (msum_pos weight (threads q)) as (u & p & Hu & Hw).
  - destruct (_queue q); [done | simpl in Hle; lia].
  - exists u, p. split; [done |]. destruct p; simpl in Hw; (lia || naive_solver).
Qed.

(** [empty] does not take the mutex: a schedule of one push and one [empty]
    reaches a data race, which is undefined. *)
Theorem tsq_empty_races {T} (v : T) :
  run_schedule exec init [CallPush 1 v; Run 1 0; Run 1 0; CallEmpty 2; Run 2 0] = Undef.
Proof. reflexivity. Qed.

(** ** Concrete runs *)

Module Demo.
(** Consumer 2 waits; producer 1 pushes 7 and wakes it. *)
Definition waits : list (action nat) :=
  [CallPop 2; Run 2 0; Run 2 0; Run 2 0; CallPush 1 7; Run 1 0; Run 1 0; Run 1 0].
Definition finish : list (action nat) :=
  [Run 1 0; Run 1 2; Run 2 0; Run 2 0; Run 2 0; Run 2 0; Run 2 0].

Definition pushed_state : queue nat := final init (run_schedule exec init waits).
Definition end_state : queue nat := final init (run_schedule exec init (waits ++ finish)).

Example woken :
  (let! (q, es) := run_schedule exec init (waits ++ finish) in Ret (_queue q, es))%fiah
  = Ret ([], [Ev_push 1 7; Ev_pop 2 7; Ev_return 2 7]).
Proof. vm_compute. reflexivity. Qed.

Lemma pushed_run : ∃ tr, run step init tr pushed_state ∧ omap snd tr = [Ev_push 1 7] ∧ tr.*1 = waits.
Proof. apply run_schedule_run. vm_compute. reflexivity. Qed.

Lemma tsq_end_run : ∃ tr,
  run step init tr end_state ∧ omap snd tr = [Ev_push 1 7; Ev_pop 2 7; Ev_return 2 7] ∧
  tr.*1 = waits ++ finish.
Proof. apply run_schedule_run. vm_compute. reflexivity. Qed.

Lemma waits_ok : no_empty_calls (waits ++ finish).
Proof. repeat constructor. Qed.
End Demo.

Lemma tsq_fifo_witness : ∃ tr, run step init tr Demo.end_state ∧
  (pushed (omap snd tr) = popped (omap snd tr) ++ _queue Demo.end_state ∧
   returned_by 2 (omap snd tr) = popped_by 2 (omap snd tr)) ∧
  ∃ q' e, exec Demo.end_state (CallPush 3 8) = Ret (q', e).
Proof.
  destruct Demo.tsq_end_run as (tr & Hrun & _ & Hacts). exists tr. split; [exact Hrun |].
  destruct (tsq_fifo tr _ Hrun) as [[H1 H2] H3]. split; [split; [exact H1 |] |].
  - apply (H2 2). vm_compute. reflexivity.
  - apply H3; [rewrite Hacts; exact Demo.waits_ok | reflexivity].
Defined.

Lemma tsq_no_lost_wakeup_witness : ∃ tr, run step init tr Demo.pushed_state ∧
  length (_queue Demo.pushed_state) ≤ msum weight (threads Demo.pushed_state) ∧
  ∃ u p, threads Demo.pushed_state !! u = Some p ∧
    (p = Push_unlock ∨ p = Push_notify ∨ p = Pop_wake ∨ p = Pop_test ∨ p = Pop_take ∨
     ∃ v, p = Pop_erase v).
Proof.
  destruct Demo.pushed_run as (tr & Hrun & _). exists tr. split; [exact Hrun |].
  destruct (tsq_no_lost_wakeup tr Demo.pushed_state 2 Hrun) as [H1 H2].
  - vm_compute. reflexivity.
  - split; [exact H1 |]. apply H2. vm_compute. discriminate.
Defined.
