(* ===== verification/SharedPtr.v ===== *)
(** * SharedPtr: reference-counted ownership

    Models [src/include/fiah/handle/SharedPtr.hh].  Managed objects and control
    blocks live on two heaps; [handles] is the table of the [shared_ptr] objects
    alive, by name.  The reference count is the 64-bit counter of the control
    block; [deleted] logs the deleter calls. *)

From stdpp Require Import base tactics numbers list option gmap.
From Stdlib Require Import ZArith Lia.
From S2P Require Import Prelude Heap.
#[local] Open Scope Z_scope.
#[local] Open Scope fiah_scope.

Section SharedPtr.
(** The deleter type [Deleter]. *)
Context {D : Type}.

Record control_block : Type := CB {
  m_count : Z;
  cb_obj : option nat;      (* control_block::p_obj *)
  cb_deleter : D            (* the base class subobject *)
}.

Record shared_ptr : Type := MkShared {
  p_obj : option nat;
  p_cb : option nat
}.

Record state : Type := State {
  objs : heap unit;
  cbs : heap control_block;
  created : list (nat * D);   (* objects handed to a shared_ptr, with the deleter *)
  deleted : list (nat * D)    (* deleter calls *)
}.

(** ** [control_block] *)

(** The deleter destroys the object and frees its memory. *)
Definition call_deleter (st : state) (d : D) (o : nat) : outcome state :=
  let! objs' := free (objs st) o in
  Ret (State objs' (cbs st) (created st) (deleted st ++ [(o, d)])).

Definition set_count (st : state) (c : nat) (b : control_block) (n : Z) : outcome state :=
  let! cbs' := store (cbs st) c (CB n (cb_obj b) (cb_deleter b)) in
  Ret (State (objs st) cbs' (created st) (deleted st)).

Definition add_ref (st : state) (c : nat) : outcome state :=
  let! b := load (cbs st) c in set_count st c b (m_count b +u64 1).

Definition release (st : state) (c : nat) : outcome state :=
  let! b := load (cbs st) c in
  let! st := set_count st c b (m_count b -u64 1) in
  if m_count b =? 1 then
    let! st := match cb_obj b with Some o => call_deleter st (cb_deleter b) o | None => Ret st end in
    let! cbs' := free (cbs st) c in
    Ret (State (objs st) cbs' (created st) (deleted st))
  else Ret st.

Definition cb_use_count (st : state) (c : nat) : outcome Z :=
  let! b := load (cbs st) c in Ret (m_count b).

(** ** [shared_ptr] *)

Definition null_shared : shared_ptr := MkShared None None.

(** A control block for [pointer], count 1, then [init]. *)
Definition make_cb (st : state) (pointer : option nat) (d : D) : nat * state :=
  let (c, cbs') := alloc (cbs st) (CB 1 pointer d) in
  (c, State (objs st) cbs'
        (match pointer with Some o => created st ++ [(o, d)] | None => created st end) (deleted st)).

Definition construct (st : state) (pointer : option nat) (d : D) : shared_ptr * state :=
  let (c, st) := make_cb st pointer d in (MkShared pointer (Some c), st).

(** [if (p_cb) p_cb->release();] and [if (p_cb) p_cb->add_ref();] *)
Definition release_cb (st : state) (p : shared_ptr) : outcome state :=
  match p_cb p with Some c => release st c | None => Ret st end.
Definition add_ref_cb (st : state) (p : shared_ptr) : outcome state :=
  match p_cb p with Some c => add_ref st c | None => Ret st end.

Definition copy_construct (st : state) (other : shared_ptr) : outcome (shared_ptr * state) :=
  let! st := add_ref_cb st other in Ret (other, st).

(** The assignments of two different objects. *)
Definition copy_assign (st : state) (this other : shared_ptr) : outcome (shared_ptr * state) :=
  let! st := release_cb st this in
  let this := MkShared (p_obj other) (p_cb other) in
  let! st := add_ref_cb st this in Ret (this, st).

(** The new values of [*this] and [other]. *)
Definition move_construct (other : shared_ptr) : shared_ptr * shared_ptr := (other, null_shared).

Definition move_assign (st : state) (this other : shared_ptr)
  : outcome (shared_ptr * shared_ptr * state) :=
  let! st := release_cb st this in Ret (MkShared (p_obj other) (p_cb other), null_shared, st).

Definition reset (st : state) (this : shared_ptr) : outcome (shared_ptr * state) :=
  let! st := release_cb st this in Ret (null_shared, st).

Definition reset_to (st : state) (this : shared_ptr) (pointer : option nat) (d : D)
  : outcome (shared_ptr * state) :=
  let! st := release_cb st this in
  match pointer with
  | Some _ => let (c, st) := make_cb st pointer d in Ret (MkShared pointer (Some c), st)
  | None => Ret (MkShared pointer None, st)
  end.

Definition destroy (st : state) (this : shared_ptr) : outcome state :=
  let! (_, st) := reset st this in Ret st.

Definition use_count (st : state) (p : shared_ptr) : outcome Z :=
  match p_cb p with Some c => cb_use_count st c | None => Ret 0 end.

(** [operator*] *)
Definition deref (st : state) (p : shared_ptr) : outcome unit :=
  match p_obj p with Some o => load (objs st) o | None => Undef end.
Definition to_bool (p : shared_ptr) : bool := match p_obj p with Some _ => true | None => false end.

(** ** Programs over handles *)

Record world : Type := World { st : state; handles : gmap nat shared_ptr }.

Definition init : world := World (State empty_heap empty_heap [] []) ∅.

(** [new T], or a null pointer *)
Definition new_object (s : state) (null : bool) : option nat * state :=
  if null then (None, s)
  else let (o, objs') := alloc (objs s) tt in
       (Some o, State objs' (cbs s) (created s) (deleted s)).

Inductive action : Type :=
| Default (h : nat)
| Construct (h : nat) (null : bool) (d : D)       (* shared_ptr(new T, d) or shared_ptr(nullptr, d) *)
| CopyConstruct (h other : nat)
| MoveConstruct (h other : nat)
| CopyAssign (h other : nat)
| MoveAssign (h other : nat)
| Reset (h : nat)
| ResetTo (h : nat) (null : bool) (d : D)
| Destroy (h : nat).

(** Calls a program cannot write (a name already in use, or of no object) do
    nothing. *)
Definition exec (w : world) (a : action) : outcome world :=
  let s := st w in
  let hs := handles w in
  match a with
  | Default h =>
      match hs !! h with Some _ => Ret w | None => Ret (World s (<[h := null_shared]> hs)) end
  | Construct h null d =>
      match hs !! h with
      | Some _ => Ret w
      | None =>
          let (pointer, s) := new_object s null in
          let (p, s) := construct s pointer d in Ret (World s (<[h := p]> hs))
      end
  | CopyConstruct h other =>
      match hs !! h, hs !! other with
      | None, Some q => let! (p, s) := copy_construct s q in Ret (World s (<[h := p]> hs))
      | _, _ => Ret w
      end
  | MoveConstruct h other =>
      match hs !! h, hs !! other with
      | None, Some q => let (p, q) := move_construct q in Ret (World s (<[h := p]> (<[other := q]> hs)))
      | _, _ => Ret w
      end
  | CopyAssign h other =>
      match hs !! h, hs !! other with
      | Some p, Some q =>
          if (h =? other)%nat then Ret w
          else let! (p, s) := copy_assign s p q in Ret (World s (<[h := p]> hs))
      | _, _ => Ret w
      end
  | MoveAssign h other =>
      match hs !! h, hs !! other with
      | Some p, Some q =>
          if (h =? other)%nat then Ret w
          else let! (p, q, s) := move_assign s p q in
               Ret (World s (<[h := p]> (<[other := q]> hs)))
      | _, _ => Ret w
      end
  | Reset h =>
      match hs !! h with
      | Some p => let! (p, s) := reset s p in Ret (World s (<[h := p]> hs))
      | None => Ret w
      end
  | ResetTo h null d =>
      match hs !! h with
      | Some p =>
          let (pointer, s) := new_object s null in
          let! (p, s) := reset_to s p pointer d in Ret (World s (<[h := p]> hs))
      | None => Ret w
      end
  | Destroy h =>
      match hs !! h with
      | Some p => let! s := destroy s p in Ret (World s (delete h hs))
      | None => Ret w
      end
  end.

Fixpoint exec_all (w : world) (acts : list action) : outcome world :=
  match acts with
  | [] => Ret w
  | a :: acts => let! w := exec w a in exec_all w acts
  end.
End SharedPtr.

Arguments control_block D : clear implicits.
Arguments state D : clear implicits.
Arguments world D : clear implicits.
Arguments action D : clear implicits.

(** * Proofs *)

Section Proofs.
Context {D : Type}.
Implicit Types (s : state D) (hs : gmap nat shared_ptr) (p q : shared_ptr) (b : control_block D).
Implicit Types (h o c : nat) (d : D).

(** The number of handles on control block [c]. *)
Definition points_to c p : nat := if decide (p_cb p = Some c) then 1 else 0.
Definition refs hs c : nat := msum (points_to c) hs.

(** What a handle's pointers must satisfy. *)
Definition handle_ok s p : Prop :=
  match p_cb p with
  | Some c => ∃ b, blocks (cbs s) !! c = Some b ∧ cb_obj b = p_obj p
  | None => p_obj p = None
  end.

(** [raw] is an object the caller has allocated and not yet handed over. *)
Record inv s hs (raw : option nat) : Prop := Inv {
  i_cbs : heap_ok (cbs s);
  i_objs : heap_ok (objs s);
  i_count : ∀ c b, blocks (cbs s) !! c = Some b →
    m_count b = Z.of_nat (refs hs c) ∧ (0 < refs hs c)%nat;
  i_handle : ∀ h p, hs !! h = Some p → handle_ok s p;
  i_object : ∀ o, is_Some (blocks (objs s) !! o) ↔
    raw = Some o ∨ ∃ c b, blocks (cbs s) !! c = Some b ∧ cb_obj b = Some o;
  i_raw : ∀ c b, blocks (cbs s) !! c = Some b → cb_obj b = None ∨ cb_obj b ≠ raw;
  i_unique : ∀ c c' b b' o, blocks (cbs s) !! c = Some b → blocks (cbs s) !! c' = Some b' →
    cb_obj b = Some o → cb_obj b' = Some o → c = c';
  i_created : ∀ c b o, blocks (cbs s) !! c = Some b → cb_obj b = Some o →
    (o, cb_deleter b) ∈ created s;
  i_deleted : NoDup (deleted s).*1 ∧ deleted s ⊆ created s;
  i_where : ∀ o, o ∈ (deleted s).*1 ↔ (o < next_ (objs s))%nat ∧ blocks (objs s) !! o = None
}.

Implicit Types (raw : option nat).

Lemma shared_inv_init : inv (st init) (handles (init (D := D))) None.
Proof.
  split; simpl; try (intros c b Hb; by rewrite lookup_empty in Hb).
  - intros c [b Hb]. simpl in Hb. by rewrite lookup_empty in Hb.
  - intros c [b Hb]. simpl in Hb. by rewrite lookup_empty in Hb.
  - intros o. rewrite lookup_empty. split; [by intros [] |].
    intros [? | (c & b & Hb & _)]; [done | by rewrite lookup_empty in Hb].
  - intros c c' b b' o Hb. by rewrite lookup_empty in Hb.
  - intros c b o Hb. by rewrite lookup_empty in Hb.
  - split; [constructor | done].
  - intros o. rewrite elem_of_nil. lia.
Qed.

(** ** Counting *)

(** A name that no handle, or a handle without a control block, has. *)
Definition vacant hs h : Prop := ∀ p, hs !! h = Some p → p_cb p = None.

Lemma refs_insert_vacant hs h p c : vacant hs h → refs (<[h := p]> hs) c = (points_to c p + refs hs c)%nat.
Proof.
  intros Hv. pose proof (msum_insert (points_to c) hs h p) as Hs. unfold refs, at_key in *.
  destruct (hs !! h) as [p' |] eqn:Hh; simpl in Hs; [| lia].
  unfold points_to in Hs at 2. rewrite (Hv _ Hh), decide_False in Hs by done. lia.
Qed.

Lemma points_to_null c : points_to c null_shared = 0%nat.
Proof. done. Qed.

Lemma refs_vacate hs h p c :
  hs !! h = Some p → (refs (<[h := null_shared]> hs) c + points_to c p)%nat = refs hs c.
Proof.
  intros Hh. pose proof (msum_insert (points_to c) hs h null_shared) as Hs.
  unfold refs, at_key in *. rewrite Hh, points_to_null in Hs. cbn [from_option] in Hs. lia.
Qed.

Lemma refs_zero hs c h p : refs hs c = 0%nat → hs !! h = Some p → p_cb p ≠ Some c.
Proof.
  intros Hr Hh Hp. pose proof (msum_ge (points_to c) hs h p Hh) as Hle. unfold refs in Hr.
  unfold points_to in Hle at 1. rewrite decide_True in Hle by done. lia.
Qed.

Lemma vacant_null hs h : vacant (<[h := null_shared]> hs) h.
Proof. intros p. rewrite lookup_insert_eq. by intros [= <-]. Qed.

(** ** Handles without a control block *)

(** Two tables with the same counts, and good handles in the second. *)
Lemma inv_table s hs hs' raw :
  inv s hs raw → (∀ c, refs hs' c = refs hs c) → (∀ h p, hs' !! h = Some p → handle_ok s p) →
  inv s hs' raw.
Proof. intros [H1 H2 H3 H4 H5 H6 H7 H8 H9 H10] Hr Hh. split; try done. intros c b. rewrite Hr. apply H3. Qed.

Lemma inv_null s hs raw h : inv s hs raw → vacant hs h → inv s (<[h := null_shared]> hs) raw.
Proof.
  intros Hinv Hv. apply (inv_table s hs); [done | |].
  - intros c. by rewrite refs_insert_vacant.
  - intros h' p [[<- <-] | [_ Hp]]%lookup_insert_Some; [done | by eapply i_handle].
Qed.

Lemma shared_inv_forget s hs raw h : inv s hs raw → vacant hs h → inv s (delete h hs) raw.
Proof.
  intros Hinv Hv. apply (inv_table s hs); [done | |].
  - intros c. pose proof (msum_delete (points_to c) hs h) as Hd. unfold refs, at_key in *.
    destruct (hs !! h) as [p |] eqn:Hh; simpl in Hd; [| lia].
    unfold points_to in Hd at 2. rewrite (Hv _ Hh), decide_False in Hd by done. lia.
  - intros h' p [_ Hp]%lookup_delete_Some. by eapply i_handle.
Qed.

Lemma shared_inv_transfer s hs raw h h' q :
  inv s hs raw → vacant hs h → hs !! h' = Some q → h ≠ h' →
  inv s (<[h := q]> (<[h' := null_shared]> hs)) raw.
Proof.
  intros Hinv Hv Hq Hne. apply (inv_table s hs); [done | |].
  - intros c. rewrite refs_insert_vacant.
    + pose proof (refs_vacate hs h' q c Hq). lia.
    + intros p. rewrite lookup_insert_ne by done. apply Hv.
  - intros k p [[<- <-] | [_ [[<- <-] | [_ Hp]]%lookup_insert_Some]]%lookup_insert_Some;
      [by eapply i_handle | done | by eapply i_handle].
Qed.

(** ** The count of one control block changes *)

Definition with_count s c b (n : Z) : state D :=
  State (objs s) (Heap (next_ (cbs s)) (<[c := CB n (cb_obj b) (cb_deleter b)]> (blocks (cbs s))))
    (created s) (deleted s).

Lemma inv_recount s hs hs' raw c b :
  inv s hs raw → blocks (cbs s) !! c = Some b → (0 < refs hs' c)%nat →
  (∀ c', c' ≠ c → refs hs' c' = refs hs c') →
  (∀ h p, hs' !! h = Some p → handle_ok s p) →
  inv (with_count s c b (Z.of_nat (refs hs' c))) hs' raw.
Proof.
  intros [H1 H2 H3 _ H5 H6 H7 H8 H9 H10] Hb Hpos Hrefs Hhandles. unfold with_count.
  set (b1 := CB _ _ _).
  assert (∀ c' b', <[c := b1]> (blocks (cbs s)) !! c' = Some b' → ∃ b0,
    blocks (cbs s) !! c' = Some b0 ∧ cb_obj b0 = cb_obj b' ∧ cb_deleter b0 = cb_deleter b') as Hold.
  { intros c' b' [[<- <-] | [_ Hb']]%lookup_insert_Some; eauto. }
  assert (∀ c' b0, blocks (cbs s) !! c' = Some b0 → ∃ b',
    <[c := b1]> (blocks (cbs s)) !! c' = Some b' ∧ cb_obj b' = cb_obj b0) as Hnew.
  { intros c' b0 Hb0. destruct (decide (c' = c)) as [-> |].
    - exists b1. rewrite lookup_insert_eq. split; [done |]. simpl. congruence.
    - exists b0. by rewrite lookup_insert_ne. }
  split; cbn [cbs objs blocks next_ created deleted]; try done.
  - intros c' [b' Hb']. destruct (Hold _ _ Hb') as (b0 & Hb0 & _). apply H1. eauto.
  - intros c' b' [[<- <-] | [Hne Hb']]%lookup_insert_Some; [done |].
    rewrite Hrefs by done. by apply H3.
  - intros h' p' Hp'. specialize (Hhandles _ _ Hp'). unfold handle_ok in *. cbn [cbs blocks].
    destruct (p_cb p') as [c' |]; [| done].
    destruct Hhandles as (b0 & Hb0 & Ho'). destruct (Hnew _ _ Hb0) as (b' & ? & Hb').
    exists b'. by rewrite Hb'.
  - intros o. rewrite H5. f_equiv. split; intros (c' & b' & Hb' & Ho').
    + destruct (Hnew _ _ Hb') as (b0 & ? & Hb0). exists c', b0. by rewrite Hb0.
    + destruct (Hold _ _ Hb') as (b0 & ? & Hb0 & _). exists c', b0. by rewrite Hb0.
  - intros c' b' Hb'. destruct (Hold _ _ Hb') as (b0 & ? & <- & _). by eapply H6.
  - intros c1 c2 x1 x2 o Hx1 Hx2. destruct (Hold _ _ Hx1) as (y1 & ? & <- & _).
    destruct (Hold _ _ Hx2) as (y2 & ? & <- & _). by eapply H7.
  - intros c' b' o Hb'. destruct (Hold _ _ Hb') as (b0 & ? & <- & <-). by eapply H8.
Qed.

Lemma refs_le_size hs c : (refs hs c ≤ size hs)%nat.
Proof. apply msum_le_size. intros a. unfold points_to. destruct (decide _); lia. Qed.

Lemma set_count_eq s c b n :
  blocks (cbs s) !! c = Some b → set_count s c b n = Ret (with_count s c b n).
Proof. intros Hb. unfold set_count, store, load. by rewrite Hb. Qed.

(** ** Releasing a reference *)

Lemma release_shared s hs raw h p c b :
  inv s hs raw → hs !! h = Some p → p_cb p = Some c → blocks (cbs s) !! c = Some b →
  (1 < refs hs c)%nat → Z.of_nat (size hs) < 2 ^ 64 →
  ∃ s', release s c = Ret s' ∧ inv s' (<[h := null_shared]> hs) raw.
Proof.
  intros Hinv Hh Hp Hb Hr Hsize. destruct (i_count s hs raw Hinv c b Hb) as [Hcount _].
  pose proof (refs_le_size hs c). pose proof (λ c', refs_vacate hs h p c' Hh) as Hrefs.
  unfold points_to in Hrefs. pose proof (Hrefs c) as Hc. rewrite decide_True in Hc by done.
  unfold release, load. rewrite Hb. cbn [obind]. rewrite set_count_eq by done. cbn [obind].
  rewrite Hcount, (proj2 (Z.eqb_neq _ _)), u64_small by (unfold in_u64; lia).
  eexists. split; [done |].
  replace (Z.of_nat (refs hs c) - 1) with (Z.of_nat (refs (<[h := null_shared]> hs) c)) by lia.
  apply (inv_recount s hs); [done | done | lia | |].
  - intros c' Hne. specialize (Hrefs c'). rewrite decide_False in Hrefs by congruence. lia.
  - intros h' p' [[<- <-] | [_ Hp']]%lookup_insert_Some; [done | by eapply i_handle].
Qed.

(** The state once control block [c] and the object it owns are gone. *)
Definition owned_log b : list (nat * D) :=
  match cb_obj b with Some o => [(o, cb_deleter b)] | None => [] end.
Definition live_without s b : gmap nat unit :=
  match cb_obj b with Some o => delete o (blocks (objs s)) | None => blocks (objs s) end.
Definition dropped s c b : state D :=
  State (Heap (next_ (objs s)) (live_without s b)) (Heap (next_ (cbs s)) (delete c (blocks (cbs s))))
    (created s) (deleted s ++ owned_log b).

Lemma live_without_spec s b o :
  is_Some (live_without s b !! o) ↔ is_Some (blocks (objs s) !! o) ∧ cb_obj b ≠ Some o.
Proof.
  unfold live_without. destruct (cb_obj b) as [o' |].
  - destruct (decide (o' = o)) as [-> |].
    + rewrite lookup_delete_eq. split; [by intros [] | by intros []].
    + rewrite lookup_delete_ne by done. split; [| by intros []]. intros ?. split; [done | congruence].
  - split; [done | by intros []].
Qed.

Lemma release_last_eq s hs raw c b :
  inv s hs raw → blocks (cbs s) !! c = Some b → m_count b = 1 → release s c = Ret (dropped s c b).
Proof.
  intros Hinv Hb Hone. unfold release, load. rewrite Hb. cbn [obind].
  rewrite set_count_eq by done. cbn [obind]. rewrite Hone. cbn [Z.eqb Pos.eqb].
  unfold dropped, live_without, owned_log, call_deleter, free, load, with_count.
  destruct (cb_obj b) as [o |] eqn:Ho.
  - assert (is_Some (blocks (objs s) !! o)) as [u Hu] by (eapply i_object; eauto 6).
    cbn [objs]. rewrite Hu. cbn [obind cbs blocks next_]. rewrite lookup_insert_eq. cbn [obind].
    cbn [objs cbs created deleted]. by rewrite delete_insert_eq.
  - cbn [obind cbs blocks next_]. rewrite lookup_insert_eq. cbn [obind].
    cbn [objs cbs created deleted]. rewrite delete_insert_eq, app_nil_r. by destruct (objs s).
Qed.

(** The deleter log stays exact: it holds the objects no longer live, once each. *)
Lemma dropped_log s hs raw c b :
  inv s hs raw → blocks (cbs s) !! c = Some b →
  NoDup (deleted s ++ owned_log b).*1 ∧ deleted s ++ owned_log b ⊆ created s ∧
  ∀ o, o ∈ (deleted s ++ owned_log b).*1 ↔
    (o < next_ (objs s))%nat ∧ live_without s b !! o = None.
Proof.
  intros [H1 H2 H3 H4 H5 H6 H7 H8 [H9 H9'] H10] Hb.
  assert (∀ o, live_without s b !! o = None ↔ blocks (objs s) !! o = None ∨ cb_obj b = Some o) as Hlive.
  { intros o. rewrite !eq_None_not_Some, live_without_spec.
    destruct (decide (cb_obj b = Some o)); tauto. }
  assert (∀ o, cb_obj b = Some o → is_Some (blocks (objs s) !! o)) as Hown by (intros; apply H5; eauto 6).
  unfold owned_log. rewrite fmap_app. split_and!.
  - destruct (cb_obj b) as [o |] eqn:Ho; simpl; [| by rewrite app_nil_r].
    apply NoDup_app. split_and!; [done | | apply NoDup_singleton].
    intros x Hx ->%list_elem_of_singleton. apply H10 in Hx as [_ Hx].
    destruct (Hown o eq_refl). congruence.
  - destruct (cb_obj b) as [o |] eqn:Ho; simpl; [| by rewrite app_nil_r].
    apply list_subseteq_app_iff_l. split; [done |].
    intros x ->%list_elem_of_singleton. by eapply H8.
  - intros o. rewrite elem_of_app, H10, Hlive. destruct (cb_obj b) as [o' |] eqn:Ho; simpl.
    + rewrite list_elem_of_singleton. split; [intros [[? ?] | ->]; [tauto |] |].
      * split; [| by right]. apply H2, Hown. done.
      * intros [? [? | ?]]; [tauto | right; congruence].
    + rewrite elem_of_nil. split; [tauto |]. intros [? [? | ?]]; [tauto | done].
Qed.

Lemma inv_dropped s hs hs' raw c b :
  inv s hs raw → blocks (cbs s) !! c = Some b → refs hs' c = 0%nat →
  (∀ c', c' ≠ c → refs hs' c' = refs hs c') →
  (∀ h p, hs' !! h = Some p → handle_ok s p) →
  inv (dropped s c b) hs' raw.
Proof.
  intros Hinv Hb Hzero Hrefs Hhandles.
  pose proof (dropped_log _ _ _ _ _ Hinv Hb) as (Hnd & Hsub & Hwhere). pose proof live_without_spec as Hlw.
  destruct Hinv as [H1 H2 H3 _ H5 H6 H7 H8 _ _]. unfold dropped.
  assert (∀ c' b', delete c (blocks (cbs s)) !! c' = Some b' →
    c' ≠ c ∧ blocks (cbs s) !! c' = Some b') as Hold by (intros c' b' [? ?]%lookup_delete_Some; auto).
  split; cbn [cbs objs blocks next_ created deleted].
  - intros c' [b' Hb']. apply H1. destruct (Hold _ _ Hb'). eauto.
  - intros o Ho. cbn [blocks next_] in *. apply Hlw in Ho as [Ho _]. by apply H2.
  - intros c' b' [Hne Hb']%Hold. rewrite Hrefs by done. by apply H3.
  - intros h' p' Hp'. pose proof (refs_zero _ _ _ _ Hzero Hp') as Hne. specialize (Hhandles _ _ Hp').
    unfold handle_ok in *. cbn [cbs blocks]. destruct (p_cb p') as [c' |]; [| done].
    destruct Hhandles as (b' & Hb' & Ho'). exists b'. rewrite lookup_delete_ne by congruence. done.
  - intros o. rewrite live_without_spec, H5. split.
    + intros [[-> | (c' & b' & Hb' & Ho')] Hne]; [by left |]. right. exists c', b'.
      rewrite lookup_delete_ne by congruence. done.
    + intros [-> | (c' & b' & [Hne Hb']%Hold & Ho')].
      * split; [by left |]. by destruct (H6 _ _ Hb) as [-> | ?].
      * split; [right; eauto |]. intros Ho. apply Hne. by eapply H7.
  - intros c' b' [_ Hb']%Hold. by eapply H6.
  - intros c1 c2 b1 b2 o [_ Hb1]%Hold [_ Hb2]%Hold. by eapply H7.
  - intros c' b' o [_ Hb']%Hold. by eapply H8.
  - done.
  - done.
Qed.

(** [if (p_cb) p_cb->release();] on a handle, which it leaves without a target. *)
Lemma release_cb_returns s hs raw h p :
  inv s hs raw → hs !! h = Some p → Z.of_nat (size hs) < 2 ^ 64 →
  ∃ s', release_cb s p = Ret s' ∧ inv s' (<[h := null_shared]> hs) raw.
Proof.
  intros Hinv Hh Hsize. unfold release_cb. destruct (p_cb p) as [c |] eqn:Hp.
  2: { exists s. split; [done |]. apply inv_null; [done |]. intros p' ?. by simplify_eq. }
  pose proof (i_handle _ _ _ Hinv _ _ Hh) as Hok. unfold handle_ok in Hok. rewrite Hp in Hok.
  destruct Hok as (b & Hb & _). destruct (i_count _ _ _ Hinv c b Hb) as [Hcount Hpos].
  destruct (decide (refs hs c = 1%nat)) as [Hr | Hr].
  - exists (dropped s c b). rewrite (release_last_eq s hs raw c b) by (done || lia). split; [done |].
    pose proof (λ c', refs_vacate hs h p c' Hh) as Hrefs. unfold points_to in Hrefs.
    apply (inv_dropped s hs); [done | done | | |].
    + specialize (Hrefs c). rewrite decide_True in Hrefs by done. lia.
    + intros c' Hne. specialize (Hrefs c'). rewrite decide_False in Hrefs by congruence. lia.
    + intros h' p' [[<- <-] | [_ Hp']]%lookup_insert_Some; [done | by eapply i_handle].
  - eapply release_shared; (done || lia).
Qed.

(** ** Taking a reference *)

Lemma add_ref_cb_returns s hs raw h h' q :
  inv s hs raw → vacant hs h → hs !! h' = Some q → Z.of_nat (size hs) < 2 ^ 64 - 1 →
  ∃ s', add_ref_cb s q = Ret s' ∧ inv s' (<[h := q]> hs) raw.
Proof.
  intros Hinv Hv Hq Hsize. unfold add_ref_cb. destruct (p_cb q) as [c |] eqn:Hc.
  - pose proof (i_handle _ _ _ Hinv _ _ Hq) as Hok. unfold handle_ok in Hok. rewrite Hc in Hok.
    destruct Hok as (b & Hb & _). destruct (i_count _ _ _ Hinv c b Hb) as [Hcount Hpos].
    pose proof (refs_le_size hs c). unfold add_ref, load. rewrite Hb. cbn [obind].
    rewrite set_count_eq by done. eexists. split; [done |].
    assert (∀ c', refs (<[h := q]> hs) c' = (points_to c' q + refs hs c')%nat) as Hrefs
      by (intros; by apply refs_insert_vacant). unfold points_to in Hrefs.
    pose proof (Hrefs c) as Hrc. rewrite decide_True in Hrc by done.
    rewrite Hcount, u64_small by (unfold in_u64; lia).
    replace (Z.of_nat (refs hs c) + 1) with (Z.of_nat (refs (<[h := q]> hs) c)) by lia.
    apply (inv_recount s hs); [done | done | lia | |].
    + intros c' Hne. rewrite Hrefs, decide_False by congruence. done.
    + intros k p [[<- <-] | [_ Hp]]%lookup_insert_Some; by eapply i_handle.
  - exists s. split; [done |]. apply (inv_table s hs); [done | |].
    + intros c. rewrite refs_insert_vacant by done. unfold points_to.
      by rewrite decide_False by congruence.
    + intros k p [[<- <-] | [_ Hp]]%lookup_insert_Some; by eapply i_handle.
Qed.

(** ** New objects and control blocks *)

Lemma new_object_inv s hs null :
  inv s hs None → inv (new_object s null).2 hs (new_object s null).1.
Proof.
  intros Hinv. unfold new_object. destruct null; [done |]. simpl.
  destruct Hinv as [H1 H2 H3 H4 H5 H6 H7 H8 H9 H10].
  assert (blocks (objs s) !! next_ (objs s) = None) as Hfresh.
  { apply eq_None_not_Some. intros Ho%H2. lia. }
  assert (∀ c b, blocks (cbs s) !! c = Some b → cb_obj b ≠ Some (next_ (objs s))) as Hno.
  { intros c b Hb Ho. assert (is_Some (blocks (objs s) !! next_ (objs s))) as [u Hu]
      by (apply H5; eauto 6). congruence. }
  split; cbn [cbs objs blocks next_ created deleted]; try done.
  - intros o Ho. cbn [blocks next_] in *. destruct (decide (o = next_ (objs s))) as [-> |]; [lia |].
    rewrite lookup_insert_ne in Ho by done. apply H2 in Ho. lia.
  - intros o. destruct (decide (o = next_ (objs s))) as [-> | Hne].
    + rewrite lookup_insert_eq. split; [by left | by eauto].
    + rewrite lookup_insert_ne, H5 by done. split; [intros [? | ?]; [done | by right] |].
      intros [[= Heq] | ?]; [congruence | by right].
  - intros c b Hb. right. by eapply Hno.
  - intros o. rewrite H10. destruct (decide (o = next_ (objs s))) as [-> | Hne].
    + rewrite lookup_insert_eq. split; [lia | by intros []].
    + rewrite lookup_insert_ne by done. split; intros [? ?]; (split; [lia | done]).
Qed.

Lemma make_cb_inv s hs raw h d :
  inv s hs raw → vacant hs h →
  inv (make_cb s raw d).2 (<[h := MkShared raw (Some (make_cb s raw d).1)]> hs) None.
Proof.
  intros [H1 H2 H3 H4 H5 H6 H7 H8 [H9 H9'] H10] Hv. unfold make_cb. simpl.
  set (c := next_ (cbs s)).
  assert (blocks (cbs s) !! c = None) as Hfresh.
  { apply eq_None_not_Some. intros Hc%H1. unfold c in Hc. lia. }
  set (p := MkShared raw (Some c)).
  assert (∀ c', refs (<[h := p]> hs) c' = (points_to c' p + refs hs c')%nat) as Hrefs
    by (intros; by apply refs_insert_vacant). unfold points_to in Hrefs. simpl in Hrefs.
  assert (refs hs c = 0%nat) as Hzero.
  { destruct (decide (0 < refs hs c)%nat) as [Hpos |]; [| lia].
    apply msum_pos in Hpos as (k & q & Hq & Hpt). unfold points_to in Hpt.
    destruct (decide (p_cb q = Some c)) as [Hqc |]; [| lia].
    specialize (H4 _ _ Hq). unfold handle_ok in H4. rewrite Hqc in H4. destruct H4 as (b & Hb & _).
    congruence. }
  split; cbn [cbs objs blocks next_ created deleted].
  - intros c' Hc'. cbn [blocks next_] in *. destruct (decide (c' = c)) as [-> |]; [unfold c; lia |].
    rewrite lookup_insert_ne in Hc' by done. apply H1 in Hc'. unfold c. lia.
  - done.
  - intros c' b' [[<- <-] | [Hne Hb']]%lookup_insert_Some.
    + rewrite Hrefs, decide_True, Hzero by done. simpl. lia.
    + rewrite Hrefs, decide_False by congruence. by apply H3.
  - intros k q [[<- <-] | [_ Hq]]%lookup_insert_Some.
    + unfold handle_ok. simpl. eexists. by rewrite lookup_insert_eq.
    + specialize (H4 _ _ Hq). unfold handle_ok in *. cbn [cbs blocks].
      destruct (p_cb q) as [c' |]; [| done]. destruct H4 as (b & Hb & ?). exists b.
      rewrite lookup_insert_ne by congruence. done.
  - intros o. rewrite H5. split.
    + intros [-> | (c' & b' & Hb' & Ho')]; right.
      * eexists c, _. by rewrite lookup_insert_eq.
      * exists c', b'. rewrite lookup_insert_ne by congruence. done.
    + intros [? | (c' & b' & [[<- <-] | [_ Hb']]%lookup_insert_Some & Ho')]; [done | by left |].
      right. eauto.
  - intros c' b' _. destruct (cb_obj b'); [by right | by left].
  - intros c1 c2 b1 b2 o [[<- <-] | [_ Hb1]]%lookup_insert_Some
      [[<- <-] | [_ Hb2]]%lookup_insert_Some Ho1 Ho2; [done | | |]; simpl in *.
    + destruct (H6 _ _ Hb2); congruence.
    + destruct (H6 _ _ Hb1); congruence.
    + by eapply H7.
  - intros c' b' o [[<- <-] | [_ Hb']]%lookup_insert_Some Ho; simpl in *.
    + subst raw. apply elem_of_app. right. by constructor.
    + specialize (H8 _ _ _ Hb' Ho). destruct raw; [apply elem_of_app; by left | done].
  - split; [done |]. intros x Hx%H9'. destruct raw; [apply elem_of_app; by left | done].
  - done.
Qed.

(** ** Whole calls *)

Implicit Types (w : world D).

Definition world_ok (n : nat) w : Prop := inv (st w) (handles w) None ∧ (size (handles w) ≤ n)%nat.

Lemma size_insert_le hs h p : (size (<[h := p]> hs) ≤ S (size hs))%nat.
Proof. rewrite map_size_insert. destruct (hs !! h); simpl; lia. Qed.

Lemma size_insert_same hs h p q : hs !! h = Some q → size (<[h := p]> hs) = size hs.
Proof. intros Hq. by rewrite map_size_insert, Hq. Qed.

Lemma vacant_fresh hs h : hs !! h = None → vacant hs h.
Proof. intros Hh p. by rewrite Hh. Qed.

Lemma eta_shared p : MkShared (p_obj p) (p_cb p) = p.
Proof. by destruct p. Qed.

Lemma reset_to_returns s hs h p pointer d :
  inv s hs pointer → hs !! h = Some p → Z.of_nat (size hs) < 2 ^ 64 →
  ∃ q s', reset_to s p pointer d = Ret (q, s') ∧ inv s' (<[h := q]> hs) None.
Proof.
  intros Hinv Hp Hsize. unfold reset_to.
  destruct (release_cb_returns _ _ _ _ _ Hinv Hp Hsize) as (s1 & -> & Hinv1). cbn [obind].
  destruct pointer as [o |].
  - pose proof (make_cb_inv _ _ _ h d Hinv1 (vacant_null _ _)) as Hinv2.
    destruct (make_cb s1 (Some o) d) as [c s2]. simpl in Hinv2. rewrite insert_insert_eq in Hinv2. eauto.
  - eauto.
Qed.

Lemma shared_exec_returns n w a :
  world_ok n w → Z.of_nat n < 2 ^ 64 - 1 → ∃ w', exec w a = Ret w' ∧ world_ok (S n) w'.
Proof.
  intros [Hinv Hsize] Hn. unfold exec. destruct w as [s hs]. simpl in *.
  assert (world_ok (S n) (World s hs)) as Hsame by (split; simpl; [done | lia]).
  assert (∀ s' h p, inv s' (<[h := p]> hs) None → world_ok (S n) (World s' (<[h := p]> hs))) as Hone.
  { intros s' h p Hi. split; [done |]. simpl. pose proof (size_insert_le hs h p). lia. }
  destruct a as [h | h null d | h h' | h h' | h h' | h h' | h | h null d | h];
    destruct (hs !! h) as [p |] eqn:Hh; eauto; try destruct (hs !! h') as [q |] eqn:Hq; eauto.
  - eexists. split; [done |]. by apply Hone, inv_null, vacant_fresh.
  - pose proof (new_object_inv s hs null Hinv) as Hnew. destruct (new_object s null) as [pointer s1].
    unfold construct. pose proof (make_cb_inv _ _ _ h d Hnew (vacant_fresh _ _ Hh)) as Hcb.
    simpl in Hcb. destruct (make_cb s1 pointer d) as [c s2]. eexists. split; [done |]. by apply Hone.
  - unfold copy_construct.
    destruct (add_ref_cb_returns s hs None h h' q Hinv (vacant_fresh _ _ Hh) Hq) as (s' & -> & Hinv'); [lia |].
    eexists. split; [done |]. by apply Hone.
  - simpl. assert (h ≠ h') as Hne by congruence. eexists. split; [done |].
    pose proof (shared_inv_transfer _ _ _ _ _ _ Hinv (vacant_fresh _ _ Hh) Hq Hne) as Hinv'. split; [done |].
    simpl. pose proof (size_insert_le (<[h' := null_shared]> hs) h q).
    rewrite (size_insert_same hs h' null_shared q Hq) in *. lia.
  - destruct (Nat.eqb_spec h h') as [-> | Hne]; [by eauto |]. unfold copy_assign.
    destruct (release_cb_returns _ _ _ _ _ Hinv Hh) as (s1 & -> & Hinv1); [lia |]. cbn [obind].
    rewrite eta_shared.
    destruct (add_ref_cb_returns s1 _ None h h' q Hinv1 (vacant_null _ _)) as (s2 & -> & Hinv2).
    + by rewrite lookup_insert_ne.
    + rewrite (size_insert_same _ _ _ _ Hh). lia.
    + rewrite insert_insert_eq in Hinv2. eexists. split; [done |]. by apply Hone.
  - destruct (Nat.eqb_spec h h') as [-> | Hne]; [by eauto |]. unfold move_assign.
    destruct (release_cb_returns _ _ _ _ _ Hinv Hh) as (s1 & -> & Hinv1); [lia |]. cbn [obind].
    rewrite eta_shared. eexists. split; [done |].
    assert (<[h := null_shared]> hs !! h' = Some q) as Hq' by by rewrite lookup_insert_ne.
    pose proof (shared_inv_transfer _ _ _ _ _ _ Hinv1 (vacant_null _ _) Hq' Hne) as Hinv2.
    rewrite (insert_insert_ne hs h' h), insert_insert_eq in Hinv2 by done. split; [done |]. simpl.
    pose proof (size_insert_le (<[h' := null_shared]> hs) h q).
    rewrite (size_insert_same hs h' null_shared q Hq) in *. lia.
  - unfold reset. destruct (release_cb_returns _ _ _ _ _ Hinv Hh) as (s1 & -> & Hinv1); [lia |].
    eexists. split; [done |]. by apply Hone.
  - pose proof (new_object_inv s hs null Hinv) as Hnew. destruct (new_object s null) as [pointer s1].
    destruct (reset_to_returns s1 hs h p pointer d Hnew Hh) as (q & s2 & -> & Hinv2); [lia |].
    eexists. split; [done |]. by apply Hone.
  - unfold destroy, reset. destruct (release_cb_returns _ _ _ _ _ Hinv Hh) as (s1 & -> & Hinv1); [lia |].
    eexists. split; [done |]. pose proof (shared_inv_forget _ _ _ h Hinv1 (vacant_null _ _)) as Hinv2.
    rewrite delete_insert_eq in Hinv2. split; [done |]. simpl.
    rewrite map_size_delete, Hh. simpl. lia.
Qed.

Lemma shared_exec_all_returns acts n w :
  world_ok n w → Z.of_nat (n + length acts) < 2 ^ 64 - 1 →
  ∃ w', exec_all w acts = Ret w' ∧ inv (st w') (handles w') None.
Proof.
  revert n w. induction acts as [| a acts IH]; intros n w Hw Hn; simpl in *.
  - exists w. split; [done | apply Hw].
  - destruct (shared_exec_returns n w a Hw) as (w1 & -> & Hw1); [lia |]. simpl.
    apply (IH (S n)); [done | lia].
Qed.

Lemma world_ok_init : world_ok 0 init.
Proof. split; [exact shared_inv_init | done]. Qed.

(** An object is alive exactly while some handle refers to it. *)
Lemma live_iff_handle s hs o :
  inv s hs None → is_Some (blocks (objs s) !! o) ↔ ∃ h p, hs !! h = Some p ∧ p_obj p = Some o.
Proof.
  intros Hinv. rewrite (i_object _ _ _ Hinv). split.
  - intros [? | (c & b & Hb & Ho)]; [done |]. destruct (i_count _ _ _ Hinv c b Hb) as [_ Hpos].
    apply msum_pos in Hpos as (h & p & Hp & Hpt). unfold points_to in Hpt.
    destruct (decide (p_cb p = Some c)) as [Hc |]; [| lia]. exists h, p. split; [done |].
    pose proof (i_handle _ _ _ Hinv _ _ Hp) as Hok. unfold handle_ok in Hok. rewrite Hc in Hok.
    destruct Hok as (b' & Hb' & <-). congruence.
  - intros (h & p & Hp & Ho). right. pose proof (i_handle _ _ _ Hinv _ _ Hp) as Hok.
    unfold handle_ok in Hok. destruct (p_cb p) as [c |]; [| congruence].
    destruct Hok as (b & Hb & Hbo). exists c, b. split; [done | congruence].
Qed.
End Proofs.

(** * Properties *)

(** No program over [shared_ptr]s frees twice or uses freed memory.  Every
    sequence of constructions, copies, moves, assignments, resets and
    destructions runs to its end; then each handle's [use_count] is the number
    of handles that share its control block, and a handle that tests true can
    be dereferenced. *)
Theorem shared_ptr_safe {D} (acts : list (action D)) :
  zlen acts < 2 ^ 64 - 1 →
  ∃ w, exec_all init acts = Ret w ∧
    ∀ h p, handles w !! h = Some p →
      use_count (st w) p = Ret (match p_cb p with
        | Some c => Z.of_nat (msum (points_to c) (handles w)) | None => 0 end) ∧
      (to_bool p = true → deref (st w) p = Ret tt).
Proof.
  intros Hlen. destruct (shared_exec_all_returns acts 0 init world_ok_init) as (w & Hw & Hinv); [lia |].
  exists w. split; [done |]. intros h p Hp. split.
  - pose proof (i_handle _ _ _ Hinv _ _ Hp) as Hok. unfold handle_ok, use_count, cb_use_count, load in *.
    destruct (p_cb p) as [c |]; [| done]. destruct Hok as (b & Hb & _). rewrite Hb. simpl. f_equal.
    by apply (i_count _ _ _ Hinv c b Hb).
  - unfold to_bool, deref, load. destruct (p_obj p) as [o |] eqn:Ho; [| done]. intros _.
    assert (is_Some (blocks (objs (st w)) !! o)) as [[] ->] by (eapply live_iff_handle; eauto). done.
Qed.

(** Shared objects are deleted exactly once, by their own deleter, when the
    last handle to them goes: an object handed out so far has been deleted iff
    no handle refers to it, never twice, and with the deleter it was
    constructed with; when no handle is left both heaps are empty. *)
Theorem shared_ptr_lifetime {D} (acts : list (action D)) w :
  zlen acts < 2 ^ 64 - 1 → exec_all init acts = Ret w →
  (∀ o, (o < next_ (objs (st w)))%nat →
    o ∈ (deleted (st w)).*1 ↔ ¬ ∃ h p, handles w !! h = Some p ∧ p_obj p = Some o) ∧
  NoDup (deleted (st w)).*1 ∧ deleted (st w) ⊆ created (st w) ∧
  (handles w = ∅ → blocks (objs (st w)) = ∅ ∧ blocks (cbs (st w)) = ∅).
Proof.
  intros Hlen Hw. destruct (shared_exec_all_returns acts 0 init world_ok_init) as (w' & Hw' & Hinv); [lia |].
  rewrite Hw in Hw'. injection Hw' as <-. destruct (i_deleted _ _ _ Hinv) as [Hnd Hsub].
  split_and!; [| done | done |].
  - intros o Ho. rewrite (i_where _ _ _ Hinv), eq_None_not_Some, (live_iff_handle _ _ _ Hinv). tauto.
  - intros Hempty. split; apply map_eq; intros x; rewrite lookup_empty; apply eq_None_not_Some.
    + intros Hx. apply (live_iff_handle _ _ _ Hinv) in Hx as (h & p & Hp & _).
      by rewrite Hempty, lookup_empty in Hp.
    + intros [b Hb]. destruct (i_count _ _ _ Hinv x b Hb) as [_ Hpos]. unfold refs in Hpos.
      rewrite Hempty, msum_empty in Hpos. lia.
Qed.

(** ** Concrete programs *)

Module Demo.
(** Two owners of one object, then a reassignment and two destructions. *)
Definition program : list (action nat) :=
  [Construct 0 false 70; CopyConstruct 1 0; Construct 2 false 71; CopyAssign 0 2;
   MoveAssign 2 1; Destroy 1; Destroy 2]%nat.
Definition end_world : world nat :=
  match exec_all init program with Ret w => w | _ => init end.

Example shared_program_runs : exec_all init program = Ret end_world.
Proof. vm_compute. reflexivity. Qed.

(** Object 0 went with its last handle, by deleter 70; object 1 lives on in handle 0. *)
Example shared_program_log :
  deleted (st end_world) = [(0, 70)]%nat ∧ handles end_world = {[0%nat := MkShared (Some 1%nat) (Some 1%nat)]}.
Proof. vm_compute. done. Qed.
End Demo.

Lemma shared_ptr_safe_witness : ∃ w, exec_all init Demo.program = Ret w ∧
  ∀ h p, handles w !! h = Some p →
    use_count (st w) p = Ret (match p_cb p with
      | Some c => Z.of_nat (msum (points_to c) (handles w)) | None => 0 end) ∧
    (to_bool p = true → deref (st w) p = Ret tt).
Proof. apply (shared_ptr_safe Demo.program). simpl. lia. Defined.

Lemma shared_ptr_lifetime_witness :
  NoDup (deleted (st Demo.end_world)).*1 ∧ 1%nat ∉ (deleted (st Demo.end_world)).*1.
Proof.
  destruct (shared_ptr_lifetime Demo.program Demo.end_world ltac:(simpl; lia) Demo.shared_program_runs)
    as (H1 & H2 & _).
  split; [exact H2 |]. intros Hin. apply (H1 1%nat) in Hin; [| vm_compute; lia].
  apply Hin. exists 0%nat, (MkShared (Some 1%nat) (Some 1%nat)). vm_compute. done.
Defined.
