(* ===== verification/SharedThreads.v ===== *)
(** * SharedThreads: [shared_ptr] handles used by many threads

    Models [src/include/fiah/handle/SharedPtr.hh] again, now with the atomic
    [m_count] accessed by any number of threads: [fetch_add], [fetch_sub], the
    load of [use_count], the deleter call and the freeing of the control block
    are steps of their own, interleaved in every order (sequential
    consistency).  Memory, control blocks and handles are those of [SharedPtr].

    A [shared_ptr] object itself is not synchronised: as for every C++ object, a
    program must not call a function that writes it while another call on it
    runs.  A handle being written is out of the table [handles] and held by the
    thread that writes it; a call whose handle is not there, or is being read,
    is a program error and does nothing here. *)

From stdpp Require Import base tactics numbers list option gmap.
From Stdlib Require Import ZArith Lia.
From S2P Require Import Prelude Heap SharedPtr.
#[local] Open Scope Z_scope.
#[local] Open Scope fiah_scope.

Section SharedThreads.
Context {D : Type}.

(** What a function does after [p_cb->release()]. *)
Inductive after : Type :=
| K_copy (other : nat)                             (* operator=(const shared_ptr &) *)
| K_move (other : nat) (q : shared_ptr)            (* operator=(shared_ptr &&); [q] is in [other] *)
| K_null                                           (* reset() *)
| K_point_to (pointer : option nat) (d : D)        (* reset(pointer, d) *)
| K_destroy.                                       (* ~shared_ptr() *)

(** A call that writes the handle [target]. *)
Record frame : Type := Frame { target : nat; this : shared_ptr; todo : after }.

(** Where a thread is inside a call; a thread with no entry is in none. *)
Inductive pc : Type :=
| Add (c : nat) (h : nat) (this : shared_ptr) (other : nat)   (* before m_count.fetch_add *)
| Sub (c : nat) (f : frame)                                   (* before m_count.fetch_sub *)
| Deleting (c : nat) (f : frame)                              (* the count was 1; before the deleter *)
| Freeing (c : nat) (f : frame)                               (* before destroy_at(this), operator delete *)
| Rest (f : frame)                                            (* after release() *)
| Load (c : nat) (h : nat).                                   (* use_count(): before m_count.load *)

Record world : Type := World {
  mem : state D;
  handles : gmap nat shared_ptr;
  threads : gmap nat pc
}.

Definition init : world := World (State empty_heap empty_heap [] []) ∅ ∅.

Inductive event : Type := Ev_use_count (t : nat) (n : Z).

(** ** Names in use *)

(** The handles a call writes, and the one it reads. *)
Definition named (h : nat) (p : pc) : nat :=
  let f_named (f : frame) : nat :=
    ((if decide (target f = h) then 1 else 0) +
     match todo f with K_move other _ => if decide (other = h) then 1 else 0 | _ => 0 end)%nat in
  match p with
  | Add _ h' _ _ => if decide (h' = h) then 1%nat else 0%nat
  | Sub _ f | Deleting _ f | Freeing _ f | Rest f => f_named f
  | Load _ _ => 0%nat
  end.

Definition reading (h : nat) (p : pc) : nat :=
  let f_reading (f : frame) : nat :=
    match todo f with K_copy other => if decide (other = h) then 1%nat else 0%nat | _ => 0%nat end in
  match p with
  | Add _ _ _ other => if decide (other = h) then 1%nat else 0%nat
  | Sub _ f | Deleting _ f | Freeing _ f | Rest f => f_reading f
  | Load _ h' => if decide (h' = h) then 1%nat else 0%nat
  end.

Definition unused (w : world) (h : nat) : bool :=
  bool_decide (handles w !! h = None) && (msum (named h) (threads w) =? 0)%nat.
Definition unread (w : world) (h : nat) : bool := (msum (reading h) (threads w) =? 0)%nat.

(** ** Steps *)

(** [this->release()] when [p_cb] is set, and what follows it. *)
Definition begin_release (f : frame) : pc :=
  match p_cb (this f) with Some c => Sub c f | None => Rest f end.

Definition at_pc (w : world) (s : state D) (t : nat) (p : pc) : world :=
  World s (handles w) (<[t := p]> (threads w)).
(** The call of [t] returns, and leaves [p] in the handle [h]. *)
Definition finish (w : world) (s : state D) (t h : nat) (p : shared_ptr) : world :=
  World s (<[h := p]> (handles w)) (delete t (threads w)).

(** The deleter call and [p_obj = nullptr]: nothing in between is atomic. *)
Definition delete_object (s : state D) (c : nat) : outcome (state D) :=
  let! b := load (cbs s) c in
  match cb_obj b with
  | Some o =>
      let! s := call_deleter s (cb_deleter b) o in
      let! cbs' := store (cbs s) c (CB (m_count b) None (cb_deleter b)) in
      Ret (State (objs s) cbs' (created s) (deleted s))
  | None => Ret s
  end.

Definition free_block (s : state D) (c : nat) : outcome (state D) :=
  let! cbs' := free (cbs s) c in Ret (State (objs s) cbs' (created s) (deleted s)).

(** What a call does after releasing the old control block. *)
Definition run_rest (w : world) (t : nat) (f : frame) : outcome world :=
  let s := mem w in
  match todo f with
  | K_copy other =>
      match handles w !! other with
      | None => Undef
      | Some q =>
          match p_cb q with
          | Some c => Ret (at_pc w s t (Add c (target f) q other))
          | None => Ret (finish w s t (target f) q)
          end
      end
  | K_move other q =>
      let (this, q) := move_construct q in
      Ret (finish (World s (<[other := q]> (handles w)) (threads w)) s t (target f) this)
  | K_null => Ret (finish w s t (target f) null_shared)
  | K_point_to pointer d =>
      match pointer with
      | Some _ =>
          let (c, s) := make_cb s pointer d in
          Ret (finish w s t (target f) (MkShared pointer (Some c)))
      | None => Ret (finish w s t (target f) (MkShared pointer None))
      end
  | K_destroy => Ret (World s (handles w) (delete t (threads w)))
  end.

(** The next step of thread [t]. *)
Definition run_step (w : world) (t : nat) : outcome (world * option event) :=
  let s := mem w in
  match threads w !! t with
  | None => Ret (w, None)
  | Some (Add c h this other) =>
      let! s := add_ref s c in Ret (finish w s t h this, None)
  | Some (Sub c f) =>
      let! b := load (cbs s) c in
      let! s := set_count s c b (m_count b -u64 1) in
      Ret (at_pc w s t (if m_count b =? 1 then Deleting c f else Rest f), None)
  | Some (Deleting c f) =>
      let! s := delete_object s c in Ret (at_pc w s t (Freeing c f), None)
  | Some (Freeing c f) =>
      let! s := free_block s c in Ret (at_pc w s t (Rest f), None)
  | Some (Rest f) => let! w := run_rest w t f in Ret (w, None)
  | Some (Load c h) =>
      let! n := cb_use_count s c in
      Ret (World s (handles w) (delete t (threads w)), Some (Ev_use_count t n))
  end.

(** ** Calls *)

Inductive call : Type :=
| Default
| Construct (null : bool) (d : D)         (* shared_ptr(new T, d) or shared_ptr(nullptr, d) *)
| CopyConstruct (other : nat)
| MoveConstruct (other : nat)
| CopyAssign (other : nat)
| MoveAssign (other : nat)
| Reset
| ResetTo (null : bool) (d : D)
| Destroy
| UseCount
| Deref.

Inductive action : Type :=
| Call (t h : nat) (c : call)             (* thread [t] calls a function of handle [h] *)
| Run (t : nat).

(** Thread [t] takes the handle [h] out of the table to write it. *)
Definition take_handle (w : world) (s : state D) (t h : nat) (p : shared_ptr) (k : after) : world :=
  World s (delete h (handles w)) (<[t := begin_release (Frame h p k)]> (threads w)).

(** The functions that create the handle [h]. *)
Definition create (w : world) (t h : nat) (c : call) : outcome (world * option event) :=
  let s := mem w in
  let put (s : state D) (p : shared_ptr) := World s (<[h := p]> (handles w)) (threads w) in
  match c with
  | Default => Ret (put s null_shared, None)
  | Construct null d =>
      let (pointer, s) := new_object s null in
      let (p, s) := construct s pointer d in Ret (put s p, None)
  | CopyConstruct other =>
      match handles w !! other with
      | Some q =>
          match p_cb q with
          | Some c => Ret (at_pc w s t (Add c h q other), None)
          | None => Ret (put s q, None)
          end
      | None => Ret (w, None)
      end
  | MoveConstruct other =>
      match handles w !! other with
      | Some q =>
          if unread w other then
            let (p, q) := move_construct q in
            Ret (World s (<[h := p]> (<[other := q]> (handles w))) (threads w), None)
          else Ret (w, None)
      | None => Ret (w, None)
      end
  | _ => Ret (w, None)
  end.

(** The functions that write the handle [h], whose value is [p]. *)
Definition modify (w : world) (t h : nat) (p : shared_ptr) (c : call)
  : outcome (world * option event) :=
  let s := mem w in
  match c with
  | CopyAssign other =>
      match handles w !! other with
      | Some _ =>
          if (h =? other)%nat then Ret (w, None) else Ret (take_handle w s t h p (K_copy other), None)
      | None => Ret (w, None)
      end
  | MoveAssign other =>
      match handles w !! other with
      | Some q =>
          if (h =? other)%nat then Ret (w, None)
          else if unread w other then
            Ret (take_handle (World s (delete other (handles w)) (threads w)) s t h p (K_move other q), None)
          else Ret (w, None)
      | None => Ret (w, None)
      end
  | Reset => Ret (take_handle w s t h p K_null, None)
  | ResetTo null d =>
      let (pointer, s) := new_object s null in Ret (take_handle w s t h p (K_point_to pointer d), None)
  | Destroy => Ret (take_handle w s t h p K_destroy, None)
  | _ => Ret (w, None)
  end.

(** The functions that only read the handle; a null handle is not dereferenced. *)
Definition observe (w : world) (t h : nat) (p : shared_ptr) (c : call)
  : outcome (world * option event) :=
  match c with
  | UseCount =>
      match p_cb p with
      | Some c => Ret (at_pc w (mem w) t (Load c h), None)
      | None => Ret (w, Some (Ev_use_count t 0))
      end
  | Deref => if to_bool p then let! _ := deref (mem w) p in Ret (w, None) else Ret (w, None)
  | _ => Ret (w, None)
  end.

Definition begin_call (w : world) (t h : nat) (c : call) : outcome (world * option event) :=
  match handles w !! h with
  | Some p =>
      match c with
      | UseCount | Deref => observe w t h p c
      | _ => if unread w h then modify w t h p c else Ret (w, None)
      end
  | None => if unused w h then create w t h c else Ret (w, None)
  end.

Definition exec (w : world) (a : action) : outcome (world * option event) :=
  match a with
  | Call t h c => match threads w !! t with None => begin_call w t h c | Some _ => Ret (w, None) end
  | Run t => run_step w t
  end.
End SharedThreads.

Arguments after D : clear implicits.
Arguments frame D : clear implicits.
Arguments pc D : clear implicits.
Arguments world D : clear implicits.
Arguments call D : clear implicits.
Arguments action D : clear implicits.

#[export] Instance shared_ptr_eq_dec : EqDecision shared_ptr.
Proof. solve_decision. Defined.

(** * Proofs *)

Section Proofs.
Context {D : Type}.
Implicit Types (s : state D) (hs : gmap nat shared_ptr) (thr : gmap nat (pc D)).
Implicit Types (v p q : shared_ptr) (f : frame D) (b : control_block D) (h c o t : nat) (x : option nat).

(** ** What is counted

    Every fact about sharing is a count over the handles and the threads, so a
    step is checked by adding up. *)

(** Counted references of value [v]: handles, and handles a thread still has to
    release or to hand on. *)
Definition holds v p : nat := if decide (p = v) then 1 else 0.
Definition todo_holds v f : nat := match todo f with K_move _ q => holds v q | _ => 0%nat end.
Definition pc_holds v (p : pc D) : nat :=
  match p with
  | Sub _ f => holds v (this f) + todo_holds v f
  | Deleting _ f | Freeing _ f | Rest f => todo_holds v f
  | Add _ _ _ _ | Load _ _ => 0
  end%nat.
Definition tokens hs thr v : nat := msum (holds v) hs + msum (pc_holds v) thr.

(** Threads that destroy the block [c]; those that already deleted its object. *)
Definition closing c (p : pc D) : nat :=
  match p with Deleting c' _ | Freeing c' _ => if decide (c' = c) then 1 else 0 | _ => 0 end.
Definition freeing c (p : pc D) : nat :=
  match p with Freeing c' _ => if decide (c' = c) then 1 else 0 | _ => 0 end.

(** Owners of an object: its control block, or a [reset] that has not built it yet. *)
Definition owned_by o b : nat := if decide (cb_obj b = Some o) then 1 else 0.
Definition is_raw x o : nat := if decide (x = Some o) then 1 else 0.
Definition todo_raw o f : nat := match todo f with K_point_to x _ => is_raw x o | _ => 0%nat end.
Definition raw o (p : pc D) : nat :=
  match p with
  | Sub _ f | Deleting _ f | Freeing _ f | Rest f => todo_raw o f
  | Add _ _ _ _ | Load _ _ => 0%nat
  end.
Definition owners s thr o : nat := msum (owned_by o) (blocks (cbs s)) + msum (raw o) thr.

(** The values these counts have in memory [s]. *)
Definition expected s v : nat :=
  match p_cb v with
  | Some c =>
      match blocks (cbs s) !! c with
      | Some b => if decide (cb_obj b = p_obj v) then Z.to_nat (m_count b) else 0
      | None => 0
      end
  | None => 0
  end%nat.
Definition dying s c : nat :=
  match blocks (cbs s) !! c with
  | Some b => if decide (m_count b = 0%Z) then 1 else 0
  | None => 0
  end%nat.
Definition live s o : nat := match blocks (objs s) !! o with Some _ => 1 | None => 0 end%nat.
Definition present hs h : nat := match hs !! h with Some _ => 1 | None => 0 end%nat.

(** What a call reads is still there. *)
Definition frame_reads hs f : Prop :=
  match todo f with K_copy other => is_Some (hs !! other) | _ => True end.
Definition reads_ok hs (p : pc D) : Prop :=
  match p with
  | Add c _ this other => p_cb this = Some c ∧ hs !! other = Some this
  | Sub c f => p_cb (this f) = Some c ∧ frame_reads hs f
  | Deleting _ f | Freeing _ f | Rest f => frame_reads hs f
  | Load c h => ∃ p, hs !! h = Some p ∧ p_cb p = Some c
  end.
Definition reads_all hs thr : Prop := map_Forall (λ _, reads_ok hs) thr.

Record mem_ok (n : Z) s : Prop := MemOk {
  k_cbs : heap_ok (cbs s);
  k_objs : heap_ok (objs s);
  k_count : ∀ c b, blocks (cbs s) !! c = Some b → 0 ≤ m_count b ≤ n;
  k_created : ∀ c b o, blocks (cbs s) !! c = Some b → cb_obj b = Some o → (o, cb_deleter b) ∈ created s;
  k_deleted : NoDup (deleted s).*1 ∧ deleted s ⊆ created s;
  k_where : ∀ o, o ∈ (deleted s).*1 ↔ (o < next_ (objs s))%nat ∧ blocks (objs s) !! o = None
}.

(** [x] is an object allocated for a constructor that has not run yet; no count
    exceeds [n]. *)
Record inv (n : Z) x s hs thr : Prop := Inv {
  v_mem : mem_ok n s;
  v_tokens : ∀ v, v ≠ null_shared → tokens hs thr v = expected s v;
  v_closing : ∀ c, msum (closing c) thr = dying s c;
  v_freeing : ∀ c b, blocks (cbs s) !! c = Some b → is_Some (cb_obj b) → msum (freeing c) thr = 0%nat;
  v_owners : ∀ o, (owners s thr o + is_raw x o)%nat = live s o;
  v_names : ∀ h, (present hs h + msum (named h) thr ≤ 1)%nat;
  v_reads : reads_all hs thr
}.

(** ** Counting *)

Lemma at_key_eq {A} (g : A → nat) (m : gmap nat A) k (y : option A) :
  m !! k = y → at_key g m k = from_option g 0%nat y.
Proof. intros <-. done. Qed.

Lemma present_insert hs h p h' : present (<[h := p]> hs) h' = if decide (h = h') then 1%nat else present hs h'.
Proof.
  unfold present. case_decide as Hh; [subst; by rewrite lookup_insert_eq | by rewrite lookup_insert_ne].
Qed.
Lemma present_delete hs h h' : present (delete h hs) h' = if decide (h = h') then 0%nat else present hs h'.
Proof.
  unfold present. case_decide as Hh; [subst; by rewrite lookup_delete_eq | by rewrite lookup_delete_ne].
Qed.
Lemma present_Some hs h p : hs !! h = Some p → present hs h = 1%nat.
Proof. intros Hh. unfold present. by rewrite Hh. Qed.
Lemma present_None hs h : hs !! h = None → present hs h = 0%nat.
Proof. intros Hh. unfold present. by rewrite Hh. Qed.
End Proofs.

(** Replace the sums over updated maps by the sums over the maps they update. *)
Ltac sums :=
  unfold tokens, owners in *; rewrite ?present_insert, ?present_delete in *;
  repeat match goal with
  | |- context [msum ?g (<[?k := ?a]> ?m)] =>
      let H := fresh "Hsum" in let n := fresh "n" in
      pose proof (msum_insert g m k a) as H; set (n := msum g (<[k := a]> m)) in *; clearbody n
  | _ : context [msum ?g (<[?k := ?a]> ?m)] |- _ =>
      let H := fresh "Hsum" in let n := fresh "n" in
      pose proof (msum_insert g m k a) as H; set (n := msum g (<[k := a]> m)) in *; clearbody n
  | |- context [msum ?g (delete ?k ?m)] =>
      let H := fresh "Hsum" in let n := fresh "n" in
      pose proof (msum_delete g m k) as H; set (n := msum g (delete k m)) in *; clearbody n
  | _ : context [msum ?g (delete ?k ?m)] |- _ =>
      let H := fresh "Hsum" in let n := fresh "n" in
      pose proof (msum_delete g m k) as H; set (n := msum g (delete k m)) in *; clearbody n
  end;
  repeat match goal with
  | H : ?m !! ?k = ?y, H' : context [at_key ?g ?m ?k] |- _ => rewrite (at_key_eq g m k y H) in H'
  end;
  cbn [from_option pc_holds todo_holds closing freeing raw todo_raw named reading
       this todo target] in *.
Ltac count := intros; sums; repeat case_decide; subst; try congruence; lia.

Section Invariant.
Context {D : Type}.
Implicit Types (s : state D) (hs : gmap nat shared_ptr) (thr : gmap nat (pc D)).
Implicit Types (v p q : shared_ptr) (f : frame D) (b : control_block D) (h c o t : nat) (x : option nat).

(** ** Reads *)

Lemma reads_ok_change hs hs' (p : pc D) :
  reads_ok hs p → (∀ h, (0 < reading h p)%nat → is_Some (hs !! h) → hs' !! h = hs !! h) → reads_ok hs' p.
Proof.
  intros Hp Heq.
  assert (∀ f, frame_reads hs f → (∀ h, (match todo f with K_copy o => if decide (o = h) then 1 else 0 | _ => 0 end = 1)%nat →
    is_Some (hs !! h) → hs' !! h = hs !! h) → frame_reads hs' f) as Hf.
  { intros f Hf Hf'. unfold frame_reads in *. destruct (todo f) as [other | | | |]; try done.
    rewrite Hf'; [done | by rewrite decide_True | done]. }
  destruct p as [c h this other | c f | c f | c f | f | c h]; simpl in *.
  2-5: destruct_and?; try split; try done; apply Hf; [done |]; intros h Hh; apply Heq; rewrite Hh; lia.
  - destruct Hp as [Hc Ho]. split; [done |]. rewrite Heq; [done | rewrite decide_True by done; lia | eauto].
  - destruct Hp as (p & Hp & Hc). exists p. split; [| done].
    rewrite Heq; [done | rewrite decide_True by done; lia | eauto].
Qed.

(** The table changes at a name that was free, or that no thread reads. *)
Lemma reads_all_change hs hs' thr h :
  reads_all hs thr → (∀ h', h' ≠ h → hs' !! h' = hs !! h') →
  hs !! h = None ∨ msum (reading h) thr = 0%nat → reads_all hs' thr.
Proof.
  intros Hall Heq Hh t p Hp. apply (reads_ok_change hs); [by eapply Hall |].
  intros h' Hr Hs. destruct (decide (h' = h)) as [-> |]; [| by apply Heq].
  destruct Hh as [Hh | Hh]; [rewrite Hh in Hs; by destruct Hs |].
  pose proof (msum_ge (reading h) thr t p Hp). lia.
Qed.

Lemma reads_all_insert hs thr h p :
  reads_all hs thr → hs !! h = None ∨ msum (reading h) thr = 0%nat → reads_all (<[h := p]> hs) thr.
Proof. intros Hall Hh. apply (reads_all_change hs _ _ h); try done. intros. by apply lookup_insert_ne. Qed.

Lemma reads_all_delete hs thr h :
  reads_all hs thr → hs !! h = None ∨ msum (reading h) thr = 0%nat → reads_all (delete h hs) thr.
Proof. intros Hall Hh. apply (reads_all_change hs _ _ h); try done. intros. by apply lookup_delete_ne. Qed.

(** ** Steps that leave memory alone *)

Lemma inv_quiet n x x' s hs thr hs' thr' :
  inv n x s hs thr →
  (∀ v, v ≠ null_shared → tokens hs' thr' v = tokens hs thr v) →
  (∀ c, msum (closing c) thr' = msum (closing c) thr ∧ (msum (freeing c) thr' ≤ msum (freeing c) thr)%nat) →
  (∀ o, msum (raw o) thr' + is_raw x' o = msum (raw o) thr + is_raw x o)%nat →
  (∀ h, (present hs' h + msum (named h) thr' ≤ 1)%nat) →
  reads_all hs' thr' → inv n x' s hs' thr'.
Proof.
  intros [Hm Ht Hc Hf Ho Hn Hr] Ht' Hc' Ho' Hn' Hr'. split; try done.
  - intros v Hv. rewrite Ht' by done. by apply Ht.
  - intros c. destruct (Hc' c) as [-> _]. apply Hc.
  - intros c b Hb Hs. destruct (Hc' c) as [_ Hle]. specialize (Hf c b Hb Hs). lia.
  - intros o. specialize (Ho o). specialize (Ho' o). unfold owners in *. lia.
Qed.

Lemma inv_mono n n' x s hs thr : n ≤ n' → inv n x s hs thr → inv n' x s hs thr.
Proof.
  intros Hle [[? ? Hc ? ? ?] ? ? ? ? ? ?]. split; try done. split; try done.
  intros c b Hb. specialize (Hc c b Hb). lia.
Qed.

(** A handle without a control block is null. *)
Lemma null_handle n x s hs thr h p :
  inv n x s hs thr → hs !! h = Some p → p_cb p = None → p = null_shared.
Proof.
  intros Hinv Hh Hp. destruct (decide (p = null_shared)) as [| Hne]; [done |].
  pose proof (v_tokens _ _ _ _ _ Hinv p Hne) as Ht. unfold tokens, expected in Ht. rewrite Hp in Ht.
  pose proof (msum_ge (holds p) hs h p Hh) as Hge. unfold holds in Hge at 1.
  rewrite decide_True in Hge by done. lia.
Qed.

(** Somebody holds [v]: its control block is there, for the same object. *)
Lemma held_block n x s hs thr v c :
  inv n x s hs thr → p_cb v = Some c → (0 < tokens hs thr v)%nat →
  ∃ b, blocks (cbs s) !! c = Some b ∧ cb_obj b = p_obj v ∧ 0 < m_count b ≤ n.
Proof.
  intros Hinv Hv Hpos. assert (v ≠ null_shared) as Hne by (intros ->; done).
  rewrite (v_tokens _ _ _ _ _ Hinv v Hne) in Hpos. unfold expected in Hpos. rewrite Hv in Hpos.
  destruct (blocks (cbs s) !! c) as [b |] eqn:Hb; [| lia]. case_decide; [| lia].
  exists b. split_and!; [done | done | lia |]. eapply k_count; [apply Hinv | done].
Qed.

Lemma handle_held hs thr h p : hs !! h = Some p → (0 < tokens hs thr p)%nat.
Proof.
  intros Hh. pose proof (msum_ge (holds p) hs h p Hh) as Hge. unfold holds in Hge at 1.
  rewrite decide_True in Hge by done. unfold tokens. lia.
Qed.

Lemma holds_null v : v ≠ null_shared → holds v null_shared = 0%nat.
Proof. intros Hv. unfold holds. by rewrite decide_False by congruence. Qed.

(** A thread takes the handle [h] to write it; [hs0] is the table without the
    handle it moves from. *)
Lemma inv_take n x x' s hs hs0 thr t h p k :
  inv n x s hs thr → thr !! t = None → hs !! h = Some p → hs0 !! h = Some p →
  msum (reading h) thr = 0%nat → reads_all hs0 thr →
  (∀ v, v ≠ null_shared → msum (holds v) hs0 + todo_holds v (Frame h p k) = msum (holds v) hs)%nat →
  (∀ o, is_raw x o = todo_raw o (Frame h p k) + is_raw x' o)%nat →
  (∀ h', present hs0 h' + named h' (Rest (Frame h p k)) = present hs h' + if decide (h = h') then 1 else 0)%nat →
  frame_reads (delete h hs0) (Frame h p k) →
  inv n x' s (delete h hs0) (<[t := begin_release (Frame h p k)]> thr).
Proof.
  intros Hinv Ht Hh Hh0 Hread Hall Hhold Hraw Hname Hf.
  assert (∀ v, v ≠ null_shared →
    pc_holds v (begin_release (Frame h p k)) = holds v p + todo_holds v (Frame h p k))%nat as H1.
  { intros v Hv. unfold begin_release. simpl. destruct (p_cb p) as [c |] eqn:Hp; simpl; [lia |].
    rewrite (null_handle _ _ _ _ _ _ _ Hinv Hh Hp), (holds_null v Hv). done. }
  assert (∀ c, closing c (begin_release (Frame h p k)) = 0 ∧ freeing c (begin_release (Frame h p k)) = 0)%nat
    as H2 by (intros c; unfold begin_release; by destruct (p_cb _)).
  assert (∀ o, raw o (begin_release (Frame h p k)) = todo_raw o (Frame h p k)) as H3
    by (intros o; unfold begin_release; by destruct (p_cb _)).
  assert (∀ h', named h' (begin_release (Frame h p k)) = named h' (Rest (Frame h p k))) as H4
    by (intros h'; unfold begin_release; by destruct (p_cb _)).
  assert (reads_ok (delete h hs0) (begin_release (Frame h p k))) as Hro.
  { unfold begin_release. simpl. by destruct (p_cb p) eqn:?; simpl. }
  generalize dependent (begin_release (Frame h p k)). intros p' H1 H2 H3 H4 Hro.
  pose proof (present_Some _ _ _ Hh). pose proof (present_Some _ _ _ Hh0).
  apply (inv_quiet n x x' s hs thr); [done | | | | |].
  - intros v Hv. specialize (H1 v Hv). specialize (Hhold v Hv). count.
  - intros c. destruct (H2 c). split; count.
  - intros o. specialize (H3 o). specialize (Hraw o). count.
  - intros h'. specialize (H4 h'). specialize (Hname h'). pose proof (v_names _ _ _ _ _ Hinv h'). count.
  - apply map_Forall_insert_2; [done |]. apply reads_all_delete; [done | by right].
Qed.

(** ** The count of a block *)

Lemma with_count_ok n n' s c b (m : Z) :
  mem_ok n s → n ≤ n' → blocks (cbs s) !! c = Some b → 0 ≤ m ≤ n' → mem_ok n' (with_count s c b m).
Proof.
  intros [H1 H2 H3 H4 H5 H6] Hn Hb Hm. split; try done; cbn [with_count cbs blocks next_ created].
  - apply heap_ok_insert; eauto.
  - intros c' b' [[<- <-] | [_ Hb']]%lookup_insert_Some; [done |]. specialize (H3 _ _ Hb'). lia.
  - intros c' b' o [[<- <-] | [_ Hb']]%lookup_insert_Some; cbn; by eapply H4.
Qed.

Lemma with_count_expected s c b (m : Z) v :
  blocks (cbs s) !! c = Some b →
  expected (with_count s c b m) v =
    if decide (v = MkShared (cb_obj b) (Some c)) then Z.to_nat m else expected s v.
Proof.
  intros Hb. destruct v as [o [c' |]]; unfold expected; cbn.
  - destruct (decide (c = c')) as [<- |].
    + rewrite lookup_insert_eq, Hb. cbn. repeat case_decide; congruence.
    + rewrite lookup_insert_ne by done. rewrite decide_False by congruence. done.
  - by rewrite decide_False by congruence.
Qed.

Lemma with_count_dying s c b (m : Z) c' :
  blocks (cbs s) !! c = Some b →
  dying (with_count s c b m) c' =
    if decide (c = c') then (if decide (m = 0) then 1%nat else 0%nat) else dying s c'.
Proof.
  intros Hb. unfold dying; cbn. case_decide as Hc; [subst; by rewrite lookup_insert_eq |].
  by rewrite lookup_insert_ne.
Qed.

Lemma with_count_owned s c b (m : Z) o :
  blocks (cbs s) !! c = Some b →
  msum (owned_by o) (blocks (cbs (with_count s c b m))) = msum (owned_by o) (blocks (cbs s)).
Proof.
  intros Hb. cbn. pose proof (msum_replace (owned_by o) _ _ _ (CB m (cb_obj b) (cb_deleter b)) Hb) as H.
  unfold owned_by in *. cbn in *. lia.
Qed.

(** One more or one less reference [v] to the block [c], taken over by the
    threads [thr'] and the handles [hs']. *)
Lemma inv_recounted n n' x s hs hs' thr thr' c b (m : Z) :
  inv n x s hs thr → n ≤ n' → blocks (cbs s) !! c = Some b → 0 ≤ m ≤ n' →
  (∀ v, v ≠ null_shared → tokens hs' thr' v =
    if decide (v = MkShared (cb_obj b) (Some c)) then Z.to_nat m else tokens hs thr v) →
  (∀ c', msum (closing c') thr' =
    if decide (c = c') then (if decide (m = 0) then 1%nat else 0%nat) else msum (closing c') thr) →
  (∀ c', msum (freeing c') thr' = msum (freeing c') thr) →
  (∀ o, msum (raw o) thr' = msum (raw o) thr) →
  (∀ h, (present hs' h + msum (named h) thr' ≤ 1)%nat) →
  reads_all hs' thr' → inv n' x (with_count s c b m) hs' thr'.
Proof.
  intros [Hm Ht Hc Hf Ho Hn Hr] Hle Hb Hm' Ht' Hc' Hf' Ho' Hn' Hr'. split; try done.
  - by eapply with_count_ok.
  - intros v Hv. rewrite Ht', with_count_expected by done. destruct (decide (v = _)); [done | by apply Ht].
  - intros c'. rewrite Hc', with_count_dying by done. repeat case_decide; try done; apply Hc.
  - intros c' b' Hb' Hs. rewrite Hf'. cbn in Hb'.
    apply lookup_insert_Some in Hb' as [[<- <-] | [_ Hb']]; by eapply Hf.
  - intros o. specialize (Ho o). unfold owners in *. rewrite with_count_owned, Ho' by done. done.
Qed.

(** ** The destruction of a block *)

Lemma owned_by_eq o' b o : cb_obj b = Some o → owned_by o' b = if decide (o = o') then 1%nat else 0%nat.
Proof. unfold owned_by. intros ->. repeat case_decide; congruence. Qed.
Lemma owned_by_none o b : cb_obj b = None → owned_by o b = 0%nat.
Proof. unfold owned_by. by intros ->. Qed.

Lemma dying_block n x s hs thr c t (p : pc D) :
  inv n x s hs thr → thr !! t = Some p → (0 < closing c p)%nat →
  ∃ b, blocks (cbs s) !! c = Some b ∧ m_count b = 0 ∧ msum (closing c) thr = 1%nat.
Proof.
  intros Hinv Ht Hp. pose proof (v_closing _ _ _ _ _ Hinv c) as Hc.
  pose proof (msum_ge (closing c) thr t p Ht). unfold dying in Hc.
  destruct (blocks (cbs s) !! c) as [b |]; [| lia]. exists b. case_decide; [done | lia].
Qed.

Definition without_object s c b o : state D :=
  State (Heap (next_ (objs s)) (delete o (blocks (objs s))))
    (Heap (next_ (cbs s)) (<[c := CB (m_count b) None (cb_deleter b)]> (blocks (cbs s))))
    (created s) (deleted s ++ [(o, cb_deleter b)]).

Lemma without_object_ok n s c b o :
  mem_ok n s → blocks (cbs s) !! c = Some b → cb_obj b = Some o → is_Some (blocks (objs s) !! o) →
  mem_ok n (without_object s c b o).
Proof.
  intros [H1 H2 H3 H4 [H5 H5'] H6] Hb Ho Hlive. split; cbn [without_object cbs objs blocks next_ created deleted].
  - apply heap_ok_insert; eauto.
  - by apply heap_ok_delete.
  - intros c' b' [[<- <-] | [_ Hb']]%lookup_insert_Some; [cbn |]; by eapply H3.
  - intros c' b' o' [[<- <-] | [_ Hb']]%lookup_insert_Some; [done | by eapply H4].
  - rewrite fmap_app. cbn. split.
    + apply NoDup_app. split_and!; [done | | apply NoDup_singleton].
      intros y Hy ->%list_elem_of_singleton. apply H6 in Hy as [_ Hy]. rewrite Hy in Hlive. by destruct Hlive.
    + apply list_subseteq_app_iff_l. split; [done |]. intros y ->%list_elem_of_singleton. by eapply H4.
  - intros o'. rewrite fmap_app, elem_of_app, H6, lookup_delete_None. cbn. rewrite list_elem_of_singleton.
    split; [intros [[? ?] | ->]; [tauto |] | intros [? [-> | ?]]; tauto].
    split; [by apply H2 | by left].
Qed.

Lemma without_object_expected s c b o v :
  blocks (cbs s) !! c = Some b → m_count b = 0 → expected (without_object s c b o) v = expected s v.
Proof.
  intros Hb Hz. unfold expected; cbn. destruct (p_cb v) as [c' |]; [| done].
  destruct (decide (c = c')) as [<- |]; [| by rewrite lookup_insert_ne].
  rewrite lookup_insert_eq, Hb. cbn. rewrite Hz. by repeat case_decide.
Qed.

Lemma inv_deleted n x s hs thr t c f :
  inv n x s hs thr → thr !! t = Some (Deleting c f) →
  ∃ s', delete_object s c = Ret s' ∧ inv n x s' hs (<[t := Freeing c f]> thr).
Proof.
  intros Hinv Ht. destruct (dying_block _ _ _ _ _ c _ _ Hinv Ht) as (b & Hb & Hz & Hone).
  { cbn. rewrite decide_True by done. lia. }
  unfold delete_object, load. rewrite Hb. cbn [obind].
  assert (∀ v, tokens hs (<[t := Freeing c f]> thr) v = tokens hs thr v) as Htok by count.
  assert (∀ c', msum (closing c') (<[t := Freeing c f]> thr) = msum (closing c') thr) as Hcl by count.
  assert (∀ c', c' ≠ c → msum (freeing c') (<[t := Freeing c f]> thr) = msum (freeing c') thr) as Hfr by count.
  assert (∀ o, msum (raw o) (<[t := Freeing c f]> thr) = msum (raw o) thr) as Hraw by count.
  assert (∀ h, msum (named h) (<[t := Freeing c f]> thr) = msum (named h) thr) as Hnm by count.
  assert (reads_all hs (<[t := Freeing c f]> thr)) as Hra.
  { apply map_Forall_insert_2; [| apply Hinv]. apply (v_reads _ _ _ _ _ Hinv t (Deleting c f) Ht). }
  destruct Hinv as [Hm Hto Hc Hf Ho Hn Hr]. destruct (cb_obj b) as [o |] eqn:Hobj.
  - assert (is_Some (blocks (objs s) !! o)) as Hlive.
    { pose proof (msum_ge (owned_by o) _ c b Hb) as Hge. specialize (Ho o). unfold owners, live in Ho.
      rewrite (owned_by_eq o b o Hobj), decide_True in Hge by done.
      destruct (blocks (objs s) !! o); [eauto | lia]. }
    exists (without_object s c b o). split.
    { unfold call_deleter, free, store, load. destruct Hlive as [u ->]. cbn [obind cbs]. by rewrite Hb. }
    split; cbn [without_object]; try done.
    + by apply without_object_ok.
    + intros v Hv. rewrite Htok, without_object_expected by done. by apply Hto.
    + intros c'. rewrite Hcl, Hc. unfold dying; cbn. destruct (decide (c = c')) as [<- |].
      * by rewrite lookup_insert_eq, Hb.
      * by rewrite lookup_insert_ne.
    + intros c' b'. cbn. intros [[<- <-] | [Hne Hb']]%lookup_insert_Some Hs; [by destruct Hs |].
      rewrite Hfr by done. by eapply Hf.
    + intros o'. specialize (Ho o'). unfold owners, live in *. rewrite Hraw. cbn.
      pose proof (msum_replace (owned_by o') _ _ _ (CB (m_count b) None (cb_deleter b)) Hb) as Hsum.
      rewrite (owned_by_eq _ b o Hobj), owned_by_none in Hsum by done.
      destruct (decide (o = o')) as [<- |].
      * rewrite lookup_delete_eq. destruct (blocks (objs s) !! o); lia.
      * rewrite lookup_delete_ne by done. lia.
    + intros h. rewrite Hnm. apply Hn.
  - exists s. split; [done |]. split; try done.
    + intros v Hv. rewrite Htok. by apply Hto.
    + intros c'. by rewrite Hcl.
    + intros c' b' Hb' Hs. rewrite Hfr; [by eapply Hf |]. intros ->. rewrite Hb in Hb'. simplify_eq.
      rewrite Hobj in Hs. by destruct Hs.
    + intros o. specialize (Ho o). unfold owners in *. by rewrite Hraw.
    + intros h. rewrite Hnm. apply Hn.
Qed.

Lemma inv_freed n x s hs thr t c f :
  inv n x s hs thr → thr !! t = Some (Freeing c f) →
  ∃ s', free_block s c = Ret s' ∧ inv n x s' hs (<[t := Rest f]> thr).
Proof.
  intros Hinv Ht. destruct (dying_block _ _ _ _ _ c _ _ Hinv Ht) as (b & Hb & Hz & Hone).
  { cbn. rewrite decide_True by done. lia. }
  assert (cb_obj b = None) as Hobj.
  { apply eq_None_not_Some. intros Hs. pose proof (v_freeing _ _ _ _ _ Hinv c b Hb Hs).
    pose proof (msum_ge (freeing c) thr t _ Ht) as Hge. cbn in Hge.
    rewrite decide_True in Hge by done. lia. }
  unfold free_block, free, load. rewrite Hb. eexists. split; [done |].
  destruct Hinv as [[H1 H2 H3 H4 H5 H6] Hto Hc Hf Ho Hn Hr]. split.
  - split; try done; cbn [cbs blocks next_ created].
    + by apply heap_ok_delete.
    + intros c' b' [_ Hb']%lookup_delete_Some. by eapply H3.
    + intros c' b' o [_ Hb']%lookup_delete_Some. by eapply H4.
  - intros v Hv. transitivity (tokens hs thr v); [count |]. rewrite Hto by done. unfold expected; cbn.
    destruct (p_cb v) as [c' |]; [| done]. destruct (decide (c = c')) as [<- |].
    + rewrite lookup_delete_eq, Hb, Hz. by case_decide.
    + by rewrite lookup_delete_ne.
  - intros c'. specialize (Hc c'). unfold dying in *; cbn. destruct (decide (c = c')) as [<- |].
    + rewrite lookup_delete_eq. count.
    + rewrite lookup_delete_ne by done. rewrite <-Hc. count.
  - intros c' b'. cbn. intros [Hne Hb']%lookup_delete_Some Hs. specialize (Hf c' b' Hb' Hs). count.
  - intros o. specialize (Ho o). unfold owners in *. cbn.
    pose proof (msum_remove (owned_by o) _ _ _ Hb) as Hsum.
    rewrite owned_by_none in Hsum by done. unfold live in *. cbn. count.
  - intros h. specialize (Hn h). count.
  - apply map_Forall_insert_2; [| done]. apply (Hr t (Freeing c f) Ht).
Qed.

(** ** New objects and blocks *)

Lemma inv_new_object n s hs thr (null : bool) :
  inv n None s hs thr → inv n (new_object s null).1 (new_object s null).2 hs thr.
Proof.
  intros Hinv. unfold new_object. destruct null; [done |]. simpl.
  destruct Hinv as [[H1 H2 H3 H4 H5 H6] Hto Hc Hf Ho Hn Hr].
  assert (blocks (objs s) !! next_ (objs s) = None) as Hfresh.
  { apply eq_None_not_Some. intros Hs%H2. lia. }
  split; try done.
  - split; try done; cbn [objs].
    + by apply (heap_ok_alloc (objs s)).
    + intros o. rewrite H6. cbn. destruct (decide (o = next_ (objs s))) as [-> |].
      * rewrite lookup_insert_eq. split; [lia | by intros []].
      * rewrite lookup_insert_ne by done. split; intros [? ?]; (split; [lia | done]).
  - intros o. specialize (Ho o). unfold owners, live in *. cbn in *.
    unfold is_raw in *. rewrite decide_False in Ho by done. destruct (decide (next_ (objs s) = o)) as [<- |].
    + rewrite lookup_insert_eq, decide_True by done. rewrite Hfresh in Ho. lia.
    + rewrite lookup_insert_ne, decide_False by congruence. lia.
Qed.

Lemma make_cb_ok n n' x s d :
  mem_ok n s → n ≤ n' → 1 ≤ n' → mem_ok n' (make_cb s x d).2.
Proof.
  intros [H1 H2 H3 H4 [H5 H5'] H6] Hle Hn. unfold make_cb. simpl.
  split; try done; cbn [cbs objs created deleted].
  - by apply (heap_ok_alloc (cbs s)).
  - intros c' b'. cbn. intros [[<- <-] | [_ Hb']]%lookup_insert_Some; [cbn; lia |].
    specialize (H3 _ _ Hb'). lia.
  - intros c' b' o. cbn. intros [[<- <-] | [_ Hb']]%lookup_insert_Some Ho; cbn in *.
    + subst x. apply elem_of_app. right. by constructor.
    + specialize (H4 _ _ _ Hb' Ho). destruct x; [apply elem_of_app; by left | done].
  - split; [done |]. intros y Hy%H5'. destruct x; [apply elem_of_app; by left | done].
Qed.

Lemma inv_make_cb n n' x s hs thr h d :
  inv n x s hs thr → n ≤ n' → 1 ≤ n' → hs !! h = None → msum (named h) thr = 0%nat →
  inv n' None (make_cb s x d).2 (<[h := MkShared x (Some (make_cb s x d).1)]> hs) thr.
Proof.
  intros [Hm Hto Hc Hf Ho Hn Hr] Hle Hn' Hh Hnm. pose proof (make_cb_ok n n' x s d Hm Hle Hn') as Hm'.
  revert Hm'. unfold make_cb. simpl. set (c := next_ (cbs s)). intros Hm'.
  assert (blocks (cbs s) !! c = None) as Hfresh.
  { apply eq_None_not_Some. intros Hs%(k_cbs n s Hm). unfold c in Hs. lia. }
  split; try done.
  - intros v Hv. specialize (Hto v Hv). unfold expected in *. cbn.
    assert (tokens (<[h := MkShared x (Some c)]> hs) thr v = holds v (MkShared x (Some c)) + tokens hs thr v)%nat
      as -> by count.
    rewrite Hto. destruct v as [o [c' |]]; cbn in *;
      [| unfold holds; by rewrite decide_False by congruence].
    destruct (decide (c = c')) as [<- |].
    + rewrite lookup_insert_eq, Hfresh. unfold holds. cbn. repeat case_decide; (congruence || lia).
    + rewrite lookup_insert_ne by done. unfold holds. by rewrite decide_False by congruence.
  - intros c'. rewrite Hc. unfold dying; cbn. destruct (decide (c = c')) as [<- |].
    + by rewrite lookup_insert_eq, Hfresh.
    + by rewrite lookup_insert_ne.
  - intros c' b'. cbn. intros [[<- <-] | [_ Hb']]%lookup_insert_Some Hs; [| by eapply Hf].
    specialize (Hc c). unfold dying in Hc. rewrite Hfresh in Hc.
    assert (∀ p : pc D, (freeing c p ≤ closing c p)%nat) as Hfc by (intros []; simpl; lia).
    pose proof (msum_le _ _ thr Hfc). lia.
  - intros o. specialize (Ho o). unfold owners, live in *. cbn.
    rewrite msum_insert_fresh by done. change (owned_by o (CB 1 x d)) with (is_raw x o).
    change (is_raw None o) with 0%nat. lia.
  - intros h'. specialize (Hn h'). rewrite present_insert. case_decide; [subst; lia | done].
  - apply reads_all_insert; [done | by left].
Qed.

(** ** Steps of a thread *)

Implicit Types (w : world D).

Definition world_ok (n : Z) w : Prop := inv n None (mem w) (handles w) (threads w).
Definition steps_ok (n : Z) (r : outcome (world D * option event)) : Prop :=
  ∃ w' e, r = Ret (w', e) ∧ world_ok n w'.

Lemma block_tokens n x s hs thr c b :
  inv n x s hs thr → blocks (cbs s) !! c = Some b →
  tokens hs thr (MkShared (cb_obj b) (Some c)) = Z.to_nat (m_count b).
Proof.
  intros Hinv Hb. rewrite (v_tokens _ _ _ _ _ Hinv) by done. unfold expected. cbn. rewrite Hb.
  by rewrite decide_True.
Qed.

Lemma block_closing n x s hs thr c b :
  inv n x s hs thr → blocks (cbs s) !! c = Some b →
  msum (closing c) thr = (if decide (m_count b = 0) then 1%nat else 0%nat).
Proof. intros Hinv Hb. rewrite (v_closing _ _ _ _ _ Hinv). unfold dying. by rewrite Hb. Qed.

Lemma eta_value p c b : p_cb p = Some c → cb_obj b = p_obj p → p = MkShared (cb_obj b) (Some c).
Proof. destruct p. cbn. by intros -> ->. Qed.

(** The handles a thread writes are out of the table, and nobody else's. *)
Lemma written_absent n x s hs thr t (p : pc D) h :
  inv n x s hs thr → thr !! t = Some p → (0 < named h p)%nat →
  hs !! h = None ∧ msum (named h) thr = named h p.
Proof.
  intros Hinv Ht Hp. pose proof (v_names _ _ _ _ _ Hinv h) as Hn.
  pose proof (msum_ge (named h) thr t p Ht). split; [| lia].
  apply eq_None_not_Some. intros [q Hq]. pose proof (present_Some _ _ _ Hq). lia.
Qed.

Lemma run_add n w t c h p other :
  world_ok n w → n + 1 < 2 ^ 64 → threads w !! t = Some (Add c h p other) → steps_ok (n + 1) (run_step w t).
Proof.
  unfold steps_ok, world_ok. destruct w as [s hs thr]. cbn [mem handles threads]. intros Hinv Hn Ht.
  destruct (v_reads _ _ _ _ _ Hinv t _ Ht) as [Hc Ho].
  destruct (held_block _ _ _ _ _ p c Hinv Hc (handle_held _ _ _ _ Ho)) as (b & Hb & Hobj & Hcount).
  unfold run_step. cbn [mem handles threads]. rewrite Ht. unfold add_ref, load. rewrite Hb. cbn [obind].
  rewrite set_count_eq, u64_small by (done || (unfold in_u64; lia)). cbn [obind].
  do 2 eexists. split; [done |]. cbn [finish mem handles threads].
  pose proof (block_tokens _ _ _ _ _ c b Hinv Hb) as Htok.
  pose proof (block_closing _ _ _ _ _ c b Hinv Hb) as Hcl. rewrite decide_False in Hcl by lia.
  rewrite (eta_value p c b Hc) in * by done. set (v0 := MkShared _ _) in *.
  pose proof (v_names _ _ _ _ _ Hinv) as Hn'.
  destruct (written_absent _ _ _ _ _ t _ h Hinv Ht) as [Hh0 Hnm].
  { cbn. rewrite decide_True by done. lia. }
  apply (inv_recounted n (n + 1) None s hs _ thr _ c b); [done | lia | done | lia | | | | | |].
  - intros v Hv. change (MkShared _ _) with v0. assert (holds v v0 = if decide (v = v0) then 1 else 0)%nat as Hh.
    { unfold holds. repeat case_decide; congruence. }
    assert (tokens (<[h := v0]> hs) (delete t thr) v = tokens hs thr v + holds v v0)%nat as ->.
    { count. }
    rewrite Hh. destruct (decide (v = v0)) as [-> |]; lia.
  - intros c'. rewrite (decide_False (P := _ + _ = _)) by lia. destruct (decide (c = c')) as [<- |]; count.
  - count.
  - count.
  - intros h'. specialize (Hn' h'). count.
  - apply map_Forall_delete. apply reads_all_insert; [apply Hinv | by left].
Qed.

Lemma run_sub n w t c f :
  world_ok n w → n < 2 ^ 64 → threads w !! t = Some (Sub c f) → steps_ok n (run_step w t).
Proof.
  unfold steps_ok, world_ok. destruct w as [s hs thr]. cbn [mem handles threads]. intros Hinv Hn Ht.
  destruct (v_reads _ _ _ _ _ Hinv t _ Ht) as [Hc Hf].
  assert (0 < tokens hs thr (this f))%nat as Hpos.
  { pose proof (msum_ge (pc_holds (this f)) thr t _ Ht) as Hge. unfold tokens. cbn in Hge.
    unfold holds at 1 in Hge. rewrite decide_True in Hge by done. lia. }
  destruct (held_block _ _ _ _ _ _ c Hinv Hc Hpos) as (b & Hb & Hobj & Hcount).
  unfold run_step. cbn [mem handles threads]. rewrite Ht. unfold load. rewrite Hb. cbn [obind].
  rewrite set_count_eq, u64_small by (done || (unfold in_u64; lia)). cbn [obind].
  do 2 eexists. split; [done |]. cbn [at_pc mem handles threads].
  pose proof (block_tokens _ _ _ _ _ c b Hinv Hb) as Htok.
  pose proof (block_closing _ _ _ _ _ c b Hinv Hb) as Hcl. rewrite decide_False in Hcl by lia.
  rewrite <-(eta_value _ c b Hc Hobj) in Htok.
  assert (∀ v, holds v (this f) = if decide (v = this f) then 1 else 0)%nat as Hh.
  { intros v. unfold holds. repeat case_decide; congruence. }
  pose proof (v_names _ _ _ _ _ Hinv) as Hn'.
  apply (inv_recounted n n None s hs _ thr _ c b); [done | lia | done | lia | | | | | |].
  - intros v Hv. rewrite <-(eta_value _ c b Hc Hobj). specialize (Hh v).
    assert (tokens hs (<[t := if (m_count b =? 1)%Z then Deleting c f else Rest f]> thr) v
      + holds v (this f) = tokens hs thr v)%nat as Heq by (destruct (m_count b =? 1); count).
    rewrite Hh in Heq. destruct (decide (v = this f)) as [-> |]; lia.
  - intros c'. destruct (Z.eqb_spec (m_count b) 1) as [Hone | Hone].
    + rewrite (decide_True (P := _ - _ = _)) by lia. destruct (decide (c = c')) as [<- |]; count.
    + rewrite (decide_False (P := _ - _ = _)) by lia. destruct (decide (c = c')) as [<- |]; count.
  - destruct (m_count b =? 1); count.
  - destruct (m_count b =? 1); count.
  - intros h'. specialize (Hn' h'). destruct (m_count b =? 1); count.
  - apply map_Forall_insert_2; [| apply Hinv]. by destruct (m_count b =? 1).
Qed.

Lemma run_load n w t c h :
  world_ok n w → threads w !! t = Some (Load c h) →
  steps_ok n (run_step w t).
Proof.
  unfold steps_ok, world_ok. destruct w as [s hs thr]. cbn [mem handles threads]. intros Hinv Ht.
  destruct (v_reads _ _ _ _ _ Hinv t _ Ht) as (p & Hp & Hc).
  destruct (held_block _ _ _ _ _ p c Hinv Hc (handle_held _ _ _ _ Hp)) as (b & Hb & _ & _).
  unfold run_step. cbn [mem handles threads]. rewrite Ht. unfold cb_use_count, load. rewrite Hb. cbn [obind].
  do 2 eexists. split; [done |]. cbn [mem handles threads].
  apply (inv_quiet n None None s hs thr); [done | count | | count | |].
  - intros c'. split; count.
  - intros h'. pose proof (v_names _ _ _ _ _ Hinv h'). count.
  - apply map_Forall_delete, Hinv.
Qed.

(** The call of [t] returns, leaving [q] in its handle. *)
Lemma inv_finish n x s hs thr t f q :
  inv n None s hs thr → thr !! t = Some (Rest f) →
  (∀ v, v ≠ null_shared → holds v q = todo_holds v f) →
  (∀ o, todo_raw o f = is_raw x o) →
  (∀ h', h' ≠ target f → named h' (Rest f) = 0%nat) →
  inv n x s (<[target f := q]> hs) (delete t thr).
Proof.
  intros Hinv Ht Hq Hraw Hnm.
  destruct (written_absent _ _ _ _ _ t _ (target f) Hinv Ht) as [Hh Hnt].
  { cbn. rewrite decide_True by done. lia. }
  apply (inv_quiet n None x s hs thr); [done | | | | |].
  - intros v Hv. specialize (Hq v Hv). count.
  - intros c. split; count.
  - intros o. specialize (Hraw o). change (is_raw None o) with 0%nat. count.
  - intros h'. pose proof (v_names _ _ _ _ _ Hinv h'). destruct (decide (h' = target f)) as [-> |].
    + rewrite present_insert, decide_True by done. sums. lia.
    + rewrite present_insert, decide_False by done. sums. lia.
  - apply map_Forall_delete, reads_all_insert; [apply Hinv | by left].
Qed.

(** The call of [t] returns, and its handle is gone or yet to be built. *)
Lemma inv_leave n x s hs thr t f :
  inv n None s hs thr → thr !! t = Some (Rest f) →
  (∀ v, todo_holds v f = 0%nat) → (∀ o, todo_raw o f = is_raw x o) →
  inv n x s hs (delete t thr).
Proof.
  intros Hinv Ht Hq Hraw. apply (inv_quiet n None x s hs thr); [done | | | | |].
  - intros v Hv. specialize (Hq v). count.
  - intros c. split; count.
  - intros o. specialize (Hraw o). change (is_raw None o) with 0%nat. count.
  - intros h'. pose proof (v_names _ _ _ _ _ Hinv h'). sums. lia.
  - apply map_Forall_delete, Hinv.
Qed.

Lemma run_copy n s hs thr t h p other :
  inv n None s hs thr → thr !! t = Some (Rest (Frame h p (K_copy other))) →
  ∃ w', run_rest (World s hs thr) t (Frame h p (K_copy other)) = Ret w' ∧ world_ok n w'.
Proof.
  intros Hinv Ht. destruct (v_reads _ _ _ _ _ Hinv t _ Ht) as [q Hq].
  unfold run_rest. cbn [todo mem handles target]. rewrite Hq.
  destruct (p_cb q) as [c |] eqn:Hc; (eexists; split; [done |]); unfold world_ok; cbn.
  - apply (inv_quiet n None None s hs thr); [done | count | intros; split; count | count | |].
    + intros h'. pose proof (v_names _ _ _ _ _ Hinv h'). count.
    + by apply map_Forall_insert_2; [| apply Hinv].
  - rewrite (null_handle _ _ _ _ _ _ _ Hinv Hq Hc).
    apply (inv_finish n None s hs thr t (Frame h p (K_copy other))); try done.
    + intros v Hv. by rewrite holds_null.
    + intros h' Hne. cbn. by rewrite decide_False by done.
Qed.

Lemma run_move n s hs thr t h p other q :
  inv n None s hs thr → thr !! t = Some (Rest (Frame h p (K_move other q))) →
  ∃ w', run_rest (World s hs thr) t (Frame h p (K_move other q)) = Ret w' ∧ world_ok n w'.
Proof.
  intros Hinv Ht. eexists. split; [done |]. unfold world_ok; cbn.
  destruct (written_absent _ _ _ _ _ t _ h Hinv Ht) as [Hh Hnh]; [cbn; rewrite decide_True by done; lia |].
  destruct (written_absent _ _ _ _ _ t _ other Hinv Ht) as [Ho Hno];
    [cbn; rewrite (decide_True (P := other = other)) by done; lia |].
  pose proof (v_names _ _ _ _ _ Hinv) as Hn.
  assert (other ≠ h) as Hne.
  { intros ->. specialize (Hn h). cbn in Hnh. rewrite decide_True in Hnh by done. lia. }
  assert (<[other := null_shared]> hs !! h = None) as Hh' by by rewrite lookup_insert_ne.
  apply (inv_quiet n None None s hs thr); [done | | | | |].
  - intros v Hv. pose proof (holds_null v Hv). count.
  - intros; split; count.
  - count.
  - intros h'. specialize (Hn h'). count.
  - apply map_Forall_delete. apply reads_all_insert; [| by left].
    apply reads_all_insert; [apply Hinv | by left].
Qed.

Lemma run_point_to n s hs thr t h p x d :
  inv n None s hs thr → 0 ≤ n → thr !! t = Some (Rest (Frame h p (K_point_to x d))) →
  ∃ w', run_rest (World s hs thr) t (Frame h p (K_point_to x d)) = Ret w' ∧ world_ok (n + 1) w'.
Proof.
  intros Hinv Hn Ht.
  destruct (written_absent _ _ _ _ _ t _ h Hinv Ht) as [Hh Hnh]; [cbn; rewrite decide_True by done; lia |].
  unfold run_rest. cbn [todo mem target]. destruct x as [o |].
  - assert (inv n (Some o) s hs (delete t thr)) as Hinv'
      by (by apply (inv_leave _ _ _ _ _ _ (Frame h p (K_point_to (Some o) d)))).
    assert (msum (named h) (delete t thr) = 0%nat) as Hn0 by (sums; lia).
    pose proof (inv_make_cb n (n + 1) (Some o) s hs (delete t thr) h d Hinv'
      ltac:(lia) ltac:(lia) Hh Hn0) as Hnew.
    destruct (make_cb s (Some o) d) as [c s']. eauto.
  - eexists. split; [done |]. apply (inv_mono n); [lia |].
    apply (inv_finish n None s hs thr t (Frame h p (K_point_to None d))); try done.
    + intros v Hv. change (MkShared None None) with null_shared. by rewrite holds_null.
    + intros h' Hne. cbn. by rewrite decide_False by done.
Qed.

Lemma run_after n w t f :
  world_ok n w → 0 ≤ n → threads w !! t = Some (Rest f) → steps_ok (n + 1) (run_step w t).
Proof.
  unfold steps_ok. destruct w as [s hs thr], f as [h p k]. unfold world_ok at 1. cbn [mem handles threads].
  intros Hinv Hn Ht. unfold run_step. cbn [mem handles threads]. rewrite Ht.
  enough (∃ w', run_rest (World s hs thr) t (Frame h p k) = Ret w' ∧ world_ok (n + 1) w') as (w' & -> & Hw')
    by (cbn; eauto).
  assert (∀ w', world_ok n w' → world_ok (n + 1) w') as Hmono by (intros ?; apply inv_mono; lia).
  destruct k as [other | other q | | x d |].
  - destruct (run_copy n s hs thr t h p other Hinv Ht) as (w' & -> & ?). eauto.
  - destruct (run_move n s hs thr t h p other q Hinv Ht) as (w' & -> & ?). eauto.
  - eexists. split; [done |]. apply Hmono.
    apply (inv_finish n None s hs thr t (Frame h p K_null)); try done.
    + intros v Hv. by rewrite holds_null.
    + intros h' Hne. cbn. by rewrite decide_False by done.
  - by apply run_point_to.
  - eexists. split; [done |]. apply Hmono. by apply (inv_leave _ _ _ _ _ _ (Frame h p K_destroy)).
Qed.

Lemma shared_run_step_ok n w t :
  world_ok n w → 0 ≤ n → n + 1 < 2 ^ 64 → steps_ok (n + 1) (run_step w t).
Proof.
  intros Hw Hn Hlt. assert (∀ r, steps_ok n r → steps_ok (n + 1) r) as Hmono.
  { intros r (w' & e & -> & Hw'). exists w', e. split; [done |]. eapply inv_mono; [| done]. lia. }
  destruct (threads w !! t) as [[c h p other | c f | c f | c f | f | c h] |] eqn:Ht.
  - by eapply run_add.
  - eapply Hmono, run_sub; [done | lia | done].
  - apply Hmono. unfold steps_ok, run_step. rewrite Ht.
    destruct (inv_deleted _ _ _ _ _ _ _ _ Hw Ht) as (s' & -> & Hs'). cbn. eauto.
  - apply Hmono. unfold steps_ok, run_step. rewrite Ht.
    destruct (inv_freed _ _ _ _ _ _ _ _ Hw Ht) as (s' & -> & Hs'). cbn. eauto.
  - by eapply run_after.
  - by eapply Hmono, run_load.
  - apply Hmono. unfold steps_ok, run_step. rewrite Ht. eauto.
Qed.

(** ** Calls *)

Lemma unused_spec w h : unused w h = true → handles w !! h = None ∧ msum (named h) (threads w) = 0%nat.
Proof. unfold unused. intros [H1%bool_decide_eq_true H2%Nat.eqb_eq]%andb_true_iff. done. Qed.

Lemma unread_spec w h : unread w h = true → msum (reading h) (threads w) = 0%nat.
Proof. apply Nat.eqb_eq. Qed.

Lemma inv_put_null n x s hs thr h :
  inv n x s hs thr → hs !! h = None → msum (named h) thr = 0%nat → inv n x s (<[h := null_shared]> hs) thr.
Proof.
  intros Hinv Hh Hnm. apply (inv_quiet n x x s hs thr); [done | | done | done | |].
  - intros v Hv. pose proof (holds_null v Hv). count.
  - intros h'. pose proof (v_names _ _ _ _ _ Hinv h'). count.
  - apply reads_all_insert; [apply Hinv | by left].
Qed.

Lemma create_ok n w t h (c : call D) :
  world_ok n w → 0 ≤ n → threads w !! t = None → unused w h = true → steps_ok (n + 1) (create w t h c).
Proof.
  unfold steps_ok. intros Hw Hn Ht Hu. apply unused_spec in Hu as [Hh Hnm].
  assert (world_ok (n + 1) w) as Hw' by (apply (inv_mono n); [lia | done]).
  destruct w as [s hs thr]. unfold world_ok in Hw, Hw'. cbn [mem handles threads] in *.
  pose proof (present_None _ _ Hh). unfold create.
  destruct c as [| null d | other | other | | | | | | |]; cbn [mem handles threads]; eauto.
  - do 2 eexists. split; [done |]. by apply inv_put_null.
  - pose proof (inv_new_object n s hs thr null Hw) as Hnew. destruct (new_object s null) as [x s1]. cbn in Hnew.
    pose proof (inv_make_cb n (n + 1) x s1 hs thr h d Hnew ltac:(lia) ltac:(lia) Hh Hnm) as Hcb.
    unfold construct. destruct (make_cb s1 x d) as [c s2]. eauto.
  - destruct (hs !! other) as [q |] eqn:Hq; eauto. destruct (p_cb q) as [c |] eqn:Hc.
    + do 2 eexists. split; [done |]. unfold world_ok; cbn.
      apply (inv_quiet (n + 1) None None s hs thr); [done | count | intros; split; count | count | |].
      * intros h'. pose proof (v_names _ _ _ _ _ Hw h'). count.
      * by apply map_Forall_insert_2; [| apply Hw].
    + rewrite (null_handle _ _ _ _ _ _ _ Hw Hq Hc). do 2 eexists. split; [done |]. by apply inv_put_null.
  - destruct (hs !! other) as [q |] eqn:Hq; eauto.
    destruct (unread _ other) eqn:Hr; eauto. apply unread_spec in Hr. cbn in Hr.
    do 2 eexists. split; [done |]. unfold world_ok; cbn. assert (h ≠ other) as Hne by congruence.
    assert (<[other := null_shared]> hs !! h = None) as Hh' by by rewrite lookup_insert_ne.
    pose proof (present_Some _ _ _ Hq).
    apply (inv_quiet (n + 1) None None s hs thr); [done | | done | done | |].
    + intros v Hv. pose proof (holds_null v Hv). count.
    + intros h'. pose proof (v_names _ _ _ _ _ Hw h'). count.
    + apply reads_all_insert; [| by left]. apply reads_all_insert; [apply Hw | by right].
Qed.

Lemma take_ok n x w t h p k :
  inv n x (mem w) (handles w) (threads w) → threads w !! t = None → handles w !! h = Some p →
  unread w h = true →
  (∀ v, todo_holds v (Frame h p k) = 0%nat) →
  (∀ o, is_raw x o = todo_raw o (Frame h p k)) →
  (match k with K_move _ _ => False | K_copy other => h ≠ other ∧ is_Some (handles w !! other) | _ => True end) →
  world_ok n (take_handle w (mem w) t h p k).
Proof.
  destruct w as [s hs thr]. unfold world_ok; cbn [mem handles threads take_handle].
  intros Hinv Ht Hh Hr%unread_spec Hhold Hraw Hk.
  apply (inv_take n x None s hs hs thr); [done.. | apply Hinv | | | |].
  - intros v Hv. rewrite Hhold. lia.
  - intros o. rewrite Hraw. change (is_raw None o) with 0%nat. lia.
  - intros h'. cbn. destruct k; try done; lia.
  - unfold frame_reads. cbn. destruct k; try done. destruct Hk. by rewrite lookup_delete_ne.
Qed.

Lemma move_assign_ok n w t h p other q :
  world_ok n w → threads w !! t = None → handles w !! h = Some p → handles w !! other = Some q → h ≠ other →
  unread w h = true → unread w other = true →
  world_ok n (take_handle (World (mem w) (delete other (handles w)) (threads w)) (mem w) t h p (K_move other q)).
Proof.
  destruct w as [s hs thr]. unfold world_ok; cbn [mem handles threads take_handle].
  intros Hinv Ht Hh Hq Hne Hr%unread_spec Hro%unread_spec.
  assert (delete other hs !! h = Some p) as Hh' by by rewrite lookup_delete_ne.
  pose proof (present_Some _ _ _ Hq).
  apply (inv_take n None None s hs (delete other hs) thr); [done.. | | | | |].
  - apply reads_all_delete; [apply Hinv | by right].
  - intros v Hv. count.
  - done.
  - intros h'. count.
  - done.
Qed.

Lemma modify_ok n w t h p (c : call D) :
  world_ok n w → threads w !! t = None → handles w !! h = Some p → unread w h = true →
  steps_ok n (modify w t h p c).
Proof.
  unfold steps_ok. intros Hw Ht Hh Hr. unfold modify.
  destruct c as [| | | | other | other | | null d | | |]; eauto.
  - destruct (handles w !! other) as [q |] eqn:Hq; eauto. destruct (Nat.eqb_spec h other); eauto.
    do 2 eexists. split; [done |]. apply (take_ok n None); eauto.
  - destruct (handles w !! other) as [q |] eqn:Hq; eauto. destruct (Nat.eqb_spec h other); eauto.
    destruct (unread w other) eqn:Hro; eauto. do 2 eexists. split; [done |]. by apply move_assign_ok.
  - do 2 eexists. split; [done |]. by apply (take_ok n None).
  - pose proof (inv_new_object n _ _ _ null Hw) as Hnew. destruct (new_object (mem w) null) as [x s1]. cbn in Hnew.
    do 2 eexists. split; [done |].
    by apply (take_ok n x (World s1 (handles w) (threads w)) t h p (K_point_to x d)).
  - do 2 eexists. split; [done |]. by apply (take_ok n None).
Qed.

(** A handle's object is alive. *)
Lemma handle_live n x s hs thr h p o :
  inv n x s hs thr → hs !! h = Some p → p_obj p = Some o → is_Some (blocks (objs s) !! o).
Proof.
  intros Hinv Hh Ho. destruct (p_cb p) as [c |] eqn:Hc.
  2: { rewrite (null_handle _ _ _ _ _ _ _ Hinv Hh Hc) in Ho. done. }
  destruct (held_block _ _ _ _ _ p c Hinv Hc (handle_held _ _ _ _ Hh)) as (b & Hb & Hobj & _).
  pose proof (v_owners _ _ _ _ _ Hinv o) as Hown. pose proof (msum_ge (owned_by o) _ c b Hb) as Hge.
  rewrite (owned_by_eq o b o), decide_True in Hge by congruence. unfold owners, live in Hown.
  destruct (blocks (objs s) !! o); [eauto | lia].
Qed.

Lemma observe_ok n w t h p (c : call D) :
  world_ok n w → threads w !! t = None → handles w !! h = Some p → steps_ok n (observe w t h p c).
Proof.
  unfold steps_ok, observe. intros Hw Ht Hh. destruct c as [| | | | | | | | | |]; eauto.
  - destruct (p_cb p) as [c |] eqn:Hc; [| eauto]. do 2 eexists. split; [done |].
    destruct w as [s hs thr]. unfold world_ok in *; cbn in *.
    apply (inv_quiet n None None s hs thr); [done | count | intros; split; count | count | |].
    + intros h'. pose proof (v_names _ _ _ _ _ Hw h'). count.
    + apply map_Forall_insert_2; [simpl; eauto | apply Hw].
  - unfold to_bool, deref, load. destruct (p_obj p) as [o |] eqn:Ho; [| eauto].
    destruct (handle_live _ _ _ _ _ _ _ _ Hw Hh Ho) as [u ->]. cbn. eauto.
Qed.

Lemma shared_threads_exec n w (a : action D) :
  world_ok n w → 0 ≤ n → n + 1 < 2 ^ 64 → steps_ok (n + 1) (exec w a).
Proof.
  intros Hw Hn Hlt. assert (∀ r, steps_ok n r → steps_ok (n + 1) r) as Hmono.
  { intros r (w' & e & -> & Hw'). exists w', e. split; [done |]. eapply inv_mono; [| done]. lia. }
  assert (steps_ok n (Ret (w, None))) as Hsame by (unfold steps_ok; eauto).
  destruct a as [t h c | t]; simpl; [| by apply shared_run_step_ok].
  destruct (threads w !! t) eqn:Ht; [by apply Hmono |]. unfold begin_call.
  destruct (handles w !! h) as [p |] eqn:Hh.
  - apply Hmono. pose proof (observe_ok n w t h p c Hw Ht Hh) as Hobs.
    destruct (unread w h) eqn:Hr; [pose proof (modify_ok n w t h p c Hw Ht Hh Hr) as Hmod |];
      destruct c; assumption.
  - destruct (unused w h) eqn:Hu; [by apply create_ok | by apply Hmono].
Qed.

Lemma shared_threads_run (acts : list (action D)) n w :
  world_ok n w → 0 ≤ n → n + zlen acts < 2 ^ 64 →
  ∃ w' es, run_schedule exec w acts = Ret (w', es) ∧ world_ok (n + zlen acts) w'.
Proof.
  revert n w. induction acts as [| a acts IH]; intros n w Hw Hn Hlt.
  { exists w, []. split; [done |]. eapply inv_mono; [| done]. simpl. lia. }
  cbn [length run_schedule] in *. destruct (shared_threads_exec n w a Hw Hn) as (w1 & e & -> & Hw1); [lia |].
  destruct (IH (n + 1) w1 Hw1) as (w' & es & Hrun & Hw'); [lia.. |]. cbn [obind]. rewrite Hrun. cbn [obind].
  do 2 eexists. split; [done |]. eapply inv_mono; [| done]. lia.
Qed.

Lemma shared_threads_init : world_ok 0 (init (D := D)).
Proof.
  split; cbn.
  - split; cbn; try done.
    + apply frame_empty.
    + apply frame_empty.
    + split; [constructor | done].
    + intros o. rewrite elem_of_nil. lia.
  - intros v _. unfold tokens, expected. rewrite !msum_empty. destruct (p_cb v); [cbn; by rewrite lookup_empty | done].
  - intros c. rewrite msum_empty. unfold dying. cbn. by rewrite lookup_empty.
  - done.
  - intros o. unfold owners, live. cbn. by rewrite !msum_empty, lookup_empty.
  - intros h. unfold present. rewrite lookup_empty, msum_empty. lia.
  - apply map_Forall_empty.
Qed.

(** ** Progress of one thread *)

(** The steps a call has left. *)
Definition rank (p : pc D) : nat :=
  match p with
  | Sub _ _ => 5
  | Deleting _ _ => 4
  | Freeing _ _ => 3
  | Rest _ => 2
  | Add _ _ _ _ | Load _ _ => 1
  end.
Definition rank_at w t : nat := match threads w !! t with Some p => rank p | None => 0%nat end.

(** A call only moves the thread that makes it. *)
Lemma begin_call_other w t t' h (c : call D) w' e :
  begin_call w t' h c = Ret (w', e) → t' ≠ t → threads w' !! t = threads w !! t.
Proof.
  intros Ha Hne.
  assert (create w t' h c = Ret (w', e) → threads w' !! t = threads w !! t) as Hcreate.
  { unfold create, at_pc, construct, make_cb, new_object. intros Hc. destruct c; cbn in Hc;
      split_match_in Hc; simplify_eq/=; by rewrite ?lookup_insert_ne by done. }
  assert (∀ p, modify w t' h p c = Ret (w', e) → threads w' !! t = threads w !! t) as Hmodify.
  { intros p. unfold modify, take_handle, new_object. intros Hc. destruct c; cbn in Hc;
      split_match_in Hc; simplify_eq/=; by rewrite ?lookup_insert_ne by done. }
  assert (∀ p, observe w t' h p c = Ret (w', e) → threads w' !! t = threads w !! t) as Hobserve.
  { intros p. unfold observe, at_pc, obind. intros Hc. destruct c; cbn in Hc;
      split_match_in Hc; simplify_eq/=; by rewrite ?lookup_insert_ne by done. }
  unfold begin_call in Ha. destruct (handles w !! h) as [p |].
  - destruct (unread w h); destruct c; first [by apply (Hmodify p) | by apply (Hobserve p) | by simplify_eq].
  - destruct (unused w h); [eauto | by simplify_eq].
Qed.

Lemma run_rest_threads w t f w' :
  run_rest w t f = Ret w' →
  (∃ c h q other, threads w' = <[t := Add c h q other]> (threads w)) ∨ threads w' = delete t (threads w).
Proof.
  unfold run_rest, finish, at_pc, make_cb. intros Hr. destruct (todo f); cbn in Hr;
    split_match_in Hr; simplify_eq/=; eauto 6.
Qed.

(** A step of [t] moves only [t], to a place of lower rank. *)
Lemma run_step_threads w t (p : pc D) w' e :
  run_step w t = Ret (w', e) → threads w !! t = Some p →
  (∃ p' : pc D, threads w' = <[t := p']> (threads w) ∧ (rank p' < rank p)%nat) ∨ threads w' = delete t (threads w).
Proof.
  unfold run_step. intros Hr Hp. rewrite Hp in Hr. unfold finish, at_pc, obind in Hr.
  destruct p as [c h q other | c f | c f | c f | f | c h]; cbn [rank].
  1-4, 6: split_match_in Hr; simplify_eq/=; first [by right | left; eexists; split; [done | repeat case_match; simpl; lia]].
  destruct (run_rest w t f) as [w1 | | | |] eqn:Hf; simplify_eq/=.
  destruct (run_rest_threads _ _ _ _ Hf) as [(c & h & q & other & ->) | ->]; [left | by right].
  eexists. split; [done | simpl; lia].
Qed.

(** The steps of other threads do not move [t]. *)
Lemma exec_other w t (a : action D) w' e :
  exec w a = Ret (w', e) → is_Some (threads w !! t) → a ≠ Run t → threads w' !! t = threads w !! t.
Proof.
  intros Ha [p Hp] Hne. destruct a as [t' h c | t']; simpl in Ha.
  - destruct (threads w !! t') eqn:Ht'; [by simplify_eq/= |].
    eapply begin_call_other; [done | congruence].
  - assert (t' ≠ t) by congruence. destruct (threads w !! t') as [p' |] eqn:Ht'.
    + destruct (run_step_threads _ _ _ _ _ Ha Ht') as [(p1 & -> & _) | ->];
        by rewrite ?lookup_insert_ne, ?lookup_delete_ne by done.
    + unfold run_step in Ha. rewrite Ht' in Ha. by simplify_eq.
Qed.

Lemma exec_self w t (p : pc D) w' e :
  exec w (Run t) = Ret (w', e) → threads w !! t = Some p → (rank_at w' t < rank p)%nat.
Proof.
  intros Ha Hp. unfold rank_at. destruct (run_step_threads _ _ _ _ _ Ha Hp) as [(p1 & -> & Hlt) | ->].
  - by rewrite lookup_insert_eq.
  - rewrite lookup_delete_eq. destruct p; simpl; lia.
Qed.

(** The steps of [t] in a schedule. *)
Definition is_run t (a : action D) : bool := match a with Run t' => (t =? t')%nat | Call _ _ _ => false end.
Definition own_steps t (acts : list (action D)) : nat := length (List.filter (is_run t) acts).

(** Enough steps of [t] in a schedule end its call on the way. *)
Lemma call_ends (acts : list (action D)) n w t :
  world_ok n w → 0 ≤ n → n + zlen acts < 2 ^ 64 → (rank_at w t ≤ own_steps t acts)%nat →
  ∃ k w' es, run_schedule exec w (take k acts) = Ret (w', es) ∧ threads w' !! t = None.
Proof.
  revert n w. induction acts as [| a acts IH]; intros n w Hw Hn Hlt Hr;
    (destruct (threads w !! t) as [p |] eqn:Hp; [| by exists 0%nat, w, []]).
  { unfold rank_at, own_steps in Hr. rewrite Hp in Hr. destruct p; simpl in Hr; lia. }
  cbn [length] in Hlt. destruct (shared_threads_exec n w a Hw Hn) as (w1 & e & Ha & Hw1); [lia |].
  destruct (IH (n + 1) w1 Hw1) as (k & w' & es & Hrun & Ht); [lia.. | |].
  - assert (rank_at w t = rank p) as Hrank by (unfold rank_at; by rewrite Hp).
    unfold own_steps in *. simpl in Hr. destruct (is_run t a) eqn:Hrun.
    + destruct a as [| t']; [done |]. simpl in Hrun. apply Nat.eqb_eq in Hrun as <-.
      pose proof (exec_self _ _ _ _ _ Ha Hp). simpl in Hr. lia.
    + assert (threads w1 !! t = threads w !! t) as Heq.
      { eapply exec_other; [done | by rewrite Hp |]. intros ->. simpl in Hrun.
        by rewrite Nat.eqb_refl in Hrun. }
      unfold rank_at. rewrite Heq. unfold rank_at in Hr. lia.
  - exists (S k), w'. simpl. rewrite Ha. cbn [obind]. rewrite Hrun. eauto.
Qed.

Lemma rank_at_le w t : (rank_at w t ≤ 5)%nat.
Proof. unfold rank_at. destruct (threads w !! t) as [[] |]; simpl; lia. Qed.

(** ** Quiet states *)

(** With no call running, an object is alive exactly while a handle points to it. *)
Lemma live_iff_pointed n s hs o :
  inv n None s hs ∅ → is_Some (blocks (objs s) !! o) ↔ ∃ h p, hs !! h = Some p ∧ p_obj p = Some o.
Proof.
  intros Hinv. split; [| intros (h & p & Hp & Ho); by eapply handle_live].
  intros [u Hu]. pose proof (v_owners _ _ _ _ _ Hinv o) as Ho. unfold owners, live in Ho.
  rewrite Hu, msum_empty in Ho. change (is_raw None o) with 0%nat in Ho.
  destruct (msum_pos (owned_by o) (blocks (cbs s))) as (c & b & Hb & Hpos); [lia |].
  assert (cb_obj b = Some o) as Hobj by (unfold owned_by in Hpos; case_decide; [done | lia]).
  pose proof (block_closing _ _ _ _ _ c b Hinv Hb) as Hc. rewrite msum_empty in Hc.
  pose proof (block_tokens _ _ _ _ _ c b Hinv Hb) as Ht. unfold tokens in Ht. rewrite msum_empty in Ht.
  pose proof (k_count _ _ (v_mem _ _ _ _ _ Hinv) c b Hb). case_decide; [done |].
  destruct (msum_pos (holds (MkShared (cb_obj b) (Some c))) hs) as (h & p & Hp & Hpos'); [lia |].
  unfold holds in Hpos'. case_decide; [| lia]. subst. eauto.
Qed.

(** Every control block is counted by a handle then. *)
Lemma block_pointed n s hs c :
  inv n None s hs ∅ → is_Some (blocks (cbs s) !! c) → ∃ h p, hs !! h = Some p ∧ p_cb p = Some c.
Proof.
  intros Hinv [b Hb]. pose proof (block_closing _ _ _ _ _ c b Hinv Hb) as Hc. rewrite msum_empty in Hc.
  pose proof (block_tokens _ _ _ _ _ c b Hinv Hb) as Ht. unfold tokens in Ht. rewrite msum_empty in Ht.
  pose proof (k_count _ _ (v_mem _ _ _ _ _ Hinv) c b Hb). case_decide; [done |].
  destruct (msum_pos (holds (MkShared (cb_obj b) (Some c))) hs) as (h & p & Hp & Hpos'); [lia |].
  unfold holds in Hpos'. case_decide; [| lia]. subst. eauto.
Qed.

Lemma reached_ok (acts : list (action D)) w es :
  zlen acts < 2 ^ 64 → run_schedule exec init acts = Ret (w, es) → world_ok (zlen acts) w.
Proof.
  intros Hlen Hrun. destruct (shared_threads_run acts 0 init) as (w' & es' & Hrun' & Hw);
    [exact shared_threads_init | lia.. |].
  rewrite Hrun in Hrun'. injection Hrun' as <- <-. done.
Qed.
End Invariant.

(** * Properties *)

(** C19: threads that share objects through [shared_ptr]s never touch freed
    memory.  However the atomic steps of any number of threads interleave, every
    step is defined: no control block or object is used after it was freed, or
    freed twice; at the end every handle's object is alive. *)
Theorem shared_threads_safe {D} (acts : list (action D)) :
  zlen acts < 2 ^ 64 →
  ∃ w es, run_schedule exec init acts = Ret (w, es) ∧
    ∀ h p, handles w !! h = Some p → to_bool p = true → deref (mem w) p = Ret tt.
Proof.
  intros Hlen. destruct (shared_threads_run acts 0 init) as (w & es & Hrun & Hw);
    [exact shared_threads_init | lia.. |].
  exists w, es. split; [done |]. intros h p Hp. unfold to_bool, deref, load.
  destruct (p_obj p) as [o |] eqn:Ho; [| done]. intros _.
  destruct (handle_live _ _ _ _ _ _ _ _ Hw Hp Ho) as [[] ->]. done.
Qed.

(** C20: threads delete a shared object exactly once, after its last handle.
    At every moment no object has been deleted twice, each was deleted by the
    deleter it was handed over with, and no handle points to a deleted object;
    whenever no call is running, an object is deleted iff no handle points to
    it, and every control block is in use; without handles both heaps are empty. *)
Theorem shared_threads_lifetime {D} (acts : list (action D)) w es :
  zlen acts < 2 ^ 64 → run_schedule exec init acts = Ret (w, es) →
  NoDup (deleted (mem w)).*1 ∧ deleted (mem w) ⊆ created (mem w) ∧
  (∀ h p o, handles w !! h = Some p → p_obj p = Some o → o ∉ (deleted (mem w)).*1) ∧
  (threads w = ∅ →
    (∀ o, (o < next_ (objs (mem w)))%nat →
      o ∈ (deleted (mem w)).*1 ↔ ¬ ∃ h p, handles w !! h = Some p ∧ p_obj p = Some o) ∧
    (∀ c, is_Some (blocks (cbs (mem w)) !! c) → ∃ h p, handles w !! h = Some p ∧ p_cb p = Some c)) ∧
  (threads w = ∅ → handles w = ∅ → blocks (objs (mem w)) = ∅ ∧ blocks (cbs (mem w)) = ∅).
Proof.
  intros Hlen Hrun. pose proof (reached_ok acts w es Hlen Hrun) as Hw. destruct w as [s hs thr]. unfold world_ok in Hw. cbn [mem handles threads] in *.
  destruct (k_deleted _ _ (v_mem _ _ _ _ _ Hw)) as [Hnd Hsub].
  pose proof (k_where _ _ (v_mem _ _ _ _ _ Hw)) as Hwhere. split_and!; [done | done | | |].
  - intros h p o Hp Ho [_ Hnone]%Hwhere. destruct (handle_live _ _ _ _ _ _ _ _ Hw Hp Ho). congruence.
  - intros ->. split; [| by intros; eapply block_pointed].
    intros o Ho. rewrite Hwhere, eq_None_not_Some, (live_iff_pointed _ _ _ _ Hw). tauto.
  - intros -> ->. split; apply map_eq; intros x; rewrite lookup_empty; apply eq_None_not_Some; intros Hx.
    + apply (live_iff_pointed _ _ _ _ Hw) in Hx as (h & p & Hp & _). by rewrite lookup_empty in Hp.
    + apply (block_pointed _ _ _ _ Hw) in Hx as (h & p & Hp & _). by rewrite lookup_empty in Hp.
Qed.

(** C21: calls on [shared_ptr]s are wait-free: in every schedule that gives a
    thread five steps, the call it is in returns, whatever other threads do. *)
Theorem shared_calls_wait_free {D} (before acts : list (action D)) w es t :
  zlen (before ++ acts) < 2 ^ 64 → run_schedule exec init before = Ret (w, es) →
  (5 ≤ own_steps t acts)%nat →
  ∃ k w' es', run_schedule exec w (take k acts) = Ret (w', es') ∧ threads w' !! t = None.
Proof.
  intros Hlen Hrun Hsteps. rewrite length_app in Hlen.
  pose proof (reached_ok before w es ltac:(lia) Hrun) as Hw.
  pose proof (rank_at_le w t). eapply call_ends; [done | lia..].
Qed.

(** [use_count] returns the number of counted references at its load: handles
    with the same pointers, and those that calls under way still have to release
    or hand on. *)
Theorem use_count_counts {D} (acts : list (action D)) w es t c h :
  zlen acts < 2 ^ 64 → run_schedule exec init acts = Ret (w, es) →
  threads w !! t = Some (Load c h) →
  ∃ p, handles w !! h = Some p ∧
    ∃ w', run_step w t = Ret (w', Some (Ev_use_count t (Z.of_nat (tokens (handles w) (threads w) p)))).
Proof.
  intros Hlen Hrun Ht. pose proof (reached_ok acts w es Hlen Hrun) as Hw.
  destruct (v_reads _ _ _ _ _ Hw t _ Ht) as (p & Hp & Hc). exists p. split; [done |].
  destruct (held_block _ _ _ _ _ p c Hw Hc (handle_held _ _ _ _ Hp)) as (b & Hb & Hobj & Hcount).
  pose proof (block_tokens _ _ _ _ _ c b Hw Hb) as Htok. rewrite <-(eta_value p c b Hc Hobj) in Htok.
  unfold run_step. rewrite Ht. unfold cb_use_count, load. rewrite Hb. cbn [obind].
  eexists. rewrite Htok, Z2Nat.id by lia. done.
Qed.

(** ** A concrete schedule *)

Module Demo.
(** Threads 1 and 2 share object 0, through handles 0 and 1; both let go at the
    same time while thread 3 builds another owner from handle 2. *)
Definition sharing : list (action nat) :=
  [Call 1 0 (Construct false 70); Call 1 1 (CopyConstruct 0); Run 1;
   Call 1 0 Destroy; Call 2 1 Reset; Run 2; Run 1; Run 1; Run 2;
   Call 3 2 (Construct false 71); Call 3 1 (CopyAssign 2)]%nat.
Definition letting_go : list (action nat) := [Run 1; Run 3; Run 1; Call 4 2 UseCount; Run 3; Run 4]%nat.

Definition end_world (acts : list (action nat)) : world nat := final init (run_schedule exec init acts).

Lemma sharing_runs : run_schedule exec init sharing = Ret (end_world sharing, []).
Proof. vm_compute. reflexivity. Qed.

(** The thread whose [fetch_sub] comes last deletes: here thread 1, by deleter 70. *)
Example shared_threads_log :
  deleted (mem (end_world sharing)) = [(0, 70)]%nat ∧
  is_Some (threads (end_world sharing) !! 1%nat).
Proof. by_evaluation. Qed.

Example shared_threads_counts : ∃ w, run_schedule exec init (sharing ++ letting_go) = Ret (w, [Ev_use_count 4 2]).
Proof. eexists. vm_compute. reflexivity. Qed.
End Demo.

Lemma shared_threads_safe_witness :
  ∃ w es, run_schedule exec init (Demo.sharing ++ Demo.letting_go) = Ret (w, es) ∧
    ∀ h p, handles w !! h = Some p → to_bool p = true → deref (mem w) p = Ret tt.
Proof. apply (shared_threads_safe (Demo.sharing ++ Demo.letting_go)). simpl. lia. Defined.

(** After the first schedule object 0 is gone, deleted once. *)
Lemma shared_threads_lifetime_witness :
  (deleted (mem (Demo.end_world Demo.sharing))).*1 = [0]%nat ∧
  NoDup (deleted (mem (Demo.end_world Demo.sharing))).*1.
Proof.
  split; [vm_compute; reflexivity |].
  exact (proj1 (shared_threads_lifetime Demo.sharing _ _ ltac:(simpl; lia) Demo.sharing_runs)).
Defined.

(** Thread 1 was left between the deleter call and the freeing of the block. *)
Lemma shared_calls_wait_free_witness :
  ∃ k w' es',
    run_schedule exec (Demo.end_world Demo.sharing)
      (take k [Run 3; Run 1; Run 1; Run 3; Run 1; Run 1; Run 1]%nat) = Ret (w', es') ∧
    threads w' !! 1%nat = None.
Proof.
  apply (shared_calls_wait_free Demo.sharing _ _ [] 1%nat);
    [simpl; lia | exact Demo.sharing_runs | vm_compute; lia].
Defined.
