(* ===== verification/CountWeak.v ===== *)
(** * CountWeak: the memory orders of the reference count

    Models [control_block] of [src/include/fiah/handle/SharedPtr.hh] over the
    release/acquire memory of [WeakMemory]: one block and the object it owns, made
    by thread 0, and the handles on them in any number of threads.  The count is
    an atomic location; the object, [p_obj] of the block and the block itself are
    plain objects, which the threads read and in the end one thread deletes, writes
    and frees: what the orders of [m_count] must keep apart.

    A handle is not synchronised by this code, so a client must order the calls
    that write it with all others on it, and must do the same for what it reads and
    writes in the object.  What the client does for either is a pair of views, what
    the last writer knew and what the readers since knew: a reader learns the
    former, a writer both, and nothing more is assumed.  The functions of
    [shared_ptr] are in [SharedThreads]; here a handle is copied, moved,
    dereferenced, asked for its count or given up. *)

From stdpp Require Import base tactics numbers list option gmap.
From Stdlib Require Import ZArith Lia.
From S2P Require Import Prelude WeakMemory.
#[local] Open Scope Z_scope.
#[local] Open Scope fiah_scope.

(** [m_count], the object, [p_obj] of the block, and the storage of the block: an
    atomic operation reads the last of these. *)
Definition COUNT : nat := 0.
Definition OBJECT : object := Object 0 1.
Definition P_OBJ : object := Object 2 3.
Definition BLOCK : object := Object 4 5.

(** The orders of [add_ref], [release] and [use_count]. *)
Record count_orders : Type := CountOrders {
  add_acquires : bool; add_releases : bool;
  sub_acquires : bool; sub_releases : bool;
  use_count_order : order
}.
Definition code_orders : count_orders := CountOrders true true true true Acquire.

(** What the users of a handle, or of the object, pass on to one another. *)
Record handle : Type := Handle { written : view; read_by : view }.

(** Where a thread is inside [release]; a thread with no entry is not in it. *)
Inductive pc : Type :=
| Sub                 (* before m_count.fetch_sub *)
| Deleting            (* the count was 1; before the deleter *)
| Freeing.            (* before destroy_at(this), operator delete *)

Record world : Type := World {
  mem : memory;
  handles : gmap nat handle;
  threads : gmap nat pc;
  shared : handle;        (* the use of the object *)
  p_obj : bool;           (* p_obj of the block is not null *)
  deletions : nat;
  frees : nat
}.

Inductive event : Type := Ev_use_count (t : nat) (n : Z).

Section CountWeak.
Context (ords : count_orders) (has_object : bool).

(** Thread 0 has run [shared_ptr(pointer)]; the pointer may be null. *)
Definition weak_init : world :=
  let m := init_memory 1 in
  let m := record (record (record m 0 (writes OBJECT)) 0 (writes BLOCK)) 0 (writes P_OBJ) in
  World m {[0%nat := Handle (views m 0) bottom]} ∅ (Handle (views m 0) bottom) has_object 0 0.

Definition set_mem (w : world) (m : memory) : world :=
  World m (handles w) (threads w) (shared w) (p_obj w) (deletions w) (frees w).
Definition set_handles (w : world) (m : memory) (hs : gmap nat handle) : world :=
  World m hs (threads w) (shared w) (p_obj w) (deletions w) (frees w).
Definition set_pc (w : world) (m : memory) (thr : gmap nat pc) : world :=
  World m (handles w) thr (shared w) (p_obj w) (deletions w) (frees w).
Definition set_shared (w : world) (sh : handle) : world :=
  World (mem w) (handles w) (threads w) sh (p_obj w) (deletions w) (frees w).

(** The block is there, and was not freed by an unordered thread. *)
Definition touch (w : world) (m : memory) (t : nat) : outcome memory :=
  if (frees w =? 0)%nat then read_object m t BLOCK else Undef.

(** A read-modify-write of [m_count]. *)
Definition update_count (w : world) (m : memory) (t : nat) (acq rel : bool) (f : Z → Z) : outcome (Z * memory) :=
  let! m := touch w m t in
  match rmw acq rel m t COUNT f with Some r => Ret r | None => Undef end.

Definition add_ref (w : world) (m : memory) (t : nat) : outcome memory :=
  let! r := update_count w m t (add_acquires ords) (add_releases ords) (λ x, x +u64 1) in
  Ret (snd r).

(** The deleter call and [p_obj = nullptr], if [p_obj] is not null. *)
Definition delete_object (w : world) (t : nat) : outcome world :=
  let! m := read_object (mem w) t P_OBJ in
  if p_obj w then
    if (deletions w =? 0)%nat then
      let! m := write_object m t OBJECT in
      let! m := write_object m t P_OBJ in
      Ret (World m (handles w) (threads w) (shared w) false (S (deletions w)) (frees w))
    else Undef
  else Ret (set_mem w m).

Definition free_block (w : world) (t : nat) : outcome world :=
  if (frees w =? 0)%nat then
    let! m := write_object (mem w) t BLOCK in
    Ret (World m (handles w) (threads w) (shared w) (p_obj w) (deletions w) (S (frees w)))
  else Undef.

(** The next step of thread [t] in [release]. *)
Definition run_step (w : world) (t : nat) : outcome world :=
  match threads w !! t with
  | None => Ret w
  | Some Sub =>
      let! r := update_count w (mem w) t (sub_acquires ords) (sub_releases ords) (λ x, x -u64 1) in
      Ret (set_pc w (snd r) (if fst r =? 1 then <[t := Deleting]> (threads w) else delete t (threads w)))
  | Some Deleting =>
      let! w := delete_object w t in Ret (set_pc w (mem w) (<[t := Freeing]> (threads w)))
  | Some Freeing =>
      let! w := free_block w t in Ret (set_pc w (mem w) (delete t (threads w)))
  end.

(** A call of thread [t] reads the handle [x], known under [h]: it was written
    before, and the next write comes after. *)
Definition read_handle (m : memory) (t : nat) (x : handle) : memory := sync m t (written x).
Definition after_read (m : memory) (t : nat) (h : nat) (x : handle) (hs : gmap nat handle) : gmap nat handle :=
  <[h := Handle (written x) (join (read_by x) (views m t))]> hs.
Definition write_handle (m : memory) (t : nat) (x : handle) : memory :=
  sync (sync m t (written x)) t (read_by x).

Inductive action : Type :=
| Copy (t h h' : nat)         (* shared_ptr(const shared_ptr &): [h'] from [h] *)
| Move (t h h' : nat)         (* shared_ptr(shared_ptr &&) *)
| Use (t h : nat)             (* the object is read through operator* or operator-> *)
| Modify (t h : nat)          (* the object is written through them *)
| UseCount (t h i : nat)      (* use_count(), the load reading message [i] *)
| Drop (t h : nat)            (* ~shared_ptr() or reset(): release begins *)
| Run (t : nat).

(** One call of thread [t] on the handle [x], known under [h]; a message that
    cannot be read changes nothing. *)
Definition call (w : world) (t h : nat) (x : handle) (a : action) : outcome (world * option event) :=
  match a with
  | Copy _ _ h' =>
      match handles w !! h' with
      | Some _ => Ret (w, None)
      | None =>
          let! m := add_ref w (read_handle (mem w) t x) t in
          Ret (set_handles w m (<[h' := Handle (views m t) bottom]> (after_read m t h x (handles w))), None)
      end
  | Move _ _ h' =>
      match handles w !! h' with
      | Some _ => Ret (w, None)
      | None =>
          let m := write_handle (mem w) t x in
          Ret (set_handles w m (<[h' := Handle (views m t) bottom]> (delete h (handles w))), None)
      end
  | Use _ _ =>
      if has_object then
        if (deletions w =? 0)%nat then
          let! m := read_object (sync (read_handle (mem w) t x) t (written (shared w))) t OBJECT in
          Ret (set_shared (set_handles w m (after_read m t h x (handles w)))
                 (Handle (written (shared w)) (join (read_by (shared w)) (views m t))), None)
        else Undef
      else Ret (w, None)
  | Modify _ _ =>
      if has_object then
        if (deletions w =? 0)%nat then
          let! m := write_object (write_handle (read_handle (mem w) t x) t (shared w)) t OBJECT in
          Ret (set_shared (set_handles w m (after_read m t h x (handles w))) (Handle (views m t) bottom), None)
        else Undef
      else Ret (w, None)
  | UseCount _ _ i =>
      let! m := touch w (read_handle (mem w) t x) t in
      match load (use_count_order ords) m t COUNT i with
      | Some (n, m) => Ret (set_handles w m (after_read m t h x (handles w)), Some (Ev_use_count t n))
      | None => Ret (w, None)
      end
  | Drop _ _ =>
      let m := write_handle (mem w) t x in
      Ret (set_pc (set_handles w m (delete h (handles w))) m (<[t := Sub]> (threads w)), None)
  | Run _ => Ret (w, None)
  end.

(** A thread inside [release] only goes on with it. *)
Definition weak_exec (w : world) (a : action) : outcome (world * option event) :=
  match a with
  | Run t => let! w := run_step w t in Ret (w, None)
  | Copy t h _ | Move t h _ | Use t h | Modify t h | UseCount t h _ | Drop t h =>
      match threads w !! t, handles w !! h with
      | None, Some x => call w t h x a
      | _, _ => Ret (w, None)
      end
  end.
End CountWeak.

(** * Proofs *)

(** ** What a step of a client does to the memory

    Thread [t] learns, and logs accesses of its own: the logs in [K] stay, and every
    access is an old one or known to [t]. *)
Definition block_writes (s : nat) : Prop := s = writes P_OBJ ∨ s = writes BLOCK.
Definition quiet (s : nat) : Prop := block_writes s ∨ s = writes OBJECT ∨ s = reads OBJECT.

Record evolves (K : nat → Prop) (t : nat) (m m' : memory) : Prop := Evolves {
  ev_clk : ∀ t', clk_le (views m t') (views m' t');
  ev_kept : ∀ s, K s → accesses m' s = accesses m s;
  ev_accesses : ∀ s t' c, (t', c) ∈ accesses m' s →
    (t', c) ∈ accesses m s ∨ (c ≤ clk (views m' t) t')%nat
}.

Lemma evolves_trans K t m1 m2 m3 : evolves K t m1 m2 → evolves K t m2 m3 → evolves K t m1 m3.
Proof.
  intros [C1 W1 A1] [C2 W2 A2]. split.
  - intros t' u. etransitivity; [apply C1 | apply C2].
  - intros s Hs. by rewrite W2, W1.
  - intros s t' c [Hin | Hc]%A2; [| by right]. apply A1 in Hin as [Hin | Hc]; [by left | right].
    etransitivity; [exact Hc | apply C2].
Qed.

Lemma evolves_quiet t m m' : evolves quiet t m m' → evolves block_writes t m m'.
Proof. intros [C W A]. split; [done | | done]. intros s Hs. apply W. by left. Qed.

Lemma evolves_views K t m m' :
  accesses m' = accesses m → (∀ t', clk_le (views m t') (views m' t')) → evolves K t m m'.
Proof. intros Ha Hc. split; [done | by intros s _; rewrite Ha | intros s t' c; rewrite Ha; by left]. Qed.

Lemma evolves_sync K t m v : evolves K t m (sync m t v).
Proof.
  apply evolves_views; [done |]. intros t'. rewrite sync_views.
  destruct (Nat.eqb_spec t' t) as [-> |]; [apply clk_join_l | done].
Qed.

Lemma evolves_record (K : nat → Prop) t m s : ¬ K s → evolves K t m (record m t s).
Proof.
  intros Hs. split; [intros t'; apply record_clk | | intros s'; apply record_accesses].
  intros s' Hs'. apply record_other. by intros ->.
Qed.

Lemma evolves_load K t m o l i x m' : load o m t l i = Some (x, m') → evolves K t m m' ∧ hist m' = hist m.
Proof.
  intros (_ & msg & _ & _ & ->)%load_inv. split; [| done]. apply evolves_views; [done |].
  intros t'. cbn [set_view views]. unfold upd at 1. destruct (Nat.eqb_spec t' t) as [-> |]; [| done].
  destruct o; intros u; simpl; lia.
Qed.

(** [v] knows of every write of the block. *)
Definition knows_block (v : view) (m : memory) : Prop := ∀ s, block_writes s → covers v (accesses m) s.

Lemma knows_block_evolves t m m' v w :
  evolves block_writes t m m' → knows_block v m → clk_le v w → knows_block w m'.
Proof. intros [_ Hw _] Hv Hle s Hs t' c. rewrite (Hw s Hs). by apply (covers_clk v w), Hv. Qed.

(** A reader of the object who learns what its writer knew, and a writer who learns
    what the readers knew as well, know of the accesses that matter to them. *)
Definition object_known (sh : handle) (m : memory) : Prop :=
  covers (written sh) (accesses m) (writes OBJECT) ∧
  covers (join (written sh) (read_by sh)) (accesses m) (reads OBJECT).

Lemma object_known_quiet t m m' sh : evolves quiet t m m' → object_known sh m → object_known sh m'.
Proof.
  intros [_ Hk _] [Hw Hr]. split; intros t' c; rewrite Hk by (right; auto); [by apply Hw | by apply Hr].
Qed.

(** ** Who knows of an access

    While the block lives, every access is known to the last writer of a handle or
    to its readers since, to a thread inside [release], or to the newest message. *)
Definition source (m : memory) (hs : gmap nat handle) (thr : gmap nat pc) (v : view) : Prop :=
  (∃ h x, hs !! h = Some x ∧ (v = written x ∨ v = read_by x)) ∨
  (∃ t, is_Some (thr !! t) ∧ v = views m t) ∨
  (∃ msg, newest_message m COUNT = Some msg ∧ v = msg_view msg).

Definition known (m : memory) (src : view → Prop) : Prop :=
  ∀ s t c, (t, c) ∈ accesses m s → ∃ v, src v ∧ (c ≤ clk v t)%nat.

Lemma known_step t m m' (src src' : view → Prop) :
  evolves block_writes t m m' → known m src →
  (∀ v, src v → ∃ v', src' v' ∧ clk_le v v') → (∃ v', src' v' ∧ clk_le (views m' t) v') → known m' src'.
Proof.
  intros [_ _ Ha] Hk Hsrc (v' & Hv' & Hle') s t' c [Hin | Hc]%Ha.
  - destruct (Hk s t' c Hin) as (v & Hv & Hcv). destruct (Hsrc v Hv) as (v2 & Hv2 & Hle).
    exists v2. split; [done |]. etransitivity; [exact Hcv | apply Hle].
  - exists v'. split; [done |]. etransitivity; [exact Hc | apply Hle'].
Qed.

(** ** The life of a block *)

Section Life.
Context (ords : count_orders) (has_object : bool).

(** References: handles, and handles on their way out. *)
Definition total (w : world) : Z := Z.of_nat (size (handles w)) + Z.of_nat (size (threads w)).

Record live_at (w : world) (msg : message) : Prop := Live {
  lv_message : newest_message (mem w) COUNT = Some msg;
  lv_value : msg_value msg = total w;
  lv_hist : Forall (λ msg, 1 ≤ msg_value msg) (hist (mem w) COUNT);
  lv_handles : ∀ h x, handles w !! h = Some x → knows_block (written x) (mem w);
  lv_threads : ∀ t p, threads w !! t = Some p → p = Sub ∧ knows_block (views (mem w) t) (mem w);
  lv_known : known (mem w) (source (mem w) (handles w) (threads w));
  lv_object : object_known (shared w) (mem w);
  lv_state : p_obj w = has_object ∧ deletions w = 0%nat ∧ frees w = 0%nat
}.

(** The thread whose [fetch_sub] answered 1 knows of every access. *)
Record dying_at (w : world) (t : nat) (p : pc) : Prop := Dying {
  dy_handles : handles w = ∅;
  dy_threads : threads w = {[t := p]};
  dy_covers : ∀ s, covers (views (mem w) t) (accesses (mem w)) s;
  dy_frees : frees w = 0%nat
}.

Definition object_gone (w : world) : Prop := deletions w = if has_object then 1%nat else 0%nat.

Definition inv (w : world) : Prop :=
  (∃ msg, live_at w msg) ∨
  (∃ t, dying_at w t Deleting ∧ p_obj w = has_object ∧ deletions w = 0%nat) ∨
  (∃ t, dying_at w t Freeing ∧ object_gone w) ∨
  (handles w = ∅ ∧ threads w = ∅ ∧ object_gone w ∧ frees w = 1%nat).

(** A step that leaves the block alive. *)
Lemma live_step w msg t m hs thr sh msg' :
  live_at w msg → evolves block_writes t (mem w) m →
  newest_message m COUNT = Some msg' → clk_le (msg_view msg) (msg_view msg') →
  msg_value msg' = Z.of_nat (size hs) + Z.of_nat (size thr) →
  Forall (λ msg, 1 ≤ msg_value msg) (hist m COUNT) →
  (∀ h x, hs !! h = Some x → knows_block (written x) m) →
  (∀ t' p, thr !! t' = Some p → p = Sub ∧ (t' = t ∨ is_Some (threads w !! t'))) →
  knows_block (views m t) m → object_known sh m →
  (∀ v, source (mem w) (handles w) (threads w) v → ∃ v', source m hs thr v' ∧ clk_le v v') →
  (∃ v', source m hs thr v' ∧ clk_le (views m t) v') →
  inv (World m hs thr sh (p_obj w) (deletions w) (frees w)).
Proof.
  intros Hl He Hmsg Hle Hval Hhist Hhs Hthr Hwr Hsh Hsrc Hown. left. exists msg'.
  split; cbn [mem handles threads shared p_obj deletions frees]; try done.
  - intros t' p Ht'. destruct (Hthr t' p Ht') as [-> Hor]. split; [done |].
    destruct (decide (t' = t)) as [-> | Hne]; [done |]. destruct Hor as [-> | [p' Hp']]; [done |].
    eapply knows_block_evolves; [exact He | by eapply (lv_threads w msg Hl t') | apply He].
  - by eapply known_step; [exact He | apply Hl | |].
  - apply Hl.
Qed.

(** Sources that stay. *)
Lemma source_threads m t p thr hs : thr !! t = Some p → source m hs thr (views m t).
Proof. intros Ht. right. left. exists t. by rewrite Ht. Qed.

Lemma source_written m hs thr h x : hs !! h = Some x → source m hs thr (written x).
Proof. intros Hh. left. exists h, x. auto. Qed.

Lemma source_read_by m hs thr h x : hs !! h = Some x → source m hs thr (read_by x).
Proof. intros Hh. left. exists h, x. auto. Qed.

Lemma source_message m hs thr msg : newest_message m COUNT = Some msg → source m hs thr (msg_view msg).
Proof. intros Hm. right. right. by exists msg. Qed.

(** The sources of a new state know what the old ones did, when each handle, each
    thread and the newest message is accounted for. *)
Lemma sources_kept t m m' hs hs' thr thr' msg msg' :
  evolves block_writes t m m' → newest_message m COUNT = Some msg → newest_message m' COUNT = Some msg' →
  clk_le (msg_view msg) (msg_view msg') →
  (∀ h x v, hs !! h = Some x → v = written x ∨ v = read_by x → ∃ v', source m' hs' thr' v' ∧ clk_le v v') →
  (∀ t', is_Some (thr !! t') → is_Some (thr' !! t') ∨ ∃ v', source m' hs' thr' v' ∧ clk_le (views m t') v') →
  ∀ v, source m hs thr v → ∃ v', source m' hs' thr' v' ∧ clk_le v v'.
Proof.
  intros He Hm Hm' Hle Hhs Hthr v [(h & x & Hh & Hv) | [(t' & Ht' & ->) | (msg1 & Heq & ->)]].
  - by eapply Hhs.
  - destruct (Hthr t' Ht') as [[p Hp] | Hv]; [| done]. exists (views m' t').
    split; [by eapply source_threads | apply He].
  - rewrite Hm in Heq. injection Heq as <-. exists (msg_view msg'). split; [by apply source_message | done].
Qed.

(** ** Calls *)

(** Every handle is still there, with the same last writer and more readers. *)
Definition handles_le (hs hs' : gmap nat handle) : Prop :=
  ∀ h x, hs !! h = Some x → ∃ x', hs' !! h = Some x' ∧ written x' = written x ∧ clk_le (read_by x) (read_by x').

Lemma after_read_le m t h x hs : hs !! h = Some x → handles_le hs (after_read m t h x hs).
Proof.
  intros Hh h0 x0 H0. unfold after_read. destruct (decide (h0 = h)) as [-> | Hne].
  - rewrite lookup_insert_eq. eexists. split; [done |]. rewrite Hh in H0. injection H0 as <-.
    split; [done | apply clk_join_l].
  - rewrite lookup_insert_ne by done. by exists x0.
Qed.

Lemma handles_le_insert hs hs' h x : handles_le hs hs' → hs !! h = None → handles_le hs (<[h := x]> hs').
Proof.
  intros Hle Hh h0 x0 H0. rewrite lookup_insert_ne by congruence. by apply Hle.
Qed.

Lemma handles_le_sources m hs hs' thr h x v :
  handles_le hs hs' → hs !! h = Some x → v = written x ∨ v = read_by x →
  ∃ v', source m hs' thr v' ∧ clk_le v v'.
Proof.
  intros Hle Hh [-> | ->]; destruct (Hle h x Hh) as (x' & Hh' & Hw & Hr).
  - exists (written x'). split; [by eapply source_written | by rewrite Hw].
  - exists (read_by x'). split; [by eapply source_read_by | done].
Qed.

(** After the client's synchronisation the thread knows the writes. *)
Lemma read_handle_spec w msg t h x (m := read_handle (mem w) t x) :
  live_at w msg → handles w !! h = Some x →
  evolves quiet t (mem w) m ∧ knows_block (views m t) m ∧ hist m = hist (mem w).
Proof.
  intros Hl Hh. split_and!; [apply evolves_sync | | done].
  eapply knows_block_evolves; [apply (evolves_sync _ t (mem w) (written x)) | by eapply lv_handles |].
  unfold m, read_handle. rewrite sync_views, Nat.eqb_refl. apply clk_join_r.
Qed.

Lemma touch_live w m t :
  frees w = 0%nat → knows_block (views m t) m →
  ∃ m', touch w m t = Ret m' ∧ evolves quiet t m m' ∧ knows_block (views m' t) m' ∧ hist m' = hist m.
Proof.
  intros Hf Hk. unfold touch. rewrite Hf. cbn [Nat.eqb].
  assert (evolves quiet t m (record m t (reads BLOCK))) as He.
  { apply evolves_record. unfold quiet, block_writes. simpl. lia. }
  rewrite read_covered by (apply Hk; by right). eexists. split_and!; [done | done | | done].
  apply evolves_quiet in He. eapply knows_block_evolves; [exact He | exact Hk | apply He].
Qed.

(** An update of the count by a thread that knows the writes. *)
Lemma update_live w m t acq rel f msg :
  frees w = 0%nat → knows_block (views m t) m → newest_message m COUNT = Some msg →
  ∃ m' msg', update_count w m t acq rel f = Ret (msg_value msg, m') ∧ evolves quiet t m m' ∧
    knows_block (views m' t) m' ∧ hist m' COUNT = hist m COUNT ++ [msg'] ∧
    newest_message m' COUNT = Some msg' ∧ msg_value msg' = f (msg_value msg) ∧
    clk_le (msg_view msg) (msg_view msg') ∧
    (acq = true → clk_le (msg_view msg) (views m' t)) ∧ (rel = true → clk_le (views m' t) (msg_view msg')).
Proof.
  intros Hf Hk Hmsg. unfold update_count.
  destruct (touch_live w m t Hf Hk) as (m1 & -> & He1 & Hk1 & Hh1). cbn [obind].
  assert (newest_message m1 COUNT = Some msg) as Hmsg1 by (unfold newest_message in *; by rewrite Hh1).
  destruct (rmw_spec acq rel m1 t COUNT f msg Hmsg1) as (m' & msg' & -> & Hh & Hnew & Hv & Ha & Hle & Hclk & Hacq & Hrel).
  assert (∀ K, evolves K t m1 m') as He2 by (intros K; by apply evolves_views).
  exists m', msg'. rewrite Hh1 in Hh. split_and!; try done; [by eapply evolves_trans |].
  eapply knows_block_evolves; [apply He2 | exact Hk1 | apply (He2 quiet)].
Qed.

Definition step_ok (w : world) (r : outcome (world * option event)) : Prop :=
  ∃ w' e, r = Ret (w', e) ∧ inv w' ∧ total w' ≤ total w + 1 ∧
    match e with Some (Ev_use_count _ n) => 1 ≤ n | None => True end.

(** A call that only reads the handle [h], and may add handles of its own. *)
Lemma live_read_call w msg t h x m msg' hs sh :
  live_at w msg → handles w !! h = Some x → evolves block_writes t (mem w) m → knows_block (views m t) m →
  object_known sh m → newest_message m COUNT = Some msg' → clk_le (msg_view msg) (msg_view msg') →
  Forall (λ msg, 1 ≤ msg_value msg) (hist m COUNT) →
  msg_value msg' = Z.of_nat (size hs) + Z.of_nat (size (threads w)) →
  handles_le (after_read m t h x (handles w)) hs →
  (∀ h0 x0, hs !! h0 = Some x0 →
    (∃ h1 x1, handles w !! h1 = Some x1 ∧ written x0 = written x1) ∨ written x0 = views m t) →
  inv (World m hs (threads w) sh (p_obj w) (deletions w) (frees w)).
Proof.
  intros Hl Hh He Hk Hsh Hmsg Hle Hhist Hval Hhs Hnew.
  destruct (Hhs h (Handle (written x) (join (read_by x) (views m t)))) as (xr & Hxr & _ & Hr); [by apply lookup_insert_eq |].
  apply (live_step w msg t m hs (threads w) sh msg'); try done.
  - intros h0 x0 H0. destruct (Hnew h0 x0 H0) as [(h1 & x1 & H1 & ->) | ->]; [| done].
    by eapply knows_block_evolves; [exact He | by eapply lv_handles |].
  - intros t' p Ht'. split; [by eapply (lv_threads w msg Hl t') | right; by exists p].
  - eapply sources_kept; [exact He | apply Hl | exact Hmsg | done | | by left].
    intros h0 x0 v H0 Hv. eapply (handles_le_sources _ (handles w)); [| exact H0 | exact Hv].
    intros h1 x1 H1. destruct (after_read_le m t h x _ Hh h1 x1 H1) as (x2 & H2 & Hw2 & Hr2).
    destruct (Hhs h1 x2 H2) as (x3 & H3 & Hw3 & Hr3). exists x3. split_and!; [done | congruence | by etransitivity].
  - exists (read_by xr). split; [by eapply source_read_by | etransitivity; [apply clk_join_r | exact Hr]].
Qed.

Lemma after_read_size m t h x hs : hs !! h = Some x → size (after_read m t h x hs) = size hs.
Proof. intros Hh. unfold after_read. rewrite map_size_insert, Hh. done. Qed.

Lemma after_read_written m t h x hs h0 x0 :
  hs !! h = Some x → after_read m t h x hs !! h0 = Some x0 → ∃ h1 x1, hs !! h1 = Some x1 ∧ written x0 = written x1.
Proof. unfold after_read. intros Hh [[<- <-] | [_ H0]]%lookup_insert_Some; [by exists h, x | by exists h0, x0]. Qed.

Lemma call_copy w msg t h x h' :
  live_at w msg → handles w !! h = Some x → total w + 1 < 2 ^ 64 →
  step_ok w (call ords has_object w t h x (Copy t h h')).
Proof.
  intros Hl Hh Hsmall. unfold step_ok. cbn [call]. destruct (handles w !! h') eqn:Hh'.
  { do 2 eexists. split; [done |]. split_and!; [left; by exists msg | lia | done]. }
  destruct (read_handle_spec w msg t h x Hl Hh) as (He1 & Hk1 & Hh1).
  set (m1 := read_handle (mem w) t x) in *. clearbody m1. unfold add_ref.
  destruct (update_live w m1 t (add_acquires ords) (add_releases ords) (λ x, x +u64 1) msg)
    as (m & msg' & -> & He2 & Hk & Hhist & Hmsg & Hval & Hle & _); [apply Hl | done | |].
  { unfold newest_message. rewrite Hh1. apply Hl. }
  cbn [obind snd]. do 2 eexists. split; [done |].
  assert (msg_value msg' = total w + 1) as Hval'.
  { rewrite Hval, (lv_value w msg Hl). apply u64_small. unfold in_u64, total in *. lia. }
  assert (after_read m t h x (handles w) !! h' = None) as Hfresh.
  { unfold after_read. rewrite lookup_insert_ne; congruence. }
  split_and!; [| | done].
  - pose proof (evolves_trans _ _ _ _ _ He1 He2) as He. eapply (live_read_call w msg t h x m msg'); try done.
    + by apply evolves_quiet.
    + eapply object_known_quiet; [exact He | apply Hl].
    + rewrite Hhist, Hh1. apply Forall_app. split; [apply Hl | apply Forall_singleton]. unfold total in *. lia.
    + rewrite map_size_insert_None, after_read_size by done. unfold total in Hval'. lia.
    + apply handles_le_insert; [| done]. intros h0 x0 H0. by exists x0.
    + intros h0 x0 [[<- <-] | [_ H0]]%lookup_insert_Some; [by right | left]. by eapply after_read_written.
  - unfold total. cbn [set_handles handles threads]. rewrite map_size_insert_None, after_read_size by done. lia.
Qed.

(** A call that leaves the count, too. *)
Lemma live_count_kept w msg t h x m sh :
  live_at w msg → handles w !! h = Some x → evolves block_writes t (mem w) m → knows_block (views m t) m →
  object_known sh m → hist m = hist (mem w) →
  inv (set_shared (set_handles w m (after_read m t h x (handles w))) sh) ∧
  total (set_shared (set_handles w m (after_read m t h x (handles w))) sh) = total w.
Proof.
  intros Hl Hh He Hk Hsh Hhist. split.
  - eapply (live_read_call w msg t h x m msg); try done; cbn [set_handles handles]; rewrite ?Hhist.
    + unfold newest_message. rewrite Hhist. apply Hl.
    + apply Hl.
    + rewrite after_read_size by done. apply Hl.
    + intros h0 x0 H0. by exists x0.
    + intros h0 x0 H0. left. by eapply after_read_written.
  - unfold total. cbn [set_shared set_handles handles threads]. by rewrite after_read_size.
Qed.

(** A read of the object by a thread that learnt what its writer knew. *)
Lemma read_shared m t sh :
  object_known sh m → knows_block (views m t) m →
  ∃ m', read_object (sync m t (written sh)) t OBJECT = Ret m' ∧ evolves block_writes t m m' ∧
    knows_block (views m' t) m' ∧ hist m' = hist m ∧
    object_known (Handle (written sh) (join (read_by sh) (views m' t))) m'.
Proof.
  intros [Hw Hr] Hk. set (m1 := sync m t (written sh)).
  assert (evolves block_writes t m (record m1 t (reads OBJECT))) as He.
  { eapply evolves_trans; [apply evolves_sync | apply evolves_record]. unfold block_writes. simpl. lia. }
  rewrite read_covered by (unfold m1; rewrite sync_views, Nat.eqb_refl; by apply covers_join_r).
  eexists. split_and!; [done | exact He | eapply knows_block_evolves; [exact He | exact Hk | apply He] | done |].
  split.
  - intros t' c. rewrite record_other by done. apply Hw.
  - intros t' c [Hin | Hc]%record_accesses.
    + specialize (Hr t' c Hin). simpl in *. lia.
    + cbn [join clk written read_by]. lia.
Qed.

(** A write by a thread that learnt what its readers knew, too. *)
Lemma write_shared m t sh :
  object_known sh m → knows_block (views m t) m →
  ∃ m', write_object (write_handle m t sh) t OBJECT = Ret m' ∧ evolves block_writes t m m' ∧
    knows_block (views m' t) m' ∧ hist m' = hist m ∧ object_known (Handle (views m' t) bottom) m'.
Proof.
  intros [Hw Hr] Hk. set (m1 := write_handle m t sh).
  assert (evolves block_writes t m (record m1 t (writes OBJECT))) as He.
  { eapply evolves_trans; [eapply evolves_trans; apply evolves_sync | apply evolves_record].
    unfold block_writes. simpl. lia. }
  assert (covers (views m1 t) (accesses m1) (writes OBJECT) ∧ covers (views m1 t) (accesses m1) (reads OBJECT))
    as [Hw1 Hr1].
  { assert (clk_le (join (written sh) (read_by sh)) (views m1 t)) as Hle.
    { unfold m1, write_handle. rewrite !sync_views, Nat.eqb_refl. intros u. simpl. lia. }
    split; (eapply covers_clk; [exact Hle |]); [by apply covers_join_l | done]. }
  rewrite write_covered by done.
  eexists. split_and!; [done | exact He | eapply knows_block_evolves; [exact He | exact Hk | apply He] | done |].
  split; [| apply covers_join_l]; by apply record_covers.
Qed.

Lemma call_use w msg t h x :
  live_at w msg → handles w !! h = Some x → step_ok w (call ords has_object w t h x (Use t h)).
Proof.
  intros Hl Hh. unfold step_ok. cbn [call]. destruct has_object.
  2: { do 2 eexists. split; [done |]. split_and!; [left; by exists msg | lia | done]. }
  destruct (lv_state w msg Hl) as (_ & -> & _). cbn [Nat.eqb].
  destruct (read_handle_spec w msg t h x Hl Hh) as (He1 & Hk1 & Hh1).
  destruct (read_shared _ t (shared w) (object_known_quiet _ _ _ _ He1 (lv_object w msg Hl)) Hk1)
    as (m & -> & He2 & Hk2 & Hh2 & Hsh). cbn [obind].
  pose proof (evolves_trans _ _ _ _ _ (evolves_quiet _ _ _ He1) He2) as He.
  destruct (live_count_kept w msg t h x m _ Hl Hh He Hk2 Hsh) as [Hi Ht]; [congruence |].
  do 2 eexists. split; [done |]. split_and!; [done | lia | done].
Qed.

Lemma call_modify w msg t h x :
  live_at w msg → handles w !! h = Some x → step_ok w (call ords has_object w t h x (Modify t h)).
Proof.
  intros Hl Hh. unfold step_ok. cbn [call]. destruct has_object.
  2: { do 2 eexists. split; [done |]. split_and!; [left; by exists msg | lia | done]. }
  destruct (lv_state w msg Hl) as (_ & -> & _). cbn [Nat.eqb].
  destruct (read_handle_spec w msg t h x Hl Hh) as (He1 & Hk1 & Hh1).
  destruct (write_shared _ t (shared w) (object_known_quiet _ _ _ _ He1 (lv_object w msg Hl)) Hk1)
    as (m & -> & He2 & Hk2 & Hh2 & Hsh). cbn [obind].
  pose proof (evolves_trans _ _ _ _ _ (evolves_quiet _ _ _ He1) He2) as He.
  destruct (live_count_kept w msg t h x m _ Hl Hh He Hk2 Hsh) as [Hi Ht]; [congruence |].
  do 2 eexists. split; [done |]. split_and!; [done | lia | done].
Qed.

Lemma call_use_count w msg t h x i :
  live_at w msg → handles w !! h = Some x → step_ok w (call ords has_object w t h x (UseCount t h i)).
Proof.
  intros Hl Hh. unfold step_ok. cbn [call].
  destruct (read_handle_spec w msg t h x Hl Hh) as (He1 & Hk1 & Hh1).
  destruct (touch_live w _ t (proj2 (proj2 (lv_state w msg Hl))) Hk1) as (m1 & -> & He2 & Hk2 & Hh2). cbn [obind].
  destruct (load (use_count_order ords) m1 t COUNT i) as [[n m] |] eqn:Hload.
  2: { do 2 eexists. split; [done |]. split_and!; [left; by exists msg | lia | done]. }
  destruct (evolves_load quiet _ _ _ _ _ _ _ Hload) as [He3 Hh3].
  pose proof (evolves_trans _ _ _ _ _ He1 (evolves_trans _ _ _ _ _ He2 He3)) as He.
  destruct (live_count_kept w msg t h x m (shared w) Hl Hh (evolves_quiet _ _ _ He)) as [Hi Ht].
  - apply evolves_quiet in He3. eapply knows_block_evolves; [exact He3 | exact Hk2 | apply He3].
  - eapply object_known_quiet; [exact He | apply Hl].
  - by rewrite Hh3, Hh2.
  - do 2 eexists. split; [done |]. split_and!; [exact Hi | etransitivity; [exact (Z.eq_le_incl _ _ Ht) | lia] |].
    apply load_inv in Hload as (_ & msg1 & Hi1 & -> & _). rewrite Hh2, Hh1 in Hi1.
    by apply (proj1 (Forall_lookup _ _) (lv_hist w msg Hl) i).
Qed.

(** A call that takes the handle [h] away: its thread knows what the handle did. *)
Lemma live_write_call w msg t h x hs thr (m := write_handle (mem w) t x) :
  live_at w msg → handles w !! h = Some x →
  Z.of_nat (size hs) + Z.of_nat (size thr) = total w →
  (∀ h0, h0 ≠ h → is_Some (handles w !! h0) → hs !! h0 = handles w !! h0) →
  (∀ h0 x0, hs !! h0 = Some x0 → handles w !! h0 = Some x0 ∨ written x0 = views m t) →
  (∀ t' p, thr !! t' = Some p → p = Sub ∧ (t' = t ∨ is_Some (threads w !! t'))) →
  (∀ t', is_Some (threads w !! t') → is_Some (thr !! t')) →
  source m hs thr (views m t) →
  inv (set_pc (set_handles w m hs) m thr).
Proof.
  intros Hl Hh Hsize Hkeep Hnew Hthr Hthr' Hown.
  assert (∀ K, evolves K t (mem w) m) as He by (intros K; eapply evolves_trans; apply evolves_sync).
  assert (clk_le (written x) (views m t) ∧ clk_le (read_by x) (views m t)) as [Hw Hr].
  { unfold m, write_handle. rewrite sync_views, Nat.eqb_refl, sync_views, Nat.eqb_refl.
    split; [| apply clk_join_r]. etransitivity; [apply clk_join_r | apply clk_join_l]. }
  assert (knows_block (views m t) m) as Hk.
  { eapply knows_block_evolves; [apply He | by eapply lv_handles | exact Hw]. }
  apply (live_step w msg t m hs thr (shared w) msg); try done; [apply Hl | | apply Hl | | | |].
  - rewrite Hsize. apply Hl.
  - intros h0 x0 H0. destruct (Hnew h0 x0 H0) as [H1 | ->]; [| done].
    by eapply knows_block_evolves; [apply He | by eapply lv_handles |].
  - eapply object_known_quiet; [apply He | apply Hl].
  - eapply sources_kept; [apply He | apply Hl | apply Hl | done | | intros t' Ht'; left; by apply Hthr'].
    intros h0 x0 v H0 Hv. destruct (decide (h0 = h)) as [-> | Hne].
    + rewrite Hh in H0. injection H0 as <-. exists (views m t). split; [done |]. by destruct Hv as [-> | ->].
    + exists v. split; [| done]. left. exists h0, x0. by rewrite Hkeep.
  - by exists (views m t).
Qed.

Lemma size_delete_handle (hs : gmap nat handle) h x :
  hs !! h = Some x → Z.of_nat (size (delete h hs)) = Z.of_nat (size hs) - 1.
Proof.
  intros Hh. rewrite map_size_delete, Hh. simpl.
  assert (size hs ≠ 0%nat); [| lia]. rewrite map_size_ne_0_lookup. by exists h, x.
Qed.

Lemma call_move w msg t h x h' :
  live_at w msg → handles w !! h = Some x → step_ok w (call ords has_object w t h x (Move t h h')).
Proof.
  intros Hl Hh. unfold step_ok. cbn [call]. destruct (handles w !! h') eqn:Hh'.
  { do 2 eexists. split; [done |]. split_and!; [left; by exists msg | lia | done]. }
  set (hs := <[h' := _]> (delete h (handles w))). assert (h' ≠ h) as Hne by congruence.
  assert (Z.of_nat (size hs) = Z.of_nat (size (handles w))) as Hsize.
  { unfold hs. rewrite map_size_insert_None by (by rewrite lookup_delete_ne by done).
    pose proof (size_delete_handle _ _ _ Hh). lia. }
  do 2 eexists. split; [done |]. split_and!; [| | done].
  - change (set_handles w _ hs) with
      (set_pc (set_handles w (write_handle (mem w) t x) hs) (write_handle (mem w) t x) (threads w)).
    eapply live_write_call; try done.
    + unfold total. lia.
    + intros h0 Hne0 [x0 H0]. unfold hs. rewrite lookup_insert_ne, lookup_delete_ne by congruence. done.
    + intros h0 x0 [[<- <-] | [_ [_ H0]%lookup_delete_Some]]%lookup_insert_Some; [by right | by left].
    + intros t' p Ht'. split; [by eapply (lv_threads w msg Hl t') | right; by exists p].
    + assert (hs !! h' = Some (Handle (views (write_handle (mem w) t x) t) bottom)) as Hin by apply lookup_insert_eq.
      by apply source_written with (m := write_handle (mem w) t x) (thr := threads w) in Hin.
  - unfold total. cbn [set_handles handles threads]. lia.
Qed.

Lemma call_drop w msg t h x :
  live_at w msg → handles w !! h = Some x → threads w !! t = None →
  step_ok w (call ords has_object w t h x (Drop t h)).
Proof.
  intros Hl Hh Ht. unfold step_ok. cbn [call]. do 2 eexists. split; [done |].
  pose proof (size_delete_handle _ _ _ Hh) as Hsize.
  pose proof (map_size_insert_None t Sub (threads w) Ht) as Hsize'.
  split_and!; [| | done].
  - eapply live_write_call; try done.
    + unfold total. lia.
    + intros h0 Hne0 _. by apply lookup_delete_ne.
    + intros h0 x0 [_ H0]%lookup_delete_Some. by left.
    + intros t' p [[<- <-] | [_ Ht']]%lookup_insert_Some; [by split; [| left] |].
      split; [by eapply (lv_threads w msg Hl t') | right; by exists p].
    + intros t' [p Hp]. rewrite lookup_insert_ne by congruence. by exists p.
    + eapply source_threads. apply lookup_insert_eq.
  - unfold total. cbn [set_pc set_handles handles threads]. lia.
Qed.

(** ** Release *)

Lemma size_delete_thread (thr : gmap nat pc) t p :
  thr !! t = Some p → Z.of_nat (size (delete t thr)) = Z.of_nat (size thr) - 1.
Proof.
  intros Ht. rewrite map_size_delete, Ht. simpl.
  assert (size thr ≠ 0%nat); [| lia]. rewrite map_size_ne_0_lookup. by exists t, p.
Qed.

Definition run_ok (w : world) (r : outcome world) : Prop :=
  ∃ w', r = Ret w' ∧ inv w' ∧ total w' ≤ total w.

(** The one reference left is that of thread [t]. *)
Lemma last_reference w t p :
  threads w !! t = Some p → total w = 1 → handles w = ∅ ∧ threads w = {[t := p]}.
Proof.
  unfold total. intros Ht Hone. pose proof (size_delete_thread _ _ _ Ht).
  split; [apply map_size_empty_inv; lia |]. rewrite <-(insert_delete_id (threads w) t p) by done.
  rewrite (map_size_empty_inv (delete t (threads w))) by lia. done.
Qed.

(** With no other thread left, what the last [fetch_sub] learns is everything. *)
Lemma last_covers w msg t m s :
  live_at w msg → evolves block_writes t (mem w) m → handles w = ∅ → threads w = {[t := Sub]} →
  clk_le (msg_view msg) (views m t) → covers (views m t) (accesses m) s.
Proof.
  intros Hl He Hhs Hthr Hle t' c [Hin | Hc]%(ev_accesses _ t _ m He); [| done].
  destruct (lv_known w msg Hl s t' c Hin) as (v & [(h & x & Hh & _) | [(t2 & Ht2 & ->) | (msg2 & Hmsg2 & ->)]] & Hv).
  - by rewrite Hhs, lookup_empty in Hh.
  - rewrite Hthr in Ht2. assert (t2 = t) as ->.
    { destruct Ht2 as [p Hp]. by apply lookup_singleton_Some in Hp as [-> _]. }
    etransitivity; [exact Hv | apply He].
  - rewrite (lv_message w msg Hl) in Hmsg2. injection Hmsg2 as <-. etransitivity; [exact Hv | apply Hle].
Qed.

(** A thread whose [fetch_sub] was not the last one leaves; the message keeps what
    it knew. *)
Lemma live_leave w msg t m msg' :
  live_at w msg → threads w !! t = Some Sub → evolves quiet t (mem w) m → knows_block (views m t) m →
  hist m COUNT = hist (mem w) COUNT ++ [msg'] → newest_message m COUNT = Some msg' →
  clk_le (msg_view msg) (msg_view msg') → clk_le (views m t) (msg_view msg') →
  msg_value msg' = total w - 1 → 1 ≤ msg_value msg' → inv (set_pc w m (delete t (threads w))).
Proof.
  intros Hl Ht Heq Hk Hhist Hmsg Hle Hr Hval Hpos. pose proof (evolves_quiet _ _ _ Heq) as He.
  pose proof (size_delete_thread _ _ _ Ht) as Hsize.
  apply (live_step w msg t m (handles w) (delete t (threads w)) (shared w) msg'); try done.
  - unfold total in Hval. lia.
  - rewrite Hhist. apply Forall_app. split; [apply Hl | by apply Forall_singleton].
  - intros h0 x0 H0. by eapply knows_block_evolves; [exact He | by eapply lv_handles |].
  - intros t' p [_ Ht']%lookup_delete_Some. split; [by eapply (lv_threads w msg Hl t') | right; by exists p].
  - eapply object_known_quiet; [exact Heq | apply Hl].
  - eapply sources_kept; [exact He | apply Hl | exact Hmsg | done | |].
    + intros h0 x0 v H0 Hv. exists v. split; [left; by exists h0, x0 | done].
    + intros t' [p Hp]. destruct (decide (t' = t)) as [-> | Hne].
      * right. exists (msg_view msg'). split; [by apply source_message | etransitivity; [apply He | exact Hr]].
      * left. rewrite lookup_delete_ne by congruence. by exists p.
  - exists (msg_view msg'). split; [by apply source_message | done].
Qed.

Lemma weak_run_sub w msg t :
  sub_acquires ords = true → sub_releases ords = true →
  live_at w msg → threads w !! t = Some Sub → total w < 2 ^ 64 → run_ok w (run_step ords w t).
Proof.
  intros Hacq Hrel Hl Ht Hsmall. unfold run_ok, run_step. rewrite Ht.
  destruct (update_live w (mem w) t (sub_acquires ords) (sub_releases ords) (λ x, x -u64 1) msg)
    as (m & msg' & -> & He & Hk & Hhist & Hmsg & Hval & Hle & Ha & Hr); [apply Hl | | apply Hl |].
  { by eapply (lv_threads w msg Hl t). }
  specialize (Ha Hacq). specialize (Hr Hrel). cbn [obind fst snd]. rewrite (lv_value w msg Hl) in *.
  pose proof (size_delete_thread _ _ _ Ht) as Hsize. eexists. split; [done |].
  destruct (Z.eqb_spec (total w) 1) as [Hone | Hmore].
  - destruct (last_reference w t Sub Ht Hone) as [Hhs Hthr]. rewrite Hthr, insert_singleton_eq. split.
    + right. left. exists t. destruct (lv_state w msg Hl) as (Hp & Hd & Hf). split; [| done].
      split; cbn [set_pc mem handles threads frees]; [done | done | | done].
      intros s. by eapply last_covers; [| apply evolves_quiet | | |].
    + unfold total. cbn [set_pc handles threads]. rewrite Hthr, !map_size_singleton. lia.
  - assert (1 ≤ total w) by (unfold total; lia).
    split; [| unfold total; cbn [set_pc handles threads]; lia].
    rewrite u64_small in Hval by (unfold in_u64; lia). eapply live_leave; try done. lia.
Qed.

(** A write by a thread that knows of everything: it still does. *)
Lemma write_dying m t o :
  (∀ s, covers (views m t) (accesses m) s) →
  ∃ m', write_object m t o = Ret m' ∧ ∀ s, covers (views m' t) (accesses m') s.
Proof.
  intros Hc. rewrite write_covered by done. eexists. split; [done |]. intros s. by apply record_covers.
Qed.

Lemma run_deleting w t :
  dying_at w t Deleting → p_obj w = has_object → deletions w = 0%nat → run_ok w (run_step ords w t).
Proof.
  intros [Hhs Hthr Hc Hf] Hp Hd. unfold run_ok, run_step. rewrite Hthr, lookup_singleton_eq.
  unfold delete_object. rewrite (read_covered _ _ _ (Hc _)). cbn [obind].
  assert (∀ s, covers (views (record (mem w) t (reads P_OBJ)) t) (accesses (record (mem w) t (reads P_OBJ))) s) as Hc1
    by (intros s; by apply record_covers).
  set (m1 := record _ _ _) in *. clearbody m1. rewrite Hp.
  assert (∀ m p d, (∀ s, covers (views m t) (accesses m) s) → d = (if has_object then 1%nat else 0%nat) →
    inv (World m (handles w) (<[t := Freeing]> (threads w)) (shared w) p d (frees w)) ∧
    total (World m (handles w) (<[t := Freeing]> (threads w)) (shared w) p d (frees w)) = total w) as Hend.
  { intros m p d Hm ->. rewrite Hthr, insert_singleton_eq. split.
    - right. right. left. exists t. by repeat split.
    - unfold total. cbn [handles threads]. by rewrite Hthr, !map_size_singleton. }
  destruct has_object.
  - rewrite Hd. cbn [Nat.eqb]. destruct (write_dying m1 t OBJECT Hc1) as (m2 & -> & Hc2). cbn [obind].
    destruct (write_dying m2 t P_OBJ Hc2) as (m3 & -> & Hc3). cbn [obind].
    eexists. split; [done |]. destruct (Hend m3 false 1%nat Hc3 eq_refl) as [Hi Ht]. exact (conj Hi (Z.eq_le_incl _ _ Ht)).
  - cbn [obind]. eexists. split; [done |]. destruct (Hend m1 false 0%nat Hc1 eq_refl) as [Hi Ht].
    unfold set_pc, set_mem. cbn [mem handles threads shared p_obj deletions frees]. rewrite Hp, Hd. exact (conj Hi (Z.eq_le_incl _ _ Ht)).
Qed.

Lemma run_freeing w t : dying_at w t Freeing → object_gone w → run_ok w (run_step ords w t).
Proof.
  intros [Hhs Hthr Hc Hf] Hg. unfold run_ok, run_step. rewrite Hthr, lookup_singleton_eq.
  unfold free_block. rewrite Hf. cbn [Nat.eqb]. destruct (write_dying (mem w) t BLOCK Hc) as (m & -> & _).
  cbn [obind]. eexists. split; [done |]. split.
  - right. right. right. cbn [set_pc handles threads frees]. rewrite Hthr.
    split_and!; [done | apply delete_singleton_eq | done | done].
  - unfold total. cbn [set_pc handles threads]. rewrite Hthr, delete_singleton_eq, map_size_empty. lia.
Qed.

(** ** Schedules *)

Lemma weak_run_step_ok w t :
  sub_acquires ords = true → sub_releases ords = true → inv w → total w < 2 ^ 64 → run_ok w (run_step ords w t).
Proof.
  intros Hacq Hrel Hinv Hsmall. assert (threads w !! t = None → run_ok w (run_step ords w t)) as Hidle.
  { intros Ht. exists w. unfold run_step. rewrite Ht. by split_and!. }
  destruct Hinv as [[msg Hl] | [(t' & Hd & Hp & Hn) | [(t' & Hd & Hg) | (_ & Ht & _)]]].
  - destruct (threads w !! t) as [p |] eqn:Ht; [| by apply Hidle].
    destruct (lv_threads w msg Hl t p Ht) as [-> _]. by eapply weak_run_sub.
  - destruct (decide (t' = t)) as [-> | Hne]; [by apply run_deleting |].
    apply Hidle. rewrite (dy_threads _ _ _ Hd). by apply lookup_singleton_ne.
  - destruct (decide (t' = t)) as [-> | Hne]; [by apply run_freeing |].
    apply Hidle. rewrite (dy_threads _ _ _ Hd). by apply lookup_singleton_ne.
  - apply Hidle. by rewrite Ht.
Qed.

Lemma weak_exec_ok w a :
  sub_acquires ords = true → sub_releases ords = true → inv w → total w + 1 < 2 ^ 64 →
  step_ok w (weak_exec ords has_object w a).
Proof.
  intros Hacq Hrel Hinv Hsmall.
  assert (step_ok w (Ret (w, None))) as Hskip by (exists w, None; split_and!; [done | done | lia | done]).
  assert (∀ h x, handles w !! h = Some x → ∃ msg, live_at w msg) as Hlive.
  { intros h x Hh. destruct Hinv as [? | [(t' & Hd & _) | [(t' & Hd & _) | (Hhs & _)]]]; [done | exfalso..];
      [pose proof (dy_handles _ _ _ Hd) as Hhs | pose proof (dy_handles _ _ _ Hd) as Hhs |];
      by rewrite Hhs, lookup_empty in Hh. }
  destruct a as [t h h' | t h h' | t h | t h | t h i | t h | t]; cbn [weak_exec];
    try (destruct (threads w !! t) eqn:Ht; [exact Hskip |];
      destruct (handles w !! h) as [x |] eqn:Hh; [| exact Hskip]; destruct (Hlive h x Hh) as [msg Hl]).
  - by eapply call_copy.
  - by eapply call_move.
  - by eapply call_use.
  - by eapply call_modify.
  - by eapply call_use_count.
  - by eapply call_drop.
  - destruct (weak_run_step_ok w t) as (w' & -> & Hi & Ht); [done | done | done | lia |].
    exists w', None. cbn [obind]. split_and!; [done | done | lia | done].
Qed.

Definition counted (e : event) : Prop := match e with Ev_use_count _ n => 1 ≤ n end.

Lemma schedule_ok acts w :
  sub_acquires ords = true → sub_releases ords = true → inv w → total w + zlen acts < 2 ^ 64 →
  ∃ w' es, run_schedule (weak_exec ords has_object) w acts = Ret (w', es) ∧ inv w' ∧ Forall counted es.
Proof.
  intros Hacq Hrel. revert w. induction acts as [| a acts IH]; intros w Hinv Hsmall; cbn [run_schedule].
  { exists w, []. by split_and!. }
  cbn [length] in Hsmall. destruct (weak_exec_ok w a) as (w1 & e & -> & Hi & Ht & He); [done | done | done | lia |].
  cbn [obind]. destruct (IH w1 Hi) as (w' & es & -> & Hi' & Hes); [lia |]. cbn [obind].
  eexists _, _. split; [done |]. split; [done |]. destruct e as [[]|]; [by constructor | done].
Qed.

Lemma init_live : live_at (weak_init has_object) (Message 1 bottom).
Proof.
  set (w := weak_init has_object).
  assert (∀ s, covers (views (mem w) 0) (accesses (mem w)) s) as Hk.
  { intros s. cbn [w weak_init mem]. repeat apply record_covers. intros t c Hin. by apply elem_of_nil in Hin. }
  split; try done.
  - by apply Forall_singleton.
  - cbn [w weak_init handles]. intros h x [<- <-]%lookup_singleton_Some s _. apply Hk.
  - intros s t c Hin. exists (views (mem w) 0). split; [| by apply (Hk s)].
    left. exists 0%nat, (Handle (views (mem w) 0) bottom). auto.
  - split; [apply Hk | apply covers_join_l, Hk].
Qed.
End Life.

(** * Properties *)

(** The guarantees, for any orders in which [fetch_sub] acquires and releases. *)
Lemma count_safe ords has_object acts :
  sub_acquires ords = true → sub_releases ords = true → zlen acts < 2 ^ 64 - 1 →
  ∃ w es, run_schedule (weak_exec ords has_object) (weak_init has_object) acts = Ret (w, es) ∧
    (∀ h x, handles w !! h = Some x → deletions w = 0%nat ∧ frees w = 0%nat ∧
      ∃ msg, newest_message (mem w) COUNT = Some msg ∧ msg_value msg = total w) ∧
    (deletions w ≤ 1 ∧ frees w ≤ 1)%nat ∧
    (handles w = ∅ → threads w = ∅ → object_gone has_object w ∧ frees w = 1%nat) ∧
    Forall counted es.
Proof.
  intros Hacq Hrel Hlen.
  destruct (schedule_ok ords has_object acts (weak_init has_object) Hacq Hrel) as (w & es & Hrun & Hinv & Hes).
  { left. eexists. apply init_live. }
  { unfold total. cbn [weak_init handles threads]. rewrite map_size_singleton, map_size_empty. lia. }
  exists w, es. split; [exact Hrun |]. split_and!; [| | | | exact Hes].
  - intros h x Hh. destruct Hinv as [[msg Hl] | [(t & [Hhs _ _ _] & _) | [(t & [Hhs _ _ _] & _) | (Hhs & _)]]];
      [| by rewrite Hhs, lookup_empty in Hh..].
    destruct (lv_state _ _ _ Hl) as (_ & Hd & Hf). split_and!; [done | done |]. exists msg. split; apply Hl.
  - destruct Hinv as [[msg Hl] | [(t & _ & _ & Hd) | [(t & _ & Hg) | (_ & _ & Hg & _)]]];
      [destruct (lv_state _ _ _ Hl); lia | lia | |]; unfold object_gone in Hg; destruct has_object; lia.
  - destruct Hinv as [[msg Hl] | [(t & Hd & _) | [(t & Hd & _) | (_ & _ & _ & Hf)]]];
      [destruct (lv_state _ _ _ Hl); lia | pose proof (dy_frees _ _ _ Hd); lia.. | lia].
  - intros Hhs Ht. destruct Hinv as [[msg Hl] | [(t & Hd & _) | [(t & Hd & _) | (_ & _ & Hg & Hf)]]]; [exfalso..|done].
    + pose proof (lv_value _ _ _ Hl) as Hv. unfold total in Hv. rewrite Hhs, Ht, !map_size_empty in Hv.
      pose proof (lv_hist _ _ _ Hl) as Hh. rewrite Forall_lookup in Hh.
      specialize (Hh _ _ (lv_message _ _ _ Hl)). lia.
    + pose proof (dy_threads _ _ _ Hd) as Hthr. rewrite Ht in Hthr. by destruct (map_non_empty_singleton t Deleting).
    + pose proof (dy_threads _ _ _ Hd) as Hthr. rewrite Ht in Hthr. by destruct (map_non_empty_singleton t Freeing).
Qed.

(** C35: the orders of [m_count] are enough.  However threads copy, move, count and
    drop the handles on one object and read and write the object through them (in an
    order of their own), and whichever old counts [use_count] reads, no step is
    undefined: the deletion of the object, the write of [p_obj] and the
    freeing of the block race with nothing, and nothing is used after them.  While a
    handle is left, nothing was deleted and the newest count is the number of
    handles, those about to be dropped included; once none is left and no release
    is running, the object was deleted and the block freed, once each.
    [use_count] of a handle is never 0. *)
Theorem count_orders_suffice has_object acts :
  zlen acts < 2 ^ 64 - 1 →
  ∃ w es, run_schedule (weak_exec code_orders has_object) (weak_init has_object) acts = Ret (w, es) ∧
    (∀ h x, handles w !! h = Some x → deletions w = 0%nat ∧ frees w = 0%nat ∧
      ∃ msg, newest_message (mem w) COUNT = Some msg ∧ msg_value msg = total w) ∧
    (deletions w ≤ 1 ∧ frees w ≤ 1)%nat ∧
    (handles w = ∅ → threads w = ∅ → object_gone has_object w ∧ frees w = 1%nat) ∧
    Forall counted es.
Proof. by apply count_safe. Qed.

(** The orders of [fetch_add] and of the load are not needed for this. *)
Theorem count_others_may_be_relaxed has_object acts add_acq add_rel o :
  zlen acts < 2 ^ 64 - 1 →
  ∃ w es, run_schedule (weak_exec (CountOrders add_acq add_rel true true o) has_object) (weak_init has_object) acts
      = Ret (w, es) ∧
    (deletions w ≤ 1 ∧ frees w ≤ 1)%nat ∧
    (handles w = ∅ → threads w = ∅ → object_gone has_object w ∧ frees w = 1%nat).
Proof.
  intros Hlen. destruct (count_safe (CountOrders add_acq add_rel true true o) has_object acts) as (w & es & H);
    [done.. |]. exists w, es. tauto.
Qed.

(** Thread 1 copies the handle of thread 0, writes the object and drops its copy;
    thread 0 drops the last handle. *)
Definition last_drop : list action :=
  [Copy 1 0 1; Use 0 0; Modify 1 1; UseCount 1 1 1; Drop 1 1; Run 1; UseCount 0 0 1; Drop 0 0; Run 0; Run 0; Run 0].

(** Both orders of [fetch_sub] are: without either, the deletion races with the write. *)
Theorem count_orders_needed :
  Forall (λ o, run_schedule (weak_exec o true) (weak_init true) last_drop = Undef)
    [CountOrders true true false true Acquire; CountOrders true true true false Acquire].
Proof. repeat constructor; vm_compute; reflexivity. Qed.

(** The last count is an old one: thread 1 dropped its copy before. *)
Example last_drop_defined :
  match run_schedule (weak_exec code_orders true) (weak_init true) last_drop with
  | Ret (w, es) => Some (deletions w, frees w, es)
  | _ => None
  end = Some (1%nat, 1%nat, [Ev_use_count 1 2; Ev_use_count 0 2]).
Proof. vm_compute. reflexivity. Qed.

Lemma count_orders_suffice_witness :
  zlen last_drop < 2 ^ 64 - 1 ∧
  ∃ w es, run_schedule (weak_exec code_orders true) (weak_init true) last_drop = Ret (w, es) ∧
    (deletions w ≤ 1 ∧ frees w ≤ 1)%nat ∧ Forall counted es.
Proof.
  assert (zlen last_drop < 2 ^ 64 - 1) as Hlen by reflexivity.
  split; [exact Hlen |].
  destruct (count_orders_suffice true last_drop Hlen) as (w & es & Hrun & _ & Hn & _ & He).
  exists w, es. split; [exact Hrun |]. split; [exact Hn | exact He].
Defined.
