(* ===== verification/UniquePtr.v ===== *)
(** * UniquePtr: sole ownership

    Models [src/include/fiah/handle/UniquePtr.hh].  [handles] is the table of the
    [UniquePtr] objects alive, by name; [raw] is the set of objects the client
    owns through raw pointers (fresh from [new], or returned by [release]).
    The deleter travels with the pointer; [deleted] logs its calls. *)

From stdpp Require Import base tactics numbers list option gmap sets.
From Stdlib Require Import ZArith Lia.
From S2P Require Import Prelude Heap.
#[local] Open Scope fiah_scope.
#[local] Set Warnings "-clear-no-such-hyp".

Section UniquePtr.
(** The deleter type, [Deleter{}], and what a move leaves of a deleter. *)
Context {D : Type} (deleter0 : D) (moved_from : D → D).

Record UniquePtr : Type := MkUnique { m_ptr : option nat; m_deleter : D }.

Record state : Type := State {
  objs : heap unit;
  deleted : list (nat * D)
}.

(** [m_deleter(old)]: destroys the object and frees its memory. *)
Definition call_deleter (s : state) (d : D) (o : nat) : outcome state :=
  let! objs' := free (objs s) o in Ret (State objs' (deleted s ++ [(o, d)])).

(** ** Constructors *)

Definition null_unique : UniquePtr := MkUnique None deleter0.
Definition from_pointer (ptr : option nat) : UniquePtr := MkUnique ptr deleter0.
Definition from_pointer_deleter (ptr : option nat) (d : D) : UniquePtr := MkUnique ptr d.

(** The new values of [*this] and [other]. *)
Definition move_construct (other : UniquePtr) : UniquePtr * UniquePtr :=
  (MkUnique (m_ptr other) (m_deleter other), MkUnique None (moved_from (m_deleter other))).

(** ** Modifiers *)

(** [std::exchange(m_ptr, nullptr)] *)
Definition release (this : UniquePtr) : option nat * UniquePtr :=
  (m_ptr this, MkUnique None (m_deleter this)).

Definition reset (s : state) (this : UniquePtr) (ptr : option nat) : outcome (UniquePtr * state) :=
  let old := m_ptr this in
  let this := MkUnique ptr (m_deleter this) in
  match old with
  | Some o => let! s := call_deleter s (m_deleter this) o in Ret (this, s)
  | None => Ret (this, s)
  end.

Definition swap (this other : UniquePtr) : UniquePtr * UniquePtr :=
  (MkUnique (m_ptr other) (m_deleter other), MkUnique (m_ptr this) (m_deleter this)).

(** Move assignment of two different objects. *)
Definition move_assign (s : state) (this other : UniquePtr) : outcome (UniquePtr * UniquePtr * state) :=
  let (p, other) := release other in
  let! (this, s) := reset s this p in
  Ret (MkUnique (m_ptr this) (m_deleter other),
       MkUnique (m_ptr other) (moved_from (m_deleter other)), s).

(** [operator=(nullptr)] and the destructor *)
Definition assign_nullptr (s : state) (this : UniquePtr) : outcome (UniquePtr * state) :=
  reset s this None.
Definition destroy (s : state) (this : UniquePtr) : outcome state :=
  let! (_, s) := reset s this None in Ret s.

(** [new T(...)] *)
Definition new_object (s : state) : nat * state :=
  let (o, objs') := alloc (objs s) tt in (o, State objs' (deleted s)).

Definition make_unique (s : state) : UniquePtr * state :=
  let (o, s) := new_object s in (from_pointer (Some o), s).

(** ** Observers *)

Definition get_deleter (this : UniquePtr) : D := m_deleter this.
Definition to_bool (this : UniquePtr) : bool :=
  match m_ptr this with Some _ => true | None => false end.
Definition deref (s : state) (this : UniquePtr) : outcome unit :=
  match m_ptr this with Some o => load (objs s) o | None => Undef end.

(** ** Comparisons: [==] on the pointers, the order from [std::less] *)

Context (less : option nat → option nat → bool).

Definition op_eq (lhs rhs : UniquePtr) : bool := bool_decide (m_ptr lhs = m_ptr rhs).
Definition op_ne (lhs rhs : UniquePtr) : bool := negb (bool_decide (m_ptr lhs = m_ptr rhs)).
Definition op_lt (lhs rhs : UniquePtr) : bool := less (m_ptr lhs) (m_ptr rhs).
Definition op_le (lhs rhs : UniquePtr) : bool := negb (op_lt rhs lhs).
Definition op_gt (lhs rhs : UniquePtr) : bool := op_lt rhs lhs.
Definition op_ge (lhs rhs : UniquePtr) : bool := negb (op_lt lhs rhs).
Definition eq_nullptr (ptr : UniquePtr) : bool := negb (to_bool ptr).
Definition ne_nullptr (ptr : UniquePtr) : bool := to_bool ptr.

(** ** Programs over handles *)

Record world : Type := World {
  st : state;
  handles : gmap nat UniquePtr;
  raw : gset nat
}.

Definition init : world := World (State empty_heap []) ∅ ∅.

(** A pointer argument: null, or an object the client owns. *)
Definition owned_arg (w : world) (ptr : option nat) : bool :=
  match ptr with Some o => bool_decide (o ∈ raw w) | None => true end.
Definition hand_over (r : gset nat) (ptr : option nat) : gset nat :=
  match ptr with Some o => r ∖ {[o]} | None => r end.
Definition take_back (r : gset nat) (ptr : option nat) : gset nat :=
  match ptr with Some o => {[o]} ∪ r | None => r end.

Inductive action : Type :=
| New                                      (* T *p = new T *)
| Default (h : nat)
| FromPointer (h : nat) (ptr : option nat)
| FromPointerDeleter (h : nat) (ptr : option nat) (d : D)
| MakeUnique (h : nat)
| MoveConstruct (h other : nat)
| MoveAssign (h other : nat)
| AssignNull (h : nat)
| Release (h : nat)
| ResetTo (h : nat) (ptr : option nat)
| Swap (h other : nat)
| Destroy (h : nat).

(** Calls a program cannot write, or with a pointer it does not own, do
    nothing. *)
Definition exec (w : world) (a : action) : outcome world :=
  let s := st w in
  let hs := handles w in
  match a with
  | New => let (o, s) := new_object s in Ret (World s hs ({[o]} ∪ raw w))
  | Default h =>
      match hs !! h with Some _ => Ret w | None => Ret (World s (<[h := null_unique]> hs) (raw w)) end
  | FromPointer h ptr =>
      match hs !! h with
      | None => if owned_arg w ptr
                then Ret (World s (<[h := from_pointer ptr]> hs) (hand_over (raw w) ptr)) else Ret w
      | Some _ => Ret w
      end
  | FromPointerDeleter h ptr d =>
      match hs !! h with
      | None => if owned_arg w ptr
                then Ret (World s (<[h := from_pointer_deleter ptr d]> hs) (hand_over (raw w) ptr))
                else Ret w
      | Some _ => Ret w
      end
  | MakeUnique h =>
      match hs !! h with
      | None => let (p, s) := make_unique s in Ret (World s (<[h := p]> hs) (raw w))
      | Some _ => Ret w
      end
  | MoveConstruct h other =>
      match hs !! h, hs !! other with
      | None, Some q =>
          let (p, q) := move_construct q in Ret (World s (<[h := p]> (<[other := q]> hs)) (raw w))
      | _, _ => Ret w
      end
  | MoveAssign h other =>
      match hs !! h, hs !! other with
      | Some p, Some q =>
          if (h =? other)%nat then Ret w
          else let! (p, q, s) := move_assign s p q in
               Ret (World s (<[h := p]> (<[other := q]> hs)) (raw w))
      | _, _ => Ret w
      end
  | AssignNull h =>
      match hs !! h with
      | Some p => let! (p, s) := assign_nullptr s p in Ret (World s (<[h := p]> hs) (raw w))
      | None => Ret w
      end
  | Release h =>
      match hs !! h with
      | Some p => let (ptr, p) := release p in Ret (World s (<[h := p]> hs) (take_back (raw w) ptr))
      | None => Ret w
      end
  | ResetTo h ptr =>
      match hs !! h with
      | Some p =>
          if owned_arg w ptr
          then let! (p, s) := reset s p ptr in
               Ret (World s (<[h := p]> hs) (hand_over (raw w) ptr))
          else Ret w
      | None => Ret w
      end
  | Swap h other =>
      match hs !! h, hs !! other with
      | Some p, Some q =>
          if (h =? other)%nat then Ret w
          else let (p, q) := swap p q in Ret (World s (<[h := p]> (<[other := q]> hs)) (raw w))
      | _, _ => Ret w
      end
  | Destroy h =>
      match hs !! h with
      | Some p => let! s := destroy s p in Ret (World s (delete h hs) (raw w))
      | None => Ret w
      end
  end.

Fixpoint exec_all (w : world) (acts : list action) : outcome world :=
  match acts with
  | [] => Ret w
  | a :: acts => let! w := exec w a in exec_all w acts
  end.
End UniquePtr.

Arguments UniquePtr D : clear implicits.
Arguments state D : clear implicits.
Arguments world D : clear implicits.
Arguments action D : clear implicits.

(** * Proofs *)

Section Proofs.
Context {D : Type}.
Implicit Types (s : state D) (hs : gmap nat (UniquePtr D)) (r : gset nat) (d : D).
Implicit Types (h o : nat) (p q : UniquePtr D) (ptr : option nat).

(** Handle [h] owns object [o]. *)
Definition owner hs h o : Prop := ∃ p, hs !! h = Some p ∧ m_ptr p = Some o.

(** Every live object has exactly one owner: a handle or the client. *)
Record inv s hs r : Prop := Inv {
  u_ok : heap_ok (objs s);
  u_live : ∀ o, is_Some (blocks (objs s) !! o) ↔ o ∈ r ∨ ∃ h, owner hs h o;
  u_unique : ∀ h h' o, owner hs h o → owner hs h' o → h = h';
  u_raw : ∀ h o, owner hs h o → o ∉ r;
  u_nodup : NoDup (deleted s).*1;
  u_where : ∀ o, o ∈ (deleted s).*1 ↔ (o < next_ (objs s))%nat ∧ blocks (objs s) !! o = None
}.

Lemma owner_insert hs h p h' o :
  owner (<[h := p]> hs) h' o ↔ (h' = h ∧ m_ptr p = Some o) ∨ (h' ≠ h ∧ owner hs h' o).
Proof.
  unfold owner. setoid_rewrite lookup_insert_Some. split.
  - intros (q & [[<- <-] | [Hne Hq]] & Ho); [by left | right; eauto].
  - intros [[-> Ho] | [Hne (q & Hq & Ho)]]; eauto 6.
Qed.

Lemma owner_delete hs h h' o : owner (delete h hs) h' o ↔ h' ≠ h ∧ owner hs h' o.
Proof. unfold owner. setoid_rewrite lookup_delete_Some. naive_solver. Qed.

(** A name that owns nothing. *)
Definition idle hs h : Prop := ∀ o, ¬ owner hs h o.

Lemma idle_fresh hs h : hs !! h = None → idle hs h.
Proof. intros Hh o (p & Hp & _). congruence. Qed.

Lemma idle_insert hs h d : idle (<[h := MkUnique None d]> hs) h.
Proof. intros o. rewrite owner_insert. naive_solver. Qed.

(** ** The five moves of ownership *)

Lemma unique_inv_init : inv (st init) (handles (init (D := D))) (raw (init (D := D))).
Proof.
  assert (∀ h o, ¬ owner (∅ : gmap nat (UniquePtr D)) h o) as Hno.
  { intros h o (p & Hp & _). by rewrite lookup_empty in Hp. }
  split; simpl; try (intros; by edestruct Hno).
  - apply frame_empty.
  - intros o. rewrite lookup_empty. split; [by intros [] |].
    intros [? | [h Hh]]; [set_solver | by edestruct Hno].
  - constructor.
  - intros o. rewrite elem_of_nil. lia.
Qed.

(** The client gets a new object. *)
Lemma inv_new s hs r :
  inv s hs r → inv (new_object s).2 hs ({[(new_object s).1]} ∪ r) ∧ (new_object s).1 ∉ r.
Proof.
  intros [H1 H2 H3 H4 H5 H6]. simpl. set (o := next_ (objs s)).
  assert (¬ is_Some (blocks (objs s) !! o)) as Hfresh by (intros Ho%H1; unfold o in Ho; lia).
  assert ((o ∉ r) ∧ ∀ h, ¬ owner hs h o) as [Hr Hh].
  { split; [intros Ho | intros h Ho]; apply Hfresh, H2; eauto. }
  split; [| done]. split; simpl.
  - intros o'. simpl. destruct (decide (o' = o)) as [-> |]; [unfold o; lia |].
    rewrite lookup_insert_ne by done. intros Ho'%H1. lia.
  - intros o'. destruct (decide (o' = o)) as [-> | Hne].
    + rewrite lookup_insert_eq. split; [set_solver | eauto].
    + rewrite lookup_insert_ne, H2 by done. set_solver.
  - done.
  - intros h o' Ho'. rewrite not_elem_of_union, not_elem_of_singleton.
    split; [intros -> | by eapply H4]. by eapply Hh.
  - done.
  - intros o'. rewrite H6. destruct (decide (o' = o)) as [-> | Hne].
    + rewrite lookup_insert_eq. unfold o. split; [lia | by intros []].
    + rewrite lookup_insert_ne by done. unfold o in Hne. split; intros [? ?]; (split; [lia | done]).
Qed.

(** The client hands an object, or null, to a handle that owns nothing. *)
Lemma unique_inv_acquire s hs r h ptr d :
  inv s hs r → idle hs h → (∀ o, ptr = Some o → o ∈ r) →
  inv s (<[h := MkUnique ptr d]> hs) (hand_over r ptr).
Proof.
  intros [H1 H2 H3 H4 H5 H6] Hidle Hptr.
  assert (∀ o, o ∈ hand_over r ptr ↔ o ∈ r ∧ ptr ≠ Some o) as Hr.
  { intros o. destruct ptr as [o' |]; simpl; [| naive_solver].
    rewrite elem_of_difference, elem_of_singleton. naive_solver. }
  split; try done.
  - intros o. rewrite H2, Hr. setoid_rewrite owner_insert. simpl. split.
    + intros [Ho | [h' Ho]]; [destruct (decide (ptr = Some o)); eauto |].
      right. exists h'. right. split; [| done]. intros ->. by eapply Hidle.
    + intros [[Ho _] | [h' [[-> Ho] | [_ Ho]]]]; eauto.
  - intros h1 h2 o. rewrite !owner_insert. simpl. intros [[-> O1] | [N1 O1]] [[-> O2] | [N2 O2]].
    + done.
    + destruct (H4 _ _ O2). auto.
    + destruct (H4 _ _ O1). auto.
    + by eapply H3.
  - intros h' o. rewrite owner_insert, Hr. simpl. intros [[-> Ho] | [_ Ho]] [? ?]; [done |].
    by apply (H4 _ _ Ho).
Qed.

(** A handle gives up what it owns, if anything, to the client. *)
Lemma inv_give s hs r h p d :
  inv s hs r → hs !! h = Some p → inv s (<[h := MkUnique None d]> hs) (take_back r (m_ptr p)).
Proof.
  intros [H1 H2 H3 H4 H5 H6] Hp.
  assert (∀ o, o ∈ take_back r (m_ptr p) ↔ o ∈ r ∨ m_ptr p = Some o) as Hr.
  { intros o. destruct (m_ptr p) as [o' |]; simpl; [| naive_solver].
    rewrite elem_of_union, elem_of_singleton. naive_solver. }
  split; try done.
  - intros o. rewrite H2, Hr. setoid_rewrite owner_insert. simpl. split.
    + intros [Ho | [h' Ho]]; [by auto |]. destruct (decide (h' = h)) as [-> |]; [| eauto].
      destruct Ho as (p' & Hp' & Ho). left. right. congruence.
    + intros [[Ho | Ho] | [h' [[_ ?] | [_ Ho]]]]; [by auto | | done | by eauto].
      right. exists h, p. done.
  - intros h1 h2 o. rewrite !owner_insert. simpl. intros [[_ ?] | [N1 O1]] [[_ ?] | [N2 O2]]; try done.
    by eapply H3.
  - intros h' o. rewrite owner_insert, Hr. simpl. intros [[_ ?] | [Hne Ho]]; [done |].
    intros [? | Hpo]; [by eapply H4 |]. apply Hne. eapply H3; [exact Ho |]. by exists p.
Qed.

Lemma unique_inv_forget s hs r h : inv s hs r → idle hs h → inv s (delete h hs) r.
Proof.
  intros [H1 H2 H3 H4 H5 H6] Hidle. split; try done.
  - intros o. rewrite H2. setoid_rewrite owner_delete. split; intros [? | [h' Ho]]; eauto.
    + right. exists h'. split; [| done]. intros ->. by eapply Hidle.
    + right. exists h'. by destruct Ho.
  - intros h1 h2 o [_ O1]%owner_delete [_ O2]%owner_delete. by eapply H3.
  - intros h' o [_ Ho]%owner_delete. by eapply H4.
Qed.

(** An object of the client is deleted. *)
Lemma inv_delete s hs r d o :
  inv s hs r → o ∈ r →
  ∃ s', call_deleter s d o = Ret s' ∧ inv s' hs (r ∖ {[o]}) ∧ deleted s' = deleted s ++ [(o, d)].
Proof.
  intros [H1 H2 H3 H4 H5 H6] Ho. assert (is_Some (blocks (objs s) !! o)) as [u Hu] by (apply H2; auto).
  unfold call_deleter, free, load. rewrite Hu. simpl. eexists. split; [done |]. split; [| done].
  split; cbn [objs deleted blocks next_]; try done.
  - intros o' Ho'. cbn [blocks next_] in *. apply H1. destruct (decide (o' = o)) as [-> |]; [by eexists |].
    by rewrite lookup_delete_ne in Ho'.
  - intros o'. destruct (decide (o' = o)) as [-> | Hne].
    + rewrite lookup_delete_eq. split; [by intros [] |]. intros [? | [h Hh]]; [set_solver |].
      by destruct (H4 _ _ Hh).
    + rewrite lookup_delete_ne, H2 by done. set_solver.
  - intros h o' Ho'. pose proof (H4 _ _ Ho'). set_solver.
  - rewrite fmap_app. apply NoDup_app. split_and!; [done | | apply NoDup_singleton].
    intros x Hx ->%list_elem_of_singleton. apply H6 in Hx as [_ Hx]. simpl in Hx. congruence.
  - intros o'. rewrite fmap_app, elem_of_app, H6. simpl. rewrite list_elem_of_singleton.
    destruct (decide (o' = o)) as [-> | Hne].
    + rewrite lookup_delete_eq. split; [| by auto]. intros _. split; [| done].
      apply H1. by eexists.
    + rewrite lookup_delete_ne by done. tauto.
Qed.

(** ** Whole calls *)

Lemma owner_at hs h p o : hs !! h = Some p → m_ptr p = Some o → owner hs h o.
Proof. intros ? ?. by exists p. Qed.

Lemma idle_null hs h p : hs !! h = Some p → m_ptr p = None → idle hs h.
Proof. intros Hp Hn o (p' & Hp' & Ho). congruence. Qed.

(** [reset]: the old object is deleted with the handle's deleter, the new one
    taken over. *)
Lemma reset_returns s hs r h p ptr :
  inv s hs r → hs !! h = Some p → (∀ o, ptr = Some o → o ∈ r) →
  ∃ s', reset s p ptr = Ret (MkUnique ptr (m_deleter p), s') ∧
    inv s' (<[h := MkUnique ptr (m_deleter p)]> hs) (hand_over r ptr) ∧
    deleted s' = deleted s ++ match m_ptr p with Some o => [(o, m_deleter p)] | None => [] end.
Proof.
  intros Hinv Hp Hptr. unfold reset. pose proof (inv_give s hs r h p (m_deleter p) Hinv Hp) as Hgive.
  assert (∀ o, ptr = Some o → o ∈ take_back r (m_ptr p)) as Hptr'.
  { intros o Ho%Hptr. destruct (m_ptr p); simpl; set_solver. }
  pose proof (unique_inv_acquire _ _ _ h ptr (m_deleter p) Hgive (idle_insert _ _ _) Hptr') as Hacq.
  rewrite insert_insert_eq in Hacq. destruct (m_ptr p) as [o |] eqn:Ho; simpl in *.
  - assert (o ∉ r) as Hor by (eapply u_raw; [exact Hinv | by eapply owner_at]).
    assert (o ∈ hand_over ({[o]} ∪ r) ptr) as Hin.
    { destruct ptr as [o' |]; simpl; [| set_solver]. specialize (Hptr o' eq_refl). set_solver. }
    destruct (inv_delete _ _ _ (m_deleter p) o Hacq Hin) as (s' & -> & Hinv' & Hlog). simpl.
    exists s'. split_and!; [done | | done].
    replace (hand_over r ptr) with (hand_over ({[o]} ∪ r) ptr ∖ {[o]}); [done |].
    apply leibniz_equiv. destruct ptr as [o' |]; simpl; set_solver.
  - exists s. by rewrite app_nil_r.
Qed.

(** The pointer of one handle moves to another that owns nothing. *)
Lemma unique_inv_transfer s hs r h h' q d d' :
  inv s hs r → idle hs h → hs !! h' = Some q → h ≠ h' →
  inv s (<[h := MkUnique (m_ptr q) d]> (<[h' := MkUnique None d']> hs)) r.
Proof.
  intros Hinv Hidle Hq Hne. pose proof (inv_give _ _ _ _ _ d' Hinv Hq) as Hgive.
  assert (idle (<[h' := MkUnique None d']> hs) h) as Hidle'.
  { intros o. rewrite owner_insert. intros [[? _] | [_ Ho]]; [done | by eapply Hidle]. }
  assert (∀ o, m_ptr q = Some o → o ∈ take_back r (m_ptr q)) as Hptr by (intros o ->; simpl; set_solver).
  pose proof (unique_inv_acquire _ _ _ h (m_ptr q) d Hgive Hidle' Hptr) as Hacq.
  replace r with (hand_over (take_back r (m_ptr q)) (m_ptr q)); [done |].
  apply leibniz_equiv. destruct (m_ptr q) as [o |] eqn:Ho; simpl; [| done].
  assert (o ∉ r) by (eapply u_raw; [exact Hinv | by eapply owner_at]). set_solver.
Qed.

Lemma inv_swap s hs r h h' p q :
  inv s hs r → hs !! h = Some p → hs !! h' = Some q → h ≠ h' →
  inv s (<[h := (swap p q).1]> (<[h' := (swap p q).2]> hs)) r.
Proof.
  intros [H1 H2 H3 H4 H5 H6] Hp Hq Hne. unfold swap. simpl.
  set (hs' := <[h := _]> _). set (flip k := if decide (k = h) then h' else if decide (k = h') then h else k).
  assert (∀ k o, owner hs' k o ↔ owner hs (flip k) o) as Hflip.
  { intros k o. unfold hs', flip. rewrite !owner_insert. simpl.
    destruct (decide (k = h)) as [-> |]; [| destruct (decide (k = h')) as [-> |]].
    - split; [intros [[_ Ho] | [? _]]; [by exists q | done] |].
      intros (q' & Hq' & Ho). left. split; [done | congruence].
    - split; [intros [[? _] | [_ [[_ Ho] | [? _]]]]; [done | by exists p | done] |].
      intros (p' & Hp' & Ho). right. split; [done |]. left. split; [done | congruence].
    - split; [intros [[? _] | [_ [[? _] | [_ ?]]]]; done | by auto]. }
  assert (∀ k, flip (flip k) = k) as Hinvol.
  { intros k. unfold flip. repeat case_decide; congruence. }
  split; try done.
  - intros o. rewrite H2. split; (intros [? | [k Hk]]; [by left | right]).
    + exists (flip k). apply Hflip. by rewrite Hinvol.
    + exists (flip k). by apply Hflip.
  - intros k1 k2 o Hk1%Hflip Hk2%Hflip. rewrite <-(Hinvol k1), <-(Hinvol k2). f_equal. by eapply H3.
  - intros k o Hk%Hflip. by eapply H4.
Qed.

(** Ownership does not depend on deleters. *)
Lemma inv_deleter s hs r h ptr d' d : inv s (<[h := MkUnique ptr d]> hs) r → inv s (<[h := MkUnique ptr d']> hs) r.
Proof.
  intros [H1 H2 H3 H4 H5 H6].
  assert (∀ k o, owner (<[h := MkUnique ptr d']> hs) k o ↔ owner (<[h := MkUnique ptr d]> hs) k o) as Hsame
    by (intros; by rewrite !owner_insert).
  split; try done.
  - intros o. rewrite H2. by setoid_rewrite Hsame.
  - intros k1 k2 o. rewrite !Hsame. apply H3.
  - intros k o. rewrite Hsame. apply H4.
Qed.

Definition world_inv (w : world D) : Prop := inv (st w) (handles w) (raw w).

Context (deleter0 : D) (moved_from : D → D).

Abbreviation exec := (exec deleter0 moved_from).
Abbreviation exec_all := (exec_all deleter0 moved_from).

Lemma owned_arg_spec (w : world D) ptr : owned_arg w ptr = true → ∀ o, ptr = Some o → o ∈ raw w.
Proof. destruct ptr as [o |]; simpl; [intros Ho%bool_decide_eq_true | done]. by intros ? [= <-]. Qed.

Lemma unique_exec_returns (w : world D) a : world_inv w → ∃ w', exec w a = Ret w' ∧ world_inv w'.
Proof.
  intros Hinv. unfold world_inv in *. unfold UniquePtr.exec. destruct w as [s hs r]. simpl in *.
  assert (∀ o : nat, None = Some o → o ∈ r) as Hnone by done.
  destruct a as [| h | h ptr | h ptr d | h | h h' | h h' | h | h | h ptr | h h' | h];
    try destruct (hs !! h) as [p |] eqn:Hh; eauto; try destruct (hs !! h') as [q |] eqn:Hq; eauto;
    try destruct (owned_arg (World s hs r) ptr) eqn:Harg; eauto;
    try pose proof (owned_arg_spec _ _ Harg) as Hptr.
  - pose proof (inv_new _ _ _ Hinv) as [Hnew _]. eexists. split; [done |]. exact Hnew.
  - eexists. split; [done |].
    apply (unique_inv_acquire _ _ _ h None deleter0 Hinv (idle_fresh _ _ Hh) Hnone).
  - eexists. split; [done |]. by apply (unique_inv_acquire _ _ _ h ptr deleter0 Hinv (idle_fresh _ _ Hh)).
  - eexists. split; [done |]. by apply (unique_inv_acquire _ _ _ h ptr d Hinv (idle_fresh _ _ Hh)).
  - pose proof (inv_new _ _ _ Hinv) as [Hnew Hfresh]. eexists. split; [done |].
    simpl in *. set (o := next_ (objs s)) in *.
    assert (∀ o', Some o = Some o' → o' ∈ {[o]} ∪ r) as Ho by (intros ? [= <-]; set_solver).
    pose proof (unique_inv_acquire _ _ _ h (Some o) deleter0 Hnew (idle_fresh _ _ Hh) Ho) as Hacq.
    simpl in Hacq. replace (({[o]} ∪ r) ∖ {[o]}) with r in Hacq; [done |].
    apply leibniz_equiv. set_solver.
  - assert (h ≠ h') as Hne by congruence. eexists. split; [done |].
    by apply (unique_inv_transfer _ _ _ _ _ _ _ _ Hinv (idle_fresh _ _ Hh) Hq Hne).
  - destruct (Nat.eqb_spec h h') as [-> | Hne]; [by eauto |]. unfold move_assign. simpl.
    (* give [other]'s object to the client, then reset to it *)
    pose proof (inv_give _ _ _ _ _ (moved_from (m_deleter q)) Hinv Hq) as Hgive.
    assert (<[h' := MkUnique None (moved_from (m_deleter q))]> hs !! h = Some p) as Hp'
      by by rewrite lookup_insert_ne.
    assert (∀ o, m_ptr q = Some o → o ∈ take_back r (m_ptr q)) as Hin by (intros o ->; simpl; set_solver).
    destruct (reset_returns _ _ _ _ _ _ Hgive Hp' Hin) as (s' & -> & Hinv' & _). simpl.
    eexists. split; [done |]. simpl. apply (inv_deleter _ _ _ _ _ (m_deleter q)) in Hinv'.
    replace r with (hand_over (take_back r (m_ptr q)) (m_ptr q)); [done |].
    apply leibniz_equiv. destruct (m_ptr q) as [o |] eqn:Ho; simpl; [| done].
    assert (o ∉ r) by (eapply u_raw; [exact Hinv | by eapply owner_at]). set_solver.
  - unfold assign_nullptr. destruct (reset_returns _ _ _ _ _ None Hinv Hh Hnone) as (s' & -> & Hinv' & _).
    by eexists.
  - simpl. eexists. split; [done |]. by apply inv_give.
  - destruct (reset_returns _ _ _ _ _ ptr Hinv Hh Hptr) as (s' & -> & Hinv' & _). by eexists.
  - destruct (Nat.eqb_spec h h') as [-> | Hne]; [by eauto |]. eexists. split; [done |].
    by apply (inv_swap _ _ _ _ _ _ _ Hinv Hh Hq).
  - unfold destroy. destruct (reset_returns _ _ _ _ _ None Hinv Hh Hnone) as (s' & -> & Hinv' & _).
    eexists. split; [done |]. simpl in *.
    pose proof (unique_inv_forget _ _ _ h Hinv' (idle_insert _ _ _)) as Hdel. by rewrite delete_insert_eq in Hdel.
Qed.

Lemma unique_exec_all_returns acts (w : world D) :
  world_inv w → ∃ w', exec_all w acts = Ret w' ∧ world_inv w'.
Proof.
  revert w. induction acts as [| a acts IH]; intros w Hw; simpl; [eauto |].
  destruct (unique_exec_returns w a Hw) as (w1 & -> & Hw1). simpl. by apply IH.
Qed.

(** The comparison operators follow one strict total order. *)
Lemma comparisons_consistent (less : option nat → option nat → bool) p q :
  (∀ x y, less x y = true → less y x = false) →
  (∀ x y, less x y = false → less y x = false → x = y) →
  op_ne p q = negb (op_eq p q) ∧
  (op_le less p q = true ↔ op_lt less p q = true ∨ op_eq p q = true) ∧
  op_gt less p q = op_lt less q p ∧ op_ge less p q = op_le less q p.
Proof.
  intros Hasym Htotal. unfold op_ne, op_eq, op_le, op_gt, op_ge, op_lt. split_and!; try done.
  rewrite negb_true_iff, bool_decide_eq_true. split.
  - intros Hqp. destruct (less (m_ptr p) (m_ptr q)) eqn:Hpq; [by left | right; by apply Htotal].
  - intros [Hpq | <-]; [by apply Hasym |].
    destruct (less (m_ptr p) (m_ptr p)) eqn:H; [| done]. pose proof (Hasym _ _ H). congruence.
Qed.
End Proofs.

(** * Properties *)

(** C22: sole ownership.  Every sequence of constructions, moves, assignments,
    resets, swaps, releases and destructions is free of double deletes and of
    dangling handles: it runs to its end, a handle that tests true can be
    dereferenced, and no two handles ever own the same object. *)
Theorem unique_ptr_safe {D} (deleter0 : D) (moved_from : D → D) (acts : list (action D)) :
  ∃ w, exec_all deleter0 moved_from init acts = Ret w ∧
    (∀ h p, handles w !! h = Some p → to_bool p = true → deref (st w) p = Ret tt) ∧
    (∀ h h' p p' o, handles w !! h = Some p → handles w !! h' = Some p' →
      m_ptr p = Some o → m_ptr p' = Some o → h = h').
Proof.
  destruct (unique_exec_all_returns deleter0 moved_from acts init unique_inv_init) as (w & Hw & Hinv).
  exists w. split_and!; [done | |].
  - intros h p Hp. unfold to_bool, deref, load. destruct (m_ptr p) as [o |] eqn:Ho; [| done]. intros _.
    assert (is_Some (blocks (objs (st w)) !! o)) as [[] ->]; [| done].
    apply (u_live _ _ _ Hinv). right. exists h. by eapply owner_at.
  - intros h h' p p' o Hp Hp' Ho Ho'. eapply (u_unique _ _ _ Hinv); by eapply owner_at.
Qed.

(** C23: every object is deleted exactly once, when it loses its owner: an object
    allocated so far has been deleted iff neither a handle nor the client owns
    it; when no handle and no raw pointer is left, nothing has leaked. *)
Theorem unique_ptr_lifetime {D} (deleter0 : D) (moved_from : D → D) (acts : list (action D)) w :
  exec_all deleter0 moved_from init acts = Ret w →
  NoDup (deleted (st w)).*1 ∧
  (∀ o, (o < next_ (objs (st w)))%nat → o ∈ (deleted (st w)).*1 ↔
    (o ∉ raw w) ∧ ¬ ∃ h p, handles w !! h = Some p ∧ m_ptr p = Some o) ∧
  (handles w = ∅ → raw w = ∅ → blocks (objs (st w)) = ∅).
Proof.
  intros Hw. destruct (unique_exec_all_returns deleter0 moved_from acts init unique_inv_init) as (w' & Hw' & Hinv).
  rewrite Hw in Hw'. injection Hw' as <-. split_and!; [by apply (u_nodup _ _ _ Hinv) | |].
  - intros o Ho. rewrite (u_where _ _ _ Hinv), eq_None_not_Some, (u_live _ _ _ Hinv). unfold owner.
    split; [intros [_ Hno]; split; [| intros (h & p & ?)]; eauto 6 |].
    intros [Hr Hno]. split; [done |]. intros [? | (h & p & Hp & Hpo)]; eauto.
  - intros Hh Hr. apply map_eq. intros o. rewrite lookup_empty. apply eq_None_not_Some.
    rewrite (u_live _ _ _ Hinv), Hr. unfold owner. rewrite Hh.
    intros [Ho | (h & p & Hp & _)]; [by apply elem_of_empty in Ho | by rewrite lookup_empty in Hp].
Qed.

(** The deleter travels with the pointer.  Move assignment deletes what the
    target owned with the target's own deleter, then gives it the source's
    pointer and deleter and leaves the source empty; [reset] deletes with the
    handle's deleter and keeps it. *)
Theorem unique_ptr_deleters {D} (deleter0 : D) (moved_from : D → D) (w : world D) h h' p q :
  world_inv w → handles w !! h = Some p → handles w !! h' = Some q → h ≠ h' →
  ∃ w', exec deleter0 moved_from w (MoveAssign h h') = Ret w' ∧
    handles w' !! h = Some q ∧
    handles w' !! h' = Some (MkUnique None (moved_from (m_deleter q))) ∧
    deleted (st w') = deleted (st w) ++
      match m_ptr p with Some o => [(o, m_deleter p)] | None => [] end ∧
  ∃ w'', exec deleter0 moved_from w (ResetTo h None) = Ret w'' ∧
    handles w'' !! h = Some (MkUnique None (m_deleter p)) ∧
    deleted (st w'') = deleted (st w').
Proof.
  intros Hinv Hp Hq Hne. unfold exec. rewrite Hp, Hq. rewrite (proj2 (Nat.eqb_neq _ _)) by done.
  assert (∀ o : nat, None = Some o → o ∈ raw w) as Hnone by done.
  destruct (reset_returns _ _ _ _ _ None Hinv Hp Hnone) as (s1 & Hr1 & _ & Hlog1).
  assert (∃ s2, reset (st w) p (m_ptr q) = Ret (MkUnique (m_ptr q) (m_deleter p), s2) ∧
    deleted s2 = deleted s1) as (s2 & Hr2 & Hlog2).
  { unfold reset in *. destruct (m_ptr p) as [o |]; simpl in *.
    - destruct (call_deleter _ _ _); simplify_eq/=. by eexists.
    - simplify_eq. by eexists. }
  unfold move_assign. simpl. rewrite Hr2, Hr1. simpl. eexists. split; [done |]. simpl.
  rewrite lookup_insert_eq, lookup_insert_ne, lookup_insert_eq by done.
  split_and!; [by destruct q | done | congruence |]. eexists. split; [done |]. simpl.
  by rewrite lookup_insert_eq.
Qed.

(** ** Concrete programs *)

Module Demo.
Definition program : list (action nat) :=
  [New; FromPointerDeleter 0 (Some 0) 70; MakeUnique 1; MoveAssign 0 1; Release 0;
   ResetTo 1 (Some 1); Swap 0 1; Destroy 1]%nat.
Definition end_world : world nat :=
  match exec_all 7%nat (λ d, d) init program with Ret w => w | _ => init end.

Example unique_program_runs : exec_all 7%nat (λ d, d) init program = Ret end_world.
Proof. vm_compute. reflexivity. Qed.

(** Object 0 was deleted by its deleter 70 when the assignment replaced it. *)
Example unique_program_log :
  deleted (st end_world) = [(0, 70)]%nat ∧
  handles end_world = {[0%nat := MkUnique (Some 1%nat) 7%nat]}.
Proof. vm_compute. done. Qed.

Definition two : world nat :=
  match exec_all 7%nat (λ d, d) init (take 3 program) with Ret w => w | _ => init end.

Lemma two_inv : world_inv two.
Proof.
  destruct (unique_exec_all_returns 7%nat (λ d, d) (take 3 program) init unique_inv_init) as (w & Hw & Hinv).
  assert (exec_all 7%nat (λ d, d) init (take 3 program) = Ret two) as Htwo by (vm_compute; reflexivity).
  rewrite Htwo in Hw. by injection Hw as <-.
Qed.
End Demo.

Lemma unique_ptr_lifetime_witness :
  NoDup (deleted (st Demo.end_world)).*1 ∧ 1%nat ∉ (deleted (st Demo.end_world)).*1.
Proof.
  destruct (unique_ptr_lifetime _ _ Demo.program Demo.end_world Demo.unique_program_runs) as (H1 & H2 & _).
  split; [exact H1 |]. intros Hin. apply (H2 1%nat) in Hin as [_ Hno]; [| vm_compute; lia].
  apply Hno. exists 0%nat, (MkUnique (Some 1%nat) 7%nat). vm_compute. done.
Defined.

Lemma unique_ptr_deleters_witness :
  ∃ w', exec 7%nat (λ d, d) Demo.two (MoveAssign 0 1) = Ret w' ∧
    handles w' !! 0%nat = Some (MkUnique (Some 1%nat) 7%nat) ∧
    handles w' !! 1%nat = Some (MkUnique None 7%nat) ∧ deleted (st w') = [(0, 70)]%nat.
Proof.
  destruct (unique_ptr_deleters 7%nat (λ d, d) Demo.two 0 1 (MkUnique (Some 0%nat) 70%nat)
    (MkUnique (Some 1%nat) 7%nat) Demo.two_inv) as (w' & H1 & H2 & H3 & H4 & _);
    [vm_compute; reflexivity | vm_compute; reflexivity | discriminate |].
  exists w'. split; [exact H1 | split; [exact H2 | split; [exact H3 | exact H4]]].
Defined.
