(* ===== verification/ThreadPool.v ===== *)
(** * ThreadPool: workers, task queue and shutdown

    Models [src/include/fiah/thread/ThreadPool.hpp].  The workers, the callers of
    [enqueue] and [get_num_active_tasks], and the destructor are threads that
    interleave; each step makes one access to the shared members.  A task is
    opaque: running it is one step of its worker.  [m_semaphore] is a counter,
    [m_mutex] a flag (a [scoped_lock] releases what it took).

    [m_tasks] is an ordinary object: [emplace] reads its contents and then stores
    the longer queue, a worker reads the front and then pops.  Two threads about
    to access it, one of them to write, are a data race; the read without the
    mutex ([W_empty]) is checked when it is made.

    The members are destroyed in the reverse order of their declaration:
    [m_stopping], [m_semaphore] and [m_mutex] go before [m_workers] joins the
    threads ([alive] turns false), [m_tasks] after it.  A worker that touches a
    destroyed member is undefined behaviour. *)

From stdpp Require Import base tactics numbers list option gmap.
From Stdlib Require Import ZArith Lia.
From S2P Require Import Prelude.
#[local] Open Scope fiah_scope.

Section ThreadPool.
Context {T : Type}.
Context (num_threads : nat).

(** A worker in the loop of its thread function. *)
Inductive worker_pc : Type :=
| W_stop                       (* stoken.stop_requested() of the loop test *)
| W_stopping                   (* m_stopping.load() *)
| W_acquire                    (* m_semaphore.acquire() *)
| W_check                      (* stoken.stop_requested() of the early exit *)
| W_empty                      (* m_tasks.empty(), without the mutex *)
| W_lock                       (* scoped_lock *)
| W_front                      (* m_tasks.empty(), m_tasks.front() *)
| W_pop (task : T)             (* m_tasks.pop() *)
| W_unlock (task : option T)   (* end of the scope; [None]: continue *)
| W_run (task : T)             (* t_thread_id = thread_id *)
| W_call (task : T)            (* task() *)
| W_done.                      (* the thread function returned *)

(** A caller of [enqueue] (C) or [get_num_active_tasks] (Q). *)
Inductive client_pc : Type :=
| C_lock (task : T)
| C_emplace (task : T)                (* m_tasks.emplace: read the contents *)
| C_store (task : T) (l : list T)     (* m_tasks.emplace: store [l] with [task] *)
| C_unlock
| C_release
| Q_lock
| Q_read
| Q_unlock (count : nat).

(** The destructor: its body visits the workers in order, then the members go. *)
Inductive destructor_pc : Type :=
| D_none
| D_store
| D_release (w : nat)
| D_request (w : nat)
| D_members
| D_join (w : nat)
| D_done.

Record pool : Type := Pool {
  m_tasks : list T;
  m_mutex : bool;
  m_semaphore : nat;
  m_stopping : bool;
  requested : gset nat;          (* workers asked to stop *)
  alive : bool;                  (* m_stopping, m_semaphore, m_mutex exist *)
  spawned : nat;                 (* threads the constructor has started *)
  m_workers : gmap nat worker_pc;
  clients : gmap nat client_pc;
  destructor : destructor_pc;
  t_thread_ids : gmap nat Z      (* t_thread_id of the threads that assigned it *)
}.

Definition init : pool := Pool [] false 0 false ∅ true 0 ∅ ∅ D_none ∅.

(** [t_thread_id] of a worker's thread. *)
Definition t_thread_id (q : pool) (w : nat) : Z := default (-1)%Z (t_thread_ids q !! w).

Inductive event : Type :=
| Ev_enqueue (c : nat) (t : T)   (* the task entered the queue *)
| Ev_take (w : nat) (t : T)      (* worker [w] took the task *)
| Ev_run (w : nat) (id : Z) (t : T)   (* the task ran, [t_thread_id] being [id] *)
| Ev_count (c n : nat).          (* get_num_active_tasks returned [n] *)

(** Assignments to one member. *)
Definition set_tasks (q : pool) (l : list T) : pool :=
  Pool l (m_mutex q) (m_semaphore q) (m_stopping q) (requested q) (alive q) (spawned q)
    (m_workers q) (clients q) (destructor q) (t_thread_ids q).
Definition set_mutex (q : pool) (b : bool) : pool :=
  Pool (m_tasks q) b (m_semaphore q) (m_stopping q) (requested q) (alive q) (spawned q)
    (m_workers q) (clients q) (destructor q) (t_thread_ids q).
Definition set_semaphore (q : pool) (n : nat) : pool :=
  Pool (m_tasks q) (m_mutex q) n (m_stopping q) (requested q) (alive q) (spawned q)
    (m_workers q) (clients q) (destructor q) (t_thread_ids q).
Definition set_worker (q : pool) (w : nat) (p : worker_pc) : pool :=
  Pool (m_tasks q) (m_mutex q) (m_semaphore q) (m_stopping q) (requested q) (alive q) (spawned q)
    (<[w := p]> (m_workers q)) (clients q) (destructor q) (t_thread_ids q).
Definition set_clients (q : pool) (cs : gmap nat client_pc) : pool :=
  Pool (m_tasks q) (m_mutex q) (m_semaphore q) (m_stopping q) (requested q) (alive q) (spawned q)
    (m_workers q) cs (destructor q) (t_thread_ids q).
Definition set_destructor (q : pool) (d : destructor_pc) : pool :=
  Pool (m_tasks q) (m_mutex q) (m_semaphore q) (m_stopping q) (requested q) (alive q) (spawned q)
    (m_workers q) (clients q) d (t_thread_ids q).

Definition set_thread_id (q : pool) (w : nat) (id : Z) : pool :=
  Pool (m_tasks q) (m_mutex q) (m_semaphore q) (m_stopping q) (requested q) (alive q) (spawned q)
    (m_workers q) (clients q) (destructor q) (<[w := id]> (t_thread_ids q)).

(** The access the next step of a thread makes to [m_tasks]: [Some true] writes. *)
Definition w_access (p : worker_pc) : option bool :=
  match p with W_empty | W_front => Some false | W_pop _ => Some true | _ => None end.
Definition c_access (p : client_pc) : option bool :=
  match p with C_emplace _ | Q_read => Some false | C_store _ _ => Some true | _ => None end.
Definition conflict (a b : option bool) : bool :=
  match a, b with Some x, Some y => x || y | _, _ => false end.
Definition is_empty_read (p : worker_pc) : bool := match p with W_empty => true | _ => false end.

(** No other thread is about to make an access in conflict with access [a] of
    worker [inl w] or caller [inr c]. *)
Definition race_free (q : pool) (me : nat + nat) (a : option bool) : Prop :=
  map_Forall (λ w p, inl w = me ∨ is_empty_read p = true ∨ conflict a (w_access p) = false) (m_workers q) ∧
  map_Forall (λ c p, inr c = me ∨ conflict a (c_access p) = false) (clients q).
#[export] Instance pool_race_free_dec q me a : Decision (race_free q me a).
Proof. unfold race_free. apply _. Defined.

(** One step of worker [w], at [p]. *)
Definition worker_at (q : pool) (w : nat) (p : worker_pc) : outcome (pool * option event) :=
  match p with
  | W_done => Ret (q, None)
  | W_stop =>
      Ret (set_worker q w (if decide (w ∈ requested q) then W_done else W_stopping), None)
  | W_stopping =>
      require! alive q;;
      Ret (set_worker q w (if m_stopping q then W_done else W_acquire), None)
  | W_acquire =>
      require! alive q;;
      match m_semaphore q with
      | O => Ret (q, None)
      | S n => Ret (set_worker (set_semaphore q n) w W_check, None)
      end
  | W_check =>
      Ret (set_worker q w (if decide (w ∈ requested q) then W_empty else W_lock), None)
  | W_empty => Ret (set_worker q w (match m_tasks q with [] => W_done | _ => W_lock end), None)
  | W_lock =>
      require! alive q;;
      if m_mutex q then Ret (q, None)
      else Ret (set_worker (set_mutex q true) w W_front, None)
  | W_front =>
      Ret (set_worker q w (match m_tasks q with [] => W_unlock None | t :: _ => W_pop t end), None)
  | W_pop t =>
      match m_tasks q with
      | [] => Undef
      | _ :: l => Ret (set_worker (set_tasks q l) w (W_unlock (Some t)), Some (Ev_take w t))
      end
  | W_unlock task =>
      require! alive q;;
      Ret (set_worker (set_mutex q false) w
             (match task with Some t => W_run t | None => W_stop end), None)
  | W_run t => Ret (set_thread_id (set_worker q w (W_call t)) w (Z.of_nat w), None)
  | W_call t => Ret (set_worker q w W_stop, Some (Ev_run w (t_thread_id q w) t))
  end.

Definition worker_step (q : pool) (w : nat) : outcome (pool * option event) :=
  match m_workers q !! w with
  | None => Ret (q, None)
  | Some p => require! bool_decide (race_free q (inl w) (w_access p)) ;; worker_at q w p
  end.

(** One step of caller [c], at [p]. *)
Definition client_at (q : pool) (c : nat) (p : client_pc) : pool * option event :=
  let goto q p := set_clients q (<[c := p]> (clients q)) in
  let leave q := set_clients q (delete c (clients q)) in
  match p with
  | C_lock t => if m_mutex q then (q, None) else (goto (set_mutex q true) (C_emplace t), None)
  | C_emplace t => (goto q (C_store t (m_tasks q)), None)
  | C_store t l => (goto (set_tasks q (l ++ [t])) C_unlock, Some (Ev_enqueue c t))
  | C_unlock => (goto (set_mutex q false) C_release, None)
  | C_release => (leave (set_semaphore q (S (m_semaphore q))), None)
  | Q_lock => if m_mutex q then (q, None) else (goto (set_mutex q true) Q_read, None)
  | Q_read => (goto q (Q_unlock (length (m_tasks q))), None)
  | Q_unlock n => (leave (set_mutex q false), Some (Ev_count c n))
  end.

Definition client_step (q : pool) (c : nat) : outcome (pool * option event) :=
  match clients q !! c with
  | None => Ret (q, None)
  | Some p => require! bool_decide (race_free q (inr c) (c_access p)) ;; Ret (client_at q c p)
  end.

(** The constructor starts the next thread. *)
Definition constructor_step (q : pool) : pool :=
  if (spawned q <? num_threads)%nat then
    Pool (m_tasks q) (m_mutex q) (m_semaphore q) (m_stopping q) (requested q) (alive q)
      (S (spawned q)) (<[spawned q := W_stop]> (m_workers q)) (clients q) (destructor q) (t_thread_ids q)
  else q.

(** One step of the destructor. *)
Definition destructor_step (q : pool) : pool :=
  let visit w := if (w <? num_threads)%nat then D_release w else D_members in
  match destructor q with
  | D_none | D_done => q
  | D_store =>
      Pool (m_tasks q) (m_mutex q) (m_semaphore q) true (requested q) (alive q) (spawned q)
        (m_workers q) (clients q) (visit 0) (t_thread_ids q)
  | D_release w => set_destructor (set_semaphore q (S (m_semaphore q))) (D_request w)
  | D_request w =>
      Pool (m_tasks q) (m_mutex q) (m_semaphore q) (m_stopping q) ({[w]} ∪ requested q) (alive q)
        (spawned q) (m_workers q) (clients q) (visit (S w)) (t_thread_ids q)
  | D_members =>
      Pool (m_tasks q) (m_mutex q) (m_semaphore q) (m_stopping q) (requested q) false (spawned q)
        (m_workers q) (clients q) (D_join 0) (t_thread_ids q)
  | D_join w =>
      if (w <? num_threads)%nat then
        match m_workers q !! w with
        | Some W_done => set_destructor q (D_join (S w))
        | _ => q
        end
      else set_destructor q D_done
  end.

Inductive action : Type :=
| RunConstructor
| CallEnqueue (c : nat) (t : T)
| CallCount (c : nat)
| RunClient (c : nat)
| RunWorker (w : nat)
| CallDestructor
| RunDestructor.

(** The object is used between its construction and its destruction: calls before
    or after are not made, and the destructor starts when no call is running. *)
Definition usable (q : pool) : bool :=
  (spawned q =? num_threads)%nat && match destructor q with D_none => true | _ => false end.

Definition call (q : pool) (c : nat) (p : client_pc) : pool :=
  if usable q then
    match clients q !! c with
    | None => set_clients q (<[c := p]> (clients q))
    | Some _ => q
    end
  else q.

Definition exec (q : pool) (a : action) : outcome (pool * option event) :=
  match a with
  | RunConstructor => Ret (constructor_step q, None)
  | CallEnqueue c t => Ret (call q c (C_lock t), None)
  | CallCount c => Ret (call q c Q_lock, None)
  | RunClient c => client_step q c
  | RunWorker w => worker_step q w
  | CallDestructor =>
      Ret (if usable q && bool_decide (clients q = ∅) then set_destructor q D_store else q, None)
  | RunDestructor => Ret (destructor_step q, None)
  end.

Definition enqueued (es : list event) : list T :=
  omap (λ e, match e with Ev_enqueue _ t => Some t | _ => None end) es.
Definition taken (es : list event) : list T :=
  omap (λ e, match e with Ev_take _ t => Some t | _ => None end) es.
Definition taken_by (w : nat) (es : list event) : list T :=
  omap (λ e, match e with Ev_take w' t => if decide (w' = w) then Some t else None | _ => None end) es.
Definition run_by (w : nat) (es : list event) : list T :=
  omap (λ e, match e with Ev_run w' _ t => if decide (w' = w) then Some t else None | _ => None end) es.
Definition ran (es : list event) : list T :=
  omap (λ e, match e with Ev_run _ _ t => Some t | _ => None end) es.
Definition own_id (e : event) : Prop :=
  match e with Ev_run w id _ => id = Z.of_nat w | _ => True end.
End ThreadPool.

#[export] Instance destructor_pc_eq_dec : EqDecision destructor_pc.
Proof. solve_decision. Defined.

Arguments worker_pc T : clear implicits.
Arguments client_pc T : clear implicits.
Arguments pool T : clear implicits.
Arguments event T : clear implicits.
Arguments action T : clear implicits.

Abbreviation step n := (machine_step (exec n)).

(** * Invariant *)

Section Invariant.
Context {T : Type} (n : nat).
Implicit Types (q : pool T) (p : worker_pc T).

(** Threads inside the mutex. *)
Definition w_holds p : nat := match p with W_front | W_pop _ | W_unlock _ => 1 | _ => 0 end.
Definition c_holds (c : client_pc T) : nat :=
  match c with C_emplace _ | C_store _ _ | C_unlock | Q_read | Q_unlock _ => 1 | _ => 0 end.

(** A permit taken for a task still queued, and one not given yet. *)
Definition w_has p : nat :=
  match p with W_check | W_empty | W_lock | W_front | W_pop _ => 1 | _ => 0 end.
Definition c_owes (c : client_pc T) : nat := match c with C_unlock | C_release => 1 | _ => 0 end.

(** Workers that will ask for a permit once the pool is stopping. *)
Definition w_need p : nat := match p with W_acquire => 1 | _ => 0 end.

(** What a thread inside knows of [m_tasks] from its own earlier step. *)
Definition w_sees (l : list T) p : Prop := match p with W_pop t => head l = Some t | _ => True end.
Definition c_sees (l : list T) (c : client_pc T) : Prop :=
  match c with C_store _ l' => l' = l | _ => True end.

Definition permits q : nat :=
  m_semaphore q + msum w_has (m_workers q) + msum c_owes (clients q).

Definition enough_permits q : Prop :=
  match destructor q with
  | D_none | D_store => True
  | D_release k => k < n ∧ msum w_need (m_workers q) ≤ m_semaphore q + (n - k)
  | D_request k => k < n ∧ msum w_need (m_workers q) ≤ m_semaphore q + (n - S k)
  | _ => msum w_need (m_workers q) ≤ m_semaphore q
  end.

Definition body_started (d : destructor_pc) : bool :=
  match d with D_none | D_store => false | _ => true end.
Definition members_gone (d : destructor_pc) : bool :=
  match d with D_join _ | D_done => true | _ => false end.

Record inv q : Prop := Inv {
  inv_mutex : msum w_holds (m_workers q) + msum c_holds (clients q) = Nat.b2n (m_mutex q);
  inv_tasks : destructor q = D_none → length (m_tasks q) = permits q;
  inv_requested : destructor q = D_none → requested q = ∅;
  inv_calm : destructor q = D_none → map_Forall (λ _ p, p ≠ W_empty ∧ p ≠ W_done) (m_workers q);
  inv_clients : destructor q ≠ D_none → clients q = ∅ ∧ spawned q = n;
  inv_size : size (m_workers q) = spawned q ∧ spawned q ≤ n;
  inv_fresh : ∀ w, spawned q ≤ w → m_workers q !! w = None;
  inv_stopping : m_stopping q = body_started (destructor q);
  inv_alive : alive q = negb (members_gone (destructor q));
  inv_need : enough_permits q;
  inv_w_view : map_Forall (λ _ p, w_sees (m_tasks q) p) (m_workers q);
  inv_c_view : map_Forall (λ _ c, c_sees (m_tasks q) c) (clients q)
}.

Lemma pool_inv_init : inv init.
Proof.
  split; simpl; rewrite ?msum_empty; try done.
  - split; [apply map_size_empty | lia].
Qed.

(** A thread in the mutex is alone there. *)
Lemma worker_alone q w p u p' :
  inv q → m_workers q !! w = Some p → w_holds p = 1 → m_workers q !! u = Some p' → u ≠ w → w_holds p' = 0.
Proof.
  intros Hinv Hw Hp Hu Hne. pose proof (inv_mutex _ Hinv) as Hm.
  pose proof (msum_ge2 w_holds _ _ _ _ _ Hw Hu) as Hge. destruct (m_mutex q); simpl in Hm; [| lia].
  specialize (Hge (not_eq_sym Hne)). lia.
Qed.

Lemma worker_excludes_client q w p c (c' : client_pc T) :
  inv q → m_workers q !! w = Some p → clients q !! c = Some c' → w_holds p = 1 → c_holds c' = 0.
Proof.
  intros Hinv Hw Hc Hp. pose proof (inv_mutex _ Hinv) as Hm.
  pose proof (msum_ge w_holds _ _ _ Hw). pose proof (msum_ge c_holds _ _ _ Hc).
  destruct (m_mutex q); simpl in Hm; lia.
Qed.

Lemma client_alone q c d (p p' : client_pc T) :
  inv q → clients q !! c = Some p → c_holds p = 1 → clients q !! d = Some p' → d ≠ c → c_holds p' = 0.
Proof.
  intros Hinv Hc Hp Hd Hne. pose proof (inv_mutex _ Hinv) as Hm.
  pose proof (msum_ge2 c_holds _ _ _ _ _ Hc Hd) as Hge. destruct (m_mutex q); simpl in Hm; [| lia].
  specialize (Hge (not_eq_sym Hne)). lia.
Qed.

Lemma w_sees_outside l p : w_holds p = 0 → w_sees l p.
Proof. by destruct p. Qed.

Lemma c_sees_outside l (c : client_pc T) : c_holds c = 0 → c_sees l c.
Proof. by destruct c. Qed.

(** Worker [w] moves from [p] to [p']. *)
Lemma inv_worker q w p p' tasks mutex sem :
  inv q → m_workers q !! w = Some p →
  w_holds p' + Nat.b2n (m_mutex q) = w_holds p + Nat.b2n mutex →
  (destructor q = D_none →
    length tasks + m_semaphore q + w_has p = length (m_tasks q) + sem + w_has p' ∧
    p' ≠ W_empty ∧ p' ≠ W_done) →
  (m_stopping q = true → w_need p' + m_semaphore q ≤ w_need p + sem) →
  (tasks = m_tasks q ∨ w_holds p = 1) → w_sees tasks p' →
  inv (set_worker (set_semaphore (set_mutex (set_tasks q tasks) mutex) sem) w p').
Proof.
  intros Hinv Hw Hmutex Htasks Hneed Hmine Hsees.
  pose proof (λ Hp u p' Hu, worker_alone q w p u p' Hinv Hw Hp Hu) as Halone.
  pose proof (λ c c' Hc, worker_excludes_client q w p c c' Hinv Hw Hc) as Hexcl.
  destruct Hinv as [Hm Ht Hr Hc Hcl Hs Hf Hst Ha Hn Hwv Hcv].
  pose proof (msum_replace w_holds _ _ _ p' Hw) as Hholds.
  pose proof (msum_replace w_has _ _ _ p' Hw) as Hhas.
  pose proof (msum_replace w_need _ _ _ p' Hw) as Hneeds.
  split; unfold permits, enough_permits in *; simpl; try done.
  - lia.
  - intros Hd. destruct (Htasks Hd) as [? _]. specialize (Ht Hd). lia.
  - intros Hd. destruct (Htasks Hd) as [_ ?]. apply map_Forall_insert_2; auto.
  - by rewrite map_size_insert_Some.
  - intros u Hu. rewrite lookup_insert_ne; [auto |]. intros ->. by rewrite Hf in Hw.
  - rewrite Hst in Hneed. destruct (destructor q); simpl in *; try done; try specialize (Hneed eq_refl); lia.
  - intros u p'' [[<- <-] | [Hne Hu]]%lookup_insert_Some; [done |].
    destruct Hmine as [-> | Hp]; [by eapply Hwv | by eapply w_sees_outside, Halone].
  - intros c c' Hc'. destruct Hmine as [-> | Hp]; [by eapply Hcv | by eapply c_sees_outside, Hexcl].
Qed.

Lemma inv_set_id q w id : inv q → inv (set_thread_id q w id).
Proof. by intros []. Qed.

(** A caller moves while the pool is in use. *)
Lemma inv_client q (cs : gmap nat (client_pc T)) tasks mutex sem :
  inv q → destructor q = D_none →
  msum c_holds cs + Nat.b2n (m_mutex q) = msum c_holds (clients q) + Nat.b2n mutex →
  length tasks + m_semaphore q + msum c_owes (clients q) = length (m_tasks q) + sem + msum c_owes cs →
  map_Forall (λ _ p, w_sees tasks p) (m_workers q) → map_Forall (λ _ c, c_sees tasks c) cs →
  inv (set_clients (set_semaphore (set_mutex (set_tasks q tasks) mutex) sem) cs).
Proof.
  intros [Hm Ht Hr Hc Hcl Hs Hf Hst Ha Hn _ _] Hd Hholds Hl Hwv Hcv.
  split; unfold permits, enough_permits in *; simpl; try done.
  - lia.
  - intros _. specialize (Ht Hd). lia.
  - by rewrite Hd.
Qed.

Lemma worker_step_inv q w q' e : inv q → worker_step q w = Ret (q', e) → inv q'.
Proof.
  intros Hinv. unfold worker_step. destruct (m_workers q !! w) as [p |] eqn:Hw; [| by intros [= <- _]].
  destruct (bool_decide _); [| done].
  assert (∀ p' tasks mutex sem,
    w_holds p' + Nat.b2n (m_mutex q) = w_holds p + Nat.b2n mutex →
    (destructor q = D_none →
      length tasks + m_semaphore q + w_has p = length (m_tasks q) + sem + w_has p' ∧
      p' ≠ W_empty ∧ p' ≠ W_done) →
    (m_stopping q = true → w_need p' + m_semaphore q ≤ w_need p + sem) →
    (tasks = m_tasks q ∨ w_holds p = 1) → w_sees tasks p' →
    inv (set_worker (set_semaphore (set_mutex (set_tasks q tasks) mutex) sem) w p')) as Hmove.
  { intros. by eapply inv_worker. }
  pose proof (inv_mutex _ Hinv) as Hmx. pose proof (inv_requested _ Hinv) as Hreq.
  pose proof (inv_stopping _ Hinv) as Hst. pose proof (inv_calm _ Hinv) as Hcalm.
  pose proof (inv_tasks _ Hinv) as Ht. unfold permits in Ht.
  pose proof (msum_ge w_has _ _ _ Hw) as Hhas. pose proof (msum_ge w_holds _ _ _ Hw) as Hge.
  destruct q as [tasks mutex sem stopping req al sp ws cs d ids]. simpl in *.
  destruct p; simpl in *.
  - intros [= <- _]. apply (Hmove _ tasks mutex sem); simpl; [by case_decide | | by case_decide | by left | by case_decide].
    intros Hd. rewrite (Hreq Hd), decide_False by set_solver. split; [simpl; lia | done].
  - destruct al; [| done]. intros [= <- _].
    apply (Hmove _ tasks mutex sem); simpl; [by destruct stopping | | by intros -> | by left | by destruct stopping].
    intros Hd. rewrite Hd in Hst. simpl in Hst. subst stopping. split; [simpl; lia | done].
  - destruct al; [| done]. destruct sem as [| sem]; intros [= <- _]; [done |].
    apply (Hmove W_check tasks mutex sem); simpl; auto with lia.
  - intros [= <- _]. apply (Hmove _ tasks mutex sem); simpl; [by case_decide | | by case_decide | by left | by case_decide].
    intros Hd. rewrite (Hreq Hd), decide_False by set_solver. split; [simpl; lia | done].
  - intros [= <- _]. apply (Hmove _ tasks mutex sem); simpl; [by destruct tasks | | by destruct tasks | by left | by destruct tasks].
    intros Hd. by destruct (Hcalm Hd _ _ Hw) as [? _].
  - destruct al; [| done]. destruct mutex; intros [= <- _]; [done |].
    apply (Hmove W_front tasks true sem); simpl; auto with lia.
  - intros [= <- _].
    apply (Hmove _ tasks mutex sem); simpl; [by destruct tasks | | by destruct tasks | by left | by destruct tasks].
    intros Hd. specialize (Ht Hd). destruct tasks; simpl in *; [lia |]. split; [lia | done].
  - destruct tasks as [| t tasks]; intros [= <- _].
    apply (Hmove (W_unlock (Some task)) tasks mutex sem); simpl; auto with lia.
  - destruct al; [| done]. intros [= <- _].
    apply (Hmove _ tasks false sem); simpl; [| | by destruct task | by left | by destruct task].
    + destruct mutex, task; simpl in *; lia.
    + intros _. split; [by destruct task | by destruct task].
  - intros [= <- _]. apply inv_set_id. apply (Hmove (W_call task) tasks mutex sem); simpl; auto with lia.
  - intros [= <- _]. apply (Hmove W_stop tasks mutex sem); simpl; auto with lia.
  - by intros [= <- _].
Qed.

Lemma client_step_inv q c q' e : inv q → client_step q c = Ret (q', e) → inv q'.
Proof.
  intros Hinv. unfold client_step. destruct (clients q !! c) as [p |] eqn:Hc; [| by intros [= <- _]].
  destruct (bool_decide _); [| done].
  assert (destructor q = D_none) as Hd.
  { destruct (decide (clients q = ∅)) as [Hcl |]; [by rewrite Hcl in Hc |].
    destruct (destructor q) eqn:Hd; [done |..];
      by destruct (inv_clients _ Hinv) as [? _]; rewrite ?Hd. }
  assert (∀ po tasks mutex sem,
    c_holds p + Nat.b2n mutex = from_option c_holds 0 po + Nat.b2n (m_mutex q) →
    length tasks + m_semaphore q + c_owes p = length (m_tasks q) + sem + from_option c_owes 0 po →
    (tasks = m_tasks q ∨ c_holds p = 1) → from_option (c_sees tasks) True po →
    inv (set_clients (set_semaphore (set_mutex (set_tasks q tasks) mutex) sem)
      (partial_alter (λ _, po) c (clients q)))) as Hmove.
  { intros po tasks mutex sem H1 H2 Hmine Hsees.
    assert (∀ f, msum f (partial_alter (λ _, po) c (clients q)) + f p =
      from_option f 0 po + msum f (clients q)) as Hsum.
    { intros f. destruct po as [p' |]; [by apply (msum_replace f) | by apply (msum_remove f)]. }
    pose proof (Hsum c_holds). pose proof (Hsum c_owes).
    apply inv_client; [done | done | lia | lia | |].
    - intros w p' Hw. destruct Hmine as [-> | Hp]; [by eapply inv_w_view |]. apply w_sees_outside.
      pose proof (worker_excludes_client q w p' c p Hinv Hw Hc) as Hexcl.
      destruct p'; simpl in *; try done; specialize (Hexcl eq_refl); lia.
    - intros u p' Hu. destruct (decide (u = c)) as [-> | Hne].
      { rewrite lookup_partial_alter_eq in Hu. by subst po. }
      rewrite lookup_partial_alter_ne in Hu by done.
      destruct Hmine as [-> | Hp]; [by eapply inv_c_view | by apply c_sees_outside, (client_alone q c u p p')]. }
  pose proof (inv_mutex _ Hinv) as Hmx. pose proof (msum_ge c_holds _ _ _ Hc) as Hge.
  pose proof (inv_c_view _ Hinv _ _ Hc) as Hview.
  destruct q as [tasks mutex sem stopping req al sp ws cs d ids]. simpl in *.
  destruct p; simpl in *.
  - destruct mutex; intros [= <- _]; [done |].
    apply (Hmove (Some (C_emplace task)) tasks true sem); simpl; auto with lia.
  - intros [= <- _]. apply (Hmove (Some (C_store task tasks)) tasks mutex sem); simpl; auto with lia.
  - intros [= <- _]. subst l. apply (Hmove (Some C_unlock) (tasks ++ [task]) mutex sem); simpl; auto.
    rewrite length_app. simpl. lia.
  - intros [= <- _]. apply (Hmove (Some C_release) tasks false sem); simpl; auto.
    destruct mutex; simpl in *; lia.
  - intros [= <- _]. apply (Hmove None tasks mutex (S sem)); simpl; auto with lia.
  - destruct mutex; intros [= <- _]; [done |].
    apply (Hmove (Some (Q_read)) tasks true sem); simpl; auto with lia.
  - intros [= <- _]. apply (Hmove (Some (Q_unlock (length tasks))) tasks mutex sem); simpl; auto.
  - intros [= <- _]. apply (Hmove None tasks false sem); simpl; auto.
    destruct mutex; simpl in *; lia.
Qed.

Lemma constructor_step_inv q : inv q → inv (constructor_step n q).
Proof.
  intros Hinv. unfold constructor_step. destruct (Nat.ltb_spec (spawned q) n) as [Hlt |]; [| done].
  destruct Hinv as [Hm Ht Hr Hc Hcl Hs Hf Hst Ha Hn Hwv Hcv]. pose proof (Hf _ (le_n _)) as Hnone.
  assert (destructor q = D_none) as Hd.
  { destruct (destructor q); [done |..]; destruct Hcl as [_ ?]; (done || lia). }
  split; unfold permits, enough_permits in *; simpl; rewrite ?msum_insert_fresh by done; auto.
  - intros _. by apply map_Forall_insert_2; [| auto].
  - done.
  - rewrite map_size_insert_None by done. lia.
  - intros w Hw. rewrite lookup_insert_ne by lia. apply Hf. lia.
  - by apply map_Forall_insert_2.
Qed.

(** The mutex excludes every race but that of the read without it. *)
Lemma worker_race_free q w p :
  inv q → m_workers q !! w = Some p → (p = W_empty → m_mutex q = false) →
  race_free q (inl w) (w_access p).
Proof.
  intros Hinv Hw Hempty.
  assert (m_mutex q = false → msum w_holds (m_workers q) = 0 ∧ msum c_holds (clients q) = 0) as Hfree.
  { intros Hm. pose proof (inv_mutex _ Hinv) as Hmx. rewrite Hm in Hmx. simpl in Hmx. lia. }
  split.
  - intros u p' Hu. destruct (decide (u = w)) as [-> | Hne]; [by left | right].
    pose proof (λ Hp, worker_alone q w p u p' Hinv Hw Hp Hu Hne) as Halone.
    pose proof (msum_ge w_holds _ _ _ Hu).
    destruct p; simpl in *; try (right; done); destruct p'; simpl in *; auto;
      try (specialize (Halone eq_refl); lia); destruct (Hfree (Hempty eq_refl)); lia.
  - intros c p' Hc. right. pose proof (worker_excludes_client q w p c p' Hinv Hw Hc) as Hexcl.
    pose proof (msum_ge c_holds _ _ _ Hc).
    destruct p; simpl in *; try done; destruct p'; simpl in *; auto;
      try (specialize (Hexcl eq_refl); lia); destruct (Hfree (Hempty eq_refl)); lia.
Qed.

Lemma client_race_free q c (p : client_pc T) : inv q → clients q !! c = Some p → race_free q (inr c) (c_access p).
Proof.
  intros Hinv Hc. split.
  - intros w p' Hw. right. pose proof (worker_excludes_client q w p' c p Hinv Hw Hc) as Hexcl.
    destruct p', p; simpl in *; auto; specialize (Hexcl eq_refl); lia.
  - intros d p' Hd. destruct (decide (d = c)) as [-> | Hne]; [by left | right].
    pose proof (λ Hp, client_alone q c d p p' Hinv Hc Hp Hd Hne) as Halone.
    destruct p, p'; simpl in *; auto; specialize (Halone eq_refl); lia.
Qed.

Lemma destructor_step_inv q : inv q → inv (destructor_step n q).
Proof.
  intros Hinv. assert (msum w_need (m_workers q) ≤ spawned q) as Hle.
  { destruct (inv_size _ Hinv) as [<- _]. apply msum_le_size. intros []; simpl; lia. }
  destruct Hinv as [Hm Ht Hr Hc Hcl Hs Hf Hst Ha Hn Hwv Hcv].
  unfold destructor_step. destruct q as [tasks mutex sem stopping req al sp ws cs d ids].
  unfold permits, enough_permits in *. simpl in *.
  destruct d as [| | w | w | | w |]; [done | | | | | |].
  - destruct (Nat.ltb_spec 0 n); split; unfold permits, enough_permits; simpl; try done; auto; lia.
  - split; unfold permits, enough_permits; simpl; try done; auto; lia.
  - destruct (Nat.ltb_spec (S w) n); split; unfold permits, enough_permits; simpl; try done; auto; lia.
  - split; unfold permits, enough_permits; simpl; try done; auto; lia.
  - destruct (Nat.ltb_spec w n); [destruct (ws !! w) as [[] |] |];
      split; unfold permits, enough_permits; simpl; try done; auto; lia.
  - done.
Qed.

Lemma exec_inv q a q' e : inv q → exec n q a = Ret (q', e) → inv q'.
Proof.
  intros Hinv. assert (∀ (c : nat) (p : client_pc T), c_holds p = 0 → c_owes p = 0 → inv (call n q c p)) as Hcall.
  { intros c p Hh Ho. unfold call, usable. destruct (andb _ _) eqn:Hu; [| done].
    apply andb_true_iff in Hu as [_ Hu]. destruct (clients q !! c) eqn:Hc; [done |].
    assert (destructor q = D_none) as Hd by (by destruct (destructor q)).
    pose proof (inv_client q (<[c := p]> (clients q)) (m_tasks q) (m_mutex q) (m_semaphore q) Hinv Hd) as Hi.
    rewrite !msum_insert_fresh in Hi by done.
    assert (set_clients q (<[c := p]> (clients q)) = set_clients (set_semaphore (set_mutex
      (set_tasks q (m_tasks q)) (m_mutex q)) (m_semaphore q)) (<[c := p]> (clients q))) as -> by by destruct q.
    apply Hi; [lia | lia | apply (inv_w_view _ Hinv) |].
    apply map_Forall_insert_2; [by apply c_sees_outside | apply (inv_c_view _ Hinv)]. }
  destruct a; simpl; try intros [= <- _]; auto using constructor_step_inv, destructor_step_inv.
  - eauto using client_step_inv.
  - eauto using worker_step_inv.
  - destruct (usable n q && bool_decide (clients q = ∅)) eqn:Hu; [| done].
    apply andb_true_iff in Hu as [Hu Hcl]. apply bool_decide_eq_true in Hcl.
    unfold usable in Hu. apply andb_true_iff in Hu as [Hsp Hd]. apply Nat.eqb_eq in Hsp.
    destruct Hinv as [Hm Ht Hr Hc Hcl' Hs Hf Hst Ha Hn Hwv Hcv].
    destruct q as [tasks mutex sem stopping req al sp ws cs d ids]. simpl in *. destruct d; try done.
Qed.

Lemma pool_reachable tr q : run (step n) init tr q → inv q.
Proof.
  apply (run_invariant (step n) (λ _ q, inv q)); [apply pool_inv_init |].
  intros tr' s [a e] s' Hs Hstep. by eapply exec_inv.
Qed.
End Invariant.

(** * What a run does to the tasks *)

Section Effects.
Context {T : Type} (n : nat).
Implicit Types (q : pool T) (p : worker_pc T).

(** The task a worker has taken and not finished. *)
Definition carried p : list T :=
  match p with W_unlock (Some t) | W_run t | W_call t => [t] | _ => [] end.
Definition in_hand q (w : nat) : list T := from_option carried [] (m_workers q !! w).

Definition effect q q' (e : option (event T)) : Prop :=
  m_tasks q ++ enqueued (option_list e) = taken (option_list e) ++ m_tasks q' ∧
  ∀ w, in_hand q w ++ taken_by w (option_list e) = run_by w (option_list e) ++ in_hand q' w.

Lemma effect_quiet q q' : m_tasks q' = m_tasks q → m_workers q' = m_workers q → effect q q' None.
Proof. intros Ht Hw. unfold effect, in_hand. rewrite Ht, Hw. simpl. split; [by rewrite app_nil_r |]. intros w. by rewrite app_nil_r. Qed.

(** A step that only moves worker [w]. *)
Lemma effect_worker q q' w p p' :
  m_workers q !! w = Some p → m_workers q' = <[w := p']> (m_workers q) → m_tasks q' = m_tasks q →
  carried p' = carried p → effect q q' None.
Proof.
  intros Hw Hws Ht Hc. unfold effect, in_hand. rewrite Ht, Hws. simpl. split; [by rewrite app_nil_r |].
  intros u. rewrite app_nil_r. destruct (decide (u = w)) as [-> | Hne].
  - by rewrite lookup_insert_eq, Hw.
  - by rewrite lookup_insert_ne.
Qed.

Lemma worker_step_effect q w q' e : inv n q → worker_step q w = Ret (q', e) → effect q q' e.
Proof.
  intros Hinv. unfold worker_step.
  destruct (m_workers q !! w) as [p |] eqn:Hw; [| intros [= <- <-]; by apply effect_quiet].
  destruct (bool_decide _); [| done]. pose proof (inv_w_view _ _ Hinv _ _ Hw) as Hview.
  assert (∀ q' p', m_workers q' = <[w := p']> (m_workers q) → m_tasks q' = m_tasks q →
    carried p' = carried p → effect q q' None) as Hmove by (intros; by eapply effect_worker).
  assert (∀ u, u ≠ w → ∀ p', <[w := p']> (m_workers q) !! u = m_workers q !! u) as Hother.
  { intros. by rewrite lookup_insert_ne. }
  destruct p; simpl in Hview; simpl.
  all: try (destruct (alive q); [| done]).
  - intros [= <- <-]. eapply Hmove; [done.. |]. by case_decide.
  - intros [= <- <-]. eapply Hmove; [done.. |]. by destruct (m_stopping q).
  - destruct (m_semaphore q); intros [= <- <-]; [by apply effect_quiet | by eapply Hmove].
  - intros [= <- <-]. eapply Hmove; [done.. |]. by case_decide.
  - intros [= <- <-]. eapply Hmove; [done.. |]. by destruct (m_tasks q).
  - destruct (m_mutex q); intros [= <- <-]; [by apply effect_quiet | by eapply Hmove].
  - intros [= <- <-]. eapply Hmove; [done.. |]. by destruct (m_tasks q).
  - destruct (m_tasks q) as [| t l] eqn:Ht; intros [= <- <-]. simpl in Hview. simplify_eq.
    unfold effect, in_hand. simpl. rewrite Ht. split; [by rewrite app_nil_r |]. intros u.
    destruct (decide (u = w)) as [-> | Hne].
    + rewrite lookup_insert_eq, Hw. simpl. by rewrite decide_True.
    + rewrite Hother by done. rewrite decide_False by done. by rewrite app_nil_r.
  - intros [= <- <-]. eapply Hmove; [done.. |]. by destruct task.
  - intros [= <- <-]. by eapply Hmove.
  - intros [= <- <-]. unfold effect, in_hand. simpl. split; [by rewrite app_nil_r |]. intros u.
    rewrite app_nil_r. destruct (decide (u = w)) as [-> | Hne].
    + rewrite lookup_insert_eq, Hw. simpl. by rewrite decide_True.
    + rewrite Hother by done. by rewrite decide_False.
  - intros [= <- <-]. by apply effect_quiet.
Qed.

Lemma client_step_effect q c q' e : inv n q → client_step q c = Ret (q', e) → effect q q' e.
Proof.
  intros Hinv. unfold client_step.
  destruct (clients q !! c) as [p |] eqn:Hc; [| intros [= <- <-]; by apply effect_quiet].
  destruct (bool_decide _); [| done]. pose proof (inv_c_view _ _ Hinv _ _ Hc) as Hview.
  destruct p; simpl in Hview; simpl; try (destruct (m_mutex q)); intros [= <- <-]; try by apply effect_quiet.
  all: unfold effect, in_hand; simpl; rewrite ?app_nil_r, ?Hview; split; [done |]; intros w; by rewrite app_nil_r.
Qed.

Lemma pool_exec_effect q a q' e : inv n q → exec n q a = Ret (q', e) → effect q q' e.
Proof.
  intros Hinv. destruct a; simpl; try (intros [= <- <-]).
  - unfold constructor_step. destruct (_ <? _)%nat; [| by apply effect_quiet].
    unfold effect, in_hand. simpl. rewrite app_nil_r. split; [done |]. intros w. rewrite app_nil_r.
    destruct (decide (w = spawned q)) as [-> | Hne].
    + by rewrite lookup_insert_eq, (inv_fresh _ _ Hinv).
    + by rewrite lookup_insert_ne.
  - unfold call. destruct (usable n q); [destruct (clients q !! c) |]; by apply effect_quiet.
  - unfold call. destruct (usable n q); [destruct (clients q !! c) |]; by apply effect_quiet.
  - by apply client_step_effect.
  - by apply worker_step_effect.
  - destruct (_ && _); by apply effect_quiet.
  - apply effect_quiet; unfold destructor_step; split_match; done.
Qed.

(** A task about to run finds the number of its worker in [t_thread_id]. *)
Definition ids_ok q : Prop :=
  ∀ w t, m_workers q !! w = Some (W_call t) → t_thread_id q w = Z.of_nat w.

(** The worker of an event is one of the pool. *)
Definition of_worker (e : event T) : Prop :=
  match e with Ev_take w _ | Ev_run w _ _ => w < n | _ => True end.

Lemma ids_ok_same q q' :
  ids_ok q → m_workers q' = m_workers q → t_thread_ids q' = t_thread_ids q → ids_ok q'.
Proof. unfold ids_ok, t_thread_id. by intros Hids -> ->. Qed.

Lemma ids_ok_move q q' w p :
  ids_ok q → m_workers q' = <[w := p]> (m_workers q) → t_thread_ids q' = t_thread_ids q →
  (∀ t, p ≠ W_call t) → ids_ok q'.
Proof.
  unfold ids_ok, t_thread_id. intros Hids -> -> Hp u t [[<- Hu] | [_ Hu]]%lookup_insert_Some.
  - by destruct (Hp t).
  - by eapply Hids.
Qed.

Lemma worker_step_ids q w q' e :
  inv n q → ids_ok q → worker_step q w = Ret (q', e) →
  ids_ok q' ∧ Forall own_id (option_list e) ∧ Forall of_worker (option_list e).
Proof.
  intros Hinv Hids. unfold worker_step.
  destruct (m_workers q !! w) as [p |] eqn:Hw; [| intros [= <- <-]; by split_and!; [| constructor..]].
  destruct (bool_decide _); [| done].
  assert (w < n) as Hwn.
  { pose proof (inv_size _ _ Hinv) as [_ Hle]. destruct (decide (spawned q ≤ w)) as [Hge |]; [| lia].
    by rewrite (inv_fresh _ _ Hinv) in Hw. }
  assert (∀ q' p', m_workers q' = <[w := p']> (m_workers q) → t_thread_ids q' = t_thread_ids q →
    (∀ t, p' ≠ W_call t) → ids_ok q') as Hmove by (intros; by eapply ids_ok_move).
  destruct p; simpl; try (destruct (alive q); [| done]); intros Hstep; split_match_in Hstep;
    simplify_eq; (split_and!; [| first [by repeat constructor | constructor; [by eapply Hids | constructor]] |
                    by repeat constructor]); try done;
    try (eapply Hmove; [done.. | intros ?; split_match; done]).
  intros u t. unfold t_thread_id. simpl. intros [[<- _] | [Hne Hu]]%lookup_insert_Some.
  - by rewrite lookup_insert_eq.
  - rewrite lookup_insert_ne by done. by eapply Hids.
Qed.

Lemma pool_exec_ids q a q' e :
  inv n q → ids_ok q → exec n q a = Ret (q', e) →
  ids_ok q' ∧ Forall own_id (option_list e) ∧ Forall of_worker (option_list e).
Proof.
  intros Hinv Hids.
  assert (∀ q', m_workers q' = m_workers q → t_thread_ids q' = t_thread_ids q → ids_ok q') as Hsame
    by (intros; by eapply ids_ok_same).
  destruct a; simpl; [intros [= <- <-] .. | | | |]; try (split_and!; [| by repeat constructor ..]).
  - unfold constructor_step. destruct (_ <? _)%nat; [| done]. by eapply ids_ok_move.
  - apply Hsame; unfold call; split_match; done.
  - apply Hsame; unfold call; split_match; done.
  - unfold client_step. destruct (clients q !! c) as [p |]; [| intros [= <- <-]; by split_and!; [| constructor..]].
    destruct (bool_decide _); [| done].
    destruct p; simpl; try (destruct (m_mutex q)); intros [= <- <-];
      (split_and!; [by apply Hsame | by repeat constructor ..]).
  - by apply worker_step_ids.
  - intros [= <- <-]. split_and!; [| by repeat constructor ..]. apply Hsame; split_match; done.
  - intros [= <- <-]. split_and!; [| by repeat constructor ..].
    apply Hsame; unfold destructor_step; split_match; done.
Qed.

Definition accounted (tr : list (action T * option (event T))) q : Prop :=
  let es := omap snd tr in
  inv n q ∧ ids_ok q ∧ (enqueued es = taken es ++ m_tasks q ∧
  ∀ w, taken_by w es = run_by w es ++ in_hand q w) ∧ Forall own_id es ∧ Forall of_worker es.

Lemma pool_accounted tr q : run (step n) init tr q → accounted tr q.
Proof.
  apply (run_invariant (step n) accounted).
  { split_and!; [apply pool_inv_init | by intros w t Hw; simpl in Hw; rewrite lookup_empty in Hw | done | | by constructor ..].
    intros w. unfold in_hand. simpl. by rewrite lookup_empty. }
  intros tr' s [a e] s' (Hinv & Hids & [Hq Hw] & Hown & Hof) Hstep. unfold machine_step in Hstep. simpl in Hstep.
  destruct (pool_exec_effect _ _ _ _ Hinv Hstep) as [He1 He2].
  destruct (pool_exec_ids _ _ _ _ Hinv Hids Hstep) as (Hids' & Hown' & Hof').
  assert (omap snd (tr' ++ [(a, e)]) = omap snd tr' ++ option_list e) as Hes.
  { rewrite omap_app. by destruct e. }
  unfold accounted. rewrite Hes. split_and!; [by eapply exec_inv | done | | | by apply Forall_app ..];
    unfold enqueued, taken, taken_by, run_by in *.
  - by rewrite !omap_app, Hq, <-!(assoc_L (++)), He1.
  - intros w. by rewrite !omap_app, Hw, <-!(assoc_L (++)), He2.
Qed.

(** With one worker, what it took and ran is what was taken and run. *)
Lemma one_worker (es : list (event T)) :
  n = 1 → Forall of_worker es → taken es = taken_by 0 es ∧ ran es = run_by 0 es.
Proof.
  intros Hn Hes. unfold taken, taken_by, ran, run_by.
  induction Hes as [| e es He _ [IH1 IH2]]; [done |].
  destruct e as [c t | w t | w id t | c k]; csimpl; simpl in He; try done;
    (destruct (decide (w = 0)); [| lia]); by rewrite ?IH1, ?IH2.
Qed.
End Effects.

(** * Progress *)

Section Progress.
Context {T : Type} (n : nat).
Implicit Types (q : pool T) (p : worker_pc T).

(** Steps each thread can make before it waits; a queued task gives a worker
    one more turn of its loop. *)
Definition w_left p : nat :=
  match p with
  | W_unlock _ => 11 | W_run _ => 10 | W_call _ => 9 | W_stop => 8 | W_stopping => 7 | W_acquire => 6
  | W_check | W_empty => 5 | W_lock => 4 | W_front => 3 | W_pop _ => 2 | W_done => 0
  end.
Definition c_left (c : client_pc T) : nat :=
  match c with
  | C_lock _ => 15 | C_emplace _ => 14 | C_store _ _ => 13 | C_unlock => 2 | C_release => 1
  | Q_lock => 3 | Q_read => 2 | Q_unlock _ => 1
  end.
Definition work_left q : nat :=
  9 * (n - spawned q) + msum w_left (m_workers q) + msum c_left (clients q) + 10 * length (m_tasks q).

(** [a] is a defined step that brings the pool closer to rest. *)
Definition advances q (a : action T) : Prop :=
  ∃ q' e, exec n q a = Ret (q', e) ∧ work_left q' < work_left q ∧ destructor q' = destructor q.

Lemma worker_defined q w p :
  inv n q → destructor q = D_none → m_workers q !! w = Some p →
  ∃ q' e, worker_step q w = Ret (q', e) ∧ destructor q' = D_none ∧
    ((p = W_acquire → 0 < m_semaphore q) → (p = W_lock → m_mutex q = false) → work_left q' < work_left q).
Proof.
  intros Hinv Hd Hw. pose proof (inv_calm _ _ Hinv Hd _ _ Hw) as [Hne Hnd].
  unfold worker_step. rewrite Hw, bool_decide_eq_true_2 by by apply (worker_race_free n).
  unfold worker_at.
  pose proof (inv_w_view _ _ Hinv _ _ Hw) as Hview.
  pose proof (inv_requested _ _ Hinv Hd) as Hr. pose proof (inv_stopping _ _ Hinv) as Hs.
  pose proof (inv_alive _ _ Hinv) as Ha. rewrite Hd in Hs, Ha. simpl in Hs, Ha.
  pose proof (λ p', msum_replace w_left _ _ _ p' Hw) as Hl. unfold work_left.
  rewrite Ha, Hr, Hs.
  destruct p; simpl in *; rewrite ?decide_False by set_solver; try done.
  - do 2 eexists. split_and!; [done.. |]. specialize (Hl W_stopping). simpl in *. lia.
  - do 2 eexists. split_and!; [done.. |]. specialize (Hl W_acquire). simpl in *. lia.
  - destruct (m_semaphore q); do 2 eexists; (split_and!; [done.. |]); intros Hpos _.
    + specialize (Hpos eq_refl). lia.
    + specialize (Hl W_check). simpl in *. lia.
  - do 2 eexists. split_and!; [done.. |]. specialize (Hl W_lock). simpl in *. lia.
  - destruct (m_mutex q); do 2 eexists; (split_and!; [done.. |]); intros _ Hmx.
    + by specialize (Hmx eq_refl).
    + specialize (Hl W_front). simpl in *. lia.
  - pose proof (inv_tasks _ _ Hinv Hd) as Ht. unfold permits in Ht.
    pose proof (msum_ge w_has _ _ _ Hw) as Hhas. simpl in Hhas.
    destruct (m_tasks q) as [| t l] eqn:Hq; simpl in *; [lia |].
    do 2 eexists. split_and!; [done.. |]. specialize (Hl (W_pop t)). simpl in *. rewrite Hq. simpl. lia.
  - destruct (m_tasks q) as [| t l]; simpl in *; [done |].
    do 2 eexists. split_and!; [done.. |]. specialize (Hl (W_unlock (Some task))). simpl in *. lia.
  - do 2 eexists. split_and!; [done.. |]. destruct task as [t |].
    + specialize (Hl (W_run t)). simpl in *. lia.
    + specialize (Hl W_stop). simpl in *. lia.
  - do 2 eexists. split_and!; [done.. |]. specialize (Hl (W_call task)). simpl in *. lia.
  - do 2 eexists. split_and!; [done.. |]. specialize (Hl W_stop). simpl in *. lia.
Qed.

Lemma client_defined q c (p : client_pc T) :
  inv n q → clients q !! c = Some p →
  ∃ q' e, client_step q c = Ret (q', e) ∧ destructor q' = destructor q ∧
    (m_mutex q = false ∨ c_holds p = 1 → work_left q' < work_left q).
Proof.
  intros Hinv Hc. unfold client_step. rewrite Hc, bool_decide_eq_true_2 by by apply (client_race_free n).
  pose proof (inv_c_view _ _ Hinv _ _ Hc) as Hview. unfold work_left.
  pose proof (λ c' : client_pc T, msum_replace c_left _ _ _ c' Hc) as Hl. pose proof (msum_remove c_left _ _ _ Hc) as Hl0.
  destruct p; simpl in *.
  - destruct (m_mutex q); do 2 eexists; (split_and!; [done.. |]); intros Hmx; [by destruct Hmx |].
    specialize (Hl (C_emplace task)). simpl in *. lia.
  - do 2 eexists. split_and!; [done.. |]. specialize (Hl (C_store task (m_tasks q))). simpl in *. lia.
  - do 2 eexists. split_and!; [done.. |]. specialize (Hl C_unlock). simpl in *. subst l.
    rewrite length_app. simpl. lia.
  - do 2 eexists. split_and!; [done.. |]. specialize (Hl C_release). simpl in *. lia.
  - do 2 eexists. split_and!; [done.. |]. simpl. lia.
  - destruct (m_mutex q); do 2 eexists; (split_and!; [done.. |]); intros Hmx; [by destruct Hmx |].
    specialize (Hl Q_read). simpl in *. lia.
  - do 2 eexists. split_and!; [done.. |]. specialize (Hl (Q_unlock (length (m_tasks q)))). simpl in *. lia.
  - do 2 eexists. split_and!; [done.. |]. simpl. lia.
Qed.

Definition calls_destructor (a : action T) : bool :=
  match a with CallDestructor => true | _ => false end.

Lemma exec_defined q a :
  calls_destructor a = false → inv n q → destructor q = D_none →
  ∃ q' e, exec n q a = Ret (q', e) ∧ inv n q' ∧ destructor q' = D_none.
Proof.
  intros Ha Hinv Hd. cut (∃ q' e, exec n q a = Ret (q', e) ∧ destructor q' = D_none).
  { intros (q' & e & He & ?). exists q', e. split_and!; [done | by eapply exec_inv | done]. }
  assert (∀ c (p : client_pc T), destructor (call n q c p) = D_none) as Hcall.
  { intros. unfold call. by destruct (usable n q), (clients q !! c). }
  destruct a as [| c t | c | c | w | |]; simpl; try done.
  - do 2 eexists. split; [done |]. unfold constructor_step. by destruct (_ <? _)%nat.
  - eauto.
  - eauto.
  - destruct (clients q !! c) as [p |] eqn:Hc.
    + destruct (client_defined q c p Hinv Hc) as (q' & e & Hs & Hd' & _). exists q', e. split; [done | congruence].
    + exists q, None. unfold client_step. by rewrite Hc.
  - destruct (m_workers q !! w) as [p |] eqn:Hw.
    + destruct (worker_defined q w p Hinv Hd Hw) as (q' & e & ? & ? & _). by exists q', e.
    + exists q, None. unfold worker_step. by rewrite Hw.
  - do 2 eexists. split; [done |]. unfold destructor_step. by rewrite Hd.
Qed.

(** Everything enqueued has been run, and every worker waits for more. *)
Definition at_rest q : Prop :=
  m_tasks q = [] ∧ clients q = ∅ ∧ spawned q = n ∧
  map_Forall (λ _ p, p = W_acquire) (m_workers q).

Definition is_acquire p : bool := match p with W_acquire => true | _ => false end.

(** A thread inside the mutex can always go on. *)
Lemma holder_advances q : inv n q → destructor q = D_none → m_mutex q = true → ∃ a, advances q a.
Proof.
  intros Hinv Hd Hm. pose proof (inv_mutex _ _ Hinv) as Hmx. rewrite Hm in Hmx. simpl in Hmx.
  destruct (decide (0 < msum w_holds (m_workers q))) as [Hpos | Hzero].
  - apply msum_pos in Hpos as (w & p & Hw & Hp). exists (RunWorker w).
    destruct (worker_defined q w p Hinv Hd Hw) as (q' & e & Hs & Hd' & Hl). exists q', e.
    split_and!; [done | apply Hl; intros ->; simpl in Hp; lia | congruence].
  - assert (0 < msum c_holds (clients q)) as (c & p & Hc & Hp)%msum_pos by lia. exists (RunClient c).
    destruct (client_defined q c p Hinv Hc) as (q' & e & Hs & Hd' & Hl). exists q', e.
    split_and!; [done | apply Hl; right | done]. destruct p; simpl in *; lia.
Qed.

Lemma not_at_rest q : 0 < n → inv n q → destructor q = D_none → at_rest q ∨ ∃ a, advances q a.
Proof.
  intros Hn Hinv Hd. destruct (m_mutex q) eqn:Hm; [right; by apply holder_advances |].
  assert (∀ w p, m_workers q !! w = Some p → (p = W_acquire → 0 < m_semaphore q) → ∃ a, advances q a) as Hrun.
  { intros w p Hw Hsem. exists (RunWorker w).
    destruct (worker_defined q w p Hinv Hd Hw) as (q' & e & Hs & Hd' & Hl). exists q', e.
    split_and!; [done | by apply Hl | congruence]. }
  destruct (decide (spawned q = n)) as [Hsp | Hsp].
  2: { right. exists RunConstructor. unfold advances, work_left. simpl. unfold constructor_step.
    pose proof (inv_size _ _ Hinv) as [_ Hle]. destruct (Nat.ltb_spec (spawned q) n); [| lia].
    do 2 eexists. split_and!; [done | | done]. simpl.
    rewrite msum_insert_fresh by (by apply (inv_fresh _ _ Hinv)). simpl. lia. }
  destruct (map_choose_or_empty (clients q)) as [(c & p & Hc) | Hc].
  { right. exists (RunClient c). destruct (client_defined q c p Hinv Hc) as (q' & e & Hs & Hd' & Hl).
    exists q', e. split_and!; [done | apply Hl; by left | done]. }
  destruct (decide (map_Forall (λ _ p, is_acquire p = true) (m_workers q))) as [Hacq | Hacq].
  2: { right. apply map_not_Forall in Hacq as (w & p & Hw & Hp); [| apply _].
    apply (Hrun w p Hw). by intros ->. }
  assert (msum w_has (m_workers q) = 0) as Hhas.
  { destruct (decide (0 < msum w_has (m_workers q))) as [(w & p & Hw & Hp)%msum_pos | ?]; [| lia].
    specialize (Hacq w p Hw). destruct p; simpl in *; (done || lia). }
  pose proof (inv_tasks _ _ Hinv Hd) as Ht. unfold permits in Ht.
  rewrite Hhas, Hc, msum_empty in Ht. destruct (m_semaphore q) as [| sem] eqn:Hsem.
  - left. split_and!; [by apply nil_length_inv; lia | done | done |].
    intros w p Hw. specialize (Hacq w p Hw). by destruct p.
  - right. destruct (map_choose_or_empty (m_workers q)) as [(w & p & Hw) | Hw].
    + apply (Hrun w p Hw). lia.
    + destruct (inv_size _ _ Hinv) as [Hsize _]. rewrite Hw, map_size_empty in Hsize. lia.
Qed.

Lemma runs_to_rest q :
  0 < n → inv n q → destructor q = D_none →
  ∃ acts q' es, length acts ≤ work_left q ∧ run_schedule (exec n) q acts = Ret (q', es) ∧ at_rest q'.
Proof.
  intros Hn. remember (work_left q) as k eqn:Hk. revert q Hk.
  induction (lt_wf k) as [k _ IH]. intros q -> Hinv Hd.
  destruct (not_at_rest q Hn Hinv Hd) as [? | (a & q1 & e & Ha & Hlt & Hd1)].
  { exists [], q, []. split_and!; [simpl; lia | done | done]. }
  destruct (IH _ Hlt q1 eq_refl) as (acts & q' & es & Hlen & Hrun & Hrest).
  { by eapply exec_inv. }
  { congruence. }
  exists (a :: acts), q'. eexists. split_and!; [simpl; lia | | done].
  simpl. rewrite Ha. simpl. by rewrite Hrun.
Qed.
End Progress.

(** * Shutdown *)

Section Shutdown.
Context {T : Type} (n : nat).
Implicit Types (q : pool T) (p : worker_pc T).

Abbreviation reaches q q' := (∃ tr, run (step n) q tr q').









End Shutdown.

(** * Properties *)

(** C10: tasks are taken in the order they were enqueued, each by exactly one
    worker; a worker runs the tasks it took, each once and in that order, and a
    task that runs finds its worker's number in [t_thread_id]; only the task a
    worker is at may be missing.  With one worker the tasks hence run in the
    order they were enqueued (several workers may start tasks they took in
    another order).  This holds in every interleaving that is defined, the
    destructor included, although [emplace] and [front]-then-[pop] each take two
    steps; until the destructor is called every next step is defined, without a
    data race on the queue. *)
Theorem pool_fifo {T} n tr (q : pool T) :
  run (step n) init tr q →
  let es := omap snd tr in
  enqueued es = taken es ++ m_tasks q ∧
  (∀ w, taken_by w es = run_by w es ++ in_hand q w) ∧
  Forall own_id es ∧
  (n = 1 → enqueued es = ran es ++ in_hand q 0 ++ m_tasks q) ∧
  (destructor q = D_none → ∀ a, calls_destructor a = false → ∃ q' e, exec n q a = Ret (q', e)).
Proof.
  intros Hrun es. subst es. destruct (pool_accounted n tr q Hrun) as (Hinv & _ & [He Hw] & Hown & Hof).
  split_and!; [done.. | |].
  - intros Hn. destruct (one_worker n _ Hn Hof) as [Ht Hr]. by rewrite Hr, (assoc_L (++)), <-Hw, <-Ht.
  - intros Hd a Ha. destruct (exec_defined n q a Ha Hinv Hd) as (q' & e & ? & _). by exists q', e.
Qed.

(** Until the destructor is called, no interleaving is undefined: no data
    race on the task queue, no [front] of an empty queue.  At most one thread
    is in the mutex, and the queued tasks are exactly the permits of the
    semaphore, those workers have taken and those enqueuers still owe. *)
Theorem pool_safe {T} n (acts : list (action T)) :
  Forall (λ a, calls_destructor a = false) acts →
  ∃ q es, run_schedule (exec n) init acts = Ret (q, es) ∧
    msum w_holds (m_workers q) + msum c_holds (clients q) ≤ 1 ∧
    length (m_tasks q) = permits q.
Proof.
  intros Hacts. destruct (run_schedule_total (exec n) (λ a : action T, calls_destructor a = false)
    (λ q, inv n q ∧ destructor q = D_none) acts init) as (q & es & Hrun & Hinv & Hd).
  - intros q a Ha [Hinv Hd]. by apply exec_defined.
  - done.
  - split; [apply pool_inv_init | done].
  - exists q, es. split_and!; [done | | by apply (inv_tasks n)].
    rewrite (inv_mutex n q Hinv). by destruct (m_mutex q); simpl; lia.
Qed.

(** C9: nothing is stranded.  In a pool with a worker, whatever was scheduled so
    far (short of the destructor), there is a continuation of bounded length in
    which every call returns, every task enqueued is taken and run to its end,
    and the workers come to wait for permits. *)
Theorem pool_runs_everything {T} n tr (q : pool T) :
  0 < n → run (step n) init tr q → destructor q = D_none →
  ∃ tr' q', run (step n) q tr' q' ∧ length tr' ≤ work_left n q ∧ at_rest n q' ∧
    let es := omap snd (tr ++ tr') in
    taken es = enqueued es ∧ ∀ w, run_by w es = taken_by w es.
Proof.
  intros Hn Hrun Hd. pose proof (pool_reachable n tr q Hrun) as Hinv.
  destruct (runs_to_rest n q Hn Hinv Hd) as (acts & q' & es & Hlen & Hs & Hrest).
  destruct (run_schedule_run (exec n) acts q q' es Hs) as (tr' & Hrun' & _ & Hacts).
  exists tr', q'. split_and!; [done | by rewrite <-Hacts, length_fmap in Hlen | done |].
  destruct (pool_accounted n (tr ++ tr') q') as (_ & _ & [He Hw] & _); [by eapply run_app |].
  destruct Hrest as (Ht & _ & _ & Hacq). split.
  - by rewrite He, Ht, app_nil_r.
  - intros w. rewrite Hw. unfold in_hand. destruct (m_workers q' !! w) as [p |] eqn:Hp; simpl.
    + rewrite (Hacq w p Hp). by rewrite app_nil_r.
    + by rewrite app_nil_r.
Qed.


(** Destroying an idle pool can be undefined behaviour: [m_semaphore] and
    [m_mutex] are destroyed before the workers are joined, and a worker woken by
    the destructor then uses them. *)
Theorem pool_destructor_races {T} :
  run_schedule (exec 1) (init (T := T))
    [RunConstructor; RunWorker 0; RunWorker 0; CallDestructor; RunDestructor; RunDestructor;
     RunDestructor; RunDestructor; RunWorker 0] = Undef.
Proof. reflexivity. Qed.

(** * On a concrete pool *)

Module Demo.

(** One worker; a task is enqueued and run. *)
Definition schedule : list (action nat) :=
  [RunConstructor; RunWorker 0; RunWorker 0; CallEnqueue 1 7; RunClient 1; RunClient 1; RunClient 1].
Definition serve : list (action nat) :=
  [RunClient 1; RunClient 1] ++ replicate 10 (RunWorker 0).

Definition enqueuing : pool nat := final init (run_schedule (exec 1) init schedule).
Definition served : pool nat := final init (run_schedule (exec 1) init (schedule ++ serve)).

Lemma pool_served : ∃ tr, run (step 1) init tr served ∧
  omap snd tr = [Ev_enqueue 1 7; Ev_take 0 7; Ev_run 0 0 7] ∧ tr.*1 = schedule ++ serve.
Proof. apply run_schedule_run. vm_compute. reflexivity. Qed.

Lemma pool_enqueuing : ∃ tr, run (step 1) init tr enqueuing ∧
  omap snd tr = [Ev_enqueue 1 7] ∧ tr.*1 = schedule.
Proof. apply run_schedule_run. vm_compute. reflexivity. Qed.



(** A task enqueued before the destructor can be dropped: its future is never
    made ready. *)
Example pool_drops_a_task :
  let q := final init (run_schedule (exec 1) (init (T := nat))
    [RunConstructor; CallEnqueue 1 7; RunClient 1; RunClient 1; RunClient 1; RunClient 1; RunClient 1;
     CallDestructor; RunDestructor; RunWorker 0; RunWorker 0; RunDestructor; RunDestructor;
     RunDestructor; RunDestructor; RunDestructor]) in
  destructor q = D_done ∧ m_tasks q = [7].
Proof. vm_compute. done. Qed.

(** A pool without threads never runs anything. *)
Example pool_without_threads :
  at_rest 0 (init (T := nat)) ∧
  (let q := final init (run_schedule (exec 0) init
     (CallEnqueue 1 7 :: replicate 5 (RunClient 1))) in
   m_tasks q = [7] ∧ m_workers q = ∅ ∧ clients q = ∅).
Proof. vm_compute. done. Qed.
End Demo.

(** ** Witnesses *)

Lemma pool_fifo_witness : ∃ tr, run (step 1) init tr Demo.served ∧
  (enqueued (omap snd tr) = taken (omap snd tr) ∧ taken_by 0 (omap snd tr) = run_by 0 (omap snd tr) ∧
   enqueued (omap snd tr) = ran (omap snd tr)) ∧
  ∃ q' e, exec 1 Demo.served (CallEnqueue 2 8) = Ret (q', e).
Proof.
  destruct Demo.pool_served as (tr & Hrun & _). exists tr. split; [exact Hrun |].
  destruct (pool_fifo 1 tr Demo.served Hrun) as (He & Hw & _ & H1 & Hdef). split; [split_and! |].
  - rewrite He. apply app_nil_r.
  - rewrite (Hw 0). apply app_nil_r.
  - rewrite (H1 eq_refl). apply app_nil_r.
  - apply Hdef; reflexivity.
Defined.

Lemma pool_safe_witness : ∃ q es,
  run_schedule (exec 1) init (Demo.schedule ++ Demo.serve) = Ret (q, es) ∧
  msum w_holds (m_workers q) + msum c_holds (clients q) ≤ 1 ∧ length (m_tasks q) = permits q.
Proof. apply (pool_safe 1). repeat constructor. Defined.

Lemma pool_runs_everything_witness : ∃ tr, run (step 1) init tr Demo.enqueuing ∧
  ∃ tr' q', run (step 1) Demo.enqueuing tr' q' ∧ length tr' ≤ work_left 1 Demo.enqueuing ∧
    at_rest 1 q' ∧
    let es := omap snd (tr ++ tr') in
    taken es = enqueued es ∧ ∀ w, run_by w es = taken_by w es.
Proof.
  destruct Demo.pool_enqueuing as (tr & Hrun & _). exists tr. split; [exact Hrun |].
  apply (pool_runs_everything 1 tr Demo.enqueuing); [lia | exact Hrun | reflexivity].
Defined.

