(* ===== verification/Stod.v ===== *)
(** * Stod: [std::stoi] and [std::stod]

    The conversions from text to numbers that [Toml] calls, after the C++ and C
    standards (in the C locale).  A [double] is a [spec_float] of the standard
    library of Rocq, its precision 53 and its largest exponent 1024; a decimal or
    hexadecimal text is read to the nearest one, ties to even. *)

From stdpp Require Import base tactics numbers list option strings.
From Stdlib Require Import ZArith Lia Ascii SpecFloat.
From S2P Require Import Prelude Text.
#[local] Open Scope char_scope.
#[local] Open Scope Z_scope.
#[local] Open Scope fiah_scope.

(** ** Characters and digits *)

Definition is_space (c : ascii) : bool :=
  bool_decide (c = " ") || ((9 <=? nat_of_ascii c)%nat && (nat_of_ascii c <=? 13)%nat).
Definition digit (c : ascii) : option Z :=
  if ((48 <=? nat_of_ascii c)%nat && (nat_of_ascii c <=? 57)%nat)
  then Some (Z.of_nat (nat_of_ascii c - 48)) else None.

Definition lower (c : ascii) : ascii :=
  if ((65 <=? nat_of_ascii c)%nat && (nat_of_ascii c <=? 90)%nat) then chr (nat_of_ascii c + 32) else c.

Definition hex_digit (c : ascii) : option Z :=
  match digit c with
  | Some d => Some d
  | None =>
      let n := nat_of_ascii (lower c) in
      if ((97 <=? n)%nat && (n <=? 102)%nat) then Some (Z.of_nat (n - 87)) else None
  end.

Fixpoint skip_spaces (s : str) : str :=
  match s with c :: s' => if is_space c then skip_spaces s' else s | [] => [] end.

(** An optional sign: 1 or -1, and the text after it. *)
Definition read_sign (s : str) : Z * str :=
  match s with
  | "-" :: s' => (-1, s')
  | "+" :: s' => (1, s')
  | _ => (1, s)
  end.

(** The number written by the leading digits, if there is one. *)
Fixpoint digits (acc : Z) (seen : bool) (s : str) : option Z :=
  match s with
  | c :: s' => match digit c with Some d => digits (acc * 10 + d) true s' | None => if seen then Some acc else None end
  | [] => if seen then Some acc else None
  end.

(** ** [std::stoi] *)

Inductive stoi_result : Type := Int (z : Z) | InvalidArgument | OutOfRange.

Definition stoi (s : str) : stoi_result :=
  let '(sign, s) := read_sign (skip_spaces s) in
  match digits 0 false s with
  | None => InvalidArgument
  | Some n => if in_i32b (sign * n) then Int (sign * n) else OutOfRange
  end.

(** ** Rounding to binary64

    Magnitudes are counted in units of 2^-1074, the least positive [double]. *)

Definition SCALE : Z := 2 ^ 1074.

(** [a / b], rounded to an integer, ties to even *)
Definition round_half_even (a b : Z) : Z :=
  let q := a / b in
  let r := a mod b in
  if (2 * r <? b) || ((2 * r =? b) && Z.even q) then q else q + 1.

(** The weight, as a power of two, of the last of the 53 bits of [u]. *)
Definition last_bit (u : Z) : Z := if u <? 2 ^ 53 then 0 else Z.log2 u - 52.

(** The [double] nearest to [n / d]: 53 bits, and the weight of the last one. *)
Definition nearest (n d : Z) : Z * Z :=
  let u := n * SCALE in
  let k := last_bit (u / d) in
  let q := round_half_even u (d * 2 ^ k) in
  if q =? 2 ^ 53 then (2 ^ 52, k + 1) else (q, k).

(** [n / d] is below the least normal number and no [double]. *)
Definition underflows (n d : Z) : bool :=
  negb (n =? 0) && (n * 2 ^ 1022 <? d) && negb ((n * SCALE) mod d =? 0).

(** ** [std::strtod] *)

(** The number [m] written by the leading digits, [f] of them after the point,
    and the text after them. *)
Fixpoint mantissa (dgt : ascii → option Z) (base : Z) (point : bool) (m f : Z) (seen : bool) (s : str)
  : option (Z * Z * str) :=
  let stop := if seen then Some (m, f, s) else None in
  match s with
  | [] => stop
  | c :: s' =>
      match dgt c with
      | Some d => mantissa dgt base point (m * base + d) (if point then f + 1 else f) true s'
      | None => if bool_decide (c = ".") && negb point then mantissa dgt base true m f seen s' else stop
      end
  end.

(** The exponent after [marker], 0 when none is written. *)
Definition exponent (marker : ascii) (s : str) : Z :=
  match s with
  | c :: s =>
      if bool_decide (lower c = marker) then
        let '(sign, s) := read_sign s in
        match digits 0 false s with Some x => sign * x | None => 0 end
      else 0
  | [] => 0
  end.

(** [m * base ^ x] as a fraction *)
Definition scaled (base m x : Z) : Z * Z := if 0 <=? x then (m * base ^ x, 1) else (m, base ^ (- x)).

(** [s] begins with [p], which is in small letters. *)
Fixpoint starts_with (p s : str) : bool :=
  match p, s with
  | [], _ => true
  | c :: p, x :: s => bool_decide (lower x = c) && starts_with p s
  | _, [] => false
  end.

Inductive stod_result : Type := Double (f : spec_float) | DInvalidArgument | DOutOfRange.

Section Stod.
(** Whether a result that underflows is a range error is left to the
    implementation. *)
Context (reports : Z → Z → bool).

Definition to_double (negative : bool) (n d : Z) : stod_result :=
  let '(m, k) := nearest n d in
  if 2046 <=? k then DOutOfRange
  else if underflows n d && reports n d then DOutOfRange
  else match m with
       | Z.pos p => Double (S754_finite negative p (k - 1074))
       | _ => Double (S754_zero negative)
       end.

Definition decimal_value (negative : bool) (s : str) : stod_result :=
  match mantissa digit 10 false 0 0 false s with
  | None => DInvalidArgument
  | Some (m, f, rest) =>
      let '(n, d) := scaled 10 m (exponent "e" rest - f) in to_double negative n d
  end.

(** Without digits after it, the [0] of [0x] is the number. *)
Definition hex_value (negative : bool) (s : str) : stod_result :=
  match mantissa hex_digit 16 false 0 0 false s with
  | None => Double (S754_zero negative)
  | Some (m, f, rest) =>
      let '(n, d) := scaled 2 m (exponent "p" rest - 4 * f) in to_double negative n d
  end.

(** [strtod], and the exceptions that [std::stod] throws after it. *)
Definition stod (s : str) : stod_result :=
  let '(sign, s) := read_sign (skip_spaces s) in
  let negative := sign <? 0 in
  if starts_with (lit "inf") s then Double (S754_infinity negative)
  else if starts_with (lit "nan") s then Double S754_nan
  else if starts_with (lit "0x") s then hex_value negative (drop 2 s)
  else decimal_value negative s.
End Stod.

(** ** What the rounding means *)

Definition sign_of (negative : bool) : Z := if negative then -1 else 1.

(** The value in units, [None] for infinities and NaN. *)
Definition in_units (f : spec_float) : option Z :=
  match f with
  | S754_zero _ => Some 0
  | S754_finite s p e => Some (sign_of s * Z.pos p * 2 ^ (e + 1074))
  | _ => None
  end.

Definition significand (f : spec_float) : Z := match f with S754_finite _ p _ => Z.pos p | _ => 0 end.

(** [f] is the [double] nearest to [x / d], ties to even. *)
Definition nearest_double (x d : Z) (f : spec_float) : Prop :=
  valid_binary 53 1024 f = true ∧ ∃ v, in_units f = Some v ∧
    ∀ g w, valid_binary 53 1024 g = true → in_units g = Some w →
      Z.abs (x * SCALE - v * d) ≤ Z.abs (x * SCALE - w * d) ∧
      (Z.abs (x * SCALE - v * d) = Z.abs (x * SCALE - w * d) → w ≠ v → Z.even (significand f) = true).

(** [n / d] is at least half a step above the greatest [double]. *)
Definition overflows (n d : Z) : bool := (2 ^ 1024 - 2 ^ 970) * d <=? n.

(** ** Decimal texts

    A sign, digits with a point before, among or after them, and an exponent. *)

Definition all_digits (ds : str) : Prop := Forall (λ c, is_Some (digit c)) ds.

Fixpoint number (acc : Z) (ds : str) : Z :=
  match ds with c :: ds => number (acc * 10 + default 0 (digit c)) ds | [] => acc end.

Inductive signed : str → bool → Prop :=
| signed_none : signed [] false
| signed_plus : signed ["+"] false
| signed_minus : signed ["-"] true.

Inductive fraction : str → str → Prop :=
| fraction_none : fraction [] []
| fraction_digits fp : all_digits fp → fraction ("." :: fp) fp.

Inductive exponent_text : str → Z → Prop :=
| exponent_none : exponent_text [] 0
| exponent_digits c sg negative ds : lower c = "e" → signed sg negative → all_digits ds → ds ≠ [] →
    exponent_text (c :: sg ++ ds) (sign_of negative * number 0 ds).

(** The text of [m * 10 ^ x], negated or not. *)
Inductive decimal_text : str → bool → Z → Z → Prop :=
| decimal_intro sg negative ip fr fp ex e :
    signed sg negative → all_digits ip → fraction fr fp → exponent_text ex e → ip ++ fp ≠ [] →
    decimal_text (sg ++ ip ++ fr ++ ex) negative (number 0 (ip ++ fp)) (e - zlen fp).

(** * Proofs *)

(** ** Rounding *)

Lemma round_half_even_spec a b (q := round_half_even a b) :
  0 ≤ a → 0 < b → 0 ≤ q ∧ 2 * Z.abs (a - q * b) ≤ b ∧ (2 * Z.abs (a - q * b) = b → Z.even q = true).
Proof.
  intros Ha Hb. subst q. unfold round_half_even. cbv zeta.
  pose proof (Z.div_mod a b ltac:(lia)). pose proof (Z.mod_pos_bound a b Hb).
  pose proof (Z.div_pos a b Ha Hb).
  destruct (Z.ltb_spec (2 * (a mod b)) b); cbn [orb]; [split_and!; nia |].
  destruct (Z.eqb_spec (2 * (a mod b)) b); cbn [andb]; [| split_and!; nia].
  destruct (Z.even (a / b)) eqn:Heven; [split_and!; [nia.. | done] |].
  split_and!; [nia.. |]. intros _. rewrite Z.add_1_r, Z.even_succ, <-Z.negb_even. by rewrite Heven.
Qed.

(** The rounded multiple of [b] is as near as any other; it is even in a tie. *)
Lemma round_half_even_nearest a b j (q := round_half_even a b) :
  0 ≤ a → 0 < b →
  Z.abs (a - q * b) ≤ Z.abs (a - j * b) ∧
  (Z.abs (a - q * b) = Z.abs (a - j * b) → j ≠ q → Z.even q = true).
Proof.
  intros Ha Hb. destruct (round_half_even_spec a b Ha Hb) as (_ & Hhalf & Htie). fold q in Hhalf, Htie.
  destruct (decide (j = q)) as [-> | Hne]; [split; [lia | done] |].
  assert (b ≤ Z.abs (q * b - j * b)) by (rewrite <-Z.mul_sub_distr_r, Z.abs_mul; nia).
  split; [lia |]. intros Heq _. apply Htie. lia.
Qed.

Lemma SCALE_pos : 0 < SCALE.
Proof. reflexivity. Qed.

Lemma last_bit_spec u (k := last_bit u) :
  0 ≤ u → 0 ≤ k ∧ u < 2 ^ 53 * 2 ^ k ∧ (k = 0 ∨ 2 ^ 52 * 2 ^ k ≤ u).
Proof.
  intros Hu. subst k. unfold last_bit. destruct (Z.ltb_spec u (2 ^ 53)) as [Hlt | Hge].
  - split_and!; [done | lia | by left].
  - pose proof (Z.log2_spec u ltac:(lia)) as [Hlo Hhi].
    assert (53 ≤ Z.log2 u) by (by apply Z.log2_le_pow2; lia).
    rewrite <-!Z.pow_add_r by lia.
    replace (53 + (Z.log2 u - 52)) with (Z.succ (Z.log2 u)) by lia.
    replace (52 + (Z.log2 u - 52)) with (Z.log2 u) by lia. split_and!; [lia.. |]. by right.
Qed.

(** Where [m * 2 ^ k], with [m] of 53 bits, lies between two neighbours. *)
Lemma grid_multiple k m k' :
  0 ≤ k → Z.abs m < 2 ^ 53 → 0 ≤ k' →
  (∃ j, m * 2 ^ k' = j * 2 ^ k) ∨ m * 2 ^ k' < 2 ^ 52 * 2 ^ k ∧ 0 < k.
Proof.
  intros Hk Hm Hk'. destruct (Z.le_gt_cases k k') as [Hle | Hgt].
  - left. exists (m * 2 ^ (k' - k)). rewrite <-Z.mul_assoc, <-Z.pow_add_r by lia. do 2 f_equal. lia.
  - right. split; [| lia]. replace (2 ^ 52 * 2 ^ k) with (2 ^ 53 * 2 ^ k' * 2 ^ (k - 1 - k')).
    + pose proof (Z.pow_pos_nonneg 2 k' ltac:(lia) Hk'). pose proof (Z.pow_pos_nonneg 2 (k - 1 - k') ltac:(lia) ltac:(lia)).
      nia.
    + rewrite <-!Z.pow_add_r by lia. f_equal. lia.
Qed.

(** [nearest] answers a [double] when it does not overflow, and no [double] is
    nearer; when one is as near, the answer is even. *)
Lemma nearest_spec n d :
  0 ≤ n → 0 < d →
  ∃ m k, nearest n d = (m, k) ∧ 0 ≤ k ∧ 0 ≤ m < 2 ^ 53 ∧ (k = 0 ∨ 2 ^ 52 ≤ m) ∧
    ∀ m' k', Z.abs m' < 2 ^ 53 → 0 ≤ k' →
      Z.abs (n * SCALE - m * 2 ^ k * d) ≤ Z.abs (n * SCALE - m' * 2 ^ k' * d) ∧
      (Z.abs (n * SCALE - m * 2 ^ k * d) = Z.abs (n * SCALE - m' * 2 ^ k' * d) →
        m' * 2 ^ k' ≠ m * 2 ^ k → Z.even m = true).
Proof.
  intros Hn Hd. unfold nearest. pose proof SCALE_pos as HS. set (u := n * SCALE).
  assert (0 ≤ u) as Hu by (subst u; nia). clearbody u. cbv zeta.
  pose proof (Z.div_mod u d ltac:(lia)) as Hdm. pose proof (Z.mod_pos_bound u d Hd) as Hmod.
  destruct (last_bit_spec (u / d)) as (Hk & Hhi & Hlo); [by apply Z.div_pos |].
  set (k := last_bit (u / d)) in *. clearbody k.
  pose proof (Z.pow_pos_nonneg 2 k ltac:(lia) Hk) as Hpow.
  assert (u < 2 ^ 53 * 2 ^ k * d) as Hhi' by nia.
  assert (k = 0 ∨ 2 ^ 52 * 2 ^ k * d ≤ u) as Hlo' by (destruct Hlo; [by left | right; nia]).
  assert (0 < d * 2 ^ k) as Hb by nia.
  destruct (round_half_even_spec u (d * 2 ^ k) Hu Hb) as (Hq & Hhalf & _).
  pose proof (λ j, round_half_even_nearest u (d * 2 ^ k) j Hu Hb) as Hnear.
  set (q := round_half_even u (d * 2 ^ k)) in *. clearbody q. clear Hdm Hmod Hhi Hlo.
  assert (∀ m' k', Z.abs m' < 2 ^ 53 → 0 ≤ k' →
    Z.abs (u - q * 2 ^ k * d) ≤ Z.abs (u - m' * 2 ^ k' * d) ∧
    (Z.abs (u - q * 2 ^ k * d) = Z.abs (u - m' * 2 ^ k' * d) → m' * 2 ^ k' ≠ q * 2 ^ k → Z.even q = true)) as Hall.
  { intros m' k' Hm' Hk'. replace (q * 2 ^ k * d) with (q * (d * 2 ^ k)) by ring.
    destruct (grid_multiple k m' k' Hk Hm' Hk') as [[j Hj] | [Hlt Hpos]].
    - rewrite Hj. replace (j * 2 ^ k * d) with (j * (d * 2 ^ k)) by ring.
      destruct (Hnear j) as [Hle Htie]. split; [exact Hle |]. intros Heq Hne.
      apply Htie; [exact Heq |]. by intros ->.
    - destruct Hlo' as [-> | Hlo']; [lia |]. destruct (Hnear (2 ^ 52)) as [Hle _].
      assert (m' * 2 ^ k' * d < 2 ^ 52 * (d * 2 ^ k)) by nia. split; [lia |]. intros. lia. }
  assert (q ≤ 2 ^ 53 ∧ (k = 0 ∨ 2 ^ 52 ≤ q)) as [Hq53 Hq52].
  { split; [nia |]. destruct Hlo'; [by left | right]. nia. }
  destruct (Z.eqb_spec q (2 ^ 53)) as [-> | Hne].
  - exists (2 ^ 52), (k + 1). split; [done |]. split; [lia |]. split; [lia |]. split; [by right |].
    replace (2 ^ 52 * 2 ^ (k + 1)) with (2 ^ 53 * 2 ^ k) by (rewrite Z.pow_add_r by lia; ring).
    intros m' k' Hm' Hk'. destruct (Hall m' k' Hm' Hk'). by split.
  - exists q, k. split; [done |]. split; [lia |]. split; [lia |]. by split.
Qed.

(** *** The end of the range

    The greatest [double] is 2^54 - 2 half steps, and the next value of the grid
    2^54 of them. *)

Definition HALF_STEP : Z := 2 ^ 2044.

Lemma HALF_STEP_pos : 0 < HALF_STEP.
Proof. reflexivity. Qed.

Lemma grid_end m k :
  0 ≤ m < 2 ^ 53 → 0 ≤ k → k = 0 ∨ 2 ^ 52 ≤ m →
  (2046 ≤ k → 2 ^ 54 * HALF_STEP ≤ m * 2 ^ k) ∧
  (k ≤ 2045 → m * 2 ^ k ≤ (2 ^ 54 - 2) * HALF_STEP ∧
    (m * 2 ^ k = (2 ^ 54 - 2) * HALF_STEP → m = 2 ^ 53 - 1)).
Proof.
  intros Hm Hk Hnorm. pose proof HALF_STEP_pos as Hh. split; intros Hlim.
  - destruct Hnorm as [-> | Hnorm]; [lia |].
    assert (4 * HALF_STEP ≤ 2 ^ k) by (transitivity (2 ^ 2046); [done | by apply Z.pow_le_mono_r]). nia.
  - assert (2 ^ k = 2 * HALF_STEP ∨ 2 ^ k ≤ HALF_STEP) as [-> | Hle]; [| split; [nia |] | split; nia].
    + destruct (decide (k = 2045)) as [-> | Hne]; [by left | right]. apply Z.pow_le_mono_r; lia.
    + nia.
Qed.

Lemma beyond_end u d v h :
  0 < d → 0 < h → 2 ^ 54 * h ≤ v → Z.abs (u - v * d) ≤ Z.abs (u - (2 ^ 54 - 2) * h * d) →
  (2 ^ 54 - 1) * h * d ≤ u.
Proof. intros Hd Hh Hv Hle. assert (2 ^ 54 * h * d ≤ v * d) by nia. nia. Qed.

Lemma within_end u d v h :
  0 < d → 0 < h → v ≤ (2 ^ 54 - 2) * h → Z.abs (u - v * d) ≤ Z.abs (u - 2 ^ 54 * h * d) →
  (2 ^ 54 - 1) * h * d ≤ u →
  v = (2 ^ 54 - 2) * h ∧ Z.abs (u - v * d) = Z.abs (u - 2 ^ 54 * h * d).
Proof.
  intros Hd Hh Hv Hle Hu. assert (v * d ≤ (2 ^ 54 - 2) * h * d) as Hvd by nia.
  assert (u < 2 ^ 54 * h * d) by (assert (0 < h * d) by nia; lia).
  assert (v * d = (2 ^ 54 - 2) * h * d) as Heq by lia. apply Z.mul_reg_r in Heq; [| lia].
  split; [done |]. subst v. lia.
Qed.

Lemma overflows_units n d : overflows n d = ((2 ^ 54 - 1) * HALF_STEP * d <=? n * SCALE).
Proof.
  pose proof SCALE_pos. unfold overflows.
  assert ((2 ^ 54 - 1) * HALF_STEP = (2 ^ 1024 - 2 ^ 970) * SCALE) as -> by reflexivity.
  generalize (2 ^ 1024 - 2 ^ 970). intros x. apply eq_true_iff_eq. rewrite !Z.leb_le. split; nia.
Qed.

Lemma overflows_spec n d m k :
  0 ≤ n → 0 < d → nearest n d = (m, k) → (2046 <=? k) = overflows n d.
Proof.
  intros Hn Hd Heq. destruct (nearest_spec n d Hn Hd) as (m1 & k1 & Heq1 & Hk & Hm & Hnorm & Hnear).
  rewrite Heq1 in Heq. injection Heq as -> ->. rewrite overflows_units.
  destruct (grid_end m k Hm Hk Hnorm) as [Hbeyond Hwithin]. pose proof HALF_STEP_pos as Hh.
  destruct (Z.leb_spec 2046 k) as [Hbig | Hsmall]; symmetry; [apply Z.leb_le | apply Z.leb_gt].
  - eapply beyond_end; [done | done | by apply Hbeyond |].
    destruct (Hnear (2 ^ 53 - 1) 2045) as [Hle _]; [lia.. |].
    by replace ((2 ^ 53 - 1) * 2 ^ 2045) with ((2 ^ 54 - 2) * HALF_STEP) in Hle.
  - apply Z.nle_gt. intros Hover. destruct (Hwithin ltac:(lia)) as [Hv Hodd].
    destruct (Hnear (2 ^ 52) 2046) as [Hle Htie]; [lia.. |].
    replace (2 ^ 52 * 2 ^ 2046) with (2 ^ 54 * HALF_STEP) in Hle, Htie by done.
    destruct (within_end _ _ _ _ Hd Hh Hv Hle Hover) as [Hmax Heq].
    assert (Z.even m = true) as Heven by (apply Htie; [done | lia]).
    by rewrite (Hodd Hmax) in Heven.
Qed.

(** *** [spec_float]s *)

Lemma digits2_pos_log2 p : Z.pos (digits2_pos p) = Z.log2 (Z.pos p) + 1.
Proof.
  induction p as [p IH | p IH |]; cbn [digits2_pos]; [| | done]; rewrite Pos2Z.inj_succ, IH.
  - rewrite (Pos2Z.inj_xI p), Z.log2_succ_double by lia. lia.
  - rewrite (Pos2Z.inj_xO p), Z.log2_double by lia. lia.
Qed.

Lemma valid_finite s p e :
  valid_binary 53 1024 (S754_finite s p e) = true ↔
  Z.pos p < 2 ^ 53 ∧ -1074 ≤ e ≤ 971 ∧ (e = -1074 ∨ 2 ^ 52 ≤ Z.pos p).
Proof.
  cbn [valid_binary]. unfold bounded, canonical_mantissa, fexp, emin.
  rewrite digits2_pos_log2, andb_true_iff, Z.eqb_eq, Z.leb_le.
  pose proof (Z.log2_lt_pow2 (Z.pos p) 53 ltac:(lia)). pose proof (Z.log2_le_pow2 (Z.pos p) 52 ltac:(lia)).
  pose proof (Z.log2_nonneg (Z.pos p)). lia.
Qed.

Lemma valid_units g w :
  valid_binary 53 1024 g = true → in_units g = Some w → ∃ m k, w = m * 2 ^ k ∧ Z.abs m < 2 ^ 53 ∧ 0 ≤ k.
Proof.
  destruct g as [s | s | | s p e]; intros Hvalid; cbn [in_units]; intros [= <-].
  - by exists 0, 0.
  - apply valid_finite in Hvalid. eexists _, _. split; [done |]. destruct s; cbn [sign_of]; lia.
Qed.

Section Rounded.
Context (reports : Z → Z → bool).

Lemma to_double_spec negative n d :
  0 ≤ n → 0 < d →
  if overflows n d || underflows n d && reports n d then to_double reports negative n d = DOutOfRange
  else ∃ f, to_double reports negative n d = Double f ∧ nearest_double (sign_of negative * n) d f.
Proof.
  intros Hn Hd. unfold to_double. destruct (nearest_spec n d Hn Hd) as (m & k & Heq & Hk & Hm & Hnorm & Hnear).
  rewrite Heq, (overflows_spec n d m k Hn Hd Heq). destruct (overflows n d) eqn:Hover; [done |].
  rewrite <-(overflows_spec n d m k Hn Hd Heq), Z.leb_gt in Hover. cbn [orb].
  destruct (underflows n d && reports n d); [done |].
  assert (∃ f, match m with
    | Z.pos p => Double (S754_finite negative p (k - 1074)) | _ => Double (S754_zero negative) end = Double f ∧
    valid_binary 53 1024 f = true ∧ in_units f = Some (sign_of negative * m * 2 ^ k) ∧ significand f = m)
    as (f & -> & Hvalid & Hunits & Hsig).
  { destruct m as [| p | p]; [| | lia].
    - exists (S754_zero negative). split_and!; [done | done | | done]. cbn [in_units]. f_equal. ring.
    - eexists. split; [done |]. split_and!; [| | done].
      + apply valid_finite. lia.
      + cbn [in_units]. by rewrite Z.sub_add. }
  exists f. split; [done |]. split; [done |]. eexists. split; [done |]. intros g w Hg Hw.
  destruct (valid_units g w Hg Hw) as (m' & k' & -> & Hm' & Hk'). rewrite Hsig.
  destruct (Hnear (sign_of negative * m') k') as [Hle Htie]; [destruct negative; cbn [sign_of]; lia | done |].
  assert (∀ x y z, Z.abs (sign_of negative * n * SCALE - sign_of negative * x * y * z) =
    Z.abs (n * SCALE - x * y * z)) as Habs.
  { intros x y z. destruct negative; cbn [sign_of]; lia. }
  specialize (Habs m (2 ^ k) d) as ->.
  replace (Z.abs (sign_of negative * n * SCALE - m' * 2 ^ k' * d))
    with (Z.abs (n * SCALE - sign_of negative * m' * 2 ^ k' * d)) by (destruct negative; cbn [sign_of]; lia).
  split; [done |]. intros Heq' Hne. apply Htie; [done |]. intros Heq2. apply Hne. destruct negative; cbn [sign_of] in *; lia.
Qed.
End Rounded.

(** ** Reading decimal texts *)

Lemma digit_range c d : digit c = Some d → 0 ≤ d ≤ 9.
Proof.
  unfold digit. destruct (_ && _) eqn:Hc; [| done]. intros [= <-].
  apply andb_true_iff in Hc as [?%Nat.leb_le ?%Nat.leb_le]. lia.
Qed.

Lemma number_nonneg acc ds : 0 ≤ acc → 0 ≤ number acc ds.
Proof.
  revert acc. induction ds as [| c ds IH]; intros acc Hacc; cbn [number]; [done |]. apply IH.
  destruct (digit c) as [d |] eqn:Hc; simpl; [apply digit_range in Hc |]; lia.
Qed.

Lemma number_app acc a b : number acc (a ++ b) = number (number acc a) b.
Proof. revert acc. induction a as [| c a IH]; intros acc; [done | apply IH]. Qed.

(** What a digit or a point is not. *)
Lemma numeric_char c :
  is_Some (digit c) ∨ c = "." →
  is_space c = false ∧ c ≠ "-" ∧ c ≠ "+" ∧ lower c ≠ "i" ∧ lower c ≠ "n" ∧ lower c ≠ "x".
Proof.
  intros [Hc | ->]; [| by_evaluation].
  revert Hc. destruct c as [[] [] [] [] [] [] [] []]; vm_compute;
    ((by intros [? [=]]) || (intros _; split_and!; congruence)).
Qed.

Lemma read_sign_none c s : c ≠ "-" → c ≠ "+" → read_sign (c :: s) = (1, c :: s).
Proof. intros Hm Hp. unfold read_sign. destruct c as [[] [] [] [] [] [] [] []]; congruence. Qed.

Lemma read_sign_signed sg negative c s :
  signed sg negative → c ≠ "-" → c ≠ "+" → read_sign (sg ++ c :: s) = (sign_of negative, c :: s).
Proof. intros [] Hm Hp; [by apply read_sign_none | done | done]. Qed.

Lemma mantissa_digits point m f seen ds rest :
  all_digits ds →
  mantissa digit 10 point m f seen (ds ++ rest) =
    mantissa digit 10 point (number m ds) (if point then f + zlen ds else f)
      (seen || negb (bool_decide (ds = []))) rest.
Proof.
  intros Hds. revert m f seen. induction Hds as [| c ds [d Hd] Hds IH]; intros m f seen.
  - cbn [app number]. rewrite bool_decide_eq_true_2, orb_false_r by done. f_equal.
    simpl. destruct point; lia.
  - cbn [app mantissa number]. rewrite Hd. cbn [from_option]. rewrite IH.
    rewrite (bool_decide_eq_false_2 (c :: ds = [])), orb_true_r by done. cbn [orb negb]. f_equal.
    cbn [length]. destruct point; lia.
Qed.

Lemma digits_number acc seen ds rest :
  all_digits ds → (seen = true ∨ ds ≠ []) → (∀ c s, rest = c :: s → digit c = None) →
  digits acc seen (ds ++ rest) = Some (number acc ds).
Proof.
  intros Hds. revert acc seen. induction Hds as [| c ds [d Hd] Hds IH]; intros acc seen Hseen Hrest; cbn [app digits number].
  - destruct Hseen as [-> | Hne]; [| done]. destruct rest as [| c s]; [done |]. cbn [digits].
    by rewrite (Hrest c s).
  - rewrite Hd. cbn [from_option]. apply IH; [by left | done].
Qed.

Lemma exponent_text_spec ex e : exponent_text ex e → exponent "e" ex = e.
Proof.
  intros [| c sg negative ds Hc Hsg Hds Hne]; [done |]. cbn [exponent].
  rewrite bool_decide_eq_true_2 by done. destruct Hds as [| d ds Hd Hds]; [done |].
  destruct (numeric_char d) as (_ & Hm & Hp & _); [by left |]. rewrite (read_sign_signed _ negative) by done.
  pose proof (digits_number 0 false (d :: ds) []) as Hdig. rewrite app_nil_r in Hdig.
  rewrite Hdig; [done | by constructor | by right | done].
Qed.

(** The digits stop before an exponent. *)
Lemma mantissa_exponent m f ex e point :
  exponent_text ex e → mantissa digit 10 point m f true ex = Some (m, f, ex).
Proof.
  intros [| c sg negative ds Hc _ _ _]; [done |]. cbn [mantissa].
  assert (digit c = None ∧ c ≠ ".") as [-> Hp].
  { revert Hc. destruct c as [[] [] [] [] [] [] [] []]; vm_compute; intros; split; congruence. }
  by rewrite bool_decide_eq_false_2.
Qed.

Lemma mantissa_decimal ip fr fp ex e :
  all_digits ip → fraction fr fp → exponent_text ex e → ip ++ fp ≠ [] →
  mantissa digit 10 false 0 0 false (ip ++ fr ++ ex) = Some (number 0 (ip ++ fp), zlen fp, ex).
Proof.
  intros Hip Hfr Hex Hne. rewrite mantissa_digits by done. destruct Hfr as [| fp Hfp]; cbn [app].
  - rewrite app_nil_r in *. rewrite bool_decide_eq_false_2 by done. cbn [orb negb].
    by erewrite mantissa_exponent.
  - cbn [mantissa]. change (digit ".") with (@None Z). cbn match.
    rewrite (bool_decide_eq_true_2 ("." = ".")) by done. cbn [andb negb].
    rewrite mantissa_digits by done.
    assert ((false || negb (bool_decide (ip = []))) || negb (bool_decide (fp = [])) = true) as ->.
    { destruct ip; [destruct fp |]; done. }
    erewrite mantissa_exponent by done. by rewrite number_app.
Qed.

(** The first two characters of such a text, after the sign. *)
Lemma decimal_head_chars ip fr fp ex e :
  all_digits ip → fraction fr fp → exponent_text ex e → ip ++ fp ≠ [] →
  ∃ c r, ip ++ fr ++ ex = c :: r ∧ (is_Some (digit c) ∨ c = ".") ∧
    (∀ x s, r = x :: s → lower x ≠ "x").
Proof.
  intros Hip Hfr Hex Hne.
  assert (∀ x s, ex = x :: s → lower x ≠ "x") as Hexx.
  { intros x s ->. inversion Hex as [| ? ? ? ? Hlow]; subst. by rewrite Hlow. }
  assert (∀ ds rest, all_digits ds → (∀ x s, rest = x :: s → lower x ≠ "x") →
    ∀ x s, ds ++ rest = x :: s → lower x ≠ "x") as Hdigits.
  { intros ds rest Hds Hrest x s. destruct Hds as [| d ds Hd Hds]; [apply Hrest |]. intros [= <- _].
    apply numeric_char. by left. }
  destruct Hip as [| d ip Hd Hip].
  - destruct Hfr as [| fp Hfp]; [done |]. eexists _, _. split; [done |]. split; [by right |].
    by apply Hdigits.
  - eexists _, _. split; [done |]. split; [by left |]. apply Hdigits; [done |].
    destruct Hfr as [| fp Hfp]; [done |]. intros x s [= <- _]. done.
Qed.

Lemma decimal_text_head text negative m x :
  decimal_text text negative m x →
  ∃ c r, text = c :: r ∧ (is_Some (digit c) ∨ c = "." ∨ c = "-" ∨ c = "+").
Proof.
  intros [sg neg ip fr fp ex e Hsg Hip Hfr Hex Hne].
  destruct (decimal_head_chars ip fr fp ex e Hip Hfr Hex Hne) as (c & r & -> & Hc & _).
  destruct Hsg; eexists _, _; (split; [done |]); [| by right; right; right | by right; right; left].
  destruct Hc; [by left | by right; left].
Qed.

Lemma starts_with_other c p x s : lower x ≠ c → starts_with (c :: p) (x :: s) = false.
Proof. intros Hne. cbn [starts_with]. by rewrite bool_decide_eq_false_2. Qed.

Lemma scaled_pos m x : 0 ≤ m → 0 ≤ (scaled 10 m x).1 ∧ 0 < (scaled 10 m x).2.
Proof.
  intros Hm. unfold scaled. destruct (Z.leb_spec 0 x); cbn [fst snd].
  - pose proof (Z.pow_pos_nonneg 10 x). nia.
  - pose proof (Z.pow_pos_nonneg 10 (- x)). lia.
Qed.

Section Stod_decimal.
Context (reports : Z → Z → bool).

Lemma stod_decimal text negative m x :
  decimal_text text negative m x →
  stod reports text = to_double reports negative (scaled 10 m x).1 (scaled 10 m x).2.
Proof.
  intros [sg neg ip fr fp ex e Hsg Hip Hfr Hex Hne]. unfold stod.
  destruct (decimal_head_chars ip fr fp ex e Hip Hfr Hex Hne) as (c & r & Heq & Hc & Hr).
  destruct (numeric_char c Hc) as (Hsp & Hm & Hp & Hi & Hn & _).
  assert (skip_spaces (sg ++ ip ++ fr ++ ex) = sg ++ c :: r) as ->.
  { rewrite Heq. destruct Hsg; [| done | done]. cbn [app skip_spaces]. by rewrite Hsp. }
  rewrite (read_sign_signed sg neg) by done.
  assert ((sign_of neg <? 0) = neg) as -> by by destruct neg.
  change (lit "inf") with ["i"; "n"; "f"]. change (lit "nan") with ["n"; "a"; "n"]. change (lit "0x") with ["0"; "x"].
  rewrite !starts_with_other by done.
  assert (starts_with ["0"; "x"] (c :: r) = false) as ->.
  { cbn [starts_with]. apply andb_false_intro2. destruct r as [| y r]; [done |].
    by rewrite bool_decide_eq_false_2 by by eapply Hr. }
  unfold decimal_value. rewrite <-Heq, (mantissa_decimal ip fr fp ex e) by done.
  rewrite (exponent_text_spec ex e) by done. by destruct (scaled _ _ _).
Qed.

(** [std::stod] rounds what a decimal text says to the nearest [double]; it
    throws [out_of_range] beyond the end of the range, and may throw it for a
    result that underflows. *)
Lemma stod_nearest text negative m x (n := (scaled 10 m x).1) (d := (scaled 10 m x).2) :
  decimal_text text negative m x →
  if overflows n d || underflows n d && reports n d then stod reports text = DOutOfRange
  else ∃ f, stod reports text = Double f ∧ nearest_double (sign_of negative * n) d f.
Proof.
  intros Ht. rewrite (stod_decimal _ _ _ _ Ht). subst n d.
  assert (0 ≤ m) as Hm by (destruct Ht; by apply number_nonneg).
  destruct (scaled_pos m x Hm). by apply to_double_spec.
Qed.
End Stod_decimal.

(** ** Decimal notation *)

Lemma digit_digit_char d : 0 ≤ d < 10 → digit (digit_char d) = Some d.
Proof.
  intros Hd. assert (d ∈ seqZ 0 10) as Hin by (apply elem_of_seqZ; lia). revert d Hd Hin.
  enough (Forall (λ d, digit (digit_char d) = Some d) (seqZ 0 10)) as H
    by (intros d _ Hin; by apply (proj1 (Forall_forall _ _) H)).
  by_evaluation.
Qed.

Lemma decimal_digits fuel n : 0 ≤ n → all_digits (decimal fuel n).
Proof.
  revert n. induction fuel as [| fuel IH]; intros n Hn; [constructor |]. cbn [decimal].
  destruct (Z.ltb_spec n 10).
  - constructor; [| constructor]. rewrite digit_digit_char by lia. eauto.
  - apply Forall_app. split; [apply IH, Z.div_pos; lia |]. constructor; [| constructor].
    rewrite digit_digit_char by (apply Z.mod_pos_bound; lia). eauto.
Qed.

Lemma decimal_number fuel n :
  0 ≤ n < 10 ^ Z.of_nat fuel → number 0 (decimal fuel n) = n.
Proof.
  revert n. induction fuel as [| fuel IH]; intros n Hn; cbn [decimal number]; [simpl in Hn; lia |].
  destruct (Z.ltb_spec n 10).
  - cbn [number]. rewrite digit_digit_char by lia. done.
  - rewrite number_app, IH.
    + cbn [number]. rewrite digit_digit_char by (apply Z.mod_pos_bound; lia). cbn [from_option].
      pose proof (Z.div_mod n 10). unfold id. lia.
    + split; [apply Z.div_pos; lia |]. apply Z.div_lt_upper_bound; [lia |].
      rewrite Nat2Z.inj_succ, Z.pow_succ_r in Hn by lia. lia.
Qed.

Lemma decimal_cons fuel n : (0 < fuel)%nat → decimal fuel n ≠ [].
Proof.
  destruct fuel as [| fuel]; [lia |]. intros _. cbn [decimal]. destruct (n <? 10); [done |].
  by destruct (decimal fuel (n / 10)).
Qed.

(** The decimal notation of a natural number, whatever its size. *)
Definition show (n : Z) : str := decimal (S (Z.to_nat (Z.log2 n))) n.

Lemma show_digits n : 0 ≤ n → all_digits (show n).
Proof. apply decimal_digits. Qed.

Lemma show_cons n : show n ≠ [].
Proof. apply decimal_cons. lia. Qed.

Lemma show_number n : 0 ≤ n → number 0 (show n) = n.
Proof.
  intros Hn. apply decimal_number. split; [done |].
  destruct (decide (n = 0)) as [-> |]; [done |]. pose proof (Z.log2_nonneg n).
  rewrite Nat2Z.inj_succ, Z2Nat.id by done. eapply Z.lt_le_trans; [apply Z.log2_spec; lia |].
  apply Z.pow_le_mono_l. lia.
Qed.

(** [std::stoi] reads back an [int], and throws on a larger number. *)
Lemma stoi_show n : 0 ≤ n → stoi (show n) = if n <? 2 ^ 31 then Int n else OutOfRange.
Proof.
  intros Hn. unfold stoi. pose proof (show_digits n Hn) as Hd. pose proof (show_cons n) as Hne.
  pose proof (digits_number 0 false (show n) [] Hd (or_intror Hne)) as Hdig.
  rewrite app_nil_r, show_number in Hdig by done.
  destruct Hd as [| c ds Hc Hds]; [done |].
  destruct (numeric_char c) as (Hsp & Hm & Hp & _); [by left |].
  cbn [skip_spaces]. rewrite Hsp, read_sign_none, Hdig, Z.mul_1_l by done.
  destruct (Z.ltb_spec n (2 ^ 31)).
  - by rewrite (proj2 (in_i32b_spec n)) by (unfold in_i32; lia).
  - destruct (in_i32b n) eqn:Hb; [| done]. apply in_i32b_spec in Hb. unfold in_i32 in Hb. lia.
Qed.
