(* ===== verification/Toml.v ===== *)
(** * Toml: the configuration parser

    Models [src/include/fiah/utils/TomlParser.hh] and
    [src/include/fiah/io/Config.hh].  A string is a list of characters; a file is
    its contents, or [None] when it cannot be opened.  [npos] is [None]. *)

From stdpp Require Import base tactics numbers list option gmap strings.
From Stdlib Require Import ZArith Lia Ascii SpecFloat.
From S2P Require Import Prelude Text Stod.
#[local] Open Scope char_scope.
#[local] Open Scope Z_scope.
#[local] Open Scope fiah_scope.

Definition QUOTE : ascii := chr 34.
Definition APOSTROPHE : ascii := chr 39.

(** The characters of [find_first_not_of] and [find_last_not_of]: space, tab,
    carriage return, newline. *)
Definition is_blank (c : ascii) : bool :=
  bool_decide (c = " ") || bool_decide (c = chr 9) || bool_decide (c = chr 13) ||
  bool_decide (c = NEWLINE).
Definition not_blank (c : ascii) : bool := negb (is_blank c).

(** ** [std::string] *)

(** [s.erase(0, s.find_first_not_of(ws))]: [npos] erases everything *)
Definition trim_left (s : str) : str :=
  match find_if not_blank s with Some n => drop n s | None => [] end.

(** [s.erase(s.find_last_not_of(ws) + 1)]: [npos + 1] is 0 *)
Definition trim_right (s : str) : str :=
  match find_last_if not_blank s with Some n => take (S n) s | None => [] end.

(** [s.substr(0, pos)] where [pos] may be [npos] *)
Definition prefix_to (pos : option nat) (s : str) : str :=
  match pos with Some n => take n s | None => s end.

(** [val.size() >= 2] and both ends are the same kind of quote *)
Definition is_quoted (val : str) : bool :=
  (2 <=? length val)%nat &&
  ((bool_decide (head val = Some QUOTE) && bool_decide (last val = Some QUOTE)) ||
   (bool_decide (head val = Some APOSTROPHE) && bool_decide (last val = Some APOSTROPHE))).

(** [val.substr(1, val.size() - 2)] *)
Definition unquote (val : str) : str := take (length val - 2) (drop 1 val).

(** ** [TomlParser] *)

Inductive TomlParserError : Type :=
| FILE_NOT_FOUND | PARSE_ERROR | KEY_NOT_FOUND | TYPE_MISMATCH | INVALID_TOML.

#[export] Instance TomlParserError_eq_dec : EqDecision TomlParserError.
Proof. solve_decision. Defined.

Record TomlParser : Type := MkParser {
  m_filepath : str;
  m_sections : list str;
  m_keys : gmap str (gmap str str)
}.

Definition new_parser (path : str) : TomlParser := MkParser path [] ∅.
Definition default_parser : TomlParser := new_parser (lit "etc/config.toml").

(** A file system: the contents of the files that can be opened. *)
Abbreviation files := (gmap str str).

(** [m_keys[section].emplace(key, val)]: an existing key keeps its value *)
Definition emplace (keys : gmap str (gmap str str)) (section key val : str) : gmap str (gmap str str) :=
  let m := default ∅ (keys !! section) in
  <[section := match m !! key with Some _ => m | None => <[key := val]> m end]> keys.

(** The value of an entry, from the text right of the equal sign. *)
Definition parse_value (val : str) : str :=
  let val := trim_right (trim_left val) in
  let val :=
    match find "#" val with
    | Some n => trim_left (trim_right (take n val))
    | None => val
    end in
  if is_quoted val then unquote val else val.

(** The section name of a header line. *)
Definition parse_section (line : str) (left_bracket : nat) : str :=
  let section := drop (left_bracket + 1) line in
  let section := prefix_to (find "]" section) section in
  trim_right (trim_left section).

(** One turn of the loop: the parser, the current section, and whether it goes
    on or returns [PARSE_ERROR]. *)
Definition parse_line (t : TomlParser) (current_section line : str) : option (TomlParser * str) :=
  let line := trim_left line in
  match line with
  | [] => Some (t, current_section)
  | _ =>
      let line := trim_right line in
      if bool_decide (head line = Some "#") then Some (t, current_section)
      else
        match find "[" line with
        | Some left_bracket =>
            let section := parse_section line left_bracket in
            Some (MkParser (m_filepath t) (m_sections t ++ [section]) (m_keys t), section)
        | None =>
            match find "=" line with
            | None => None
            | Some equal_sign =>
                match current_section with
                | [] => None
                | _ =>
                    let key := trim_right (trim_left (take equal_sign line)) in
                    let val := parse_value (drop (equal_sign + 1) line) in
                    Some (MkParser (m_filepath t) (m_sections t) (emplace (m_keys t) current_section key val),
                          current_section)
                end
            end
        end
  end.

(** What was parsed before an error stays in the parser. *)
Fixpoint extract_lines (t : TomlParser) (current_section : str) (lines : list str)
  : TomlParser * (bool + TomlParserError) :=
  match lines with
  | [] => (t, inl true)
  | line :: lines =>
      match parse_line t current_section line with
      | Some (t, current_section) => extract_lines t current_section lines
      | None => (t, inr PARSE_ERROR)
      end
  end.

Definition extract_keys (t : TomlParser) (content : str) : TomlParser * (bool + TomlParserError) :=
  extract_lines t [] (split_lines [] content).

Definition load (fs : files) (t : TomlParser) : TomlParser * (bool + TomlParserError) :=
  match fs !! m_filepath t with
  | None => (t, inr FILE_NOT_FOUND)
  | Some content =>
      match extract_keys t content with
      | (t, inr _) => (t, inr PARSE_ERROR)
      | (t, inl _) => (t, inl true)
      end
  end.

Definition is_valid (t : TomlParser) (content : str) : bool + TomlParserError := inr INVALID_TOML.

Definition get_value (t : TomlParser) (section key : str) : option str :=
  match m_keys t !! section with None => None | Some m => m !! key end.

(** A dotted key, [section.key]; the empty string when there is none. *)
Definition get_string (t : TomlParser) (key : str) : str :=
  match find "." key with
  | None => []
  | Some dot =>
      match m_keys t !! take dot key with
      | None => []
      | Some m =>
          match m !! drop (dot + 1) key with
          | None => []
          | Some val => if is_quoted val then unquote val else val
          end
      end
  end.

Definition get_int (t : TomlParser) (key : str) : Z :=
  match get_string t key with
  | [] => 0
  | s => match stoi s with Int z => z | _ => 0 end
  end.

(** What [strtod] reports of an underflow is the implementation's choice. *)
Definition get_double (reports : Z → Z → bool) (t : TomlParser) (key : str) : spec_float :=
  match get_string t key with
  | [] => S754_zero false
  | s => match stod reports s with Double f => f | _ => S754_zero false end
  end.

(** ** [Config] *)

Record Config : Type := MkConfig { m_config_path : str; m_parser : TomlParser }.

Definition default_config : Config := MkConfig [] default_parser.
Definition new_config (path : str) : Config := MkConfig path (new_parser path).

(** The configuration after the call, and its result. *)
Definition parse_config (fs : files) (c : Config) : Config * bool :=
  match load fs (m_parser c) with
  | (t, inl success) => (MkConfig (m_config_path c) t, success)
  | (t, inr _) => (MkConfig (m_config_path c) t, false)
  end.

Definition get_market_ip (c : Config) : str :=
  default [] (get_value (m_parser c) (lit "network") (lit "ip")).

Definition get_market_port (c : Config) : Z :=
  match get_value (m_parser c) (lit "network") (lit "port") with
  | None => 0
  | Some s =>
      match stoi s with
      | Int val => if val <? 0 then 0 else u16 val
      | _ => 0
      end
  end.

(** * Proofs *)

(** ** Searching and trimming *)

Lemma find_if_app (p : ascii → bool) a x b :
  Forall (λ c, p c = false) a → p x = true → find_if p (a ++ x :: b) = Some (length a).
Proof. intros Ha Hx. induction Ha as [| c a Hc Ha IH]; simpl; [by rewrite Hx |]. by rewrite Hc, IH. Qed.

Lemma find_if_none (p : ascii → bool) s : Forall (λ c, p c = false) s → find_if p s = None.
Proof. induction 1 as [| c s Hc Hs IH]; simpl; [done |]. by rewrite Hc, IH. Qed.

Definition blanks (w : str) : Prop := Forall (λ c, is_blank c = true) w.

Lemma blanks_not (w : str) : blanks w → Forall (λ c, not_blank c = false) w.
Proof. intros Hw. eapply Forall_impl; [exact Hw |]. intros c Hc. unfold not_blank. by rewrite Hc. Qed.

(** A text that does not start, and does not end, with a blank. *)
Definition clean (x : str) : Prop :=
  x = [] ∨ (∃ c r, x = c :: r ∧ is_blank c = false) ∧ (∃ r c, x = r ++ [c] ∧ is_blank c = false).

Lemma trim_left_blanks w : blanks w → trim_left w = [].
Proof. intros Hw. unfold trim_left. by rewrite find_if_none by by apply blanks_not. Qed.

Lemma trim_left_app w c x : blanks w → is_blank c = false → trim_left (w ++ c :: x) = c :: x.
Proof.
  intros Hw Hc. unfold trim_left. rewrite find_if_app.
  - by rewrite drop_app_length.
  - by apply blanks_not.
  - unfold not_blank. by rewrite Hc.
Qed.

Lemma trim_right_blanks w : blanks w → trim_right w = [].
Proof.
  intros Hw. unfold trim_right, find_last_if. rewrite find_if_none; [done |].
  by apply blanks_not, Forall_reverse.
Qed.

Lemma trim_right_app x c w : blanks w → is_blank c = false → trim_right (x ++ c :: w) = x ++ [c].
Proof.
  intros Hw Hc. unfold trim_right, find_last_if.
  rewrite reverse_app, reverse_cons, <-(assoc_L (++)). simpl. rewrite find_if_app.
  - simpl. rewrite length_reverse, !length_app. simpl.
    replace (S (length x + S (length w) - 1 - length w)) with (length (x ++ [c]))
      by (rewrite length_app; simpl; lia).
    rewrite (cons_middle c x w) || rewrite (cons_middle c x). rewrite (assoc_L (++)).
    by rewrite take_app_length.
  - by apply blanks_not, Forall_reverse.
  - unfold not_blank. by rewrite Hc.
Qed.

(** Trimming either way round strips the blanks around a clean text. *)
Lemma trim_clean w1 x w2 :
  blanks w1 → blanks w2 → clean x → trim_right (trim_left (w1 ++ x ++ w2)) = x.
Proof.
  intros H1 H2 [-> | [(c & r & Hx & Hc) (r' & c' & Hx' & Hc')]].
  - simpl. rewrite trim_left_blanks; [done |]. by apply Forall_app.
  - rewrite Hx at 1. simpl. rewrite trim_left_app by done. rewrite app_comm_cons, <-Hx, Hx'.
    rewrite <-(assoc_L (++)). simpl. by rewrite trim_right_app.
Qed.

Lemma trim_clean' w1 x w2 :
  blanks w1 → blanks w2 → clean x → trim_left (trim_right (w1 ++ x ++ w2)) = x.
Proof.
  intros H1 H2 [-> | [(c & r & Hx & Hc) (r' & c' & Hx' & Hc')]].
  - simpl. rewrite trim_right_blanks; [done |]. by apply Forall_app.
  - rewrite Hx', <-(assoc_L (++)). simpl. rewrite (assoc_L (++)), trim_right_app by done.
    rewrite <-(assoc_L (++)), <-Hx', Hx. by rewrite trim_left_app.
Qed.

(** Every text is a part that ends in a non-blank, and blanks. *)
Lemma split_right s : ∃ s' w, s = s' ++ w ∧ blanks w ∧ (s' = [] ∨ ∃ r c, s' = r ++ [c] ∧ is_blank c = false).
Proof.
  induction s as [| x s IH] using rev_ind.
  { exists [], []. split_and!; [done | constructor | by left]. }
  destruct (is_blank x) eqn:Hx.
  - destruct IH as (s' & w & -> & Hw & Hs'). exists s', (w ++ [x]). rewrite (assoc_L (++)).
    split_and!; [done | apply Forall_app; split; [done | constructor; [done | constructor]] | done].
  - exists (s ++ [x]), []. rewrite app_nil_r. split_and!; [done | constructor | right; eauto].
Qed.

(** Trimming the end of a line leaves everything up to a non-blank alone. *)
Lemma trim_right_keep a c b : is_blank c = false →
  ∃ b' w, trim_right (a ++ c :: b) = a ++ c :: b' ∧ b = b' ++ w ∧ blanks w.
Proof.
  intros Hc. destruct (split_right b) as (b' & w & -> & Hw & Hb'). exists b', w.
  split_and!; [| done | done]. destruct Hb' as [-> | (r & x & -> & Hx)].
  - by apply trim_right_app.
  - rewrite <-(assoc_L (++)), (app_comm_cons r), (assoc_L (++)). simpl.
    rewrite trim_right_app by done. by rewrite <-(assoc_L (++)).
Qed.

(** ** The grammar

    What one line of a file means, independently of how it is parsed. *)

Inductive item : Type := Nothing | Section_ (name : str) | Entry (key val : str) | Junk.

(** A value as it is written: bare, or between quotes. *)
Inductive written : str → str → Prop :=
| written_bare v : clean v → is_quoted v = false → written v v
| written_quoted q v : q = QUOTE ∨ q = APOSTROPHE → written v (q :: v ++ [q]).

(** The text right of the equal sign: blanks, the value, blanks, a comment. *)
Inductive value_text (v : str) : str → Prop :=
| value_plain w1 x w2 : blanks w1 → blanks w2 → written v x → "#" ∉ x →
    value_text v (w1 ++ x ++ w2)
| value_comment w1 x w2 c : blanks w1 → blanks w2 → written v x → "#" ∉ x →
    value_text v (w1 ++ x ++ w2 ++ "#" :: c).

(** What may stand first in a line that is not blank and no comment. *)
Definition no_comment (s : str) : Prop :=
  match s with [] => True | c :: _ => is_blank c = false ∧ c ≠ "#" end.

(** A bracket anywhere makes a header, whose name ends at a closing bracket or
    with the line; other lines are entries up to their first equal sign, an empty
    key included; a line with neither is junk. *)
Inductive line_of : item → str → Prop :=
| line_blank w : blanks w → line_of Nothing w
| line_comment w c : blanks w → line_of Nothing (w ++ "#" :: c)
| line_section w0 pre w1 name w2 rest :
    blanks w0 → no_comment pre → "[" ∉ pre → blanks w1 → blanks w2 → clean name → "]" ∉ name →
    (rest = [] ∨ head rest = Some "]") →
    line_of (Section_ name) (w0 ++ pre ++ "[" :: w1 ++ name ++ w2 ++ rest)
| line_entry w0 key w1 R v :
    blanks w0 → blanks w1 → clean key → head key ≠ Some "#" →
    "[" ∉ key → "=" ∉ key → "[" ∉ R → value_text v R →
    line_of (Entry key v) (w0 ++ key ++ w1 ++ "=" :: R)
| line_junk w0 x w1 :
    blanks w0 → blanks w1 → clean x → x ≠ [] → head x ≠ Some "#" → "[" ∉ x → "=" ∉ x →
    line_of Junk (w0 ++ x ++ w1).

(** The lines of a file; the last may lack its newline. *)
Inductive lines_of (content : str) : list str → Prop :=
| lines_closed lines : Forall (λ l, NEWLINE ∉ l) lines → content = unlines lines → lines_of content lines
| lines_open lines l : Forall (λ l, NEWLINE ∉ l) lines → NEWLINE ∉ l → l ≠ [] →
    content = unlines lines ++ l → lines_of content (lines ++ [l]).

(** The entries of a file in order, with their sections; [None] for a file with
    junk, or with an entry outside a section. *)
Fixpoint meaning (section : str) (items : list item) : option (list (str * str * str)) :=
  match items with
  | [] => Some []
  | Nothing :: items => meaning section items
  | Section_ name :: items => meaning name items
  | Entry key val :: items =>
      match section with [] => None | _ => cons (section, key, val) <$> meaning section items end
  | Junk :: _ => None
  end.

(** The first entry for a key of a section. *)
Fixpoint first_entry (section key : str) (es : list (str * str * str)) : option str :=
  match es with
  | [] => None
  | (s, k, v) :: es =>
      if bool_decide (s = section ∧ k = key) then Some v else first_entry section key es
  end.

Definition item_step (t : TomlParser) (current_section : str) (i : item) : option (TomlParser * str) :=
  match i with
  | Nothing => Some (t, current_section)
  | Section_ name => Some (MkParser (m_filepath t) (m_sections t ++ [name]) (m_keys t), name)
  | Entry key val =>
      match current_section with
      | [] => None
      | _ => Some (MkParser (m_filepath t) (m_sections t) (emplace (m_keys t) current_section key val), current_section)
      end
  | Junk => None
  end.

(** ** One line *)

Lemma not_in_find c s : c ∉ s → find c s = None.
Proof.
  intros Hc. apply find_if_none, Forall_forall. intros x Hx. apply bool_decide_eq_false. by intros ->.
Qed.

Lemma find_first c a b : c ∉ a → find c (a ++ c :: b) = Some (length a).
Proof.
  intros Hc. apply find_if_app; [| by apply bool_decide_eq_true].
  apply Forall_forall. intros x Hx. apply bool_decide_eq_false. by intros ->.
Qed.

Lemma blanks_not_in c w : blanks w → is_blank c = false → c ∉ w.
Proof. intros Hw Hc Hin. unfold blanks in Hw. rewrite Forall_forall in Hw. by rewrite (Hw c Hin) in Hc. Qed.

Lemma clean_head x : clean x → x ≠ [] → ∃ c r, x = c :: r ∧ is_blank c = false.
Proof. intros [? | [? _]]; done. Qed.

Lemma quote_not_blank q : q = QUOTE ∨ q = APOSTROPHE → is_blank q = false.
Proof. by intros [-> | ->]. Qed.

Lemma written_clean v x : written v x → clean x.
Proof.
  destruct 1 as [v Hv _ | q v Hq]; [done |]. right. pose proof (quote_not_blank q Hq).
  split; [by exists q, (v ++ [q]) | by exists (q :: v), q].
Qed.

(** Unquoting what is written gives the value. *)
Lemma written_value v x : written v x → (if is_quoted x then unquote x else x) = v.
Proof.
  destruct 1 as [v _ Hq | q v Hq]; [by rewrite Hq |].
  assert (is_quoted (q :: v ++ [q]) = true) as ->.
  { unfold is_quoted. rewrite app_comm_cons, last_snoc. simpl. rewrite length_app, Nat.add_1_r.
    by destruct Hq as [-> | ->]. }
  unfold unquote. cbn [length drop]. rewrite length_app. cbn [length].
  replace (S (length v + 1) - 2)%nat with (length v) by lia. by rewrite drop_0, take_app_length.
Qed.

(** The value as the code cuts it out, when a comment follows. *)
Lemma cut_comment w1 x w2 C :
  blanks w1 → blanks w2 → clean x → "#" ∉ x →
  ∃ A C', trim_right (trim_left (w1 ++ x ++ w2 ++ "#" :: C)) = A ++ "#" :: C' ∧ ("#" ∉ A) ∧
    trim_left (trim_right A) = x.
Proof.
  intros H1 H2 Hx Hn. assert (∃ A, trim_left (w1 ++ x ++ w2 ++ "#" :: C) = A ++ "#" :: C ∧
    ("#" ∉ A) ∧ trim_left (trim_right A) = x) as (A & -> & HA & Hcut).
  { destruct Hx as [-> | Hx].
    - exists []. simpl. rewrite (assoc_L (++)), trim_left_app by (done || by apply Forall_app).
      split_and!; [done | by apply not_elem_of_nil | done].
    - exists (x ++ w2). pose proof Hx as [(c & r & Heq & Hc) _].
      rewrite Heq at 1. simpl. rewrite trim_left_app, app_comm_cons, <-Heq, (assoc_L (++)) by done.
      split_and!; [done | |].
      + apply not_elem_of_app. split; [done | by apply blanks_not_in].
      + apply (trim_clean' [] x w2); [constructor | done | by right]. }
  destruct (trim_right_keep A "#" C) as (C' & w & -> & _ & _); [done |].
  exists A, C'. done.
Qed.

Lemma parse_value_correct v R w : value_text v R → blanks w → parse_value (R ++ w) = v.
Proof.
  intros HR Hw. unfold parse_value. destruct HR as [w1 x w2 H1 H2 Hx Hc | w1 x w2 c H1 H2 Hx Hc].
  - rewrite <-!(assoc_L (++)), trim_clean; [| done | by apply Forall_app | by eapply written_clean].
    rewrite not_in_find by done. by apply written_value.
  - rewrite <-!(assoc_L (++)). simpl.
    destruct (cut_comment w1 x w2 (c ++ w) H1 H2 (written_clean _ _ Hx) Hc) as (A & C' & -> & HA & Hcut).
    rewrite find_first by done. rewrite take_app_length, Hcut. by apply written_value.
Qed.

(** Blanks at the end change nothing. *)
Lemma trim_right_blanks_end s w : blanks w → trim_right (s ++ w) = trim_right s.
Proof.
  intros Hw. destruct (split_right s) as (s' & w' & -> & Hw' & [-> | (r & c & -> & Hc)]).
  - rewrite !trim_right_blanks; [done | done | by apply Forall_app].
  - rewrite <-!(assoc_L (++)). simpl. rewrite !trim_right_app by (done || by apply Forall_app). done.
Qed.

Lemma find_if_app_some p s w n : find_if p s = Some n → find_if p (s ++ w) = Some n ∧ (n < length s)%nat.
Proof.
  revert n. induction s as [| c s IH]; intros n; simpl; [done |]. destruct (p c).
  - intros [= <-]. split; [done | lia].
  - destruct (find_if p s) as [i |]; [| done]. intros [= <-]. destruct (IH i eq_refl) as [-> ?].
    split; [done | simpl; lia].
Qed.

Lemma find_if_app_none p s w : find_if p s = None → find_if p (s ++ w) = Nat.add (length s) <$> find_if p w.
Proof.
  induction s as [| c s IH]; simpl; [by destruct (find_if p w) |]. destruct (p c); [done |].
  destruct (find_if p s); [done |]. intros _. rewrite IH by done. by destruct (find_if p w).
Qed.

Lemma trim_blanks_end s w : blanks w → trim_right (trim_left (s ++ w)) = trim_right (trim_left s).
Proof.
  intros Hw. unfold trim_left. destruct (find_if not_blank s) as [n |] eqn:Hs.
  - destruct (find_if_app_some _ _ w _ Hs) as [-> Hn].
    rewrite drop_app_le by lia. by apply trim_right_blanks_end.
  - rewrite (find_if_app_none _ _ _ Hs), (find_if_none _ w); [done |]. by apply blanks_not.
Qed.

Lemma parse_value_blanks_end R w : blanks w → parse_value (R ++ w) = parse_value R.
Proof. intros Hw. unfold parse_value. by rewrite trim_blanks_end. Qed.

(** The line the loop looks at, when it starts with a non-blank. *)
Lemma trimmed_line w0 c r : blanks w0 → is_blank c = false →
  trim_left (w0 ++ c :: r) = c :: r ∧ ∃ r' w, trim_right (c :: r) = c :: r' ∧ r = r' ++ w ∧ blanks w.
Proof.
  intros Hw Hc. split; [by apply trim_left_app |].
  destruct (trim_right_keep [] c r Hc) as (r' & w & H1 & H2 & H3). by exists r', w.
Qed.

(** The name of a section, as the code cuts it out of what trimming left. *)
Lemma section_name w1 name w2 rest body w :
  blanks w1 → blanks w2 → clean name → "]" ∉ name → (rest = [] ∨ head rest = Some "]") →
  w1 ++ name ++ w2 ++ rest = body ++ w → blanks w →
  trim_right (trim_left (prefix_to (find "]" body) body)) = name.
Proof.
  intros H1 H2 Hn Hb Hrest Heq Hw.
  assert ("]" ∉ w1 ++ name ++ w2) as Hin.
  { rewrite !not_elem_of_app. split_and!; [by apply blanks_not_in | done | by apply blanks_not_in]. }
  destruct rest as [| c rest].
  - rewrite app_nil_r in Heq. rewrite Heq in Hin. rewrite not_elem_of_app in Hin.
    rewrite not_in_find by apply Hin. cbn [prefix_to].
    rewrite <-(trim_blanks_end body w), <-Heq by done. by apply trim_clean.
  - destruct Hrest as [? | [= ->]]; [done |]. rewrite (assoc_L (++) name), (assoc_L (++) w1) in Heq.
    apply app_eq_inv in Heq as [(k & Hk & Hw') | (k & -> & Hk)].
    { assert ("]" ∈ w) as Hcl by (rewrite Hw', elem_of_app; right; constructor). by eapply blanks_not_in in Hcl. }
    destruct k as [| c k]; simpl in Hk; [subst w; by apply Forall_cons in Hw as [? _] |].
    injection Hk as <- ->. rewrite find_first by done. cbn [prefix_to]. rewrite take_app_length.
    by apply trim_clean.
Qed.

Lemma no_comment_clean x y :
  clean x → head x ≠ Some "#" → x ≠ [] → no_comment (x ++ y).
Proof.
  intros Hx Hh Hne. destruct (clean_head x Hx Hne) as (c & r & -> & Hc). simpl in *. split; [done | congruence].
Qed.

(** The loop body on a line that starts with [pre], then [c]. *)
Lemma parse_past w0 pre c b t cur :
  blanks w0 → no_comment pre → is_blank c = false → c ≠ "#" →
  ∃ b' w, b = b' ++ w ∧ blanks w ∧
    parse_line t cur (w0 ++ pre ++ c :: b) =
    let line := pre ++ c :: b' in
    match find "[" line with
    | Some left_bracket =>
        let section := parse_section line left_bracket in
        Some (MkParser (m_filepath t) (m_sections t ++ [section]) (m_keys t), section)
    | None =>
        match find "=" line with
        | None => None
        | Some equal_sign =>
            match cur with
            | [] => None
            | _ =>
                let key := trim_right (trim_left (take equal_sign line)) in
                let val := parse_value (drop (equal_sign + 1) line) in
                Some (MkParser (m_filepath t) (m_sections t) (emplace (m_keys t) cur key val), cur)
            end
        end
    end.
Proof.
  intros H0 Hpre Hc Hh. destruct (trim_right_keep pre c b Hc) as (b' & w & Htrim & -> & Hw).
  exists b', w. split_and!; [done | done |]. unfold parse_line.
  assert (trim_left (w0 ++ pre ++ c :: b' ++ w) = pre ++ c :: b' ++ w) as ->.
  { destruct pre as [| x pre]; cbn [app]; by apply trim_left_app; (done || apply Hpre). }
  rewrite Htrim. destruct (pre ++ c :: b' ++ w) eqn:Hne; [by destruct pre |].
  rewrite bool_decide_eq_false_2; [done |]. destruct pre as [| x pre]; cbn [app head]; [congruence |].
  destruct Hpre as [_ Hx]. congruence.
Qed.

Lemma parse_section_line w0 pre w1 name w2 rest t cur :
  blanks w0 → no_comment pre → "[" ∉ pre → blanks w1 → blanks w2 → clean name → "]" ∉ name →
  (rest = [] ∨ head rest = Some "]") →
  parse_line t cur (w0 ++ pre ++ "[" :: w1 ++ name ++ w2 ++ rest) = item_step t cur (Section_ name).
Proof.
  intros H0 Hpre Hb H1 H2 Hn Hcl Hrest.
  destruct (parse_past w0 pre "[" (w1 ++ name ++ w2 ++ rest) t cur) as (body & w & Hbody & Hw & ->); [done.. |].
  cbv zeta. rewrite find_first by done. unfold parse_section.
  rewrite <-drop_drop, drop_app_length. cbn [drop]. rewrite drop_0.
  by rewrite (section_name w1 name w2 rest body w).
Qed.

Lemma parse_entry_line w0 key w1 R v t cur :
  blanks w0 → blanks w1 → clean key → head key ≠ Some "#" → "[" ∉ key → "=" ∉ key → "[" ∉ R → value_text v R →
  parse_line t cur (w0 ++ key ++ w1 ++ "=" :: R) = item_step t cur (Entry key v).
Proof.
  intros H0 H1 Hk Hh Hkb Hke HRb HR.
  assert (∃ w pre, blanks w ∧ no_comment pre ∧ w0 ++ key ++ w1 = w ++ pre ∧ ("[" ∉ pre) ∧ ("=" ∉ pre) ∧
    trim_right (trim_left pre) = key) as (w & pre & Hw & Hpre & Heq & Hb & He & Htrim).
  { destruct (decide (key = [])) as [-> | Hne].
    - exists (w0 ++ w1), []. rewrite app_nil_r. split_and!; try done; [by apply Forall_app | by apply not_elem_of_nil ..].
    - exists w0, (key ++ w1). rewrite !not_elem_of_app.
      split_and!; try done; try (by apply blanks_not_in); [by apply no_comment_clean |].
      by apply (trim_clean [] key w1); [constructor | ..]. }
  rewrite (assoc_L (++) key), (assoc_L (++) w0), Heq, <-(assoc_L (++)).
  destruct (parse_past w pre "=" R t cur) as (R' & w' & HR' & Hw' & ->); [done.. |].
  subst R. rewrite not_elem_of_app in HRb. destruct HRb as [HRb _]. cbv zeta.
  rewrite not_in_find by (rewrite not_elem_of_app, not_elem_of_cons; done).
  rewrite find_first by done. destruct cur as [| s cur]; [done |]. cbn [item_step].
  rewrite take_app_length, <-drop_drop, drop_app_length. cbn [drop]. rewrite drop_0, Htrim.
  rewrite <-(parse_value_blanks_end R' w') by done.
  by rewrite <-(app_nil_r (R' ++ w')), (parse_value_correct v) by (done || constructor).
Qed.

Lemma parse_line_correct i line t cur :
  line_of i line → parse_line t cur line = item_step t cur i.
Proof.
  intros Hline. destruct Hline as [w Hw | w c Hw | w0 pre w1 name w2 rest H0 Hpre Hb H1 H2 Hn Hcl Hrest
    | w0 key w1 R v H0 H1 Hk Hh Hkb Hke HRb HR | w0 x w1 H0 H1 Hx Hne Hh Hxb Hxe].
  - unfold parse_line. by rewrite trim_left_blanks.
  - unfold parse_line. destruct (trimmed_line w "#" c) as (-> & r' & w' & -> & _ & _); done.
  - by apply parse_section_line.
  - by apply parse_entry_line.
  - unfold parse_line. destruct (clean_head x Hx Hne) as (c & r & Heq & Hc).
    assert (trim_left (w0 ++ x ++ w1) = x ++ w1) as Hl by (rewrite Heq; by apply trim_left_app).
    pose proof (trim_clean w0 x w1 H0 H1 Hx) as Htrim. rewrite Hl in *.
    destruct (x ++ w1) as [| y z] eqn:Hxw; [by destruct x |]. rewrite Htrim.
    rewrite bool_decide_eq_false_2, !not_in_find by done. done.
Qed.

Lemma get_value_emplace t path ss section key val s k :
  get_value (MkParser path ss (emplace (m_keys t) section key val)) s k =
  match get_value t s k with
  | Some v => Some v
  | None => if bool_decide (section = s ∧ key = k) then Some val else None
  end.
Proof.
  unfold get_value, emplace. cbn [m_keys]. destruct (decide (section = s)) as [-> | Hs].
  - rewrite lookup_insert_eq. destruct (m_keys t !! s) as [m |]; cbn [default from_option id].
    + destruct (m !! key) as [v |] eqn:Hv.
      * destruct (m !! k) as [v' |] eqn:Hv'; [done |]. rewrite bool_decide_eq_false_2; [done |].
        intros [_ ->]. congruence.
      * destruct (decide (key = k)) as [-> | Hk].
        -- rewrite lookup_insert_eq, Hv. by rewrite bool_decide_eq_true_2.
        -- rewrite lookup_insert_ne by done. rewrite bool_decide_eq_false_2 by (by intros [_ ?]).
           by destruct (m !! k).
    + unfold id. rewrite lookup_empty. destruct (decide (key = k)) as [-> | Hk].
      * rewrite lookup_insert_eq. by rewrite bool_decide_eq_true_2.
      * rewrite lookup_insert_ne, lookup_empty by done.
        by rewrite bool_decide_eq_false_2 by (by intros [_ ?]).
  - rewrite lookup_insert_ne by done. rewrite bool_decide_eq_false_2 by (by intros [? _]).
    by destruct (_ !! s) as [m |]; [destruct (m !! k) |].
Qed.

Lemma extract_lines_correct items lines t cur :
  Forall2 line_of items lines →
  match meaning cur items with
  | Some es => ∃ t', extract_lines t cur lines = (t', inl true) ∧
      ∀ s k, get_value t' s k = match get_value t s k with Some v => Some v | None => first_entry s k es end
  | None => ∃ t', extract_lines t cur lines = (t', inr PARSE_ERROR)
  end.
Proof.
  intros Hlines. revert t cur. induction Hlines as [| i line items lines Hline Hlines IH]; intros t cur.
  { simpl. exists t. split; [done |]. intros s k. by destruct (get_value t s k). }
  cbn [extract_lines]. rewrite (parse_line_correct _ _ _ _ Hline).
  destruct i as [| name | key val |]; cbn [item_step meaning].
  - apply IH.
  - specialize (IH (MkParser (m_filepath t) (m_sections t ++ [name]) (m_keys t)) name). exact IH.
  - destruct cur as [| c cur]; [by eexists |].
    specialize (IH (MkParser (m_filepath t) (m_sections t) (emplace (m_keys t) (c :: cur) key val)) (c :: cur)).
    destruct (meaning (c :: cur) items) as [es |]; simpl; [| done].
    destruct IH as (t' & Ht' & Hget). exists t'. split; [done |]. intros s k.
    rewrite Hget, get_value_emplace. cbn [first_entry].
    destruct (get_value t s k); [done |]. by case_bool_decide.
  - by eexists.
Qed.

Lemma get_value_new path s k : get_value (new_parser path) s k = None.
Proof. unfold get_value. cbn [new_parser m_keys]. by rewrite lookup_empty. Qed.

(** ** Numbers *)

(** A character that is not a digit does not occur in a number. *)
Lemma not_in_show c n : 0 ≤ n → digit c = None → c ∉ show n.
Proof.
  intros Hn Hc Hin. pose proof (proj1 (Forall_forall _ _) (show_digits n Hn) c Hin) as [d Hd]. congruence.
Qed.

Lemma blank_not_digit c : is_blank c = true → digit c = None.
Proof.
  unfold is_blank. rewrite !orb_true_iff, !bool_decide_eq_true. by intros [[[-> | ->] | ->] | ->].
Qed.

Lemma clean_no_blank x : Forall (λ c, is_blank c = false) x → clean x.
Proof.
  intros Hx. destruct x as [| c x]; [by left | right].
  split; [exists c, x; split; [done | by apply Forall_cons in Hx as [? _]] |].
  destruct (list_snoc_destruct (c :: x)) as [? | (r & y & Heq)]; [done |].
  exists r, y. split; [done |]. rewrite Heq in Hx. apply Forall_app in Hx as [_ Hy].
  by apply Forall_cons in Hy as [? _].
Qed.

Lemma show_clean n : 0 ≤ n → clean (show n).
Proof.
  intros Hn. apply clean_no_blank, Forall_forall. intros c Hc. destruct (is_blank c) eqn:Hb; [| done].
  by destruct (not_in_show c n Hn (blank_not_digit c Hb)).
Qed.

Lemma show_not_quoted n : 0 ≤ n → is_quoted (show n) = false.
Proof.
  intros Hn. unfold is_quoted. apply andb_false_intro2.
  assert (∀ c, digit c = None → bool_decide (head (show n) = Some c) = false) as Hhead.
  { intros c Hc. apply bool_decide_eq_false. intros Hh. apply (not_in_show c n Hn Hc).
    destruct (show n); simplify_eq/=. constructor. }
  rewrite !Hhead by done. done.
Qed.

(** [key = v] is an entry. *)
Lemma entry_line key v :
  clean key → head key ≠ Some "#" → "[" ∉ key → "=" ∉ key →
  clean v → is_quoted v = false → "#" ∉ v → "[" ∉ v →
  line_of (Entry key v) (key ++ lit " = " ++ v).
Proof.
  intros. assert (blanks [" "]) as Hsp by (repeat constructor).
  apply (line_entry [] key [" "] (" " :: v)); try done; [constructor | |].
  - rewrite not_elem_of_cons. by split.
  - rewrite <-(app_nil_r v) at 2. apply (value_plain v [" "] v []); [done | constructor | | done].
    by apply written_bare.
Qed.

(** A network section with an address and a port, as a file. *)
Definition network_items (ip : str) (port : Z) : list item :=
  [Section_ (lit "network"); Entry (lit "ip") ip; Entry (lit "port") (show port)].
Definition network_lines (ip : str) (port : Z) : list str :=
  [lit "[network]"; lit "ip" ++ lit " = " ++ ip; lit "port" ++ lit " = " ++ show port].

Lemma network_lines_of ip port :
  clean ip → is_quoted ip = false → "#" ∉ ip → "[" ∉ ip → 0 ≤ port →
  Forall2 line_of (network_items ip port) (network_lines ip port).
Proof.
  intros Hc Hq Hh Hb Hport. apply Forall2_cons. split; [| apply Forall2_cons; split;
    [| apply Forall2_cons; split; [| by apply Forall2_nil]]].
  - apply (line_section [] [] [] (lit "network") [] ["]"]);
      [constructor | done | by_evaluation | constructor | constructor | | by_evaluation | by right].
    apply clean_no_blank. by_evaluation.
  - apply entry_line; try done; try by_evaluation. apply clean_no_blank. by_evaluation.
  - apply entry_line; [by apply clean_no_blank; by_evaluation | done | by_evaluation | by_evaluation |
      by apply show_clean | by apply show_not_quoted | by apply not_in_show | by apply not_in_show].
Qed.

(** ** Every file has a reading *)

Lemma split_clean s : ∃ w1 x w2, s = w1 ++ x ++ w2 ∧ blanks w1 ∧ blanks w2 ∧ clean x.
Proof.
  assert (∃ w s', s = w ++ s' ∧ blanks w ∧ (s' = [] ∨ ∃ c r, s' = c :: r ∧ is_blank c = false))
    as (w & s' & -> & Hw & Hs').
  { induction s as [| c s (w & s' & -> & Hw & Hs')].
    - exists [], []. split_and!; [done | constructor | by left].
    - destruct (is_blank c) eqn:Hc.
      + exists (c :: w), s'. split_and!; [done | by constructor | done].
      + exists [], (c :: w ++ s'). split_and!; [done | constructor | right; eauto]. }
  destruct (split_right s') as (x & w2 & -> & Hw2 & Hx). exists w, x, w2. split_and!; [done.. |].
  destruct Hx as [-> | (r & c & -> & Hc)]; [by left | right]. split; [| by exists r, c].
  destruct Hs' as [Hnil | (d & t & Heq & Hd)]; [by destruct r |].
  destruct r as [| y r]; cbn [app] in *; simplify_eq; eauto.
Qed.

Lemma is_quoted_inv x :
  is_quoted x = true → ∃ q v, (q = QUOTE ∨ q = APOSTROPHE) ∧ x = q :: v ++ [q].
Proof.
  unfold is_quoted. intros [Hlen Hends]%andb_true_iff. apply Nat.leb_le in Hlen.
  assert (∃ q, (q = QUOTE ∨ q = APOSTROPHE) ∧ head x = Some q ∧ last x = Some q) as (q & Hq & Hh & Hl).
  { apply orb_true_iff in Hends as [H | H]; apply andb_true_iff in H; rewrite !bool_decide_eq_true in H;
      destruct H; eauto. }
  exists q. destruct x as [| c x]; [done |]. simplify_eq/=.
  destruct (list_snoc_destruct x) as [-> | (v & d & ->)]; [simpl in Hlen; lia |].
  exists v. split; [done |]. rewrite app_comm_cons, last_snoc in Hl. congruence.
Qed.

Lemma written_total x : clean x → ∃ v, written v x.
Proof.
  intros Hx. destruct (is_quoted x) eqn:Hq.
  - destruct (is_quoted_inv x Hq) as (q & v & Hq' & ->). exists v. by constructor.
  - exists x. by constructor.
Qed.

Lemma value_total R : ∃ v, value_text v R.
Proof.
  destruct (decide ("#" ∈ R)) as [(A & C & -> & HA)%list_elem_of_split_l | HA].
  - destruct (split_clean A) as (w1 & x & w2 & -> & H1 & H2 & Hx). rewrite !not_elem_of_app in HA. destruct HA as (_ & HA & _).
    destruct (written_total x Hx) as [v Hv]. exists v. rewrite <-!(assoc_L (++)). by apply value_comment.
  - destruct (split_clean R) as (w1 & x & w2 & -> & H1 & H2 & Hx). rewrite !not_elem_of_app in HA. destruct HA as (_ & HA & _).
    destruct (written_total x Hx) as [v Hv]. exists v. by apply value_plain.
Qed.

(** A part of a line before a separator starts as the line does. *)
Lemma no_comment_prefix a b : no_comment (a ++ b) → no_comment a.
Proof. by destruct a. Qed.

Lemma line_total l : ∃ i, line_of i l.
Proof.
  destruct (split_clean l) as (w0 & x & w2 & -> & H0 & H2 & Hx).
  destruct (decide (x = [])) as [-> | Hne]; [exists Nothing; by apply line_blank, Forall_app |].
  destruct (clean_head x Hx Hne) as (c & r & Heq & Hc).
  destruct (decide (c = "#")) as [-> | Hh]; [rewrite Heq; exists Nothing; by apply line_comment |].
  assert (head x ≠ Some "#") as Hhead by (rewrite Heq; simpl; congruence).
  assert (no_comment (x ++ w2)) as Hno by (by apply no_comment_clean).
  destruct (decide ("[" ∈ x ++ w2)) as [(pre & s & Hs & Hpre)%list_elem_of_split_l | Hb].
  { rewrite Hs in *. apply no_comment_prefix in Hno.
    assert (∃ n rest, s = n ++ rest ∧ ("]" ∉ n) ∧ (rest = [] ∨ head rest = Some "]")) as (n & rest & -> & Hn & Hrest).
    { destruct (decide ("]" ∈ s)) as [(n & rest & -> & Hn)%list_elem_of_split_l | Hn].
      - exists n, ("]" :: rest). split_and!; [done | done | by right].
      - exists s, []. rewrite app_nil_r. split_and!; [done | done | by left]. }
    destruct (split_clean n) as (w3 & name & w4 & -> & H3 & H4 & Hname). rewrite !not_elem_of_app in Hn.
    destruct Hn as (_ & Hn & _). exists (Section_ name).
    rewrite <-(assoc_L (++) w3), <-(assoc_L (++) name). by apply line_section. }
  destruct (decide ("=" ∈ x ++ w2)) as [(k & R & Hs & Hk)%list_elem_of_split_l | He].
  { rewrite Hs in *. rewrite not_elem_of_app, not_elem_of_cons in Hb. destruct (value_total R) as [v Hv].
    apply no_comment_prefix in Hno.
    destruct (split_clean k) as (w3 & key & w4 & -> & H3 & H4 & Hkey). rewrite !not_elem_of_app in *.
    exists (Entry key v). rewrite <-!(assoc_L (++)), (assoc_L (++) w0).
    apply line_entry; try tauto; [by apply Forall_app |].
    destruct w3 as [| y w3]; [| apply Forall_cons in H3 as [Hy _]; destruct Hno; congruence].
    destruct key as [| z key]; [done |]. cbn [app no_comment] in Hno. cbn [head]. destruct Hno. congruence. }
  rewrite not_elem_of_app in *. exists Junk. apply line_junk; tauto.
Qed.

Lemma lines_total content : ∃ lines items, lines_of content lines ∧ Forall2 line_of items lines.
Proof.
  assert (∀ lines, ∃ items, Forall2 line_of items lines) as Hitems.
  { induction lines as [| l lines [items IH]]; [by exists [] |].
    destruct (line_total l) as [i Hi]. exists (i :: items). by constructor. }
  destruct (unlines_total content) as (lines & l & Hlines & Hl & ->).
  destruct (decide (l = [])) as [-> | Hne].
  - destruct (Hitems lines) as [items Hi]. exists lines, items. split; [| done].
    apply lines_closed; [done | by rewrite app_nil_r].
  - destruct (Hitems (lines ++ [l])) as [items Hi]. exists (lines ++ [l]), items. split; [| done]. by apply lines_open.
Qed.

Lemma lines_of_split content lines : lines_of content lines → split_lines [] content = lines.
Proof.
  intros [lines' Hl -> | lines' l Hlines Hl Hne ->]; [by apply split_unlines | by apply split_unlines_open].
Qed.

(** ** Dotted keys *)

Lemma get_string_lookup t section key :
  "." ∉ section →
  get_string t (section ++ "." :: key) =
    match get_value t section key with
    | Some v => if is_quoted v then unquote v else v
    | None => []
    end.
Proof.
  intros Hs. unfold get_string, get_value. rewrite find_first, take_app_length by done.
  destruct (m_keys t !! section) as [m |]; [| done].
  rewrite (Nat.add_comm (length section) 1), <-skipn_skipn, drop_app_length. done.
Qed.

Lemma decimal_not_quoted text negative m x : decimal_text text negative m x → is_quoted text = false.
Proof.
  intros (c & r & -> & Hc)%decimal_text_head. unfold is_quoted. apply andb_false_intro2. cbn [head].
  assert (c ≠ QUOTE ∧ c ≠ APOSTROPHE) as [Hq Ha].
  { destruct Hc as [[d Hd] | [-> | [-> | ->]]]; [| by_evaluation..]. by split; intros ->. }
  rewrite (bool_decide_eq_false_2 (Some c = Some QUOTE)), (bool_decide_eq_false_2 (Some c = Some APOSTROPHE)) by congruence.
  done.
Qed.

(** * Properties *)

(** C32: the parser implements its grammar, and every file has a reading in it.
    A line is blank, a comment, a section header (any other line with a bracket:
    the name runs from the first [ to the next ] or the end of the line), an
    entry (any other line with an equal sign: the key is what is left of the
    first one, possibly empty; the value is what is right of it up to the first
    #, between quotes too, trimmed and with one pair of outer quotes taken off),
    or none of these: a line with neither bracket nor equal sign.  A file whose
    lines are all one of the former, with every entry under a header with a
    name, loads, and a lookup then finds the first entry for that key of that
    section, and nothing else.  A file with a line that is none of these, or an
    entry outside a named section, yields [PARSE_ERROR], and one that cannot be
    opened [FILE_NOT_FOUND]. *)
Theorem toml_load_correct fs path :
  (fs !! path = None → load fs (new_parser path) = (new_parser path, inr FILE_NOT_FOUND)) ∧
  ∀ content, fs !! path = Some content →
    (∃ lines items, lines_of content lines ∧ Forall2 line_of items lines) ∧
    ∀ lines items, lines_of content lines → Forall2 line_of items lines →
      match meaning [] items with
      | Some es => ∃ t, load fs (new_parser path) = (t, inl true) ∧
          ∀ section key, get_value t section key = first_entry section key es
      | None => ∃ t, load fs (new_parser path) = (t, inr PARSE_ERROR)
      end.
Proof.
  unfold load. cbn [new_parser m_filepath]. split; [by intros -> |]. intros content ->.
  split; [apply lines_total |]. intros lines items Hcontent Hlines.
  unfold extract_keys. rewrite (lines_of_split _ _ Hcontent).
  pose proof (extract_lines_correct items lines (new_parser path) [] Hlines) as Hex.
  destruct (meaning [] items) as [es |].
  - destruct Hex as (t & -> & Hget). exists t. split; [done |]. intros s k. by rewrite Hget, get_value_new.
  - destruct Hex as (t & ->). by exists t.
Qed.

(** C40: a configuration written to disk is read back.  The address is read as it
    was written, if it has no outer blanks or quotes and holds no #, no newline
    and no opening bracket (an address in brackets is taken for a section header:
    [Demo.bracketed_address]).  The port may be any natural number in decimal:
    below 65536 it is read as written; from there to 2^31-1 it is not rejected
    but reduced modulo 65536; from 2^31 on, where stoi throws, it is read as 0. *)
Theorem config_roundtrip fs path ip port :
  clean ip → is_quoted ip = false → "#" ∉ ip → "[" ∉ ip → NEWLINE ∉ ip → 0 ≤ port →
  fs !! path = Some (unlines (network_lines ip port)) →
  ∃ c, parse_config fs (new_config path) = (c, true) ∧ get_market_ip c = ip ∧
    get_market_port c = (if port <? 2 ^ 31 then port mod 65536 else 0) ∧
    (port < 65536 → get_market_port c = port).
Proof.
  intros Hc Hq Hh Hb Hn Hport Hfile.
  pose proof (network_lines_of ip port Hc Hq Hh Hb Hport) as Hlines.
  assert (Forall (λ l, NEWLINE ∉ l) (network_lines ip port)) as Hnl.
  { unfold network_lines. rewrite !Forall_cons, !not_elem_of_app.
    pose proof (not_in_show NEWLINE port Hport eq_refl) as Hshow.
    split_and!; [by_evaluation | by_evaluation | by_evaluation | exact Hn | by_evaluation | by_evaluation |
      exact Hshow | constructor]. }
  unfold parse_config, load. cbn [new_config m_parser new_parser m_filepath]. rewrite Hfile.
  unfold extract_keys. rewrite split_unlines by done.
  destruct (extract_lines_correct _ _ (new_parser path) [] Hlines) as (t & -> & Hget).
  eexists. split; [done |]. unfold get_market_ip, get_market_port. cbn [m_parser].
  rewrite !Hget, !get_value_new. cbn [first_entry].
  rewrite (bool_decide_eq_true_2 (_ ∧ lit "ip" = lit "ip")) by done.
  rewrite (bool_decide_eq_false_2 (_ ∧ lit "ip" = lit "port")) by by_evaluation.
  rewrite (bool_decide_eq_true_2 (_ ∧ lit "port" = lit "port")) by done.
  rewrite stoi_show by done. split; [done |].
  destruct (Z.ltb_spec port (2 ^ 31)); [| split; [done | lia]].
  rewrite (proj2 (Z.ltb_ge _ _)) by lia. unfold u16, wrap. change (2 ^ 16) with 65536.
  split; [done |]. intros ?. by apply Z.mod_small; lia.
Qed.

(** A dotted key looks up its section and key; the value loses one more pair
    of quotes than [get_value] takes off; a missing key gives the empty string,
    and 0 as an integer. *)
Theorem get_string_dotted t section key :
  "." ∉ section →
  get_string t (section ++ "." :: key) =
    match get_value t section key with
    | Some v => if is_quoted v then unquote v else v
    | None => []
    end ∧
  (get_value t section key = None → get_int t (section ++ "." :: key) = 0) ∧
  (∀ n, 0 ≤ n < 2 ^ 31 → get_value t section key = Some (show n) →
    get_int t (section ++ "." :: key) = n).
Proof.
  intros Hs. rewrite get_string_lookup by done.
  split_and!; [done | |]; unfold get_int; rewrite get_string_lookup by done.
  - by intros ->.
  - intros n Hn ->. rewrite show_not_quoted by lia.
    destruct (show n) eqn:Hshow; [by destruct (show_cons n Hshow) |].
    by rewrite <-Hshow, stoi_show, (proj2 (Z.ltb_lt _ _)) by lia.
Qed.

(** C38: a decimal number in the file is read as the [double] nearest to it, ties
    to even, whatever its sign, point and exponent.  A number beyond the range of
    [double], like a key that is missing, is read as zero, and so may one be that
    underflows (the exception is caught). *)
Theorem get_double_nearest reports t section key :
  "." ∉ section →
  match get_value t section key with
  | None => get_double reports t (section ++ "." :: key) = S754_zero false
  | Some text =>
      ∀ negative m x, decimal_text text negative m x →
        let '(n, d) := scaled 10 m x in
        if overflows n d || underflows n d && reports n d
        then get_double reports t (section ++ "." :: key) = S754_zero false
        else nearest_double (sign_of negative * n) d (get_double reports t (section ++ "." :: key))
  end.
Proof.
  intros Hs. unfold get_double. rewrite get_string_lookup by done.
  destruct (get_value t section key) as [text |]; [| done]. intros negative m x Ht.
  rewrite (decimal_not_quoted text negative m x Ht). pose proof (stod_nearest reports text negative m x Ht) as Hstod.
  destruct (decimal_text_head text negative m x Ht) as (c & r & -> & _).
  destruct (scaled 10 m x) as [n d]. cbn [fst snd] in Hstod.
  destruct (overflows n d || underflows n d && reports n d); [by rewrite Hstod |].
  by destruct Hstod as (f & -> & Hf).
Qed.

(** * On a concrete file *)

Module Demo.

Definition quoted (v : str) : str := QUOTE :: v ++ [QUOTE].

Definition lines : list str :=
  [lit "# settings"; lit "[network]  # market data";
   lit " ip = " ++ quoted (lit "10.0.0.1") ++ lit "  # primary"; lit "ip = 10.0.0.2";
   []; lit "port=70000"].
Definition items : list item :=
  [Nothing; Section_ (lit "network"); Entry (lit "ip") (lit "10.0.0.1");
   Entry (lit "ip") (lit "10.0.0.2"); Nothing; Entry (lit "port") (lit "70000")].
Definition file : str := unlines lines.

Definition on_disk (content : str) : files := {[lit "feed.toml" := content]}.
Definition loaded (content : str) : TomlParser * (bool + TomlParserError) :=
  load (on_disk content) (new_parser (lit "feed.toml")).
Definition config : Config := fst (parse_config (on_disk file) (new_config (lit "feed.toml"))).

(** The second [ip] is ignored ([emplace] does not overwrite); the port is
    reduced modulo 65536. *)
Example config_read :
  get_market_ip config = lit "10.0.0.1" ∧ get_market_port config = 4464 ∧
  get_int (m_parser config) (lit "network.port") = 70000 ∧
  get_value (m_parser config) (lit "network") (lit "mode") = None.
Proof. by_evaluation. Qed.

(** A [#] between quotes ends the value, and the open quote stays. *)
Example hash_in_quotes : parse_value (quoted (lit "a#b")) = QUOTE :: lit "a".
Proof. by_evaluation. Qed.

(** A bracket anywhere in a line makes it a section header: the entry is lost,
    and the entries after it belong to section [1]. *)
Example bracket_in_value :
  snd <$> parse_line default_parser (lit "network") (lit "levels = [1]") = Some (lit "1").
Proof. by_evaluation. Qed.

(** A line with an equal sign and no key is an entry for the empty key. *)
Example empty_key :
  get_value (fst (loaded (unlines [lit "[a]"; lit "= 5"]))) (lit "a") [] = Some (lit "5").
Proof. by_evaluation. Qed.

(** An address in brackets is lost, and so is the port after it. *)
Example bracketed_address :
  let c := fst (parse_config (on_disk (unlines (network_lines (lit "[::1]") 8080))) (new_config (lit "feed.toml"))) in
  get_market_ip c = [] ∧ get_market_port c = 0.
Proof. by vm_compute. Qed.

(** An entry before every section is an error; the entries before a bad line stay. *)
Example failed_loads :
  snd (loaded (lit "port = 1")) = inr PARSE_ERROR ∧
  snd (load (on_disk file) default_parser) = inr FILE_NOT_FOUND ∧
  snd (loaded (unlines [lit "[a]"; lit "k = v"; lit "junk"])) = inr PARSE_ERROR ∧
  get_value (fst (loaded (unlines [lit "[a]"; lit "k = v"; lit "junk"]))) (lit "a") (lit "k") = Some (lit "v").
Proof. by_evaluation. Qed.

Definition rates : TomlParser :=
  fst (loaded (unlines [lit "[rates]"; lit "drift = -0.1 # per day"; lit "vol = 1e400";
    lit "mask = 0x1.8p1"; lit "limit = Infinity"; lit "name = abc"])).

(** Numbers, a number out of range, and text that is no number. *)
Example doubles_read :
  let get key := get_double (λ _ _, true) rates (lit key) in
  get "rates.drift"%string = S754_finite true 7205759403792794 (-56) ∧
  get "rates.vol"%string = S754_zero false ∧
  get "rates.mask"%string = S754_finite false 6755399441055744 (-51) ∧
  get "rates.limit"%string = S754_infinity false ∧
  get "rates.name"%string = S754_zero false.
Proof. split_and!; vm_compute; reflexivity. Qed.

Example missing_file : parse_config (on_disk file) default_config = (default_config, false).
Proof. reflexivity. Qed.

Lemma clean_lit s : Forall (λ c, is_blank c = false) (lit s) → clean (lit s).
Proof. apply clean_no_blank. Qed.

End Demo.

(** ** Witnesses *)

Lemma toml_load_correct_witness :
  ∃ t, Demo.loaded Demo.file = (t, inl true) ∧
    get_value t (lit "network") (lit "ip") = Some (lit "10.0.0.1").
Proof.
  assert (Forall2 line_of Demo.items Demo.lines) as Hlines.
  { repeat (apply Forall2_cons; split); [.. | by apply Forall2_nil].
    - apply (line_comment [] (lit " settings")). constructor.
    - apply (line_section [] [] [] (lit "network") [] (lit "]  # market data"));
        [constructor | done | by_evaluation | constructor | constructor | apply Demo.clean_lit; by_evaluation
        | by_evaluation | by right].
    - apply (line_entry [" "] (lit "ip") [" "] (" " :: Demo.quoted (lit "10.0.0.1") ++ lit "  # primary"));
        [by_evaluation | by_evaluation | apply Demo.clean_lit; by_evaluation | done
        | by_evaluation | by_evaluation | by_evaluation |].
      apply (value_comment _ [" "] (Demo.quoted (lit "10.0.0.1")) (lit "  ") (lit " primary"));
        [by_evaluation | by_evaluation | | by_evaluation].
      apply written_quoted. by left.
    - apply entry_line;
        [apply Demo.clean_lit; by_evaluation | done | by_evaluation | by_evaluation |
         apply Demo.clean_lit; by_evaluation | done | by_evaluation | by_evaluation].
    - apply line_blank. constructor.
    - apply (line_entry [] (lit "port") [] (lit "70000"));
        [by_evaluation | by_evaluation | apply Demo.clean_lit; by_evaluation | done
        | by_evaluation | by_evaluation | by_evaluation |].
      apply (value_plain _ [] (lit "70000") []); [constructor | constructor | | by_evaluation].
      apply written_bare; [apply Demo.clean_lit; by_evaluation | done]. }
  destruct (toml_load_correct (Demo.on_disk Demo.file) (lit "feed.toml")) as [_ Hload].
  destruct (Hload Demo.file) as [_ Hread]; [apply lookup_singleton_eq |].
  destruct (Hread Demo.lines Demo.items) as (t & Ht & Hget); [| exact Hlines |].
  - apply lines_closed; [by_evaluation | reflexivity].
  - exists t. split; [exact Ht |]. rewrite Hget. reflexivity.
Defined.

Lemma config_roundtrip_witness :
  ∃ c, parse_config (Demo.on_disk (unlines (network_lines (lit "10.0.0.1") 70000)))
      (new_config (lit "feed.toml")) = (c, true) ∧
    get_market_ip c = lit "10.0.0.1" ∧ get_market_port c = 4464.
Proof.
  destruct (config_roundtrip (Demo.on_disk (unlines (network_lines (lit "10.0.0.1") 70000)))
    (lit "feed.toml") (lit "10.0.0.1") 70000) as (t & Hp & Hip & Hport & _).
  - apply Demo.clean_lit. by_evaluation.
  - reflexivity.
  - by_evaluation.
  - by_evaluation.
  - by_evaluation.
  - lia.
  - apply lookup_singleton_eq.
  - exists t. split; [exact Hp |]. split; [exact Hip |]. rewrite Hport. reflexivity.
Defined.

Lemma get_double_nearest_witness :
  decimal_text (lit "-0.1") true 1 (-1) ∧
  nearest_double (-1) 10 (get_double (λ _ _, true) Demo.rates (lit "rates" ++ "." :: lit "drift")).
Proof.
  assert (decimal_text (lit "-0.1") true 1 (-1)) as Ht.
  { apply (decimal_intro ["-"] true ["0"] ["."; "1"] ["1"] [] 0).
    - constructor.
    - repeat constructor; by eexists.
    - constructor. repeat constructor; by eexists.
    - constructor.
    - done. }
  split; [exact Ht |].
  pose proof (get_double_nearest (λ _ _, true) Demo.rates (lit "rates") (lit "drift")) as H.
  assert (get_value Demo.rates (lit "rates") (lit "drift") = Some (lit "-0.1")) as Hv by (vm_compute; reflexivity).
  rewrite Hv in H. apply (H ltac:(by_evaluation) true 1 (-1) Ht).
Defined.

Lemma get_string_dotted_witness :
  get_string (m_parser Demo.config) (lit "network" ++ "." :: lit "port") = lit "70000" ∧
  get_int (m_parser Demo.config) (lit "network" ++ "." :: lit "port") = 70000.
Proof.
  destruct (get_string_dotted (m_parser Demo.config) (lit "network") (lit "port")) as (Hs & _ & Hi).
  - by_evaluation.
  - split; [rewrite Hs; reflexivity |]. apply Hi; [lia |]. vm_compute. reflexivity.
Defined.
