(* ===== verification/Effects.v ===== *)
(** * Effects: programs that call code outside the library

    A call of the operating system or of a third-party driver is an effect
    [e : E R] answered by a value of [R].  A program is a finite tree of calls;
    the outside is a parameter, a [Handler] that answers a call from a state of
    its own.  [run] executes a program and keeps the history of its calls with
    their answers, the newest first.  [hoare] is the program logic over an
    invariant of the outside and a view of the history. *)

From stdpp Require Import base tactics list gmap sets.
From Stdlib Require Import ZArith.
From S2P Require Import Prelude.
#[local] Open Scope Z_scope.
#[local] Set Warnings "-clear-no-such-hyp".

(** ** Programs *)

Section Programs.
Context {E : Type → Type}.

Inductive prog (A : Type) : Type :=
| Done (a : A)
| Call {R : Type} (e : E R) (k : R → prog A).
#[global] Arguments Done {A} a.
#[global] Arguments Call {A R} e k.

Fixpoint pbind {A B : Type} (p : prog A) (f : A → prog B) : prog B :=
  match p with
  | Done a => f a
  | Call e k => Call e (λ r, pbind (k r) f)
  end.

Definition trigger {R : Type} (e : E R) : prog R := Call e Done.

(** One call of a history, with its answer. *)
Record event : Type := Event { answer_type : Type; call : E answer_type; answer : answer_type }.
End Programs.
Arguments prog E A : clear implicits.
Arguments event E : clear implicits.

Declare Scope prog_scope.
Delimit Scope prog_scope with prog.
Notation "'do!' x := p 'in' q" := (pbind p (λ x, q))
  (at level 10, x pattern, p at level 100, q at level 200) : prog_scope.
#[global] Open Scope prog_scope.

(** ** Execution *)

Class Handler (E : Type → Type) (W : Type) : Type :=
  handle : ∀ R, E R → W → R * W.
Arguments handle {E W _ R} _ _.

(** The outside and the calls made so far, newest first. *)
Record world (E : Type → Type) (W : Type) : Type := World { outside : W; history : list (event E) }.
Arguments World {E W} _ _.
Arguments outside {E W} _.
Arguments history {E W} _.

Section Run.
Context {E : Type → Type} {W : Type} {H : Handler E W}.

Fixpoint run_prog {A : Type} (p : prog E A) (w : world E W) : A * world E W :=
  match p with
  | Done a => (a, w)
  | Call e k => let '(r, s) := handle e (outside w) in run_prog (k r) (World s (Event _ e r :: history w))
  end.

Lemma run_bind {A B : Type} (p : prog E A) (f : A → prog E B) w :
  run_prog (pbind p f) w = let '(a, w) := run_prog p w in run_prog (f a) w.
Proof.
  revert w. induction p as [a | R e k IH]; intros w; simpl; [done |].
  destruct (handle e (outside w)) as [r s]. apply IH.
Qed.

Lemma run_history {A : Type} (p : prog E A) w :
  ∃ l, history (run_prog p w).2 = l ++ history w.
Proof.
  revert w. induction p as [a | R e k IH]; intros w; simpl; [by exists [] |].
  destruct (handle e (outside w)) as [r s]. destruct (IH r (World s (Event _ e r :: history w))) as [l ->].
  exists (l ++ [Event _ e r]). by rewrite <-(assoc_L (++)).
Qed.
End Run.

(** ** Program logic

    [Inv] is kept by every call that respects its precondition [pre]; [view]
    is what assertions say of the history, and [next] how a call changes it. *)

Class Protocol (E : Type → Type) (W V : Type) {H : Handler E W} : Type := {
  view : list (event E) → V;
  next : ∀ R, E R → R → V → V;
  pre : ∀ R, E R → V → Prop;
  post : ∀ R, E R → R → V → Prop;
  Inv : world E W → Prop;
  view_next : ∀ R (e : E R) r l, view (Event R e r :: l) = next R e r (view l);
  Inv_call : ∀ R (e : E R) w, Inv w → pre R e (view (history w)) →
    let '(r, s) := handle e (outside w) in
    Inv (World s (Event R e r :: history w)) ∧ post R e r (view (history w)) }.
Arguments next {E W V H _ R} _ _ _.
Arguments pre {E W V H _ R} _ _.
Arguments post {E W V H _ R} _ _ _.

Section Logic.
Context {E : Type → Type} {W V : Type} `{P : Protocol E W V}.

Definition hoare {A : Type} (v : V) (p : prog E A) (Q : A → V → Prop) : Prop :=
  ∀ w, Inv w → view (history w) = v →
    let '(a, w') := run_prog p w in Inv w' ∧ Q a (view (history w')).

Lemma hoare_done {A : Type} v (a : A) (Q : A → V → Prop) : Q a v → hoare v (Done a) Q.
Proof. by intros HQ w Hw <-. Qed.

Lemma hoare_call {A R : Type} v (e : E R) (k : R → prog E A) (Q : A → V → Prop) :
  pre e v → (∀ r, post e r v → hoare (next e r v) (k r) Q) → hoare v (Call e k) Q.
Proof.
  intros He Hk w Hw <-. simpl. pose proof (Inv_call R e w Hw He) as Hcall.
  destruct (handle e (outside w)) as [r s]. destruct Hcall as [HI Hr].
  apply (Hk r Hr _ HI). simpl. by rewrite view_next.
Qed.

Lemma hoare_bind {A B : Type} v (p : prog E A) (f : A → prog E B) Q :
  hoare v p (λ a v', hoare v' (f a) Q) → hoare v (pbind p f) Q.
Proof.
  intros Hp w Hw Hv. rewrite run_bind. pose proof (Hp w Hw Hv) as Hpw.
  destruct (run_prog p w) as [a w']. destruct Hpw as [Hw' Hf]. exact (Hf w' Hw' eq_refl).
Qed.

Lemma hoare_mono {A : Type} v (p : prog E A) (Q Q' : A → V → Prop) :
  hoare v p Q → (∀ a v', Q a v' → Q' a v') → hoare v p Q'.
Proof.
  intros Hp HQ w Hw Hv. specialize (Hp w Hw Hv). destruct (run_prog p w). naive_solver.
Qed.

Lemma hoare_run {A : Type} (p : prog E A) Q w :
  Inv w → hoare (view (history w)) p Q → Inv (run_prog p w).2 ∧ Q (run_prog p w).1 (view (history (run_prog p w).2)).
Proof. intros Hw Hp. specialize (Hp w Hw eq_refl). by destruct (run_prog p w). Qed.
End Logic.
#[global] Arguments pbind : simpl never.
#[global] Arguments trigger : simpl never.

(** ** Effects on resources

    Descriptors, futures and the like are integers the outside gives out
    ([opens]) and takes back ([closes]).  A history tells which are held and in
    what state ([resources_of]), and whether every call used resources that
    were held ([uses_ok]).  The outside is only asked not to give out what is
    already open ([ResourceSpec]). *)

Definition singleton_of (o : option Z) : gset Z := from_option singleton ∅ o.

Class ResourceEffect (E : Type → Type) (S : Type) : Type := {
  opens : ∀ R, E R → R → option Z;
  closes : ∀ R, E R → option Z;
  uses : ∀ R, E R → gmap Z S → Prop;
  next_state : ∀ R, E R → R → gmap Z S → gmap Z S;
  closes_used : ∀ R (e : E R) m z, uses R e m → closes R e = Some z → z ∈ dom m;
  next_state_dom : ∀ R (e : E R) r m,
    dom (next_state R e r m) = (dom m ∖ singleton_of (closes R e)) ∪ singleton_of (opens R e r) }.
Arguments opens {E S _ R} _ _.
Arguments closes {E S _ R} _.
Arguments uses {E S _ R} _ _.
Arguments next_state {E S _ R} _ _ _.

Class ResourceSpec (E : Type → Type) (S W : Type) {RE : ResourceEffect E S} {H : Handler E W} : Type := {
  opened : W → gset Z;
  (** the resources of the rest of the process *)
  others : gset Z;
  opens_fresh : ∀ R (e : E R) w z, opens e (handle e w).1 = Some z → z ∉ opened w;
  opened_after : ∀ R (e : E R) w,
    opened (handle e w).2 = (opened w ∖ singleton_of (closes e)) ∪ singleton_of (opens e (handle e w).1) }.

Section Resources.
Context {E : Type → Type} {S : Type} {RE : ResourceEffect E S}.

Fixpoint resources_of (l : list (event E)) : gmap Z S :=
  match l with
  | [] => ∅
  | ev :: l => next_state (call ev) (answer ev) (resources_of l)
  end.

Fixpoint uses_ok (l : list (event E)) : Prop :=
  match l with
  | [] => True
  | ev :: l => uses (call ev) (resources_of l) ∧ uses_ok l
  end.

Context {W : Type} {H : Handler E W} {RS : ResourceSpec E S W}.

Record resources_inv (w : world E W) : Prop := {
  ri_uses : uses_ok (history w);
  ri_opened : opened (outside w) = others ∪ dom (resources_of (history w));
  ri_others : others ## dom (resources_of (history w)) }.

Lemma resources_inv_call R (e : E R) w :
  resources_inv w → uses e (resources_of (history w)) →
  let '(r, s) := handle e (outside w) in
  resources_inv (World s (Event R e r :: history w)) ∧
  (∀ z, opens e r = Some z → z ∉ dom (resources_of (history w))).
Proof.
  intros [Hc Ho Hd] Hpre. pose proof (opens_fresh R e (outside w)) as Hf.
  pose proof (opened_after R e (outside w)) as Ha.
  destruct (handle e (outside w)) as [r s]. simpl in *.
  assert (Hsub : singleton_of (closes e) ⊆ dom (resources_of (history w))).
  { destruct (closes e) as [z |] eqn:Hz; simpl; [| set_solver].
    pose proof (closes_used R e _ z Hpre Hz). set_solver. }
  assert (Hnew : singleton_of (opens e r) ## opened (outside w)).
  { destruct (opens e r) as [z |]; simpl; [| set_solver]. specialize (Hf z eq_refl). set_solver. }
  split; [split; simpl; [by split | |] |].
  - rewrite next_state_dom, Ha, Ho. set_solver.
  - rewrite next_state_dom. set_solver.
  - intros z Hz. rewrite Hz in Hnew. simpl in Hnew. set_solver.
Qed.

#[export] Instance resource_protocol : Protocol E W (gmap Z S) := {
  view := resources_of;
  next := @next_state E S RE;
  pre := @uses E S RE;
  post := λ R e r m, ∀ z, opens e r = Some z → z ∉ dom m;
  Inv := resources_inv;
  view_next := λ R e r l, eq_refl;
  Inv_call := resources_inv_call }.

Lemma resources_inv_start s : opened s = others → resources_inv (World s []).
Proof. intros Hs. split; simpl; [done | set_solver..]. Qed.
End Resources.
