(* ===== verification/Socket.v ===== *)
(** * Socket: system calls and the owner of a file descriptor

    Models io/Socket.hh over the socket calls of the operating system.  The
    calls are effects; a kernel is a [Handler] of them, constrained by
    [KernelSpec] to what POSIX documents of descriptors: [socket] and [accept]
    answer a negative number or a descriptor that was not open, [close] gives
    its descriptor back, no other call opens or closes one. *)

From stdpp Require Import base tactics numbers list option gmap sets strings.
From Stdlib Require Import ZArith Lia.
From S2P Require Import Prelude Text Effects.
#[local] Open Scope Z_scope.
#[local] Set Warnings "-clear-no-such-hyp".

(** ** Addresses *)

Definition AF_INET : Z := 2.
Definition INADDR_ANY : Z := 0.
Definition MSG_NOSIGNAL : Z := 16384.

(** The fields of [sockaddr_in]; [sin_port] and [s_addr] are in network order. *)
Record sockaddr_in : Type := MkAddr { sin_family : Z; sin_port : Z; s_addr : Z }.

#[export] Instance sockaddr_in_eq_dec : EqDecision sockaddr_in.
Proof. solve_decision. Defined.

(** [htons] on a little-endian machine: the two bytes change places. *)
Definition htons (p : Z) : Z := Z.lor (Z.shiftl (Z.land p 255) 8) (Z.land (Z.shiftr p 8) 255).

(** The bytes of a 16-bit member in memory, the one at the lower address first. *)
Definition u16_bytes (x : Z) : Z * Z := (x mod 256, x / 256).

Lemma lor_shift_byte x b : Z.lor (Z.shiftl x 8) (Z.land b 255) = x * 256 + b mod 256.
Proof.
  assert (Z.land (Z.shiftl x 8) (Z.land b 255) = 0) as Hdisj.
  { change 255 with (Z.ones 8). apply Z.bits_inj'. intros i Hi. rewrite !Z.land_spec, Z.bits_0.
    destruct (Z.ltb_spec i 8).
    - by rewrite Z.shiftl_spec_low.
    - rewrite Z.ones_spec_high by lia. by rewrite !andb_false_r. }
  rewrite <-Z.lxor_lor, <-Z.add_nocarry_lxor by done. f_equal.
  - by rewrite Z.shiftl_mul_pow2.
  - change 255 with (Z.ones 8). by rewrite Z.land_ones.
Qed.

(** Network byte order: the high byte is the first in memory. *)
Lemma htons_bytes p : u16_bytes (htons p) = ((p / 256) mod 256, p mod 256).
Proof.
  unfold u16_bytes, htons. rewrite lor_shift_byte, Z.shiftr_div_pow2 by lia.
  change 255 with (Z.ones 8). rewrite Z.land_ones by lia. change (2 ^ 8) with 256.
  pose proof (Z.mod_pos_bound (p / 256) 256). rewrite Z.add_comm. f_equal.
  - rewrite Z_mod_plus_full. apply Z.mod_small. lia.
  - rewrite Z.div_add, Z.div_small; lia.
Qed.

(** The parts of the C and C++ libraries the network classes use: the parsers
    of dotted addresses ([inet_pton] answers nothing when it returns 0) and
    what a moved-from [std::string] holds. *)
Class Libc : Type := {
  inet_addr : str → Z;
  inet_pton : str → option Z;
  moved_string : str → str }.

(** ** System calls *)

Inductive sock_type : Type := SOCK_STREAM | SOCK_DGRAM.

Inductive sys : Type → Type :=
| sys_socket (ty : sock_type) : sys Z
| sys_close (fd : Z) : sys Z
| sys_bind (fd : Z) (a : sockaddr_in) : sys Z
| sys_listen (fd backlog : Z) : sys Z
| sys_connect (fd : Z) (a : sockaddr_in) : sys Z
| sys_accept (fd : Z) : sys Z
| sys_send (fd : Z) (buf : list Z) (flags : Z) : sys Z
| sys_recv (fd len flags : Z) : sys (Z * list Z)
| sys_sendto (fd : Z) (buf : list Z) (flags : Z) (peer : sockaddr_in) : sys Z
| sys_recvfrom (fd len flags : Z) : sys (Z * list Z * sockaddr_in).

(** The descriptor a call opens, given its answer, and the one it closes. *)
Definition sys_opens {R} (e : sys R) : R → option Z :=
  match e in sys R return R → option Z with
  | sys_socket _ => λ r, if 0 <=? r then Some r else None
  | sys_accept _ => λ r, if 0 <=? r then Some r else None
  | _ => λ _, None
  end.
Definition sys_closes {R} (e : sys R) : option Z :=
  match e with sys_close fd => Some fd | _ => None end.

(** ** What the history says of a descriptor *)

Inductive fdstate : Type :=
| Created (ty : sock_type)
| Bound (ty : sock_type) (a : sockaddr_in)
| Listening (a : sockaddr_in) (backlog : Z)
| Connected (a : sockaddr_in)
| Accepted.

Definition bind_to (a : sockaddr_in) (s : fdstate) : fdstate :=
  match s with Created ty => Bound ty a | _ => s end.
Definition listen_on (n : Z) (s : fdstate) : fdstate :=
  match s with Bound SOCK_STREAM a => Listening a n | _ => s end.
Definition connect_to (a : sockaddr_in) (s : fdstate) : fdstate :=
  match s with Created SOCK_STREAM => Connected a | _ => s end.

Abbreviation fds := (gmap Z fdstate).

Definition next_fds {R} (e : sys R) : R → fds → fds :=
  match e in sys R return R → fds → fds with
  | sys_socket ty => λ r m, if 0 <=? r then <[r := Created ty]> m else m
  | sys_close fd => λ _ m, delete fd m
  | sys_bind fd a => λ r m, if 0 <=? r then alter (bind_to a) fd m else m
  | sys_listen fd n => λ r m, if 0 <=? r then alter (listen_on n) fd m else m
  | sys_connect fd a => λ r m, if 0 <=? r then alter (connect_to a) fd m else m
  | sys_accept _ => λ r m, if 0 <=? r then <[r := Accepted]> m else m
  | _ => λ _ m, m
  end.

Lemma dom_alter_fds (f : fdstate → fdstate) fd (m : fds) : dom (alter f fd m) = dom m.
Proof. apply dom_alter_L. Qed.

Lemma next_fds_dom {R} (e : sys R) r m :
  dom (next_fds e r m) = (dom m ∖ singleton_of (sys_closes e)) ∪ singleton_of (sys_opens e r).
Proof.
  destruct e; simpl; try case_match; simpl; rewrite ?dom_alter_fds, ?dom_insert_L, ?dom_delete_L; set_solver.
Qed.

(** The only misuse of a descriptor that can hurt another part of the process
    is closing one that is not held; the other calls answer an error. *)
Definition sys_uses {R} (e : sys R) (m : fds) : Prop := ∀ fd, sys_closes e = Some fd → fd ∈ dom m.

#[export] Instance sys_resources : ResourceEffect sys fdstate := {
  opens := @sys_opens;
  closes := @sys_closes;
  uses := @sys_uses;
  next_state := @next_fds;
  closes_used := λ R e m z Hu Hc, Hu z Hc;
  next_state_dom := @next_fds_dom }.

Abbreviation KernelSpec K := (ResourceSpec sys fdstate K).
Abbreviation fds_of l := (resources_of (S := fdstate) l).
Abbreviation kernel_inv w := (resources_inv (S := fdstate) w).

Lemma fds_of_nonneg (l : list (event sys)) fd : fd ∈ dom (fds_of l) → 0 ≤ fd.
Proof.
  induction l as [| [R e r] l IH]; simpl; [set_solver |].
  rewrite next_fds_dom. destruct e; simpl; try case_match; zify_bool; set_solver by lia.
Qed.

(** ** The class Socket *)

Record Socket : Type := MkSocket { m_fd : Z }.

Definition default_construct : Socket := MkSocket (-1).
Definition construct (fd : Z) : Socket := MkSocket fd.

(** The new socket and what is left of [other]. *)
Definition move_construct (other : Socket) : Socket * Socket := (MkSocket (m_fd other), MkSocket (-1)).

(** [if (m_fd >= 0) close(m_fd);] *)
Definition close_fd (s : Socket) : prog sys () :=
  if 0 <=? m_fd s then do! _ := trigger (sys_close (m_fd s)) in Done () else Done ().

(** [self] tells whether [this == &other]. *)
Definition move_assign (self : bool) (this other : Socket) : prog sys (Socket * Socket) :=
  if self then Done (this, other) else
  do! _ := close_fd this in
  Done (MkSocket (m_fd other), MkSocket (-1)).

Definition destroy (s : Socket) : prog sys () := close_fd s.

Definition to_int (s : Socket) : Z := m_fd s.

Definition assign_fd (s : Socket) (newfd : Z) : prog sys Socket :=
  do! _ := close_fd s in Done (MkSocket newfd).

Definition valid (s : Socket) : bool := 0 <=? m_fd s.

Definition reset (s : Socket) (newfd : Z) : prog sys Socket :=
  do! _ := close_fd s in Done (MkSocket newfd).

(** ** Ownership

    [changes m a m' a'] is what an operation on one object may do to the
    descriptors of the process when the object owned [a] before and owns [a']
    after: the old one is closed unless kept, the new one is open and was not
    owned by anyone, and no other descriptor is touched. *)

Definition owns (a : Z) (m : fds) : Prop := 0 ≤ a → a ∈ dom m.

Record changes (m : fds) (a : Z) (m' : fds) (a' : Z) : Prop := {
  ch_frame : ∀ fd, 0 ≤ fd → fd ≠ a → fd ≠ a' → m' !! fd = m !! fd;
  ch_owned : owns a' m';
  ch_closed : 0 ≤ a → a ≠ a' → m' !! a = None;
  ch_new : 0 ≤ a' → a ≠ a' → m !! a' = None }.

Lemma changes_refl m a : owns a m → changes m a m a.
Proof. by split. Qed.

Lemma changes_trans m a m1 a1 m2 a2 :
  changes m a m1 a1 → changes m1 a1 m2 a2 → changes m a m2 a2.
Proof.
  intros [F1 O1 C1 N1] [F2 O2 C2 N2]. split.
  - intros fd Hfd Ha Ha2. destruct (decide (fd = a1)) as [-> |]; [| by rewrite F2, F1].
    by rewrite C2, N1 by auto.
  - done.
  - intros Ha Hne. destruct (decide (a = a1)) as [-> |]; [by apply C2 |]. rewrite F2 by done. by apply C1.
  - intros Ha2 Hne. destruct (decide (a1 = a2)) as [-> |]; [by apply N1 |].
    destruct (decide (a2 = a)) as [-> |]; [done |]. rewrite <-F1 by done. by apply N2.
Qed.

Lemma changes_drop m a b : b < 0 → changes m a (delete a m) b.
Proof.
  intros Hb. split; [| unfold owns; lia | | lia].
  - intros fd ???. by rewrite lookup_delete_ne.
  - intros _ _. apply lookup_delete_eq.
Qed.

Lemma changes_open m a b s : 0 ≤ b → a < 0 → b ∉ dom m → changes m a (<[b := s]> m) b.
Proof.
  intros Hb Ha Hfresh. split; [| | lia |].
  - intros fd ???. by rewrite lookup_insert_ne.
  - intros _. rewrite dom_insert. set_solver.
  - intros _ _. by apply not_elem_of_dom.
Qed.

Lemma changes_alter m a f : owns a m → changes m a (alter f a m) a.
Proof.
  intros Ho. split; [| | done..].
  - intros fd ???. by rewrite lookup_alter_ne.
  - intros Ha. rewrite dom_alter. auto.
Qed.

(** The new descriptor is open before the old one is closed. *)
Lemma changes_replace m a r s :
  owns a m → 0 ≤ r → r ∉ dom m →
  changes m a (if 0 <=? a then delete a (<[r := s]> m) else <[r := s]> m) r ∧
  (if 0 <=? a then delete a (<[r := s]> m) else <[r := s]> m) !! r = Some s.
Proof.
  intros Ho Hr Hfresh. case_match eqn:E; zify_bool.
  - assert (a ≠ r) by (intros ->; auto).
    assert (Hl : delete a (<[r := s]> m) !! r = Some s) by (rewrite lookup_delete_ne by done; apply lookup_insert_eq).
    split; [split | done].
    + intros fd ???. by rewrite lookup_delete_ne, lookup_insert_ne.
    + intros _. by apply elem_of_dom_2 in Hl.
    + intros _ _. apply lookup_delete_eq.
    + intros _ _. by apply not_elem_of_dom.
  - split; [by apply changes_open | apply lookup_insert_eq].
Qed.
#[export] Hint Resolve changes_refl changes_drop changes_open changes_alter changes_trans : fiah.

Lemma changes_none m a b : a < 0 → b < 0 → changes m a m b.
Proof. split; [done | unfold owns; lia..]. Qed.
#[export] Hint Resolve changes_none : fiah.

Lemma changes_then_alter m a m' a' f : changes m a m' a' → changes m a (alter f a' m') a'.
Proof. intros Hc. eapply changes_trans; [done |]. apply changes_alter, (ch_owned _ _ _ _ Hc). Qed.
#[export] Hint Resolve changes_then_alter : fiah.

Lemma owns_none a m : a < 0 → owns a m.
Proof. unfold owns. lia. Qed.
#[export] Hint Resolve owns_none ch_owned : fiah.

Section SocketSpec.
Context {K : Type} {H : Handler sys K} {KS : KernelSpec K}.

Lemma close_fd_spec s m :
  owns (m_fd s) m →
  hoare m (close_fd s) (λ _ m', ∀ b, b < 0 → changes m (m_fd s) m' b ∧ m' = if 0 <=? m_fd s then delete (m_fd s) m else m).
Proof.
  intros Ho. unfold close_fd. case_match eqn:E; zify_bool.
  - apply hoare_bind, hoare_call; [intros fd [= <-]; auto |]. intros r _.
    apply hoare_done, hoare_done. simpl. auto with fiah.
  - apply hoare_done. intros b Hb. split; [| done]. split; [done | unfold owns; lia..].
Qed.

Lemma move_assign_spec this other m :
  owns (m_fd this) m →
  hoare m (move_assign false this other) (λ '(t, o) m',
    t = other ∧ o = MkSocket (-1) ∧ changes m (m_fd this) m' (-1)).
Proof.
  intros Ho. apply hoare_bind. eapply hoare_mono; [by apply close_fd_spec |].
  intros [] m' Hc. apply hoare_done. destruct other. split_and!; [done..|]. apply Hc. lia.
Qed.

(** A descriptor just opened, and owned by nobody yet, is handed to a socket. *)
Lemma assign_fd_spec s m r st :
  owns (m_fd s) m → 0 ≤ r → r ∉ dom m →
  hoare (<[r := st]> m) (assign_fd s r) (λ s' m',
    s' = MkSocket r ∧ changes m (m_fd s) m' r ∧ m' !! r = Some st).
Proof.
  intros Ho Hr Hfresh. apply hoare_bind. eapply hoare_mono.
  { apply close_fd_spec. intros Ha. rewrite dom_insert. set_solver. }
  intros [] m' Hc. apply hoare_done. destruct (Hc (-1)) as [_ ->]; [lia |].
  split; [done |]. by apply changes_replace.
Qed.

Lemma assign_fd_none_spec s m r :
  owns (m_fd s) m → r < 0 →
  hoare m (assign_fd s r) (λ s' m', s' = MkSocket r ∧ changes m (m_fd s) m' r).
Proof.
  intros Ho Hr. apply hoare_bind. eapply hoare_mono; [by apply close_fd_spec |].
  intros [] m' Hc. apply hoare_done. split; [done | by apply Hc].
Qed.

(** The two outcomes of a call of [::socket] or [::accept]. *)
Lemma hoare_socket {A} ty m (k : Z → prog sys A) Q :
  (∀ r, r < 0 → hoare m (k r) Q) →
  (∀ r, 0 ≤ r → r ∉ dom m → hoare (<[r := Created ty]> m) (k r) Q) →
  hoare m (pbind (trigger (sys_socket ty)) k) Q.
Proof.
  intros Hno Hyes. apply hoare_bind, hoare_call; [done |]. intros r Hr. apply hoare_done. simpl in *.
  destruct (Z.leb_spec 0 r); auto.
Qed.

Lemma hoare_accept {A} fd m (k : Z → prog sys A) Q :
  (∀ r, r < 0 → hoare m (k r) Q) →
  (∀ r, 0 ≤ r → r ∉ dom m → hoare (<[r := Accepted]> m) (k r) Q) →
  hoare m (pbind (trigger (sys_accept fd)) k) Q.
Proof.
  intros Hno Hyes. apply hoare_bind, hoare_call; [done |]. intros r Hr. apply hoare_done. simpl in *.
  destruct (Z.leb_spec 0 r); auto.
Qed.

(** A call that neither opens nor closes a descriptor. *)
Lemma hoare_quiet {A R} (e : sys R) m (k : R → prog sys A) Q :
  sys_closes e = None → (∀ r, sys_opens e r = None) → (∀ r, hoare (next_fds e r m) (k r) Q) →
  hoare m (pbind (trigger e) k) Q.
Proof.
  intros Hc Ho Hk. apply hoare_bind, hoare_call; [intros fd; by rewrite Hc |]. intros r _. by apply hoare_done.
Qed.
End SocketSpec.

(** ** A kernel

    The least descriptor above all open ones is given out; the calls that may
    fail do so as the plan says. *)

Module DemoKernel.
Record kernel : Type := Kernel { open_fds : gset Z; plan : list bool }.

Definition top (X : gset Z) : Z := foldr Z.max 2 (elements X).
Definition next_plan (l : list bool) : bool * list bool :=
  match l with b :: l => (b, l) | [] => (true, []) end.

Definition open_one (k : kernel) : Z * kernel :=
  let '(ok, l) := next_plan (plan k) in
  if ok : bool then (1 + top (open_fds k), Kernel ({[1 + top (open_fds k)]} ∪ open_fds k) l)
  else (-1, Kernel (open_fds k) l).

Definition plain (k : kernel) : Z * kernel :=
  let '(ok, l) := next_plan (plan k) in (if ok : bool then 0 else -1, Kernel (open_fds k) l).

#[export] Instance demo_handler : Handler sys kernel := λ R e,
  match e in sys R return kernel → R * kernel with
  | sys_socket _ | sys_accept _ => open_one
  | sys_close fd => λ k, (0, Kernel (difference (open_fds k) {[fd]}) (plan k))
  | sys_bind _ _ | sys_listen _ _ | sys_connect _ _ => plain
  | sys_send _ buf _ => λ k, (Z.of_nat (length buf), k)
  | sys_sendto _ buf _ _ => λ k, (Z.of_nat (length buf), k)
  | sys_recv _ _ _ => λ k, ((0, []), k)
  | sys_recvfrom _ _ _ => λ k, ((0, [], MkAddr 0 0 0), k)
  end.

Lemma top_fresh X : 1 + top X ∉ X.
Proof.
  assert (Hle : ∀ l x, x ∈ l → x ≤ foldr Z.max 2 l).
  { induction l as [| y l IH]; intros x Hx; [by apply not_elem_of_nil in Hx |]. simpl.
    apply elem_of_cons in Hx as [-> | Hx]; [lia |]. specialize (IH x Hx). lia. }
  intros Hin. apply elem_of_elements in Hin. specialize (Hle _ _ Hin). unfold top in Hle. lia.
Qed.

Lemma top_nonneg X : 2 ≤ top X.
Proof. unfold top. induction (elements X) as [| x l IH]; simpl; lia. Qed.

Lemma open_one_spec k :
  let '(r, k') := open_one k in
  match (if 0 <=? r then Some r else None) with
  | Some r => (r ∉ open_fds k) ∧ (open_fds k' = {[r]} ∪ open_fds k)
  | None => open_fds k' = open_fds k
  end.
Proof.
  unfold open_one. destruct (next_plan (plan k)) as [[] l]; [| done].
  pose proof (top_nonneg (open_fds k)). rewrite (proj2 (Z.leb_le 0 _)) by lia.
  split; [apply top_fresh | done].
Qed.

Lemma demo_opens_fresh R (e : sys R) k fd : sys_opens e (handle e k).1 = Some fd → fd ∉ open_fds k.
Proof.
  unfold handle, demo_handler. destruct e; simpl; try done; pose proof (open_one_spec k) as Hs;
    destruct (open_one k) as [r k']; simpl; intros Hr; rewrite Hr in Hs; by destruct Hs.
Qed.

Lemma demo_opened_after R (e : sys R) k :
  open_fds (handle e k).2 = (open_fds k ∖ singleton_of (sys_closes e)) ∪ singleton_of (sys_opens e (handle e k).1).
Proof.
  unfold handle, demo_handler. destruct e; simpl; try (unfold plain; destruct (next_plan (plan k)) as [[] ?]; simpl; set_solver);
    try set_solver;
    pose proof (open_one_spec k) as Hs; destruct (open_one k) as [r k']; simpl in *; destruct (0 <=? r); simpl; set_solver.
Qed.

#[export] Instance demo_spec : KernelSpec kernel := {|
  opened := open_fds; others := {[0; 1; 2]};
  opens_fresh := demo_opens_fresh; opened_after := demo_opened_after |}.

#[export] Instance demo_libc : Libc := {
  inet_addr := λ s, if bool_decide (s = lit "127.0.0.1"%string) then 16777343 else 2 ^ 32 - 1;
  inet_pton := λ s, if bool_decide (s = lit "127.0.0.1"%string) then Some 16777343 else None;
  moved_string := λ _, [] }.

Definition home : str := lit "127.0.0.1"%string.

Definition boot (l : list bool) : kernel := Kernel {[0; 1; 2]} l.
End DemoKernel.
