(* ===== verification/Tcp.v ===== *)
(** * Tcp: the connection classes over TCP

    Models io/Tcp.hh, io/TcpClient.hh and io/TcpServer.hh.  [std::expected] is
    a sum; an operation that changes its object answers the new one.  Logging
    and the timers of TcpServer are left out. *)

From stdpp Require Import base tactics numbers list option gmap sets strings.
From Stdlib Require Import ZArith Lia.
From S2P Require Import Prelude Text Effects Socket.
#[local] Open Scope Z_scope.
#[local] Set Warnings "-clear-no-such-hyp".

(** ** Tcp *)

Inductive TcpError : Type :=
| BAD_SOCKET | BIND_FAIL | LISTEN_FAIL | CONNECT_FAIL | ACCEPT_FAIL | SEND_FAIL | RECV_FAIL | INVALID_IP.

Record Tcp : Type := MkTcp { _ip : str; _port : Z; m_sock : Socket; _running : bool }.

Definition set_sock (t : Tcp) (s : Socket) : Tcp := MkTcp (_ip t) (_port t) s (_running t).
Definition set_running (t : Tcp) (b : bool) : Tcp := MkTcp (_ip t) (_port t) (m_sock t) b.

Definition default_construct : Tcp := MkTcp [] 0 Socket.default_construct false.
Definition construct (ip : str) (port : Z) : Tcp := MkTcp ip (u16 port) (Socket.construct (-1)) false.

Section Tcp.
Context {L : Libc}.

(** The moves are defaulted: member by member. *)
Definition move_construct (other : Tcp) : Tcp * Tcp :=
  let '(s, s') := Socket.move_construct (m_sock other) in
  (MkTcp (_ip other) (_port other) s (_running other),
   MkTcp (moved_string (_ip other)) (_port other) s' (_running other)).

Definition move_assign (self : bool) (this other : Tcp) : prog sys (Tcp * Tcp) :=
  do! (s, s') := Socket.move_assign self (m_sock this) (m_sock other) in
  if self then Done (this, other) else
  Done (MkTcp (_ip other) (_port other) s (_running other),
        MkTcp (moved_string (_ip other)) (_port other) s' (_running other)).

Definition destroy (t : Tcp) : prog sys () := Socket.destroy (m_sock t).

Definition create_socket (t : Tcp) : prog sys ((() + TcpError) * Tcp) :=
  do! fd := trigger (sys_socket SOCK_STREAM) in
  if fd <? 0 then Done (inr BAD_SOCKET, t) else
  do! s := assign_fd (m_sock t) fd in
  Done (inl (), set_sock t s).

Definition get_fd (t : Tcp) : Z := to_int (m_sock t).

Definition send_data (t : Tcp) (buf : list Z) (flags : Z) : prog sys Z :=
  trigger (sys_send (to_int (m_sock t)) buf flags).

Definition recv_data (t : Tcp) (len flags : Z) : prog sys (Z * list Z) :=
  trigger (sys_recv (to_int (m_sock t)) len flags).

(** ** TcpClient *)

Definition connect_to_server (t : Tcp) : prog sys ((() + TcpError) * Tcp) :=
  do! (created, t) := create_socket t in
  if created is inl _ then
    match inet_pton (_ip t) with
    | None => Done (inr INVALID_IP, t)
    | Some addr =>
        let server := MkAddr AF_INET (htons (_port t)) addr in
        do! r := trigger (sys_connect (to_int (m_sock t)) server) in
        if r <? 0 then Done (inr CONNECT_FAIL, t) else Done (inl (), t)
    end
  else Done (inr BAD_SOCKET, t).

Definition client_send (t : Tcp) (buf : list Z) : prog sys (Z + TcpError) :=
  do! result := send_data t buf 0 in
  if result <? 0 then Done (inr SEND_FAIL) else Done (inl (u64 result)).

(** The number of bytes and what was stored in the buffer. *)
Definition client_recv (t : Tcp) (len : Z) : prog sys (Z * list Z + TcpError) :=
  do! (result, bytes) := recv_data t len 0 in
  if result <? 0 then Done (inr RECV_FAIL) else Done (inl (u64 result, bytes)).

(** ** TcpServer *)

Definition MAX_LISTEN_NUM : Z := 10.

Definition start (t : Tcp) : prog sys ((() + TcpError) * Tcp) :=
  do! (created, t) := create_socket t in
  if created is inl _ then
    let addr := MkAddr AF_INET (htons (_port t)) (inet_addr (_ip t)) in
    do! r := trigger (sys_bind (to_int (m_sock t)) addr) in
    if r <? 0 then Done (inr BIND_FAIL, t) else
    do! r := trigger (sys_listen (to_int (m_sock t)) MAX_LISTEN_NUM) in
    if r <? 0 then Done (inr LISTEN_FAIL, t) else
    Done (inl (), set_running t true)
  else Done (inr BAD_SOCKET, t).

(** The temporary socket is moved into the result and destroyed. *)
Definition accept_client (t : Tcp) : prog sys (Socket + TcpError) :=
  do! client_fd := trigger (sys_accept (to_int (m_sock t))) in
  if client_fd <? 0 then Done (inr BAD_SOCKET) else
  let '(result, temporary) := Socket.move_construct (Socket.construct client_fd) in
  do! _ := Socket.destroy temporary in
  Done (inl result).

Definition server_send (client : Socket) (buf : list Z) : prog sys (Z + TcpError) :=
  do! result := trigger (sys_send (to_int client) buf MSG_NOSIGNAL) in
  if result <? 0 then Done (inr SEND_FAIL) else Done (inl (u64 result)).

Definition server_recv (client : Socket) (len : Z) : prog sys (Z * list Z + TcpError) :=
  do! (result, bytes) := trigger (sys_recv (to_int client) len 0) in
  if result <? 0 then Done (inr RECV_FAIL) else Done (inl (u64 result, bytes)).

(** ** What the operations do to the descriptors *)

Abbreviation fd_of t := (Socket.m_fd (m_sock t)).
Context {K : Type} {H : Handler sys K} {KS : KernelSpec K}.

Lemma create_socket_spec t m :
  owns (fd_of t) m →
  hoare m (create_socket t) (λ '(r, t') m',
    match r with
    | inl _ => t' = set_sock t (m_sock t') ∧ 0 ≤ fd_of t' ∧ changes m (fd_of t) m' (fd_of t') ∧
               m' !! fd_of t' = Some (Created SOCK_STREAM)
    | inr e => e = BAD_SOCKET ∧ t' = t ∧ m' = m
    end).
Proof.
  intros Ho. apply hoare_socket; intros r Hr.
  - rewrite (proj2 (Z.ltb_lt _ _) Hr). by apply hoare_done.
  - intros Hfresh. rewrite (proj2 (Z.ltb_ge _ _)) by done. apply hoare_bind.
    eapply hoare_mono; [by apply assign_fd_spec |]. intros s m' (-> & ? & ?). by apply hoare_done.
Qed.

(** A failed call leaves the socket in the state it had reached. *)
Definition socket_state (t : Tcp) (m : fds) : option fdstate := m !! fd_of t.

Lemma start_spec t m :
  owns (fd_of t) m →
  hoare m (start t) (λ '(r, t') m',
    changes m (fd_of t) m' (fd_of t') ∧
    let addr := MkAddr AF_INET (htons (_port t)) (inet_addr (_ip t)) in
    match r with
    | inl _ => t' = MkTcp (_ip t) (_port t) (m_sock t') true ∧ socket_state t' m' = Some (Listening addr MAX_LISTEN_NUM)
    | inr BAD_SOCKET => t' = t ∧ m' = m
    | inr BIND_FAIL => t' = set_sock t (m_sock t') ∧ socket_state t' m' = Some (Created SOCK_STREAM)
    | inr LISTEN_FAIL => t' = set_sock t (m_sock t') ∧ socket_state t' m' = Some (Bound SOCK_STREAM addr)
    | _ => False
    end).
Proof.
  intros Ho. apply hoare_bind. eapply hoare_mono; [by apply create_socket_spec |].
  intros [[[] | e] t'] m'; [| intros (-> & -> & ->); apply hoare_done; auto with fiah].
  destruct t' as [ip port s run]. intros ([= -> -> ->] & Hfd & Hch & Hst). simpl in *.
  apply hoare_quiet; [done..|]. intros r. destruct (Z.ltb_spec r 0) as [Hr | Hr].
  { apply hoare_done. simpl. by rewrite (proj2 (Z.leb_gt 0 r) Hr). }
  apply hoare_quiet; [done..|]. intros r'. simpl. rewrite (proj2 (Z.leb_le 0 r) Hr).
  destruct (Z.ltb_spec r' 0) as [Hr' | Hr'];
    [rewrite (proj2 (Z.leb_gt 0 r') Hr') | rewrite (proj2 (Z.leb_le 0 r') Hr')];
    apply hoare_done; unfold socket_state; simpl; unfold to_int; rewrite ?lookup_alter_eq, Hst; split_and!; try done;
    auto with fiah.
Qed.

Lemma connect_spec t m :
  owns (fd_of t) m →
  hoare m (connect_to_server t) (λ '(r, t') m',
    changes m (fd_of t) m' (fd_of t') ∧
    match r with
    | inl _ => t' = set_sock t (m_sock t') ∧
        ∃ a, inet_pton (_ip t) = Some a ∧
             socket_state t' m' = Some (Connected (MkAddr AF_INET (htons (_port t)) a))
    | inr BAD_SOCKET => t' = t ∧ m' = m
    | inr INVALID_IP => t' = set_sock t (m_sock t') ∧ inet_pton (_ip t) = None ∧
        socket_state t' m' = Some (Created SOCK_STREAM)
    | inr CONNECT_FAIL => t' = set_sock t (m_sock t') ∧ socket_state t' m' = Some (Created SOCK_STREAM)
    | _ => False
    end).
Proof.
  intros Ho. apply hoare_bind. eapply hoare_mono; [by apply create_socket_spec |].
  intros [[[] | e] t'] m'; [| intros (-> & -> & ->); apply hoare_done; auto with fiah].
  destruct t' as [ip port s run]. intros ([= -> -> ->] & Hfd & Hch & Hst). simpl in *.
  destruct (inet_pton (_ip t)) as [a |] eqn:Ha; [| by apply hoare_done].
  apply hoare_quiet; [done..|]. intros r. destruct (Z.ltb_spec r 0) as [Hr | Hr].
  { apply hoare_done. simpl. by rewrite (proj2 (Z.leb_gt 0 r) Hr). }
  apply hoare_done. simpl. rewrite (proj2 (Z.leb_le 0 r) Hr).
  split; [auto with fiah |]. split; [done |]. exists a. split; [done |].
  unfold socket_state. simpl. unfold to_int. by rewrite lookup_alter_eq, Hst.
Qed.

Lemma accept_spec t m :
  hoare m (accept_client t) (λ r m',
    match r with
    | inl s => 0 ≤ Socket.m_fd s ∧ changes m (-1) m' (Socket.m_fd s) ∧ m' !! Socket.m_fd s = Some Accepted
    | inr e => e = BAD_SOCKET ∧ m' = m
    end).
Proof.
  apply hoare_accept; intros r Hr.
  - rewrite (proj2 (Z.ltb_lt _ _) Hr). by apply hoare_done.
  - intros Hfresh. rewrite (proj2 (Z.ltb_ge _ _)) by done. apply hoare_done. simpl.
    split_and!; [done | apply changes_open; [done | lia | done] | apply lookup_insert_eq].
Qed.

Lemma move_assign_tcp_spec this other m :
  owns (fd_of this) m →
  hoare m (move_assign false this other) (λ '(t, o) m',
    t = other ∧ o = MkTcp (moved_string (_ip other)) (_port other) (MkSocket (-1)) (_running other) ∧
    changes m (fd_of this) m' (-1)).
Proof.
  intros Ho. apply hoare_bind. eapply hoare_mono; [by apply move_assign_spec |].
  intros [s s'] m' (-> & -> & Hc). apply hoare_done. by destruct other.
Qed.

(** C15: TcpServer::start answers success exactly when its socket was created,
    bound to the server's address and put to listen with a backlog of 10; each
    error names the first call that failed, and leaves the socket in the state
    the previous calls gave it.  The old socket is closed in every case but
    BAD_SOCKET, and no other descriptor changes. *)
Theorem server_start_correct t w :
  kernel_inv w → owns (fd_of t) (fds_of (history w)) →
  let '((r, t'), w') := run_prog (start t) w in
  let addr := MkAddr AF_INET (htons (_port t)) (inet_addr (_ip t)) in
  changes (fds_of (history w)) (fd_of t) (fds_of (history w')) (fd_of t') ∧
  match r with
  | inl _ => t' = MkTcp (_ip t) (_port t) (m_sock t') true ∧
             socket_state t' (fds_of (history w')) = Some (Listening addr MAX_LISTEN_NUM)
  | inr BAD_SOCKET => t' = t ∧ fds_of (history w') = fds_of (history w)
  | inr BIND_FAIL => t' = set_sock t (m_sock t') ∧
             socket_state t' (fds_of (history w')) = Some (Created SOCK_STREAM)
  | inr LISTEN_FAIL => t' = set_sock t (m_sock t') ∧
             socket_state t' (fds_of (history w')) = Some (Bound SOCK_STREAM addr)
  | inr _ => False
  end.
Proof.
  intros Hw Ho. pose proof (start_spec t _ Ho w Hw eq_refl) as Hs.
  destruct (run_prog (start t) w) as [[r t'] w']. destruct Hs as [_ [Hc Hr]].
  split; [done |]. by destruct r as [? | []].
Qed.

(** TcpClient::connect_to_server answers success exactly when the address
    parses, the socket was created and it is connected to that address and
    port; INVALID_IP is answered for an address that does not parse, and only
    then, and on every error no other descriptor changes. *)
Theorem client_connect_correct t w :
  kernel_inv w → owns (fd_of t) (fds_of (history w)) →
  let '((r, t'), w') := run_prog (connect_to_server t) w in
  changes (fds_of (history w)) (fd_of t) (fds_of (history w')) (fd_of t') ∧
  match r with
  | inl _ => t' = set_sock t (m_sock t') ∧
      ∃ a, inet_pton (_ip t) = Some a ∧
        socket_state t' (fds_of (history w')) = Some (Connected (MkAddr AF_INET (htons (_port t)) a))
  | inr BAD_SOCKET => t' = t ∧ fds_of (history w') = fds_of (history w)
  | inr INVALID_IP => t' = set_sock t (m_sock t') ∧ inet_pton (_ip t) = None ∧
      socket_state t' (fds_of (history w')) = Some (Created SOCK_STREAM)
  | inr CONNECT_FAIL => t' = set_sock t (m_sock t') ∧
      socket_state t' (fds_of (history w')) = Some (Created SOCK_STREAM)
  | inr _ => False
  end.
Proof.
  intros Hw Ho. pose proof (connect_spec t _ Ho w Hw eq_refl) as Hs.
  destruct (run_prog (connect_to_server t) w) as [[r t'] w']. destruct Hs as [_ [Hc Hr]].
  split; [done |]. by destruct r as [? | []].
Qed.
End Tcp.

(** ** Concrete calls *)

Module Demo.
Import DemoKernel.
#[local] Open Scope string_scope.

Definition server : Tcp := construct home 8080.
Definition machine (l : list bool) : world sys kernel := World (boot l) [].

(** The results of starting a server when the n-th call fails. *)
Example start_results :
  (λ l, (run_prog (start server) (machine l)).1.1) <$>
    [[]; [false]; [true; false]; [true; true; false]] =
  [inl (); inr BAD_SOCKET; inr BIND_FAIL; inr LISTEN_FAIL].
Proof. by vm_compute. Qed.

(** A restart that fails keeps [_running] although nothing listens any more. *)
Example failed_restart :
  let '((_, t), w) := run_prog (start server) (machine [true; true; true; true; false]) in
  let '((r, t), w) := run_prog (start t) w in
  (r, _running t, socket_state t (fds_of (history w))) = (inr BIND_FAIL, true, Some (Created SOCK_STREAM)).
Proof. by vm_compute. Qed.

Lemma machine_inv l : kernel_inv (machine l).
Proof. by apply resources_inv_start. Qed.
End Demo.
Import DemoKernel.

Lemma server_start_correct_witness :
  let '((r, t'), w') := run_prog (start Demo.server) (Demo.machine []) in
  r = inl () ∧ socket_state t' (fds_of (history w')) = Some (Listening (MkAddr 2 36895 16777343) 10).
Proof.
  pose proof (server_start_correct Demo.server (Demo.machine []) (Demo.machine_inv [])
    (owns_none (-1) ∅ eq_refl)) as Hs.
  revert Hs. destruct (run_prog (start Demo.server) (Demo.machine [])) as [[r t'] w'] eqn:E.
  assert (r = inl ()) as -> by (apply (f_equal (λ x, x.1.1)) in E; vm_compute in E; by subst r).
  intros [_ [_ Hs]]. split; [reflexivity | exact Hs].
Defined.

Lemma client_connect_correct_witness :
  let '((r, t'), w') := run_prog (connect_to_server Demo.server) (Demo.machine []) in
  r = inl () ∧ socket_state t' (fds_of (history w')) = Some (Connected (MkAddr 2 36895 16777343)).
Proof.
  pose proof (client_connect_correct Demo.server (Demo.machine []) (Demo.machine_inv [])
    (owns_none (-1) ∅ eq_refl)) as Hs.
  revert Hs. destruct (run_prog (connect_to_server Demo.server) (Demo.machine [])) as [[r t'] w'] eqn:E.
  assert (r = inl ()) as -> by (apply (f_equal (λ x, x.1.1)) in E; vm_compute in E; by subst r).
  intros [_ [_ (a & Ha & Hs)]]. vm_compute in Ha. injection Ha as <-. split; [reflexivity | exact Hs].
Defined.
