(* ===== verification/Udp.v ===== *)
(** * Udp: datagram sockets

    Models io/Udp.hh: UdpBase, UdpServer and UdpClient.  A member that was
    never written is [None]. *)

From stdpp Require Import base tactics numbers list option gmap sets.
From Stdlib Require Import ZArith Lia.
From S2P Require Import Prelude Text Effects Socket.
#[local] Open Scope Z_scope.
#[local] Set Warnings "-clear-no-such-hyp".

Inductive UdpError : Type :=
| BAD_SOCKET | BIND_FAIL | LISTEN_FAIL | CONNECT_FAIL | ACCEPT_FAIL | SEND_FAIL | RECV_FAIL | INVALID_IP.

(** ** UdpBase: the operations on the socket both classes inherit *)

Definition create_socket (m_sock : Socket) : prog sys ((() + UdpError) * Socket) :=
  do! fd := trigger (sys_socket SOCK_DGRAM) in
  if fd <? 0 then Done (inr BAD_SOCKET, m_sock) else
  do! s := assign_fd m_sock fd in
  Done (inl (), s).

Definition base_send (m_sock : Socket) (buf : list Z) (peer : sockaddr_in) (flags : Z) : prog sys Z :=
  trigger (sys_sendto (to_int m_sock) buf flags peer).

Definition base_recv (m_sock : Socket) (len flags : Z) : prog sys (Z * list Z * sockaddr_in) :=
  trigger (sys_recvfrom (to_int m_sock) len flags).

(** ** UdpServer *)

Record UdpServer : Type := MkUdpServer {
  m_sock : Socket; m_ip : str; m_port : Z; m_started : bool }.

Definition server_default : UdpServer := MkUdpServer default_construct [] 0 false.
Definition server_construct (ip : str) (port : Z) : UdpServer :=
  MkUdpServer default_construct ip (u16 port) false.

Section Udp.
Context {L : Libc}.

Definition server_move (other : UdpServer) : UdpServer * UdpServer :=
  let '(s, s') := move_construct (m_sock other) in
  (MkUdpServer s (m_ip other) (m_port other) (m_started other),
   MkUdpServer s' (moved_string (m_ip other)) (m_port other) (m_started other)).

Definition server_move_assign (self : bool) (this other : UdpServer) : prog sys (UdpServer * UdpServer) :=
  do! (s, s') := move_assign self (m_sock this) (m_sock other) in
  if self then Done (this, other) else
  Done (MkUdpServer s (m_ip other) (m_port other) (m_started other),
        MkUdpServer s' (moved_string (m_ip other)) (m_port other) (m_started other)).

Definition server_addr (u : UdpServer) : sockaddr_in :=
  MkAddr AF_INET (htons (m_port u)) (inet_addr (m_ip u)).

Definition start (u : UdpServer) : prog sys ((() + UdpError) * UdpServer) :=
  if m_started u then Done (inl (), u) else
  do! (res, s) := create_socket (m_sock u) in
  let u := MkUdpServer s (m_ip u) (m_port u) (m_started u) in
  if res is inr e then Done (inr e, u) else
  do! r := trigger (sys_bind (to_int (m_sock u)) (server_addr u)) in
  if r <? 0 then Done (inr BIND_FAIL, u) else
  Done (inl (), MkUdpServer (m_sock u) (m_ip u) (m_port u) true).

Definition server_send (u : UdpServer) (buf : list Z) (peer : sockaddr_in) : prog sys Z :=
  base_send (m_sock u) buf peer 0.
Definition server_recv (u : UdpServer) (len : Z) : prog sys (Z * list Z * sockaddr_in) :=
  base_recv (m_sock u) len 0.

(** ** UdpClient *)

Record Peer : Type := MkPeer { p_family : option Z; p_port : option Z; p_addr : option Z }.
Record UdpClient : Type := MkUdpClient { c_sock : Socket; m_peer : Peer }.

Definition client_default : UdpClient := MkUdpClient default_construct (MkPeer None None None).

(** [udp_fail] traps or aborts when the socket cannot be created; the answer
    of [inet_pton] is ignored. *)
Definition client_construct (ip : str) (port : Z) : prog sys (outcome UdpClient) :=
  do! (res, s) := create_socket default_construct in
  if res is inr _ then Done Abort else
  Done (Ret (MkUdpClient s (MkPeer (Some AF_INET) (Some (htons (u16 port))) (inet_pton ip)))).

Definition bind_local (c : UdpClient) (port : Z) : prog sys (() + UdpError) :=
  let addr := MkAddr AF_INET (htons (u16 port)) INADDR_ANY in
  do! r := trigger (sys_bind (to_int (c_sock c)) addr) in
  if r <? 0 then Done (inr BIND_FAIL) else Done (inl ()).

Definition client_recv (c : UdpClient) (len : Z) : prog sys (Z * list Z * sockaddr_in) :=
  base_recv (c_sock c) len 0.
Definition get_sockaddr_in (c : UdpClient) : Peer := m_peer c.

Definition client_move (other : UdpClient) : UdpClient * UdpClient :=
  let '(s, s') := move_construct (c_sock other) in (MkUdpClient s (m_peer other), MkUdpClient s' (m_peer other)).

Definition client_move_assign (self : bool) (this other : UdpClient) : prog sys (UdpClient * UdpClient) :=
  do! (s, s') := move_assign self (c_sock this) (c_sock other) in
  if self then Done (this, other) else
  Done (MkUdpClient s (m_peer other), MkUdpClient s' (m_peer other)).

(** ** What the operations do to the descriptors *)

Abbreviation server_fd u := (Socket.m_fd (m_sock u)).
Abbreviation client_fd c := (Socket.m_fd (c_sock c)).
Context {K : Type} {H : Handler sys K} {KS : KernelSpec K}.

Lemma create_socket_udp_spec s m :
  owns (m_fd s) m →
  hoare m (create_socket s) (λ '(r, s') m',
    match r with
    | inl _ => 0 ≤ m_fd s' ∧ changes m (m_fd s) m' (m_fd s') ∧ m' !! m_fd s' = Some (Created SOCK_DGRAM)
    | inr e => e = BAD_SOCKET ∧ s' = s ∧ m' = m
    end).
Proof.
  intros Ho. apply hoare_socket; intros r Hr.
  - rewrite (proj2 (Z.ltb_lt _ _) Hr). by apply hoare_done.
  - intros Hfresh. rewrite (proj2 (Z.ltb_ge _ _)) by done. apply hoare_bind.
    eapply hoare_mono; [by apply assign_fd_spec |]. intros s' m' (-> & ? & ?). by apply hoare_done.
Qed.

(** A started server whose socket was not moved away is bound to its address. *)
Definition server_ready (u : UdpServer) (m : fds) : Prop :=
  m_started u = true → 0 ≤ server_fd u → m !! server_fd u = Some (Bound SOCK_DGRAM (server_addr u)).

Lemma start_udp_spec u m :
  owns (server_fd u) m → server_ready u m →
  hoare m (start u) (λ '(r, u') m',
    changes m (server_fd u) m' (server_fd u') ∧ server_ready u' m' ∧
    m_ip u' = m_ip u ∧ m_port u' = m_port u ∧
    match r with
    | inl _ => m_started u' = true
    | inr e => m_started u' = false ∧ (e = BAD_SOCKET ∨ e = BIND_FAIL)
    end).
Proof.
  intros Ho Hr. unfold start. destruct (m_started u) eqn:Hs; [apply hoare_done; auto with fiah |].
  apply hoare_bind. eapply hoare_mono; [by apply create_socket_udp_spec |].
  intros [[[] | e] s] m'; simpl.
  - intros (Hfd & Hch & Hst). apply hoare_quiet; [done..|]. intros r. simpl.
    destruct (Z.ltb_spec r 0) as [Hneg | Hpos]; apply hoare_done; unfold server_ready; simpl; unfold to_int.
    + rewrite (proj2 (Z.leb_gt 0 r) Hneg). split_and!; auto; congruence.
    + rewrite (proj2 (Z.leb_le 0 r) Hpos). split_and!; auto with fiah. intros _ _. by rewrite lookup_alter_eq, Hst.
  - intros (-> & -> & ->). apply hoare_done. unfold server_ready. simpl.
    split_and!; auto with fiah. congruence.
Qed.

Lemma client_construct_spec ip port m :
  hoare m (client_construct ip port) (λ o m',
    match o with
    | Ret c => 0 ≤ client_fd c ∧ changes m (-1) m' (client_fd c) ∧
               m' !! client_fd c = Some (Created SOCK_DGRAM) ∧ p_addr (m_peer c) = inet_pton ip
    | _ => o = Abort ∧ m' = m
    end).
Proof.
  apply hoare_bind. eapply hoare_mono; [apply create_socket_udp_spec; by apply owns_none |].
  intros [[[] | e] s] m'; simpl; [| by intros (_ & _ & ->); apply hoare_done].
  intros (? & ? & ?). by apply hoare_done.
Qed.

Lemma bind_local_spec c port m :
  owns (client_fd c) m →
  hoare m (bind_local c port) (λ _ m', changes m (client_fd c) m' (client_fd c)).
Proof.
  intros Ho. apply hoare_quiet; [done..|]. intros r.
  destruct (r <? 0); apply hoare_done; simpl; destruct (0 <=? r); auto with fiah.
Qed.

(** UdpServer::start is idempotent: a started server makes no call; otherwise
    it answers success exactly when a new socket was bound to the server's
    address, and after an error it can be called again. *)
Theorem udp_start_correct u w :
  kernel_inv w → owns (server_fd u) (fds_of (history w)) → server_ready u (fds_of (history w)) →
  let '((r, u'), w') := run_prog (start u) w in
  kernel_inv w' ∧ changes (fds_of (history w)) (server_fd u) (fds_of (history w')) (server_fd u') ∧
  server_ready u' (fds_of (history w')) ∧
  (m_started u = true → r = inl () ∧ u' = u ∧ w' = w) ∧
  match r with
  | inl _ => m_started u' = true
  | inr e => m_started u' = false ∧ (e = BAD_SOCKET ∨ e = BIND_FAIL)
  end.
Proof.
  intros Hw Ho Hr. pose proof (start_udp_spec u _ Ho Hr w Hw eq_refl) as Hs.
  destruct (run_prog (start u) w) as [[r u'] w'] eqn:E. destruct Hs as [Hw' (Hc & Hr' & _ & _ & Hres)].
  split_and!; try done. unfold start in E. intros Hst. rewrite Hst in E. by injection E as <- <- <-.
Qed.

(** A server that was started and then moved away answers success without
    having a socket. *)
Theorem moved_server_has_no_socket u w :
  m_started u = true →
  let moved := (server_move u).2 in
  run_prog (start moved) w = ((inl (), moved), w) ∧ server_fd moved = -1.
Proof. intros Hs. simpl. unfold start. simpl. by rewrite Hs. Qed.

(** The address of the peer of a UdpClient is never written when it does not parse. *)
Theorem client_peer_unwritten ip port w :
  kernel_inv w → inet_pton ip = None →
  ∀ c, (run_prog (client_construct ip port) w).1 = Ret c → p_addr (get_sockaddr_in c) = None.
Proof.
  intros Hw Hip c Hc. pose proof (client_construct_spec ip port _ w Hw eq_refl) as Hs.
  destruct (run_prog _ w) as [o w']. simpl in Hc. subst o. destruct Hs as [_ (_ & _ & _ & Hp)]. by rewrite <-Hip.
Qed.
End Udp.
