(* ===== verification/Network.v ===== *)
(** * Network: programs that use the socket classes

    A program holds objects of the classes of io/ under names and applies
    their operations, construction, moves and destruction among them.  It also
    holds plain descriptors of its own, which it opens with [::socket], closes,
    or gives to a [Socket] by the operations that take an [int].  The theorems
    speak of any such program on any kernel: every descriptor has exactly one
    owner until it is closed, and a started UdpServer is bound to its address. *)

From stdpp Require Import base tactics numbers list option gmap sets strings.
From Stdlib Require Import ZArith Lia.
From S2P Require Import Prelude Text Effects Socket.
From S2P Require Tcp Udp.
#[local] Open Scope Z_scope.
#[local] Set Warnings "-clear-no-such-hyp".

(** ** Objects and operations *)

Inductive obj : Type :=
| OSocket (s : Socket)
| OTcpServer (t : Tcp.Tcp)
| OTcpClient (t : Tcp.Tcp)
| OUdpServer (u : Udp.UdpServer)
| OUdpClient (c : Udp.UdpClient)
| ORaw (fd : Z).                       (* an [int] of the program, with a descriptor it answers for *)

Definition obj_fd (o : obj) : Z :=
  match o with
  | OSocket s => m_fd s
  | OTcpServer t | OTcpClient t => m_fd (Tcp.m_sock t)
  | OUdpServer u => m_fd (Udp.m_sock u)
  | OUdpClient c => m_fd (Udp.c_sock c)
  | ORaw fd => fd
  end.

Abbreviation pool := (gmap nat obj).

Inductive op : Type :=
| Socket_default (n : nat)
| Raw_socket (x : nat) (ty : sock_type)  (* [int x = ::socket(...)] *)
| Raw_negative (x : nat) (fd : Z)        (* [int x = fd], negative *)
| Socket_raw (n x : nat)                 (* [Socket s{x}] *)
| Socket_assign_raw (n x : nat)          (* [s = x] *)
| Socket_reset (n : nat)                 (* [s.reset()] *)
| Socket_reset_raw (n x : nat)           (* [s.reset(x)] *)
| TcpServer_new (n : nat) (ip : str) (port : Z)
| TcpClient_new (n : nat) (ip : str) (port : Z)
| UdpServer_new (n : nat) (ip : str) (port : Z)
| UdpClient_new (n : nat) (ip : str) (port : Z)
| TcpServer_start (n : nat)
| TcpServer_accept (n client : nat)
| TcpServer_send (n client : nat) (buf : list Z)
| TcpServer_recv (n client : nat) (len : Z)
| TcpClient_connect (n : nat)
| TcpClient_send (n : nat) (buf : list Z)
| TcpClient_recv (n : nat) (len : Z)
| UdpServer_start (n : nat)
| UdpServer_send (n : nat) (buf : list Z) (peer : sockaddr_in)
| UdpServer_recv (n : nat) (len : Z)
| UdpClient_bind (n : nat) (port : Z)
| UdpClient_recv (n : nat) (len : Z)
| Move_construct (dst src : nat)
| Move_assign (dst src : nat)
| Destroy (n : nat).                     (* for an [int]: the program closes it *)

Section Network.
Context {L : Libc}.

Definition move_obj (o : obj) : obj * obj :=
  match o with
  | OSocket s => let '(a, b) := move_construct s in (OSocket a, OSocket b)
  | OTcpServer t => let '(a, b) := Tcp.move_construct t in (OTcpServer a, OTcpServer b)
  | OTcpClient t => let '(a, b) := Tcp.move_construct t in (OTcpClient a, OTcpClient b)
  | OUdpServer u => let '(a, b) := Udp.server_move u in (OUdpServer a, OUdpServer b)
  | OUdpClient c => let '(a, b) := Udp.client_move c in (OUdpClient a, OUdpClient b)
  | ORaw fd => (ORaw fd, ORaw (-1))
  end.

Definition move_assign_obj (self : bool) (this other : obj) : prog sys (outcome (obj * obj)) :=
  match this, other with
  | OSocket a, OSocket b => do! (a, b) := move_assign self a b in Done (Ret (OSocket a, OSocket b))
  | OTcpServer a, OTcpServer b => do! (a, b) := Tcp.move_assign self a b in Done (Ret (OTcpServer a, OTcpServer b))
  | OTcpClient a, OTcpClient b => do! (a, b) := Tcp.move_assign self a b in Done (Ret (OTcpClient a, OTcpClient b))
  | OUdpServer a, OUdpServer b =>
      do! (a, b) := Udp.server_move_assign self a b in Done (Ret (OUdpServer a, OUdpServer b))
  | OUdpClient a, OUdpClient b =>
      do! (a, b) := Udp.client_move_assign self a b in Done (Ret (OUdpClient a, OUdpClient b))
  | _, _ => Done Undef
  end.

Definition close_raw (fd : Z) : prog sys () :=
  if 0 <=? fd then do! _ := trigger (sys_close fd) in Done () else Done ().

(** Every class destroys its socket. *)
Definition destroy_obj (o : obj) : prog sys () :=
  match o with
  | OSocket s => destroy s
  | OTcpServer t | OTcpClient t => Tcp.destroy t
  | OUdpServer u => destroy (Udp.m_sock u)
  | OUdpClient c => destroy (Udp.c_sock c)
  | ORaw fd => close_raw fd
  end.

(** A new object under a name that is not in use. *)
Definition fresh_name (p : pool) (n : nat) (k : prog sys (outcome pool)) : prog sys (outcome pool) :=
  if p !! n is None then k else Done Undef.

Definition set_obj (p : pool) (n : nat) (o : obj) : prog sys (outcome pool) := Done (Ret (<[n := o]> p)).

(** The program gives the descriptor of its variable [x] away: from then on the
    socket answers for it. *)
Definition give_raw (p : pool) (n x : nat) (f : Socket → Z → prog sys Socket) : prog sys (outcome pool) :=
  match p !! n, p !! x with
  | Some (OSocket s), Some (ORaw fd) =>
      do! s := f s fd in set_obj (<[x := ORaw (-1)]> p) n (OSocket s)
  | _, _ => Done Undef
  end.

Definition op_step (p : pool) (o : op) : prog sys (outcome pool) :=
  match o with
  | Socket_default n => fresh_name p n (set_obj p n (OSocket default_construct))
  | Raw_socket x ty => fresh_name p x (do! fd := trigger (sys_socket ty) in set_obj p x (ORaw fd))
  | Raw_negative x fd => if fd <? 0 then fresh_name p x (set_obj p x (ORaw fd)) else Done Undef
  | Socket_raw n x =>
      match p !! x with
      | Some (ORaw fd) => fresh_name p n (set_obj (<[x := ORaw (-1)]> p) n (OSocket (construct fd)))
      | _ => Done Undef
      end
  | Socket_assign_raw n x => give_raw p n x assign_fd
  | Socket_reset n =>
      match p !! n with
      | Some (OSocket s) => do! s := reset s (-1) in set_obj p n (OSocket s)
      | _ => Done Undef
      end
  | Socket_reset_raw n x => give_raw p n x reset
  | TcpServer_new n ip port => fresh_name p n (set_obj p n (OTcpServer (Tcp.construct ip port)))
  | TcpClient_new n ip port => fresh_name p n (set_obj p n (OTcpClient (Tcp.construct ip port)))
  | UdpServer_new n ip port => fresh_name p n (set_obj p n (OUdpServer (Udp.server_construct ip port)))
  | UdpClient_new n ip port =>
      fresh_name p n (do! c := Udp.client_construct ip port in
        match c with Ret c => set_obj p n (OUdpClient c) | _ => Done Abort end)
  | TcpServer_start n =>
      match p !! n with
      | Some (OTcpServer t) => do! (_, t) := Tcp.start t in set_obj p n (OTcpServer t)
      | _ => Done Undef
      end
  | TcpServer_accept n client =>
      match p !! n with
      | Some (OTcpServer t) =>
          fresh_name p client (do! r := Tcp.accept_client t in
            match r with inl s => set_obj p client (OSocket s) | inr _ => Done (Ret p) end)
      | _ => Done Undef
      end
  | TcpServer_send n client buf =>
      match p !! n, p !! client with
      | Some (OTcpServer _), Some (OSocket s) => do! _ := Tcp.server_send s buf in Done (Ret p)
      | _, _ => Done Undef
      end
  | TcpServer_recv n client len =>
      match p !! n, p !! client with
      | Some (OTcpServer _), Some (OSocket s) => do! _ := Tcp.server_recv s len in Done (Ret p)
      | _, _ => Done Undef
      end
  | TcpClient_connect n =>
      match p !! n with
      | Some (OTcpClient t) => do! (_, t) := Tcp.connect_to_server t in set_obj p n (OTcpClient t)
      | _ => Done Undef
      end
  | TcpClient_send n buf =>
      match p !! n with
      | Some (OTcpClient t) => do! _ := Tcp.client_send t buf in Done (Ret p)
      | _ => Done Undef
      end
  | TcpClient_recv n len =>
      match p !! n with
      | Some (OTcpClient t) => do! _ := Tcp.client_recv t len in Done (Ret p)
      | _ => Done Undef
      end
  | UdpServer_start n =>
      match p !! n with
      | Some (OUdpServer u) => do! (_, u) := Udp.start u in set_obj p n (OUdpServer u)
      | _ => Done Undef
      end
  | UdpServer_send n buf peer =>
      match p !! n with
      | Some (OUdpServer u) => do! _ := Udp.server_send u buf peer in Done (Ret p)
      | _ => Done Undef
      end
  | UdpServer_recv n len =>
      match p !! n with
      | Some (OUdpServer u) => do! _ := Udp.server_recv u len in Done (Ret p)
      | _ => Done Undef
      end
  | UdpClient_bind n port =>
      match p !! n with
      | Some (OUdpClient c) => do! _ := Udp.bind_local c port in Done (Ret p)
      | _ => Done Undef
      end
  | UdpClient_recv n len =>
      match p !! n with
      | Some (OUdpClient c) => do! _ := Udp.client_recv c len in Done (Ret p)
      | _ => Done Undef
      end
  | Move_construct dst src =>
      match p !! src with
      | Some o => fresh_name p dst (let '(a, b) := move_obj o in set_obj (<[src := b]> p) dst a)
      | None => Done Undef
      end
  | Move_assign dst src =>
      match p !! dst, p !! src with
      | Some this, Some other =>
          do! r := move_assign_obj (bool_decide (dst = src)) this other in
          match r with
          | Ret (a, b) => set_obj (<[src := b]> p) dst a
          | _ => Done Undef
          end
      | _, _ => Done Undef
      end
  | Destroy n =>
      match p !! n with
      | Some o => do! _ := destroy_obj o in Done (Ret (delete n p))
      | None => Done Undef
      end
  end.

Fixpoint run_ops (p : pool) (ops : list op) : prog sys (outcome pool) :=
  match ops with
  | [] => Done (Ret p)
  | o :: ops =>
      do! r := op_step p o in
      match r with Ret p => run_ops p ops | r => Done r end
  end.

(** ** Ownership *)

(** The descriptors held by the objects of a program. *)
Definition owned (p : pool) : gset Z :=
  list_to_set (filter (λ fd, 0 ≤ fd) ((obj_fd ∘ snd) <$> map_to_list p)).

Definition fd_at (p : pool) (n : nat) : Z := from_option obj_fd (-1) (p !! n).

Definition obj_ready (o : obj) (m : fds) : Prop :=
  match o with OUdpServer u => Udp.server_ready u m | _ => True end.

Record pool_inv (p : pool) (m : fds) : Prop := {
  pi_owned : ∀ fd, 0 ≤ fd → fd ∈ dom m ↔ ∃ n o, p !! n = Some o ∧ obj_fd o = fd;
  pi_unique : ∀ n n' o o', p !! n = Some o → p !! n' = Some o' →
    0 ≤ obj_fd o → obj_fd o = obj_fd o' → n = n';
  pi_ready : ∀ n o, p !! n = Some o → obj_ready o m }.

Lemma elem_of_owned p fd : fd ∈ owned p ↔ 0 ≤ fd ∧ ∃ n o, p !! n = Some o ∧ obj_fd o = fd.
Proof.
  unfold owned. rewrite elem_of_list_to_set, list_elem_of_filter, list_elem_of_fmap. f_equiv. split.
  - intros ([n o] & -> & Hin%elem_of_map_to_list). eauto.
  - intros (n & o & Hn & <-). exists (n, o). by rewrite elem_of_map_to_list.
Qed.

Lemma fd_at_some p n o : p !! n = Some o → fd_at p n = obj_fd o.
Proof. unfold fd_at. by intros ->. Qed.

Lemma obj_ready_stable o m m' :
  (0 ≤ obj_fd o → m' !! obj_fd o = m !! obj_fd o) → obj_ready o m → obj_ready o m'.
Proof. destruct o; simpl; try done. unfold Udp.server_ready. intros He Hr ??. rewrite He; auto. Qed.

Lemma obj_ready_closed o m : obj_fd o < 0 → obj_ready o m.
Proof. destruct o; simpl; try done. unfold Udp.server_ready. lia. Qed.

Section Pool.
Context (p : pool) (m : fds).
Hypothesis Hp : pool_inv p m.

Lemma pool_owns n o : p !! n = Some o → owns (obj_fd o) m.
Proof. intros Hn Hfd. apply (pi_owned _ _ Hp); eauto. Qed.

Lemma pool_other n n' o' fd :
  fd_at p n = fd → n ≠ n' → p !! n' = Some o' → 0 ≤ fd → obj_fd o' ≠ fd.
Proof.
  unfold fd_at. intros Hfd Hne Hn' Hpos Heq. destruct (p !! n) as [o |] eqn:Hn; simpl in Hfd; [| lia].
  apply Hne. apply (pi_unique _ _ Hp n n' o o'); congruence.
Qed.

(** The other objects are where they were after a change of one. *)
Lemma pool_frame n m' a' n' o' :
  changes m (fd_at p n) m' a' → n ≠ n' → p !! n' = Some o' → 0 ≤ obj_fd o' →
  obj_fd o' ≠ a' ∧ m' !! obj_fd o' = m !! obj_fd o'.
Proof.
  intros Hc Hne Hn' Hpos.
  assert (Hfd : obj_fd o' ≠ fd_at p n).
  { intros Heq. by apply (pool_other n n' o' (obj_fd o')). }
  assert (Hin : obj_fd o' ∈ dom m) by (apply (pi_owned _ _ Hp); eauto).
  assert (obj_fd o' ≠ a').
  { intros Heq. rewrite Heq in Hin. apply elem_of_dom in Hin as [? Hin].
    rewrite (ch_new _ _ _ _ Hc) in Hin; [done | lia | congruence]. }
  split; [done |]. by apply (ch_frame _ _ _ _ Hc).
Qed.

(** An operation replaces the object of one name, or creates it. *)
Lemma pool_update n o' m' :
  changes m (fd_at p n) m' (obj_fd o') → obj_ready o' m' → pool_inv (<[n := o']> p) m'.
Proof.
  intros Hc Hr. split.
  - intros fd Hfd. destruct (decide (fd = obj_fd o')) as [-> | Hne'].
    { split; [| intros _; by apply (ch_owned _ _ _ _ Hc)]. intros _. exists n, o'. by rewrite lookup_insert_eq. }
    destruct (decide (fd = fd_at p n)) as [-> | Hne].
    + rewrite elem_of_dom, (ch_closed _ _ _ _ Hc) by done. split; [by intros [] |].
      intros (n' & o & Hn' & Hfd'). apply lookup_insert_Some in Hn' as [[_ <-] | [Hnn Hn']]; [by destruct Hne' |].
      by destruct (pool_other n n' o (fd_at p n) eq_refl Hnn Hn' Hfd).
    + rewrite elem_of_dom, (ch_frame _ _ _ _ Hc), <-elem_of_dom, (pi_owned _ _ Hp) by done.
      split; intros (n' & o & Hn' & Hfd').
      * exists n', o. rewrite lookup_insert_ne; [done |]. intros ->. by rewrite (fd_at_some _ _ _ Hn') in Hne.
      * apply lookup_insert_Some in Hn' as [[_ <-] | [Hnn Hn']]; [by destruct Hne' | eauto].
  - intros n1 n2 o1 o2 H1 H2 Hpos Heq.
    apply lookup_insert_Some in H1 as [[<- <-] | [Hn1 H1]];
    apply lookup_insert_Some in H2 as [[<- <-] | [Hn2 H2]]; [done | ..].
    + by destruct (pool_frame n m' _ n2 o2 Hc Hn2 H2 ltac:(congruence)) as [[] _].
    + by destruct (pool_frame n m' _ n1 o1 Hc Hn1 H1 Hpos) as [[] _].
    + by apply (pi_unique _ _ Hp _ _ o1 o2).
  - intros n1 o1 [[_ <-] | [Hn1 H1]]%lookup_insert_Some; [done |].
    apply (obj_ready_stable _ m); [| by apply (pi_ready _ _ Hp n1)].
    intros Hpos. by apply (pool_frame n m' _ n1 o1 Hc).
Qed.

(** An object without descriptor may disappear. *)
Lemma pool_forget n : fd_at p n < 0 → pool_inv (delete n p) m.
Proof.
  intros Hfd. split.
  - intros fd Hpos. rewrite (pi_owned _ _ Hp) by done. split; intros (n' & o & Hn & <-).
    + exists n', o. rewrite lookup_delete_ne; [done |]. intros ->. rewrite (fd_at_some _ _ _ Hn) in Hfd. lia.
    + apply lookup_delete_Some in Hn as [_ Hn]. eauto.
  - intros n1 n2 o1 o2 [_ H1]%lookup_delete_Some [_ H2]%lookup_delete_Some. by apply (pi_unique _ _ Hp).
  - intros n1 o1 [_ H1]%lookup_delete_Some. by apply (pi_ready _ _ Hp n1).
Qed.

(** What [src] owned passes to [dst], which owned nothing. *)
Lemma pool_transfer dst src o a b :
  p !! src = Some o → dst ≠ src → fd_at p dst < 0 → obj_fd a = obj_fd o → obj_fd b < 0 → obj_ready a m →
  pool_inv (<[dst := a]> (<[src := b]> p)) m.
Proof.
  intros Hsrc Hne Hdst Ha Hb Hready. split.
  - intros fd Hpos. rewrite (pi_owned _ _ Hp) by done. split; intros (n & o' & Hn & <-).
    + destruct (decide (n = src)) as [-> | Hns].
      { exists dst, a. rewrite lookup_insert_eq. split; [done | congruence]. }
      exists n, o'. rewrite !lookup_insert_ne; [done | congruence |]. intros <-.
      rewrite (fd_at_some _ _ _ Hn) in Hdst. lia.
    + apply lookup_insert_Some in Hn as [[<- <-] | [Hnd Hn]]; [eauto |].
      apply lookup_insert_Some in Hn as [[<- <-] | [Hns Hn]]; [lia | eauto].
  - intros n1 n2 o1 o2 H1 H2 Hpos Heq.
    apply lookup_insert_Some in H1 as [[<- <-] | [Hd1 H1]]; apply lookup_insert_Some in H2 as [[<- <-] | [Hd2 H2]];
      [done | | |];
      try (apply lookup_insert_Some in H1 as [[<- <-] | [Hs1 H1]]);
      try (apply lookup_insert_Some in H2 as [[<- <-] | [Hs2 H2]]); try lia.
    + destruct Hs2. apply (pi_unique _ _ Hp _ _ o o2); congruence.
    + destruct Hs1. apply (pi_unique _ _ Hp _ _ o o1); congruence.
    + by apply (pi_unique _ _ Hp _ _ o1 o2).
  - intros n o' [[_ <-] | [_ Hn]]%lookup_insert_Some; [done |].
    apply lookup_insert_Some in Hn as [[_ <-] | [_ Hn]]; [by apply obj_ready_closed |].
    by apply (pi_ready _ _ Hp n).
Qed.
End Pool.

Lemma pool_inv_empty : pool_inv ∅ ∅.
Proof. split; [| done..]. intros fd _. rewrite dom_empty. split; [set_solver |]. by intros (n & o & ? & _). Qed.

(** ** The operations preserve ownership *)

Section Steps.
Context {K : Type} {H : Handler sys K} {KS : KernelSpec K}.

Definition step_ok (r : outcome pool) (m : fds) : Prop :=
  match r with Ret p => pool_inv p m | _ => True end.

Lemma undef_ok m : hoare m (Done (Undef : outcome pool)) step_ok.
Proof. by apply hoare_done. Qed.

Lemma set_obj_ok p n o m m' :
  pool_inv p m → changes m (fd_at p n) m' (obj_fd o) → obj_ready o m' → hoare m' (set_obj p n o) step_ok.
Proof. intros Hp Hc Hr. apply hoare_done. by apply (pool_update p m). Qed.

Lemma fresh_name_ok p n m k :
  (p !! n = None → fd_at p n = -1 → hoare m k step_ok) → hoare m (fresh_name p n k) step_ok.
Proof.
  intros Hk. unfold fresh_name. destruct (p !! n) eqn:Hn; [apply undef_ok |]. apply Hk; [done |].
  unfold fd_at. by rewrite Hn.
Qed.

Lemma same_obj_ok p n m m' :
  pool_inv p m → changes m (fd_at p n) m' (fd_at p n) → (∀ o, p !! n = Some o → obj_ready o m') →
  is_Some (p !! n) → hoare m' (Done (Ret p)) step_ok.
Proof.
  intros Hp Hc Hr [o Hn]. apply hoare_done. simpl. rewrite <-(insert_id p n o) by done.
  apply (pool_update p m); [done | | auto]. by rewrite <-(fd_at_some p n o).
Qed.

(** A socket closes its own descriptor and takes the program's. *)
Lemma give_raw_ok p n x m f :
  pool_inv p m → (∀ s fd, f s fd = assign_fd s fd) → hoare m (give_raw p n x f) step_ok.
Proof.
  intros Hp Hf. unfold give_raw. destruct (p !! n) as [[s | | | | |] |] eqn:Hn; try apply undef_ok.
  destruct (p !! x) as [[| | | | | fd] |] eqn:Hx; try apply undef_ok. rewrite Hf.
  assert (n ≠ x) as Hne by congruence. pose proof (pool_owns p m Hp n _ Hn) as Ho.
  apply hoare_bind, hoare_bind. eapply hoare_mono; [by apply close_fd_spec |]. intros [] m' Hc.
  assert (Hp' : pool_inv (<[n := OSocket default_construct]> p) m').
  { apply (pool_update p m); [done | rewrite (fd_at_some _ _ _ Hn); by apply (Hc (-1)) | done]. }
  apply hoare_done, hoare_done. simpl.
  rewrite <-(insert_insert_eq (<[x := ORaw (-1)]> p) n _ (OSocket default_construct)), (insert_insert_ne p) by done.
  apply (pool_transfer _ _ Hp' _ _ (ORaw fd)); [by rewrite lookup_insert_ne | done | | done | simpl; lia | done].
  unfold fd_at. by rewrite lookup_insert_eq.
Qed.

Lemma destroy_obj_ok o m :
  owns (obj_fd o) m → hoare m (destroy_obj o) (λ _ m', changes m (obj_fd o) m' (-1)).
Proof.
  intros Ho. assert (∀ fd, close_raw fd = close_fd (MkSocket fd)) as Hraw by done.
  assert (Hs : ∀ s, owns (m_fd s) m → hoare m (destroy s) (λ _ m', changes m (m_fd s) m' (-1))).
  { intros s Hs. eapply hoare_mono; [by apply close_fd_spec |]. intros [] m' Hc. apply Hc. lia. }
  destruct o; try (by apply Hs). cbn [destroy_obj]. rewrite Hraw. by apply (Hs (MkSocket fd)).
Qed.

(** What the member-wise moves have in common. *)
Lemma move_obj_fds o :
  obj_fd (move_obj o).1 = obj_fd o ∧ obj_fd (move_obj o).2 = -1 ∧
  ∀ m, obj_ready o m → obj_ready (move_obj o).1 m.
Proof. by destruct o. Qed.

Lemma move_assign_obj_ok this other m :
  owns (obj_fd this) m →
  hoare m (move_assign_obj false this other) (λ r m',
    match r with
    | Ret (a, b) => changes m (obj_fd this) m' (-1) ∧ obj_fd a = obj_fd other ∧ obj_fd b < 0 ∧
                    (obj_ready other m' → obj_ready a m')
    | _ => True
    end).
Proof.
  intros Ho. destruct this, other; simpl in *; try (by apply hoare_done); apply hoare_bind.
  - eapply hoare_mono; [by apply move_assign_spec |]. intros [a b] m' (-> & -> & Hc). by apply hoare_done.
  - eapply hoare_mono; [by apply Tcp.move_assign_tcp_spec |]. intros [a b] m' (-> & -> & Hc). by apply hoare_done.
  - eapply hoare_mono; [by apply Tcp.move_assign_tcp_spec |]. intros [a b] m' (-> & -> & Hc). by apply hoare_done.
  - apply hoare_bind. eapply hoare_mono; [by apply move_assign_spec |].
    intros [a b] m' (-> & -> & Hc). by apply hoare_done, hoare_done.
  - apply hoare_bind. eapply hoare_mono; [by apply move_assign_spec |].
    intros [a b] m' (-> & -> & Hc). by apply hoare_done, hoare_done.
Qed.

Lemma move_assign_self_ok o m :
  hoare m (move_assign_obj true o o) (λ r m', (r = Ret (o, o) ∨ r = Undef) ∧ m' = m).
Proof. destruct o; simpl; repeat apply hoare_bind; repeat apply hoare_done; auto. Qed.

Lemma move_assign_op_ok p dst src m :
  pool_inv p m → hoare m (op_step p (Move_assign dst src)) step_ok.
Proof.
  intros Hp. simpl. destruct (p !! dst) as [this |] eqn:Hd; [| apply undef_ok].
  destruct (p !! src) as [other |] eqn:Hs; [| apply undef_ok]. apply hoare_bind. case_bool_decide as Heq.
  - subst src. assert (other = this) as -> by congruence.
    eapply hoare_mono; [apply move_assign_self_ok |]. intros r m' [[-> | ->] ->]; [| apply undef_ok].
    apply hoare_done. simpl.
    by rewrite !insert_id by (by rewrite ?insert_id).
  - eapply hoare_mono; [apply move_assign_obj_ok, (pool_owns _ _ Hp _ _ Hd) |].
    intros [[a b] | | | |] m'; try (intros _; apply undef_ok). intros (Hc & Ha & Hb & Hr).
    assert (Hp' : pool_inv (<[dst := OSocket default_construct]> p) m').
    { apply (pool_update p m); [done | by rewrite (fd_at_some _ _ _ Hd) | done]. }
    apply hoare_done. simpl.
    rewrite <-(insert_insert_eq (<[src := b]> p) dst a (OSocket default_construct)), (insert_insert_ne p) by done.
    apply (pool_transfer _ _ Hp' _ _ other); [by rewrite lookup_insert_ne | done | | done | done |].
    + unfold fd_at. by rewrite lookup_insert_eq.
    + apply Hr, (pi_ready _ _ Hp' src). by rewrite lookup_insert_ne.
Qed.

Lemma move_construct_op_ok p dst src m :
  pool_inv p m → hoare m (op_step p (Move_construct dst src)) step_ok.
Proof.
  intros Hp. simpl. destruct (p !! src) as [o |] eqn:Hs; [| apply undef_ok].
  apply fresh_name_ok. intros Hd Hfd. destruct (move_obj_fds o) as (Ha & Hb & Hr).
  destruct (move_obj o) as [a b]. simpl in *. apply hoare_done. simpl.
  apply (pool_transfer _ _ Hp _ _ o); [done | congruence | lia | done | lia |]. apply Hr, (pi_ready _ _ Hp src _ Hs).
Qed.

Lemma destroy_op_ok p n m : pool_inv p m → hoare m (op_step p (Destroy n)) step_ok.
Proof.
  intros Hp. simpl. destruct (p !! n) as [o |] eqn:Hn; [| apply undef_ok]. apply hoare_bind.
  eapply hoare_mono; [apply destroy_obj_ok, (pool_owns _ _ Hp n _ Hn) |]. intros [] m' Hc. apply hoare_done. simpl.
  rewrite <-(delete_insert_eq p n (OSocket default_construct)).
  apply pool_forget; [| unfold fd_at; by rewrite lookup_insert_eq].
  apply (pool_update p m); [done | by rewrite (fd_at_some _ _ _ Hn) | done].
Qed.

Lemma new_obj_ok p n o m :
  pool_inv p m → obj_fd o = -1 → hoare m (fresh_name p n (set_obj p n o)) step_ok.
Proof.
  intros Hp Ho. apply fresh_name_ok. intros _ Hn. apply (set_obj_ok p n o m); [done | | apply obj_ready_closed; lia].
  rewrite Hn, Ho. by apply changes_none.
Qed.

(** The object an operation is called on, with its class. *)
Ltac on_object Hp :=
  match goal with
  | |- hoare _ (match ?p !! ?n with _ => _ end) _ =>
      let Hn := fresh "Hn" in let Hfd := fresh "Hfd" in let Ho := fresh "Ho" in
      destruct (p !! n) as [[s | t | t | u | c | fd] |] eqn:Hn; try apply undef_ok;
      pose proof (pool_owns _ _ Hp n _ Hn) as Ho; pose proof (fd_at_some _ _ _ Hn) as Hfd; simpl in Ho, Hfd
  end.

(** An operation that opens and closes nothing and changes no object. *)
Lemma transfer_ok {A} (q : prog sys A) p m :
  pool_inv p m → hoare m q (λ _ m', m' = m) → hoare m (do! _ := q in Done (Ret p)) step_ok.
Proof. intros Hp Hq. apply hoare_bind. eapply hoare_mono; [done |]. intros a m' ->. by apply hoare_done. Qed.

Ltac quiet Hp :=
  apply (transfer_ok _ _ _ Hp); repeat apply hoare_bind; apply hoare_call; [done |]; intros ? _;
  repeat (case_match || apply hoare_done); done.

Lemma op_step_ok p o m : pool_inv p m → hoare m (op_step p o) step_ok.
Proof.
  intros Hp.
  destruct o; try (by apply move_assign_op_ok); try (by apply move_construct_op_ok); try (by apply destroy_op_ok); simpl; try (by apply new_obj_ok); try on_object Hp.
  - (* Raw_socket *)
    apply fresh_name_ok. intros _ Hn. apply hoare_socket; intros r Hr; [| intros Hfresh];
      apply (set_obj_ok p x _ m); try done; rewrite Hn; [by apply changes_none | by apply changes_open].
  - (* Raw_negative *)
    destruct (Z.ltb_spec fd 0); [| apply undef_ok]. apply fresh_name_ok. intros _ Hx.
    apply (set_obj_ok p x _ m); [done | rewrite Hx; by apply changes_none | done].
  - (* Socket_raw *)
    apply fresh_name_ok. intros Hn' Hfd'. apply hoare_done. simpl.
    apply (pool_transfer _ _ Hp _ _ (ORaw fd)); [done | congruence | lia | done | simpl; lia | done].
  - by apply give_raw_ok.
  - apply hoare_bind. eapply hoare_mono; [by apply assign_fd_none_spec |]. intros s' m' [-> Hc].
    apply (set_obj_ok p n _ m); [done | by rewrite Hfd | done].
  - by apply give_raw_ok.
  - (* UdpClient_new *)
    apply fresh_name_ok. intros _ Hn. apply hoare_bind. eapply hoare_mono; [apply Udp.client_construct_spec |].
    intros [c | | | |] m'; try (intros _; by apply hoare_done). intros (Hpos & Hc & _).
    apply (set_obj_ok p n _ m); [done | by rewrite Hn | done].
  - apply hoare_bind. eapply hoare_mono; [by apply Tcp.start_spec |]. intros [r t'] m' [Hc _].
    apply (set_obj_ok p n _ m); [done | by rewrite Hfd | done].
  - (* TcpServer_accept *)
    apply fresh_name_ok. intros _ Hcl. apply hoare_bind. eapply hoare_mono; [apply Tcp.accept_spec |].
    intros [s | e] m'; [| intros [_ ->]; by apply hoare_done]. intros (Hpos & Hc & _).
    apply (set_obj_ok p client _ m); [done | by rewrite Hcl | done].
  - destruct (p !! client) as [[] |]; try apply undef_ok. quiet Hp.
  - destruct (p !! client) as [[] |]; try apply undef_ok. quiet Hp.
  - apply hoare_bind. eapply hoare_mono; [by apply Tcp.connect_spec |]. intros [r t'] m' [Hc _].
    apply (set_obj_ok p n _ m); [done | by rewrite Hfd | done].
  - quiet Hp.
  - quiet Hp.
  - apply hoare_bind. eapply hoare_mono; [apply Udp.start_udp_spec; [done | by apply (pi_ready _ _ Hp n _ Hn)] |].
    intros [r u'] m' (Hc & Hr & _). apply (set_obj_ok p n _ m); [done | by rewrite Hfd | done].
  - quiet Hp.
  - quiet Hp.
  - (* UdpClient_bind *)
    apply hoare_bind. eapply hoare_mono; [by apply Udp.bind_local_spec |]. intros r m' Hc.
    apply (same_obj_ok p n m); [done | by rewrite Hfd | | by eexists].
    intros o. rewrite Hn. by intros [= <-].
  - quiet Hp.
Qed.

Lemma run_ops_ok ops p m : pool_inv p m → hoare m (run_ops p ops) step_ok.
Proof.
  revert p m. induction ops as [| o ops IH]; intros p m Hp; simpl; [by apply hoare_done |].
  apply hoare_bind. eapply hoare_mono; [by apply op_step_ok |].
  intros [p' | | | |] m' Hok; [by apply IH | by apply hoare_done..].
Qed.

(** What holds at the end of any program of the library. *)
Lemma run_ops_inv ops k :
  opened k = others →
  let '(r, w) := run_prog (run_ops ∅ ops) (World k []) in
  kernel_inv w ∧ step_ok r (fds_of (history w)).
Proof.
  intros Hk. pose proof (run_ops_ok ops ∅ ∅ pool_inv_empty (World k []) (resources_inv_start k Hk) eq_refl) as Hrun.
  by destruct (run_prog _ _).
Qed.

Lemma owned_dom p l : pool_inv p (fds_of l) → dom (fds_of l) = owned p.
Proof.
  intros Hp. apply set_eq. intros fd. rewrite elem_of_owned. split.
  - intros Hfd. pose proof (fds_of_nonneg l fd Hfd). split; [done |]. by apply (pi_owned _ _ Hp).
  - intros [Hpos Hn]. by apply (pi_owned _ _ Hp).
Qed.

(** C14: Any program over the socket classes, on any kernel and with any failing
    calls, closes only descriptors that its own calls opened and that are still
    open; at its end the open descriptors are those the rest of the process had
    and those of the objects and [int]s that remain, each held by one of them.
    To [Socket(int)], [operator=(int)] and [reset(int)] the program passes a
    negative number or a descriptor that it opened with [::socket] and answers
    for itself, and that it gives away or closes once.  Passing a descriptor
    that an object holds is excluded: [s.reset(s)] leaves the socket with a
    closed descriptor and the destructor closes it again
    ([Demo.reset_own_descriptor]). *)
Theorem net_owns_descriptors ops k :
  opened k = others →
  let '(r, w) := run_prog (run_ops ∅ ops) (World k []) in
  uses_ok (history w) ∧
  ∀ p, r = Ret p →
    opened (outside w) = others ∪ owned p ∧ others ## owned p ∧
    ∀ n n' o o', p !! n = Some o → p !! n' = Some o' → 0 ≤ obj_fd o → obj_fd o = obj_fd o' → n = n'.
Proof.
  intros Hk. pose proof (run_ops_inv ops k Hk) as Hrun.
  destruct (run_prog _ _) as [r w]. destruct Hrun as [[Hc Ho Hd] Hr].
  split; [done |]. intros p ->. simpl in Hr. rewrite (owned_dom p) in Ho, Hd by done.
  split_and!; [done | done | apply (pi_unique _ _ Hr)].
Qed.

(** C16: However the objects were moved, restarted or failed before, a UdpServer
    that says it is started and still has a socket has bound that socket to an
    address of the internet family with the number of its own IP string, and with
    its own port in network byte order: the first byte of the port field in
    memory is the high byte of the port, the second the low one. *)
Theorem udp_started_bound ops k :
  opened k = others →
  let '(r, w) := run_prog (run_ops ∅ ops) (World k []) in
  ∀ p n u, r = Ret p → p !! n = Some (OUdpServer u) →
    Udp.m_started u = true → 0 ≤ m_fd (Udp.m_sock u) →
    ∃ a, fds_of (history w) !! m_fd (Udp.m_sock u) = Some (Bound SOCK_DGRAM a) ∧
      sin_family a = AF_INET ∧ s_addr a = inet_addr (Udp.m_ip u) ∧
      u16_bytes (sin_port a) = ((Udp.m_port u / 256) mod 256, Udp.m_port u mod 256).
Proof.
  intros Hk. pose proof (run_ops_inv ops k Hk) as Hrun.
  destruct (run_prog _ _) as [r w]. destruct Hrun as [_ Hr]. intros p n u -> Hn Hs Hfd.
  exists (Udp.server_addr u). split_and!; [exact (pi_ready _ _ Hr n _ Hn Hs Hfd) | done.. |].
  apply htons_bytes.
Qed.
End Steps.
End Network.

(** ** Concrete programs *)

Module Demo.
Import DemoKernel.

(** A TCP server restarted after a failed bind, two clients accepted, one moved. *)
Definition tcp_session : list op :=
  [TcpServer_new 0 home 8080; TcpServer_start 0; TcpServer_start 0; TcpServer_accept 0 1; TcpServer_accept 0 2;
   Move_construct 3 1; Move_assign 2 3; Destroy 1; Socket_reset 2].

(** A UDP server whose first bind fails, restarted, moved, and the moved-from one started again. *)
Definition udp_session : list op :=
  [UdpServer_new 0 home 53; UdpServer_start 0; UdpServer_start 0; Move_construct 1 0; UdpServer_start 0;
   UdpServer_new 2 home 54; UdpServer_start 2; Move_assign 2 1; Destroy 1].

Definition session_end (ops : list op) (l : list bool) : outcome pool * world sys kernel :=
  run_prog (run_ops ∅ ops) (World (boot l) []).

Example tcp_session_end :
  (λ p : pool, (fd_at p 0, fd_at p 2, fd_at p 3)) <$> (match (session_end tcp_session [true; false]).1 with Ret p => Some p | _ => None end)
  = Some (4, -1, -1).
Proof. by vm_compute. Qed.

(** The moved-from server 0 still says it is started; server 2 is bound to port 53. *)
Example udp_session_end :
  match session_end udp_session [true; false] with
  | (Ret p, w) =>
      (fd_at p 0, match p !! 0%nat with Some (OUdpServer u) => Udp.m_started u | _ => false end,
       fds_of (history w) !! fd_at p 2)
      = (-1, true, Some (Bound SOCK_DGRAM (MkAddr AF_INET 13568 16777343)))
  | _ => False
  end.
Proof. by vm_compute. Qed.

(** A socket takes over descriptors of the program, closing the one it had; the
    program closes the one it kept. *)
Definition raw_session : list op :=
  [Raw_socket 10 SOCK_STREAM; Raw_socket 11 SOCK_DGRAM; Raw_socket 12 SOCK_STREAM; Socket_raw 13 10;
   Socket_assign_raw 13 11; Destroy 12; Raw_socket 14 SOCK_STREAM; Socket_reset_raw 13 14; Move_construct 15 13].

Example raw_session_end :
  match session_end raw_session [] with
  | (Ret p, w) => (fd_at p 13, fd_at p 15, bool_decide (opened (outside w) = {[0; 1; 2; fd_at p 15]})) = (-1, 5, true)
  | _ => False
  end.
Proof. by vm_compute. Qed.

(** Resetting a socket with its own descriptor leaves it with a closed one, and
    its destructor closes that again. *)
Definition own_reset : prog sys () :=
  do! fd := trigger (sys_socket SOCK_STREAM) in do! s := reset (construct fd) fd in destroy s.

Example reset_own_descriptor : ¬ uses_ok (history (run_prog own_reset (World (boot []) [])).2).
Proof. intros [Huse _]. specialize (Huse 3 eq_refl). revert Huse. by vm_compute. Qed.
End Demo.
Import DemoKernel.

Lemma net_owns_descriptors_witness :
  let '(r, w) := Demo.session_end (Demo.tcp_session ++ Demo.raw_session) [true; false] in
  uses_ok (history w) ∧
  ∀ p, r = Ret p →
    opened (outside w) = others ∪ owned p ∧ others ## owned p ∧
    ∀ n n' o o', p !! n = Some o → p !! n' = Some o' → 0 ≤ obj_fd o → obj_fd o = obj_fd o' → n = n'.
Proof. apply (net_owns_descriptors (Demo.tcp_session ++ Demo.raw_session) (DemoKernel.boot [true; false])). reflexivity. Defined.

Lemma udp_started_bound_witness :
  let '(r, w) := Demo.session_end Demo.udp_session [true; false] in
  ∀ p n u, r = Ret p → p !! n = Some (OUdpServer u) →
    Udp.m_started u = true → 0 ≤ m_fd (Udp.m_sock u) →
    ∃ a, fds_of (history w) !! m_fd (Udp.m_sock u) = Some (Bound SOCK_DGRAM a) ∧
      sin_family a = AF_INET ∧ s_addr a = inet_addr (Udp.m_ip u) ∧
      u16_bytes (sin_port a) = ((Udp.m_port u / 256) mod 256, Udp.m_port u mod 256).
Proof. apply (udp_started_bound Demo.udp_session (DemoKernel.boot [true; false])). reflexivity. Defined.
