(* ===== verification/Cassandra.v ===== *)
(** * Cassandra: the database client

    Models io/Cassandra.hh over the calls of the C driver, which are effects
    answered by a parameter.  [db] is what a history of calls says: the state
    of every handle, and the tables as the successful statements left them; what
    a statement does is read off its text, in the fragment of CQL the code uses.
    A [Driver] gives out fresh handles; a faithful one also answers queries from
    those tables, columns in the order CQL documents for [SELECT *] (the key,
    then the others by name).  Rows and values point into their iterator. *)

From stdpp Require Import base tactics numbers list option gmap strings.
From Stdlib Require Import ZArith Lia Ascii.
From S2P Require Import Prelude Text Effects.
#[local] Open Scope Z_scope.
#[local] Set Warnings "-clear-no-such-hyp".

(** ** Values *)

(** C's [float] and [double], of which the code uses two constants and [==]. *)
Class Floats : Type := {
  F32 : Type; F64 : Type;
  f32_eqb : F32 → F32 → bool; f64_eqb : F64 → F64 → bool;
  f32_0_001 : F32; f64_0_0002 : F64;
  f32_0_001_eq : f32_eqb f32_0_001 f32_0_001 = true;
  f64_0_0002_eq : f64_eqb f64_0_0002 f64_0_0002 = true }.

Definition CASS_OK : Z := 0.

#[local] Arguments lit : simpl never.

Section Cassandra.
Context {F : Floats}.

Inductive cval : Type :=
| VString (s : str) | VBool (b : bool) | VFloat (f : F32) | VDouble (d : F64) | VInt32 (z : Z) | VInt64 (z : Z).

Inductive ctype : Type → Type :=
| CString : ctype str
| CBool : ctype bool
| CFloat : ctype F32
| CDouble : ctype F64
| CInt32 : ctype Z
| CInt64 : ctype Z.

Definition inject {A} (t : ctype A) : A → cval :=
  match t with
  | CString => VString | CBool => VBool | CFloat => VFloat | CDouble => VDouble
  | CInt32 => VInt32 | CInt64 => VInt64
  end.

Definition project {A} (t : ctype A) (v : cval) : option A :=
  match t, v with
  | CString, VString s => Some s
  | CBool, VBool b => Some b
  | CFloat, VFloat f => Some f
  | CDouble, VDouble d => Some d
  | CInt32, VInt32 z => Some z
  | CInt64, VInt64 z => Some z
  | _, _ => None
  end.

Lemma project_inject {A} (t : ctype A) a : project t (inject t a) = Some a.
Proof. by destruct t. Qed.

(** A row of table examples.basic, with uninitialised fields as [None]. *)
Record Basic : Type := MkBasic {
  bln : option bool; flt : option F32; dbl : option F64; i32 : option Z; i64 : option Z }.
Definition uninitialised : Basic := MkBasic None None None None None.

(** ** Calls of the driver *)

Record row_ptr : Type := Row { row_iterator : Z }.
Record value_ptr : Type := Value { value_row : row_ptr; value_column : nat }.

Inductive cass : Type → Type :=
| cluster_new : cass Z
| cluster_set_contact_points (cluster : Z) (hosts : str) : cass ()
| cluster_free (cluster : Z) : cass ()
| session_new : cass Z
| session_connect (session cluster : Z) : cass Z
| session_execute (session statement : Z) : cass Z
| session_free (session : Z) : cass ()
| future_wait (future : Z) : cass ()
| future_error_code (future : Z) : cass Z
| future_error_message (future : Z) : cass str
| future_get_result (future : Z) : cass Z
| future_free (future : Z) : cass ()
| statement_new (query : str) (parameters : nat) : cass Z
| statement_bind {A} (t : ctype A) (statement : Z) (i : nat) (a : A) : cass Z
| statement_free (statement : Z) : cass ()
| iterator_from_result (result : Z) : cass Z
| iterator_next (iterator : Z) : cass bool
| iterator_get_row (iterator : Z) : cass ()
| value_get {A} (t : ctype A) (v : value_ptr) : cass (option A)
| iterator_free (iterator : Z) : cass ()
| result_free (result : Z) : cass ()
| print_stderr (message : str) : cass ().

Definition get_row (iterator : Z) : prog cass row_ptr :=
  do! _ := trigger (iterator_get_row iterator) in Done (Row iterator).
Definition row_get_column (row : row_ptr) (i : nat) : value_ptr := Value row i.

(** ** The code *)

Definition print_error (future : Z) : prog cass () :=
  do! message := trigger (future_error_message future) in
  trigger (print_stderr message).

Definition create_cluster (hosts : str) : prog cass Z :=
  do! cluster := trigger cluster_new in
  do! _ := trigger (cluster_set_contact_points cluster hosts) in
  Done cluster.

Definition connect_session (session cluster : Z) : prog cass Z :=
  do! future := trigger (session_connect session cluster) in
  do! _ := trigger (future_wait future) in
  do! rc := trigger (future_error_code future) in
  do! _ := (if rc =? CASS_OK then Done () else print_error future) in
  do! _ := trigger (future_free future) in
  Done rc.

Definition execute_query (session : Z) (query : str) : prog cass Z :=
  do! statement := trigger (statement_new query 0) in
  do! future := trigger (session_execute session statement) in
  do! _ := trigger (future_wait future) in
  do! rc := trigger (future_error_code future) in
  do! _ := (if rc =? CASS_OK then Done () else print_error future) in
  do! _ := trigger (future_free future) in
  do! _ := trigger (statement_free statement) in
  Done rc.

Definition insert_query : str :=
  lit "INSERT INTO examples.basic (key, bln, flt, dbl, i32, i64) VALUES (?, ?, ?, ?, ?, ?);".
Definition select_query : str := lit "SELECT * FROM examples.basic WHERE key = ?".

(** [*basic] is initialised by the callers. *)
Definition insert_into_basic (session : Z) (key : str) (b : bool) (f : F32) (d : F64) (x y : Z) : prog cass Z :=
  do! statement := trigger (statement_new insert_query 6) in
  do! _ := trigger (statement_bind CString statement 0 key) in
  do! _ := trigger (statement_bind CBool statement 1 b) in
  do! _ := trigger (statement_bind CFloat statement 2 f) in
  do! _ := trigger (statement_bind CDouble statement 3 d) in
  do! _ := trigger (statement_bind CInt32 statement 4 x) in
  do! _ := trigger (statement_bind CInt64 statement 5 y) in
  do! future := trigger (session_execute session statement) in
  do! _ := trigger (future_wait future) in
  do! rc := trigger (future_error_code future) in
  do! _ := (if rc =? CASS_OK then Done () else print_error future) in
  do! _ := trigger (future_free future) in
  do! _ := trigger (statement_free statement) in
  Done rc.

(** A getter that fails leaves its target as it is. *)
Definition get_into {A} (t : ctype A) (v : value_ptr) (old : option A) : prog cass (option A) :=
  do! r := trigger (value_get t v) in Done (if r is Some a then Some a else old).

Definition read_row (iterator : Z) (basic : Basic) : prog cass Basic :=
  do! row := get_row iterator in
  do! b := get_into CBool (row_get_column row 1) (bln basic) in
  do! d := get_into CDouble (row_get_column row 2) (dbl basic) in
  do! f := get_into CFloat (row_get_column row 3) (flt basic) in
  do! x := get_into CInt32 (row_get_column row 4) (i32 basic) in
  do! y := get_into CInt64 (row_get_column row 5) (i64 basic) in
  Done (MkBasic b f d x y).

Definition select_from_basic (session : Z) (key : str) (basic : Basic) : prog cass (Z * Basic) :=
  do! statement := trigger (statement_new select_query 1) in
  do! _ := trigger (statement_bind CString statement 0 key) in
  do! future := trigger (session_execute session statement) in
  do! _ := trigger (future_wait future) in
  do! rc := trigger (future_error_code future) in
  do! basic := (
    if rc =? CASS_OK then
      do! result := trigger (future_get_result future) in
      do! iterator := trigger (iterator_from_result result) in
      do! more := trigger (iterator_next iterator) in
      do! basic := (if more : bool then read_row iterator basic else Done basic) in
      do! _ := trigger (result_free result) in
      do! _ := trigger (iterator_free iterator) in
      Done basic
    else
      do! _ := print_error future in Done basic) in
  do! _ := trigger (future_free future) in
  do! _ := trigger (statement_free statement) in
  Done (rc, basic).

Definition create_keyspace : str :=
  lit "CREATE KEYSPACE examples WITH replication = { 'class': 'SimpleStrategy', 'replication_factor': '3' };".
Definition create_table : str :=
  lit "CREATE TABLE examples.basic (key text, bln boolean, flt float, dbl double, i32 int, i64 bigint, PRIMARY KEY (key));".

(** [assert(x == output.field)]: reading an uninitialised field is undefined. *)
Definition assert_eq {A} (eqb : A → A → bool) (x : A) (field : option A) : outcome () :=
  match field with
  | None => Undef
  | Some y => if eqb x y then Ret () else Abort
  end.

Definition check_output (output : Basic) : outcome () :=
  obind (assert_eq Bool.eqb true (bln output)) (λ _,
  obind (assert_eq f32_eqb f32_0_001 (flt output)) (λ _,
  obind (assert_eq f64_eqb f64_0_0002 (dbl output)) (λ _,
  obind (assert_eq Z.eqb 1 (i32 output)) (λ _,
  assert_eq Z.eqb 2 (i64 output))))).

(** [host] is [argv[1]], if any.  The results of the four statements are not used. *)
Definition init_db (host : option str) : prog cass (outcome bool) :=
  do! session := trigger session_new in
  do! cluster := create_cluster (default (lit "127.0.0.1") host) in
  do! rc := connect_session session cluster in
  if negb (rc =? CASS_OK) then
    do! _ := trigger (cluster_free cluster) in
    do! _ := trigger (session_free session) in
    Done (Ret false)
  else
    do! _ := execute_query session create_keyspace in
    do! _ := execute_query session create_table in
    do! _ := insert_into_basic session (lit "test2") true f32_0_001 f64_0_0002 1 2 in
    do! (_, output) := select_from_basic session (lit "test2") uninitialised in
    match check_output output with
    | Ret _ =>
        do! _ := trigger (session_free session) in
        do! _ := trigger (cluster_free cluster) in
        Done (Ret true)
    | Abort => Done Abort
    | _ => Done Undef
    end.

(** ** Statements

    The CREATE TABLE, INSERT and SELECT statements of CQL in the form the code
    writes them, with upper-case keywords and [?] for every value.  Spaces and
    line ends only separate words. *)

Inductive token : Type := Word (w : str) | Sym (c : ascii).

#[export] Instance token_eq_dec : EqDecision token.
Proof. solve_decision. Defined.

Definition is_word (c : ascii) : bool :=
  let n := nat_of_ascii c in
  ((48 <=? n) && (n <=? 57) || (65 <=? n) && (n <=? 90) || (97 <=? n) && (n <=? 122) ||
   (n =? 95) || (n =? 46))%nat.
Definition is_blank (c : ascii) : bool := (nat_of_ascii c <=? 32)%nat.

Fixpoint tokens (acc : str) (text : str) : list token :=
  let flush := match acc with [] => [] | _ => [Word acc] end in
  match text with
  | [] => flush
  | c :: text =>
      if is_word c then tokens (acc ++ [c]) text
      else flush ++ (if is_blank c then [] else [Sym c]) ++ tokens [] text
  end.

(** Parsers take what they recognise off the front. *)
Fixpoint phrase (xs ts : list token) : option (list token) :=
  match xs, ts with
  | [], _ => Some ts
  | x :: xs, t :: ts => if decide (t = x) then phrase xs ts else None
  | _, [] => None
  end.

Definition words (s : string) : list token → option (list token) := phrase (tokens [] (lit s)).

Definition name (ts : list token) : option (str * list token) :=
  match ts with Word n :: ts => Some (n, ts) | _ => None end.

(** [a, b, c)] *)
Fixpoint names (ts : list token) : option (list str * list token) :=
  match ts with
  | Word n :: Sym c :: ts =>
      if decide (c = ","%char) then '(l, ts) ← names ts; Some (n :: l, ts)
      else if decide (c = ")"%char) then Some ([n], ts) else None
  | _ => None
  end.

(** [?, ?, ?)] *)
Fixpoint markers (ts : list token) : option (nat * list token) :=
  match ts with
  | Sym q :: Sym c :: ts =>
      if decide (q = "?"%char) then
        if decide (c = ","%char) then '(n, ts) ← markers ts; Some (S n, ts)
        else if decide (c = ")"%char) then Some (1%nat, ts) else None
      else None
  | _ => None
  end.

(** [a text, b int, PRIMARY KEY (a))]: the columns with their types, and the key *)
Fixpoint column_definitions (ts : list token) : option (list (str * str) * str * list token) :=
  match ts with
  | Word a :: Word b :: Sym c :: ts =>
      if decide ([Word a; Word b; Sym c] = tokens [] (lit "PRIMARY KEY (")) then
        match ts with
        | Word k :: Sym d :: Sym e :: ts =>
            if decide ([Sym d; Sym e] = tokens [] (lit "))")) then Some ([], k, ts) else None
        | _ => None
        end
      else if decide (c = ","%char) then
        '(l, k, ts) ← column_definitions ts; Some ((a, b) :: l, k, ts)
      else None
  | _ => None
  end.

Definition at_end (ts : list token) : bool :=
  bool_decide (ts = []) || bool_decide (ts = [Sym ";"%char]).

Inductive cql : Type :=
| Create_table (t : str) (columns : list (str * str)) (key : str)
| Insert (t : str) (columns : list str)
| Select_row (t : str) (column : str).

Definition parse_create (ts : list token) : option cql :=
  ts ← words "CREATE TABLE" ts; '(t, ts) ← name ts; ts ← words "(" ts;
  '(l, k, ts) ← column_definitions ts;
  if at_end ts then Some (Create_table t l k) else None.

Definition parse_insert (ts : list token) : option cql :=
  ts ← words "INSERT INTO" ts; '(t, ts) ← name ts; ts ← words "(" ts; '(l, ts) ← names ts;
  ts ← words "VALUES (" ts; '(n, ts) ← markers ts;
  if (n =? length l)%nat && at_end ts then Some (Insert t l) else None.

Definition parse_select (ts : list token) : option cql :=
  ts ← words "SELECT * FROM" ts; '(t, ts) ← name ts; ts ← words "WHERE" ts; '(c, ts) ← name ts;
  ts ← words "= ?" ts; if at_end ts then Some (Select_row t c) else None.

Definition parse_cql (query : str) : option cql :=
  let ts := tokens [] query in
  match parse_create ts with
  | Some q => Some q
  | None => match parse_insert ts with Some q => Some q | None => parse_select ts end
  end.

(** ** Tables *)

Abbreviation params := (gmap nat cval).
Abbreviation row := (list (str * cval)).

Record table : Type := Table {
  t_columns : list (str * str); t_key : str; t_rows : gmap str row }.
Abbreviation tables := (gmap str table).

Definition type_name (v : cval) : str :=
  match v with
  | VString _ => lit "text" | VBool _ => lit "boolean" | VFloat _ => lit "float"
  | VDouble _ => lit "double" | VInt32 _ => lit "int" | VInt64 _ => lit "bigint"
  end.

Definition column (r : row) (c : str) : option cval :=
  snd <$> List.find (λ x, bool_decide (x.1 = c)) r.

(** The values an INSERT gives, named by its column list. *)
Definition named_values (columns : list str) (ps : params) : row :=
  omap (λ '(i, c), (λ v, (c, v)) <$> ps !! i) (zip (seq 0 (length columns)) columns).

(** INSERT: every value has the type of its column; the row of the key is
    created or its named columns are overwritten. *)
Definition insert_row (t : table) (new : row) : option table :=
  if forallb (λ '(c, v), bool_decide ((c, type_name v) ∈ t_columns t)) new then
    k ← column new (t_key t) ≫= project CString;
    Some (Table (t_columns t) (t_key t) (<[k := new ++ default [] (t_rows t !! k)]> (t_rows t)))
  else None.

(** The columns of [SELECT *]: the key, then the others by name. *)
Fixpoint insert_name (x : str) (l : list str) : list str :=
  match l with
  | [] => [x]
  | y :: l' =>
      if String.leb (String.string_of_list_ascii x) (String.string_of_list_ascii y)
      then x :: l else y :: insert_name x l'
  end.

Definition select_columns (t : table) : list str :=
  t_key t :: filter (λ c, c ≠ t_key t) (foldr insert_name [] (t_columns t).*1).

(** ** What a history of calls says *)

Abbreviation request := (str * params)%type.
(** The values of a row in the order of the result's columns; [None] is null. *)
Abbreviation result_row := (list (option cval)).

Inductive hstate : Type :=
| HCluster
| HSession
| HStatement (query : str) (n : nat) (ps : params)
| HFuture (req : option request) (succeeded : bool)
| HResult (rows : option result_row)
| HIterator (next current : option result_row) (on_row : bool).

Record db : Type := Db { handles : gmap Z hstate; stored : tables }.

(** The effect of a statement that succeeded, and the row a query finds. *)
Definition apply_cql (q : cql) (ps : params) (ts : tables) : tables :=
  match q with
  | Create_table t l k => match ts !! t with None => <[t := Table l k ∅]> ts | Some _ => ts end
  | Insert t l =>
      match ts !! t ≫= λ T, insert_row T (named_values l ps) with
      | Some T => <[t := T]> ts
      | None => ts
      end
  | Select_row _ _ => ts
  end.

Definition find_cql (q : cql) (ps : params) (ts : tables) : option result_row :=
  match q with
  | Select_row t c =>
      T ← ts !! t;
      if bool_decide (c = t_key T) then
        k ← ps !! 0%nat ≫= project CString;
        r ← t_rows T !! k; Some (column r <$> select_columns T)
      else None
  | _ => None
  end.

Definition apply_request (req : option request) (ts : tables) : tables :=
  match req with
  | Some (q, ps) => match parse_cql q with Some c => apply_cql c ps ts | None => ts end
  | None => ts
  end.

Definition find_row (req : option request) (ts : tables) : option result_row :=
  match req with
  | Some (q, ps) => parse_cql q ≫= λ c, find_cql c ps ts
  | None => None
  end.

#[local] Arguments find_row : simpl never.
#[local] Arguments apply_request : simpl never.

Definition give (r : Z) (s : hstate) (d : db) : db := Db (<[r := s]> (handles d)) (stored d).
Definition take_back (r : Z) (d : db) : db := Db (delete r (handles d)) (stored d).

Definition next_db {R} (e : cass R) : R → db → db :=
  match e in cass R return R → db → db with
  | cluster_new => λ r d, give r HCluster d
  | session_new => λ r d, give r HSession d
  | session_connect _ _ => λ r d, give r (HFuture None false) d
  | statement_new q n => λ r d, give r (HStatement q n ∅) d
  | statement_bind t st i a => λ _ d,
      match handles d !! st with
      | Some (HStatement q n ps) => give st (HStatement q n (<[i := inject t a]> ps)) d
      | _ => d
      end
  | session_execute _ st => λ r d,
      match handles d !! st with
      | Some (HStatement q _ ps) => give r (HFuture (Some (q, ps)) false) d
      | _ => d
      end
  | future_error_code f => λ r d,
      match handles d !! f with
      | Some (HFuture req false) =>
          if r =? CASS_OK then Db (<[f := HFuture req true]> (handles d)) (apply_request req (stored d)) else d
      | _ => d
      end
  | future_get_result f => λ r d,
      match handles d !! f with
      | Some (HFuture req _) => give r (HResult (find_row req (stored d))) d
      | _ => d
      end
  | iterator_from_result res => λ r d,
      match handles d !! res with
      | Some (HResult rows) => give r (HIterator rows None false) d
      | _ => d
      end
  | iterator_next it => λ more d,
      match handles d !! it with
      | Some (HIterator next _ _) => give it (HIterator None next more) d
      | _ => d
      end
  | cluster_free h | session_free h | future_free h | statement_free h | iterator_free h | result_free h =>
      λ _ d, take_back h d
  | _ => λ _ d, d
  end.

Fixpoint db_of (l : list (event cass)) : db :=
  match l with
  | [] => Db ∅ ∅
  | ev :: l => next_db (call ev) (answer ev) (db_of l)
  end.

(** What a call may be given: live handles of its kind; a result only of a
    future that succeeded, a parameter within the statement, a value only
    while its iterator is on a row. *)
Definition allowed {R} (e : cass R) (d : db) : Prop :=
  let holds h s := handles d !! h = Some s in
  let future f := ∃ req ok, holds f (HFuture req ok) in
  match e with
  | cluster_set_contact_points h _ | cluster_free h => holds h HCluster
  | session_free h => holds h HSession
  | session_connect s c => holds s HSession ∧ holds c HCluster
  | session_execute s st => holds s HSession ∧ ∃ q n ps, holds st (HStatement q n ps)
  | future_wait f | future_error_code f | future_error_message f | future_free f => future f
  | future_get_result f => ∃ req, holds f (HFuture req true)
  | statement_bind _ st i _ => ∃ q n ps, holds st (HStatement q n ps) ∧ (i < n)%nat
  | statement_free st => ∃ q n ps, holds st (HStatement q n ps)
  | iterator_from_result r | result_free r => ∃ rows, holds r (HResult rows)
  | iterator_next it | iterator_free it => ∃ a b on, holds it (HIterator a b on)
  | iterator_get_row it => ∃ a b, holds it (HIterator a b true)
  | value_get _ v => ∃ a b, holds (row_iterator (value_row v)) (HIterator a b true)
  | _ => True
  end.

Fixpoint calls_ok (l : list (event cass)) : Prop :=
  match l with
  | [] => True
  | ev :: l => allowed (call ev) (db_of l) ∧ calls_ok l
  end.

(** Handles the driver gives out are not in use. *)
Definition new_handle {R} (e : cass R) : R → db → Prop :=
  match e in cass R return R → db → Prop with
  | cluster_new | session_new | session_connect _ _ | session_execute _ _ | future_get_result _
  | statement_new _ _ | iterator_from_result _ => λ r d, handles d !! r = None
  | _ => λ _ _, True
  end.

(** A faithful driver answers a query from the tables. *)
Definition faithful_answer {R} (e : cass R) : R → db → Prop :=
  match e in cass R return R → db → Prop with
  | iterator_next it => λ more d, ∀ next current on,
      handles d !! it = Some (HIterator next current on) → more = bool_decide (is_Some next)
  | value_get t v => λ a d, ∀ next r,
      handles d !! row_iterator (value_row v) = Some (HIterator next (Some r) true) →
      a = mjoin (r !! value_column v) ≫= project t
  | _ => λ _ _, True
  end.

Class Driver (W : Type) {H : Handler cass W} (faithful : bool) : Type := {
  driver_inv : world cass W → Prop;
  driver_call : ∀ R (e : cass R) w, driver_inv w → allowed e (db_of (history w)) →
    let '(r, s) := handle e (outside w) in
    driver_inv (World s (Event R e r :: history w)) ∧
    new_handle e r (db_of (history w)) ∧
    (faithful = true → faithful_answer e r (db_of (history w))) }.

(** ** The functions against any driver *)

Section Driver.
Context {W : Type} {H : Handler cass W} {faithful : bool} {D : Driver W faithful}.

Definition session_inv (w : world cass W) : Prop := driver_inv w ∧ calls_ok (history w).

Lemma session_inv_call R (e : cass R) w :
  session_inv w → allowed e (db_of (history w)) →
  let '(r, s) := handle e (outside w) in
  session_inv (World s (Event R e r :: history w)) ∧
  (new_handle e r (db_of (history w)) ∧ (faithful = true → faithful_answer e r (db_of (history w)))).
Proof.
  intros [Hd Hc] He. pose proof (driver_call R e w Hd He) as Hcall.
  destruct (handle e (outside w)) as [r s]. destruct Hcall as (? & ? & ?). by repeat split.
Qed.

#[export] Instance driver_protocol : Protocol cass W db := {
  view := db_of;
  next := @next_db;
  pre := @allowed;
  post := λ R e r d, new_handle e r d ∧ (faithful = true → faithful_answer e r d);
  Inv := session_inv;
  view_next := λ R e r l, eq_refl;
  Inv_call := session_inv_call }.

Abbreviation live d h s := (handles d !! h = Some s).

(** One call of the driver, and what follows. *)
Lemma hoare_step {A R} (e : cass R) (k : R → prog cass A) d Q :
  allowed e d →
  (∀ r, new_handle e r d → (faithful = true → faithful_answer e r d) → hoare (next_db e r d) (k r) Q) →
  hoare d (pbind (trigger e) k) Q.
Proof. intros He Hk. apply hoare_bind, hoare_call; [done |]. intros r [Hn Hf]. apply hoare_done. auto. Qed.

Lemma hoare_then {A B} (p : prog cass A) (k : A → prog cass B) d R Q :
  hoare d p R → (∀ a d', R a d' → hoare d' (k a) Q) → hoare d (pbind p k) Q.
Proof. intros Hp Hk. apply hoare_bind. by eapply hoare_mono. Qed.

(** Reporting an error changes nothing. *)
Lemma report_spec f rc d :
  (∃ req ok, live d f (HFuture req ok)) →
  hoare d (if rc =? CASS_OK then Done () else print_error f) (λ _ d', d' = d).
Proof.
  intros Hf. destruct (rc =? CASS_OK); [by apply hoare_done |].
  apply hoare_step; [done |]. intros msg _ _. apply hoare_call; [done |]. intros r _. by apply hoare_done.
Qed.

(** The state once a future has answered its error code. *)
Definition settled (f : Z) (req : option request) (rc : Z) (d : db) : db :=
  if rc =? CASS_OK then Db (<[f := HFuture req true]> (handles d)) (apply_request req (stored d)) else d.

Lemma settle_spec {A} f req d (k : Z → prog cass A) Q :
  live d f (HFuture req false) →
  (∀ rc, hoare (settled f req rc d) (k rc) Q) →
  hoare d (do! _ := trigger (future_wait f) in do! rc := trigger (future_error_code f) in k rc) Q.
Proof.
  intros Hf Hk. apply hoare_step; [simpl; eauto |]. intros [] _ _. apply hoare_step; [simpl; eauto |].
  intros rc _ _. simpl. rewrite Hf. apply Hk.
Qed.

Lemma settled_live f req rc d :
  live d f (HFuture req false) → live (settled f req rc d) f (HFuture req (rc =? CASS_OK)).
Proof. unfold settled. destruct (rc =? CASS_OK); simpl; [by rewrite lookup_insert_eq | done]. Qed.

Definition outcome_table (req : option request) (rc : Z) (t : tables) : tables :=
  if rc =? CASS_OK then apply_request req t else t.

Lemma take_settled f req rc d :
  take_back f (settled f req rc d) = Db (delete f (handles d)) (outcome_table req rc (stored d)).
Proof.
  unfold settled, take_back, outcome_table. destruct (rc =? CASS_OK); simpl; [by rewrite delete_insert_eq | by destruct d].
Qed.

(** Reporting the error, if any, and giving the future back. *)
Lemma report_free_spec {A} f req rc d (k : prog cass A) Q :
  live d f (HFuture req false) →
  hoare (Db (delete f (handles d)) (outcome_table req rc (stored d))) k Q →
  hoare (settled f req rc d)
    (do! _ := (if rc =? CASS_OK then Done () else print_error f) in do! _ := trigger (future_free f) in k) Q.
Proof.
  intros Hf Hk. pose proof (settled_live _ _ rc _ Hf) as Hl.
  eapply hoare_then; [apply report_spec; eauto |]. intros [] d' ->.
  apply hoare_step; [simpl; eauto |]. intros [] _ _. simpl. by rewrite take_settled.
Qed.

Ltac driver_step :=
  apply hoare_step; [simpl; simplify_map_eq; eauto 10 with lia |];
  let Hnew := fresh "Hnew" in intros ? Hnew ?; simpl in Hnew |- *; simplify_map_eq;
  unfold give, take_back in *; simpl in *.

Lemma connect_session_spec s c d :
  live d s HSession → live d c HCluster → hoare d (connect_session s c) (λ _ d', d' = d).
Proof.
  intros Hs Hc. destruct d as [m t]. simpl in Hs, Hc. unfold connect_session. driver_step.
  apply (settle_spec _ None); [apply lookup_insert_eq |]. intros rc.
  apply (report_free_spec _ None); [apply lookup_insert_eq |]. apply hoare_done. simpl.
  rewrite delete_insert_id by done. unfold outcome_table. by destruct (rc =? CASS_OK).
Qed.

Lemma execute_spec s q d :
  live d s HSession →
  hoare d (execute_query s q) (λ rc d', d' = Db (handles d) (outcome_table (Some (q, ∅)) rc (stored d))).
Proof.
  intros Hs. destruct d as [m t]. simpl in Hs. unfold execute_query. do 2 driver_step.
  apply (settle_spec _ (Some (q, ∅))); [apply lookup_insert_eq |]. intros rc.
  apply (report_free_spec _ (Some (q, ∅))); [apply lookup_insert_eq |]. simpl.
  rewrite delete_insert_id by done. driver_step. apply hoare_done. by rewrite delete_insert_id.
Qed.

Definition insert_params (key : str) (b : bool) (f : F32) (d : F64) (x y : Z) : params :=
  <[5%nat := VInt64 y]> (<[4%nat := VInt32 x]> (<[3%nat := VDouble d]> (<[2%nat := VFloat f]>
    (<[1%nat := VBool b]> (<[0%nat := VString key]> ∅))))).

Lemma insert_spec s key b f x y z d :
  live d s HSession →
  hoare d (insert_into_basic s key b f x y z) (λ rc d',
    d' = Db (handles d) (outcome_table (Some (insert_query, insert_params key b f x y z)) rc (stored d))).
Proof.
  intros Hs. destruct d as [m t]. simpl in Hs. unfold insert_into_basic. do 8 driver_step.
  rewrite !insert_insert_eq in *.
  apply (settle_spec _ (Some (insert_query, insert_params key b f x y z))); [apply lookup_insert_eq |]. intros rc.
  apply (report_free_spec _ (Some (insert_query, insert_params key b f x y z))); [apply lookup_insert_eq |]. simpl.
  rewrite delete_insert_id by done. driver_step. apply hoare_done. by rewrite delete_insert_id.
Qed.

(** What SELECT stores of the row it finds. *)
Definition fetch {A} (t : ctype A) (i : nat) (r : result_row) (old : option A) : option A :=
  match mjoin (r !! i) ≫= project t with Some a => Some a | None => old end.

Definition fetch_row (r : result_row) (old : Basic) : Basic :=
  MkBasic (fetch CBool 1 r (bln old)) (fetch CFloat 3 r (flt old)) (fetch CDouble 2 r (dbl old))
    (fetch CInt32 4 r (i32 old)) (fetch CInt64 5 r (i64 old)).

Definition on_row (it : Z) (d : db) (r : option result_row) : Prop := ∃ next, live d it (HIterator next r true).

Lemma get_into_spec {A} (t : ctype A) it i old d r :
  on_row it d r →
  hoare d (get_into t (row_get_column (Row it) i) old) (λ a d',
    d' = d ∧ (faithful = true → ∀ x, r = Some x → a = fetch t i x old)).
Proof.
  intros [next Hit]. apply hoare_step; [simpl; eauto |]. intros a _ Ha. apply hoare_done. simpl. split; [done |].
  intros Hf x ->. by rewrite (Ha Hf next x Hit).
Qed.

Lemma read_row_spec it old d r :
  on_row it d r →
  hoare d (read_row it old) (λ out d', d' = d ∧ (faithful = true → ∀ x, r = Some x → out = fetch_row x old)).
Proof.
  intros Hit. unfold read_row.
  eapply (hoare_then _ _ _ (λ p d', p = Row it ∧ d' = d)).
  { unfold get_row. destruct Hit as [next Hit]. apply hoare_step; [simpl; eauto |]. intros [] _ _. by apply hoare_done. }
  intros p d' [-> ->].
  do 5 (eapply hoare_then; [by apply get_into_spec | intros ? ? [-> ?]]).
  apply hoare_done. split; [done |]. intros Hf x Hr. unfold fetch_row. f_equal; auto.
Qed.

Definition select_request (key : str) : request := (select_query, {[0%nat := VString key]}).

(** *** The statements of the code *)

Definition basic_table : str := lit "examples.basic".
Definition basic_columns : list (str * str) :=
  [(lit "key", lit "text"); (lit "bln", lit "boolean"); (lit "flt", lit "float");
   (lit "dbl", lit "double"); (lit "i32", lit "int"); (lit "i64", lit "bigint")].

Lemma create_table_parses : parse_cql create_table = Some (Create_table basic_table basic_columns (lit "key")).
Proof. vm_compute. reflexivity. Qed.

Lemma create_keyspace_parses : parse_cql create_keyspace = None.
Proof. vm_compute. reflexivity. Qed.

Lemma insert_parses : parse_cql insert_query = Some (Insert basic_table basic_columns.*1).
Proof. vm_compute. reflexivity. Qed.

Lemma select_parses : parse_cql select_query = Some (Select_row basic_table (lit "key")).
Proof. vm_compute. reflexivity. Qed.

(** The row the parameters of INSERT make. *)
Definition basic_row (key : str) (b : bool) (f : F32) (d : F64) (x y : Z) : row :=
  [(lit "key", VString key); (lit "bln", VBool b); (lit "flt", VFloat f);
   (lit "dbl", VDouble d); (lit "i32", VInt32 x); (lit "i64", VInt64 y)].

Lemma named_basic key b f x y z : named_values basic_columns.*1 (insert_params key b f x y z) = basic_row key b f x y z.
Proof. vm_compute. reflexivity. Qed.

Lemma select_columns_basic rows :
  select_columns (Table basic_columns (lit "key") rows) =
  [lit "key"; lit "bln"; lit "dbl"; lit "flt"; lit "i32"; lit "i64"].
Proof. vm_compute. reflexivity. Qed.

Lemma insert_basic_row rows key b f x y z :
  insert_row (Table basic_columns (lit "key") rows) (basic_row key b f x y z) =
  Some (Table basic_columns (lit "key") (<[key := basic_row key b f x y z ++ default [] (rows !! key)]> rows)).
Proof. reflexivity. Qed.

Lemma select_request_row key ts rows :
  ts !! basic_table = Some (Table basic_columns (lit "key") rows) →
  find_row (Some (select_request key)) ts =
  (λ r, column r <$> [lit "key"; lit "bln"; lit "dbl"; lit "flt"; lit "i32"; lit "i64"]) <$> rows !! key.
Proof.
  intros Ht. unfold find_row, select_request. rewrite select_parses. cbn [mbind option_bind find_cql].
  rewrite Ht. cbn [mbind option_bind t_key t_rows]. rewrite bool_decide_eq_true_2, lookup_singleton_eq by done.
  cbn [mbind option_bind project]. rewrite select_columns_basic. by destruct (rows !! key).
Qed.

Lemma select_request_none key ts : ts !! basic_table = None → find_row (Some (select_request key)) ts = None.
Proof.
  intros Ht. unfold find_row, select_request. rewrite select_parses. cbn [mbind option_bind find_cql].
  by rewrite Ht.
Qed.

Lemma select_request_table key rc t : outcome_table (Some (select_request key)) rc t = t.
Proof.
  unfold outcome_table, select_request, apply_request. rewrite select_parses. by destruct (rc =? CASS_OK).
Qed.

Definition written (b : bool) (f : F32) (x : F64) (y z : Z) : Basic :=
  MkBasic (Some b) (Some f) (Some x) (Some y) (Some z).

Lemma fetch_inserted key b f x y z l old :
  fetch_row (column (basic_row key b f x y z ++ l) <$>
    [lit "key"; lit "bln"; lit "dbl"; lit "flt"; lit "i32"; lit "i64"]) old = written b f x y z.
Proof. reflexivity. Qed.

(** The tables after an INSERT that answered [rc]. *)
Definition after_insert (key : str) (r : row) (rc : Z) (rows : gmap str row) : gmap str row :=
  if rc =? CASS_OK then <[key := r ++ default [] (rows !! key)]> rows else rows.

Lemma inserted_row key b f x y z rc ts rows :
  ts !! basic_table = Some (Table basic_columns (lit "key") rows) →
  outcome_table (Some (insert_query, insert_params key b f x y z)) rc ts !! basic_table =
  Some (Table basic_columns (lit "key") (after_insert key (basic_row key b f x y z) rc rows)).
Proof.
  intros Ht. unfold outcome_table, apply_request, after_insert. rewrite insert_parses.
  cbn [apply_cql]. rewrite Ht, named_basic. cbn [mbind option_bind]. rewrite insert_basic_row.
  destruct (rc =? CASS_OK); [apply lookup_insert_eq | done].
Qed.

Lemma inserted_nothing ps rc ts :
  ts !! basic_table = None → outcome_table (Some (insert_query, ps)) rc ts = ts.
Proof.
  intros Ht. unfold outcome_table, apply_request. rewrite insert_parses. cbn [apply_cql]. rewrite Ht.
  by destruct (rc =? CASS_OK).
Qed.

Lemma keyspace_table rc ts : outcome_table (Some (create_keyspace, ∅)) rc ts = ts.
Proof. unfold outcome_table, apply_request. rewrite create_keyspace_parses. by destruct (rc =? CASS_OK). Qed.

Lemma created_table rc :
  outcome_table (Some (create_table, ∅)) rc ∅ !! basic_table =
  if rc =? CASS_OK then Some (Table basic_columns (lit "key") ∅) else None.
Proof.
  unfold outcome_table, apply_request. rewrite create_table_parses. cbn [apply_cql].
  destruct (rc =? CASS_OK); [| done]. rewrite lookup_empty. apply lookup_insert_eq.
Qed.

(** What SELECT reads back when INSERT answered [rc]. *)
Lemma read_back rc key b f x y z ts rows old :
  ts !! basic_table = Some (Table basic_columns (lit "key") rows) → (rc = CASS_OK ∨ rows !! key = None) →
  match find_row (Some (select_request key))
          (outcome_table (Some (insert_query, insert_params key b f x y z)) rc ts) with
  | Some r => fetch_row r old
  | None => old
  end = if rc =? CASS_OK then written b f x y z else old.
Proof.
  intros Ht Hrc. erewrite select_request_row by by apply inserted_row. unfold after_insert.
  destruct (Z.eqb_spec rc CASS_OK) as [-> | Hne].
  - rewrite lookup_insert_eq. apply fetch_inserted.
  - destruct Hrc as [? | ->]; done.
Qed.

#[local] Opaque find_row apply_request insert_query select_query create_table create_keyspace.

(** The result part of SELECT, on a future that succeeded. *)
Lemma fetch_spec f req old d :
  live d f (HFuture (Some req) true) →
  hoare d
    (do! result := trigger (future_get_result f) in
     do! iterator := trigger (iterator_from_result result) in
     do! more := trigger (iterator_next iterator) in
     do! basic := (if more : bool then read_row iterator old else Done old) in
     do! _ := trigger (result_free result) in
     do! _ := trigger (iterator_free iterator) in
     Done basic)
    (λ out d', d' = d ∧ (faithful = true →
       out = match find_row (Some req) (stored d) with Some r => fetch_row r old | None => old end)).
Proof.
  intros Hf. destruct d as [m t]. simpl in Hf. do 3 driver_step. rewrite insert_insert_eq.
  set (rows := find_row (Some req) t) in *.
  match goal with Hm : faithful = true → ∀ next, _ |- _ => rename Hm into Hmore end.
  eapply (hoare_then _ _ _ (λ out d', d' = Db _ _ ∧ (faithful = true →
    out = match rows with Some x => fetch_row x old | None => old end))).
  { destruct r1.
    - eapply hoare_mono; [apply (read_row_spec _ _ _ rows); eexists; apply lookup_insert_eq |].
      intros out d' [-> Hout]. split; [done |]. intros Hfa. destruct rows as [x |]; [by apply Hout |].
      by specialize (Hmore Hfa _ _ _ eq_refl).
    - apply hoare_done. split; [done |]. intros Hfa. specialize (Hmore Hfa _ _ _ eq_refl). by destruct rows. }
  intros out d' [-> Hout]. apply lookup_insert_None in Hnew0 as [Hnew0 ?].
  do 2 driver_step. apply hoare_done. split; [| done]. f_equal.
  rewrite delete_insert_ne, (delete_insert_id m r) by done. by rewrite delete_insert_id.
Qed.

Lemma select_spec s key old d :
  live d s HSession →
  hoare d (select_from_basic s key old) (λ '(rc, out) d',
    d' = d ∧ (rc ≠ CASS_OK → out = old) ∧
    (faithful = true → rc = CASS_OK → out = match find_row (Some (select_request key)) (stored d) with Some r => fetch_row r old | None => old end)).
Proof.
  intros Hs. destruct d as [m t]. simpl in Hs. unfold select_from_basic. do 3 driver_step.
  rewrite insert_insert_eq in *. change (select_query, <[0%nat:=VString key]> ∅) with (select_request key).
  pose proof (select_request_table key) as Htable. revert Htable. generalize (select_request key). intros req Htable.
  apply (settle_spec _ (Some req)); [apply lookup_insert_eq |]. intros rc.
  set (d := Db _ t). assert (Hl : live d r1 (HFuture (Some req) false)) by apply lookup_insert_eq.
  pose proof (settled_live _ _ rc _ Hl) as Hl'.
  eapply (hoare_then _ _ _ (λ out d', d' = settled r1 (Some req) rc d ∧ (rc ≠ CASS_OK → out = old) ∧
    (faithful = true → rc = CASS_OK → out = match find_row (Some req) t with Some r => fetch_row r old | None => old end))).
  { destruct (Z.eqb_spec rc CASS_OK) as [-> | Hrc].
    - eapply hoare_mono; [by apply fetch_spec |]. intros out d' [-> Hout]. split_and!; [done.. |].
      intros Hfa _. rewrite (Hout Hfa).
      change (stored (settled r1 (Some req) CASS_OK d)) with (outcome_table (Some req) CASS_OK t). by rewrite Htable.
    - eapply (hoare_then _ _ _ (λ _ d', d' = settled r1 (Some req) rc d));
        [| by intros [] d' ->; apply hoare_done].
      pose proof (report_spec r1 rc (settled r1 (Some req) rc d)) as Hrep.
      rewrite (proj2 (Z.eqb_neq _ _)) in Hrep by done. apply Hrep. eauto. }
  intros out d' (-> & Hno & Hout). apply hoare_step; [simpl; eauto |]. intros [] _ _. simpl. rewrite take_settled.
  rewrite Htable. simpl. rewrite delete_insert_id by done. driver_step. apply hoare_done.
  split_and!; [by rewrite delete_insert_id | done..].
Qed.

(** ** The whole program *)

Lemma check_written : check_output (written true f32_0_001 f64_0_0002 1 2) = Ret ().
Proof. unfold check_output, written. simpl. by rewrite f32_0_001_eq; simpl; rewrite f64_0_0002_eq. Qed.

Lemma check_uninitialised : check_output uninitialised = Undef.
Proof. done. Qed.

(** How far the example got: no row was read, or the one it wrote. *)
Lemma init_db_spec host d :
  handles d = ∅ → stored d = ∅ →
  hoare d (init_db host) (λ r d',
    (∀ b, r = Ret b → handles d' = ∅) ∧
    (faithful = true → r = Ret true ∨ r = Ret false ∨ r = Undef)).
Proof.
  destruct d as [m t]. simpl. intros -> ->. unfold init_db, create_cluster.
  apply hoare_step; [done |]. intros s _ _. simpl. unfold give. simpl. apply hoare_bind.
  apply hoare_step; [done |]. intros c Hc _. simpl in *. unfold give. simpl.
  apply hoare_step; [simpl; apply lookup_insert_eq |]. intros [] _ _. simpl. apply hoare_done.
  set (m := <[c:=HCluster]> (<[s:=HSession]> ∅)).
  assert (Hs : m !! s = Some HSession).
  { unfold m. rewrite lookup_insert_ne; [apply lookup_insert_eq |]. intros ->. by rewrite lookup_insert_eq in Hc. }
  assert (Hm : delete s (delete c m) = ∅ ∧ delete c (delete s m) = ∅).
  { rewrite (delete_delete m c s). unfold m. by rewrite (delete_insert_id _ c), delete_insert_id by done. }
  assert (Hcl : m !! c = Some HCluster) by apply lookup_insert_eq.
  assert (Hne : s ≠ c) by (intros ->; congruence). clearbody m.
  eapply hoare_then; [by apply connect_session_spec |]. intros rc d' ->.
  destruct (negb (rc =? CASS_OK)).
  { driver_step. driver_step. apply hoare_done. simpl. split; [by intros b _; apply Hm | by auto]. }
  eapply hoare_then; [by apply execute_spec |]. intros rc1 d' ->. simpl.
  eapply hoare_then; [by apply execute_spec |]. intros rc2 d' ->. simpl.
  eapply hoare_then; [by apply insert_spec |]. intros rc3 d' ->. simpl.
  eapply hoare_then; [by apply select_spec |]. intros [rc4 out] d' (-> & Hno & Hout). simpl in *.
  assert (Hread : faithful = true → check_output out = Ret () ∨ check_output out = Undef).
  { intros Hfa. destruct (decide (rc4 = CASS_OK)) as [Hok | Hbad]; [| by rewrite Hno by done; right].
    rewrite (Hout Hfa Hok), keyspace_table. pose proof (created_table rc2) as Htab.
    destruct (rc2 =? CASS_OK).
    - rewrite (read_back _ _ _ _ _ _ _ _ _ _ Htab) by by right.
      destruct (rc3 =? CASS_OK); [left; apply check_written | by right].
    - rewrite inserted_nothing, select_request_none by done. by right. }
  destruct (check_output out) as [[] | e | | |] eqn:Hcheck;
    [do 2 driver_step; apply hoare_done; simpl; split; [by intros b _; apply Hm | by auto] | ..];
    (apply hoare_done; split; [done |]; intros Hfa; destruct (Hread Hfa); simplify_eq; auto).
Qed.

(** C17: Whatever the driver answers, init_db uses only live handles of the right
    kind: it gives none back twice, uses none afterwards and reads no result of
    a failed query; and when it returns, on the failing path too, it has given
    back every handle. *)
Theorem init_db_frees_handles host k :
  driver_inv (World k []) →
  let '(r, w) := run_prog (init_db host) (World k []) in
  calls_ok (history w) ∧ ∀ b, r = Ret b → handles (db_of (history w)) = ∅.
Proof.
  intros Hk. pose proof (init_db_spec host (Db ∅ ∅) eq_refl eq_refl (World k []) (conj Hk I) eq_refl) as Hrun.
  destruct (run_prog _ _) as [r w]. destruct Hrun as [[_ Hc] [Hfree _]]. by split.
Qed.

(** C18: With a driver that carries out the statements as their texts say and
    answers from the stored rows, on the table that the CREATE TABLE text of
    init_db describes, a row inserted successfully is read back field by field
    by a successful select of its key, although the INSERT names the columns in
    another order than SELECT returns them; an older row of the key is replaced.
    Both calls leave the handles of the session as they were. *)
Theorem insert_select_roundtrip session key b f x y z old w rows :
  faithful = true → session_inv w → live (db_of (history w)) session HSession →
  stored (db_of (history w)) !! basic_table = Some (Table basic_columns (lit "key") rows) →
  let inserted := run_prog (insert_into_basic session key b f x y z) w in
  let selected := run_prog (select_from_basic session key old) inserted.2 in
  handles (db_of (history selected.2)) = handles (db_of (history w)) ∧
  (inserted.1 = CASS_OK →
    stored (db_of (history inserted.2)) !! basic_table =
      Some (Table basic_columns (lit "key") (<[key := basic_row key b f x y z ++ default [] (rows !! key)]> rows)) ∧
    (selected.1.1 = CASS_OK → selected.1.2 = written b f x y z)).
Proof.
  intros Hfa Hw Hs Ht. cbv zeta. pose proof (insert_spec session key b f x y z _ Hs w Hw eq_refl) as Hi.
  destruct (run_prog _ w) as [rc1 w1]. destruct Hi as [Hw1 Hd1].
  assert (Hs1 : live (db_of (history w1)) session HSession) by (simpl in Hd1; by rewrite Hd1).
  pose proof (select_spec session key old _ Hs1 w1 Hw1 eq_refl) as Hsel. cbn [fst snd].
  destruct (run_prog _ w1) as [[rc2 out] w2]. destruct Hsel as [_ (Hd2 & _ & Hout)]. simpl in Hd1, Hd2 |- *.
  rewrite Hd2, Hd1. split; [done |]. intros ->. split.
  - exact (inserted_row _ _ _ _ _ _ CASS_OK _ _ Ht).
  - intros Hrc2. rewrite (Hout Hfa Hrc2), Hd1. exact (read_back _ _ _ _ _ _ _ _ _ _ Ht (or_introl eq_refl)).
Qed.

(** On a table that starts empty, a faithful driver never makes init_db fail
    one of its assertions: it returns, or reads a field that was never written
    because it did not look at the results of its statements. *)
Theorem init_db_outcome host k :
  faithful = true → driver_inv (World k []) →
  let '(r, _) := run_prog (init_db host) (World k []) in r = Ret true ∨ r = Ret false ∨ r = Undef.
Proof.
  intros Hfa Hk. pose proof (init_db_spec host (Db ∅ ∅) eq_refl eq_refl (World k []) (conj Hk I) eq_refl) as Hrun.
  destruct (run_prog _ _) as [r w]. destruct Hrun as [_ [_ Hout]]. auto.
Qed.
End Driver.
End Cassandra.

(** ** A driver

    Handles are numbered; the error codes of the futures follow a plan. *)

Module Demo.

#[export] Instance demo_floats : Floats := {|
  F32 := Z; F64 := Z; f32_eqb := Z.eqb; f64_eqb := Z.eqb; f32_0_001 := 10; f64_0_0002 := 2;
  f32_0_001_eq := eq_refl; f64_0_0002_eq := eq_refl |}.

Record driver : Type := MkDriver { state : db; next_handle : Z; codes : list Z }.

Definition reply {R} (e : cass R) : driver → R :=
  match e in cass R return driver → R with
  | cluster_new | session_new | session_connect _ _ | session_execute _ _ | future_get_result _
  | statement_new _ _ | iterator_from_result _ => next_handle
  | future_error_code _ => λ s, hd 0 (codes s)
  | future_error_message _ => λ _, []
  | statement_bind _ _ _ _ => λ _, 0
  | iterator_next it => λ s,
      match handles (state s) !! it with Some (HIterator next _ _) => bool_decide (is_Some next) | _ => false end
  | value_get t v => λ s,
      match handles (state s) !! row_iterator (value_row v) with
      | Some (HIterator _ (Some r) _) => mjoin (r !! value_column v) ≫= project t
      | _ => None
      end
  | _ => λ _, ()
  end.

Definition is_code {R} (e : cass R) : bool := match e with future_error_code _ => true | _ => false end.

#[export] Instance demo_driver : Handler cass driver := λ R e s,
  (reply e s, MkDriver (next_db e (reply e s) (state s)) (next_handle s + 1) (if is_code e then tl (codes s) else codes s)).

Definition handles_below (n : Z) (d : db) : Prop := ∀ h, is_Some (handles d !! h) → h < n.
Definition demo_inv (w : world cass driver) : Prop :=
  state (outside w) = db_of (history w) ∧ handles_below (next_handle (outside w)) (state (outside w)).

Lemma below_give n r s d : handles_below n d → r ≤ n → handles_below (n + 1) (give r s d).
Proof.
  intros Hb Hr h [x Hx]. simpl in Hx. apply lookup_insert_Some in Hx as [[<- _] | [_ Hx]]; [lia |].
  specialize (Hb h (ex_intro _ x Hx)). lia.
Qed.

Lemma below_take n r d : handles_below n d → handles_below n (take_back r d).
Proof. intros Hb h [x Hx]. simpl in Hx. apply lookup_delete_Some in Hx as [_ Hx]. apply Hb. eauto. Qed.

Lemma below_next {R} (e : cass R) s :
  handles_below (next_handle s) (state s) → handles_below (next_handle s + 1) (next_db e (reply e s) (state s)).
Proof.
  intros Hb.
  assert (Hmono : handles_below (next_handle s + 1) (state s)) by (intros h Hh; specialize (Hb h Hh); lia).
  assert (Hold : ∀ h x y, handles (state s) !! h = Some x → handles_below (next_handle s + 1) (give h y (state s))).
  { intros h x y Hh. apply below_give; [done |]. specialize (Hb h (ex_intro _ x Hh)). lia. }
  destruct e; simpl; repeat case_match; try done; try (by apply below_give); try (by eapply Hold);
    try (by apply below_take); by eapply (Hold _ _ (HFuture _ true)).
Qed.

#[export] Program Instance demo_faithful : Driver driver true := {| driver_inv := demo_inv |}.
Next Obligation.
  intros R e w [Hst Hb] _. simpl. unfold demo_inv. simpl. rewrite Hst. split_and!; [done | | |].
  - rewrite <-Hst. by apply below_next.
  - destruct e; simpl; try done; rewrite <-Hst; apply eq_None_not_Some; intros Hl; specialize (Hb _ Hl); lia.
  - intros _. destruct e; simpl; try done; rewrite Hst; intros * ->; done.
Qed.

Definition boot (codes : list Z) : driver := MkDriver (Db ∅ ∅) 1 codes.

(** The error codes of connect, the two CREATE statements, INSERT and SELECT. *)
Definition run_init (codes : list Z) : outcome bool := (run_prog (init_db None) (World (boot codes) [])).1.

Example init_db_runs :
  run_init <$> [[]; [7]; [0; 7; 0; 0; 0]; [0; 0; 0; 7; 0]; [0; 0; 0; 0; 7]]
  = [Ret true; Ret false; Ret true; Undef; Undef].
Proof. by vm_compute. Qed.
End Demo.
Import Demo.

Lemma boot_inv codes : driver_inv (World (Demo.boot codes) []).
Proof. split; [done |]. intros h [x Hx]. done. Qed.

Lemma init_db_frees_handles_witness :
  let '(r, w) := run_prog (init_db None) (World (Demo.boot [0; 0; 0; 7; 0]) []) in
  calls_ok (history w) ∧ ∀ b, r = Ret b → handles (db_of (history w)) = ∅.
Proof. apply (init_db_frees_handles None (Demo.boot [0; 0; 0; 7; 0])). apply boot_inv. Defined.

(** A world in which session 1 was created, and the table. *)
Definition with_table : world cass Demo.driver :=
  (run_prog (do! s := trigger session_new in execute_query s create_table) (World (Demo.boot []) [])).2.

Lemma with_table_inv : session_inv with_table.
Proof.
  assert (session_inv (World (Demo.boot []) [])) as H0 by (split; [apply boot_inv | done]).
  refine (proj1 (hoare_run (V := db) (do! s := trigger session_new in execute_query s create_table)
    (λ _ _, True) (World (Demo.boot []) []) H0 _)).
  apply hoare_step; [done |]. intros s _ _.
  eapply hoare_mono; [apply execute_spec, lookup_insert_eq | done].
Qed.

#[local] Abbreviation inserted :=
  (run_prog (insert_into_basic 1 (lit "k") true f32_0_001 f64_0_0002 5 6) with_table).
#[local] Abbreviation selected :=
  (run_prog (select_from_basic 1 (lit "k") uninitialised) inserted.2).

Lemma insert_select_roundtrip_witness :
  inserted.1 = CASS_OK ∧ selected.1.1 = CASS_OK ∧ selected.1.2 = written true f32_0_001 f64_0_0002 5 6.
Proof.
  assert (inserted.1 = CASS_OK) as H1 by by_evaluation.
  assert (selected.1.1 = CASS_OK) as H2 by by_evaluation.
  pose proof (insert_select_roundtrip 1 (lit "k") true f32_0_001 f64_0_0002 5 6 uninitialised with_table ∅
    eq_refl with_table_inv ltac:(vm_compute; reflexivity) ltac:(vm_compute; reflexivity)) as [_ Hr].
  split; [exact H1 |]. split; [exact H2 |]. exact (proj2 (Hr H1) H2).
Defined.
