(* ===== verification/Logger.v ===== *)
(** * Logger: the locking logger

    Models utils/Logger.hh and its facade utils/SimpleLogger.hh.  There is one
    logger per tag, built by the first call of [get_instance]; any number of
    threads log through them.  A thread formats its line by itself, takes the
    mutex of the logger, and writes the line to [std::cout], which takes
    characters one by one from whoever writes.  [localtime_r] is a parameter. *)

From stdpp Require Import base tactics numbers list option gmap strings.
From Stdlib Require Import ZArith Lia Ascii.
From S2P Require Import Prelude Text.
#[local] Open Scope char_scope.
#[local] Open Scope Z_scope.
#[local] Open Scope fiah_scope.
#[local] Set Warnings "-clear-no-such-hyp".

(** ** Lines *)

Inductive Level : Type := INFO | DEBUG | ERROR | WARN.

Definition ESC : ascii := chr 27.
Definition esc (s : string) : str := ESC :: lit s.

Definition _level_to_string (l : Level) : str :=
  match l with
  | INFO => lit "INFO"
  | DEBUG => lit "DEBUG"
  | ERROR => lit "ERROR"
  | WARN => lit "WARN"
  end.

Definition _level_to_color (l : Level) : str :=
  match l with
  | INFO => esc "[32m"
  | DEBUG => esc "[36m"
  | ERROR => esc "[31m"
  | WARN => esc "[33m"
  end.

(** [oss << n] for an integer. *)
Definition int_text (n : Z) : str := if n <? 0 then "-" :: decimal 20 (- n) else decimal 20 n.
Definition two_digits (n : Z) : str := (if n <? 10 then lit "0" else []) ++ int_text n.

Record tm : Type := MkTm { tm_hour : Z; tm_min : Z; tm_sec : Z }.

Abbreviation thread := nat.
Abbreviation tag := nat.

Section Format.
Context (localtime_r : Z → tm).

(** [now] is the time of the system clock in nanoseconds; [args] are the texts
    the arguments stream. *)
Definition message (name : str) (level : Level) (func : str) (line now : Z) (args : list str) : str :=
  let curr_time := Z.quot now (10 ^ 9) in
  let ms := Z.quot (Z.rem now (10 ^ 9)) (10 ^ 6) in
  let time_buf := localtime_r curr_time in
  _level_to_color level ++ lit "[" ++
  two_digits (tm_hour time_buf) ++ lit ":" ++ two_digits (tm_min time_buf) ++ lit ":" ++
  two_digits (tm_sec time_buf) ++ lit "." ++ int_text ms ++
  lit "][" ++ _level_to_string level ++ lit "][" ++ name ++ lit "::" ++ func ++ lit ":" ++ int_text line ++ lit "] " ++
  concat args ++ esc "[0m".

(** ** Threads *)

Inductive log_pc : Type :=
| P_lock (g : tag) (line : str)       (* before [lock_guard] *)
| P_write (g : tag) (rest : str)      (* in [std::cout << oss.str()] *)
| P_unlock (g : tag).

Record loggers : Type := MkLoggers {
  m_name : gmap tag str;              (* of the loggers built so far *)
  m_log_mutex : gmap tag thread;      (* the thread that holds the mutex of a logger *)
  stdout : str;
  threads : gmap thread log_pc }.

Definition init_loggers : loggers := MkLoggers ∅ ∅ [] ∅.

Inductive log_action : Type :=
| Get_instance (t : thread) (g : tag) (name : str)
| Log (t : thread) (g : tag) (level : Level) (func : str) (line now : Z) (args : list str)
| Run (t : thread).

Inductive log_event : Type :=
| Ev_call (t : thread) (line : str)     (* a call of info, debug, error or warn *)
| Ev_begin (t : thread) (line : str).   (* the call took the mutex *)

Definition goto (q : loggers) (t : thread) (pc : log_pc) : loggers :=
  MkLoggers (m_name q) (m_log_mutex q) (stdout q) (<[t := pc]> (threads q)).

Definition run_thread (q : loggers) (t : thread) (pc : log_pc) : loggers * option log_event :=
  match pc with
  | P_lock g line =>
      match m_log_mutex q !! g with
      | Some _ => (q, None)
      | None =>
          (MkLoggers (m_name q) (<[g := t]> (m_log_mutex q)) (stdout q) (<[t := P_write g (line ++ [NEWLINE])]> (threads q)),
           Some (Ev_begin t line))
      end
  | P_write g (c :: rest) =>
      (MkLoggers (m_name q) (m_log_mutex q) (stdout q ++ [c]) (<[t := P_write g rest]> (threads q)), None)
  | P_write g [] => (goto q t (P_unlock g), None)
  | P_unlock g => (MkLoggers (m_name q) (delete g (m_log_mutex q)) (stdout q) (delete t (threads q)), None)
  end.

(** A thread is either inside a call of [_log] or free to make one; the logger
    it uses was obtained from [get_instance]. *)
Definition exec (q : loggers) (a : log_action) : outcome (loggers * option log_event) :=
  match a with
  | Get_instance t g name =>
      require! bool_decide (threads q !! t = None) ;;
      Ret (MkLoggers (if m_name q !! g is Some _ then m_name q else <[g := name]> (m_name q))
             (m_log_mutex q) (stdout q) (threads q), None)
  | Log t g level func line now args =>
      match threads q !! t, m_name q !! g with
      | None, Some name =>
          let l := message name level func line now args in
          Ret (goto q t (P_lock g l), Some (Ev_call t l))
      | _, _ => Undef
      end
  | Run t =>
      match threads q !! t with
      | Some pc => Ret (run_thread q t pc)
      | None => Undef
      end
  end.

(** ** SimpleLogger *)

Definition _InternalLoggerTag : tag := 0.
Definition generic_name : str := lit "GenericLogger".

(** A conversion to [int] of a 32-bit line number. *)
Definition as_int (line : Z) : Z := if u32 line <? 2 ^ 31 then u32 line else u32 line - 2 ^ 32.

Definition impl_logger (t : thread) : log_action := Get_instance t _InternalLoggerTag generic_name.
Definition simple_init (t : thread) (name : str) : log_action := Get_instance t _InternalLoggerTag name.

(** [info], [debug], [error] and [warn] with a source location. *)
Definition simple_log (t : thread) (level : Level) (function_name : str) (line now : Z) (args : list str)
  : list log_action :=
  [impl_logger t; Log t _InternalLoggerTag level function_name (as_int line) now args].

(** ** Lines come out whole *)

Definition pc_tag (pc : log_pc) : tag := match pc with P_lock g _ | P_write g _ | P_unlock g => g end.
Definition critical (pc : log_pc) : bool := match pc with P_lock _ _ => false | _ => true end.
Definition rest_of (pc : option log_pc) : str := match pc with Some (P_write _ rest) => rest | _ => [] end.
Definition waiting (pc : option log_pc) : list str := match pc with Some (P_lock _ line) => [line] | _ => [] end.

Definition begun (es : list log_event) : list str :=
  omap (λ e, match e with Ev_begin _ l => Some l | _ => None end) es.
Definition begun_by (t : thread) (es : list log_event) : list str :=
  omap (λ e, match e with Ev_begin t' l => if decide (t' = t) then Some l else None | _ => None end) es.
Definition called_by (t : thread) (es : list log_event) : list str :=
  omap (λ e, match e with Ev_call t' l => if decide (t' = t) then Some l else None | _ => None end) es.

Definition on_tag (g : tag) (a : log_action) : Prop :=
  match a with Get_instance _ g' _ | Log _ g' _ _ _ _ _ => g' = g | Run _ => True end.

(** The rest of the line that the holder of the mutex is writing. *)
Definition unwritten (g : tag) (q : loggers) : str :=
  match m_log_mutex q !! g with Some t => rest_of (threads q !! t) | None => [] end.

Record logger_inv (g : tag) (es : list log_event) (q : loggers) : Prop := {
  li_tag : ∀ t pc, threads q !! t = Some pc → pc_tag pc = g;
  li_holder : ∀ t, m_log_mutex q !! g = Some t ↔ ∃ pc, threads q !! t = Some pc ∧ critical pc = true;
  li_out : stdout q ++ unwritten g q = unlines (begun es);
  li_order : ∀ t, called_by t es = begun_by t es ++ waiting (threads q !! t) }.

Lemma logger_inv_init g : logger_inv g [] init_loggers.
Proof. split; simpl; try done. intros t. split; [by rewrite lookup_empty |]. intros (pc & Hpc & _). done. Qed.

Lemma unlines_snoc ls l : unlines (ls ++ [l]) = unlines ls ++ l ++ [NEWLINE].
Proof. unfold unlines. rewrite flat_map_app. simpl. by rewrite app_nil_r. Qed.

(** Other threads are outside of the critical section while one is inside. *)
Lemma holder_unique g es q t t' pc :
  logger_inv g es q → m_log_mutex q !! g = Some t → threads q !! t' = Some pc → critical pc = true → t' = t.
Proof. intros Hq Ht Hpc Hc. assert (m_log_mutex q !! g = Some t') by (apply (li_holder _ _ _ Hq); eauto). congruence. Qed.

Section Steps.
Context (g : tag) (es : list log_event) (q : loggers) (t : thread).
Hypothesis Hq : logger_inv g es q.

Lemma begin_inv line :
  threads q !! t = Some (P_lock g line) → m_log_mutex q !! g = None →
  logger_inv g (es ++ [Ev_begin t line])
    (MkLoggers (m_name q) (<[g := t]> (m_log_mutex q)) (stdout q) (<[t := P_write g (line ++ [NEWLINE])]> (threads q))).
Proof.
  intros Ht Hm. split; simpl.
  - intros t' pc [[_ <-] | [_ Hpc]]%lookup_insert_Some; [done | by apply (li_tag _ _ _ Hq t')].
  - intros t'. rewrite lookup_insert_eq. split.
    + intros [= <-]. eexists. by rewrite lookup_insert_eq.
    + intros (pc & Hpc & Hc). apply lookup_insert_Some in Hpc as [[<- _] | [_ Hpc]]; [done |].
      exfalso. assert (m_log_mutex q !! g = Some t') by (apply (li_holder _ _ _ Hq); eauto). congruence.
  - pose proof (li_out _ _ _ Hq) as Ho. unfold unwritten in *. simpl. rewrite Hm, app_nil_r in Ho.
    rewrite !lookup_insert_eq. simpl. unfold begun. rewrite omap_app. simpl. by rewrite unlines_snoc, Ho.
  - intros t'. pose proof (li_order _ _ _ Hq t') as Ho. unfold called_by, begun_by in *.
    rewrite !omap_app, Ho. simpl. rewrite app_nil_r. destruct (decide (t = t')) as [<- | Hne].
    + rewrite Ht, lookup_insert_eq. simpl. by rewrite app_nil_r.
    + rewrite lookup_insert_ne by done. by rewrite app_nil_r.
Qed.

(** The holder moves on inside its critical section, [out] being written. *)
Lemma inside_inv pc pc' out :
  threads q !! t = Some pc → critical pc = true → critical pc' = true → pc_tag pc' = g →
  rest_of (Some pc) = out ++ rest_of (Some pc') →
  logger_inv g es (MkLoggers (m_name q) (m_log_mutex q) (stdout q ++ out) (<[t := pc']> (threads q))).
Proof.
  intros Ht Hc Hc' Hg Hout. assert (Hm : m_log_mutex q !! g = Some t) by (apply (li_holder _ _ _ Hq); eauto).
  split; simpl.
  - intros t' x [[_ <-] | [_ Hx]]%lookup_insert_Some; [done | by apply (li_tag _ _ _ Hq t')].
  - intros t'. rewrite (li_holder _ _ _ Hq). destruct (decide (t = t')) as [<- | Hne].
    + rewrite lookup_insert_eq. split; [by eexists | eauto].
    + by rewrite lookup_insert_ne.
  - pose proof (li_out _ _ _ Hq) as Ho. unfold unwritten in *. simpl. rewrite Hm in *.
    rewrite lookup_insert_eq, <-(assoc_L (++)), <-Hout, <-Ho. by rewrite Ht.
  - intros t'. rewrite (li_order _ _ _ Hq t'). destruct (decide (t = t')) as [<- | Hne].
    + rewrite Ht, lookup_insert_eq. by destruct pc, pc'.
    + by rewrite lookup_insert_ne.
Qed.

Lemma unlock_inv :
  threads q !! t = Some (P_unlock g) →
  logger_inv g es (MkLoggers (m_name q) (delete g (m_log_mutex q)) (stdout q) (delete t (threads q))).
Proof.
  intros Ht. assert (Hm : m_log_mutex q !! g = Some t) by (apply (li_holder _ _ _ Hq); eauto).
  split; simpl.
  - intros t' x [_ Hx]%lookup_delete_Some. by apply (li_tag _ _ _ Hq t').
  - intros t'. rewrite lookup_delete_eq. split; [done |]. intros (pc & [Hne Hpc]%lookup_delete_Some & Hc).
    destruct Hne. symmetry. by apply (holder_unique g es q t t' pc).
  - pose proof (li_out _ _ _ Hq) as Ho. unfold unwritten in *. simpl. rewrite lookup_delete_eq.
    by rewrite Hm, Ht in Ho.
  - intros t'. rewrite (li_order _ _ _ Hq t'). destruct (decide (t = t')) as [<- | Hne].
    + by rewrite Ht, lookup_delete_eq.
    + by rewrite lookup_delete_ne.
Qed.

Lemma run_thread_inv pc q' e :
  threads q !! t = Some pc → run_thread q t pc = (q', e) → logger_inv g (es ++ option_list e) q'.
Proof.
  intros Ht. pose proof (li_tag _ _ _ Hq t pc Ht) as Hg.
  destruct pc as [g' line | g' [| c rest] | g']; simpl in Hg; subst g'; simpl.
  - destruct (m_log_mutex q !! g) eqn:Hm; intros [= <- <-]; simpl; [by rewrite app_nil_r | by apply begin_inv].
  - intros [= <- <-]. simpl. rewrite app_nil_r. unfold goto. rewrite <-(app_nil_r (stdout q)).
    by apply (inside_inv (P_write g [])).
  - intros [= <- <-]. simpl. rewrite app_nil_r. by apply (inside_inv (P_write g (c :: rest))).
  - intros [= <- <-]. simpl. rewrite app_nil_r. by apply unlock_inv.
Qed.

Lemma call_inv line :
  threads q !! t = None → logger_inv g (es ++ [Ev_call t line]) (goto q t (P_lock g line)).
Proof.
  intros Ht. split; simpl.
  - intros t' x [[_ <-] | [_ Hx]]%lookup_insert_Some; [done | by apply (li_tag _ _ _ Hq t')].
  - intros t'. rewrite (li_holder _ _ _ Hq). destruct (decide (t = t')) as [<- | Hne].
    + rewrite lookup_insert_eq, Ht. split; intros (pc & [= <-] & Hc); done.
    + by rewrite lookup_insert_ne.
  - pose proof (li_out _ _ _ Hq) as Ho. unfold unwritten, goto, begun in *. simpl. rewrite omap_app. simpl.
    rewrite app_nil_r, <-Ho. f_equal. destruct (m_log_mutex q !! g) as [t0 |] eqn:Hm; [| done].
    destruct (decide (t = t0)) as [<- | Hne]; [| by rewrite lookup_insert_ne].
    rewrite lookup_insert_eq, Ht. done.
  - intros t'. pose proof (li_order _ _ _ Hq t') as Ho. unfold called_by, begun_by in *.
    rewrite !omap_app, Ho. simpl. rewrite app_nil_r. destruct (decide (t = t')) as [<- | Hne].
    + rewrite Ht, lookup_insert_eq. simpl. by rewrite app_nil_r.
    + rewrite lookup_insert_ne by done. by rewrite app_nil_r.
Qed.
End Steps.

Lemma logger_exec_inv g es q a q' e :
  on_tag g a → logger_inv g es q → exec q a = Ret (q', e) → logger_inv g (es ++ option_list e) q'.
Proof.
  intros Ha Hq. destruct a as [t g' name | t g' level func line now args | t]; simpl in Ha; try subst g'; simpl.
  - case_bool_decide; [| done]. intros [= <- <-]. simpl. rewrite app_nil_r. by destruct Hq.
  - destruct (threads q !! t) eqn:Ht, (m_name q !! g); try done. intros [= <- <-]. by apply call_inv.
  - destruct (threads q !! t) eqn:Ht; [| done]. intros [= Hrun]. by apply (run_thread_inv g es q t Hq l).
Qed.

(** *** Lines without newlines *)

Definition plain (s : str) : Prop := NEWLINE ∉ s.

Definition plain_action (a : log_action) : Prop :=
  match a with
  | Get_instance _ _ name => plain name
  | Log _ _ _ func _ _ args => plain func ∧ Forall plain args
  | Run _ => True
  end.

Lemma plain_app a b : plain (a ++ b) ↔ plain a ∧ plain b.
Proof. unfold plain. rewrite elem_of_app. tauto. Qed.

Lemma plain_concat l : Forall plain l → plain (concat l).
Proof. induction 1; simpl; [apply not_elem_of_nil | by apply plain_app]. Qed.

Lemma plain_digit d : d < 10 → plain [digit_char d].
Proof.
  intros Hd. assert (digit_char d = digit_char (Z.max d 0)) as -> by (unfold digit_char; do 2 f_equal; lia).
  assert (Hin : Z.max d 0 ∈ seqZ 0 10) by (apply elem_of_seqZ; lia).
  assert (Hall : Forall (λ d, NEWLINE ∉ [digit_char d]) (seqZ 0 10)) by by_evaluation.
  exact (proj1 (Forall_forall _ _) Hall _ Hin).
Qed.

Lemma plain_decimal fuel n : plain (decimal fuel n).
Proof.
  revert n. induction fuel as [| fuel IH]; intros n; cbn [decimal]; [apply not_elem_of_nil |].
  destruct (Z.ltb_spec n 10); [by apply plain_digit |]. apply plain_app. split; [done |].
  apply plain_digit, Z.mod_pos_bound. lia.
Qed.

Lemma plain_int n : plain (int_text n).
Proof.
  unfold int_text. destruct (n <? 0); [| apply plain_decimal]. apply not_elem_of_cons.
  split; [done | apply plain_decimal].
Qed.

Lemma plain_two n : plain (two_digits n).
Proof.
  unfold two_digits. apply plain_app. split; [| apply plain_int].
  destruct (n <? 10); unfold plain; by_evaluation.
Qed.

Lemma plain_message name level func line now args :
  plain name → plain func → Forall plain args → plain (message name level func line now args).
Proof.
  intros Hn Hf Ha. unfold message. cbv zeta. rewrite !plain_app. split_and!;
    first [assumption | apply plain_int | apply plain_two | by apply plain_concat
          | unfold plain; by_evaluation | destruct level; unfold plain; by_evaluation].
Qed.

(** Names and calls hold no newline when the arguments hold none. *)
Definition plain_inv (es : list log_event) (q : loggers) : Prop :=
  (∀ g name, m_name q !! g = Some name → plain name) ∧
  ∀ t, Forall plain (called_by t es).

Lemma logger_exec_plain es q a q' e :
  plain_action a → plain_inv es q → exec q a = Ret (q', e) → plain_inv (es ++ option_list e) q'.
Proof.
  intros Ha [Hn Hc]. destruct a as [t g name | t g level func line now args | t]; simpl in Ha |- *.
  - case_bool_decide; [| done]. intros [= <- <-]. simpl. rewrite app_nil_r. split; simpl; [| done].
    destruct (m_name q !! g) eqn:Hg; [done |]. intros g' n [[_ <-] | [_ Hg']]%lookup_insert_Some; eauto.
  - destruct (threads q !! t) eqn:Ht, (m_name q !! g) as [name |] eqn:Hg; try done. intros [= <- <-]. simpl.
    split; [done |]. intros t'. unfold called_by. rewrite omap_app. apply Forall_app. split; [apply Hc |]. simpl.
    case_decide; constructor; [| constructor]. destruct Ha. apply plain_message; eauto.
  - destruct (threads q !! t) as [pc |] eqn:Ht; [| done]. intros [= Hrun].
    assert (m_name q' = m_name q ∧ ∀ t', called_by t' (option_list e) = []) as [Hname Hno].
    { destruct pc as [g line | g [| c rest] | g]; simpl in Hrun; try case_match; by simplify_eq. }
    split; [by rewrite Hname |]. intros t'. unfold called_by in *. by rewrite omap_app, (Hno t'), app_nil_r.
Qed.

Lemma begun_by_elem l es : l ∈ begun es → ∃ t, l ∈ begun_by t es.
Proof.
  unfold begun, begun_by. rewrite list_elem_of_omap. intros ([|t l'] & Hin & [= <-]). exists t.
  apply list_elem_of_omap. exists (Ev_begin t l'). split; [done |]. by rewrite decide_True.
Qed.

(** C27: When all calls of the threads on one logger, whose texts hold no
    newline, have returned, standard
    output holds one line per call, each whole and unmixed with the others, in
    the order in which the calls took the mutex, which keeps the order of the
    calls of each thread. *)
Theorem logger_lines_whole g acts q es :
  run_schedule exec init_loggers acts = Ret (q, es) →
  Forall (on_tag g) acts → Forall plain_action acts → threads q = ∅ →
  split_lines [] (stdout q) = begun es ∧ ∀ t, begun_by t es = called_by t es.
Proof.
  intros Hrun Hon Hplain Hdone.
  pose proof (run_schedule_invariant exec _ _ _ [] _ _ _ (logger_exec_inv g) Hon (logger_inv_init g) Hrun) as Hq.
  assert (Hp : plain_inv es q).
  { refine (run_schedule_invariant exec _ plain_inv acts [] init_loggers q es logger_exec_plain Hplain _ Hrun). by split. }
  simpl in Hq. assert (Horder : ∀ t, begun_by t es = called_by t es).
  { intros t. rewrite (li_order _ _ _ Hq t), Hdone. simpl. by rewrite lookup_empty, app_nil_r. }
  split; [| done]. assert (Hout : stdout q = unlines (begun es)).
  { rewrite <-(li_out _ _ _ Hq). unfold unwritten. rewrite Hdone.
    destruct (m_log_mutex q !! g); [rewrite lookup_empty |]; by rewrite app_nil_r. }
  rewrite Hout. apply split_unlines. apply Forall_forall. intros l Hl.
  destruct (begun_by_elem l es Hl) as [t Ht]. rewrite Horder in Ht.
  destruct Hp as [_ Hc]. exact (proj1 (Forall_forall _ _) (Hc t) l Ht).
Qed.

(** *** Names *)

Lemma logger_name_kept g acts q q' es name :
  m_name q !! g = Some name → run_schedule exec q acts = Ret (q', es) → m_name q' !! g = Some name.
Proof.
  intros Hn Hrun.
  refine (run_schedule_invariant exec (λ _, True) (λ _ q, m_name q !! g = Some name) acts [] q q' es _ _ Hn Hrun);
    [| by apply Forall_forall].
  clear. intros es q a q' e _ Hn. destruct a as [t g' n | t g' ????? | t]; simpl.
  - case_bool_decide; [| done]. intros [= <- _]. simpl. destruct (decide (g' = g)) as [-> | Hne]; [by rewrite Hn |].
    destruct (m_name q !! g'); [done |]. by rewrite lookup_insert_ne.
  - repeat case_match; try done. by intros [= <- _].
  - destruct (threads q !! t) as [pc |]; [| done]. intros [= Hrun].
    destruct pc as [h line | h [| c rest] | h]; simpl in Hrun; try case_match; by simplify_eq.
Qed.

(** The first [get_instance] of a tag names its logger for good, so [init]
    after the first call of the simple logger has no effect. *)
Theorem logger_named_once t g name acts q es :
  run_schedule exec init_loggers (Get_instance t g name :: acts) = Ret (q, es) → m_name q !! g = Some name.
Proof.
  simpl. rewrite bool_decide_true by apply lookup_empty. simpl. match goal with |- context [run_schedule exec ?q0 acts] =>
    destruct (run_schedule exec q0 acts) as [[q1 es1] | | | |] eqn:Hrun; try done end.
  simpl. intros [= <- _]. apply (logger_name_kept g acts _ _ _ name) in Hrun; [done |]. apply lookup_insert_eq.
Qed.
End Format.

(** ** Concrete schedules *)

Module Demo.
#[local] Open Scope string_scope.

Definition clock (s : Z) : tm := MkTm (s / 3600 mod 24) (s / 60 mod 60) (s mod 60).
Definition eight_oclock : Z := (8 * 3600 + 5 * 60 + 9) * 10 ^ 9 + 7 * 10 ^ 6.

(** Milliseconds are not padded: 8:05:09 and seven milliseconds. *)
Example message_text :
  message clock (lit "TcpServer") INFO (lit "start") 74 eight_oclock [lit "port "; lit "80"] =
  (esc "[32m" ++ lit "[08:05:09.7][INFO][TcpServer::start:74] port 80" ++ esc "[0m")%list.
Proof. reflexivity. Qed.

Definition call (t : thread) (g : tag) (text : string) : log_action := Log t g WARN (lit "f") 1 0 [lit text].
Definition steps (t : thread) (n : nat) : list log_action := replicate n (Run t).

(** Two threads log through one logger, the second one while the first writes. *)
Definition one_logger : list log_action :=
  ([Get_instance 0 5 (lit "A"); call 1 5 "one"; call 2 5 "two"] ++
   steps 1 10 ++ steps 2 9 ++ steps 1 33 ++ steps 2 43)%list.

(** Two loggers have two mutexes: their lines mix on standard output. *)
Definition two_loggers : list log_action :=
  ([Get_instance 0 5 (lit "A"); Get_instance 0 6 (lit "B"); call 1 5 "one"; call 2 6 "two"] ++
   flat_map (λ _, [Run 1; Run 2]) (seq 0 20))%list.

Example init_too_late :
  (λ q, m_name q !! _InternalLoggerTag) (final init_loggers (run_schedule (exec clock) init_loggers
    (simple_log 0 INFO (lit "main") 1 0 [] ++ [simple_init 1 (lit "mine")])%list)) = Some (lit "GenericLogger").
Proof. reflexivity. Qed.

Example lines_mix :
  take 8 (stdout (final init_loggers (run_schedule (exec clock) init_loggers two_loggers))) =
  [ESC; ESC; "["; "["; "3"; "3"; "3"; "3"]%char.
Proof. reflexivity. Qed.
End Demo.

Lemma logger_lines_whole_witness :
  ∃ q es, run_schedule (exec Demo.clock) init_loggers Demo.one_logger = Ret (q, es) ∧
    split_lines [] (stdout q) = begun es ∧ length (begun es) = 2%nat.
Proof.
  destruct (run_schedule (exec Demo.clock) init_loggers Demo.one_logger) as [[q es] | | | |] eqn:E;
    [| exfalso; revert E; vm_compute; discriminate..].
  exists q, es. split; [reflexivity |].
  assert (threads q = ∅ ∧ length (begun es) = 2%nat) as [Hq Hlen].
  { vm_compute in E. injection E as <- <-. by split. }
  split; [| exact Hlen].
  apply (logger_lines_whole Demo.clock 5 Demo.one_logger q es E); [| | exact Hq].
  - repeat constructor.
  - repeat constructor; by_evaluation.
Defined.
