(* ===== verification/LoggerImpl.v ===== *)
(** * LoggerImpl: the earlier logger

    Models utils/LoggerImpl.hpp, a first version of the logger that no file
    includes: [get_instance], [_log] and the two tables of levels.  It differs from
    [Logger] in three ways.  Nothing is locked: a call streams its pieces to
    [std::cout] while others do.  The time goes through [std::localtime], which
    keeps its result in one object that all threads share and that [put_time] reads
    later.  And warnings have no name and no colour.

    A thread takes one step per access to what is shared: the [tm] of [localtime],
    and each character of standard output.  Two threads about to use the [tm] at
    the same time race. *)

From stdpp Require Import base tactics numbers list option gmap strings.
From Stdlib Require Import ZArith Lia Ascii.
From S2P Require Import Prelude Text Logger.
#[local] Open Scope char_scope.
#[local] Open Scope Z_scope.
#[local] Open Scope fiah_scope.

Definition _level_to_string (level : Level) : str :=
  match level with
  | INFO => lit "INFO"
  | DEBUG => lit "DEBUG"
  | ERROR => lit "ERROR"
  | _ => lit "UNKNOWN"
  end.

Definition _level_to_color (level : Level) : str :=
  match level with
  | INFO => esc "[32m"
  | DEBUG => esc "[36m"
  | ERROR => esc "[31m"
  | _ => esc "[0m"
  end.

(** The arguments of [_log]: [now] is the time of the system clock when it starts,
    [args] the texts the arguments stream. *)
Record log_call : Type := LogCall {
  level : Level; func : str; line : Z; now : Z; args : list str }.

(** [put_time] with "%H:%M:%S.00". *)
Definition put_time (t : tm) : str :=
  padded 2 (tm_hour t) ++ lit ":" ++ padded 2 (tm_min t) ++ lit ":" ++ padded 2 (tm_sec t) ++ lit ".00".

(** All that a call streams to [std::cout], given the time it reads. *)
Definition text (c : log_call) (formatted_time : tm) : str :=
  _level_to_color (level c) ++
  lit "[" ++ put_time formatted_time ++ lit "][" ++ func c ++ lit ":" ++ int_text (line c) ++
  lit "][" ++ _level_to_string (level c) ++ lit "] " ++
  concat (args c) ++ esc "[0m" ++ [NEWLINE].

Section LoggerImpl.
Context {Location : Type} (localtime : Z → tm).

Definition curr_time (c : log_call) : Z := Z.quot (now c) (10 ^ 9).

Inductive log_pc : Type :=
| P_localtime (c : log_call)      (* before [std::localtime] *)
| P_put_time (c : log_call)       (* before the insertion of [formatted_time] *)
| P_cout (rest : str).            (* in the insertions into [std::cout] *)

Record logger : Type := MkLogger {
  instance : option Location;     (* the static object of [get_instance] *)
  static_tm : tm;                 (* the object of [std::localtime] *)
  stdout : str;
  threads : gmap thread log_pc }.

Definition init_logger (t0 : tm) : logger := MkLogger None t0 [] ∅.

Inductive log_action : Type :=
| Get_instance (location : Location)
| Log (t : thread) (c : log_call)
| Run (t : thread).

Inductive log_event : Type :=
| Ev_log (t : thread) (line : str)     (* a call, and what it is to write *)
| Ev_put (t : thread) (c : ascii).     (* a character reaches standard output *)

Definition goto (q : logger) (t : thread) (pc : log_pc) : logger :=
  MkLogger (instance q) (static_tm q) (stdout q) (<[t := pc]> (threads q)).

Definition uses_tm (pc : log_pc) : bool := match pc with P_cout _ => false | _ => true end.

(** No other thread is about to read or write the [tm]; one of the two writes, as
    the only read is that of a thread which has written. *)
Definition alone (q : logger) (t : thread) : bool :=
  bool_decide (map_Forall (λ _ pc, uses_tm pc = false) (delete t (threads q))).

Definition run_thread (q : logger) (t : thread) (pc : log_pc) : outcome (logger * option log_event) :=
  match pc with
  | P_localtime c =>
      require! alone q t ;;
      Ret (MkLogger (instance q) (localtime (curr_time c)) (stdout q) (<[t := P_put_time c]> (threads q)), None)
  | P_put_time c =>
      require! alone q t ;;
      Ret (goto q t (P_cout (text c (static_tm q))), None)
  | P_cout (c :: rest) =>
      Ret (MkLogger (instance q) (static_tm q) (stdout q ++ [c]) (<[t := P_cout rest]> (threads q)), Some (Ev_put t c))
  | P_cout [] => Ret (MkLogger (instance q) (static_tm q) (stdout q) (delete t (threads q)), None)
  end.

Definition exec (q : logger) (a : log_action) : outcome (logger * option log_event) :=
  match a with
  | Get_instance location =>
      Ret (MkLogger (Some (default location (instance q))) (static_tm q) (stdout q) (threads q), None)
  | Log t c =>
      match threads q !! t, instance q with
      | None, Some _ => Ret (goto q t (P_localtime c), Some (Ev_log t (text c (localtime (curr_time c)))))
      | _, _ => Undef
      end
  | Run t =>
      match threads q !! t with
      | Some pc => run_thread q t pc
      | None => Undef
      end
  end.

(** ** What reaches the output *)

Definition puts (es : list log_event) : str :=
  omap (λ e, match e with Ev_put _ c => Some c | _ => None end) es.
Definition puts_by (t : thread) (es : list log_event) : str :=
  omap (λ e, match e with Ev_put t' c => if decide (t' = t) then Some c else None | _ => None end) es.
Definition calls_by (t : thread) (es : list log_event) : list str :=
  omap (λ e, match e with Ev_log t' l => if decide (t' = t) then Some l else None | _ => None end) es.

(** What a thread has still to write. *)
Definition unwritten (pc : option log_pc) : str :=
  match pc with
  | Some (P_localtime c) | Some (P_put_time c) => text c (localtime (curr_time c))
  | Some (P_cout rest) => rest
  | None => []
  end.

Record logger_inv (es : list log_event) (q : logger) : Prop := LoggerInv {
  li_out : stdout q = puts es;
  li_order : ∀ t, concat (calls_by t es) = puts_by t es ++ unwritten (threads q !! t);
  li_tm : ∀ t c, threads q !! t = Some (P_put_time c) → static_tm q = localtime (curr_time c) }.

Lemma impl_inv_init t0 : logger_inv [] (init_logger t0).
Proof. split; [done | intros t; simpl; by rewrite lookup_empty | done]. Qed.

Lemma alone_others q t t' pc : alone q t = true → threads q !! t' = Some pc → t' ≠ t → uses_tm pc = false.
Proof.
  intros Ha%bool_decide_eq_true Ht' Hne. apply (Ha t' pc). by rewrite lookup_delete_ne.
Qed.

(** One thread moves: its part of the text is the one that changes. *)
Lemma order_step es e t (thr thr' : gmap thread log_pc) :
  (∀ t, concat (calls_by t es) = puts_by t es ++ unwritten (thr !! t)) →
  (∀ t', t' ≠ t → thr' !! t' = thr !! t' ∧ calls_by t' (option_list e) = [] ∧ puts_by t' (option_list e) = []) →
  unwritten (thr !! t) ++ concat (calls_by t (option_list e)) =
    puts_by t (option_list e) ++ unwritten (thr' !! t) →
  ∀ t, concat (calls_by t (es ++ option_list e)) = puts_by t (es ++ option_list e) ++ unwritten (thr' !! t).
Proof.
  intros Hes Hothers Ht t'. unfold calls_by, puts_by in *. rewrite !omap_app, concat_app, Hes.
  destruct (decide (t' = t)) as [-> | Hne]; [by rewrite <-!(assoc_L (++)), Ht |].
  destruct (Hothers t' Hne) as (-> & -> & ->). simpl. by rewrite !app_nil_r.
Qed.

Lemma impl_run_thread_inv es q t pc q' e :
  logger_inv es q → threads q !! t = Some pc → run_thread q t pc = Ret (q', e) →
  logger_inv (es ++ option_list e) q'.
Proof.
  intros [Hout Hord Htm] Ht Hrun.
  assert (∀ thr' t', thr' = delete t (threads q) ∨ (∃ pc', thr' = <[t := pc']> (threads q)) →
    t' ≠ t → thr' !! t' = threads q !! t') as Hthr.
  { intros thr' t' [-> | [pc' ->]] Hne; [by apply lookup_delete_ne | by apply lookup_insert_ne]. }
  destruct pc as [c | c | [| c rest]]; simpl in Hrun.
  - destruct (alone q t) eqn:Ha; [| done]. injection Hrun as <- <-. split; simpl.
    + by rewrite app_nil_r.
    + apply (order_step es None t (threads q)); [done | |].
      * intros t' Hne. split_and!; [apply Hthr; eauto | done..].
      * rewrite Ht, lookup_insert_eq. simpl. apply app_nil_r.
    + intros t' c' [[<- [= <-]] | [Hne Ht']]%lookup_insert_Some; [done |].
      by pose proof (alone_others q t t' _ Ha Ht' (not_eq_sym Hne)).
  - destruct (alone q t) eqn:Ha; [| done]. injection Hrun as <- <-. split; simpl.
    + by rewrite app_nil_r.
    + apply (order_step es None t (threads q)); [done | |].
      * intros t' Hne. split_and!; [apply Hthr; eauto | done..].
      * rewrite Ht, lookup_insert_eq. simpl. by rewrite (Htm t c Ht), app_nil_r.
    + intros t' c' [[<- [=]] | [_ Ht']]%lookup_insert_Some. by apply (Htm t').
  - injection Hrun as <- <-. split; simpl; [by rewrite app_nil_r | |].
    + apply (order_step es None t (threads q)); [done | |].
      * intros t' Hne. split_and!; [apply Hthr; eauto | done..].
      * by rewrite Ht, lookup_delete_eq.
    + intros t' c' [_ Ht']%lookup_delete_Some. by apply (Htm t').
  - injection Hrun as <- <-. split; simpl.
    + unfold puts in *. by rewrite omap_app, Hout.
    + apply (order_step es (Some _) t (threads q)); [done | |].
      * intros t' Hne. split_and!; [apply Hthr; eauto | done |]. simpl. by rewrite decide_False.
      * rewrite Ht, lookup_insert_eq. simpl. rewrite decide_True by done. by rewrite app_nil_r.
    + intros t' c' [[<- [=]] | [_ Ht']]%lookup_insert_Some. by apply (Htm t').
Qed.

Lemma impl_exec_inv es q a q' e :
  logger_inv es q → exec q a = Ret (q', e) → logger_inv (es ++ option_list e) q'.
Proof.
  intros Hq. destruct a as [location | t c | t]; simpl.
  - intros [= <- <-]. cbn [option_list]. rewrite app_nil_r. by destruct Hq.
  - destruct (threads q !! t) eqn:Ht, (instance q) as [location |]; try done. intros [= <- <-].
    destruct Hq as [Hout Hord Htm]. split; simpl.
    + unfold puts in *. by rewrite omap_app, Hout, app_nil_r.
    + apply (order_step es (Some _) t (threads q)); [done | |].
      * intros t' Hne. split_and!; [by apply lookup_insert_ne | simpl; by rewrite decide_False | done].
      * rewrite Ht, lookup_insert_eq. simpl. rewrite decide_True by done. simpl. by rewrite app_nil_r.
    + intros t' c' [[<- [=]] | [_ Ht']]%lookup_insert_Some. by apply (Htm t').
  - destruct (threads q !! t) as [pc |] eqn:Ht; [| done]. by apply impl_run_thread_inv.
Qed.

(** As long as no two threads race for the [tm], what a thread writes is the text
    of its calls, in order and with the time of each, once they have returned; the
    output is made of what the threads write, character by character. *)
Theorem impl_writes_everything t0 acts q es :
  run_schedule exec (init_logger t0) acts = Ret (q, es) → threads q = ∅ →
  stdout q = puts es ∧ ∀ t, puts_by t es = concat (calls_by t es).
Proof.
  intros Hrun Hdone.
  assert (logger_inv es q) as [Hout Hord _].
  { refine (run_schedule_invariant exec (λ _, True) logger_inv acts [] _ q es _ _ (impl_inv_init t0) Hrun).
    - intros es' q' a q'' e _. apply impl_exec_inv.
    - by apply Forall_forall. }
  split; [done |]. intros t. rewrite Hord, Hdone, lookup_empty. simpl. by rewrite app_nil_r.
Qed.

(** Calls of two threads that have both to look at the time race. *)
Theorem impl_calls_race q t t' c c' :
  t ≠ t' → threads q !! t = Some (P_localtime c) →
  threads q !! t' = Some (P_localtime c') ∨ threads q !! t' = Some (P_put_time c') →
  exec q (Run t) = Undef ∧ exec q (Run t') = Undef.
Proof.
  intros Hne Ht Ht'.
  assert (∀ t1 t2 pc, t1 ≠ t2 → threads q !! t2 = Some pc → uses_tm pc = true → alone q t1 = false) as Hrace.
  { intros t1 t2 pc Hne12 H2 Huse. apply bool_decide_eq_false. intros Hall.
    assert (uses_tm pc = false); [| congruence]. apply (Hall t2 pc). by rewrite lookup_delete_ne. }
  simpl. rewrite Ht. simpl. split.
  - destruct Ht' as [Ht' | Ht']; by rewrite (Hrace t t' _ Hne Ht').
  - destruct Ht' as [Ht' | Ht']; rewrite Ht'; simpl; by rewrite (Hrace t' t _ (not_eq_sym Hne) Ht).
Qed.
End LoggerImpl.

(** ** Concrete schedules *)

Module Demo.
#[local] Open Scope string_scope.

Definition at_ten (func : string) (level : Level) (s : string) : log_call :=
  LogCall level (lit func) 7 (36000 * 10 ^ 9) [lit s].

(** A warning has no name. *)
Example warning_text :
  text (at_ten "main" WARN "low") (Logger.Demo.clock 36000) =
  (esc "[0m" ++ lit "[10:00:00.00][main:7][UNKNOWN] low" ++ esc "[0m" ++ [NEWLINE])%list.
Proof. reflexivity. Qed.

(** Thread 1 writes [n] characters, thread 2 its whole line, then thread 1 the
    rest: the line of thread 2 is inside that of thread 1. *)
Definition interrupted (n : nat) : list (log_action (Location := Z)) :=
  [Get_instance 0; Get_instance 1; Log 1 (at_ten "f" INFO "one"); Run 1; Run 1] ++
  replicate n (Run 1) ++
  [Log 2 (at_ten "g" INFO "two"); Run 2; Run 2] ++
  replicate (S (length (text (at_ten "g" INFO "two") (Logger.Demo.clock 36000)))) (Run 2) ++
  replicate (S (length (text (at_ten "f" INFO "one") (Logger.Demo.clock 36000)) - n)) (Run 1).

Example impl_lines_mix :
  let t0 := Logger.Demo.clock 0 in
  let one := text (at_ten "f" INFO "one") (Logger.Demo.clock 36000) in
  let two := text (at_ten "g" INFO "two") (Logger.Demo.clock 36000) in
  let q := final (init_logger t0) (run_schedule (exec Logger.Demo.clock) (init_logger t0) (interrupted 8)) in
  threads q = ∅ ∧ instance q = Some 0 ∧ stdout q = (take 8 one ++ two ++ drop 8 one)%list.
Proof. vm_compute. split_and!; reflexivity. Qed.
End Demo.

Lemma impl_writes_everything_witness :
  ∃ q es, run_schedule (exec Logger.Demo.clock) (init_logger (Logger.Demo.clock 0)) (Demo.interrupted 8) = Ret (q, es) ∧
    stdout q = puts es ∧ ∀ t, puts_by t es = concat (calls_by t es).
Proof.
  destruct (run_schedule (exec Logger.Demo.clock) (init_logger (Logger.Demo.clock 0)) (Demo.interrupted 8))
    as [[q es] | | | |] eqn:Hrun; try (vm_compute in Hrun; discriminate Hrun).
  exists q, es. split; [reflexivity |]. apply (impl_writes_everything _ _ _ _ _ Hrun).
  vm_compute in Hrun. injection Hrun as <- _. reflexivity.
Defined.
