(* ===== verification/Any.v ===== *)
(** * Any: one value, in place or on the heap

    Models the class of handle/Any.cc, a container of one value of a type that
    is a template argument: values of the size and alignment of an [int] at
    most are built inside the object, others in a heap block of their own. *)

From stdpp Require Import base tactics numbers list option gmap.
From Stdlib Require Import ZArith Lia.
From S2P Require Import Prelude Storage Heap.
#[local] Open Scope Z_scope.
#[local] Open Scope fiah_scope.

Definition SMALL_SIZE : Z := 4.
Definition ALIGN_INT : Z := 4.

Section Any.
(** The type of the value, with its [sizeof] and [alignof]. *)
Context {V : Type} (size align : Z).

Record any : Type := MkAny { storage_ : cell V; ptr_ : option nat; on_heap : bool }.

Abbreviation mem := (heap (cell V)).

(** The storage of a new object is uninitialised. *)
Definition default_construct : any := MkAny Raw None false.

Definition is_small : bool := (size <=? SMALL_SIZE) && (align <=? ALIGN_INT).

Definition construct (other : V) (h : mem) : outcome (any * mem) :=
  if is_small then
    let! c := construct_cell other Raw in Ret (MkAny c None false, h)
  else
    let '(b, h) := alloc h Raw in
    let! c := load h b in
    let! c := construct_cell other c in
    let! h := store h b c in
    Ret (MkAny Raw (Some b) true, h).

Definition destroy (a : any) (h : mem) : outcome mem :=
  match on_heap a, ptr_ a with
  | true, Some b =>
      let! c := load h b in
      let! c := destroy_cell c in
      let! h := store h b c in
      free h b
  | true, None => Ret h
  | false, _ => let! _ := destroy_cell (storage_ a) in Ret h
  end.

(** [same] tells whether the type asked for is the one of the value. *)
Definition any_cast (same : bool) (a : any) (h : mem) : outcome V :=
  if negb same then Throw bad_cast else
  if on_heap a then
    match ptr_ a with
    | Some b => let! c := load h b in read_cell c
    | None => Undef
    end
  else read_cell (storage_ a).

(** Wherever the value is kept, an Any built from a value answers that value
    to a cast to its type and bad_cast to any other, and its destruction
    destroys the value once and gives back exactly the memory it took. *)
Theorem any_holds_its_value v h F :
  frame h F →
  ∃ a h', construct v h = Ret (a, h') ∧
    any_cast true a h' = Ret v ∧ any_cast false a h' = Throw bad_cast ∧
    ∃ h'', destroy a h' = Ret h'' ∧ frame h'' F.
Proof.
  intros Hf. unfold construct. destruct is_small; simpl.
  { do 2 eexists. split_and!; [done..|]. by exists h. }
  pose proof (alloc_owns h Raw F Hf) as Ho. unfold alloc in *. simpl in *.
  set (b := next_ h) in *. rewrite (load_owns _ _ _ _ Ho). simpl.
  destruct (store_owns _ _ _ (Live v) _ Ho) as (h1 & -> & Ho1). simpl.
  do 2 eexists. split; [done |]. unfold any_cast, destroy. simpl. rewrite (load_owns _ _ _ _ Ho1). simpl.
  split_and!; [done | done |]. destruct (store_owns _ _ _ Raw _ Ho1) as (h2 & -> & Ho2). simpl.
  apply (free_owns _ _ _ _ Ho2).
Qed.

(** An Any built without a value cannot be destroyed: its destructor destroys
    an object that was never built. *)
Theorem default_any_destroyed h : destroy default_construct h = Undef.
Proof. done. Qed.
End Any.

(** A [double] does not fit the storage, an [int] does. *)
Lemma any_holds_its_value_witness :
  is_small 4 4 = true ∧ is_small 8 8 = false ∧
  ∃ a h', construct 8 8 314 empty_heap = Ret (a, h') ∧
    any_cast true a h' = Ret 314 ∧ any_cast false a h' = Throw bad_cast ∧
    ∃ h'', destroy a h' = Ret h'' ∧ frame h'' ∅.
Proof.
  split; [reflexivity |]. split; [reflexivity |].
  exact (any_holds_its_value 8 8 314 empty_heap ∅ frame_empty).
Defined.
