(* ===== verification/Matrix.v ===== *)
(** * Matrix: a matrix as a vector of rows

    Models math/Matrix.hpp.  A [std::vector] is a list; [value] answers a
    reference, modelled by a read and a write.  The copy constructor names a
    member that does not exist and has no model. *)

From stdpp Require Import base tactics numbers list option.
From Stdlib Require Import ZArith Lia.
From S2P Require Import Prelude.
#[local] Open Scope Z_scope.
#[local] Open Scope fiah_scope.

Section Matrix.
Context {T : Type}.

Record SimpleMatrix : Type := MkMatrix { _mat : list (list T) }.

Definition default_construct : SimpleMatrix := MkMatrix [].

(** [std::vector<Type> col(cols, val)]: the [int] becomes a [size_t], which no
    vector can have when it was negative. *)
Definition column (cols : Z) (val : T) : outcome (list T) :=
  if cols <? 0 then Throw length_error else Ret (replicate (Z.to_nat cols) val).

(** [for (int i = 0; i < rows; ++i) _mat.push_back(col);] *)
Fixpoint push_rows (n : nat) (i rows : Z) (col : list T) (m : list (list T)) : list (list T) :=
  match n with
  | O => m
  | S n => if i <? rows then push_rows n (i + 1) rows col (m ++ [col]) else m
  end.

Definition construct (rows cols : Z) (val : T) : outcome SimpleMatrix :=
  let! col := column cols val in
  Ret (MkMatrix (push_rows (Z.to_nat rows) 0 rows col [])).

Definition get_mat (a : SimpleMatrix) : list (list T) := _mat a.

(** The new value of the target and the copy that is returned. *)
Definition assign (this rhs : SimpleMatrix) : SimpleMatrix * SimpleMatrix := (MkMatrix (_mat rhs), MkMatrix (_mat rhs)).

(** [v[i]] of a vector, undefined outside of it. *)
Definition at_index {A : Type} (v : list A) (i : Z) : outcome A :=
  if i <? 0 then Undef else match v !! Z.to_nat i with Some x => Ret x | None => Undef end.

Definition value (a : SimpleMatrix) (row col : Z) : outcome T :=
  let! r := at_index (_mat a) row in at_index r col.

Definition set_value (a : SimpleMatrix) (row col : Z) (x : T) : outcome SimpleMatrix :=
  let! r := at_index (_mat a) row in
  let! _ := at_index r col in
  Ret (MkMatrix (<[Z.to_nat row := <[Z.to_nat col := x]> r]> (_mat a))).

(** ** Shape *)

(** [rows] rows of [cols] elements. *)
Definition has_shape (a : SimpleMatrix) (rows cols : Z) : Prop :=
  zlen (_mat a) = rows ∧ Forall (λ r, zlen r = cols) (_mat a).

Lemma push_rows_spec n i rows col m :
  0 ≤ i → rows = i + Z.of_nat n → push_rows n i rows col m = m ++ replicate n col.
Proof.
  revert i m. induction n as [| n IH]; intros i m Hi Hr; simpl; [by rewrite app_nil_r |].
  rewrite (proj2 (Z.ltb_lt _ _)) by lia. rewrite IH by lia. by rewrite <-(assoc_L (++)).
Qed.

Lemma construct_spec rows cols val :
  0 ≤ rows → 0 ≤ cols →
  construct rows cols val = Ret (MkMatrix (replicate (Z.to_nat rows) (replicate (Z.to_nat cols) val))).
Proof.
  intros Hr Hc. unfold construct, column. rewrite (proj2 (Z.ltb_ge _ _)) by done. simpl.
  by rewrite push_rows_spec by lia.
Qed.

Lemma at_index_inside {A : Type} (v : list A) i : 0 ≤ i < zlen v → ∃ x, at_index v i = Ret x ∧ v !! Z.to_nat i = Some x.
Proof.
  intros Hi. unfold at_index. rewrite (proj2 (Z.ltb_ge _ _)) by lia.
  destruct (lookup_lt_is_Some_2 v (Z.to_nat i)) as [x Hx]; [lia |]. exists x. by rewrite Hx.
Qed.

Lemma at_index_outside {A : Type} (v : list A) i : ¬ 0 ≤ i < zlen v → at_index v i = Undef.
Proof.
  intros Hi. unfold at_index. destruct (Z.ltb_spec i 0); [done |].
  by rewrite lookup_ge_None_2 by lia.
Qed.

Lemma shape_row a rows cols i :
  has_shape a rows cols → 0 ≤ i < rows → ∃ r, at_index (_mat a) i = Ret r ∧ _mat a !! Z.to_nat i = Some r ∧ zlen r = cols.
Proof.
  intros [Hr Hc] Hi. destruct (at_index_inside (_mat a) i) as (r & Hat & Hl); [lia |]. exists r.
  split_and!; [done | done |]. by apply (Forall_lookup_1 _ _ _ _ Hc Hl).
Qed.

Lemma at_index_insert {A : Type} (v : list A) i k x :
  0 ≤ i < zlen v → at_index (<[Z.to_nat i := x]> v) k = if decide (k = i) then Ret x else at_index v k.
Proof.
  intros Hi. unfold at_index. case_decide as Hk.
  - subst k. rewrite (proj2 (Z.ltb_ge _ _)) by lia. by rewrite list_lookup_insert_eq by lia.
  - destruct (Z.ltb_spec k 0); [done |]. by rewrite list_lookup_insert_ne by lia.
Qed.

(** An access outside the shape is undefined. *)
Lemma outside_spec b rows cols i j x :
  has_shape b rows cols → ¬ (0 ≤ i < rows ∧ 0 ≤ j < cols) → value b i j = Undef ∧ set_value b i j x = Undef.
Proof.
  intros Hb Hout. unfold value, set_value. destruct (decide (0 ≤ i < rows)) as [Hi | Hi].
  - destruct (shape_row b rows cols i Hb Hi) as (r & -> & _ & Hr). simpl.
    by rewrite at_index_outside by (rewrite Hr; tauto).
  - by rewrite at_index_outside by (destruct Hb as [-> _]; done).
Qed.

Lemma set_value_spec b rows cols i j x :
  has_shape b rows cols → 0 ≤ i < rows → 0 ≤ j < cols →
  ∃ c, set_value b i j x = Ret c ∧ has_shape c rows cols ∧
    ∀ i' j', value c i' j' = if decide (i' = i ∧ j' = j) then Ret x else value b i' j'.
Proof.
  intros Hb Hi Hj. destruct (shape_row b rows cols i Hb Hi) as (r & Hat & Hl & Hr).
  destruct (at_index_inside r j) as (y & Hy & _); [lia |].
  unfold set_value. rewrite Hat. simpl. rewrite Hy. simpl. eexists. split; [done |]. destruct Hb as [Hrows Hcols].
  split; [split; simpl; [by rewrite length_insert |] |].
  - apply Forall_insert; [done |]. by rewrite length_insert.
  - intros i' j'. unfold value. simpl. rewrite at_index_insert by lia.
    destruct (decide (i' = i)) as [-> | Hne]; simpl.
    + rewrite Hat. simpl. rewrite at_index_insert by lia.
      destruct (decide (j' = j)) as [-> | Hne]; [by rewrite decide_True |]. by rewrite decide_False by (intros [??]; congruence).
    + by rewrite decide_False by (intros [??]; congruence).
Qed.

(** C31: A matrix keeps its shape: the constructor makes rows * cols copies of
    the value, and writing an element inside the shape keeps the shape,
    changes that element and no other.  An access is defined exactly inside. *)
Theorem matrix_shape rows cols val :
  0 ≤ rows → 0 ≤ cols →
  ∃ a, construct rows cols val = Ret a ∧ has_shape a rows cols ∧
    (∀ i j, 0 ≤ i < rows → 0 ≤ j < cols → value a i j = Ret val) ∧
    ∀ b i j x, has_shape b rows cols →
      (¬ (0 ≤ i < rows ∧ 0 ≤ j < cols) → value b i j = Undef ∧ set_value b i j x = Undef) ∧
      (0 ≤ i < rows → 0 ≤ j < cols → ∃ c, set_value b i j x = Ret c ∧ has_shape c rows cols ∧
        ∀ i' j', value c i' j' = if decide (i' = i ∧ j' = j) then Ret x else value b i' j').
Proof.
  intros Hr Hc. eexists. split; [by apply construct_spec |]. split_and!.
  - split; simpl; [rewrite length_replicate; lia |]. apply Forall_replicate. rewrite length_replicate. lia.
  - intros i j Hi Hj. unfold value, at_index. simpl. rewrite (proj2 (Z.ltb_ge i 0)), (proj2 (Z.ltb_ge j 0)) by lia.
    rewrite lookup_replicate_2 by lia. simpl. by rewrite lookup_replicate_2 by lia.
  - intros b i j x Hb. split; [by apply outside_spec | by apply set_value_spec].
Qed.
End Matrix.

Lemma matrix_shape_witness :
  ∃ a, construct 2 3 7 = Ret a ∧ has_shape a 2 3 ∧ value a 1 2 = Ret 7.
Proof.
  destruct (matrix_shape 2 3 7) as (a & Ha & Hs & Hv & _); [lia | lia |].
  exists a. split; [exact Ha |]. split; [exact Hs |]. apply Hv; lia.
Defined.

(** Negative dimensions: no rows, or an exception. *)
Example negative_dimensions :
  construct (-1) 3 7 = Ret (MkMatrix []) ∧ construct 2 (-3) 7 = Throw length_error.
Proof. done. Qed.
