(* ===== verification/Numeric.v ===== *)
(** * Numeric: automatic and finite differences, Newton's method

    Models math/AutoDiff.hpp, math/FiniteDiff.hpp, math/NewtonRaphson.hpp and
    math/main.cc.  The code computes in [double]; the definitions take the
    arithmetic as a class, whose instance [float_scalar] is IEEE binary64 (the
    model the examples run) and whose instance [R_scalar] is exact, to say what
    the formulas mean.  The elementary functions of the C library are part of
    the class. *)

From Stdlib Require Import ZArith Lia List Reals Lra PrimFloat.
Import ListNotations.

Class Scalar (T : Type) : Type := {
  s_add : T -> T -> T; s_sub : T -> T -> T; s_mul : T -> T -> T; s_div : T -> T -> T; s_opp : T -> T;
  s_abs : T -> T; s_ltb : T -> T -> bool;
  s_two : T; s_max : T;
  s_sin : T -> T; s_cos : T -> T; s_exp : T -> T }.

Declare Scope scalar_scope.
Delimit Scope scalar_scope with s.
Infix "+" := s_add : scalar_scope.
Infix "-" := s_sub : scalar_scope.
Infix "*" := s_mul : scalar_scope.
Infix "/" := s_div : scalar_scope.
Notation "- x" := (s_opp x) : scalar_scope.

(** ** AutoDiff *)

Section AutoDiff.
Context {T : Type} {S : Scalar T}.
Local Open Scope scalar_scope.

Record Dual : Type := MkDual { val : T; d : T }.

Definition dual_add (a b : Dual) : Dual := MkDual (val a + val b) (d a + d b).
Definition dual_sub (a b : Dual) : Dual := MkDual (val a - val b) (d a - d b).
Definition dual_mul (a b : Dual) : Dual := MkDual (val a * val b) (d a * val b + val a * d b).
Definition dual_div (a b : Dual) : Dual :=
  MkDual (val a * val b) ((d a * val b - val a * d b) / (val b * val b)).
Definition dual_sin (x : Dual) : Dual := MkDual (s_sin (val x)) (s_cos (val x) * d x).
Definition dual_cos (x : Dual) : Dual := MkDual (s_cos (val x)) (- s_sin (val x) * d x).
Definition dual_exp (x : Dual) : Dual := let e := s_exp (val x) in MkDual e (e * d x).
End AutoDiff.
Arguments Dual : clear implicits.

(** ** FiniteDiff *)

Section FiniteDiff.
Context {T : Type} {S : Scalar T}.
Local Open Scope scalar_scope.

Inductive DiffType : Type := Forward | Backward | Central.

Definition calcForwardFiniteDiff (x : T) (f : T -> T) (h : T) : T := (f (x + h) - f x) / h.
Definition calcCentralFiniteDiff (x : T) (f : T -> T) (h : T) : T := (f (x + h) - f (x - h)) / (s_two * h).
Definition calcBackwardFiniteDiff (x : T) (f : T -> T) (h : T) : T := (f x - f (x - h)) / h.

Definition finite_diff (eDiffType : DiffType) (x h : T) (f : T -> T) : T :=
  match eDiffType with
  | Forward => calcForwardFiniteDiff x f h
  | Central => calcCentralFiniteDiff x f h
  | Backward => calcBackwardFiniteDiff x f h
  end.

(** ** NewtonRaphson

    The call of FiniteDiff::calc leaves out the kind of difference, which has
    no default; it is an argument here.  [count] is compared with [max_iter]
    as a double, exactly. *)

Context (eDiffType : DiffType) (f : T -> T) (delta stop_tol : T).

Definition max_iter : Z := 1000.

Definition newton_step (x : T) : T := x - f x / finite_diff eDiffType x delta f.

Fixpoint newton_loop (fuel : nat) (tol x : T) (count : Z) : option T :=
  if (s_ltb stop_tol tol && (count <? max_iter)%Z)%bool then
    match fuel with
    | O => None
    | Datatypes.S fuel =>
        let new_x := newton_step x in
        newton_loop fuel (s_abs (x - new_x)) new_x ((count + 1) mod 2 ^ 32)%Z
    end
  else Some x.

(** The loop makes [max_iter] turns at most. *)
Definition newton_raphson (guess : T) : option T := newton_loop (Z.to_nat max_iter) s_max guess 0.
End FiniteDiff.

(** ** What Newton's method returns, in any arithmetic *)

Section Newton.
Context {T : Type} {S : Scalar T} (eDiffType : DiffType) (f : T -> T) (delta stop_tol : T).

Abbreviation step := (newton_step eDiffType f delta).

Fixpoint iterate (n : nat) (x : T) : T :=
  match n with O => x | Datatypes.S n => step (iterate n x) end.

(** The tolerance tested before turn [n]: the size of the step just made. *)
Definition tol_at (n : nat) (x : T) : T :=
  match n with O => s_max | Datatypes.S n => s_abs (s_sub (iterate n x) (iterate (Datatypes.S n) x)) end.

Definition keeps_going (n : nat) (x : T) : bool := s_ltb stop_tol (tol_at n x).

Lemma newton_loop_spec fuel i guess :
  (i + fuel = Z.to_nat max_iter)%nat -> (forall k, (k < i)%nat -> keeps_going k guess = true) ->
  exists n, (n <= Z.to_nat max_iter)%nat /\
    newton_loop eDiffType f delta stop_tol fuel (tol_at i guess) (iterate i guess) (Z.of_nat i) = Some (iterate n guess) /\
    (n = Z.to_nat max_iter \/ keeps_going n guess = false) /\
    forall k, (k < n)%nat -> keeps_going k guess = true.
Proof.
  assert (Hmax : Z.to_nat max_iter = 1000%nat) by reflexivity. rewrite Hmax.
  revert i. induction fuel as [| fuel IH]; intros i Hi Hbefore; simpl.
  - exists i. replace (Z.of_nat i <? max_iter)%Z with false by (symmetry; apply Z.ltb_ge; unfold max_iter; lia).
    rewrite Bool.andb_false_r. repeat split; auto; lia.
  - destruct (s_ltb stop_tol (tol_at i guess)) eqn:Hgo; simpl.
    + replace (Z.of_nat i <? max_iter)%Z with true by (symmetry; apply Z.ltb_lt; unfold max_iter; lia).
      destruct (IH (Datatypes.S i)) as (n & Hn & Hrun & Hstop & Hk); [lia | |].
      { intros k Hk. destruct (Nat.eq_dec k i) as [-> | Hne]; [exact Hgo | apply Hbefore; lia]. }
      exists n. split; [exact Hn |]. split; [| auto]. rewrite <- Hrun. f_equal.
      rewrite Z.mod_small; [lia |]. split; [lia |]. apply Z.lt_trans with (1002)%Z; [lia | reflexivity].
    + exists i. repeat split; auto. lia.
Qed.

(** Newton's method always returns, in any arithmetic and for any function
    (not-a-number included): after at most 1000 turns, with the iterate of the
    first turn whose step was not above the tolerance, if there is one. *)
Theorem newton_returns guess :
  exists n, (n <= 1000)%nat /\ newton_raphson eDiffType f delta stop_tol guess = Some (iterate n guess) /\
    (n = 1000%nat \/ keeps_going n guess = false) /\ forall k, (k < n)%nat -> keeps_going k guess = true.
Proof.
  destruct (newton_loop_spec (Z.to_nat max_iter) 0 guess) as (n & Hn & Hrun & Hstop & Hk);
    [reflexivity | intros k Hk; lia |].
  exists n. auto.
Qed.
End Newton.

(** ** Exact arithmetic *)

Local Open Scope R_scope.

#[export] Instance R_scalar : Scalar R := {
  s_add := Rplus; s_sub := Rminus; s_mul := Rmult; s_div := Rdiv; s_opp := Ropp;
  s_abs := Rabs; s_ltb := fun x y => if Rlt_dec x y then true else false;
  s_two := 2; s_max := 2 ^ 1024 - 2 ^ 971;
  s_sin := sin; s_cos := cos; s_exp := exp }.

(** *** Dual numbers carry derivatives *)

(** The functions written with the operations of AutoDiff, the quotient apart. *)
Inductive expr : Type :=
| Var
| Const (c : R)
| Add (a b : expr) | Sub (a b : expr) | Mul (a b : expr)
| Sin (a : expr) | Cos (a : expr) | Exp (a : expr).

Fixpoint eval (e : expr) (x : R) : R :=
  match e with
  | Var => x
  | Const c => c
  | Add a b => eval a x + eval b x
  | Sub a b => eval a x - eval b x
  | Mul a b => eval a x * eval b x
  | Sin a => sin (eval a x)
  | Cos a => cos (eval a x)
  | Exp a => exp (eval a x)
  end.

Fixpoint eval_dual (e : expr) (x : Dual R) : Dual R :=
  match e with
  | Var => x
  | Const c => MkDual c 0
  | Add a b => dual_add (eval_dual a x) (eval_dual b x)
  | Sub a b => dual_sub (eval_dual a x) (eval_dual b x)
  | Mul a b => dual_mul (eval_dual a x) (eval_dual b x)
  | Sin a => dual_sin (eval_dual a x)
  | Cos a => dual_cos (eval_dual a x)
  | Exp a => dual_exp (eval_dual a x)
  end.

Lemma eval_dual_val e x : val (eval_dual e x) = eval e (val x).
Proof. induction e; simpl; congruence. Qed.

Lemma derivable_eq g x l l' : derivable_pt_lim g x l -> l = l' -> derivable_pt_lim g x l'.
Proof. intros H ->. exact H. Qed.

Lemma eval_dual_d e x : derivable_pt_lim (eval e) x (d (eval_dual e (MkDual x 1))).
Proof.
  induction e; simpl; rewrite ?eval_dual_val; simpl.
  - apply derivable_pt_lim_id.
  - apply derivable_pt_lim_const.
  - exact (derivable_pt_lim_plus _ _ _ _ _ IHe1 IHe2).
  - exact (derivable_pt_lim_minus _ _ _ _ _ IHe1 IHe2).
  - exact (derivable_pt_lim_mult _ _ _ _ _ IHe1 IHe2).
  - exact (derivable_pt_lim_comp _ _ _ _ _ IHe (derivable_pt_lim_sin _)).
  - exact (derivable_pt_lim_comp _ _ _ _ _ IHe (derivable_pt_lim_cos _)).
  - exact (derivable_pt_lim_comp _ _ _ _ _ IHe (derivable_pt_lim_exp _)).
Qed.

(** The derivative scales with the one of the argument. *)
Lemma eval_dual_linear e x dx : d (eval_dual e (MkDual x dx)) = d (eval_dual e (MkDual x 1)) * dx.
Proof. induction e; simpl; rewrite ?eval_dual_val, ?IHe, ?IHe1, ?IHe2; simpl; ring. Qed.

(** C28: In exact arithmetic, a function written with the sums, differences,
    products, sines, cosines and exponentials of dual numbers computes its
    value and, in the second component, its derivative times that of the
    argument; the second component of a quotient is its derivative as well,
    but the first is the product of the operands. *)
Theorem AutoDiff_correct e1 e2 x dx :
  let r := eval_dual e1 (MkDual x dx) in
  let q := dual_div (eval_dual e1 (MkDual x 1)) (eval_dual e2 (MkDual x 1)) in
  val r = eval e1 x /\ (exists l, derivable_pt_lim (eval e1) x l /\ d r = l * dx) /\
  (eval e2 x <> 0 -> derivable_pt_lim (fun y => eval e1 y / eval e2 y) x (d q)) /\
  val q = eval e1 x * eval e2 x.
Proof.
  cbv zeta. rewrite eval_dual_val. split; [reflexivity |]. split.
  { exists (d (eval_dual e1 (MkDual x 1))). split; [apply eval_dual_d | apply eval_dual_linear]. }
  split; [| simpl; now rewrite !eval_dual_val].
  intros Hne. eapply derivable_eq; [exact (derivable_pt_lim_div _ _ _ _ _ (eval_dual_d e1 x) (eval_dual_d e2 x) Hne) |].
  simpl. rewrite !eval_dual_val. simpl. unfold Rsqr. field. exact Hne.
Qed.

(** *** Finite differences approximate derivatives *)

(** The backward difference is the forward one with the opposite step. *)
Lemma backward_forward x f h : h <> 0 -> calcBackwardFiniteDiff x f h = calcForwardFiniteDiff x f (- h).
Proof. intros Hh. unfold calcBackwardFiniteDiff, calcForwardFiniteDiff. simpl. unfold Rminus at 2. field. exact Hh. Qed.

Lemma central_average x f h :
  h <> 0 -> calcCentralFiniteDiff x f h = (calcForwardFiniteDiff x f h + calcBackwardFiniteDiff x f h) / 2.
Proof. intros Hh. unfold calcCentralFiniteDiff, calcForwardFiniteDiff, calcBackwardFiniteDiff. simpl. field. exact Hh. Qed.

(** In exact arithmetic, the forward, backward and central differences of a
    function differentiable at a point all tend to its derivative there as the
    step tends to zero. *)
Theorem finite_diff_converges eDiffType f x l :
  derivable_pt_lim f x l ->
  forall eps, 0 < eps -> exists delta, 0 < delta /\
    forall h, h <> 0 -> Rabs h < delta -> Rabs (finite_diff eDiffType x h f - l) < eps.
Proof.
  intros Hf eps Heps. destruct (Hf eps Heps) as [delta Hdelta]. exists delta. split; [apply cond_pos |].
  assert (Hfwd : forall h, h <> 0 -> Rabs h < delta -> Rabs (calcForwardFiniteDiff x f h - l) < eps) by exact Hdelta.
  assert (Hbwd : forall h, h <> 0 -> Rabs h < delta -> Rabs (calcBackwardFiniteDiff x f h - l) < eps).
  { intros h Hh Hd. rewrite backward_forward by exact Hh. apply Hfwd; [lra | now rewrite Rabs_Ropp]. }
  intros h Hh Hd. destruct eDiffType; [now apply Hfwd | now apply Hbwd |].
  change (finite_diff Central x h f) with (calcCentralFiniteDiff x f h). rewrite central_average by exact Hh.
  specialize (Hfwd h Hh Hd). specialize (Hbwd h Hh Hd).
  apply Rabs_def2 in Hfwd. apply Rabs_def2 in Hbwd. apply Rabs_def1; lra.
Qed.

(** *** Newton's method on a quadratic *)

Section Quadratic.
Context (a r h tol guess : R).
Hypotheses (Ha : 0 < a) (Hr : 0 < r) (Hh : h <> 0) (Htol : 0 < tol).
Hypothesis Hguess : r <= guess.

Definition quadratic (x : R) : R := a * x * x - a * (r * r).

(** The central difference is the derivative, so a step is Heron's. *)
Lemma quadratic_derivative x : finite_diff Central x h quadratic = 2 * a * x.
Proof. unfold finite_diff, calcCentralFiniteDiff, quadratic. simpl. field. exact Hh. Qed.

Lemma quadratic_step x : x <> 0 -> newton_step Central quadratic h x = (x + r * r / x) / 2.
Proof.
  intros Hx. unfold newton_step. rewrite quadratic_derivative. unfold quadratic. simpl. field.
  split; [exact Hx | lra].
Qed.

Abbreviation x_ n := (iterate Central quadratic h n guess).

(** The distance to the root is non-negative and halves at least. *)
Lemma quadratic_halves n : r <= x_ n /\ x_ (S n) - r <= (x_ n - r) / 2 /\ (x_ n - r) / 2 <= x_ n - x_ (S n).
Proof.
  assert (Hstep : forall x, r <= x ->
    let y := newton_step Central quadratic h x in r <= y /\ y - r <= (x - r) / 2 /\ (x - r) / 2 <= x - y).
  { intros x Hx. cbv zeta. rewrite quadratic_step by lra.
    assert (Hq : 0 < r * r / x <= r).
    { split; [apply Rdiv_lt_0_compat; nra |]. apply (Rmult_le_reg_r x); [lra |].
      unfold Rdiv. rewrite Rmult_assoc, Rinv_l by lra. nra. }
    assert (Hmean : 2 * r <= x + r * r / x).
    { apply (Rmult_le_reg_r x); [lra |]. replace ((x + r * r / x) * x) with (x * x + r * r) by (field; lra). nra. }
    lra. }
  assert (Hr_n : forall n, r <= x_ n).
  { clear n. induction n as [| n IH]; simpl; [exact Hguess | now apply Hstep]. }
  split; [apply Hr_n | exact (proj2 (Hstep _ (Hr_n n)))].
Qed.

Lemma quadratic_error n : x_ n - r <= (guess - r) / 2 ^ n.
Proof.
  induction n as [| n IH]; [simpl; lra |]. destruct (quadratic_halves n) as (_ & Hhalf & _).
  assert (Hpow : 0 < 2 ^ n) by (apply pow_lt; lra). replace ((guess - r) / 2 ^ S n) with ((guess - r) / 2 ^ n / 2); [lra |].
  simpl. field. lra.
Qed.

(** Turn [k + 1] is made when the step before it was above the tolerance. *)
Lemma quadratic_keeps_going k :
  keeps_going Central quadratic h tol (S k) guess = if Rlt_dec tol (x_ k - x_ (S k)) then true else false.
Proof.
  destruct (quadratic_halves k) as (? & ? & ?). unfold keeps_going, tol_at. cbn [s_ltb s_abs s_sub R_scalar].
  rewrite Rabs_right by lra. reflexivity.
Qed.

Lemma quadratic_stops k : guess - r <= tol * 2 ^ k -> keeps_going Central quadratic h tol (S k) guess = false.
Proof.
  intros Hfar. rewrite quadratic_keeps_going. destruct (Rlt_dec _ _) as [Hlt |]; [exfalso | reflexivity].
  destruct (quadratic_halves (S k)) as (Hlow & _ & _). pose proof (quadratic_error k) as Herr.
  assert (Hpow : 0 < 2 ^ k) by (apply pow_lt; lra).
  assert ((guess - r) / 2 ^ k <= tol).
  { apply (Rmult_le_reg_r (2 ^ k)); [exact Hpow |]. unfold Rdiv. rewrite Rmult_assoc, Rinv_l by lra. lra. }
  lra.
Qed.

(** C29: In exact arithmetic, Newton's method with central differences on
    a*x*x - a*r*r stops before its limit of 1000 turns: it makes a turn as long
    as the step of the turn before was above the tolerance, ends with the first
    turn whose step is not, and answers the point reached, which is the root or
    above it by no more than the tolerance.  The guess is the root or above it,
    by at most 2^998 tolerances, and the tolerance is below the largest double,
    from which the loop starts. *)
Theorem newton_finds_root :
  tol < s_max -> guess - r <= tol * 2 ^ 998 ->
  exists n, (S n < 1000)%nat /\ newton_raphson Central quadratic h tol guess = Some (x_ (S n)) /\
    (forall k, (k < n)%nat -> tol < Rabs (x_ k - x_ (S k))) /\ Rabs (x_ n - x_ (S n)) <= tol /\
    r <= x_ (S n) <= r + tol.
Proof.
  intros Hmax Hfar. destruct (newton_loop_spec Central quadratic h tol (Z.to_nat max_iter) 0 guess)
    as (n & Hn & Hrun & Hstop & Hgo); [reflexivity | intros k Hk; lia |].
  assert (Hlim : (n < 1000)%nat).
  { destruct (Nat.lt_ge_cases n 1000) as [| Hge]; [assumption | exfalso].
    pose proof (quadratic_stops 998 Hfar) as H999. rewrite Hgo in H999; [discriminate | lia]. }
  destruct Hstop as [-> | Hlast]; [change (Z.to_nat max_iter) with 1000%nat in Hlim; lia |].
  destruct n as [| n].
  { unfold keeps_going, tol_at in Hlast. cbn [s_ltb R_scalar] in Hlast.
    destruct (Rlt_dec tol s_max); [discriminate | contradiction]. }
  assert (Habs : forall k, Rabs (x_ k - x_ (S k)) = x_ k - x_ (S k)).
  { intros k. destruct (quadratic_halves k) as (? & ? & ?). apply Rabs_right. lra. }
  exists n. split; [exact Hlim |]. split; [exact Hrun |]. split.
  - intros k Hk. specialize (Hgo (S k) ltac:(lia)). rewrite quadratic_keeps_going in Hgo. rewrite Habs.
    destruct (Rlt_dec _ _) in Hgo; [assumption | discriminate].
  - rewrite Habs. rewrite quadratic_keeps_going in Hlast. destruct (Rlt_dec _ _) as [| Hge] in Hlast; [discriminate |].
    apply Rnot_lt_le in Hge. destruct (quadratic_halves n) as (? & ? & ?).
    destruct (quadratic_halves (S n)) as (? & _). lra.
Qed.
End Quadratic.

(** ** The program of main.cc, in binary64 *)

Module Demo.
Local Open Scope float_scope.
#[local] Set Warnings "-inexact-float".

Section Float.
(** The elementary functions of the C library, which the program does not call. *)
Context (fsin fcos fexp : float -> float).

#[export] Instance float_scalar : Scalar float := {
  s_add := PrimFloat.add; s_sub := PrimFloat.sub; s_mul := PrimFloat.mul; s_div := PrimFloat.div;
  s_opp := PrimFloat.opp; s_abs := PrimFloat.abs; s_ltb := PrimFloat.ltb;
  s_two := 2; s_max := 0x1.fffffffffffffp+1023;
  s_sin := fsin; s_cos := fcos; s_exp := fexp }.
End Float.

#[local] Instance float_main : Scalar float := float_scalar (fun x => x) (fun x => x) (fun x => x).

Definition f2 (x : float) : float := 2 * x * x - 4.

(** The two numbers that main prints; [NewtonRaphson::calc] is given no tolerance,
    so it has that of its declaration. *)
Definition default_stop_tol : float := 1e-12.

Definition main (eDiffType : DiffType) : float * option float :=
  (finite_diff Forward 3 0.001 f2, newton_raphson eDiffType f2 0.0001 default_stop_tol (-3)).

(** The first is the derivative of [f2] at 3, up to the error of the forward formula
    with a step of 0.001. *)
Example main_difference :
  let e := fst (main Central) - 12.002 in PrimFloat.ltb (PrimFloat.abs e) 1e-9 = true.
Proof. vm_compute. reflexivity. Qed.

(** The second is the root of [f2] next to -3, the square root of 2 negated, to the
    last bits, whichever difference is used. *)
Example main_root :
  forallb (fun eDiffType => match snd (main eDiffType) with
    | Some x => PrimFloat.ltb (PrimFloat.abs (x + 1.4142135623730951)) 1e-15
    | None => false end) [Forward; Backward; Central] = true.
Proof. vm_compute. reflexivity. Qed.

(** From 0 the derivative is 0: the loop stops with an infinity. *)
Example main_stuck :
  option_map (fun x => PrimFloat.is_infinity x || PrimFloat.is_nan x)%bool
    (newton_raphson Central f2 0.0001 default_stop_tol 0) = Some true.
Proof. vm_compute. reflexivity. Qed.
End Demo.

Lemma pow2_ge_1 n : 1 <= 2 ^ n.
Proof. apply pow_R1_Rle. lra. Qed.

Lemma newton_finds_root_witness :
  let x n := iterate Central (quadratic 1 1) 1 n 3 in
  exists n, (S n < 1000)%nat /\ newton_raphson Central (quadratic 1 1) 1 (1 / 1000) 3 = Some (x (S n)) /\
    (forall k, (k < n)%nat -> 1 / 1000 < Rabs (x k - x (S k))) /\ Rabs (x n - x (S n)) <= 1 / 1000 /\
    1 <= x (S n) <= 1 + 1 / 1000.
Proof.
  apply (newton_finds_root 1 1 1 (1 / 1000) 3); try lra.
  unfold s_max, R_scalar. replace (2 ^ 1024) with (2 ^ 971 * 2 ^ 53) by (rewrite <- pow_add; reflexivity).
  pose proof (pow2_ge_1 971) as H971. assert (2 <= 2 ^ 53) by (pose proof (pow2_ge_1 52); change (2 ^ 53) with (2 * 2 ^ 52); lra).
  revert H H971. generalize (2 ^ 971) (2 ^ 53). intros P Q HQ HP. nra.
Defined.

Lemma finite_diff_converges_witness :
  exists delta, 0 < delta /\ forall h, h <> 0 -> Rabs h < delta ->
    Rabs (finite_diff Central 0 h sin - cos 0) < 1 / 1000.
Proof. apply (finite_diff_converges Central sin 0 (cos 0) (derivable_pt_lim_sin 0)). lra. Defined.
