(* ===== verification/Rounding.v ===== *)
(** * Rounding: the error of finite differences in rounded arithmetic

    [Numeric] proves that the differences of math/FiniteDiff.hpp converge in exact
    arithmetic.  In [double] they do not: the smaller the step, the more the
    rounding of the function is blown up.  Here each operation of [Numeric] answers
    a rounding of the exact result, the standard model of floating point, and
    [finite_diff_error] bounds what the three formulas answer by both errors.
    [round64] is the rounding of binary64, its range of exponents open above. *)

From Stdlib Require Import ZArith Lia Reals Lra.
From S2P Require Import Numeric.
Local Open Scope R_scope.

(** ** Rounded arithmetic *)

Section Rounded.
Context (rnd : R -> R).

Definition rounded_scalar : Scalar R := {|
  s_add x y := rnd (x + y); s_sub x y := rnd (x - y); s_mul x y := rnd (x * y); s_div x y := rnd (x / y);
  s_opp := Ropp; s_abs := Rabs; s_ltb := fun x y => if Rlt_dec x y then true else false;
  s_two := 2; s_max := 2 ^ 1024 - 2 ^ 971;
  s_sin x := rnd (sin x); s_cos x := rnd (cos x); s_exp x := rnd (exp x) |}.

(** A relative error of [u], and [eta] next to zero. *)
Context (u eta : R).
Hypothesis Hu : 0 <= u.
Hypothesis Heta : 0 <= eta.
Hypothesis Hrnd : forall x, Rabs (rnd x - x) <= u * Rabs x + eta.

(** A quotient, computed from a numerator close to [l * h]: the two roundings. *)
Lemma quotient_error x l h e :
  0 < h -> Rabs (x - l * h) <= e ->
  Rabs (rnd (rnd x / h) - l) <= (1 + u) * (1 + u) * (e / h) + ((1 + u) * (1 + u) - 1) * Rabs l + (1 + u) * (eta / h) + eta.
Proof using Hu Heta Hrnd.
  intros Hh Hx. set (n := rnd x).
  assert (Hn : Rabs (n - l * h) <= (1 + u) * e + u * (Rabs l * h) + eta).
  { pose proof (Hrnd x) as H. pose proof (Rabs_triang (x - l * h) (l * h)) as Ht.
    replace (x - l * h + l * h) with x in Ht by ring. rewrite Rabs_mult, (Rabs_right h) in Ht by lra.
    pose proof (Rabs_triang (n - x) (x - l * h)) as Ht'. replace (n - x + (x - l * h)) with (n - l * h) in Ht' by ring.
    fold n in H. nra. }
  set (y := n / h). assert (Hy : Rabs (y - l) <= ((1 + u) * e + u * (Rabs l * h) + eta) / h).
  { replace (y - l) with ((n - l * h) / h) by (unfold y; field; lra).
    unfold Rdiv at 1. rewrite Rabs_mult, (Rabs_right (/ h)) by (left; now apply Rinv_0_lt_compat).
    apply Rmult_le_compat_r; [left; now apply Rinv_0_lt_compat | exact Hn]. }
  replace (((1 + u) * e + u * (Rabs l * h) + eta) / h) with ((1 + u) * (e / h) + u * Rabs l + eta / h) in Hy by (field; lra).
  pose proof (Hrnd y) as Hq. pose proof (Rabs_triang (y - l) l) as Ht. replace (y - l + l) with y in Ht by ring.
  pose proof (Rabs_triang (rnd y - y) (y - l)) as Ht'. replace (rnd y - y + (y - l)) with (rnd y - l) in Ht' by ring.
  revert Hy Hq Ht Ht'. generalize (e / h) (eta / h). intros e' eta' Hy Hq Ht Ht'. nra.
Qed.

(** ** The function

    [F] is what the program computes for [f], which is differentiable around [x]
    with a derivative that changes by [M] per unit at most. *)
Context (f f' F : R -> R) (x h M eps : R).
Hypothesis Hh : 0 < h.

(** How far [x + h] and [x - h] are from their roundings, and the points used from [x]. *)
Definition slip : R := u * (Rabs x + h) + eta.
Definition reach : R := h + slip.

Hypothesis Hf : forall y, Rabs (y - x) <= reach -> derivable_pt_lim f y (f' y).
Hypothesis Hf' : forall y, Rabs (y - x) <= reach -> Rabs (f' y - f' x) <= M * Rabs (y - x).
Hypothesis HF : forall y, Rabs (y - x) <= reach -> Rabs (F y - f y) <= eps.

Lemma slip_nonneg : 0 <= slip.
Proof using Hu Heta Hh. unfold slip. pose proof (Rabs_pos x). nra. Qed.

(** A point of the formulas is [d] away from [x], up to the slip. *)
Lemma rounded_point d : Rabs d <= h -> Rabs (rnd (x + d) - (x + d)) <= slip /\ Rabs (rnd (x + d) - x) <= reach.
Proof using Hu Heta Hrnd Hh.
  intros Hd. assert (Hs : Rabs (rnd (x + d) - (x + d)) <= slip).
  { etransitivity; [apply Hrnd |]. unfold slip. apply Rplus_le_compat_r, Rmult_le_compat_l; [exact Hu |].
    pose proof (Rabs_triang x d). lra. }
  split; [exact Hs |]. unfold reach. pose proof (Rabs_triang (rnd (x + d) - (x + d)) d) as Ht.
  replace (rnd (x + d) - (x + d) + d) with (rnd (x + d) - x) in Ht by ring. lra.
Qed.

Lemma M_nonneg : 0 <= M.
Proof using Hf' Hh Hu Heta.
  destruct (Rle_or_lt 0 M) as [| HM]; [assumption | exfalso].
  assert (Hpos : 0 < reach) by (unfold reach; pose proof slip_nonneg; lra).
  pose proof (Hf' (x + reach)) as Hend. replace (x + reach - x) with reach in Hend by ring.
  rewrite (Rabs_right reach) in Hend by lra. specialize (Hend (Rle_refl _)).
  pose proof (Rabs_pos (f' (x + reach) - f' x)). nra.
Qed.

(** The mean value theorem, between any two points near [x]. *)
Lemma difference_near a b :
  Rabs (a - x) <= reach -> Rabs (b - x) <= reach ->
  Rabs (f a - f b - f' x * (a - b)) <= M * reach * Rabs (a - b).
Proof using Hf Hf' Hh Hu Heta.
  assert (Hless : forall a b, Rabs (a - x) <= reach -> Rabs (b - x) <= reach -> b < a ->
    Rabs (f a - f b - f' x * (a - b)) <= M * reach * Rabs (a - b)).
  { clear a b. intros a b Ha Hb Hlt.
    assert (Hnear : forall c, b <= c <= a -> Rabs (c - x) <= reach).
    { intros c Hc. revert Ha Hb. unfold Rabs. repeat destruct (Rcase_abs _); lra. }
    destruct (MVT_cor2 f f' b a Hlt) as (c & Heq & Hc); [intros c Hc; apply Hf, Hnear, Hc |].
    rewrite Heq. replace (f' c * (a - b) - f' x * (a - b)) with ((f' c - f' x) * (a - b)) by ring.
    rewrite Rabs_mult. apply Rmult_le_compat_r; [apply Rabs_pos |].
    assert (Hcx : Rabs (c - x) <= reach) by (apply Hnear; lra).
    pose proof (Hf' c Hcx). pose proof M_nonneg. nra. }
  intros Ha Hb. destruct (Rtotal_order a b) as [Hlt | [-> | Hlt]].
  - replace (f a - f b - f' x * (a - b)) with (- (f b - f a - f' x * (b - a))) by ring.
    rewrite Rabs_Ropp, (Rabs_minus_sym a b). now apply Hless.
  - rewrite !Rminus_diag, Rmult_0_r, Rminus_diag, Rabs_R0, Rmult_0_r. lra.
  - now apply Hless.
Qed.

(** A numerator: [a] and [b] are near [x], and [H] apart up to [S]. *)
Lemma numerator_error a b H S :
  Rabs (a - x) <= reach -> Rabs (b - x) <= reach -> Rabs (a - b - H) <= S ->
  Rabs (F a - F b - f' x * H) <= M * reach * Rabs (a - b) + Rabs (f' x) * S + 2 * eps.
Proof using Hf Hf' HF Hh Hu Heta.
  intros Ha Hb HS. pose proof (difference_near a b Ha Hb) as Hd. pose proof (HF a Ha) as HFa. pose proof (HF b Hb) as HFb.
  replace (F a - F b - f' x * H) with
    (f a - f b - f' x * (a - b) + (f' x * (a - b - H) + ((F a - f a) - (F b - f b)))) by ring.
  etransitivity; [apply Rabs_triang |]. rewrite Rplus_assoc. apply Rplus_le_compat; [exact Hd |].
  etransitivity; [apply Rabs_triang |]. apply Rplus_le_compat.
  - rewrite Rabs_mult. apply Rmult_le_compat_l; [apply Rabs_pos | exact HS].
  - etransitivity; [apply Rabs_triang |]. rewrite Rabs_Ropp. lra.
Qed.

(** The error of a difference: what the step leaves of the second derivative, what
    the rounding of the points and of the function is blown up to, and the two
    last roundings. *)
Definition difference_error : R :=
  (1 + u) * (1 + u) * ((M * reach * reach + Rabs (f' x) * slip + 2 * eps) / h) +
  ((1 + u) * (1 + u) - 1) * Rabs (f' x) + (1 + u) * (eta / h) + eta.

(** One step, or two, between the points. *)
Lemma steps_error a b n H :
  n = 1 \/ n = 2 -> H = n * h ->
  Rabs (a - x) <= reach -> Rabs (b - x) <= reach -> Rabs (a - b - H) <= n * slip -> Rabs (a - b) <= n * reach ->
  Rabs (rnd (rnd (F a - F b) / H) - f' x) <= difference_error.
Proof using Hf Hf' HF Hh Hu Heta Hrnd.
  intros Hn -> Ha Hb HS Hab.
  assert (Heps : 0 <= eps) by (etransitivity; [apply Rabs_pos | exact (HF a Ha)]).
  pose proof M_nonneg as HM. pose proof slip_nonneg as Hslip.
  assert (Hreach : 0 <= reach) by (unfold reach; lra).
  assert (Hnum : Rabs (F a - F b - f' x * (n * h)) <= n * (M * reach * reach + Rabs (f' x) * slip + 2 * eps)).
  { etransitivity; [exact (numerator_error a b (n * h) (n * slip) Ha Hb HS) |].
    assert (M * reach * Rabs (a - b) <= M * reach * (n * reach)) by (apply Rmult_le_compat_l; [nra | exact Hab]).
    destruct Hn as [-> | ->]; lra. }
  etransitivity; [refine (quotient_error _ _ _ _ _ Hnum); destruct Hn as [-> | ->]; lra |].
  unfold difference_error. set (e := M * reach * reach + Rabs (f' x) * slip + 2 * eps).
  replace (n * e / (n * h)) with (e / h) by (field; destruct Hn as [-> | ->]; lra).
  apply Rplus_le_compat_r, Rplus_le_compat_l, Rmult_le_compat_l; [lra |].
  apply Rmult_le_compat_l; [exact Heta |]. apply Rinv_le_contravar; [exact Hh |]. destruct Hn as [-> | ->]; lra.
Qed.

(** C30: In arithmetic whose operations are exact up to a relative error and an
    underflow, the forward, backward and central differences of a function that is
    computed up to [eps], and whose derivative changes by [M] per unit at most, miss
    the derivative by no more than the sum of a part that shrinks with the step and
    parts that grow as it shrinks ([difference_error]).  The central difference
    asks that doubling the step is exact, as it is in binary arithmetic. *)
Theorem finite_diff_error eDiffType :
  (eDiffType = Central -> rnd (2 * h) = 2 * h) ->
  Rabs (finite_diff (S := rounded_scalar) eDiffType x h F - f' x) <= difference_error.
Proof using Hf Hf' HF Hh Hu Heta Hrnd.
  intros Hdouble. destruct (rounded_point h) as [Hs Hr]; [rewrite Rabs_right; lra |].
  destruct (rounded_point (- h)) as [Hs' Hr']; [rewrite Rabs_Ropp, Rabs_right; lra |]. change (x + - h) with (x - h) in *.
  assert (Hx : Rabs (x - x) <= reach).
  { rewrite Rminus_diag, Rabs_R0. unfold reach. pose proof slip_nonneg. lra. }
  destruct eDiffType; cbn [finite_diff calcForwardFiniteDiff calcBackwardFiniteDiff calcCentralFiniteDiff
    s_add s_sub s_div s_mul s_two rounded_scalar].
  - apply (steps_error _ _ 1 h); [auto | ring | exact Hr | exact Hx | | rewrite Rmult_1_l; exact Hr].
    replace (rnd (x + h) - x - h) with (rnd (x + h) - (x + h)) by ring. now rewrite Rmult_1_l.
  - apply (steps_error _ _ 1 h); [auto | ring | exact Hx | exact Hr' | |].
    + replace (x - rnd (x - h) - h) with (- (rnd (x - h) - (x - h))) by ring. now rewrite Rabs_Ropp, Rmult_1_l.
    + now rewrite Rmult_1_l, Rabs_minus_sym.
  - rewrite (Hdouble eq_refl). apply (steps_error _ _ 2 (2 * h)); [auto | reflexivity | exact Hr | exact Hr' | |].
    + replace (rnd (x + h) - rnd (x - h) - 2 * h) with (rnd (x + h) - (x + h) + - (rnd (x - h) - (x - h))) by ring.
      etransitivity; [apply Rabs_triang |]. rewrite Rabs_Ropp. lra.
    + replace (rnd (x + h) - rnd (x - h)) with (rnd (x + h) - x + - (rnd (x - h) - x)) by ring.
      etransitivity; [apply Rabs_triang |]. rewrite Rabs_Ropp. lra.
Qed.
End Rounded.

(** ** Binary64

    A number of binade [e] is rounded to a multiple of [2 ^ (e - 52)], or of the
    least positive double when that is more; ties go up, and no number is too large. *)

Definition bpow (e : Z) : R := powerRZ 2 e.
Definition binade (x : R) : Z := Int_part (ln (Rabs x) / ln 2).
Definition last_place (x : R) : Z := Z.max (-1074) (binade x - 52).

Definition round64 (x : R) : R :=
  if Req_dec_T x 0 then 0 else IZR (Int_part (x / bpow (last_place x) + 1 / 2)) * bpow (last_place x).

Definition unit64 : R := bpow (-53).
Definition eta64 : R := bpow (-1075).

Lemma bpow_pos e : 0 < bpow e.
Proof. apply powerRZ_lt. lra. Qed.

Lemma bpow_half e : bpow (e - 1) = bpow e / 2.
Proof.
  unfold bpow. change (e - 1)%Z with (e + -1)%Z. rewrite powerRZ_add by lra. simpl. field.
Qed.

Lemma bpow_binade x : x <> 0 -> bpow (binade x) <= Rabs x.
Proof.
  intros Hx. assert (Hpos : 0 < Rabs x) by now apply Rabs_pos_lt.
  assert (Hln : 0 < ln 2) by (rewrite <- ln_1; apply ln_increasing; lra).
  unfold bpow. rewrite powerRZ_Rpower by lra. unfold Rpower. rewrite <- (exp_ln (Rabs x) Hpos).
  destruct (base_Int_part (ln (Rabs x) / ln 2)) as [Hle _]. fold (binade x) in Hle.
  assert (IZR (binade x) * ln 2 <= ln (Rabs x)) as [Hlt | ->].
  { apply (Rmult_le_reg_r (/ ln 2)); [now apply Rinv_0_lt_compat |]. rewrite Rmult_assoc, Rinv_r, Rmult_1_r by lra. exact Hle. }
  - left. now apply exp_increasing.
  - right. reflexivity.
Qed.

Lemma Int_part_nearest y : Rabs (IZR (Int_part (y + 1 / 2)) - y) <= 1 / 2.
Proof. destruct (base_Int_part (y + 1 / 2)) as [Hle Hgt]. apply Rabs_le. lra. Qed.

(** [round64] is a rounding in the sense above. *)
Lemma round64_error x : Rabs (round64 x - x) <= unit64 * Rabs x + eta64.
Proof.
  unfold round64. pose proof (bpow_pos (-53)) as Hu. pose proof (bpow_pos (-1075)) as He. pose proof (Rabs_pos x) as Hx.
  destruct (Req_dec_T x 0) as [-> | Hne]; [rewrite Rminus_diag, Rabs_R0; unfold unit64, eta64; lra |].
  set (e := last_place x). pose proof (bpow_pos e) as Hbe.
  replace (IZR (Int_part (x / bpow e + 1 / 2)) * bpow e - x) with
    ((IZR (Int_part (x / bpow e + 1 / 2)) - x / bpow e) * bpow e) by (field; lra).
  rewrite Rabs_mult, (Rabs_right (bpow e)) by lra. pose proof (Int_part_nearest (x / bpow e)) as Hnear.
  assert (Hhalf : Rabs (IZR (Int_part (x / bpow e + 1 / 2)) - x / bpow e) * bpow e <= bpow (e - 1)).
  { rewrite bpow_half. nra. }
  etransitivity; [exact Hhalf |]. unfold e, last_place. destruct (Z.max_spec (-1074) (binade x - 52)) as [[_ ->] | [_ ->]].
  - assert (bpow (binade x - 52 - 1) = unit64 * bpow (binade x)) as ->.
    { unfold unit64, bpow. rewrite <- powerRZ_add by lra. f_equal. lia. }
    pose proof (bpow_binade x Hne). unfold unit64, eta64 in *. nra.
  - change (-1074 - 1)%Z with (-1075)%Z. unfold unit64, eta64 in *. nra.
Qed.

(** *** The square at 1, with the step of math/main.cc *)

Definition square64 (y : R) : R := s_mul (Scalar := rounded_scalar round64) y y.
Definition square_eps : R := 4 * unit64 + eta64.
Abbreviation square_bound := (difference_error unit64 eta64 (fun y => 2 * y) 1 (1 / 1000) 2 square_eps).

Lemma unit64_small : 0 < unit64 <= 1 / 10 ^ 15.
Proof. unfold unit64, bpow. simpl. lra. Qed.

Lemma eta64_small : 0 < eta64 <= 1 / 10 ^ 15.
Proof.
  split; [apply bpow_pos |]. etransitivity; [| apply unit64_small]. unfold eta64, unit64, bpow.
  change (-1075)%Z with (-53 + -1022)%Z. rewrite powerRZ_add by lra. rewrite <- (Rmult_1_r (powerRZ 2 (-53))) at 2.
  apply Rmult_le_compat_l; [left; apply (bpow_pos (-53)) |]. change (-1022)%Z with (- Z.of_nat 1022)%Z.
  rewrite powerRZ_neg', <- pow_powerRZ, <- Rinv_1.
  apply Rinv_le_contravar; [lra |]. apply pow_R1_Rle. lra.
Qed.

Lemma square_reach : 0 <= reach unit64 eta64 1 (1 / 1000) <= 1001 / 1000000.
Proof.
  pose proof unit64_small. pose proof eta64_small. unfold reach, slip. rewrite Rabs_R1. simpl in *. nra.
Qed.

Lemma square64_error y : Rabs (y - 1) <= reach unit64 eta64 1 (1 / 1000) -> Rabs (square64 y - y * y) <= square_eps.
Proof.
  intros Hy. pose proof square_reach as Hr.
  assert (- (1001 / 1000000) <= y - 1 <= 1001 / 1000000) as Hy' by (revert Hy; unfold Rabs; destruct (Rcase_abs _); lra).
  pose proof unit64_small as Hu.
  unfold square64. cbn [s_mul rounded_scalar]. etransitivity; [apply round64_error |]. unfold square_eps.
  apply Rplus_le_compat_r. rewrite Rmult_comm. apply Rmult_le_compat_r; [lra |]. rewrite Rabs_right by nra. nra.
Qed.

Lemma finite_diff_error_witness :
  Rabs (finite_diff (S := rounded_scalar round64) Forward 1 (1 / 1000) square64 - 2 * 1) <= square_bound /\
  square_bound <= 3 / 1000.
Proof.
  pose proof unit64_small as Hu. pose proof eta64_small as He. split.
  - apply (finite_diff_error round64 unit64 eta64 (Rlt_le _ _ (proj1 Hu)) (Rlt_le _ _ (proj1 He)) round64_error
      (fun y => y * y) (fun y => 2 * y)); [lra | | | exact square64_error | discriminate].
    + intros y _. replace (2 * y) with (1 * y + y * 1) by ring. apply (derivable_pt_lim_mult id id); apply derivable_pt_lim_id.
    + intros y _. right. rewrite <- (Rabs_right 2) at 3 by lra. rewrite <- Rabs_mult. f_equal. ring.
  - pose proof square_reach as Hr. unfold difference_error, square_eps, slip.
    replace (Rabs (2 * 1)) with 2 by (rewrite Rabs_right; lra). rewrite Rabs_R1.
    revert Hr. generalize (reach unit64 eta64 1 (1 / 1000)). intros r Hr.
    revert Hu He. generalize unit64 eta64. intros u eta Hu He. simpl in Hu, He.
    assert (Hrr : 0 <= 2 * r * r <= 201 / 100000000) by nra.
    assert (Hw : 1 <= (1 + u) * (1 + u) <= 100001 / 100000) by nra.
    revert Hrr Hw. generalize (2 * r * r) ((1 + u) * (1 + u)). intros rr w Hrr Hw.
    set (e := (rr + 2 * (u * (1 + 1 / 1000) + eta) + 2 * (4 * u + eta)) / (1 / 1000)).
    assert (He' : 0 <= e <= 202 / 100000) by (unfold e; lra).
    assert (w * e <= 203 / 100000) by nra. assert ((1 + u) * (eta / (1 / 1000)) <= 1 / 1000000) by nra. lra.
Defined.
