(* ===== verification/Time.v ===== *)
(** * Time: time stamps and timers

    Models utils/TimeStamp.hh and utils/Timer.hh on the 64-bit ticks of
    [std::chrono].  A reading of the clock is an argument; a period is the
    number of nanoseconds of a tick.  Results in floating point are in [FloatTime]. *)

From stdpp Require Import base tactics numbers list.
From Stdlib Require Import ZArith Lia.
From S2P Require Import Prelude.
#[local] Open Scope Z_scope.
#[local] Open Scope fiah_scope.

(** ** Durations *)

Definition in_i64b (z : Z) : bool := (- 2 ^ 63 <=? z) && (z <? 2 ^ 63).
Definition chk_i64 (z : Z) : outcome Z := if in_i64b z then Ret z else Undef.

Lemma chk_i64_ok z : in_i64 z → chk_i64 z = Ret z.
Proof.
  unfold in_i64, chk_i64, in_i64b. intros Hz.
  rewrite (proj2 (Z.leb_le _ _)), (proj2 (Z.ltb_lt _ _)) by lia. done.
Qed.

Lemma chk_i64_returns z y : chk_i64 z = Ret y → y = z ∧ in_i64 z.
Proof. unfold chk_i64, in_i64b, in_i64. case_match; [| done]. intros [= <-]. zify_bool. lia. Qed.

(** [std::chrono::duration_cast] between periods of [from] and [to_] nanoseconds:
    the ratio in lowest terms, a multiplication that may overflow when it has a
    numerator, and a division that truncates when it has a denominator. *)
Definition duration_cast (from to_ count : Z) : outcome Z :=
  let g := Z.gcd from to_ in
  let num := from / g in
  let den := to_ / g in
  let! scaled := (if num =? 1 then Ret count else chk_i64 (count * num)) in
  Ret (if den =? 1 then scaled else Z.quot scaled den).

Inductive Resolution : Type := Seconds | Milli | Micro | Nano.

Definition period (r : Resolution) : Z :=
  match r with Seconds => 10 ^ 9 | Milli => 10 ^ 6 | Micro => 10 ^ 3 | Nano => 1 end.

(** ** TimeStamp *)

Section TimeStamp.
Context (R : Resolution) (clock_period : Z).

Record TimeStamp : Type := MkTimeStamp { m_ticks : Z }.

(** [now] is the time the clock answers since its epoch, in its own ticks. *)
Definition update_now (t : TimeStamp) (now : Z) : outcome TimeStamp :=
  let! ticks := duration_cast clock_period (period R) now in Ret (MkTimeStamp ticks).

(** The constructor updates a stamp whose ticks were not initialised. *)
Definition construct_now (now : Z) : outcome TimeStamp := update_now (MkTimeStamp 0) now.
Definition construct_ticks (ticks : Z) : TimeStamp := MkTimeStamp ticks.
Definition get_ticks (t : TimeStamp) : Z := m_ticks t.

(** [dur] ticks of [other_period] nanoseconds. *)
Definition increment (t : TimeStamp) (other_period dur : Z) : outcome TimeStamp :=
  let! d := duration_cast other_period (period R) dur in
  let! ticks := chk_i64 (m_ticks t + d) in
  Ret (MkTimeStamp ticks).

Definition compare (a b : TimeStamp) : comparison := m_ticks a ?= m_ticks b.
End TimeStamp.

(** ** Timer: the clock ticks in nanoseconds *)

Record Timer : Type := MkTimer { m_startTimePoint : Z }.

Definition timer_construct (now : Z) : Timer := MkTimer now.
Definition startTime (t : Timer) : Z := m_startTimePoint t.
Definition timer_reset (t : Timer) (now : Z) : Timer := MkTimer now.
Definition elapsed (t : Timer) (now : Z) : outcome Z := chk_i64 (now - m_startTimePoint t).
Definition elapsedAs (to_ : Z) (t : Timer) (now : Z) : outcome Z :=
  let! d := elapsed t now in duration_cast 1 to_ d.
Definition elapsedNs : Timer → Z → outcome Z := elapsedAs 1.
Definition elapsedUs : Timer → Z → outcome Z := elapsedAs (10 ^ 3).
Definition elapsedMs : Timer → Z → outcome Z := elapsedAs (10 ^ 6).

(** ** What a cast keeps *)

(** To a coarser period: never undefined, truncated towards zero. *)
Lemma cast_coarser p k n : 0 < p → 0 < k → duration_cast p (p * k) n = Ret (Z.quot n k).
Proof.
  intros Hp Hk. unfold duration_cast. rewrite Z.gcd_mul_diag_l by lia.
  rewrite Z.div_same, (Z.mul_comm p k), Z.div_mul by lia. simpl.
  destruct (Z.eqb_spec k 1) as [-> |]; [| done]. by rewrite Z.quot_1_r.
Qed.

(** To a finer period: exact, undefined when it overflows. *)
Lemma cast_finer p k n : 0 < p → 1 < k → duration_cast (p * k) p n = chk_i64 (n * k).
Proof.
  intros Hp Hk. unfold duration_cast. rewrite Z.gcd_comm, Z.gcd_mul_diag_l by lia.
  rewrite Z.div_same, (Z.mul_comm p k), Z.div_mul by lia.
  rewrite (proj2 (Z.eqb_neq k 1)) by lia. by destruct (chk_i64 _).
Qed.

Lemma quot_bounds n k : 0 ≤ n → 0 < k → Z.quot n k * k ≤ n < (Z.quot n k + 1) * k ∧ 0 ≤ Z.quot n k ≤ n.
Proof.
  intros Hn Hk. rewrite Z.quot_div_nonneg by lia. pose proof (Z.div_mod n k).
  pose proof (Z.mod_pos_bound n k Hk). pose proof (Z.div_pos n k Hn Hk). split; [nia |]. split; [done |].
  apply Z.div_le_upper_bound; nia.
Qed.

(** On a clock that counts nanoseconds and has not gone back, a timer never
    overflows; its readings in nano-, micro- and milliseconds are the time
    since it was started or reset, each truncated by less than one unit, and a
    later reading is never smaller. *)
Theorem timer_readings start now later :
  0 ≤ start ≤ now → now ≤ later → later < 2 ^ 63 →
  let t := timer_reset (timer_construct 0) start in
  ∃ ns us ms ms', elapsedNs t now = Ret ns ∧ elapsedUs t now = Ret us ∧ elapsedMs t now = Ret ms ∧
    elapsedMs t later = Ret ms' ∧
    ns = now - start ∧ us * 1000 ≤ ns < (us + 1) * 1000 ∧ ms * 1000 ≤ us < (ms + 1) * 1000 ∧ 0 ≤ ms ≤ ms'.
Proof.
  intros Hs Hn Hl t.
  assert (Hread : ∀ k x, 0 < k → start ≤ x → x < 2 ^ 63 → elapsedAs k t x = Ret (Z.quot (x - start) k)).
  { intros k x Hk Hx Hmax. unfold elapsedAs, elapsed. simpl. rewrite chk_i64_ok by (unfold in_i64; lia).
    simpl. rewrite <-(Z.mul_1_l k) at 1. by apply cast_coarser. }
  exists (now - start), (Z.quot (now - start) 1000), (Z.quot (now - start) (10 ^ 6)), (Z.quot (later - start) (10 ^ 6)).
  unfold elapsedNs, elapsedUs, elapsedMs. rewrite !Hread, Z.quot_1_r by lia.
  replace (10 ^ 6) with (1000 * 1000) by done. rewrite <-!Z.quot_quot by lia.
  pose proof (quot_bounds (now - start) 1000). pose proof (quot_bounds (Z.quot (now - start) 1000) 1000).
  pose proof (quot_bounds (later - start) 1000). split_and!; try done; try lia.
  apply Z.quot_le_mono; [lia |]. apply Z.quot_le_mono; lia.
Qed.

(** A time stamp is the reading of its clock, truncated to its resolution, and
    time stamps of later readings are not earlier. *)
Theorem timestamp_readings R now later :
  0 ≤ now ≤ later → later < 2 ^ 63 →
  ∃ t t', construct_now R 1 now = Ret t ∧ construct_now R 1 later = Ret t' ∧
    get_ticks t * period R ≤ now < (get_ticks t + 1) * period R ∧ compare t t' ≠ Gt.
Proof.
  intros Hn Hl. assert (Hp : 0 < period R) by (by destruct R).
  assert (Hread : ∀ x, construct_now R 1 x = Ret (MkTimeStamp (Z.quot x (period R)))).
  { intros x. unfold construct_now, update_now. rewrite <-(Z.mul_1_l (period R)) at 1. by rewrite cast_coarser. }
  do 2 eexists. rewrite !Hread. split_and!; try done; simpl; try (apply quot_bounds; lia).
  unfold compare. simpl. apply (Z.quot_le_mono now later); lia.
Qed.

(** Adding a duration of at least the resolution of the stamp is exact up to a
    truncation; a shorter one is added as nothing. *)
Theorem increment_truncates t d :
  0 ≤ d → 0 ≤ m_ticks t → m_ticks t + d < 2 ^ 63 →
  increment Milli t (10 ^ 6) d = Ret (MkTimeStamp (m_ticks t + d)) ∧
  increment Milli t 1000 d = Ret (MkTimeStamp (m_ticks t + d / 1000)) ∧
  increment Milli t 1 d = Ret (MkTimeStamp (m_ticks t + d / 10 ^ 6)).
Proof.
  intros Hd Ht Hmax. unfold increment. simpl period.
  replace (duration_cast (10 ^ 6) (10 ^ 6) d) with (duration_cast (10 ^ 6) (10 ^ 6 * 1) d) by done.
  replace (duration_cast 1000 (10 ^ 6) d) with (duration_cast 1000 (1000 * 1000) d) by done.
  replace (duration_cast 1 (10 ^ 6) d) with (duration_cast 1 (1 * 10 ^ 6) d) by done.
  rewrite !cast_coarser by lia. simpl. rewrite Z.quot_1_r, !Z.quot_div_nonneg by lia.
  pose proof (quot_bounds d 1000). pose proof (quot_bounds d (10 ^ 6)).
  rewrite !Z.quot_div_nonneg in * by lia. rewrite !chk_i64_ok by (unfold in_i64; lia). done.
Qed.

Lemma timer_readings_witness :
  0 ≤ 500 ≤ 2500000 ∧ ∃ ns us ms ms', elapsedNs (MkTimer 500) 2500000 = Ret ns ∧
    elapsedUs (MkTimer 500) 2500000 = Ret us ∧ elapsedMs (MkTimer 500) 2500000 = Ret ms ∧
    elapsedMs (MkTimer 500) 9000000 = Ret ms' ∧
    ns = 2500000 - 500 ∧ us * 1000 ≤ ns < (us + 1) * 1000 ∧ ms * 1000 ≤ us < (ms + 1) * 1000 ∧ 0 ≤ ms ≤ ms'.
Proof. split; [lia |]. apply (timer_readings 500 2500000 9000000); lia. Defined.
