(* ===== verification/FloatTime.v ===== *)
(** * FloatTime: readings of clocks in floating point

    Models utils/TSCTimer.hh, [Timer::elapsedSecs] of utils/Timer.hh and
    [TimeStamp::to_micro] of utils/TimeStamp.hh, over the class of scalars of
    [Numeric]: [double] or [float], and the real numbers for what they mean.
    The conversion of an integer is a parameter of its own, [FromInt]. *)

From stdpp Require Import base tactics numbers.
From Stdlib Require Import ZArith Lia Reals Lra PrimFloat Uint63.
From S2P Require Import Prelude Time Numeric.
#[local] Open Scope Z_scope.
#[local] Open Scope fiah_scope.

(** [static_cast] from an integer type *)
Class FromInt (T : Type) : Type := of_int : Z → T.

Section FloatTime.
Context {T : Type} {S : Scalar T} {F : FromInt T}.

(** ** TSCTimer *)

Record TSCTimer : Type := MkTSCTimer { m_dbCyclesToMicros : T }.

Definition tsc_construct (dbTSCHz : T) : TSCTimer := MkTSCTimer (s_div (of_int 1000000) dbTSCHz).

(** The cycle counter is an argument. *)
Definition tsc_now (rdtsc : Z) : Z := u64 rdtsc.

Definition cyclesToMicros (t : TSCTimer) (cycles : Z) : T := s_mul (of_int cycles) (m_dbCyclesToMicros t).

(** ** Timer and TimeStamp *)

(** The conversion to [duration<double>] from nanoseconds: one division. *)
Definition elapsedSecs (t : Timer) (now : Z) : outcome T :=
  let! d := elapsed t now in Ret (s_div (of_int d) (of_int (10 ^ 9))).

(** [ratio_divide] of the period and a microsecond, in lowest terms. *)
Definition ratio_num (R : Resolution) : Z := period R / Z.gcd (period R) (10 ^ 3).
Definition ratio_den (R : Resolution) : Z := 10 ^ 3 / Z.gcd (period R) (10 ^ 3).

Definition to_micro (R : Resolution) (v : Z) : T :=
  s_mul (of_int v) (s_div (of_int (ratio_num R)) (of_int (ratio_den R))).
End FloatTime.
Arguments TSCTimer T : clear implicits.

(** ** Exact arithmetic *)

#[export] Instance R_from_int : FromInt R := IZR.

#[local] Open Scope R_scope.

(** In exact arithmetic the floating-point readings agree with the integer ones:
    [elapsedUs] is [elapsedSecs] in microseconds, cut to an integer, and
    [to_micro] of a stamp, in nanoseconds, is its ticks times its period. *)
Theorem float_readings (start now : Z) (r : Resolution) (ticks : Z) :
  (0 <= start <= now)%Z → (now < 2 ^ 63)%Z →
  ∃ s us, elapsedSecs (MkTimer start) now = Ret s ∧ elapsedUs (MkTimer start) now = Ret us ∧
    IZR us <= s * 1000000 < IZR us + 1 ∧
    to_micro r ticks * 1000 = IZR (ticks * period r).
Proof.
  intros Hs Hn. unfold elapsedSecs, elapsedUs, elapsedAs, elapsed. simpl m_startTimePoint.
  rewrite chk_i64_ok by (unfold in_i64; lia). cbn [obind].
  replace (10 ^ 3)%Z with (1 * 1000)%Z by done. rewrite cast_coarser by lia.
  do 2 eexists. split; [done |]. split; [done |]. split.
  - pose proof (quot_bounds (now - start) 1000 ltac:(lia) ltac:(lia)) as [[H1 H2] _].
    apply IZR_le in H1. apply IZR_lt in H2. rewrite mult_IZR in H1, H2. rewrite plus_IZR in H2.
    unfold s_div, of_int, R_scalar, R_from_int. change (IZR (10 ^ 9)) with 1000000000. lra.
  - unfold to_micro, s_mul, s_div, of_int, R_scalar, R_from_int. rewrite mult_IZR.
    destruct r;
      repeat match goal with
      | |- context [ratio_num ?r] => let v := eval vm_compute in (ratio_num r) in change (ratio_num r) with v
      | |- context [ratio_den ?r] => let v := eval vm_compute in (ratio_den r) in change (ratio_den r) with v
      | |- context [period ?r] => let v := eval vm_compute in (period r) in change (period r) with v
      end; field.
Qed.

(** A second's worth of cycles is a million microseconds, and cycles add up. *)
Theorem tsc_readings (hz : Z) a b :
  (0 < hz)%Z →
  let t := tsc_construct (IZR hz) in
  cyclesToMicros t hz = 1000000 ∧
  cyclesToMicros t (a + b) = cyclesToMicros t a + cyclesToMicros t b.
Proof.
  intros Hz t. unfold t, tsc_construct, cyclesToMicros, s_mul, s_div, of_int, R_scalar, R_from_int. simpl.
  rewrite plus_IZR. assert (IZR hz <> 0) by (apply not_0_IZR; lia). split; [field; done | lra].
Qed.

Lemma float_readings_witness :
  ∃ s us, elapsedSecs (MkTimer 500) 2500000 = Ret s ∧ elapsedUs (MkTimer 500) 2500000 = Ret us ∧
    IZR us <= s * 1000000 < IZR us + 1 ∧ to_micro Milli 7 * 1000 = IZR (7 * period Milli).
Proof. apply (float_readings 500 2500000 Milli 7); lia. Defined.

Lemma tsc_readings_witness :
  let t := tsc_construct (IZR 3000000000) in
  cyclesToMicros t 3000000000 = 1000000 ∧
  cyclesToMicros t (5 + 6) = cyclesToMicros t 5 + cyclesToMicros t 6.
Proof. apply (tsc_readings 3000000000 5 6). lia. Defined.

(** ** In binary64 *)

Module Demo.
#[local] Set Warnings "-inexact-float".
#[local] Instance float_from_int : FromInt float := λ z, PrimFloat.of_uint63 (Uint63.of_Z z).
#[local] Existing Instance Numeric.Demo.float_main.

(** 4500 cycles at 3 GHz; 2.5 ms on a timer. *)
Example float_cycles : cyclesToMicros (tsc_construct (of_int 3000000000)) 4500 = 1.5%float.
Proof. vm_compute. reflexivity. Qed.
Example float_elapsed : elapsedSecs (MkTimer 500) 2500500 = Ret 0.0025%float.
Proof. vm_compute. reflexivity. Qed.
End Demo.
