(* ===== verification/Programs.v ===== *)
(** * Programs: the programs that come with the library

    Models examples/spsc_queue_example.cc, two threads over one [SPSCQueue], and the
    main program of handle/Any.cc.  (The one of math/main.cc is in [Numeric].)
    These are clients: they call the operations of the components, whose theorems
    say what the programs do. *)

From stdpp Require Import base tactics numbers list option strings.
From Stdlib Require Import ZArith Lia Ascii.
From S2P Require Import Prelude Text Storage Heap Any SPSCQueue.
#[local] Open Scope Z_scope.
#[local] Open Scope fiah_scope.

(** ** examples/spsc_queue_example.cc

    The producer spins on [emplace] for 0, 1, ..., [items - 1] in turn; the consumer
    spins on [pop] until it has counted [items] successes, and prints the count.  A
    step of a thread begins a call, makes one step of it, or does what follows the
    loop. *)

Section Example.
Context {ElementType : Type} (static_cast : nat → ElementType).
(** The capacity is [2 ^ k]. *)
Context (k : Z) (items : nat).

Record program : Type := Program {
  the_queue : queue ElementType;
  i : nat;                       (* of the producer *)
  cnt : nat;                     (* of the consumer *)
  cout : option str              (* what the consumer has printed *)
}.

Definition start : program := Program (init k) 0 0 None.

Inductive thread : Type := Prod | Cons.

Definition prod_step (s : program) : outcome (program * option (event ElementType)) :=
  if (i s <? items)%nat then
    let act := match producer (the_queue s) with P_idle => CallPush (static_cast (i s)) | _ => RunProducer end in
    let! (q, e) := exec k (the_queue s) act in
    Ret (Program q (match e with Some (Ev_push _) => S (i s) | _ => i s end) (cnt s) (cout s), e)
  else Ret (s, None).

Definition cons_step (s : program) : outcome (program * option (event ElementType)) :=
  if (cnt s <? items)%nat then
    let act := match consumer (the_queue s) with C_idle => CallPop | _ => RunConsumer end in
    let! (q, e) := exec k (the_queue s) act in
    Ret (Program q (i s) (match e with Some (Ev_pop _) => S (cnt s) | _ => cnt s end) (cout s), e)
  else
    Ret (Program (the_queue s) (i s) (cnt s)
           (Some (default (lit "Got: " ++ decimal 20 (Z.of_nat (cnt s)) ++ lit " items" ++ [NEWLINE]) (cout s))), None).

Definition run_step (s : program) (t : thread) : outcome (program * option (event ElementType)) :=
  match t with Prod => prod_step s | Cons => cons_step s end.

(** Both threads have returned: [join] does, in the main thread. *)
Definition joined (s : program) : bool :=
  (i s =? items)%nat && (cnt s =? items)%nat && match cout s with Some _ => true | None => false end.

(** ** What the program does *)

Context (Hk : 0 ≤ k < 64).

(** The value a call of [emplace] is about to add. *)
Definition pending (q : queue ElementType) : option ElementType :=
  match producer q with
  | P_idle => None
  | P_load_head x | P_load_tail x _ | P_construct x _ | P_publish x _ => Some x
  end.

Record program_inv (es : list (event ElementType)) (s : program) (vs : list ElementType) : Prop := ProgramInv {
  pi_queue : represents k (the_queue s) vs;
  pi_fifo : pushed es = popped es ++ vs;
  pi_pushed : pushed es = static_cast <$> seq 0 (i s);
  pi_popped : length (popped es) = cnt s;
  pi_pending : ∀ x, pending (the_queue s) = Some x → x = static_cast (i s);
  pi_bound : (i s ≤ items)%nat;
  pi_cout : ∀ l, cout s = Some l →
    cnt s = items ∧ l = lit "Got: " ++ decimal 20 (Z.of_nat items) ++ lit " items" ++ [NEWLINE]
}.

Lemma program_inv_start : program_inv [] start [].
Proof using Hk. split; try done; [by apply represents_init | simpl; lia]. Qed.

(** Counts and contents agree. *)
Lemma program_counts es s vs : program_inv es s vs → i s = (cnt s + length vs)%nat.
Proof using.
  intros Hi. pose proof (pi_fifo _ _ _ Hi) as Hf. rewrite (pi_pushed _ _ _ Hi) in Hf.
  apply (f_equal length) in Hf. rewrite length_fmap, length_seq, length_app, (pi_popped _ _ _ Hi) in Hf. done.
Qed.

(** What each thread can be answered. *)
Lemma producer_event (q : queue ElementType) a q' e :
  by_producer a = true → exec k q a = Ret (q', Some e) → ∃ x, e = Ev_push x ∨ e = Ev_push_full x.
Proof using. destruct a; try done; intros _; simpl; unfold emplace_step, obind; intros H; split_match_in H; eauto. Qed.

Lemma consumer_event (q : queue ElementType) a q' e :
  by_producer a = false → exec k q a = Ret (q', Some e) → e = Ev_pop_empty ∨ ∃ x, e = Ev_pop x.
Proof using. destruct a; try done; intros _; simpl; unfold pop_step, obind; intros H; split_match_in H; eauto. Qed.

(** A push adds the pending value. *)
Lemma pending_push (q : queue ElementType) q' e :
  exec k q RunProducer = Ret (q', e) →
  match e with
  | Some (Ev_push x) => pending q = Some x ∧ pending q' = None
  | _ => pending q' = pending q ∨ pending q' = None
  end.
Proof using.
  simpl. unfold emplace_step, pending, obind.
  destruct (producer q) eqn:Hp; intros H; split_match_in H; simplify_eq/=; rewrite ?Hp; auto.
Qed.

Lemma program_pushed_app (es es' : list (event ElementType)) : pushed (es ++ es') = pushed es ++ pushed es'.
Proof using. apply omap_app. Qed.

Lemma program_popped_app (es es' : list (event ElementType)) : popped (es ++ es') = popped es ++ popped es'.
Proof using. apply omap_app. Qed.

Lemma prod_step_inv es s vs :
  program_inv es s vs →
  ∃ s' e vs', prod_step s = Ret (s', e) ∧ program_inv (es ++ option_list e) s' vs' ∧
    (i s ≤ i s')%nat ∧ cnt s' = cnt s.
Proof using Hk.
  intros Hi. pose proof Hi as [Hq Hf Hpush Hpop Hpend Hb Hc]. unfold prod_step.
  destruct (Nat.ltb_spec (i s) items) as [Hlt | Hge].
  2: { exists s, None, vs. cbn [option_list]. rewrite app_nil_r. by split_and!. }
  set (act := match producer (the_queue s) with P_idle => CallPush (static_cast (i s)) | _ => RunProducer end).
  assert (by_producer act = true) as Hact by (unfold act; by destruct (producer (the_queue s))).
  destruct (exec_sound k Hk (the_queue s) vs act Hq) as (q' & e & He & Hspec). rewrite He. cbn [obind].
  assert (match e with
          | Some (Ev_push x) => x = static_cast (i s) ∧ pending q' = None
          | _ => ∀ x, pending q' = Some x → x = static_cast (i s)
          end) as Hx.
  { unfold act in He. destruct (producer (the_queue s)) eqn:Hp; cycle 1.
    1-4: apply pending_push in He; destruct e as [[] |]; try (destruct He as [He | He]; rewrite He; auto; done).
    1-4: destruct He as [He ->]; auto.
    simpl in He. rewrite Hp in He. injection He as <- <-. by intros x [= <-]. }
  clearbody act. destruct e as [e |]; cbn [option_list].
  2: { eexists _, _, vs. split; [reflexivity |]. rewrite app_nil_r. split; [by split | cbn [i cnt]; lia]. }
  destruct (producer_event _ _ _ _ Hact He) as (x & [-> | ->]); destruct Hspec as (vs' & Hspec & Hq');
    eexists _, _, vs'; (split; [reflexivity |]); inversion Hspec as [? ? Hroom | | |]; subst vs';
    (split; [| cbn [i cnt]; lia]); split; rewrite ?program_pushed_app, ?program_popped_app;
    cbn [i cnt cout the_queue pushed popped omap list_omap option_list];
    rewrite ?app_nil_r.
  - exact Hq'.
  - rewrite Hf. symmetry. apply (assoc_L (++)).
  - destruct Hx as [-> _]. by rewrite Hpush, seq_S, fmap_app.
  - exact Hpop.
  - intros y Hy. destruct Hx as [_ Hx]. congruence.
  - lia.
  - exact Hc.
  - exact Hq'.
  - exact Hf.
  - exact Hpush.
  - exact Hpop.
  - exact Hx.
  - exact Hb.
  - exact Hc.
Qed.

Lemma cons_step_inv es s vs :
  program_inv es s vs →
  ∃ s' e vs', cons_step s = Ret (s', e) ∧ program_inv (es ++ option_list e) s' vs' ∧
    i s' = i s ∧ (cnt s ≤ cnt s')%nat.
Proof using Hk.
  intros Hi. pose proof (program_counts _ _ _ Hi) as Hcount. pose proof Hi as [Hq Hf Hpush Hpop Hpend Hb Hc].
  unfold cons_step. destruct (Nat.ltb_spec (cnt s) items) as [Hlt | Hge].
  2: { do 2 eexists. exists vs. split; [reflexivity |]. cbn [option_list]. rewrite app_nil_r.
       split; [| cbn [i cnt]; lia]. assert (cnt s = items) as Hcnt by lia.
       split; try assumption. cbn [cout cnt]. intros l Hl. apply (inj Some) in Hl. rewrite <-Hl. split; [exact Hcnt |].
       destruct (cout s) as [l' |] eqn:Hl'; [exact (proj2 (Hc l' eq_refl)) | by rewrite Hcnt]. }
  set (act := match consumer (the_queue s) with C_idle => CallPop | _ => RunConsumer end).
  assert (by_producer act = false) as Hact by (unfold act; by destruct (consumer (the_queue s))).
  destruct (exec_sound k Hk (the_queue s) vs act Hq) as (q' & e & He & Hspec). rewrite He. cbn [obind].
  assert (∀ x, pending q' = Some x → x = static_cast (i s)) as Hp.
  { unfold pending. rewrite (proj2 (consumer_keeps_producer _ _ _ _ _ Hact He)). exact Hpend. }
  assert (∀ l, cout s ≠ Some l) as Hno by (intros l Hl; destruct (Hc l Hl); lia).
  clearbody act. destruct e as [e |]; cbn [option_list].
  2: { eexists _, _, vs. split; [reflexivity |]. rewrite app_nil_r. split; [by split | cbn [i cnt]; lia]. }
  destruct (consumer_event _ _ _ _ Hact He) as [-> | [x ->]]; destruct Hspec as (vs' & Hspec & Hq');
    eexists _, _, vs'; (split; [reflexivity |]); inversion Hspec; subst;
    (split; [| cbn [i cnt]; lia]); split; rewrite ?program_pushed_app, ?program_popped_app;
    cbn [i cnt cout the_queue pushed popped omap list_omap option_list];
    rewrite ?app_nil_r.
  - exact Hq'.
  - rewrite Hf. apply app_nil_r.
  - exact Hpush.
  - exact Hpop.
  - exact Hp.
  - exact Hb.
  - exact Hc.
  - exact Hq'.
  - rewrite <-(assoc_L (++)). exact Hf.
  - exact Hpush.
  - rewrite length_app, Hpop. apply Nat.add_1_r.
  - exact Hp.
  - exact Hb.
  - intros l Hl. by destruct (Hno l).
Qed.

Lemma run_step_inv es s t vs :
  program_inv es s vs →
  ∃ s' e vs', run_step s t = Ret (s', e) ∧ program_inv (es ++ option_list e) s' vs' ∧
    (i s ≤ i s')%nat ∧ (cnt s ≤ cnt s')%nat.
Proof using Hk.
  intros Hi. destruct t.
  - destruct (prod_step_inv es s vs Hi) as (s' & e & vs' & He & Hi' & Hle & Heq).
    exists s', e, vs'. split_and!; [exact He | exact Hi' | exact Hle | by rewrite Heq].
  - destruct (cons_step_inv es s vs Hi) as (s' & e & vs' & He & Hi' & Heq & Hle).
    exists s', e, vs'. split_and!; [exact He | exact Hi' | by rewrite Heq | exact Hle].
Qed.

Lemma program_run_inv es s sched vs :
  program_inv es s vs →
  ∃ s' es' vs', run_schedule run_step s sched = Ret (s', es') ∧ program_inv (es ++ es') s' vs' ∧
    (i s ≤ i s')%nat ∧ (cnt s ≤ cnt s')%nat.
Proof using Hk.
  revert es s vs. induction sched as [| t sched IH]; intros es s vs Hi; cbn [run_schedule].
  { exists s, [], vs. rewrite app_nil_r. by split_and!. }
  destruct (run_step_inv es s t vs Hi) as (s1 & e & vs1 & -> & Hi1 & Hle1 & Hle1'). cbn [obind].
  destruct (IH _ _ _ Hi1) as (s2 & es2 & vs2 & -> & Hi2 & Hle2 & Hle2'). cbn [obind].
  eexists s2, _, vs2. split; [reflexivity |]. rewrite <-(assoc_L (++)) in Hi2.
  split; [by destruct e | lia].
Qed.

(** *** Progress

    Steps a thread takes at most before its call of [emplace] or [pop] ends with a
    success, when there is room or a value. *)
Definition emplace_left (q : queue ElementType) : nat := match producer q with P_idle => 5 | _ => producer_left q end.
Definition pop_left (q : queue ElementType) : nat := match consumer q with C_idle => 6 | _ => consumer_left q end.

Definition steps (t : thread) (sched : list thread) : nat :=
  length (List.filter (λ t', match t, t' with Prod, Prod | Cons, Cons => true | _, _ => false end) sched).

Lemma prod_makes_room es s vs :
  program_inv es s vs → (i s < items)%nat → zlen vs < kCapacity k →
  ∃ s' e, prod_step s = Ret (s', e) ∧
    ((i s < i s')%nat ∨ (e = None ∧ (emplace_left (the_queue s') < emplace_left (the_queue s))%nat)).
Proof using Hk.
  intros Hi Hlt Hroom. unfold prod_step. rewrite (proj2 (Nat.ltb_lt _ _)) by done.
  set (act := match producer (the_queue s) with P_idle => _ | _ => _ end).
  destruct (exec_sound k Hk (the_queue s) vs act (pi_queue _ _ _ Hi)) as (q' & e & He & Hspec). rewrite He. cbn [obind].
  eexists _, _. split; [reflexivity |]. cbn [i the_queue].
  assert (by_producer act = true) as Hact by (unfold act; by destruct (producer (the_queue s))).
  destruct e as [e |].
  - destruct (producer_event _ _ _ _ Hact He) as (x & [-> | ->]); [left; lia |].
    destruct Hspec as (vs' & Hspec & _). exfalso. inversion Hspec. subst vs'. lia.
  - right. split; [done |]. unfold act in He. unfold emplace_left, producer_left.
    destruct (producer (the_queue s)) eqn:Hp; simpl in He; unfold emplace_step, obind in He; rewrite Hp in He;
      split_match_in He; simplify_eq/=; lia.
Qed.

Lemma cons_makes_progress es s vs :
  program_inv es s vs → (cnt s < items)%nat → vs ≠ [] →
  ∃ s' e, cons_step s = Ret (s', e) ∧
    ((cnt s < cnt s')%nat ∨ (e = None ∧ (pop_left (the_queue s') < pop_left (the_queue s))%nat)).
Proof using Hk.
  intros Hi Hlt Hvs. unfold cons_step. rewrite (proj2 (Nat.ltb_lt _ _)) by done.
  set (act := match consumer (the_queue s) with C_idle => _ | _ => _ end).
  destruct (exec_sound k Hk (the_queue s) vs act (pi_queue _ _ _ Hi)) as (q' & e & He & Hspec). rewrite He. cbn [obind].
  eexists _, _. split; [reflexivity |]. cbn [cnt the_queue].
  assert (by_producer act = false) as Hact by (unfold act; by destruct (consumer (the_queue s))).
  destruct e as [e |].
  - destruct (consumer_event _ _ _ _ Hact He) as [-> | [x ->]]; [| left; lia].
    destruct Hspec as (vs' & Hspec & _). exfalso. inversion Hspec. congruence.
  - right. split; [done |]. unfold act in He. unfold pop_left, consumer_left.
    destruct (consumer (the_queue s)) eqn:Hp; simpl in He; unfold pop_step, obind in He; rewrite Hp in He;
      split_match_in He; simplify_eq/=; lia.
Qed.

(** A step of one thread leaves the other where it is. *)
Lemma prod_frame s s' e : prod_step s = Ret (s', e) → consumer (the_queue s') = consumer (the_queue s) ∧ cout s' = cout s.
Proof using.
  unfold prod_step. destruct (i s <? items)%nat; [| by intros [= <- _]].
  set (act := match producer (the_queue s) with P_idle => _ | _ => _ end).
  destruct (exec k (the_queue s) act) as [[q' e'] | | | |] eqn:He; try done. cbn [obind]. intros [= <- _].
  split; [| done]. eapply producer_keeps_consumer; [| exact He]. unfold act. by destruct (producer (the_queue s)).
Qed.

Lemma cons_frame s s' e : cons_step s = Ret (s', e) → producer (the_queue s') = producer (the_queue s).
Proof using.
  unfold cons_step. destruct (cnt s <? items)%nat.
  2: { intros H. apply (f_equal (λ r, match r with Ret (s', _) => producer (the_queue s') | _ => P_idle end)) in H.
       cbn in H. by rewrite H. }
  set (act := match consumer (the_queue s) with C_idle => _ | _ => _ end).
  destruct (exec k (the_queue s) act) as [[q' e'] | | | |] eqn:He; try done. cbn [obind]. intros [= <- _].
  eapply consumer_keeps_producer; [| exact He]. unfold act. by destruct (consumer (the_queue s)).
Qed.

Lemma run_cons_schedule s t sched s1 e :
  run_step s t = Ret (s1, e) →
  run_schedule run_step s (t :: sched) =
  let! (s', es) := run_schedule run_step s1 sched in Ret (s', match e with Some e => e :: es | None => es end).
Proof using. intros He. cbn [run_schedule]. by rewrite He. Qed.

Lemma same_contents es s s' vs vs' : program_inv es s vs → program_inv es s' vs' → vs' = vs.
Proof using. intros [_ H1 _ _ _ _ _] [_ H2 _ _ _ _ _]. rewrite H1 in H2. by apply app_inv_head in H2. Qed.

(** The run of a whole schedule, by its first step. *)
Lemma run_first es s t sched vs :
  program_inv es s vs →
  ∃ s1 e vs1 s' es', run_step s t = Ret (s1, e) ∧ program_inv (es ++ option_list e) s1 vs1 ∧
    (i s ≤ i s1)%nat ∧ (cnt s ≤ cnt s1)%nat ∧
    run_schedule run_step s1 sched = Ret (s', es') ∧
    run_schedule run_step s (t :: sched) = Ret (s', option_list e ++ es') ∧ (i s1 ≤ i s')%nat ∧ (cnt s1 ≤ cnt s')%nat.
Proof using Hk.
  intros Hi. destruct (run_step_inv es s t vs Hi) as (s1 & e & vs1 & He & Hi1 & Hle & Hle').
  destruct (program_run_inv _ s1 sched vs1 Hi1) as (s' & es' & vs' & Hrun & _ & Hle1 & Hle1').
  exists s1, e, vs1, s', es'. split_and!; try assumption. rewrite (run_cons_schedule _ _ _ _ _ He), Hrun. by destruct e.
Qed.

(** While a value is queued, enough steps of the consumer take one out. *)
Lemma enough_pops es s sched vs s' es' :
  program_inv es s vs → (cnt s < items)%nat → vs ≠ [] → (pop_left (the_queue s) ≤ steps Cons sched)%nat →
  run_schedule run_step s sched = Ret (s', es') → (cnt s < cnt s')%nat.
Proof using Hk.
  revert es s vs es'. induction sched as [| t sched IH]; intros es s vs es' Hi Hlt Hvs Hn.
  { exfalso. unfold steps in Hn. simpl in Hn. unfold pop_left, consumer_left in Hn. destruct (consumer (the_queue s)); lia. }
  destruct (run_first es s t sched vs Hi) as (s1 & e & vs1 & s2 & es2 & He & Hi1 & Hle & Hle' & Hrun & -> & _ & Hle2).
  intros [= -> _]. pose proof (program_counts _ _ _ Hi) as Hc. pose proof (program_counts _ _ _ Hi1) as Hc1.
  destruct t; cbn [run_step] in He.
  - destruct (prod_step_inv es s vs Hi) as (s1' & e' & _ & He' & _ & _ & Hcnt). rewrite He in He'.
    injection He' as <- <-. destruct (prod_frame s s1 e He) as [Hcons _].
    rewrite <-Hcnt. refine (IH _ s1 vs1 _ Hi1 _ _ _ Hrun); [lia | | ].
    + intros ->. destruct vs; [done | simpl in *; lia].
    + unfold pop_left, consumer_left in *. rewrite Hcons. exact Hn.
  - destruct (cons_makes_progress es s vs Hi Hlt Hvs) as (s1' & e' & He' & Hprog). rewrite He in He'.
    injection He' as <- <-. destruct Hprog as [Hcnt | [-> Hless]]; [lia |].
    cbn [option_list] in Hi1. rewrite app_nil_r in Hi1. rewrite (same_contents _ _ _ _ _ Hi Hi1) in Hi1.
    destruct (decide (cnt s1 < items)%nat) as [Hlt1 | Hge]; [| lia].
    enough (cnt s1 < cnt s')%nat by lia. refine (IH _ s1 vs _ Hi1 Hlt1 Hvs _ Hrun). unfold steps in *. simpl in Hn. lia.
Qed.

(** While there is room, enough steps of the producer put a value in. *)
Lemma enough_pushes es s sched vs s' es' :
  program_inv es s vs → (i s < items)%nat → zlen vs < kCapacity k → (emplace_left (the_queue s) ≤ steps Prod sched)%nat →
  run_schedule run_step s sched = Ret (s', es') → (i s < i s')%nat.
Proof using Hk.
  revert es s vs es'. induction sched as [| t sched IH]; intros es s vs es' Hi Hlt Hroom Hn.
  { exfalso. unfold steps in Hn. simpl in Hn. unfold emplace_left, producer_left in Hn. destruct (producer (the_queue s)); lia. }
  destruct (run_first es s t sched vs Hi) as (s1 & e & vs1 & s2 & es2 & He & Hi1 & Hle & Hle' & Hrun & -> & Hle2 & _).
  intros [= -> _]. pose proof (program_counts _ _ _ Hi) as Hc. pose proof (program_counts _ _ _ Hi1) as Hc1.
  destruct t; cbn [run_step] in He.
  - destruct (prod_makes_room es s vs Hi Hlt Hroom) as (s1' & e' & He' & Hprog). rewrite He in He'.
    injection He' as <- <-. destruct Hprog as [Hcnt | [-> Hless]]; [lia |].
    cbn [option_list] in Hi1. rewrite app_nil_r in Hi1. rewrite (same_contents _ _ _ _ _ Hi Hi1) in Hi1.
    destruct (decide (i s1 < items)%nat) as [Hlt1 | Hge]; [| lia].
    enough (i s1 < i s')%nat by lia. refine (IH _ s1 vs _ Hi1 Hlt1 Hroom _ Hrun). unfold steps in *. simpl in Hn. lia.
  - destruct (cons_step_inv es s vs Hi) as (s1' & e' & _ & He' & _ & Hii & _). rewrite He in He'.
    injection He' as <- <-. pose proof (cons_frame s s1 e He) as Hprod.
    rewrite <-Hii. refine (IH _ s1 vs1 _ Hi1 _ _ _ Hrun); [lia | lia |].
    unfold emplace_left, producer_left in *. rewrite Hprod. exact Hn.
Qed.

(** *** The end of the program

    A fair turn gives each thread six steps, in any order. *)
Definition fair_turn (sched : list thread) : Prop := (6 ≤ steps Prod sched)%nat ∧ (6 ≤ steps Cons sched)%nat.

(** What is behind: successes, and the line printed. *)
Definition behind (s : program) : nat := i s + cnt s + match cout s with Some _ => 1 | None => 0 end.

Lemma steps_app t a b : steps t (a ++ b) = (steps t a + steps t b)%nat.
Proof using. unfold steps. by rewrite List.filter_app, length_app. Qed.

Lemma emplace_left_bound (q : queue ElementType) : (emplace_left q ≤ 5)%nat.
Proof using. unfold emplace_left, producer_left. destruct (producer q); lia. Qed.

Lemma pop_left_bound (q : queue ElementType) : (pop_left q ≤ 6)%nat.
Proof using. unfold pop_left, consumer_left. destruct (consumer q); lia. Qed.

Lemma cout_kept s sched s' es l : run_schedule run_step s sched = Ret (s', es) → cout s = Some l → cout s' = Some l.
Proof using.
  revert s es. induction sched as [| t sched IH]; intros s es; cbn [run_schedule]; [by intros [= <- _] |].
  destruct (run_step s t) as [[s1 e] | | | |] eqn:He; try done. cbn [obind].
  destruct (run_schedule run_step s1 sched) as [[s2 es2] | | | |] eqn:Hrun; try done. cbn [obind].
  intros [= <- _] Hl. apply (IH _ _ Hrun). destruct t; cbn [run_step] in He.
  - by rewrite (proj2 (prod_frame _ _ _ He)).
  - unfold cons_step in He. destruct (cnt s <? items)%nat.
    + destruct (exec k (the_queue s) _) as [[q' e'] | | | |]; try done. cbn [obind] in He. by injection He as <- _.
    + rewrite Hl in He. cbn [default from_option] in He.
      apply (f_equal (λ r, match r with Ret (s', _) => cout s' | _ => None end)) in He. exact (eq_sym He).
Qed.

(** The consumer prints when it has counted all the items. *)
Lemma enough_to_print es s sched vs s' es' :
  program_inv es s vs → cnt s = items → (0 < steps Cons sched)%nat →
  run_schedule run_step s sched = Ret (s', es') → is_Some (cout s').
Proof using Hk.
  revert es s vs es'. induction sched as [| t sched IH]; intros es s vs es' Hi Hcnt Hn.
  { exfalso. unfold steps in Hn. simpl in Hn. lia. }
  destruct (run_first es s t sched vs Hi) as (s1 & e & vs1 & s2 & es2 & He & Hi1 & _ & _ & Hrun & -> & _ & _).
  intros [= -> _]. destruct t; cbn [run_step] in He.
  - refine (IH _ s1 vs1 _ Hi1 _ _ Hrun); [| exact Hn].
    destruct (prod_step_inv es s vs Hi) as (s1' & e' & _ & He' & _ & _ & Hsame). rewrite He in He'.
    injection He' as <- <-. by rewrite Hsame.
  - unfold cons_step in He. rewrite (proj2 (Nat.ltb_ge _ _)) in He by lia.
    assert (is_Some (cout s1)) as [l Hl].
    { apply (f_equal (λ r, match r with Ret (s', _) => cout s' | _ => None end)) in He. cbn [cout] in He. rewrite <-He. eauto. }
    exists l. by apply (cout_kept _ _ _ _ _ Hrun).
Qed.

Lemma joined_behind es s vs : program_inv es s vs → joined s = true ↔ behind s = (2 * items + 1)%nat.
Proof using.
  intros Hi. pose proof (program_counts _ _ _ Hi) as Hc. pose proof (pi_bound _ _ _ Hi) as Hb.
  unfold joined, behind. rewrite !andb_true_iff, !Nat.eqb_eq. destruct (cout s); split; lia || intros [_ [=]].
Qed.

Lemma fair_turn_progress es s sched vs s' es' :
  program_inv es s vs → joined s = false → fair_turn sched → run_schedule run_step s sched = Ret (s', es') →
  (behind s < behind s')%nat.
Proof using Hk.
  intros Hi Hnot [Hp Hc] Hrun. pose proof (program_counts _ _ _ Hi) as Hcount. pose proof (pi_bound _ _ _ Hi) as Hb.
  destruct (program_run_inv es s sched vs Hi) as (s2 & es2 & vs2 & Hrun2 & Hi2 & Hle & Hle'). rewrite Hrun in Hrun2.
  injection Hrun2 as <- <-. unfold behind.
  assert (match cout s with Some _ => 1 | None => 0 end ≤ match cout s' with Some _ => 1 | None => 0 end)%nat as Hcout.
  { destruct (cout s) as [l |] eqn:Hl; [| lia]. by rewrite (cout_kept _ _ _ _ _ Hrun Hl). }
  destruct (decide (cnt s < items)%nat) as [Hlt | Hge].
  - destruct (decide (vs = [])) as [-> | Hvs].
    + enough (i s < i s')%nat by lia. refine (enough_pushes es s sched [] s' es' Hi _ _ _ Hrun).
      * simpl in Hcount. lia.
      * unfold kCapacity. apply Z.pow_pos_nonneg; lia.
      * pose proof (emplace_left_bound (the_queue s)). lia.
    + enough (cnt s < cnt s')%nat by lia. refine (enough_pops es s sched vs s' es' Hi Hlt Hvs _ Hrun).
      pose proof (pop_left_bound (the_queue s)). lia.
  - destruct (cout s) eqn:Hl.
    { exfalso. unfold joined in Hnot. rewrite Hl, (proj2 (Nat.eqb_eq (i s) _)), (proj2 (Nat.eqb_eq (cnt s) _)) in Hnot by lia. done. }
    destruct (enough_to_print es s sched vs s' es' Hi ltac:(lia) ltac:(lia) Hrun) as [l ->]. lia.
Qed.

Lemma run_turns es s turns vs :
  program_inv es s vs → Forall fair_turn turns → (2 * items + 1 ≤ behind s + length turns)%nat →
  ∃ s' es' vs', run_schedule run_step s (concat turns) = Ret (s', es') ∧ program_inv (es ++ es') s' vs' ∧ joined s' = true.
Proof using Hk.
  intros Hi Hturns. revert es s vs Hi. induction Hturns as [| turn turns Hturn _ IH]; intros es s vs Hi Hn.
  - exists s, [], vs. cbn [concat run_schedule]. rewrite app_nil_r. split_and!; [done | exact Hi |].
    apply (joined_behind es s vs Hi). pose proof (program_counts _ _ _ Hi). pose proof (pi_bound _ _ _ Hi).
    cbn [length] in Hn. unfold behind in *. destruct (cout s); lia.
  - cbn [concat]. rewrite run_schedule_app. destruct (program_run_inv es s turn vs Hi) as (s1 & es1 & vs1 & Hrun & Hi1 & Hle & Hle').
    rewrite Hrun. cbn [obind]. destruct (IH _ s1 vs1 Hi1) as (s' & es' & vs' & -> & Hi' & Hj).
    { destruct (joined s) eqn:Hj; [| pose proof (fair_turn_progress es s turn vs s1 es1 Hi Hj Hturn Hrun); simpl in Hn; lia].
      apply (joined_behind es s vs Hi) in Hj. unfold behind in *.
      assert (match cout s with Some _ => 1 | None => 0 end ≤ match cout s1 with Some _ => 1 | None => 0 end)%nat; [| lia].
      destruct (cout s) as [l |] eqn:Hl; [| lia]. by rewrite (cout_kept _ _ _ _ _ Hrun Hl). }
    cbn [obind]. exists s', (es1 ++ es'), vs'. rewrite (assoc_L (++)). split_and!; [done | exact Hi' | exact Hj].
Qed.

Lemma popped_prefix es s vs : program_inv es s vs → popped es = static_cast <$> seq 0 (cnt s).
Proof using.
  intros Hi. pose proof (pi_fifo _ _ _ Hi) as Hf. rewrite (pi_pushed _ _ _ Hi), (program_counts _ _ _ Hi), seq_app, fmap_app in Hf.
  apply app_inj_1 in Hf as [-> _]; [done |]. by rewrite length_fmap, length_seq, (pi_popped _ _ _ Hi).
Qed.

Lemma queue_size es s vs : program_inv es s vs → size (the_queue s) (the_queue s) = zlen vs ∧ zlen vs ≤ kCapacity k.
Proof using Hk.
  intros Hi. destruct (pi_queue _ _ _ Hi) as [lo [Hh Ht Hl _ _ _ _]]. split; [| exact Hl].
  unfold size. rewrite Hh, Ht, (Ring.distance_u64 k Hk) by lia. lia.
Qed.

(** At any point of any run the consumer has taken out the numbers from 0 on, in
    order, and is behind the producer by what the queue holds. *)
Theorem example_in_order sched :
  ∃ s es, run_schedule run_step start sched = Ret (s, es) ∧
    popped es = static_cast <$> seq 0 (cnt s) ∧ (cnt s ≤ i s ≤ items)%nat ∧
    Z.of_nat (i s) - Z.of_nat (cnt s) = size (the_queue s) (the_queue s) ∧
    size (the_queue s) (the_queue s) ≤ kCapacity k.
Proof using Hk.
  destruct (program_run_inv [] start sched [] program_inv_start) as (s & es & vs & Hrun & Hi & _). exists s, es.
  pose proof (program_counts _ _ _ Hi) as Hc. destruct (queue_size _ _ _ Hi) as [Hs Hle]. rewrite Hs.
  split_and!; [exact Hrun | by eapply popped_prefix | lia | by eapply pi_bound | lia | exact Hle].
Qed.

(** C11: The program of the example ends: two threads that spin, each given six
    steps in every turn, have returned after at most two turns per item and one
    more; the consumer has then received every number once and in order, it
    prints their count, and it leaves the queue empty. *)
Theorem example_ends turns :
  Forall fair_turn turns → (2 * items + 1 ≤ length turns)%nat →
  ∃ s es, run_schedule run_step start (concat turns) = Ret (s, es) ∧ joined s = true ∧
    popped es = static_cast <$> seq 0 items ∧
    cout s = Some (lit "Got: " ++ decimal 20 (Z.of_nat items) ++ lit " items" ++ [NEWLINE]) ∧
    size (the_queue s) (the_queue s) = 0.
Proof using Hk.
  intros Hturns Hn. destruct (run_turns [] start turns [] program_inv_start Hturns) as (s & es & vs & Hrun & Hi & Hj).
  { etransitivity; [exact Hn | apply Nat.le_add_l]. }
  exists s, es. pose proof (program_counts _ _ _ Hi) as Hc. destruct (queue_size _ _ _ Hi) as [Hs _].
  pose proof Hj as Hj'. unfold joined in Hj'. apply andb_true_iff in Hj' as [[Hii%Nat.eqb_eq Hcnt%Nat.eqb_eq]%andb_true_iff Hcout].
  split_and!; [exact Hrun | exact Hj | rewrite <-Hcnt; by apply (popped_prefix _ _ _ Hi) | | lia].
  destruct (cout s) as [l |] eqn:Hl; [| done]. f_equal. by apply (pi_cout _ _ _ Hi).
Qed.
End Example.

(** Three items through a queue of two slots. *)
Lemma example_ends_witness :
  let turn := replicate 6 Prod ++ replicate 6 Cons in
  ∃ s es, run_schedule (run_step Z.of_nat 1 3) (start 1) (concat (replicate 7 turn)) = Ret (s, es) ∧
    joined 3 s = true ∧ popped es = [0; 1; 2] ∧ cout s = Some (lit "Got: 3 items" ++ [NEWLINE]) ∧
    size (the_queue s) (the_queue s) = 0.
Proof.
  apply (example_ends Z.of_nat 1 3); [lia | | simpl; lia].
  apply Forall_replicate. split; vm_compute; lia.
Defined.

(** The program itself: elements of 8 bytes in 1 KB, a hundred thousand items. *)
Example example_parameters : kCapacity 7 = Z.shiftl 1 10 / 8.
Proof. reflexivity. Qed.

(** ** The main program of handle/Any.cc

    Two objects, one of each kind of storage, destroyed in the reverse order. *)

Section AnyMain.
(** [double], and what [std::cout] makes of one. *)
Context {double : Type} (three_point_fourteen : double) (show_double : double → str).

Inductive scalar : Type := Int (n : Z) | Double (x : double).

Definition show (v : scalar) : str := match v with Int n => decimal 10 n | Double x => show_double x end.

(** [sizeof(Any<T>)] on a 64-bit target: four bytes of storage, four of padding, a
    pointer, a flag, seven of padding. *)
Definition sizeof_any : Z := 4 + 4 + 8 + 1 + 7.

Definition sizeof_line (name : string) : str := lit name ++ decimal 10 sizeof_any ++ [NEWLINE].

(** What is printed, with the heap at the end. *)
Definition main (h : heap (cell scalar)) : outcome (str * heap (cell scalar)) :=
  let! (someAny, h) := Any.construct 4 4 (Int 1) h in
  let! value := any_cast true someAny h in
  let! (anotherAny, h) := Any.construct 8 8 (Double three_point_fourteen) h in
  let! double_value := any_cast true anotherAny h in
  let! h := Any.destroy anotherAny h in
  let! h := Any.destroy someAny h in
  Ret (sizeof_line "sizeof(any<int>): " ++ lit "Value stored: " ++ show value ++ [NEWLINE] ++
       sizeof_line "sizeof(any<double>): " ++ lit "Double value: " ++ show double_value ++ [NEWLINE], h).

(** The program runs to its end, prints the two values and frees its memory. *)
Theorem any_main_runs :
  returns (main empty_heap) (λ '(out, h),
    out = lit "sizeof(any<int>): 24" ++ [NEWLINE] ++ lit "Value stored: 1" ++ [NEWLINE] ++
          lit "sizeof(any<double>): 24" ++ [NEWLINE] ++ lit "Double value: " ++ show_double three_point_fourteen ++ [NEWLINE] ∧
    frame h ∅).
Proof.
  vm_compute. split; [reflexivity |]. split; [| reflexivity]. intros b [x Hx]. by destruct b.
Qed.
End AnyMain.
