(* ===== verification/Tests.v ===== *)
(** * Tests: the unit tests of the repository, run by the models

    Each test of src/tests that makes an assertion about a modelled component is
    replayed here, on the same input, by evaluating the definitions; what is stated
    are the test's own expectations.  The tests of clocks and random numbers only
    print. *)

From stdpp Require Import base tactics numbers list option gmap strings.
From Stdlib Require Import ZArith Lia Ascii.
From S2P Require Import Prelude Text SPSCLogger ThreadPool Storage Heap SPSCQueue Orderbook Vector Arena Bytes.
#[local] Open Scope Z_scope.
#[local] Open Scope fiah_scope.

(** ** Vector_test.cc *)

Module VectorTest.
Abbreviation ints := (Vector.session (V := Z) 0 4 true (λ _, true)).
Abbreviation strings := (Vector.session (V := str) [] 32 true (λ _, true)).

(** [size] and the elements, by [operator[]], after a session from an empty vector. *)
Definition elements {V : Type} 
  (m : outcome (heap (list (cell V)) * vec * list (Vector.reply (V := V)))) : outcome (Z * list V) :=
  let! (h, v, _) := m in
  let! n := Vector.size v in
  let! l := foldr (λ i r, let! l := r in let! p := Vector.subscript v (Z.of_nat i) in
                          let! x := Vector.read_elem h p in Ret (x :: l)) (Ret []) (seq 0 (Z.to_nat n)) in
  Ret (n, l).

Example DefaultConstructor : elements (ints empty_heap Vector.Vector []) = Ret (0, []).
Proof. vm_compute. reflexivity. Qed.

Example PushBackIntegers :
  elements (ints empty_heap Vector.Vector (Vector.PushBack <$> [10; 20; 30])) = Ret (3, [10; 20; 30]).
Proof. vm_compute. reflexivity. Qed.

Example PushBackStrings :
  let words := lit <$> ["Hello"; "World"; "Test"]%string in
  elements (strings empty_heap Vector.Vector (Vector.PushBack <$> words)) = Ret (3, words).
Proof. vm_compute. reflexivity. Qed.

Example CapacityGrowth :
  elements (ints empty_heap Vector.Vector (Vector.PushBack <$> seqZ 0 20)) = Ret (20, seqZ 0 20).
Proof. vm_compute. reflexivity. Qed.
End VectorTest.

(** ** Orderbook_test.cc

    Twenty orders, buys and sells in turn, each a unit dearer and larger than the
    one before. *)

Module OrderbookTest.
Definition orders : list Order :=
  (λ n, new_Order (2 + n) (1 + n) (Z.even n) (4 + n)) <$> seqZ 0 20.

Example AddOrdersAndGenerateTrades :
  match Orderbook.session empty_book (Orderbook.Add <$> orders) with
  | Ret (trades, _) => trades ≠ []
  | _ => False
  end.
Proof. vm_compute. discriminate. Qed.
End OrderbookTest.

(** ** spscqueue_test.cc *)

Module SPSCQueueTest.
(** [SPSCQueue<int, 1024>], one thread: a call runs to its end at once. *)
Definition push (x : Z) : list (SPSCQueue.action Z) := CallPush x :: replicate 4 RunProducer.

Definition after (pushes : list Z) : outcome (SPSCQueue.queue Z * list (SPSCQueue.event Z)) :=
  exec_all 10 (SPSCQueue.init 10) (pushes ≫= push).

Example AddElements :
  kCapacity 10 = 1024 ∧ SPSCQueue.size (SPSCQueue.init (T := Z) 10) (SPSCQueue.init 10) = 0 ∧
  match after (seqZ 0 1022) with
  | Ret (q, es) => es = Ev_push <$> seqZ 0 1022 ∧ SPSCQueue.size q q = 1022
  | _ => False
  end ∧
  match after (seqZ 0 1022 ++ [1; 2]) with
  | Ret (q, es) => drop 1022 es = [Ev_push 1; Ev_push 2] ∧ SPSCQueue.size q q = 1024
  | _ => False
  end ∧
  match after (seqZ 0 1022 ++ [1; 2; 3]) with
  | Ret (q, es) => drop 1024 es = [Ev_push_full 3] ∧ SPSCQueue.size q q = 1024
  | _ => False
  end.
Proof. vm_compute. split_and!; reflexivity. Qed.
End SPSCQueueTest.

(** ** Allocator_test.cc

    The buffer of each test is at some address of the stack; the containers of the
    standard library ask for one array, or for one node per element. *)

Module AllocatorTest.
Definition buff : Z := 2 ^ 47 + 64.
Definition arena (size : Z) : BumpArena := new_BumpArena buff size.
Definition resize (n : Z) : list Arena.request := [Request 4 4 n].
(** A node of a list: two pointers and an [int], with padding. *)
Definition node : Arena.request := Request 24 8 1.

Example VectorValidAllocation :
  match allocate_all (arena (Z.shiftl 1 5)) (resize (Z.shiftl 1 5 / 4)) with
  | Ret (blocks, _) => blocks = [(buff, 32)]
  | _ => False
  end.
Proof. vm_compute. reflexivity. Qed.

Example VectorInvalidAllocation : allocate_all (arena (Z.shiftl 1 5)) (resize (Z.shiftl 1 5 / 4 + 1)) = Abort.
Proof. vm_compute. reflexivity. Qed.

Example ArenaInvalid : allocate_all (new_BumpArena 0 (Z.shiftl 1 5)) (resize 1) = Abort.
Proof. vm_compute. reflexivity. Qed.

(** Removing elements gives nothing back: five insertions fit, a sixth does not. *)
Example ListAllocation :
  match allocate_all (arena (24 * 5)) (replicate 5 node) with
  | Ret (_, a) =>
      let a := foldl (λ a _, deallocate a buff 1) a (seq 0 5) in
      full a = true ∧ allocate_all a [node] = Abort
  | _ => False
  end.
Proof. vm_compute. split; reflexivity. Qed.
End AllocatorTest.

(** ** Memory_test.cc *)

Module MemoryTest.
Definition bytes (s : string) : list Z := (λ c, Z.of_N (N_of_ascii c)) <$> lit s.

(** [s] with its terminating zero at [p], and [n] zeros at [q]. *)
Definition memory_with (p : Z) (s : string) (q : Z) (n : nat) : Bytes.memory :=
  list_to_map (zip (seqZ p (zlen (bytes s) + 1)) (bytes s ++ [0])) ∪
  list_to_map (zip (seqZ q (Z.of_nat n)) (replicate n 0)).

(** The characters a [string_view] of the pointer holds. *)
Fixpoint view (fuel : nat) (m : Bytes.memory) (p : Z) : list Z :=
  match fuel, m !! p with
  | S fuel, Some x => if x =? 0 then [] else x :: view fuel m (p + 1)
  | _, _ => []
  end.

Example MemmoveOverlappingRegions :
  match Memmove (memory_with 1000 "himom" 0 0) 1002 1000 2 with
  | Ret (m, _) => view 10 m 1000 = bytes "hihim"
  | _ => False
  end.
Proof. vm_compute. reflexivity. Qed.

Example StrcpyBasicCopy :
  match Strcpy (memory_with 1000 "12hi34" 2000 7) 2000 1000 with
  | Ret (m, _) => view 10 m 2000 = bytes "12hi34"
  | _ => False
  end.
Proof. vm_compute. reflexivity. Qed.

Example MemcpyLongString :
  let arr := "reallyLongStringYouWouldntEvenBelieveItCuzzin"%string in
  match Memcpy (memory_with 1000 arr 2000 100) 2000 1000 (S (length (bytes arr))) with
  | Ret (m, _) => view 100 m 2000 = bytes arr
  | _ => False
  end.
Proof. vm_compute. reflexivity. Qed.
End MemoryTest.

(** ** ThreadPool_test.cc *)

Module ThreadPoolTest.
Definition num_threads : nat := Nat.shiftl 1 5.

(** The workers run as far as they like before the question is asked. *)
Definition schedule (l : list nat) : list (ThreadPool.action unit) :=
  replicate num_threads RunConstructor ++ (ThreadPool.RunWorker <$> l) ++
  [CallCount 0] ++ replicate 3 (ThreadPool.RunClient 0).

Example ConstructMultipleThreads :
  match run_schedule (ThreadPool.exec num_threads) ThreadPool.init (schedule (seq 0 32 ++ seq 0 32 ++ seq 0 20)) with
  | Ret (q, es) => spawned q = num_threads ∧ base.size (m_workers q) = num_threads ∧ es = [Ev_count 0 0]
  | _ => False
  end.
Proof. vm_compute. split_and!; reflexivity. Qed.
End ThreadPoolTest.

(** ** Logger_test.cc

    Both tests use the one logger; a [jthread] that is not kept is joined at once, so
    the four threads log one after the other.  The consumer runs when it is given
    steps: here as many as the threads. *)

Module LoggerTest.
Abbreviation run_logger := (run_schedule (SPSCLogger.exec (R := str) (Q := list str) Ret) SPSCLogger.init).

Definition log (t : nat) (messages : list str) : list (SPSCLogger.action str) :=
  messages ≫= λ m, SPSCLogger.CallLog t m :: mjoin (replicate 12 [SPSCLogger.RunThread t; SPSCLogger.RunRunner]).

(** A message of the test ends its own line. *)
Definition msg (s : string) : str := lit s ++ [NEWLINE].
Definition consumer (n : nat) : str := lit "consumer" ++ decimal 10 (Z.of_nat n) ++ [NEWLINE].

Definition SingleProducer : list (SPSCLogger.action str) :=
  log 0 (msg <$> ["No"; "woman"; "no"; "cry"; "no"; "woman"; "no"; "cry"; ":')"]%string).

Definition MultiProducer : list (SPSCLogger.action str) :=
  log 0 [msg "main"] ++
  ([1; 2; 3; 4]%nat ≫= λ t, log t (replicate 3 (consumer t))) ++
  [SPSCLogger.CallNum 0; SPSCLogger.RunThread 0].

Example registered_threads :
  match run_logger (replicate 3 SPSCLogger.RunObject ++ SingleProducer ++ MultiProducer) with
  | Ret (s, es) =>
      last es = Some (SPSCLogger.Ev_num 0 5) ∧
      SPSCLogger.stdout s =
        (msg <$> ["No"; "woman"; "no"; "cry"; "no"; "woman"; "no"; "cry"; ":')"; "main"]%string) ++
        ([1; 2; 3; 4]%nat ≫= λ t, replicate 3 (consumer t))
  | _ => False
  end.
Proof. vm_compute. split; reflexivity. Qed.
End LoggerTest.
